(* ===== verification/_CoqProject ===== *)
-Q . S2P
Prelude.v
Bytes.v
Protocol.v
Env.v
Stream.v
SocketProxy.v
WrProxy.v
TcpProxy.v
Board.v
World.v
Session.v
Daemon.v
Static.v
Allocation.v
Invariant.v
Conforming.v
Pool.v
Demo.v
Lifecycle.v
Os.v
UnixSocket.v
Startup.v
Client.v
TomlNode.v
TomlContainers.v
TomlIterators.v
TomlWrite.v
TomlUtf8.v
TomlFormat.v
TomlReader.v
TomlParser.v
TomlScalar.v
TomlDocument.v
TomlSafety.v
TomlTotal.v
TomlExact.v
TomlText.v
TomlGrammar.v
TomlCompare.v
TomlRounding.v
TomlRetrieve.v
TomlBlanks.v
TomlStrings.v
TomlNumbers.v
TomlKeys.v
TomlTimes.v
TomlFloats.v
TomlValues.v
TomlTables.v
TomlRoundtrip.v
TomlView.v
TomlQuote.v
TomlFigures.v
TomlLayout.v
TomlSections.v
TomlFormatRoundtrip.v
Config.v
Main.v
