(* ===== verification/Prelude.v ===== *)
(** * boardproxy: a verification library

    boardproxy shares a pool of embedded boards between users. A daemon owns the
    boards; a user's client process connects to it over a UNIX socket, hands over
    its terminal and gets a board, or waits for one. While a session has a board,
    programs of the same shell may open proxy connections to it, plain TCP or the
    protocol of the WindRiver Workbench. Boards and proxies are described by a TOML
    file, which the program reads with the toml++ parser it ships. Names of source
    files are relative to the repository.

    ** The parts, and the files that model them

    Shared ground.
    - [Prelude], [Bytes]: bytes and fixed-width integers (a w-bit integer is a [Z]
      with its wrap-around written out), memory layout of integers, C strings,
      generic lemmas, the tactics and hint databases.
    - [Env]: effects, exceptions, undefined behaviour and the parameters of the
      model: fmt's formatting, boost's [split_unix] (which may throw), [fork], the
      clock. [Env] is a class whose laws state documented behaviour only (of fmt:
      what it makes of plain text with fields [{}], and that it refuses a field
      that is not closed); [demo_env] is an instance.
    - [Stream]: the [istringstream] and string operations of [wrproxy.cpp].

    The daemon.
    - [Protocol]: the setup message ([src/protocol.hpp]) at its byte offsets.
    - [Board]: [src/board.hpp], [src/board.cpp] and the search of
      [Daemon::find_available_board].
    - [SocketProxy], [TcpProxy], [WrProxy]: the proxies ([src/socket_proxy.cpp],
      [src/tcpproxy.cpp], [src/wrproxy.cpp]), each handler as a function from the
      object and the results of its system calls to effects and a new object. Each
      write has its own result; an effect says how much of it was taken.
    - [World]: the objects of the daemon as a record, a heap of sessions addressed
      by pointers (so that dangling pointers show), and the monad of the handlers:
      a result, an exception, or undefined behaviour; its weakest preconditions.
    - [Session], [Daemon]: the methods of [src/session.cpp] and [src/daemon.cpp]
      and the event loop as a step relation over enabled events.
    - [Static]: what no handler changes; runs from a given state.
    - [Allocation], [Invariant]: the invariant that holds whatever clients send.
    - [Conforming]: what holds in addition with clients that send what
      [src/client.cpp] sends, and the request of the allocator that an event makes
      ([event_request]: a session of a user asks for a board, willing to wait or
      not, or leaves). [Pool]: the allocator as an abstract pool of boards with
      steps labelled by requests, each with one outcome, and the proof that the
      daemon takes the step of its event's request. [Lifecycle]: sessions from
      connection to exit. [Demo]: the handlers executed on concrete events.

    Start and client.
    - [Os]: system calls with the history of calls as their state ([Kernel] is a
      parameter), [UnixSocket] ([src/unix_socket.cpp], and [us_run]: any use of
      socket objects up to the end of their scope), [Startup] (the constructor
      of [Daemon]), [Client] ([src/client.cpp] and its meeting with the daemon).
    - [Config]: [src/config.cpp], from the file to boards and proxy factories.
    - [Main]: the options and [main] ([src/boardproxy.cpp]).

    The TOML library ([include/toml.hpp]).
    - [TomlNode]: nodes and tables and the accessors the program uses.
      [TomlContainers]: the operations that change arrays and tables, with arrays
      as vectors of pointers and iterators of tables as positions, the lists and
      finite maps they implement, and operations at a path of a document.
      [TomlIterators]: the iterators of both, with tables in a store of nodes that
      have addresses, so that a reference may dangle. [TomlCompare]: the comparison
      operators.
    - [TomlRetrieve]: values as C++ types ([node::value_exact], [value], [value_or]
      and the traits), on [TomlRounding], conversions to floating point that lose
      nothing. [TomlView]: [node_view], the ways to ask what a node is, assignment,
      and [operator[]] down a parsed document.
    - [TomlUtf8]: character classes, the UTF-8 automaton, the readers.
    - [TomlParser], [TomlScalar], [TomlDocument]: [impl::parser] as a state monad,
      function by function: primitive steps and strings; booleans, numbers, dates
      and times; keys, values, table headers, the document and the entry points.
    - [TomlWrite], [TomlFormat]: how values are written, and [default_formatter]
      and [json_formatter] as operations on a stream.
    - [TomlReader]: the readers are exact. [TomlSafety]: a program logic for the
      parser and the safety of everything that only reads. [TomlTotal]: the parser
      ends for every text. [TomlExact]: what numbers and escapes evaluate to.
    - [TomlText]: where the parser is in a text, and what a function makes of the
      text it consumes ([reads]). [TomlGrammar]: a reference, the texts of values,
      lines and documents and what they mean. [TomlBlanks], [TomlStrings], [TomlNumbers],
      [TomlKeys], [TomlTimes], [TomlFloats], [TomlValues], [TomlTables],
      [TomlRoundtrip]: the parser reads each part of a text, and then the whole,
      as what it means.
    - [TomlQuote], [TomlFigures], [TomlLayout], [TomlSections],
      [TomlFormatRoundtrip]: what the formatter writes for strings, for numbers,
      dates and times, for values, and for a document is a text of the grammar that
      means the document.

    ** What the theorems show

    - Allocation: no board is ever given to two sessions, whatever clients send;
      lists never dangle; with conforming clients no handler is undefined, no user
      waits while a board is free for him, the close command runs before a board is
      handed on, and every event does to boards and queue what the abstract pool
      prescribes for its request.
    - Proxies: the Workbench protocol is deframed as its specification says and
      round trips as long as every write to the client is complete, and only then;
      TCP streams are preserved; a proxy connects only to the board of its session;
      buffers are bounded; which inputs make them throw.
    - Start: how [main] gets to a loop or to an exit code; which sockets a daemon
      listens on; no descriptor leaks; a descriptor is closed exactly once; the
      client speaks the protocol and its setup message arrives; which events end
      the loop.
    - Configuration: what a successful configuration contains; where reading it
      is undefined. [system_shares_boards] composes parser, configuration, start
      and event loop: from any file to any run, a board has one user.
    - TOML: the parser is total; readers are exact; for every integer literal it
      is stated whether it is read, and then exactly, or refused
      ([parse_integer_exact]).
    - TOML, functionally: every text of the grammar is parsed to exactly the
      tables, keys and values it means ([toml_document_roundtrip]); what the
      formatter writes is such a text, so that it is read back as a document equal
      to the one written ([toml_format_roundtrip]).
    - TOML documents: arrays and tables implement lists and finite maps, whatever
      operations run on them, and what they return is what the maps return; a
      document stays well-formed when it is edited at a path; the comparison operators are
      those of one order, and equality is equality of data. An iterator of a table
      stays with its entry ([table_iterators_exact]), but for the reference it keeps
      itself ([replaced_node_dangles]); loops with iterators are folds over the
      entries ([for_each_table], [for_each_array]), as the other files write them.
    - TOML, as a program sees it: at every path of a parsed document a view finds
      what the text says ([document_retrieval]), and a value is retrieved as an
      integer type exactly when it is a number of the type
      ([integer_retrieval_exact]); floating-point types keep numbers too
      ([float_retrieval_exact]), and the three ways to ask agree ([retrieval_agrees]).
    - Defects the model exposes are theorems too, with a concrete run as witness.

    ** Fuel and bounds

    Loops of the TOML parser take fuel: [looping] starts a loop with one more round
    than there are reads left ([reads_left]: code points still to be replayed, and
    bytes of the stream); [toml_parse_total] proves that this is always enough.
    Nested values use the same bound, since each level consumes a character. All
    other recursion is structural.

    ** Not modelled

    Logging ([src/log.cpp]), [src/debug.hpp] and [src/version.cpp]: output only.
    libev, systemd, argp and the kernel are the environment: their choices are
    inputs of the model. Of toml++, the non-throwing and Windows variants, the code
    for unreleased versions of the language, the iterators of the C++ library below
    those of toml++ (a position or an entry stands for one), types that only some compilers have, and the templates that select an overload; read errors of a file that is being read;
    the size of the C++ stack, which the recursion of nested values could exhaust.
    The C library's [log10], with which the formatter estimates widths, is a
    parameter. The grammar has no dotted keys in inline tables, no underscores in
    floats and no dates separated from times by a blank: they are modelled and
    proved safe and total only. Not read
    back from the formatter are strings written over several lines, floats that
    sixteen digits do not identify, the smallest [int64_t], quoted dates, arrays with
    a float of undefined width and tables with a backslash in the name. The order in which
    C++ evaluates the arguments of a call is a parameter ([ltr]) where it matters. *)
From Stdlib Require Export Strings.Byte ZArith Lia.
From stdpp Require Export base numbers option strings tactics sets gmap list.

#[export] Set Default Goal Selector "!".

(** ** Notation scope of the development *)
Declare Scope bp_scope.
Delimit Scope bp_scope with bp.

(** ** Bytes: every [std::string], [char[]] and socket payload of the program *)
Abbreviation byte := Init.Byte.byte.
Abbreviation bytes := (list byte).

#[global] Instance byte_eq_dec : EqDecision byte := Byte.byte_eq_dec.
#[global] Arguments byte_eq_dec : simpl never.
#[global] Instance byte_inhabited : Inhabited byte := populate x00.

(** A string literal of the source as the bytes it denotes. *)
Definition bs (s : string) : bytes := String.list_byte_of_string s.

(** Bytes as unsigned numbers, and the truncating conversion back. *)
Definition byte_to_Z (b : byte) : Z := Z.of_N (Byte.to_N b).
Definition byte_of_Z (z : Z) : byte :=
  default x00 (Byte.of_N (Z.to_N (z mod 256))).

(** Conversions to the fixed-width integers of the source. *)
Definition u8 (z : Z) : Z := z mod 2 ^ 8.
Definition u16 (z : Z) : Z := z mod 2 ^ 16.
Definition u32 (z : Z) : Z := z mod 2 ^ 32.
Definition u64 (z : Z) : Z := z mod 2 ^ 64.
Definition s32 (z : Z) : Z := (z + 2 ^ 31) mod 2 ^ 32 - 2 ^ 31.
Definition s64 (z : Z) : Z := (z + 2 ^ 63) mod 2 ^ 64 - 2 ^ 63.

(** ** Tactics *)

(** Decompose the hypotheses that carry several facts. *)
Ltac crush_hyps :=
  repeat match goal with
  | H : _ ∧ _ |- _ => destruct H
  | H : ∃ _, _ |- _ => destruct H
  | H : Some _ = Some _ |- _ => injection H as H; try subst
  | H : (_, _) = (_, _) |- _ => injection H as H; try subst
  end; simplify_eq/=.

(** Case analysis on the scrutinee of a [match] or [if] of the goal. *)
Ltac case_goal :=
  match goal with
  | |- context [match ?x with _ => _ end] => destruct x eqn:?
  end.

(** ** Hint databases *)
Create HintDb bp discriminated.
Create Rewrite HintDb bp_simpl.

(** ** Generic lemmas *)
Section bytes_facts.
Local Open Scope Z_scope.

Lemma byte_to_Z_range b : 0 ≤ byte_to_Z b < 256.
Proof.
  unfold byte_to_Z. pose proof (Byte.to_N_bounded b). lia.
Qed.

Lemma byte_of_to_Z b : byte_of_Z (byte_to_Z b) = b.
Proof.
  unfold byte_of_Z. rewrite Z.mod_small by apply byte_to_Z_range.
  unfold byte_to_Z. rewrite N2Z.id, Byte.of_to_N. done.
Qed.

Lemma byte_to_of_Z z : byte_to_Z (byte_of_Z z) = z mod 256.
Proof.
  unfold byte_of_Z.
  assert (0 ≤ z mod 256 < 256) as Hr by (apply Z.mod_pos_bound; lia).
  destruct (Byte.of_N (Z.to_N (z mod 256))) as [b|] eqn:E; simpl.
  - apply Byte.to_of_N in E. unfold byte_to_Z. rewrite E. lia.
  - apply Byte.of_N_None_iff in E. lia.
Qed.

Lemma byte_to_Z_inj b1 b2 : byte_to_Z b1 = byte_to_Z b2 → b1 = b2.
Proof. intros H. by rewrite <- (byte_of_to_Z b1), <- (byte_of_to_Z b2), H. Qed.

Lemma s32_range z : - 2 ^ 31 ≤ s32 z < 2 ^ 31.
Proof. unfold s32. pose proof (Z.mod_pos_bound (z + 2 ^ 31) (2 ^ 32)). lia. Qed.

Lemma s32_id z : - 2 ^ 31 ≤ z < 2 ^ 31 → s32 z = z.
Proof. intros. unfold s32. rewrite Z.mod_small; lia. Qed.

Lemma s32_mod z : s32 (z mod 2 ^ 32) = s32 z.
Proof. unfold s32. by rewrite Zplus_mod_idemp_l. Qed.
End bytes_facts.

#[export] Hint Resolve byte_to_Z_range s32_range : bp.
#[export] Hint Rewrite byte_of_to_Z byte_to_of_Z : bp_simpl.

Section list_facts.
Context {A : Type}.

(** [std::list::remove] keeps the elements that differ, in their order. *)
Lemma filter_sublist (P : A → Prop) `{!∀ x, Decision (P x)} (l : list A) :
  sublist (filter P l) l.
Proof.
  induction l as [|x l IH]; [done|].
  rewrite filter_cons. case_decide; by constructor.
Qed.

Lemma filter_id (P : A → Prop) `{!∀ x, Decision (P x)} (l : list A) :
  Forall P l → filter P l = l.
Proof.
  induction 1 as [|x l Hx Hl IH]; [done|]. rewrite filter_cons_True; congruence.
Qed.

Lemma take_app_drop_n (n : nat) (l k : list A) :
  length l = n → take n (l ++ k) = l ∧ drop n (l ++ k) = k.
Proof. intros <-. split; [apply take_app_length | apply drop_app_length]. Qed.

(** The first element of a list that passes a boolean test, with its
    position: every search loop of the source is of this shape. *)
Lemma list_find_ext (P Q : A → Prop) `{!∀ x, Decision (P x)} `{!∀ x, Decision (Q x)} (l : list A) :
  (∀ x, x ∈ l → P x ↔ Q x) → list_find P l = list_find Q l.
Proof.
  induction l as [|x l IH]; intros Heq; [done|]. simpl.
  assert (P x ↔ Q x) by (apply Heq; by left).
  rewrite IH by (intros y Hy; apply Heq; by right).
  do 2 case_decide; tauto || done.
Qed.
End list_facts.
