(* ===== verification/Bytes.v ===== *)
(** * Bytes: integers in memory and C strings

    What the program uses of the memory layout of its data: the fixed-width
    integers of a little-endian machine ([int], [uint32_t], [pid_t] of
    [src/src/protocol.hpp]), the network order of [htobe32]/[be32toh]
    ([src/src/wrproxy.cpp]), NUL-terminated strings ([std::string::c_str],
    the assignment of a [char*] to a [std::string]) and [strncpy]. *)
From Stdlib Require DecimalString.
From S2P Require Import Prelude.

Local Open Scope Z_scope.

(** ** Fixed-width integers *)
Fixpoint le_bytes (n : nat) (z : Z) : bytes :=
  match n with
  | O => []
  | S n => byte_of_Z z :: le_bytes n (z / 256)
  end.

Fixpoint le_Z (l : bytes) : Z :=
  match l with
  | [] => 0
  | b :: l => byte_to_Z b + 256 * le_Z l
  end.

Definition be_bytes (n : nat) (z : Z) : bytes := rev (le_bytes n z).
Definition be_Z (l : bytes) : Z := le_Z (rev l).

(** A number as printed. *)
Definition dec (z : Z) : bytes := bs (DecimalString.NilEmpty.string_of_uint (N.to_uint (Z.to_N z))).

(** ** NUL-terminated strings *)

(** The bytes before the first NUL; [None] when there is none: the read runs
    past the end of the object. *)
Fixpoint c_str_at (l : bytes) : option bytes :=
  match l with
  | [] => None
  | b :: l => if decide (b = x00) then Some [] else (b ::.) <$> c_str_at l
  end.

(** What a C function sees of [s.c_str()]: the string up to its first NUL. *)
Definition c_str (s : bytes) : bytes := default [] (c_str_at (s ++ [x00])).

(** [strncpy(dst, src, n)]: [n] bytes, the rest filled with NULs. *)
Definition strncpy (n : nat) (src : bytes) : bytes :=
  take n (take n (c_str src) ++ replicate n x00).

(** ** Facts *)
Lemma length_le_bytes n z : length (le_bytes n z) = n.
Proof. revert z. induction n; intros z; simpl; [done | by rewrite IHn]. Qed.

Lemma length_be_bytes n z : length (be_bytes n z) = n.
Proof. unfold be_bytes. by rewrite length_rev, length_le_bytes. Qed.

Lemma le_Z_bytes n z : le_Z (le_bytes n z) = z mod 256 ^ Z.of_nat n.
Proof.
  revert z. induction n as [|n IH]; intros z; cbn [le_bytes le_Z].
  - by rewrite Z.mod_1_r.
  - rewrite IH, byte_to_of_Z, Nat2Z.inj_succ, Z.pow_succ_r by lia.
    rewrite Z.rem_mul_r; lia.
Qed.

Lemma le_bytes_Z l : le_bytes (length l) (le_Z l) = l.
Proof.
  induction l as [|b l IH]; [done|]. cbn [le_Z le_bytes length].
  pose proof (byte_to_Z_range b).
  assert ((byte_to_Z b + 256 * le_Z l) / 256 = le_Z l) as ->.
  { rewrite Z.mul_comm, Z.div_add by lia. rewrite Z.div_small; lia. }
  rewrite IH. f_equal. apply byte_to_Z_inj.
  rewrite byte_to_of_Z, Z.mul_comm, Z_mod_plus_full, Z.mod_small; lia.
Qed.

Lemma le_Z_range l : 0 ≤ le_Z l < 256 ^ Z.of_nat (length l).
Proof.
  induction l as [|b l IH]; cbn [le_Z length].
  - simpl. lia.
  - rewrite Nat2Z.inj_succ, Z.pow_succ_r by lia. pose proof (byte_to_Z_range b). lia.
Qed.

Lemma be_Z_bytes n z : be_Z (be_bytes n z) = z mod 256 ^ Z.of_nat n.
Proof. unfold be_Z, be_bytes. by rewrite rev_involutive, le_Z_bytes. Qed.

Lemma be_bytes_Z l : be_bytes (length l) (be_Z l) = l.
Proof.
  unfold be_Z, be_bytes. rewrite <- (length_rev l), le_bytes_Z. apply rev_involutive.
Qed.

Lemma be_Z_range l : 0 ≤ be_Z l < 256 ^ Z.of_nat (length l).
Proof. unfold be_Z. rewrite <- length_rev. apply le_Z_range. Qed.

Lemma c_str_at_app s r : x00 ∉ s → c_str_at (s ++ x00 :: r) = Some s.
Proof.
  induction s as [|b s IH]; intros Hn; simpl.
  - done.
  - rewrite decide_False by set_solver. rewrite IH by set_solver. done.
Qed.

Lemma c_str_at_inv l s : c_str_at l = Some s → (x00 ∉ s) ∧ (∃ r, l = s ++ x00 :: r).
Proof.
  revert s. induction l as [|b l IH]; intros s; simpl; [done|].
  case_decide as Hb.
  - intros [= <-]. subst. split; [set_solver | by exists l].
  - intros (s' & Hs & ->)%fmap_Some. destruct (IH _ Hs) as [Hn [r ->]].
    split; [set_solver | by exists r].
Qed.

Lemma c_str_at_total l : x00 ∈ l → is_Some (c_str_at l).
Proof.
  induction l as [|b l IH]; simpl; [set_solver|]. intros Hin.
  case_decide; [by eexists|]. destruct IH as [s ->]; [set_solver | by eexists].
Qed.

Lemma c_str_spec s : (x00 ∉ c_str s) ∧ (∃ r, s ++ [x00] = c_str s ++ x00 :: r).
Proof.
  unfold c_str. destruct (c_str_at_total (s ++ [x00])) as [t Ht]; [set_solver|].
  rewrite Ht. simpl. by apply c_str_at_inv.
Qed.

Lemma c_str_no_nul s : x00 ∉ s → c_str s = s.
Proof. intros H. unfold c_str. by rewrite c_str_at_app. Qed.

Lemma c_str_app_no_nul s r : x00 ∉ s → c_str (s ++ r) = s ++ c_str r.
Proof.
  intros Hn. unfold c_str. rewrite <- app_assoc.
  destruct (c_str_at_total (r ++ [x00])) as [t Ht]; [set_solver|]. rewrite Ht. cbn.
  apply c_str_at_inv in Ht as (Ht & q & ->). rewrite app_assoc, c_str_at_app; [done|set_solver].
Qed.

Lemma c_str_idemp s : c_str (c_str s) = c_str s.
Proof. apply c_str_no_nul, c_str_spec. Qed.

Lemma c_str_prefix s : c_str s `prefix_of` s.
Proof.
  destruct (c_str_spec s) as [Hn [r Hr]].
  destruct (decide (r = [])) as [-> | Hr0].
  - apply app_inj_2 in Hr as [Hs _]; [|done]. rewrite <- Hs. done.
  - destruct (exists_last Hr0) as [r' [x ->]].
    rewrite app_comm_cons, app_assoc in Hr. apply app_inj_2 in Hr as [Hs _]; [|done].
    rewrite Hs at 2. eexists. done.
Qed.

Lemma length_strncpy n s : length (strncpy n s) = n.
Proof. unfold strncpy. rewrite length_take, length_app, length_take, length_replicate. lia. Qed.

(** A buffer of [n + 1] zeroed bytes into which at most [n] bytes were copied
    reads back as the string cut at [n] bytes. *)
Lemma c_str_at_strncpy n s r :
  c_str_at (strncpy n s ++ x00 :: r) = Some (take n (c_str s)).
Proof.
  unfold strncpy.
  assert (x00 ∉ take n (c_str s)) as Hn.
  { intros H%elem_of_take. destruct H as (i & Hi & _).
    apply (c_str_spec s). by eapply list_elem_of_lookup_2. }
  rewrite take_app, take_take, Nat.min_id, take_replicate.
  set (k := (_ `min` _)%nat). destruct k as [|k]; simpl.
  - rewrite app_nil_r. by apply c_str_at_app.
  - rewrite <- app_assoc. by apply c_str_at_app.
Qed.

#[export] Hint Rewrite length_le_bytes length_be_bytes length_strncpy : bp_simpl.
