(* ===== verification/Protocol.v ===== *)
(** * Protocol: the setup message of the client ([src/src/protocol.hpp])

    The layout is the one of the x86-64 System V ABI: [header] is
    [{int id; uint32_t length}], [setup] derives from it and adds
    [{int cmd; pid_t ppid; char username[32]; bool no_wait}] and three bytes of
    tail padding, 52 bytes in all. *)
From S2P Require Import Prelude Bytes.

Local Open Scope Z_scope.

Inductive msg_type := setup.

Inductive command := connect | list_sessions.

#[global] Instance command_eq_dec : EqDecision command.
Proof. solve_decision. Defined.

(** The underlying values of the two scoped enumerations. *)
Definition msg_type_code (m : msg_type) : Z := match m with setup => 0 end.
Definition command_code (c : command) : Z :=
  match c with connect => 0 | list_sessions => 1 end.

(** Conversion of a received integer: other values name no enumerator. *)
Definition command_of_code (z : Z) : option command :=
  if decide (z = 0) then Some connect
  else if decide (z = 1) then Some list_sessions
  else None.

Definition sizeof_header : nat := 8.
Definition sizeof_setup : nat := 52.
Definition sizeof_username : nat := 32.

(** Offsets of the fields of [setup]. *)
Definition off_cmd : nat := 8.
Definition off_ppid : nat := 12.
Definition off_username : nat := 16.
Definition off_no_wait : nat := 48.

(** [header(msg_type id, uint32_t length)] *)
Definition header (id : msg_type) (len : Z) : bytes :=
  le_bytes 4 (msg_type_code id) ++ le_bytes 4 len.

(** The constructor of [setup]: the object as it lies in memory. [username] is
    zeroed by its initialiser before [strncpy] fills its first 31 bytes; [pad]
    is the unspecified contents of the tail padding. *)
Definition setup_msg (cmd : command) (ppid : Z) (user : bytes) (no_wait : bool)
    (pad : bytes) : bytes :=
  header setup (Z.of_nat sizeof_setup)
  ++ le_bytes 4 (command_code cmd)
  ++ le_bytes 4 ppid
  ++ strncpy (sizeof_username - 1) user ++ [x00]
  ++ [if no_wait then x01 else x00]
  ++ take 3 (pad ++ replicate 3 x00).

(** ** Reading a message back from the receive buffer *)
Definition field (off len : nat) (buf : bytes) : bytes := take len (drop off buf).

Definition h_id (buf : bytes) : Z := s32 (le_Z (field 0 4 buf)).
Definition h_length (buf : bytes) : Z := le_Z (field 4 4 buf).
Definition s_cmd (buf : bytes) : Z := s32 (le_Z (field off_cmd 4 buf)).
Definition s_ppid (buf : bytes) : Z := s32 (le_Z (field off_ppid 4 buf)).
(** [std::string username = s->username]: up to the first NUL found from the
    start of the array, wherever that is; [None] when the receive buffer holds
    none from there on. *)
Definition s_username (buf : bytes) : option bytes := c_str_at (drop off_username buf).
Definition s_no_wait (buf : bytes) : bool :=
  bool_decide (default x00 (buf !! off_no_wait) ≠ x00).

(** ** The message survives the trip *)
Lemma length_header id len : length (header id len) = 8%nat.
Proof. unfold header. rewrite length_app, !length_le_bytes. done. Qed.

Lemma length_setup_msg cmd ppid user nw pad :
  length (setup_msg cmd ppid user nw pad) = sizeof_setup.
Proof.
  unfold setup_msg. rewrite !length_app, length_header, !length_le_bytes, length_strncpy.
  rewrite length_take, length_app, length_replicate. unfold sizeof_setup, sizeof_username. cbn [length]. lia.
Qed.

(** A field at a known offset of a concatenation. *)
Lemma field_app off len p q r :
  length p = off → length q = len → field off len (p ++ q ++ r) = q.
Proof.
  intros <- <-. unfold field. rewrite drop_app_length. apply take_app_length.
Qed.

Lemma command_of_code_code c : command_of_code (s32 (le_Z (le_bytes 4 (command_code c)))) = Some c.
Proof. by destruct c. Qed.

Section received.
Context (cmd : command) (ppid : Z) (user : bytes) (nw : bool) (pad rest : bytes).

Let m := setup_msg cmd ppid user nw pad ++ rest.

Lemma setup_msg_id : h_id m = msg_type_code setup.
Proof using Type. done. Qed.

Lemma setup_msg_length : h_length m = Z.of_nat sizeof_setup.
Proof using Type. done. Qed.

Lemma setup_msg_cmd : command_of_code (s_cmd m) = Some cmd.
Proof using Type.
  unfold m, setup_msg, s_cmd, off_cmd. rewrite <- !app_assoc, (field_app 8 4).
  - apply command_of_code_code.
  - apply length_header.
  - apply length_le_bytes.
Qed.

Lemma setup_msg_ppid : s_ppid m = s32 ppid.
Proof using Type.
  unfold m, setup_msg, s_ppid, off_ppid. rewrite <- !app_assoc.
  rewrite (app_assoc (header _ _)), (field_app 12 4).
  - rewrite le_Z_bytes. apply s32_mod.
  - rewrite length_app, length_header, length_le_bytes. done.
  - apply length_le_bytes.
Qed.

Lemma setup_msg_username : s_username m = Some (take 31 (c_str user)).
Proof using Type.
  unfold m, setup_msg, s_username, off_username. rewrite <- !app_assoc.
  rewrite (app_assoc (header _ _)), (app_assoc (header _ _ ++ _)).
  rewrite drop_app_length' by
    (rewrite !length_app, length_header, !length_le_bytes; done).
  apply c_str_at_strncpy.
Qed.

Lemma setup_msg_no_wait : s_no_wait m = nw.
Proof using Type.
  unfold s_no_wait, m, setup_msg, off_no_wait.
  match goal with |- context [?l !! 48%nat] => assert (l !! 48%nat = Some (if nw then x01 else x00)) as -> end.
  { rewrite <- !app_assoc.
    rewrite (app_assoc (header _ _)), (app_assoc (header _ _ ++ _)),
      (app_assoc ((header _ _ ++ _) ++ _)), (app_assoc (((header _ _ ++ _) ++ _) ++ _)).
    rewrite lookup_app_r, !length_app, length_header, !length_le_bytes, length_strncpy;
      [done|].
    rewrite !length_app, length_header, !length_le_bytes, length_strncpy. cbn. lia. }
  by destruct nw.
Qed.
End received.

#[export] Hint Rewrite setup_msg_id setup_msg_cmd setup_msg_ppid setup_msg_username
  setup_msg_no_wait : bp_simpl.
