(* ===== verification/Env.v ===== *)
(** * Env: what the program sees of the world around it

    The effects the handlers have on the operating system, the exceptions and
    undefined behaviour they can end in, and the interfaces of the code that is
    not part of the repository: the fmt formatting library, the C library's
    address parser, boost's command splitter, the kernel's [fork] and clock. *)
From S2P Require Import Prelude.

Local Open Scope Z_scope.

(** Addresses of heap objects ([Session*], [SocketProxy*]). *)
Abbreviation ptr := N.

(** ** Effects *)
Inductive effect :=
| EDprintf (fd : Z) (s : bytes)                        (* dprintf(fd, ...) *)
| ESpawn (pid : Z) (stdin stdout stderr : Z) (argv : list bytes)
                                                       (* fork + dup2 + execvp of the board command *)
| ESpawnClose (pid : Z) (argv : list bytes)            (* fork + execvp of the close command *)
| EKill (pid : Z)                                      (* kill(pid, SIGKILL) *)
| EClose (fd : Z)                                      (* close(fd) *)
| EBreakLoop                                           (* loop.break_loop() *)
| ESend (fd : Z) (data : bytes)                        (* write(fd, data): the bytes handed over *)
| ESendStream (fd : Z) (data : bytes) (n : Z)          (* write or send(fd, data) that returned n: the
                                                          bytes taken, or -1 *)
| EConnect (fd : Z) (ip : bytes) (addr : Z) (port : Z). (* connect() of an AF_INET socket *)

(** ** Exceptions: all of them leave the event loop and end [main] *)
Inductive exn :=
| SystemError (what : bytes)        (* std::system_error *)
| RuntimeError (what : bytes)       (* std::runtime_error *)
| FormatError (fmt : bytes)         (* fmt::format_error *)
| EscapedListError (command : bytes). (* boost::escaped_list_error *)

(** ** Undefined behaviour *)
Inductive ub :=
| UseAfterFree (p : ptr)            (* member access through a dangling Session* *)
| NullBoard                         (* member access through a null Board* *)
| BufferOverread                    (* a C string without a terminator *)
| NullNode                          (* member access through a null toml node *)
| EmptyOptional                     (* operator* of an empty std::optional *)
| FloatToInt                        (* conversion of a double that fits no int64_t *)
| BufferOverflow                    (* a write past the end of an array *)
| SignedOverflow                    (* an int64_t operation out of range *)
| FuelExhausted.                    (* none of the program's: a bound of the model is too small *)

(** ** The fmt library *)

(** [fmt::format(f, args...)] with string arguments; [None] when it throws
    [format_error]. *)
Class Fmt := fmt_format : bytes → list bytes → option bytes.

(** A byte that fmt gives no meaning to. *)
Definition plain_byte (b : byte) : Prop := b ≠ "{"%byte ∧ b ≠ "}"%byte.
#[global] Instance plain_byte_dec b : Decision (plain_byte b).
Proof. unfold plain_byte. apply _. Defined.

Abbreviation plain := (Forall plain_byte).

(** Format strings made of text without braces and of automatic fields [{}]
    only, with an argument for each field, and the result. *)
Inductive auto_format : bytes → list bytes → bytes → Prop :=
| auto_text s args : plain s → auto_format s args s
| auto_field p x q args r :
    plain p → auto_format q args r → auto_format (p ++ bs "{}" ++ q) (x :: args) (p ++ x ++ r).

(** What the documentation of fmt promises and the program relies on: in a
    string of text and automatic fields the text is copied and the fields are
    replaced by the arguments in their order, and an unmatched opening brace is
    an error. *)
Class FmtLaws `{Fmt} := {
  fmt_auto : ∀ f args r, auto_format f args r → fmt_format f args = Some r;
  fmt_unmatched : ∀ p args, plain p → fmt_format (p ++ bs "{") args = None;
}.

Lemma fmt_plain `{FmtLaws} s args : plain s → fmt_format s args = Some s.
Proof. intros Hs. by apply fmt_auto, auto_text. Qed.

Lemma fmt_one `{FmtLaws} p x q : plain p → plain q → fmt_format (p ++ bs "{}" ++ q) [x] = Some (p ++ x ++ q).
Proof. intros Hp Hq. by apply fmt_auto, auto_field, auto_text. Qed.

(** ** The operating system and the other libraries *)
Class Env := {
  env_fmt :: Fmt;
  (** result of the [n]-th call of [fork] in the parent *)
  fork_result : nat → Z;
  (** result of the [n]-th call of [system_clock::now] *)
  clock_now : nat → Z;
  (** [boost::program_options::split_unix]: the words of a command, [None] when
      it throws (a backslash before a character it gives no meaning to, or at
      the end) *)
  split_unix : bytes → option (list bytes);
  (** [inet_aton]: the address in network order, [None] when it returns 0 *)
  inet_aton : bytes → option Z;
  (** [fmt::vformat] with named string arguments; [None] when it throws *)
  fmt_named : bytes → list (bytes * bytes) → option bytes;
  (** ["{:Ns}"] of fmt and ["{:%c}"] of a local time *)
  fmt_pad : nat → bytes → bytes;
  fmt_time : Z → bytes;
}.

(** A [read] or [recv] of at most [space] bytes: [RErr] is [-1]; of the bytes
    [d] that are waiting it delivers the first [space]. *)
Inductive read_res := RErr | RData (d : bytes).

Definition do_read (space : nat) (r : read_res) : option bytes :=
  match r with
  | RErr => None
  | RData d => Some (take space d)
  end.

Lemma do_read_length space r d : do_read space r = Some d → (length d ≤ space)%nat.
Proof. destruct r; simpl; intros; simplify_eq. rewrite length_take. lia. Qed.

#[export] Hint Resolve do_read_length : bp.

(** ** A reference instance of fmt

    The replacement fields the program uses: [{}], [{{] and [}}]. It shows that
    the laws can hold, and the examples run with it. *)
Fixpoint ref_format (s : bytes) (args : list bytes) : option bytes :=
  match s with
  | [] => Some []
  | b :: s =>
    if decide (b = "{"%byte) then
      match s with
      | c :: s' =>
        if decide (c = "{"%byte) then (b ::.) <$> ref_format s' args
        else if decide (c = "}"%byte) then
          match args with
          | x :: args => app x <$> ref_format s' args
          | [] => None
          end
        else None
      | [] => None
      end
    else if decide (b = "}"%byte) then
      match s with
      | c :: s' => if decide (c = "}"%byte) then (b ::.) <$> ref_format s' args else None
      | [] => None
      end
    else (b ::.) <$> ref_format s args
  end.

Definition ref_fmt : Fmt := ref_format.

Lemma ref_format_plain_app p s args :
  plain p → ref_format (p ++ s) args = app p <$> ref_format s args.
Proof.
  induction 1 as [|b p [H1 H2] _ IH]; simpl.
  - by destruct (ref_format s args).
  - rewrite !decide_False by done. rewrite IH. by destruct (ref_format s args).
Qed.

Lemma ref_fmt_laws : @FmtLaws ref_fmt.
Proof.
  split; unfold fmt_format, ref_fmt; intros.
  - match goal with Ha : auto_format _ _ _ |- _ => induction Ha as [s args Hs|p x q args r Hp _ IH] end.
    + rewrite <- (app_nil_r s) at 1. rewrite ref_format_plain_app by done. simpl. by rewrite app_nil_r.
    + rewrite ref_format_plain_app by done. cbn -[ref_format]. simpl. by rewrite IH.
  - rewrite ref_format_plain_app by done. done.
Qed.

(** Named fields: [{name}] is replaced by the argument of that name. *)
Fixpoint field_name (s : bytes) : option (bytes * bytes) :=
  match s with
  | [] => None
  | b :: s =>
    if decide (b = "}"%byte) then Some ([], s)
    else prod_map (b ::.) id <$> field_name s
  end.

Fixpoint assoc (k : bytes) (args : list (bytes * bytes)) : option bytes :=
  match args with
  | [] => None
  | (k', v) :: args => if decide (k' = k) then Some v else assoc k args
  end.

Fixpoint ref_named (fuel : nat) (s : bytes) (args : list (bytes * bytes)) : option bytes :=
  match fuel with
  | O => None
  | S fuel =>
    match s with
    | [] => Some []
    | b :: s =>
      if decide (b = "{"%byte) then
        '(k, s) ← field_name s; v ← assoc k args; app v <$> ref_named fuel s args
      else if decide (b = "}"%byte) then None
      else (b ::.) <$> ref_named fuel s args
    end
  end.

(** ** An environment to run examples in: the reference formatter, processes
    numbered from 100, a clock that ticks once a call *)
Definition demo_env : Env := {|
  env_fmt := ref_fmt;
  fork_result n := 100 + Z.of_nat n;
  clock_now n := Z.of_nat n;
  split_unix s := Some [s];
  inet_aton s := if decide (s = bs "192.168.1.5") then Some 3232235781 else None;
  fmt_named s args := ref_named (S (length s)) s args;
  fmt_pad n s := s ++ replicate (n - length s) " "%byte;
  fmt_time _ := bs "now";
|}.
