(* ===== verification/Stream.v ===== *)
(** * Stream: the [std::istringstream] and string operations of wrproxy.cpp

    The standard library the command parser of [src/src/wrproxy.cpp] is written
    with: [std::getline] with a delimiter, [peek], [ignore],
    [std::string::find_first_of]/[find] and [std::stoi]. *)
From S2P Require Import Prelude.

Local Open Scope Z_scope.

(** The unread characters and the state bits. *)
Record istringstream := mk_stream {
  ss_rest : bytes;
  ss_eof : bool;
  ss_fail : bool;
}.

Definition stream_of (s : bytes) : istringstream := mk_stream s false false.

Definition ss_good (ss : istringstream) : bool := negb (ss_eof ss) && negb (ss_fail ss).

(** Split at the first occurrence of [d]; [None] when there is none. *)
Fixpoint split_at (d : byte) (s : bytes) : option (bytes * bytes) :=
  match s with
  | [] => None
  | b :: s =>
    if decide (b = d) then Some ([], s)
    else match split_at d s with
         | Some (l, r) => Some (b :: l, r)
         | None => None
         end
  end.

(** [std::getline(ss, str, delim)] into an empty [str]. *)
Definition getline (delim : byte) (ss : istringstream) : bytes * istringstream :=
  if ss_good ss then
    match split_at delim (ss_rest ss) with
    | Some (l, r) => (l, mk_stream r false false)
    | None => (ss_rest ss, mk_stream [] true (bool_decide (ss_rest ss = [])))
    end
  else ([], mk_stream (ss_rest ss) (ss_eof ss) true).

(** [ss.peek()]: [None] is EOF; looking past the end sets eofbit. *)
Definition peek (ss : istringstream) : option byte * istringstream :=
  if ss_good ss then
    match ss_rest ss with
    | b :: _ => (Some b, ss)
    | [] => (None, mk_stream [] true false)
    end
  else (None, mk_stream (ss_rest ss) (ss_eof ss) true).

(** [while (ss.peek() == c) ss.ignore(1);], by recursion on the unread
    characters. *)
Fixpoint skip_from (c : byte) (rest : bytes) : istringstream :=
  match rest with
  | [] => mk_stream [] true false
  | b :: rest' => if decide (b = c) then skip_from c rest' else mk_stream rest false false
  end.

Definition skip_while (c : byte) (ss : istringstream) : istringstream :=
  if ss_good ss then skip_from c (ss_rest ss)
  else snd (peek ss).

(** [s.find_first_of(set)]: the text before the first byte of [set]. *)
Fixpoint find_first_of (set : bytes) (s : bytes) : option nat :=
  match s with
  | [] => None
  | b :: s => if decide (b ∈ set) then Some O else S <$> find_first_of set s
  end.

(** ** [std::stoi] *)
Definition is_space (b : byte) : bool :=
  let z := byte_to_Z b in bool_decide (z = 32) || bool_decide (9 ≤ z ≤ 13).

Definition digit (b : byte) : option Z :=
  let z := byte_to_Z b in if decide (48 ≤ z ≤ 57) then Some (z - 48) else None.

Fixpoint skip_space (s : bytes) : bytes :=
  match s with
  | [] => []
  | b :: s' => if is_space b then skip_space s' else s
  end.

(** Digits accumulated until the first other character; [None]: no digit. *)
Fixpoint digits (acc : option Z) (s : bytes) : option Z :=
  match s with
  | [] => acc
  | b :: s =>
    match digit b with
    | Some d => digits (Some (default 0 acc * 10 + d)) s
    | None => acc
    end
  end.

(** [None]: [std::invalid_argument] or [std::out_of_range]. *)
Definition stoi (s : bytes) : option Z :=
  let s := skip_space s in
  let '(neg, s) :=
    match s with
    | b :: s' => if decide (b = "-"%byte) then (true, s')
                 else if decide (b = "+"%byte) then (false, s') else (false, s)
    | [] => (false, s)
    end in
  v ← digits None s;
  let v := if neg : bool then - v else v in
  if decide (- 2 ^ 31 ≤ v < 2 ^ 31) then Some v else None.

(** ** Facts *)
Lemma split_at_Some d s l r :
  split_at d s = Some (l, r) ↔ s = l ++ d :: r ∧ (d ∉ l).
Proof.
  revert l. induction s as [|b s IH]; intros l; simpl.
  - split; [done|]. intros [H _]. by destruct l.
  - case_decide as Hb; subst.
    + split.
      * intros [= <- <-]. split; [done | set_solver].
      * intros [H Hn]. destruct l as [|c l]; simplify_eq/=; [done|]. set_solver.
    + split.
      * destruct (split_at d s) as [[l' r']|]; [|done]. intros [= <- ->].
        destruct (proj1 (IH l') eq_refl) as [-> Hn]. split; [done | set_solver].
      * intros [H Hn]. destruct l as [|c l]; simplify_eq/=.
        assert (split_at d (l ++ d :: r) = Some (l, r)) as -> by (apply IH; set_solver). done.
Qed.

Lemma split_at_None d s : split_at d s = None ↔ d ∉ s.
Proof.
  induction s as [|b s IH]; simpl; [set_solver|].
  case_decide; subst; [set_solver|].
  destruct (split_at d s) as [[l r]|]; simpl; [|set_solver].
  split; [done|]. intros Hn. assert (d ∉ s) as Hs by set_solver. by apply IH in Hs.
Qed.

Lemma split_at_length d s l r : split_at d s = Some (l, r) → (length r < length s)%nat.
Proof. intros [-> _]%split_at_Some. rewrite length_app. simpl. lia. Qed.

(** Reading lines makes progress: characters are consumed or eofbit is set. *)
Lemma getline_progress d ss l ss' :
  getline d ss = (l, ss') → ss_good ss = true →
  ss_eof ss' = true ∨ ((length (ss_rest ss') < length (ss_rest ss))%nat ∧ ss_good ss' = true).
Proof.
  unfold getline. intros H Hg. rewrite Hg in H.
  destruct (split_at d (ss_rest ss)) as [[l0 r]|] eqn:E; simplify_eq/=; [right | by left].
  split; [by eapply split_at_length | done].
Qed.

Lemma find_first_of_lt set s n : find_first_of set s = Some n → (n < length s)%nat.
Proof.
  revert n. induction s as [|b s IH]; intros n; simpl; [done|].
  case_decide; [intros [= <-]; lia|].
  intros (m & Hm & ->)%fmap_Some. apply IH in Hm. lia.
Qed.

Lemma find_first_of_Some set s n :
  find_first_of set s = Some n →
  Forall (λ b, b ∉ set) (take n s) ∧ (∃ b, s !! n = Some b ∧ b ∈ set).
Proof.
  revert n. induction s as [|b s IH]; intros n; simpl; [done|].
  case_decide; [intros [= <-]; split; [constructor | by exists b]|].
  intros (m & Hm & ->)%fmap_Some. destruct (IH _ Hm) as [Hf Hb]. split; [by constructor | done].
Qed.
