(* ===== verification/SocketProxy.v ===== *)
(** * SocketProxy: the base class of the proxies
      ([src/src/socket_proxy.hpp], [src/src/socket_proxy.cpp])

    A handler of a proxy ends in one of three ways: the proxy lives on with a
    new state, it removed itself from [session.proxies] (which destroys it), or
    an exception left the handler. Effects are collected in order. *)
From S2P Require Import Prelude Env.

Local Open Scope Z_scope.

Inductive pout (A : Type) :=
| Keep (p : A)
| Closed
| Thrown (e : exn).
Arguments Keep {A} _.
Arguments Closed {A}.
Arguments Thrown {A} _.

Abbreviation presult A := (list effect * pout A)%type.

(** Base-class members: the id drawn from [session.proxy_cnt] and the client
    socket. *)
Record SocketProxy := mk_base {
  sp_id : Z;
  sp_client_fd : Z;
}.

(** [SocketProxy::close()]: the proxy leaves the session's list and is
    destroyed. *)
Definition sp_close {A} : pout A := Closed.

(** [SocketProxy::fail(fmt, args...)]: the message is formatted for the log,
    then the proxy is closed. *)
Definition sp_fail `{Fmt} {A} (fmt : bytes) (args : list bytes) : pout A :=
  match fmt_format fmt args with
  | Some _ => sp_close
  | None => Thrown (FormatError fmt)
  end.

(** The results of the other system calls a handler makes: [connect], the
    [write]/[send] that follows, [strerror(errno)], and the [write] of the length
    that comes before a datagram in a stream. *)
Record io_res := mk_io {
  io_connect : Z;
  io_write : Z;
  io_strerror : bytes;
  io_header : Z;
}.

(** The bytes a stream took, over a sequence of effects: of each [write] or
    [send] the number it returned, none when it returned [-1]. *)
Definition taken_by (fd : Z) (eff : list effect) : bytes :=
  concat (omap (λ e, match e with
    | ESendStream fd' d n => if decide (fd' = fd) then Some (take (Z.to_nat n) d) else None
    | _ => None end) eff).

Lemma taken_by_app fd e1 e2 : taken_by fd (e1 ++ e2) = taken_by fd e1 ++ taken_by fd e2.
Proof. unfold taken_by. by rewrite omap_app, concat_app. Qed.

Lemma taken_by_one fd d n : taken_by fd [ESendStream fd d n] = take (Z.to_nat n) d.
Proof. unfold taken_by. cbn. rewrite decide_True by done. cbn. by rewrite app_nil_r. Qed.

Lemma taken_by_other fd fd' d n : fd' ≠ fd → taken_by fd [ESendStream fd' d n] = [].
Proof. intros. unfold taken_by. cbn. by rewrite decide_False. Qed.

Lemma sp_fail_not_keep `{Fmt} {A} fmt args (p : A) : sp_fail fmt args ≠ Keep p.
Proof. unfold sp_fail, sp_close. by case_match. Qed.

(** Capacity reserved for the forwarding buffers. *)
Definition buf_capacity : nat := Z.to_nat 65536.

Lemma buf_capacity_eq : Z.of_nat buf_capacity = 65536.
Proof. unfold buf_capacity. lia. Qed.

#[global] Opaque buf_capacity.
