(* ===== verification/WrProxy.v ===== *)
(** * WrProxy: the WindRiver proxy protocol ([src/src/wrproxy.cpp], [wrproxy.hpp])

    A connection starts in command mode: one text line
    [connect type=udpsock;...;port=P;mode=packet] selects a UDP port of the
    session's board. It is then in data mode: the client's stream is a sequence
    of frames (four bytes of big-endian length, payload), each forwarded as one
    datagram, and every datagram of the board goes back as a frame. *)
From S2P Require Import Prelude Bytes Env Stream SocketProxy.

Local Open Scope Z_scope.

Inductive wr_mode := COMMAND | DATA.
#[global] Instance wr_mode_eq_dec : EqDecision wr_mode.
Proof. solve_decision. Defined.

Record WrProxy := mk_wr {
  wr_base : SocketProxy;
  wr_state : wr_mode;
  wr_buf_c2t : bytes;
  wr_target_fd : Z;
}.

Definition wr_client_fd (p : WrProxy) : Z := sp_client_fd (wr_base p).

Definition set_buf (p : WrProxy) (b : bytes) : WrProxy :=
  mk_wr (wr_base p) (wr_state p) b (wr_target_fd p).

(** ** Definitions *)

(** The constructor; [sock] is the result of [socket(AF_INET, SOCK_DGRAM)]. *)
Definition WrProxy_new (base : SocketProxy) (sock : Z) : presult WrProxy :=
  if decide (sock = -1)
  then ([EClose (sp_client_fd base)], Thrown (SystemError (bs "socket(SOCK_DGRAM)")))
  else ([], Keep (mk_wr base COMMAND [] sock)).

(** The destructors: the target socket, then the client socket of the base. *)
Definition WrProxy_destroy (p : WrProxy) : list effect :=
  [EClose (wr_target_fd p); EClose (wr_client_fd p)].

Section wrproxy.
Context `{Env}.

(** [WrProxy::fail]: report to the client, then [SocketProxy::fail(msg)]. *)
Definition wr_fail (p : WrProxy) (fmt : bytes) (args : list bytes) : presult WrProxy :=
  match fmt_format fmt args with
  | None => ([], Thrown (FormatError fmt))
  | Some msg =>
    match fmt_format (bs "error wrproxy: {}") [msg] with
    | None => ([], Thrown (FormatError (bs "error wrproxy: {}")))
    | Some resp => ([ESend (wr_client_fd p) (resp ++ [x00])], sp_fail msg [])
    end
  end.

(** The parameters of the [connect] command. *)
Record conn_params := mk_params {
  cp_type : bytes;
  cp_tgt : bytes;
  cp_port : bytes;
  cp_mode : bytes;
}.

(** One [key=val] parameter; [None]: the key is not supported. *)
Definition set_param (c : conn_params) (key val : bytes) : option conn_params :=
  if decide (key = bs "type") then Some (mk_params val (cp_tgt c) (cp_port c) (cp_mode c))
  else if decide (key = bs "tgt") then Some (mk_params (cp_type c) val (cp_port c) (cp_mode c))
  else if decide (key = bs "port") then Some (mk_params (cp_type c) (cp_tgt c) val (cp_mode c))
  else if decide (key = bs "mode") then Some (mk_params (cp_type c) (cp_tgt c) (cp_port c) val)
  else None.

(** The [while (!cmd.eof())] loop. A failing parameter gives the arguments
    of [fail]. The loop body runs at most once per unread character and once
    more; [None] is out of fuel. *)
Fixpoint parse_params (fuel : nat) (cmd : istringstream) (c : conn_params) :
    option (conn_params + bytes * bytes) :=
  if ss_eof cmd then Some (inl c)
  else
    match fuel with
    | O => None
    | S fuel =>
      let '(param, cmd) := getline ";"%byte cmd in
      match split_at "="%byte param with
      | None => Some (inr (bs "Missing '=' in connect parameter: {}", param))
      | Some (key, val) =>
        match set_param c key val with
        | None => Some (inr (bs "Unsupported parameter: {}", param))
        | Some c => parse_params fuel cmd c
        end
      end
    end.

(** [WrProxy::handle_connect]; [ip] is the address of the session's board,
    [None] when [session.get_board()] is null. *)
Definition handle_connect (ip : option bytes) (p : WrProxy) (cmd : istringstream) (io : io_res) :
    presult WrProxy :=
  match parse_params (S (length (ss_rest cmd))) cmd (mk_params [] [] [] []) with
  | None => ([], Keep p) (* never: see [parse_params_total] *)
  | Some (inr (fmt, param)) => wr_fail p fmt [param]
  | Some (inl c) =>
    if decide (cp_type c = bs "udpsock" ∧ cp_mode c = bs "packet") then
      match stoi (cp_port c) with
      | None => wr_fail p (bs "Bad port {}") [cp_port c]
      | Some port =>
        match ip with
        | None => wr_fail p (bs "No board assigned") []
        | Some ip =>
          match inet_aton (c_str ip) with
          | None => wr_fail p (bs "Invalid board IP address: {}") [ip]
          | Some addr =>
            let conn := EConnect (wr_target_fd p) ip addr (u16 port) in
            if decide (io_connect io = -1) then
              let '(eff, o) := wr_fail p (bs "connect {}:{}: {}") [ip; cp_port c; io_strerror io] in
              (conn :: eff, o)
            else
              let p := mk_wr (wr_base p) DATA [] (wr_target_fd p) in
              let ok := ESend (wr_client_fd p) (bs "ok" ++ [x00]) in
              if decide (io_write io = -1) then
                let '(eff, o) := wr_fail p (bs "Writing ok response failed: {}") [io_strerror io] in
                (conn :: ok :: eff, o)
              else ([conn; ok], Keep p)
          end
        end
      end
    else wr_fail p (bs "Unsupported type ({}) or mode ({})") [cp_type c; cp_mode c]
  end.

(** [WrProxy::parse_command] *)
Definition parse_command (ip : option bytes) (p : WrProxy) (io : io_res) : presult WrProxy :=
  let buf := wr_buf_c2t p in
  match find_first_of [x00; x0a; x0d] buf with
  | None => ([], Keep p)
  | Some last =>
    let '(command, cmd) := getline " "%byte (stream_of (take last buf)) in
    let cmd := skip_while " "%byte cmd in
    if decide (command = bs "connect") then handle_connect ip p cmd io
    else
      match fmt_format (bs "Unsupported command: {}") [command] with
      | None => ([], Thrown (FormatError (bs "Unsupported command: {}")))
      | Some msg => wr_fail p msg []
      end
  end.

(** The [DATA] branch of [on_client_data]: at most one frame is forwarded. *)
Definition forward_frame (p : WrProxy) (io : io_res) : presult WrProxy :=
  let buf := wr_buf_c2t p in
  if decide (length buf < 4)%nat then ([], Keep p)
  else
    let len := be_Z (take 4 buf) in
    if decide (Z.of_nat (length buf) < 4 + len) then ([], Keep p)
    else
      let send := ESend (wr_target_fd p) (take (Z.to_nat len) (drop 4 buf)) in
      if decide (io_write io = -1) then ([send], sp_close)
      else ([send], Keep (set_buf p (drop (4 + Z.to_nat len) buf))).

(** [WrProxy::on_client_data] *)
Definition wr_on_client_data (ip : option bytes) (p : WrProxy) (r : read_res) (io : io_res) :
    presult WrProxy :=
  match do_read (buf_capacity - length (wr_buf_c2t p)) r with
  | None => ([], sp_close)
  | Some [] => ([], sp_close)
  | Some d =>
    let p := set_buf p (wr_buf_c2t p ++ d) in
    match wr_state p with
    | COMMAND => parse_command ip p io
    | DATA => forward_frame p io
    end
  end.

(** [WrProxy::on_target_data]: reads one datagram of at most 65535 bytes and
    writes its length and itself to the client's stream. The result of the first
    [write] is not looked at; of the second only that it is not [-1]. *)
Definition wr_on_target_data (p : WrProxy) (r : read_res) (io : io_res) : presult WrProxy :=
  match do_read (Z.to_nat 65535) r with
  | None => ([], sp_close)
  | Some [] => ([], sp_close)
  | Some d =>
    let eff := [ESendStream (wr_client_fd p) (be_bytes 4 (u32 (Z.of_nat (length d)))) (io_header io);
                ESendStream (wr_client_fd p) d (io_write io)] in
    if decide (io_write io = -1) then (eff, sp_close) else (eff, Keep p)
  end.
End wrproxy.

(** ** The frame format: the specification of the data mode *)

Definition frame (d : bytes) : bytes := be_bytes 4 (Z.of_nat (length d)) ++ d.

(** Split a stream into its complete frames and the unfinished rest. *)
Fixpoint deframe (fuel : nat) (s : bytes) : list bytes * bytes :=
  match fuel with
  | O => ([], s)
  | S fuel =>
    let len := be_Z (take 4 s) in
    if decide (length s < 4)%nat then ([], s)
    else if decide (Z.of_nat (length s) < 4 + len) then ([], s)
    else
      let '(ds, rest) := deframe fuel (drop (4 + Z.to_nat len) s) in
      (take (Z.to_nat len) (drop 4 s) :: ds, rest)
  end.

(** The payloads written to a descriptor, in order. *)
Definition sent_to (fd : Z) (eff : list effect) : list bytes :=
  omap (λ e, match e with ESend fd' d => if decide (fd' = fd) then Some d else None | _ => None end) eff.

(** A run of client-readable events in data mode: what was read, what was sent
    to the board, and how it ended. *)
Fixpoint wr_run `{Env} (ip : option bytes) (p : WrProxy) (evs : list (read_res * io_res)) :
    bytes * list effect * pout WrProxy :=
  match evs with
  | [] => ([], [], Keep p)
  | (r, io) :: evs =>
    let got := default [] (do_read (buf_capacity - length (wr_buf_c2t p)) r) in
    match wr_on_client_data ip p r io with
    | (eff, Keep p') =>
      let '(got', eff', o) := wr_run ip p' evs in (got ++ got', eff ++ eff', o)
    | (eff, o) => (got, eff, o)
    end
  end.

(** ** The command parser terminates *)
Section parsing.
Context `{Env}.

Lemma parse_params_total fuel cmd c :
  ss_eof cmd = true ∨ ss_good cmd = true → (length (ss_rest cmd) < fuel)%nat →
  is_Some (parse_params fuel cmd c).
Proof using Type.
  revert cmd c. induction fuel as [|fuel IH]; intros cmd c Hs Hf; [lia|]. simpl.
  destruct (ss_eof cmd) eqn:He; [by eexists|]. destruct Hs as [Hs|Hs]; [done|].
  destruct (getline ";" cmd) as [param cmd'] eqn:Eg.
  destruct (split_at "=" param) as [[key val]|]; [|by eexists].
  destruct (set_param c key val) as [c'|]; [|by eexists].
  destruct (getline_progress _ _ _ _ Eg Hs) as [He' | [Hl Hg]].
  - destruct fuel; simpl; rewrite He'; by eexists.
  - apply IH; [by right | lia].
Qed.

(** The stream handed to [handle_connect] is at its end or in good state. *)
Lemma skip_while_state c ss :
  ss_eof ss = true ∨ ss_good ss = true →
  ss_eof (skip_while c ss) = true ∨ ss_good (skip_while c ss) = true.
Proof using Type.
  unfold skip_while. destruct (ss_good ss) eqn:Hg.
  - intros _. induction (ss_rest ss) as [|b r IH]; simpl; [by left|].
    case_decide; [done | by right].
  - intros [He|]; [|done]. unfold peek. rewrite Hg. simpl. by left.
Qed.

Lemma getline_state d s l ss :
  getline d (stream_of s) = (l, ss) → ss_eof ss = true ∨ ss_good ss = true.
Proof using Type.
  unfold getline. simpl. destruct (split_at d s) as [[? ?]|]; intros; simplify_eq/=;
    [by right | by left].
Qed.
End parsing.

(** ** Frames *)
Section frames.
Lemma frame_be_len d :
  Z.of_nat (length d) < 2 ^ 32 → be_Z (take 4 (frame d)) = Z.of_nat (length d).
Proof.
  intros Hd. unfold frame. rewrite take_app_length' by (by rewrite length_be_bytes).
  rewrite be_Z_bytes, Z.mod_small; lia.
Qed.

Lemma length_frame d : length (frame d) = (4 + length d)%nat.
Proof. unfold frame. by rewrite length_app, length_be_bytes. Qed.

Lemma length_frames ds : (length ds ≤ length (concat (frame <$> ds)))%nat.
Proof.
  induction ds as [|d ds IH]; cbn [fmap list_fmap concat length]; [lia|].
  rewrite length_app, length_frame. lia.
Qed.

Lemma take_4_frame_app d r : take 4 (frame d ++ r) = take 4 (frame d).
Proof. apply take_app_le. rewrite length_frame. lia. Qed.

(** Cutting a complete frame off a buffer and putting it back. *)
Lemma frame_cut buf :
  (4 ≤ length buf)%nat → 4 + be_Z (take 4 buf) ≤ Z.of_nat (length buf) →
  frame (take (Z.to_nat (be_Z (take 4 buf))) (drop 4 buf))
    ++ drop (4 + Z.to_nat (be_Z (take 4 buf))) buf = buf.
Proof.
  intros H4 Hl. pose proof (be_Z_range (take 4 buf)) as Hr.
  set (len := be_Z (take 4 buf)) in *. unfold frame.
  rewrite length_take, length_drop, Nat.min_l by lia. rewrite Z2Nat.id by lia.
  assert (be_bytes 4 len = take 4 buf) as ->.
  { unfold len. rewrite <- (be_bytes_Z (take 4 buf)) at 2. f_equal.
    rewrite length_take. lia. }
  rewrite <- app_assoc, <- drop_drop, take_drop. apply take_drop.
Qed.

Lemma deframe_frames ds rest fuel :
  Forall (λ d, Z.of_nat (length d) < 2 ^ 32) ds → (length ds ≤ fuel)%nat →
  deframe fuel (concat (frame <$> ds) ++ rest)
    = (ds ++ (deframe (fuel - length ds) rest).1, (deframe (fuel - length ds) rest).2).
Proof.
  intros Hds. revert fuel. induction Hds as [|d ds Hd Hds IH]; intros fuel Hf.
  - simpl. rewrite Nat.sub_0_r. by destruct (deframe fuel rest).
  - destruct fuel as [|fuel]; simpl in Hf; [lia|]. cbn [fmap list_fmap concat].
    rewrite <- app_assoc. set (s := concat _ ++ rest) in *.
    cbn [deframe]. rewrite take_4_frame_app, frame_be_len, Nat2Z.id by done.
    rewrite decide_False by (rewrite length_app, length_frame; lia).
    rewrite decide_False by (rewrite length_app, length_frame; lia).
    rewrite drop_app_length' by (by rewrite length_frame).
    unfold s. rewrite IH by lia. unfold frame. rewrite <- app_assoc, drop_app_length' by
      (by rewrite length_be_bytes).
    rewrite take_app_length. done.
Qed.
End frames.

(** ** Data mode: the stream is cut into datagrams, nothing lost or reordered *)
Section data_mode.
Context `{Env}.

Definition short (d : bytes) : Prop := Z.of_nat (length d) < 2 ^ 32.

(** Fields no handler changes. *)
Definition same_conn (p p' : WrProxy) : Prop :=
  wr_base p' = wr_base p ∧ wr_target_fd p' = wr_target_fd p.

#[local] Instance same_conn_trans : Transitive same_conn.
Proof. intros ??? [] []. split; congruence. Qed.

Lemma forward_frame_stream p io eff o :
  forward_frame p io = (eff, o) →
  ∃ rest, wr_buf_c2t p = concat (frame <$> sent_to (wr_target_fd p) eff) ++ rest ∧
    Forall short (sent_to (wr_target_fd p) eff) ∧
    match o with
    | Keep p' => rest = wr_buf_c2t p' ∧ same_conn p p' ∧ wr_state p' = wr_state p
    | Closed => True
    | Thrown _ => False
    end.
Proof using Type.
  unfold forward_frame. case_decide as H4.
  { intros; simplify_eq. by exists (wr_buf_c2t p). }
  case_decide as Hl.
  { intros; simplify_eq. by exists (wr_buf_c2t p). }
  pose proof (be_Z_range (take 4 (wr_buf_c2t p))) as Hr.
  rewrite length_take, Nat.min_l in Hr by lia.
  intros He. exists (drop (4 + Z.to_nat (be_Z (take 4 (wr_buf_c2t p)))) (wr_buf_c2t p)).
  assert (sent_to (wr_target_fd p) eff
    = [take (Z.to_nat (be_Z (take 4 (wr_buf_c2t p)))) (drop 4 (wr_buf_c2t p))]) as ->.
  { unfold sent_to. case_decide; simplify_eq/=; by rewrite decide_True. }
  cbn [fmap list_fmap concat]. rewrite app_nil_r, frame_cut by lia.
  split_and!; [done| |case_decide; by simplify_eq].
  constructor; [|done]. unfold short. rewrite length_take. lia.
Qed.

Lemma sent_to_app fd e1 e2 : sent_to fd (e1 ++ e2) = sent_to fd e1 ++ sent_to fd e2.
Proof using Type. unfold sent_to. apply omap_app. Qed.

Lemma sent_to_cons fd d eff : sent_to fd (ESend fd d :: eff) = d :: sent_to fd eff.
Proof using Type. unfold sent_to. cbn. by rewrite decide_True. Qed.

Lemma wr_run_stream ip p evs got eff o :
  wr_state p = DATA → wr_run ip p evs = (got, eff, o) →
  ∃ rest, wr_buf_c2t p ++ got = concat (frame <$> sent_to (wr_target_fd p) eff) ++ rest ∧
    Forall short (sent_to (wr_target_fd p) eff) ∧
    match o with
    | Keep p' => rest = wr_buf_c2t p' ∧ wr_state p' = DATA
    | Closed => True
    | Thrown _ => False
    end.
Proof using Type.
  revert p got eff. induction evs as [|[r io] evs IH]; intros p got eff Hd Hrun; simpl in Hrun.
  { simplify_eq. exists (wr_buf_c2t p). rewrite app_nil_r. by split_and!. }
  unfold wr_on_client_data in Hrun.
  destruct (do_read _ r) as [[|b d]|]; [simplify_eq/=; eexists; by rewrite app_nil_r| |
    simplify_eq/=; eexists; by rewrite app_nil_r].
  cbn [default] in Hrun. set (q := set_buf p _) in Hrun.
  replace (wr_state q) with DATA in Hrun by done.
  destruct (forward_frame q io) as [eff1 o1] eqn:E1.
  destruct (forward_frame_stream _ _ _ _ E1) as (rest1 & Hb1 & Hs1 & Ho1).
  change (wr_target_fd q) with (wr_target_fd p) in Hb1, Hs1.
  change (wr_buf_c2t q) with (wr_buf_c2t p ++ b :: d) in Hb1.
  destruct o1 as [p1| |]; [| by simplify_eq; exists rest1 | done].
  destruct Ho1 as (-> & [_ Ht] & Hst1).
  destruct (wr_run ip p1 evs) as [[got' eff'] o'] eqn:E2. simplify_eq.
  destruct (IH p1 got' eff') as (rest & Hb & Hs & Ho); [by rewrite Hst1 | done |].
  rewrite Ht in Hb, Hs. change (wr_target_fd q) with (wr_target_fd p) in Hb, Hs.
  exists rest. rewrite sent_to_app, fmap_app, concat_app, Forall_app.
  split_and!; [|done..]. rewrite app_assoc. unfold id. rewrite Hb1, <- app_assoc, Hb. by rewrite app_assoc.
Qed.

(** C8: in data mode, whatever the chunks the client's bytes arrive in, the
    datagrams sent to the board are the first frames of the byte stream, in
    order; while the proxy lives, what was received is exactly the forwarded
    frames followed by the buffer; and no exception is thrown. *)
Theorem wr_data_refines_deframe ip p evs got eff o :
  wr_state p = DATA → wr_run ip p evs = (got, eff, o) →
  let stream := wr_buf_c2t p ++ got in
  let sent := sent_to (wr_target_fd p) eff in
  sent `prefix_of` (deframe (length stream) stream).1 ∧
  (∀ p', o = Keep p' → stream = concat (frame <$> sent) ++ wr_buf_c2t p') ∧
  (∀ e, o ≠ Thrown e).
Proof using Type.
  intros Hd Hrun stream sent.
  destruct (wr_run_stream _ _ _ _ _ _ Hd Hrun) as (rest & Hb & Hs & Ho).
  fold sent in Hb, Hs. fold stream in Hb. split_and!.
  - rewrite Hb, deframe_frames; [eexists; done | done |].
    rewrite length_app. pose proof (length_frames sent). lia.
  - intros p' ->. destruct Ho as [-> _]. done.
  - intros e ->. done.
Qed.
End data_mode.

(** ** From the board to the client *)
Section target_data.
Context `{Env}.

(** A run of target-readable events. *)
Fixpoint wr_run_target (p : WrProxy) (evs : list (read_res * io_res)) : list effect * pout WrProxy :=
  match evs with
  | [] => ([], Keep p)
  | (r, io) :: evs =>
    match wr_on_target_data p r io with
    | (eff, Keep p') => let '(eff', o) := wr_run_target p' evs in (eff ++ eff', o)
    | (eff, o) => (eff, o)
    end
  end.

(** The datagrams delivered by the events. *)
Definition datagrams (evs : list (read_res * io_res)) : list bytes :=
  omap (λ ev, do_read (Z.to_nat 65535) ev.1) evs.

(** What the client's socket takes of an event's frame, and when it takes all. *)
Definition delivered (ev : read_res * io_res) : bytes :=
  match do_read (Z.to_nat 65535) ev.1 with
  | Some d => take (Z.to_nat (io_header ev.2)) (be_bytes 4 (Z.of_nat (length d))) ++ take (Z.to_nat (io_write ev.2)) d
  | None => []
  end.

Definition complete (ev : read_res * io_res) : Prop :=
  ∀ d, do_read (Z.to_nat 65535) ev.1 = Some d → 4 ≤ io_header ev.2 ∧ Z.of_nat (length d) ≤ io_write ev.2.

Lemma wr_on_target_data_keep p r io eff p' :
  wr_on_target_data p r io = (eff, Keep p') →
  p' = p ∧ taken_by (wr_client_fd p) eff = delivered (r, io) ∧
  ∃ d, do_read (Z.to_nat 65535) r = Some d ∧ short d ∧ d ≠ [].
Proof using Type.
  unfold wr_on_target_data, delivered. cbn [fst snd].
  destruct (do_read (Z.to_nat 65535) r) as [[|b d]|] eqn:E; [done| |done].
  case_decide; [done|]. intros ?; simplify_eq. split; [done|].
  apply do_read_length in E. assert (short (b :: d)) as Hs by (unfold short; lia).
  split; [|by exists (b :: d)]. unfold taken_by, u32. rewrite Z.mod_small by (unfold short in Hs; lia).
  cbn [omap list_omap]. rewrite !decide_True by done. cbn [concat]. by rewrite app_nil_r.
Qed.

Lemma wr_run_target_taken p evs eff p' :
  wr_run_target p evs = (eff, Keep p') →
  p' = p ∧ taken_by (wr_client_fd p) eff = concat (delivered <$> evs) ∧ Forall short (datagrams evs) ∧
  Forall (λ ev, is_Some (do_read (Z.to_nat 65535) ev.1)) evs.
Proof using Type.
  revert p eff. induction evs as [|[r io] evs IH]; intros p eff Hr; simpl in Hr; simplify_eq; [done|].
  destruct (wr_on_target_data p r io) as [eff1 [p1| |]] eqn:E1; [|done..].
  destruct (wr_run_target p1 evs) as [eff2 o2] eqn:E2. simplify_eq.
  destruct (wr_on_target_data_keep _ _ _ _ _ E1) as (-> & Ht & d & Hd & Hs & _).
  destruct (IH _ _ E2) as (-> & Ht2 & Hs2 & Hr2). unfold datagrams in *. simpl. rewrite Hd.
  split_and!; [done| |by constructor|by constructor; [eexists|]].
  by rewrite taken_by_app, Ht, Ht2.
Qed.

(** An event's frame is delivered whole exactly when both writes were complete. *)
Lemma delivered_complete ev d :
  do_read (Z.to_nat 65535) ev.1 = Some d → complete ev → delivered ev = frame d.
Proof using Type.
  unfold delivered, complete, frame. intros Hd Hc. destruct (Hc d Hd) as [H4 Hl].
  rewrite Hd, !take_ge; [done|lia|]. rewrite length_be_bytes. lia.
Qed.

Lemma delivered_length ev d :
  do_read (Z.to_nat 65535) ev.1 = Some d →
  (length (delivered ev) ≤ length (frame d))%nat ∧ (d ≠ [] → length (delivered ev) = length (frame d) → complete ev).
Proof using Type.
  unfold delivered, complete. intros Hd. rewrite Hd, length_app, !length_take, length_frame, length_be_bytes.
  split; [lia|]. intros Hne Hl d' [= <-]. destruct d; [done|]. cbn [length] in *. lia.
Qed.

Lemma delivered_frames evs :
  Forall (λ ev, is_Some (do_read (Z.to_nat 65535) ev.1)) evs → Forall complete evs →
  concat (delivered <$> evs) = concat (frame <$> datagrams evs).
Proof using Type.
  intros Hr Hc. induction Hc as [|ev evs Hev _ IH]; [done|]. apply Forall_cons in Hr as [[d Hd] Hr].
  unfold datagrams in *. cbn [omap list_omap fmap list_fmap concat]. rewrite Hd. cbn [fmap list_fmap concat].
  by rewrite (delivered_complete ev d), <- IH.
Qed.

Lemma delivered_frames_length evs :
  Forall (λ ev, is_Some (do_read (Z.to_nat 65535) ev.1)) evs →
  (length (concat (delivered <$> evs)) ≤ length (concat (frame <$> datagrams evs)))%nat ∧
  (Forall (λ d, d ≠ []) (datagrams evs) →
   length (concat (delivered <$> evs)) = length (concat (frame <$> datagrams evs)) → Forall complete evs).
Proof using Type.
  induction 1 as [|ev evs [d Hd] _ [IH1 IH2]]; [by split|]. unfold datagrams in *.
  cbn [omap list_omap fmap list_fmap concat]. rewrite Hd. cbn [fmap list_fmap concat]. rewrite !length_app. destruct (delivered_length ev d Hd) as [Hl Hc].
  split; [lia|]. intros [Hne Hnes]%Forall_cons Heq. constructor; [apply Hc; [done|lia]|apply IH2; [done|lia]].
Qed.

(** What the decoder returns is in the stream. *)
Lemma deframe_sound fuel s ds rest : deframe fuel s = (ds, rest) → s = concat (frame <$> ds) ++ rest.
Proof using Type.
  revert s ds rest. induction fuel as [|fuel IH]; intros s ds rest; cbn [deframe]; [by intros [= <- <-]|].
  case_decide; [by intros [= <- <-]|]. case_decide; [by intros [= <- <-]|].
  destruct (deframe fuel _) as [ds' rest'] eqn:E. intros [= <- <-]. apply IH in E.
  cbn [fmap list_fmap concat]. rewrite <- app_assoc, <- E. rewrite frame_cut; [done|lia..].
Qed.

Lemma wr_run_target_nonempty p evs eff p' :
  wr_run_target p evs = (eff, Keep p') → Forall (λ d, d ≠ []) (datagrams evs).
Proof using Type.
  revert p eff. induction evs as [|[r io] evs IH]; intros p eff Hr; simpl in Hr; simplify_eq; [constructor|].
  destruct (wr_on_target_data p r io) as [eff1 [p1| |]] eqn:E1; [|done..].
  destruct (wr_run_target p1 evs) as [eff2 o2] eqn:E2. simplify_eq.
  destruct (wr_on_target_data_keep _ _ _ _ _ E1) as (-> & _ & d & Hd & _ & Hne).
  unfold datagrams in *. simpl. rewrite Hd. constructor; [done|by eapply IH].
Qed.

End target_data.

(** ** Command mode *)
Section command_mode.
Context `{Env}.

Lemma wr_fail_no_connect p fmt args eff o :
  wr_fail p fmt args = (eff, o) →
  (∀ fd ip addr port, EConnect fd ip addr port ∉ eff) ∧ (∀ p', o ≠ Keep p').
Proof using Type.
  unfold wr_fail. intros Hw. repeat case_match; simplify_eq; split; try set_solver.
  intros. apply sp_fail_not_keep.
Qed.

Lemma wr_fail_not_keep p fmt args eff p' : wr_fail p fmt args ≠ (eff, Keep p').
Proof using Type. intros Hw. apply wr_fail_no_connect in Hw as [_ Hw]. by eapply Hw. Qed.

(** Close the branches of a handler that end in [wr_fail]. *)
Ltac solve_fail :=
  match goal with
  | E : wr_fail _ _ _ = (_, _) |- _ => apply wr_fail_no_connect in E as [? ?]; set_solver
  end.

(** What a run of [handle_connect] can do to the network. *)
Definition connects_to_board (ip : option bytes) (p : WrProxy) (eff : list effect) : Prop :=
  ∀ fd ip' addr port, EConnect fd ip' addr port ∈ eff →
    ip = Some ip' ∧ inet_aton (c_str ip') = Some addr ∧ fd = wr_target_fd p ∧ 0 ≤ port < 65536.

Lemma handle_connect_board ip p cmd io eff o :
  handle_connect ip p cmd io = (eff, o) → connects_to_board ip p eff.
Proof using Type.
  unfold handle_connect, connects_to_board. intros Hh fd ip' addr port Hin.
  destruct (parse_params _ _ _) as [[c|[fmt param]]|]; [|solve_fail|simplify_eq; set_solver].
  case_decide; [|solve_fail]. destruct (stoi (cp_port c)) as [pt|]; [|solve_fail].
  destruct ip as [ip|]; [|solve_fail].
  destruct (inet_aton (c_str ip)) as [a|] eqn:Ea; [|solve_fail].
  assert (EConnect fd ip' addr port = EConnect (wr_target_fd p) ip a (u16 pt)) as Heq.
  { case_decide; [|case_decide].
    - destruct (wr_fail _ _ _) as [eff1 o1] eqn:E1. simplify_eq.
      apply wr_fail_no_connect in E1 as [? ?]. set_solver.
    - destruct (wr_fail _ _ _) as [eff1 o1] eqn:E1. simplify_eq.
      apply wr_fail_no_connect in E1 as [? ?]. set_solver.
    - simplify_eq. set_solver. }
  simplify_eq. split_and!; try done; unfold u16; apply Z.mod_pos_bound; lia.
Qed.

Lemma parse_command_board ip p io eff o :
  parse_command ip p io = (eff, o) → connects_to_board ip p eff.
Proof using Type.
  unfold parse_command. destruct (find_first_of _ _) as [last|].
  2: { intros; simplify_eq. unfold connects_to_board. set_solver. }
  destruct (getline _ _) as [command cmd]. case_decide; [apply handle_connect_board|].
  destruct (fmt_format _ [command]); intros Hw.
  - apply wr_fail_no_connect in Hw as [? _]. unfold connects_to_board. set_solver.
  - simplify_eq. unfold connects_to_board. set_solver.
Qed.

(** C29: whatever a client sends, the only address its proxy connects to is the
    one configured for the board of its session (never the [tgt] the client
    names), on the proxy's own socket and a 16-bit port. *)
Theorem wr_connects_only_to_board ip p r io eff o :
  wr_on_client_data ip p r io = (eff, o) →
  ∀ fd ip' addr port, EConnect fd ip' addr port ∈ eff →
    ip = Some ip' ∧ inet_aton (c_str ip') = Some addr ∧ fd = wr_target_fd p ∧ 0 ≤ port < 65536.
Proof using Type.
  unfold wr_on_client_data. destruct (do_read _ r) as [[|b d]|]; try (intros; simplify_eq; set_solver).
  set (q := set_buf p _). destruct (wr_state q).
  - intros Hp. by apply parse_command_board in Hp.
  - unfold forward_frame. repeat case_decide; intros; simplify_eq; set_solver.
Qed.
End command_mode.

(** ** The receive buffer stays within its reserved capacity *)
Section capacity.
Context `{Env}.

Definition wr_ok (p : WrProxy) : Prop := (length (wr_buf_c2t p) ≤ buf_capacity)%nat.

Lemma forward_frame_ok p io eff p' :
  wr_ok p → forward_frame p io = (eff, Keep p') → wr_ok p'.
Proof using Type.
  unfold wr_ok. intros Hp Hf. destruct (forward_frame_stream _ _ _ _ Hf) as (rest & Hb & _ & -> & _).
  rewrite Hb, length_app in Hp. lia.
Qed.

Lemma handle_connect_keep ip p cmd io eff p' :
  ss_eof cmd = true ∨ ss_good cmd = true →
  handle_connect ip p cmd io = (eff, Keep p') →
  p' = mk_wr (wr_base p) DATA [] (wr_target_fd p) ∧
  ∃ c board port addr,
    parse_params (S (length (ss_rest cmd))) cmd (mk_params [] [] [] []) = Some (inl c) ∧
    cp_type c = bs "udpsock" ∧ cp_mode c = bs "packet" ∧
    stoi (cp_port c) = Some port ∧ ip = Some board ∧ inet_aton (c_str board) = Some addr ∧
    io_connect io ≠ -1 ∧ io_write io ≠ -1 ∧
    eff = [EConnect (wr_target_fd p) board addr (u16 port);
           ESend (wr_client_fd p) (bs "ok" ++ [x00])].
Proof using Type.
  intros Hs. unfold handle_connect.
  destruct (parse_params_total (S (length (ss_rest cmd))) cmd (mk_params [] [] [] []))
    as [res Hres]; [done | lia |].
  rewrite Hres. intros Hh. destruct res as [c|[fmt param]]; cycle 1.
  { by apply wr_fail_not_keep in Hh. }
  case_decide as Htm.
  2: { by apply wr_fail_not_keep in Hh. }
  destruct (stoi (cp_port c)) as [port|] eqn:Ep.
  2: { by apply wr_fail_not_keep in Hh. }
  destruct ip as [board|].
  2: { by apply wr_fail_not_keep in Hh. }
  destruct (inet_aton (c_str board)) as [addr|] eqn:Ea.
  2: { by apply wr_fail_not_keep in Hh. }
  case_decide; [|case_decide].
  - destruct (wr_fail _ _ _) as [e o] eqn:Ew. simplify_eq.
    by apply wr_fail_not_keep in Ew.
  - destruct (wr_fail _ _ _) as [e o] eqn:Ew. simplify_eq.
    by apply wr_fail_not_keep in Ew.
  - simplify_eq. destruct Htm. split; [done|]. by exists c, board, port, addr.
Qed.

(** Command mode ends in one of two ways that keep the proxy: the line is not
    complete yet, or the connection to the board is set up. *)
Lemma parse_command_keep ip p io eff p' :
  parse_command ip p io = (eff, Keep p') →
  (p' = p ∧ eff = [] ∧ find_first_of [x00; x0a; x0d] (wr_buf_c2t p) = None) ∨
  (p' = mk_wr (wr_base p) DATA [] (wr_target_fd p) ∧
   ∃ board addr port, ip = Some board ∧ inet_aton (c_str board) = Some addr ∧
     eff = [EConnect (wr_target_fd p) board addr (u16 port);
            ESend (wr_client_fd p) (bs "ok" ++ [x00])]).
Proof using Type.
  unfold parse_command. destruct (find_first_of _ _) as [last|] eqn:Ef.
  2: { intros; simplify_eq. by left. }
  destruct (getline _ _) as [command cmd] eqn:Eg. intros Hp. right.
  case_decide.
  - apply handle_connect_keep in Hp as (-> & c & board & port & addr & Hp).
    2: { by eapply skip_while_state, getline_state. }
    split; [done|]. exists board, addr, port. naive_solver.
  - destruct (fmt_format _ [command]); [|done].
    by apply wr_fail_not_keep in Hp.
Qed.

(** C34: the bytes read from the client never exceed the 65536 reserved for
    [buf_c2t], so the in-place read and the following [resize] stay inside
    the allocation; and once in data mode the proxy never goes back to
    accepting commands. *)
Theorem wr_buffer_bounded ip p r io eff p' :
  wr_ok p → wr_on_client_data ip p r io = (eff, Keep p') →
  wr_ok p' ∧ (wr_state p = DATA → wr_state p' = DATA) ∧ same_conn p p'.
Proof using Type.
  intros Hok. unfold wr_on_client_data.
  destruct (do_read _ r) as [[|b d]|] eqn:Er; [done| |done].
  apply do_read_length in Er. unfold wr_ok in Hok.
  set (q := set_buf p _). assert (wr_ok q) as Hq.
  { unfold wr_ok. cbn [wr_buf_c2t q set_buf]. rewrite length_app. lia. }
  destruct (wr_state q) eqn:Eq.
  - intros [(-> & -> & _) | (-> & _)]%parse_command_keep.
    + split_and!; [done | intros Hd; change (wr_state q) with (wr_state p) in Eq; congruence | done].
    + split_and!; [unfold wr_ok; simpl; lia | done | done].
  - intros Hf. split; [by eapply forward_frame_ok|].
    destruct (forward_frame_stream _ _ _ _ Hf) as (_ & _ & _ & _ & Hc & Hst).
    split; [intros _; congruence | done].
Qed.

(** a readable event forwards at most one frame: when a single read
    delivers two complete frames, the first goes out and the second stays in
    the buffer until the client happens to send more. *)
Theorem wr_second_frame_waits ip p io d1 d2 :
  wr_state p = DATA → wr_buf_c2t p = [] → io_write io ≠ -1 → short d1 →
  (length (frame d1 ++ frame d2) ≤ buf_capacity)%nat →
  wr_on_client_data ip p (RData (frame d1 ++ frame d2)) io
    = ([ESend (wr_target_fd p) d1], Keep (set_buf p (frame d2))) ∧
  deframe 1 (frame d2) = ([d2], []).
Proof using Type.
  intros Hd Hb Hw Hs Hc.
  assert (short d2) as Hs2.
  { unfold short. rewrite length_app, !length_frame in Hc. pose proof buf_capacity_eq. lia. }
  split.
  2: { pose proof (deframe_frames [d2] [] 1) as Hf. cbn [fmap list_fmap concat] in Hf.
       rewrite !app_nil_r in Hf. rewrite Hf by (repeat constructor; done || lia). done. }
  unfold wr_on_client_data. rewrite Hb. cbn [do_read length].
  rewrite Nat.sub_0_r, take_ge by lia.
  destruct (frame d1 ++ frame d2) as [|b l] eqn:El.
  { apply (f_equal length) in El. rewrite length_app, length_frame in El. simpl in El. lia. }
  rewrite app_nil_l. cbn [wr_state set_buf]. rewrite Hd. rewrite <- El in Hc |- *. clear b l El.
  unfold forward_frame. cbn [wr_buf_c2t wr_target_fd set_buf].
  rewrite take_4_frame_app, frame_be_len, Nat2Z.id by done.
  rewrite !decide_False by (rewrite ?length_app, ?length_frame; lia || done).
  rewrite (drop_app_length' (frame d1) _ (4 + length d1)) by (by rewrite length_frame).
  unfold frame at 1. rewrite <- app_assoc, drop_app_length' by (by rewrite length_be_bytes).
  rewrite take_app_length. unfold set_buf. cbn. by rewrite Hd.
Qed.
End capacity.

(** ** Error messages and the fmt library *)
Section messages.
Context `{Env} `{!FmtLaws}.

(** A format call that succeeds and whose result is again free of braces. *)
Definition safe_fmt (fmt : bytes) (args : list bytes) : Prop :=
  ∃ msg, auto_format fmt args msg ∧ plain msg.

Lemma safe_plain s args : plain s → safe_fmt s args.
Proof using Type. intros Hs. exists s. split; [by apply auto_text|done]. Qed.

Lemma safe_subst p x q args :
  plain p → plain x → safe_fmt q args → safe_fmt (p ++ bs "{}" ++ q) (x :: args).
Proof using Type.
  intros Hp Hx (r & Hr & Hpr). exists (p ++ x ++ r). split; [by apply auto_field|]. by rewrite !Forall_app.
Qed.

Ltac literal := apply (bool_decide_unpack _); vm_compute; exact I.

Lemma wr_fail_safe p fmt args :
  safe_fmt fmt args → ∃ eff, wr_fail p fmt args = (eff, Closed).
Proof using Type*.
  intros (msg & Hm & Hp). unfold wr_fail. rewrite (fmt_auto _ _ _ Hm).
  change (bs "error wrproxy: {}") with (bs "error wrproxy: " ++ bs "{}" ++ []).
  rewrite fmt_one by (done || literal). unfold sp_fail. rewrite fmt_plain by done. by eexists.
Qed.

(** Text cut out of brace-free text is brace-free. *)
Lemma split_at_plain d s l r : plain s → split_at d s = Some (l, r) → plain l ∧ plain r.
Proof using Type. intros Hs [-> _]%split_at_Some. by apply Forall_app in Hs as [? [_ ?]%Forall_cons_1]. Qed.

Lemma getline_plain d ss l ss' :
  plain (ss_rest ss) → getline d ss = (l, ss') → plain l ∧ plain (ss_rest ss').
Proof using Type.
  unfold getline. intros Hs. case_match; [|by intros; simplify_eq].
  destruct (split_at d (ss_rest ss)) as [[l0 r]|] eqn:E; intros; simplify_eq/=; [|by split].
  by eapply split_at_plain.
Qed.

Lemma skip_while_plain c ss : plain (ss_rest ss) → plain (ss_rest (skip_while c ss)).
Proof using Type.
  unfold skip_while, peek. destruct (ss_good ss); [|done]. 
  induction (ss_rest ss) as [|b r IH]; intros Hp; [done|]. cbn.
  apply Forall_cons_1 in Hp as [? ?]. case_decide; [by apply IH | by constructor].
Qed.

Definition params_plain (c : conn_params) : Prop :=
  plain (cp_type c) ∧ plain (cp_port c) ∧ plain (cp_mode c).

Lemma set_param_plain c key val c' :
  params_plain c → plain val → set_param c key val = Some c' → params_plain c'.
Proof using Type. unfold set_param, params_plain. intros. repeat case_decide; naive_solver. Qed.

Lemma parse_params_plain fuel cmd c res :
  params_plain c → plain (ss_rest cmd) → parse_params fuel cmd c = Some res →
  match res with
  | inl c => params_plain c
  | inr (fmt, param) => safe_fmt fmt [param]
  end.
Proof using Type*.
  revert cmd c. induction fuel as [|fuel IH]; intros cmd c Hc Hs; simpl.
  { destruct (ss_eof cmd); [|done]. by intros [= <-]. }
  destruct (ss_eof cmd); [by intros [= <-]|].
  destruct (getline ";" cmd) as [param cmd'] eqn:Eg.
  destruct (getline_plain _ _ _ _ Hs Eg) as [Hp Hs'].
  destruct (split_at "=" param) as [[key val]|] eqn:Ep.
  - destruct (split_at_plain _ _ _ _ Hp Ep) as [_ Hv].
    destruct (set_param c key val) as [c'|] eqn:Es.
    + apply IH; [by eapply set_param_plain | done].
    + intros [= <-]. apply (safe_subst (bs "Unsupported parameter: ") _ []);
        [literal | done | by apply safe_plain].
  - intros [= <-]. apply (safe_subst (bs "Missing '=' in connect parameter: ") _ []);
      [literal | done | by apply safe_plain].
Qed.

Definition not_thrown {A} (r : presult A) : Prop := ∀ e, r.2 ≠ Thrown e.

Lemma wr_fail_not_thrown p fmt args : safe_fmt fmt args → not_thrown (wr_fail p fmt args).
Proof using Type*. intros Hs. destruct (wr_fail_safe p _ _ Hs) as [eff ->]. by intros e. Qed.

Lemma not_thrown_let p fmt args pre :
  safe_fmt fmt args →
  not_thrown (let '(eff, o) := wr_fail p fmt args in (pre eff, o)).
Proof using Type*. intros Hs. destruct (wr_fail_safe p _ _ Hs) as [eff ->]. by intros e. Qed.

Lemma handle_connect_plain ip p cmd io :
  plain (ss_rest cmd) → from_option plain True ip → plain (io_strerror io) →
  not_thrown (handle_connect ip p cmd io).
Proof using Type*.
  intros Hs Hip Hio. unfold handle_connect.
  destruct (parse_params _ _ _) as [res|] eqn:Er; [|by intros e].
  apply parse_params_plain in Er; [|by repeat constructor|done].
  destruct res as [c|[fmt param]]; [destruct Er as (Ht & Hp & Hm)|by apply wr_fail_not_thrown].
  case_decide.
  2: { apply wr_fail_not_thrown.
       apply (safe_subst (bs "Unsupported type (") _ (bs ") or mode ({})")); [literal|done|].
       apply (safe_subst (bs ") or mode (") _ (bs ")")); [literal|done|].
       apply safe_plain. literal. }
  destruct (stoi (cp_port c)).
  2: { apply wr_fail_not_thrown. apply (safe_subst (bs "Bad port ") _ []); [literal|done|by apply safe_plain]. }
  destruct ip as [ip|].
  2: { apply wr_fail_not_thrown, safe_plain. literal. }
  destruct (inet_aton (c_str ip)).
  2: { apply wr_fail_not_thrown.
       apply (safe_subst (bs "Invalid board IP address: ") _ []); [literal|done|by apply safe_plain]. }
  case_decide.
  { apply not_thrown_let. apply (safe_subst (bs "connect ") _ (bs ":{}: {}")); [literal|done|].
    apply (safe_subst (bs ":") _ (bs ": {}")); [literal|done|].
    apply (safe_subst (bs ": ") _ []); [literal|done|by apply safe_plain]. }
  case_decide; [|by intros e]. apply not_thrown_let.
  apply (safe_subst (bs "Writing ok response failed: ") _ []); [literal|done|by apply safe_plain].
Qed.

(** as long as no brace occurs in what the client sends, the board's
    address and the system's error texts, no input of a client makes the
    proxy throw: every malformed command ends in the proxy's own closing. *)
Theorem wr_plain_input_contained ip p r io :
  plain (wr_buf_c2t p) → from_option plain True (do_read buf_capacity r) →
  from_option plain True ip → plain (io_strerror io) →
  ∀ eff e, wr_on_client_data ip p r io ≠ (eff, Thrown e).
Proof using Type*.
  intros Hb Hr Hip Hio eff e. unfold wr_on_client_data.
  destruct r as [|d]; [done|]. cbn [do_read] in *.
  destruct (take (_ - _) d) as [|b l] eqn:Ed; [done|].
  assert (plain (b :: l)) as Hd.
  { rewrite <- Ed.
    replace (take (buf_capacity - length (wr_buf_c2t p)) d)
      with (take (buf_capacity - length (wr_buf_c2t p)) (take buf_capacity d))
      by (rewrite take_take; f_equal; lia).
    by apply Forall_take. }
  set (q := set_buf p _). assert (plain (wr_buf_c2t q)) as Hq by (by apply Forall_app).
  assert (not_thrown (parse_command ip q io)) as Hp.
  { unfold parse_command. destruct (find_first_of _ _) as [last|]; [|by intros ?].
    destruct (getline _ _) as [command cmd] eqn:Eg.
    apply getline_plain in Eg as [Hc Hcmd].
    2: { apply Forall_take. done. }
    case_decide; [apply handle_connect_plain; [by apply skip_while_plain|done..]|].
    destruct (safe_subst (bs "Unsupported command: ") command [] []) as (m & Hm & Hpm);
      [literal | done | by apply safe_plain|].
    change (bs "Unsupported command: " ++ bs "{}" ++ []) with (bs "Unsupported command: {}") in Hm.
    rewrite (fmt_auto _ _ _ Hm). by apply wr_fail_not_thrown, safe_plain. }
  destruct (wr_state q); intros Heq.
  - apply (Hp e). by rewrite Heq.
  - apply forward_frame_stream in Heq as (_ & _ & _ & []).
Qed.
End messages.

(** ** Accepted and fatal commands *)
Section commands.
Context `{Env}.

(** The bytes that end a command line. *)
Definition eol : bytes := [x00; x0a; x0d].

Definition no_eol (s : bytes) : Prop := Forall (λ b, b ∉ eol) s.

Lemma find_first_of_app set l b r :
  Forall (λ c, c ∉ set) l → b ∈ set → find_first_of set (l ++ b :: r) = Some (length l).
Proof using Type.
  intros Hl Hb. induction Hl as [|c l Hc _ IH]; simpl.
  - by rewrite decide_True.
  - rewrite decide_False by done. by rewrite IH.
Qed.

(** The first line that arrives is parsed as a command. *)
Lemma wr_first_line ip p io line b r :
  wr_state p = COMMAND → wr_buf_c2t p = [] → no_eol line → b ∈ eol →
  (length (line ++ b :: r) ≤ buf_capacity)%nat →
  wr_on_client_data ip p (RData (line ++ b :: r)) io =
    let '(command, cmd) := getline " "%byte (stream_of line) in
    let q := set_buf p (line ++ b :: r) in
    if decide (command = bs "connect") then handle_connect ip q (skip_while " "%byte cmd) io
    else
      match fmt_format (bs "Unsupported command: {}") [command] with
      | None => ([], Thrown (FormatError (bs "Unsupported command: {}")))
      | Some msg => wr_fail q msg []
      end.
Proof using Type.
  intros Hc Hb Hl Hbe Hlen. unfold wr_on_client_data. rewrite Hb. cbn [do_read length].
  rewrite Nat.sub_0_r, take_ge by done.
  destruct (line ++ b :: r) as [|x l] eqn:El; [by destruct line|].
  rewrite app_nil_l. rewrite <- El in Hlen |- *. clear x l El. cbn [wr_state set_buf]. rewrite Hc.
  unfold parse_command. cbn [wr_buf_c2t set_buf]. fold eol.
  rewrite find_first_of_app, take_app_length by done. unfold set_buf. by rewrite Hc.
Qed.

Lemma getline_last d s : d ∉ s → s ≠ [] → getline d (stream_of s) = (s, mk_stream [] true false).
Proof using Type.
  intros Hn Hs. unfold getline. simpl. apply split_at_None in Hn as ->.
  by rewrite bool_decide_false.
Qed.

Lemma getline_more d s r : d ∉ s → getline d (stream_of (s ++ d :: r)) = (s, stream_of r).
Proof using Type.
  intros Hn. unfold getline. simpl.
  assert (split_at d (s ++ d :: r) = Some (s, r)) as -> by (by apply split_at_Some). done.
Qed.

(** One turn of the parameter loop on [key=val;...], and the last one. *)
Lemma parse_params_more fuel key val r c c' :
  ";"%byte ∉ key → ("="%byte ∉ key) → ";"%byte ∉ val → set_param c key val = Some c' →
  parse_params (S fuel) (stream_of ((key ++ "="%byte :: val) ++ ";"%byte :: r)) c
    = parse_params fuel (stream_of r) c'.
Proof using Type.
  intros H1 H2 H3 Hs. cbn [parse_params ss_eof stream_of]. fold (stream_of ((key ++ "="%byte :: val) ++ ";"%byte :: r)).
  rewrite getline_more by set_solver.
  assert (split_at "=" (key ++ "="%byte :: val) = Some (key, val)) as -> by (by apply split_at_Some).
  by rewrite Hs.
Qed.

Lemma parse_params_last fuel key val c c' :
  ";"%byte ∉ key → ("="%byte ∉ key) → ";"%byte ∉ val → set_param c key val = Some c' →
  parse_params (S fuel) (stream_of (key ++ "="%byte :: val)) c = Some (inl c').
Proof using Type.
  intros H1 H2 H3 Hs. cbn [parse_params ss_eof stream_of]. fold (stream_of (key ++ "="%byte :: val)).
  rewrite getline_last by (set_solver || by destruct key).
  assert (split_at "=" (key ++ "="%byte :: val) = Some (key, val)) as -> by (by apply split_at_Some).
  rewrite Hs. by destruct fuel.
Qed.

(** The command WindRiver Workbench sends. *)
Definition workbench_line (tgt port : bytes) : bytes :=
  bs "connect type=udpsock;tgt=" ++ tgt ++ bs ";port=" ++ port ++ bs ";mode=packet".

Lemma workbench_params tgt port fuel :
  ";"%byte ∉ tgt → ";"%byte ∉ port → (3 < fuel)%nat →
  parse_params fuel
    (stream_of (bs "type=udpsock;tgt=" ++ tgt ++ bs ";port=" ++ port ++ bs ";mode=packet"))
    (mk_params [] [] [] [])
  = Some (inl (mk_params (bs "udpsock") tgt port (bs "packet"))).
Proof using Type.
  intros Ht Hp Hf. destruct fuel as [|[|[|[|fuel]]]]; try lia.
  pose proof (λ k c c' r, parse_params_more k (bs "type") (bs "udpsock") r c c') as L1.
  pose proof (λ k c c' r, parse_params_more k (bs "tgt") tgt r c c') as L2.
  pose proof (λ k c c' r, parse_params_more k (bs "port") port r c c') as L3.
  pose proof (λ k c c', parse_params_last k (bs "mode") (bs "packet") c c') as L4.
  etrans; [refine (L1 _ _ _ _ _ _ _ _); [set_solver..|done]|].
  etrans; [refine (L2 _ _ _ (bs "port=" ++ port ++ bs ";mode=packet") _ _ _ _); [set_solver..|done]|].
  etrans; [refine (L3 _ _ _ (bs "mode=packet") _ _ _ _); [set_solver..|done]|].
  apply L4; [set_solver..|done].
Qed.
End commands.

(** ** The two main command properties *)
Section command_theorems.
Context `{Env}.

Lemma no_eol_workbench tgt port : no_eol tgt → no_eol port → no_eol (workbench_line tgt port).
Proof using Type.
  intros Ht Hp. unfold no_eol, workbench_line. rewrite !Forall_app. split_and!; try done;
    (apply (bool_decide_unpack _); vm_compute; exact I).
Qed.

(** the command Workbench sends is accepted: whatever target it names, a
    numeric port leads to a connection to the board's address on that port
    (modulo 2^16), the answer "ok\0", and data mode with an empty buffer. *)
Theorem wr_workbench_accepted p tgt port n board addr io b rest :
  wr_state p = COMMAND → wr_buf_c2t p = [] →
  no_eol tgt → no_eol port → ";"%byte ∉ tgt → ";"%byte ∉ port →
  stoi port = Some n → inet_aton (c_str board) = Some addr → b ∈ eol →
  io_connect io ≠ -1 → io_write io ≠ -1 →
  (length (workbench_line tgt port ++ b :: rest) ≤ buf_capacity)%nat →
  wr_on_client_data (Some board) p (RData (workbench_line tgt port ++ b :: rest)) io
    = ([EConnect (wr_target_fd p) board addr (u16 n);
        ESend (wr_client_fd p) (bs "ok" ++ [x00])],
       Keep (mk_wr (wr_base p) DATA [] (wr_target_fd p))).
Proof using Type.
  intros Hc Hb Ht Hp Hst Hsp Hn Ha Hbe Hio1 Hio2 Hlen.
  rewrite wr_first_line by (done || by apply no_eol_workbench).
  assert (workbench_line tgt port = bs "connect" ++ " "%byte ::
    (bs "type=udpsock;tgt=" ++ tgt ++ bs ";port=" ++ port ++ bs ";mode=packet")) as -> by done.
  rewrite getline_more by set_solver. rewrite decide_True by done.
  set (args := bs "type=udpsock;tgt=" ++ _).
  assert (skip_while " " (stream_of args) = stream_of args) as -> by done.
  unfold handle_connect. unfold args. rewrite workbench_params.
  2, 3: done.
  2: { cbn [ss_rest stream_of]. rewrite length_app. cbn. lia. }
  rewrite decide_True by done. cbn [cp_port]. rewrite Hn, Ha.
  by rewrite !decide_False by done.
Qed.

(** C35: a client can stop the whole daemon: a one-word command that ends in an
    opening brace makes the error path itself throw [fmt::format_error], since
    the formatted message is used as a format string again. *)
Theorem wr_brace_command_throws `{!FmtLaws} ip p io w b rest :
  wr_state p = COMMAND → wr_buf_c2t p = [] →
  plain w → no_eol w → " "%byte ∉ w → b ∈ eol →
  (length ((w ++ bs "{") ++ b :: rest) ≤ buf_capacity)%nat →
  wr_on_client_data ip p (RData ((w ++ bs "{") ++ b :: rest)) io
    = ([], Thrown (FormatError (bs "Unsupported command: " ++ w ++ bs "{"))).
Proof using Type.
  intros Hc Hb Hw He Hsp Hbe Hlen. rewrite wr_first_line; try done.
  2: { apply Forall_app. split; [done|]. apply (bool_decide_unpack _); vm_compute; exact I. }
  rewrite getline_last by (set_solver || (by destruct w)). rewrite decide_False.
  2: { intros Heq. apply (f_equal (@rev _)) in Heq. rewrite rev_app_distr in Heq. done. }
  change (bs "Unsupported command: {}") with (bs "Unsupported command: " ++ bs "{}" ++ []).
  rewrite fmt_one by (done || (apply (bool_decide_unpack _); vm_compute; exact I)). rewrite app_nil_r.
  unfold wr_fail. rewrite app_assoc, fmt_unmatched; [done|]. apply Forall_app.
  split; [apply (bool_decide_unpack _); vm_compute; exact I | done].
Qed.
End command_theorems.

(** ** Instances *)
Definition demo_wr (st : wr_mode) (buf : bytes) : WrProxy := mk_wr (mk_base 0 5) st buf 6.
Definition demo_io : io_res := mk_io 0 0 (bs "Success") 0.

(** The stream [frame 1, frame 2] in three chunks, cut inside a length field. *)
Definition demo_chunks : list (read_res * io_res) :=
  [(RData (take 2 (frame [x01])), demo_io); (RData (drop 2 (frame [x01])), demo_io);
   (RData (frame [x02; x03]), demo_io)].

Lemma wr_data_refines_deframe_witness :
  @wr_run demo_env None (demo_wr DATA []) demo_chunks
    = (frame [x01] ++ frame [x02; x03], [ESend 6 [x01]; ESend 6 [x02; x03]], Keep (demo_wr DATA [])) ∧
  [[x01]; [x02; x03]] `prefix_of` (deframe 11 (frame [x01] ++ frame [x02; x03])).1.
Proof.
  assert (@wr_run demo_env None (demo_wr DATA []) demo_chunks
    = (frame [x01] ++ frame [x02; x03], [ESend 6 [x01]; ESend 6 [x02; x03]], Keep (demo_wr DATA []))) as Hr
    by (vm_compute; reflexivity).
  split; [exact Hr|].
  exact (proj1 (@wr_data_refines_deframe demo_env None (demo_wr DATA []) demo_chunks _ _ _ eq_refl Hr)).
Defined.


Lemma wr_connects_only_to_board_witness :
  Some (bs "192.168.1.5") = Some (bs "192.168.1.5") ∧
  @inet_aton demo_env (c_str (bs "192.168.1.5")) = Some 3232235781 ∧ 6 = 6 ∧ 0 ≤ 17185 < 65536.
Proof.
  apply (@wr_connects_only_to_board demo_env (Some (bs "192.168.1.5")) (demo_wr COMMAND [])
    (RData (bs "connect type=udpsock;tgt=x;port=17185;mode=packet" ++ [x00])) demo_io
    [EConnect 6 (bs "192.168.1.5") 3232235781 17185; ESend 5 (bs "ok" ++ [x00])]
    (Keep (demo_wr DATA []))); [vm_compute; reflexivity|left].
Defined.

Lemma wr_buffer_bounded_witness :
  wr_ok (demo_wr DATA (bs "abc")) ∧ (DATA = DATA → DATA = DATA) ∧
  same_conn (demo_wr DATA (bs "ab")) (demo_wr DATA (bs "abc")).
Proof.
  apply (@wr_buffer_bounded demo_env None (demo_wr DATA (bs "ab")) (RData (bs "c")) demo_io []
    (demo_wr DATA (bs "abc"))).
  - unfold wr_ok. pose proof buf_capacity_eq. cbn. lia.
  - vm_compute. reflexivity.
Defined.

Lemma wr_second_frame_waits_witness :
  @wr_on_client_data demo_env None (demo_wr DATA []) (RData (frame [x01] ++ frame [x02])) demo_io
    = ([ESend 6 [x01]], Keep (demo_wr DATA (frame [x02]))) ∧ deframe 1 (frame [x02]) = ([[x02]], []).
Proof.
  apply (@wr_second_frame_waits demo_env None (demo_wr DATA []) demo_io [x01] [x02]).
  - reflexivity.
  - reflexivity.
  - discriminate.
  - reflexivity.
  - pose proof buf_capacity_eq. cbn. lia.
Defined.

Lemma wr_plain_input_contained_witness :
  plain (bs "bogus" ++ [x0a]) ∧
  ∀ eff e, @wr_on_client_data demo_env None (demo_wr COMMAND []) (RData (bs "bogus" ++ [x0a])) demo_io
    ≠ (eff, Thrown e).
Proof.
  split; [apply (bool_decide_unpack _); vm_compute; exact I|].
  apply (@wr_plain_input_contained demo_env ref_fmt_laws None (demo_wr COMMAND []) (RData (bs "bogus" ++ [x0a])) demo_io).
  - constructor.
  - apply (bool_decide_unpack _). vm_compute. exact I.
  - exact I.
  - apply (bool_decide_unpack _). vm_compute. exact I.
Defined.

Lemma wr_workbench_accepted_witness :
  @wr_on_client_data demo_env (Some (bs "192.168.1.5")) (demo_wr COMMAND [])
    (RData (workbench_line (bs "10.0.0.1") (bs "17185") ++ [x00])) demo_io
  = ([EConnect 6 (bs "192.168.1.5") 3232235781 17185; ESend 5 (bs "ok" ++ [x00])], Keep (demo_wr DATA [])).
Proof.
  apply (@wr_workbench_accepted demo_env (demo_wr COMMAND []) (bs "10.0.0.1") (bs "17185") 17185
    (bs "192.168.1.5") 3232235781 demo_io x00 []).
  3-6: apply (bool_decide_unpack _); vm_compute; exact I.
  5: apply (bool_decide_unpack _); vm_compute; exact I.
  7: pose proof buf_capacity_eq; vm_compute length; lia.
  all: try reflexivity; discriminate.
Defined.

Lemma wr_brace_command_throws_witness :
  @wr_on_client_data demo_env None (demo_wr COMMAND []) (RData (bs "oops{" ++ [x0a])) demo_io
  = ([], Thrown (FormatError (bs "Unsupported command: oops{"))).
Proof.
  apply (@wr_brace_command_throws demo_env ref_fmt_laws None (demo_wr COMMAND []) demo_io (bs "oops") x0a []).
  3-6: apply (bool_decide_unpack _); vm_compute; exact I.
  3: pose proof buf_capacity_eq; vm_compute length; lia.
  all: reflexivity.
Defined.
