(* ===== verification/TcpProxy.v ===== *)
(** * TcpProxy: forwarding of TCP connections ([src/src/tcpproxy.cpp], [tcpproxy.hpp])

    The constructor starts a non-blocking connection to the board; when it is
    established, bytes are copied in both directions, each through a buffer that
    keeps what [send] did not take. *)
From S2P Require Import Prelude Bytes Env SocketProxy.

Local Open Scope Z_scope.

(** Which watchers of the proxy are active: the target's for WRITE, both for
    READ, or none. *)
Inductive tcp_watch := Connecting | Forwarding | Idle.
#[global] Instance tcp_watch_eq_dec : EqDecision tcp_watch.
Proof. solve_decision. Defined.

Record TcpProxy := mk_tcp {
  tcp_base : SocketProxy;
  tcp_target_fd : Z;
  tcp_watch_state : tcp_watch;
  tcp_buf_c2t : bytes;
  tcp_buf_t2c : bytes;
}.

Definition tcp_client_fd (p : TcpProxy) : Z := sp_client_fd (tcp_base p).

Definition set_watch (p : TcpProxy) (w : tcp_watch) : TcpProxy :=
  mk_tcp (tcp_base p) (tcp_target_fd p) w (tcp_buf_c2t p) (tcp_buf_t2c p).

(** Outcome of the non-blocking [connect]. *)
Inductive connect_res := ConnOk | ConnInProgress | ConnErr.

(** Outcome of [getsockopt(SO_ERROR)]: its return value, the pending error and
    the text [strerror] gives for whichever failed. *)
Record so_error := mk_so { so_ret : Z; so_err : Z; so_strerror : bytes }.

(** The two directions of [on_data]. *)
Inductive dir := C2T | T2C.
#[global] Instance dir_eq_dec : EqDecision dir.
Proof. solve_decision. Defined.

Definition from_fd (d : dir) (p : TcpProxy) : Z :=
  match d with C2T => tcp_client_fd p | T2C => tcp_target_fd p end.
Definition to_fd (d : dir) (p : TcpProxy) : Z :=
  match d with C2T => tcp_target_fd p | T2C => tcp_client_fd p end.
Definition dir_buf (d : dir) (p : TcpProxy) : bytes :=
  match d with C2T => tcp_buf_c2t p | T2C => tcp_buf_t2c p end.
Definition from_name (d : dir) : bytes :=
  match d with C2T => bs "client" | T2C => bs "target" end.
Definition to_name (d : dir) : bytes :=
  match d with C2T => bs "target" | T2C => bs "client" end.
Definition set_dir_buf (d : dir) (p : TcpProxy) (b : bytes) : TcpProxy :=
  match d with
  | C2T => mk_tcp (tcp_base p) (tcp_target_fd p) (tcp_watch_state p) b (tcp_buf_t2c p)
  | T2C => mk_tcp (tcp_base p) (tcp_target_fd p) (tcp_watch_state p) (tcp_buf_c2t p) b
  end.

(** The destructors: the target socket, then the client socket of the base. *)
Definition TcpProxy_destroy (p : TcpProxy) : list effect :=
  [EClose (tcp_target_fd p); EClose (tcp_client_fd p)].

Section tcpproxy.
Context `{Env}.

(** [TcpProxy::on_target_connected] *)
Definition on_target_connected (p : TcpProxy) (so : so_error) : presult TcpProxy :=
  if decide (so_ret so = -1) then ([], sp_fail (bs "getsockopt(SO_ERROR): ") [so_strerror so])
  else if decide (so_err so ≠ 0) then ([], sp_fail (bs "connect failure: {}") [so_strerror so])
  else ([], Keep (set_watch p Forwarding)).

(** An exception built with [fmt::format]. *)
Definition throw_fmt (mk : bytes → exn) (fmt : bytes) (args : list bytes) : pout TcpProxy :=
  match fmt_format fmt args with
  | Some msg => Thrown (mk msg)
  | None => Thrown (FormatError fmt)
  end.

(** The constructor. [port_text] is the decimal text of [port]. A [close()]
    called from here finds the proxy not yet in the session's list, so that
    the new object stays, with no watcher active. When the constructor throws,
    only the base class (the client socket) is destroyed. *)
Definition TcpProxy_new (base : SocketProxy) (ip : bytes) (port : Z) (port_text : bytes)
    (sock : Z) (conn : connect_res) (so : so_error) : presult TcpProxy :=
  let undo := EClose (sp_client_fd base) in
  match inet_aton (c_str ip) with
  | None => ([undo], throw_fmt RuntimeError (bs "Invalid board IP address: {}") [ip])
  | Some addr =>
    if decide (sock = -1) then ([undo], Thrown (SystemError (bs "socket(SOCK_STREAM)")))
    else
      let c := EConnect sock ip addr port in
      match conn with
      | ConnInProgress => ([c], Keep (mk_tcp base sock Connecting [] []))
      | ConnErr => ([c; EClose sock; undo], throw_fmt SystemError (bs "connect {}:{}") [ip; port_text])
      | ConnOk =>
        match on_target_connected (mk_tcp base sock Idle [] []) so with
        | (eff, Keep p) => (c :: eff, Keep p)
        | (eff, Closed) => (c :: eff, Keep (mk_tcp base sock Idle [] []))
        | (eff, Thrown e) => (c :: eff ++ [undo], Thrown e)
        end
      end
  end.

(** [TcpProxy::on_data]; [io_write io] is the result of [send]. *)
Definition on_data (d : dir) (p : TcpProxy) (r : read_res) (io : io_res) : presult TcpProxy :=
  match do_read (buf_capacity - length (dir_buf d p)) r with
  | None => ([], sp_fail (bs "{} read error: {}") [from_name d; io_strerror io])
  | Some [] => ([], sp_close)
  | Some got =>
    let buf := dir_buf d p ++ got in
    if decide (io_write io = -1) then
      ([ESendStream (to_fd d p) buf (-1)], sp_fail (bs "{} send error: {}") [to_name d; io_strerror io])
    else
      ([ESendStream (to_fd d p) buf (io_write io)],
       Keep (set_dir_buf d p (drop (Z.to_nat (io_write io)) buf)))
  end.
End tcpproxy.

(** ** Specification of the byte stream *)

(** A run of readable events on both sides: the bytes read per direction, the
    effects, the outcome. *)
Fixpoint tcp_run `{Env} (p : TcpProxy) (evs : list (dir * read_res * io_res)) :
    (bytes * bytes) * list effect * pout TcpProxy :=
  match evs with
  | [] => (([], []), [], Keep p)
  | (d, r, io) :: evs =>
    let got := default [] (do_read (buf_capacity - length (dir_buf d p)) r) in
    let add := λ g : bytes * bytes, match d with C2T => (got ++ g.1, g.2) | T2C => (g.1, got ++ g.2) end in
    match on_data d p r io with
    | (eff, Keep p') => let '(g, eff', o) := tcp_run p' evs in (add g, eff ++ eff', o)
    | (eff, o) => (add ([], []), eff, o)
    end
  end.

(** ** Proofs *)
Section stream.
Context `{Env}.

Definition got_in (d : dir) (g : bytes * bytes) : bytes := match d with C2T => g.1 | T2C => g.2 end.

Definition tcp_ok (p : TcpProxy) : Prop :=
  (length (tcp_buf_c2t p) ≤ buf_capacity)%nat ∧ (length (tcp_buf_t2c p) ≤ buf_capacity)%nat.

(** One event: in the event's direction the buffer and the read bytes are
    what was taken and what stays; the other direction is untouched. *)
Lemma on_data_step d p r io eff p' :
  on_data d p r io = (eff, Keep p') →
  ∃ got, do_read (buf_capacity - length (dir_buf d p)) r = Some got ∧
    eff = [ESendStream (to_fd d p) (dir_buf d p ++ got) (io_write io)] ∧
    p' = set_dir_buf d p (drop (Z.to_nat (io_write io)) (dir_buf d p ++ got)).
Proof using Type.
  unfold on_data. destruct (do_read _ r) as [[|b l]|]; [done| |intros [=]; by destruct (sp_fail_not_keep _ _ _ H2)].
  case_decide; [intros [=]; by destruct (sp_fail_not_keep _ _ _ H3)|].
  intros; simplify_eq. by exists (b :: l).
Qed.

Lemma on_data_stream d d' p r io eff p' :
  tcp_target_fd p ≠ tcp_client_fd p →
  on_data d p r io = (eff, Keep p') →
  dir_buf d' p ++ (if decide (d = d') then default [] (do_read (buf_capacity - length (dir_buf d p)) r) else [])
    = taken_by (to_fd d' p) eff ++ dir_buf d' p'.
Proof using Type.
  intros Hne Ho. apply on_data_step in Ho as (got & -> & -> & ->). cbn [default]. unfold id.
  case_decide; subst.
  - rewrite taken_by_one. destruct d'; cbn; by rewrite take_drop.
  - rewrite app_nil_r, taken_by_other by (destruct d, d'; cbn; congruence).
    by destruct d, d'.
Qed.

Lemma on_data_same d p r io eff p' :
  on_data d p r io = (eff, Keep p') →
  tcp_base p' = tcp_base p ∧ tcp_target_fd p' = tcp_target_fd p ∧ tcp_watch_state p' = tcp_watch_state p.
Proof using Type. intros (got & _ & _ & ->)%on_data_step. by destruct d. Qed.

Lemma on_data_ok d p r io eff p' : tcp_ok p → on_data d p r io = (eff, Keep p') → tcp_ok p'.
Proof using Type.
  intros [H1 H2] (got & Hg%do_read_length & _ & ->)%on_data_step.
  destruct d; unfold tcp_ok; cbn in *; rewrite length_drop, length_app; lia.
Qed.

(** C9: in both directions, whatever the sizes of the reads and of the partial
    sends, the bytes the receiving socket took followed by the buffer are
    exactly the bytes read from the sending side, and neither buffer ever
    outgrows its reserved capacity. *)
Theorem tcp_stream_preserved p evs g eff p' :
  tcp_ok p → tcp_target_fd p ≠ tcp_client_fd p → tcp_run p evs = (g, eff, Keep p') →
  tcp_ok p' ∧
  ∀ d, dir_buf d p ++ got_in d g = taken_by (to_fd d p) eff ++ dir_buf d p'.
Proof using Type.
  revert p g eff. induction evs as [|[[d r] io] evs IH]; intros p g eff Hok Hne Hr; cbn in Hr.
  { simplify_eq. split; [done|]. intros [|]; cbn; by rewrite app_nil_r. }
  destruct (on_data d p r io) as [eff1 [p1| |]] eqn:E1; [|done..].
  destruct (tcp_run p1 evs) as [[g2 eff2] o2] eqn:E2.
  destruct (on_data_same _ _ _ _ _ _ E1) as (Hb & Ht & _).
  assert (tcp_client_fd p1 = tcp_client_fd p) as Hc by (unfold tcp_client_fd; by rewrite Hb).
  apply pair_equal_spec in Hr as [[Hg He]%pair_equal_spec Ho]. subst o2.
  destruct (IH p1 g2 eff2) as [Hok' IHd];
    [by eapply on_data_ok | congruence | done |].
  split; [done|]. intros d'. pose proof (on_data_stream _ d' _ _ _ _ _ Hne E1) as Hs.
  rewrite <- He, taken_by_app, <- app_assoc. specialize (IHd d').
  assert (to_fd d' p1 = to_fd d' p) as Htf by (destruct d'; cbn; congruence).
  rewrite Htf in IHd. rewrite <- IHd, app_assoc, <- Hs, <- app_assoc. f_equal.
  subst g. destruct d, d'; done.
Qed.

(** The formats of the error messages are well-formed. *)
Ltac literal := apply (bool_decide_unpack _); vm_compute; exact I.

Lemma fail_1_closed `{!FmtLaws} (p x : bytes) :
  plain p → sp_fail (A := TcpProxy) (p ++ bs "{}" ++ []) [x] = Closed.
Proof using Type. intros Hp. unfold sp_fail. by rewrite fmt_one. Qed.

Lemma fail_2_closed `{!FmtLaws} (q x y : bytes) :
  plain q → sp_fail (A := TcpProxy) (bs "{}" ++ q ++ bs "{}" ++ []) [x; y] = Closed.
Proof using Type.
  intros Hq. unfold sp_fail.
  assert (auto_format (q ++ bs "{}" ++ []) [y] (q ++ y ++ [])) as Ha by (by apply auto_field, auto_text).
  apply (auto_field [] x) in Ha; [|done]. rewrite app_nil_l in Ha. by rewrite (fmt_auto _ _ _ Ha).
Qed.

Lemma on_target_connected_no_throw `{!FmtLaws} p so eff e :
  on_target_connected p so ≠ (eff, Thrown e).
Proof using Type.
  unfold on_target_connected. case_decide; [|case_decide].
  - unfold sp_fail. by rewrite fmt_plain by literal.
  - rewrite (fail_1_closed (bs "connect failure: ")) by literal. done.
  - done.
Qed.

Lemma on_data_no_throw `{!FmtLaws} d p r io eff e : on_data d p r io ≠ (eff, Thrown e).
Proof using Type.
  unfold on_data. destruct (do_read _ r) as [[|b l]|]; [done| |].
  - case_decide; [|done]. rewrite (fail_2_closed (bs " send error: ")) by literal. done.
  - rewrite (fail_2_closed (bs " read error: ")) by literal. done.
Qed.

(** a TCP proxy ends the daemon's event loop by an exception exactly when
    its constructor meets an address it cannot parse, no socket, or a
    connection refused at once; the handlers of a proxy that exists never
    throw. *)
Theorem tcp_throws_only_in_constructor `{!FmtLaws} base ip port pt sock conn so :
  ((∃ eff e, TcpProxy_new base ip port pt sock conn so = (eff, Thrown e)) ↔
   (inet_aton (c_str ip) = None ∨ sock = -1 ∨ conn = ConnErr)) ∧
  (∀ d p r io so eff e, on_data d p r io ≠ (eff, Thrown e) ∧
     on_target_connected p so ≠ (eff, Thrown e)).
Proof using Type.
  split; [|intros; split; [apply on_data_no_throw | apply on_target_connected_no_throw]].
  unfold TcpProxy_new. destruct (inet_aton (c_str ip)) as [addr|].
  2: { split; [by left|]. intros _. unfold throw_fmt. case_match; eauto. }
  case_decide as Hs; [split; eauto|].
  destruct conn; [|split; [intros (?&?&?); done | naive_solver]|].
  2: { split; [eauto|]. intros _. unfold throw_fmt. case_match; eauto. }
  destruct (on_target_connected _ so) as [eff [p| |e]] eqn:E.
  - split; [intros (?&?&?); done | naive_solver].
  - split; [intros (?&?&?); done | naive_solver].
  - by apply on_target_connected_no_throw in E.
Qed.
End stream.

(** ** Instances *)
Definition demo_tcp : TcpProxy := mk_tcp (mk_base 0 5) 6 Forwarding [] [].

(** The client sends [abc], of which the board takes one byte, then [d], of
    which it takes two. *)
Lemma tcp_stream_preserved_witness :
  let p' := mk_tcp (mk_base 0 5) 6 Forwarding (bs "d") [] in
  let eff := [ESendStream 6 (bs "abc") 1; ESendStream 6 (bs "bcd") 2] in
  tcp_ok p' ∧ ∀ d, dir_buf d demo_tcp ++ got_in d (bs "abcd", []) = taken_by (to_fd d demo_tcp) eff ++ dir_buf d p'.
Proof.
  apply (@tcp_stream_preserved demo_env demo_tcp
    [(C2T, RData (bs "abc"), mk_io 0 1 [] 0); (C2T, RData (bs "d"), mk_io 0 2 [] 0)]).
  - split; cbn; lia.
  - discriminate.
  - vm_compute. reflexivity.
Defined.

Lemma tcp_throws_only_in_constructor_witness :
  ∃ eff e, @TcpProxy_new demo_env (mk_base 0 5) (bs "board7") 3333 (bs "3333") 6 ConnOk (mk_so 0 0 []) = (eff, Thrown e).
Proof.
  apply (@tcp_throws_only_in_constructor demo_env ref_fmt_laws (mk_base 0 5) (bs "board7") 3333 (bs "3333") 6 ConnOk
    (mk_so 0 0 [])).
  left. vm_compute. reflexivity.
Defined.
