(* ===== verification/Board.v ===== *)
(** * Board ([src/src/board.hpp], [src/src/board.cpp])

    A board's configuration and the session that owns it. A [Board*] is the
    board's position in [Daemon::boards], a list that never changes length. *)
From S2P Require Import Prelude Env.

Record Board := mk_board {
  b_id : bytes;
  b_command : bytes;
  b_ip_address : bytes;
  b_close_command : bytes;
  b_reserved_for : bytes;
  b_owner : option ptr;
}.

(** [Board::Board]: no owner. *)
Definition Board_new (id command ip_address close_command reserved_for : bytes) : Board :=
  mk_board id command ip_address close_command reserved_for None.

(** [Board::is_available] *)
Definition is_available (b : Board) : bool := bool_decide (b_owner b = None).

Definition set_owner (o : option ptr) (b : Board) : Board :=
  mk_board (b_id b) (b_command b) (b_ip_address b) (b_close_command b) (b_reserved_for b) o.

(** [Board::acquire] and [Board::release] *)
Definition acquire (p : ptr) (b : Board) : Board := set_owner (Some p) b.
Definition release (b : Board) : Board := set_owner None b.

(** [Daemon::find_available_board]: first a free board reserved for the user,
    then any free board that is not reserved. The result is a position. *)
Definition is_reserved_for (username : bytes) (b : Board) : Prop :=
  is_available b ∧ b_reserved_for b ≠ [] ∧ b_reserved_for b = username.
#[global] Instance is_reserved_for_dec u b : Decision (is_reserved_for u b).
Proof. unfold is_reserved_for. apply _. Defined.

Definition is_unreserved (b : Board) : Prop := is_available b ∧ b_reserved_for b = [].
#[global] Instance is_unreserved_dec b : Decision (is_unreserved b).
Proof. unfold is_unreserved. apply _. Defined.

Definition find_available_board (username : bytes) (boards : list Board) : option nat :=
  match list_find (is_reserved_for username) boards with
  | Some (i, _) => Some i
  | None =>
    match list_find is_unreserved boards with
    | Some (i, _) => Some i
    | None => None
    end
  end.

(** ** Specification: which boards a user may get *)
Definition usable (username : bytes) (b : Board) : Prop :=
  b_reserved_for b = [] ∨ b_reserved_for b = username.

Lemma is_available_true b : is_available b ↔ b_owner b = None.
Proof. unfold is_available. by rewrite bool_decide_spec. Qed.

Lemma find_available_board_Some u bds i :
  find_available_board u bds = Some i →
  ∃ b, bds !! i = Some b ∧ b_owner b = None ∧ usable u b.
Proof.
  unfold find_available_board.
  destruct (list_find (is_reserved_for u) bds) as [[j b]|] eqn:E1.
  - intros [= ->]. apply list_find_Some in E1 as (Hl & (Ha & _ & Hr) & _).
    apply is_available_true in Ha. exists b. unfold usable. auto.
  - destruct (list_find is_unreserved bds) as [[j b]|] eqn:E2; [|done].
    intros [= ->]. apply list_find_Some in E2 as (Hl & (Ha & Hr) & _).
    apply is_available_true in Ha. exists b. unfold usable. auto.
Qed.

Lemma find_available_board_None u bds :
  find_available_board u bds = None ↔
  ∀ i b, bds !! i = Some b → usable u b → b_owner b ≠ None.
Proof.
  unfold find_available_board. split.
  - intros Hf i b Hb Hu Ho. assert (is_available b) as Ha by (by apply is_available_true).
    assert (b ∈ bds) as Hin by (by eapply list_elem_of_lookup_2).
    destruct (list_find (is_reserved_for u) bds) as [[j b']|] eqn:E1; [done|].
    destruct (list_find is_unreserved bds) as [[j b']|] eqn:E2; [done|].
    apply list_find_None in E1, E2. rewrite Forall_forall in E1, E2.
    destruct (decide (b_reserved_for b = [])) as [He|Hne].
    + by apply (E2 _ Hin).
    + destruct Hu as [|Hu]; [done|]. by apply (E1 _ Hin).
  - intros Hall.
    destruct (list_find (is_reserved_for u) bds) as [[j b']|] eqn:E1.
    { apply list_find_Some in E1 as (Hl & (Ha & _ & Hr) & _).
      apply is_available_true in Ha. exfalso. eapply Hall; [done| |done]. by right. }
    destruct (list_find is_unreserved bds) as [[j b']|] eqn:E2; [|done].
    apply list_find_Some in E2 as (Hl & (Ha & Hr) & _).
    apply is_available_true in Ha. exfalso. eapply Hall; [done| |done]. by left.
Qed.

(** What the choice has to satisfy: the board is free and usable; an unreserved
    one is taken only when no board reserved for the user is free; and it is the
    first of its class. Without a choice, nothing usable is free. *)
Definition choice_ok (u : bytes) (bds : list Board) (r : option nat) : Prop :=
  match r with
  | Some i =>
    ∃ b, bds !! i = Some b ∧ b_owner b = None ∧ usable u b ∧
      (b_reserved_for b = [] → ∀ j b', bds !! j = Some b' → b_reserved_for b' = u → u ≠ [] → b_owner b' ≠ None) ∧
      (∀ j b', bds !! j = Some b' → b_reserved_for b' = b_reserved_for b → b_owner b' = None → i ≤ j)
  | None => ∀ i b, bds !! i = Some b → usable u b → b_owner b ≠ None
  end.

Lemma find_available_board_spec u bds : choice_ok u bds (find_available_board u bds).
Proof.
  unfold choice_ok.
  destruct (find_available_board u bds) as [i|] eqn:Ef; [|by apply find_available_board_None].
  unfold find_available_board in Ef.
  destruct (list_find (is_reserved_for u) bds) as [[j b]|] eqn:E1.
  - injection Ef as ->. apply list_find_Some in E1 as (Hl & (Ha & Hne & Hr) & Hmin).
    apply is_available_true in Ha. exists b. split_and!; [done|done|by right|done|].
    intros j b' Hb' Hr' Ho'. destruct (decide (i ≤ j)); [done|]. exfalso.
    apply (Hmin j b' Hb'); [lia|]. split_and!; [by apply is_available_true|congruence|congruence].
  - destruct (list_find is_unreserved bds) as [[j b]|] eqn:E2; [|done]. injection Ef as ->.
    apply list_find_Some in E2 as (Hl & (Ha & Hr) & Hmin). apply is_available_true in Ha.
    apply list_find_None in E1. rewrite Forall_forall in E1.
    exists b. split_and!; [done|done|by left| |].
    + intros _ j b' Hb' Hr' Hu Ho'. apply (E1 b'); [by eapply list_elem_of_lookup_2|].
      split_and!; [by apply is_available_true|congruence|done].
    + intros j b' Hb' Hr' Ho'. destruct (decide (i ≤ j)); [done|]. exfalso.
      apply (Hmin j b' Hb'); [lia|]. split; [by apply is_available_true|congruence].
Qed.

(** C7: the choice of a board honours reservations: it is free and not reserved
    for somebody else; a free board reserved for the user is preferred to an
    unreserved one, and within each class the first in the configuration wins;
    and when no board is found, none that the user may use is free. *)
Theorem find_available_board_policy u bds : choice_ok u bds (find_available_board u bds).
Proof. apply find_available_board_spec. Qed.
