(* ===== verification/World.v ===== *)
(** * World: the daemon's objects and the monad its handlers run in

    The objects of [src/src/session.hpp] and [src/src/daemon.hpp]: the sessions
    live in a heap indexed by their addresses, [Daemon::sessions] is the order
    of the [std::list] nodes and [Daemon::wait_queue] holds plain pointers, so
    that a dangling pointer is an address with no entry in the heap. Handlers
    run in a monad over this state in which an exception or undefined behaviour
    ends the computation. *)
From S2P Require Import Prelude Env Board SocketProxy WrProxy TcpProxy.

Local Open Scope Z_scope.

(** ** Sessions *)
Inductive status := created | awaiting_board | has_board | closing_board.
#[global] Instance status_eq_dec : EqDecision status.
Proof. solve_decision. Defined.

(** The method [child_watcher] calls. *)
Inductive child_cb := OnProcessExit | OnCloseCommandExit.
#[global] Instance child_cb_eq_dec : EqDecision child_cb.
Proof. solve_decision. Defined.

Inductive Proxy := PTcp (p : TcpProxy) | PWr (p : WrProxy).

(** Sizes of the receive buffers of sessions. *)
Definition session_buffer_size : nat := Z.to_nat 65536.

Lemma session_buffer_size_eq : Z.of_nat session_buffer_size = 65536.
Proof. unfold session_buffer_size. lia. Qed.

#[global] Opaque session_buffer_size.

Record Session := mk_session {
  ses_id : Z;                                   (* id, drawn from Session::counter *)
  ses_client_fd : Z;                            (* client->watcher.fd *)
  ses_client_active : bool;                     (* client->watcher.is_active() *)
  ses_username_cred : bytes;
  ses_status : status;
  ses_board : option nat;                       (* board: a position in Daemon::boards *)
  ses_fd_in : Z;
  ses_fd_out : Z;
  ses_fd_err : Z;
  ses_ppid : Z;                                 (* indeterminate until the setup message *)
  ses_username : bytes;
  ses_buffer : bytes;
  ses_session_since : Z;
  ses_board_since : Z;
  ses_child : option (Z * child_cb);            (* child_watcher: active on this pid *)
  ses_proxies : list (ptr * Proxy);
  ses_proxy_cnt : Z;
}.

(** Assignments to members. *)
Definition set_client_active (a : bool) (s : Session) : Session :=
  mk_session (ses_id s) (ses_client_fd s) a (ses_username_cred s) (ses_status s) (ses_board s)
    (ses_fd_in s) (ses_fd_out s) (ses_fd_err s) (ses_ppid s) (ses_username s) (ses_buffer s)
    (ses_session_since s) (ses_board_since s) (ses_child s) (ses_proxies s) (ses_proxy_cnt s).
Definition set_status (st : status) (s : Session) : Session :=
  mk_session (ses_id s) (ses_client_fd s) (ses_client_active s) (ses_username_cred s) st (ses_board s)
    (ses_fd_in s) (ses_fd_out s) (ses_fd_err s) (ses_ppid s) (ses_username s) (ses_buffer s)
    (ses_session_since s) (ses_board_since s) (ses_child s) (ses_proxies s) (ses_proxy_cnt s).
Definition set_board (b : option nat) (since : Z) (s : Session) : Session :=
  mk_session (ses_id s) (ses_client_fd s) (ses_client_active s) (ses_username_cred s) (ses_status s) b
    (ses_fd_in s) (ses_fd_out s) (ses_fd_err s) (ses_ppid s) (ses_username s) (ses_buffer s)
    (ses_session_since s) since (ses_child s) (ses_proxies s) (ses_proxy_cnt s).
Definition set_fds (i o e : Z) (s : Session) : Session :=
  mk_session (ses_id s) (ses_client_fd s) (ses_client_active s) (ses_username_cred s) (ses_status s) (ses_board s)
    i o e (ses_ppid s) (ses_username s) (ses_buffer s)
    (ses_session_since s) (ses_board_since s) (ses_child s) (ses_proxies s) (ses_proxy_cnt s).
Definition set_peer (ppid : Z) (username : bytes) (s : Session) : Session :=
  mk_session (ses_id s) (ses_client_fd s) (ses_client_active s) (ses_username_cred s) (ses_status s) (ses_board s)
    (ses_fd_in s) (ses_fd_out s) (ses_fd_err s) ppid username (ses_buffer s)
    (ses_session_since s) (ses_board_since s) (ses_child s) (ses_proxies s) (ses_proxy_cnt s).
Definition set_buffer (b : bytes) (s : Session) : Session :=
  mk_session (ses_id s) (ses_client_fd s) (ses_client_active s) (ses_username_cred s) (ses_status s) (ses_board s)
    (ses_fd_in s) (ses_fd_out s) (ses_fd_err s) (ses_ppid s) (ses_username s) b
    (ses_session_since s) (ses_board_since s) (ses_child s) (ses_proxies s) (ses_proxy_cnt s).
Definition set_child (c : option (Z * child_cb)) (s : Session) : Session :=
  mk_session (ses_id s) (ses_client_fd s) (ses_client_active s) (ses_username_cred s) (ses_status s) (ses_board s)
    (ses_fd_in s) (ses_fd_out s) (ses_fd_err s) (ses_ppid s) (ses_username s) (ses_buffer s)
    (ses_session_since s) (ses_board_since s) c (ses_proxies s) (ses_proxy_cnt s).
Definition set_proxies (l : list (ptr * Proxy)) (cnt : Z) (s : Session) : Session :=
  mk_session (ses_id s) (ses_client_fd s) (ses_client_active s) (ses_username_cred s) (ses_status s) (ses_board s)
    (ses_fd_in s) (ses_fd_out s) (ses_fd_err s) (ses_ppid s) (ses_username s) (ses_buffer s)
    (ses_session_since s) (ses_board_since s) (ses_child s) l cnt.

(** ** The proxy factories and listeners *)
Inductive ProxyFactory :=
| TcpProxyFactory (sock_name : bytes) (port : Z)
| WrProxyFactory (sock_name : bytes).

Definition sock_name (f : ProxyFactory) : bytes :=
  match f with TcpProxyFactory n _ | WrProxyFactory n => n end.

(** ** The daemon, with the trace of its effects and the number of [fork] and
    [now] calls so far *)
Record world := mk_world {
  w_boards : list Board;
  w_heap : gmap ptr Session;
  w_sessions : list ptr;
  w_wait_queue : list ptr;
  w_systemd : bool;                             (* client_listener.is_from_systemd *)
  w_listeners : list ProxyFactory;
  w_counter : Z;                                (* Session::counter *)
  w_forks : nat;
  w_clocks : nat;
  w_trace : list effect;
}.

Definition set_boards (b : list Board) (w : world) : world :=
  mk_world b (w_heap w) (w_sessions w) (w_wait_queue w) (w_systemd w) (w_listeners w)
    (w_counter w) (w_forks w) (w_clocks w) (w_trace w).
Definition set_heap (h : gmap ptr Session) (w : world) : world :=
  mk_world (w_boards w) h (w_sessions w) (w_wait_queue w) (w_systemd w) (w_listeners w)
    (w_counter w) (w_forks w) (w_clocks w) (w_trace w).
Definition set_sessions (l : list ptr) (w : world) : world :=
  mk_world (w_boards w) (w_heap w) l (w_wait_queue w) (w_systemd w) (w_listeners w)
    (w_counter w) (w_forks w) (w_clocks w) (w_trace w).
Definition set_queue (q : list ptr) (w : world) : world :=
  mk_world (w_boards w) (w_heap w) (w_sessions w) q (w_systemd w) (w_listeners w)
    (w_counter w) (w_forks w) (w_clocks w) (w_trace w).
Definition set_counter (c : Z) (w : world) : world :=
  mk_world (w_boards w) (w_heap w) (w_sessions w) (w_wait_queue w) (w_systemd w) (w_listeners w)
    c (w_forks w) (w_clocks w) (w_trace w).
Definition tick (forks clocks : nat) (w : world) : world :=
  mk_world (w_boards w) (w_heap w) (w_sessions w) (w_wait_queue w) (w_systemd w) (w_listeners w)
    (w_counter w) (forks + w_forks w) (clocks + w_clocks w) (w_trace w).
Definition log_effects (e : list effect) (w : world) : world :=
  mk_world (w_boards w) (w_heap w) (w_sessions w) (w_wait_queue w) (w_systemd w) (w_listeners w)
    (w_counter w) (w_forks w) (w_clocks w) (w_trace w ++ e).

(** ** The monad *)
Inductive result (A : Type) :=
| Ok (a : A) (w : world)
| Throw (e : exn) (w : world)
| Undef (u : ub).
Arguments Ok {A} _ _.
Arguments Throw {A} _ _.
Arguments Undef {A} _.

Definition M (A : Type) : Type := world → result A.

#[global] Instance M_ret : MRet M := λ A a w, Ok a w.
#[global] Instance M_bind : MBind M := λ A B k m w,
  match m w with
  | Ok a w' => k a w'
  | Throw e w' => Throw e w'
  | Undef u => Undef u
  end.

Definition get : M world := λ w, Ok w w.
Definition modify (f : world → world) : M unit := λ w, Ok () (f w).
Definition throw {A} (e : exn) : M A := λ w, Throw e w.
Definition undef {A} (u : ub) : M A := λ _, Undef u.
Definition emit (e : list effect) : M unit := modify (log_effects e).

(** Member access through a [Session*]. *)
Definition deref (p : ptr) : M Session := λ w,
  match w_heap w !! p with
  | Some s => Ok s w
  | None => Undef (UseAfterFree p)
  end.

Definition update (p : ptr) (f : Session → Session) : M unit :=
  s ← deref p; modify (λ w, set_heap (<[p := f s]> (w_heap w)) w).

(** Member access through a [Board*]. *)
Definition deref_board (b : option nat) : M (nat * Board) := λ w,
  match b with
  | Some i =>
    match w_boards w !! i with
    | Some brd => Ok (i, brd) w
    | None => Undef NullBoard
    end
  | None => Undef NullBoard
  end.

Definition update_board (i : nat) (f : Board → Board) : M unit :=
  modify (λ w, set_boards (alter f i (w_boards w)) w).

Definition do_fork `{Env} : M Z := λ w, Ok (fork_result (w_forks w)) (tick 1 0 w).
Definition do_now `{Env} : M Z := λ w, Ok (clock_now (w_clocks w)) (tick 0 1 w).

(** ** Weakest preconditions

    [wp U m Q E w]: run from [w], [m] ends in [Q], throws in [E], or, when [U]
    allows it, is undefined. *)
Definition wp {A} (U : Prop) (m : M A) (Q : A → world → Prop) (E : exn → world → Prop)
    (w : world) : Prop :=
  match m w with
  | Ok a w' => Q a w'
  | Throw e w' => E e w'
  | Undef _ => U
  end.

Section wp.
Context {A B : Type} (U : Prop) (E : exn → world → Prop).

Lemma wp_ret (a : A) (Q : A → world → Prop) w : Q a w → wp U (mret a) Q E w.
Proof. done. Qed.

Lemma wp_bind (m : M A) (k : A → M B) Q w :
  wp U m (λ a, wp U (k a) Q E) E w → wp U (m ≫= k) Q E w.
Proof. unfold wp, mbind, M_bind. by destruct (m w). Qed.

Lemma wp_mono (m : M A) (Q Q' : A → world → Prop) w :
  wp U m Q E w → (∀ a w', Q a w' → Q' a w') → wp U m Q' E w.
Proof. unfold wp. intros Hm HQ. destruct (m w); auto. Qed.

Lemma wp_get Q w : Q w w → wp U get Q E w.
Proof. done. Qed.

Lemma wp_modify f Q w : Q () (f w) → wp U (modify f) Q E w.
Proof. done. Qed.

Lemma wp_emit e Q w : Q () (log_effects e w) → wp U (emit e) Q E w.
Proof. done. Qed.

Lemma wp_throw e (Q : A → world → Prop) w : E e w → wp U (throw e) Q E w.
Proof. done. Qed.

Lemma wp_deref p s Q w : w_heap w !! p = Some s → Q s w → wp U (deref p) Q E w.
Proof. intros Hp HQ. unfold wp, deref. by rewrite Hp. Qed.

Lemma wp_update p f s Q w :
  w_heap w !! p = Some s → Q () (set_heap (<[p := f s]> (w_heap w)) w) →
  wp U (update p f) Q E w.
Proof. intros Hp HQ. unfold wp, update, mbind, M_bind, deref. by rewrite Hp. Qed.

Lemma wp_deref_board i b Q w :
  w_boards w !! i = Some b → Q (i, b) w → wp U (deref_board (Some i)) Q E w.
Proof. intros Hi HQ. unfold wp, deref_board. by rewrite Hi. Qed.

Lemma wp_update_board i f Q w :
  Q () (set_boards (alter f i (w_boards w)) w) → wp U (update_board i f) Q E w.
Proof. done. Qed.

Lemma wp_fork `{Env} Q w : Q (fork_result (w_forks w)) (tick 1 0 w) → wp U do_fork Q E w.
Proof. done. Qed.

Lemma wp_now `{Env} Q w : Q (clock_now (w_clocks w)) (tick 0 1 w) → wp U do_now Q E w.
Proof. done. Qed.
End wp.

(** One step of symbolic execution. *)
Ltac wp_step :=
  lazymatch goal with
  | |- wp _ (mret _) _ _ _ => apply wp_ret
  | |- wp _ (_ ≫= _) _ _ _ => apply wp_bind
  | |- wp _ get _ _ _ => apply wp_get
  | |- wp _ (modify _) _ _ _ => apply wp_modify
  | |- wp _ (emit _) _ _ _ => apply wp_emit
  | |- wp _ (throw _) _ _ _ => apply wp_throw
  | |- wp _ (deref _) _ _ _ => eapply wp_deref; [by simplify_map_eq|]
  | |- wp _ (update _ _) _ _ _ => eapply wp_update; [by simplify_map_eq|]
  | |- wp _ (update_board _ _) _ _ _ => apply wp_update_board
  | |- wp _ do_fork _ _ _ => apply wp_fork
  | |- wp _ do_now _ _ _ => apply wp_now
  end; cbn beta.
