(* ===== verification/Session.v ===== *)
(** * Session: what a session does on its own ([src/src/session.cpp])

    The methods of [Session] that do not call back into the daemon. The logger
    is a member of the session: a log statement is a member access and shows as
    [deref]. *)
From S2P Require Import Prelude Bytes Env Board SocketProxy WrProxy TcpProxy World.

Local Open Scope Z_scope.

(** [Session::get_username] *)
Definition get_username (s : Session) : bytes :=
  if decide (ses_username s = []) then ses_username_cred s else ses_username s.

(** [Session::get_username_cred] from the outcome of [getpwuid_r]: an error
    number, no entry, or the name. *)
Inductive pwd_res := PwdErr (err : Z) | PwdNone | PwdName (name : bytes).

Definition get_username_cred (r : pwd_res) : bytes :=
  match r with PwdName name => c_str name | PwdErr _ | PwdNone => [] end.

(** The constructor: members that have no initialiser ([ppid], [buffer],
    [board_since]) hold whatever the memory held. *)
Definition Session_new (id fd : Z) (cred : bytes) (now : Z) (ppid0 : Z) (buffer0 : bytes) (since0 : Z) :
    Session :=
  mk_session id fd true cred created None (-1) (-1) (-1) ppid0 [] buffer0 now since0 None [] 0.

Definition proxy_destroy (p : Proxy) : list effect :=
  match p with PTcp p => TcpProxy_destroy p | PWr p => WrProxy_destroy p end.

(** The effects of destroying a session: the body of [~Session] closes the
    client's descriptors, then the members go: the proxies, the child watcher,
    the client's socket. *)
Definition Session_destroy_effects (s : Session) : list effect :=
  [EClose (ses_fd_in s); EClose (ses_fd_out s); EClose (ses_fd_err s)]
  ++ concat ((λ p, proxy_destroy p.2) <$> ses_proxies s)
  ++ [EClose (ses_client_fd s)].

Section session.
Context `{Env}.

(** [Session::get_status_line]; [brd] is the board pointed to. *)
Definition get_status_line (s : Session) (brd : option Board) : bytes :=
  fmt_pad 10 (get_username s) ++ bs " "
  ++ fmt_pad 10 (from_option b_id [] brd) ++ bs " "
  ++ fmt_pad 15 (from_option b_ip_address (bs "waiting") brd) ++ bs " "
  ++ fmt_time (if brd then ses_board_since s else ses_session_since s).

(** [Session::~Session]: releases the board. *)
Definition Session_destroy (s : Session) : M unit :=
  (match ses_board s with
   | Some i => _ ← deref_board (Some i); update_board i release
   | None => mret ()
   end);;
  emit (Session_destroy_effects s).

(** The words of a command for [execvp]; [split_unix] may throw. *)
Definition split_command (command : bytes) : M (list bytes) :=
  match split_unix command with
  | Some args => mret args
  | None => throw (EscapedListError command)
  end.

Lemma wp_split_command U command (Q : list bytes → world → Prop) (E : exn → world → Prop) w :
  (∀ args, split_unix command = Some args → Q args w) →
  (split_unix command = None → E (EscapedListError command) w) → wp U (split_command command) Q E w.
Proof using Type.
  intros HQ HE. unfold split_command.
  destruct (split_unix command); [by apply wp_ret, HQ|by apply wp_throw, HE].
Qed.

(** [Session::start_process]: the parent's side. The child replaces its
    standard streams and executes the command, see [child_setup]. *)
Definition start_process (this : ptr) : M unit :=
  s ← deref this;
  '(_, brd) ← deref_board (ses_board s);
  args ← split_command (b_command brd);
  pid ← do_fork;
  if decide (pid = -1) then throw (SystemError (bs "fork"))
  else
    emit [ESpawn pid (ses_fd_in s) (ses_fd_out s) (ses_fd_err s) args;
          EClose (ses_fd_in s); EClose (ses_fd_out s); EClose (ses_fd_err s)];;
    update this (set_child (Some (pid, OnProcessExit)) ∘ set_fds (-1) (-1) (-1)).

(** [Session::assign_board] *)
Definition assign_board (this : ptr) (i : nat) : M unit :=
  now ← do_now;
  update this (set_board (Some i) now ∘ set_status has_board);;
  '(_, brd) ← deref_board (Some i);
  update_board i (acquire this);;
  s ← deref this;
  emit [EDprintf (ses_fd_err s) (bs "Connecting to board " ++ c_str (b_id brd) ++ [x0a])];;
  start_process this.

(** [Session::start_close_command] *)
Definition start_close_command (this : ptr) : M unit :=
  s ← deref this;
  '(_, brd) ← deref_board (ses_board s);
  args ← split_command (b_close_command brd);
  pid ← do_fork;
  if decide (pid = -1) then throw (SystemError (bs "fork"))
  else
    emit [ESpawnClose pid args];;
    update this (set_child (Some (pid, OnCloseCommandExit))).

(** What the environment decides when a proxy is created: the address of the
    new object and the results of its system calls. *)
Record create_env := mk_create {
  ce_ptr : ptr;
  ce_sock : Z;
  ce_conn : connect_res;
  ce_so : so_error;
  ce_port_text : bytes;
}.

Definition pout_map {A B} (f : A → B) (o : pout A) : pout B :=
  match o with Keep p => Keep (f p) | Closed => Closed | Thrown e => Thrown e end.

(** [ProxyFactory::create]: [ip] is the session's board address. *)
Definition factory_create (f : ProxyFactory) (base : SocketProxy) (ip : bytes) (ce : create_env) :
    presult Proxy :=
  match f with
  | TcpProxyFactory _ port =>
    prod_map id (pout_map PTcp)
      (TcpProxy_new base ip port (ce_port_text ce) (ce_sock ce) (ce_conn ce) (ce_so ce))
  | WrProxyFactory _ => prod_map id (pout_map PWr) (WrProxy_new base (ce_sock ce))
  end.

(** [Session::new_socket_connection] with an accepted socket [fd]. *)
Definition new_socket_connection (this : ptr) (fd : Z) (f : ProxyFactory) (ce : create_env) : M unit :=
  s ← deref this;
  if decide (ses_status s ≠ has_board) then emit [EClose fd]
  else
    '(_, brd) ← deref_board (ses_board s);
    let '(eff, o) := factory_create f (mk_base (ses_proxy_cnt s) fd) (b_ip_address brd) ce in
    emit eff;;
    update this (set_proxies (ses_proxies s) (u64 (ses_proxy_cnt s + 1)));;
    match o with
    | Keep p => update this (λ s, set_proxies (ses_proxies s ++ [(ce_ptr ce, p)]) (ses_proxy_cnt s) s)
    | Closed => mret ()
    | Thrown e => throw e
    end.

(** An event of a proxy's watchers. *)
Inductive proxy_event :=
| PClientData (r : read_res) (io : io_res)
| PTargetData (r : read_res) (io : io_res)
| PTargetConnected (so : so_error).

(** The handler the event calls; [None]: that watcher is not active. *)
Definition proxy_handler (ip : option bytes) (p : Proxy) (ev : proxy_event) : option (presult Proxy) :=
  match p, ev with
  | PWr p, PClientData r io => Some (prod_map id (pout_map PWr) (wr_on_client_data ip p r io))
  | PWr p, PTargetData r io => Some (prod_map id (pout_map PWr) (wr_on_target_data p r io))
  | PTcp p, PClientData r io =>
    if decide (tcp_watch_state p = Forwarding)
    then Some (prod_map id (pout_map PTcp) (on_data C2T p r io)) else None
  | PTcp p, PTargetData r io =>
    if decide (tcp_watch_state p = Forwarding)
    then Some (prod_map id (pout_map PTcp) (on_data T2C p r io)) else None
  | PTcp p, PTargetConnected so =>
    if decide (tcp_watch_state p = Connecting)
    then Some (prod_map id (pout_map PTcp) (on_target_connected p so)) else None
  | PWr _, PTargetConnected _ => None
  end.

(** [SocketProxy::close] on the session's list. *)
Definition remove_proxy (q : ptr) (l : list (ptr * Proxy)) : list (ptr * Proxy) :=
  filter (λ x, x.1 ≠ q) l.

Definition replace_proxy (q : ptr) (p : Proxy) (l : list (ptr * Proxy)) : list (ptr * Proxy) :=
  (λ x, if decide (x.1 = q) then (q, p) else x) <$> l.

(** Deliver an event to a proxy of a session. *)
Definition on_proxy_event (this : ptr) (q : ptr) (p : Proxy) (ev : proxy_event) : M unit :=
  s ← deref this;
  w ← get;
  let ip := i ← ses_board s; b_ip_address <$> (w_boards w !! i) in
  match proxy_handler ip p ev with
  | None => mret ()
  | Some (eff, o) =>
    emit eff;;
    match o with
    | Keep p' => update this (λ s, set_proxies (replace_proxy q p' (ses_proxies s)) (ses_proxy_cnt s) s)
    | Closed =>
      emit (proxy_destroy p);;
      update this (λ s, set_proxies (remove_proxy q (ses_proxies s)) (ses_proxy_cnt s) s)
    | Thrown e => throw e
    end
  end.
End session.

(** ** The child's side of [start_process]: descriptors as a finite map to the
    open files they denote *)
Definition dup2 (from to : Z) (t : gmap Z N) : gmap Z N :=
  match t !! from with
  | Some f => <[to := f]> t
  | None => t
  end.

Definition child_setup (fd_in fd_out fd_err : Z) (t : gmap Z N) : gmap Z N :=
  delete fd_err (delete fd_out (delete fd_in
    (dup2 fd_err 2 (dup2 fd_out 1 (dup2 fd_in 0 t))))).


