(* ===== verification/Daemon.v ===== *)
(** * Daemon: the board allocator and the event handlers
      ([src/src/daemon.cpp], the handlers of [src/src/session.cpp])

    The methods of [Daemon], and the methods of [Session] that call them, in
    the order of their calls. *)
From S2P Require Import Prelude Bytes Protocol Env Board World Session.

Local Open Scope Z_scope.

(** The events of a session's client socket: [recvmsg] failed, or delivered
    [data] with control data of length [ctl] and these control messages. An
    empty [data] is the end of the connection. *)
Record cmsg := mk_cmsg {
  cmsg_level : Z;
  cmsg_type : Z;
  cmsg_ints : Z * Z * Z;      (* the first three ints at CMSG_DATA *)
}.

Inductive recv_res := RecvErr | RecvMsg (data : bytes) (ctl : Z) (cmsgs : list cmsg).

Definition SOL_SOCKET : Z := 1.
Definition SCM_RIGHTS : Z := 1.
Definition sizeof_cmsghdr : Z := 16.
Definition sizeof_myfds : Z := 12.

(** The control messages [CMSG_FIRSTHDR]/[CMSG_NXTHDR] walk over. *)
Definition cmsg_list (ctl : Z) (l : list cmsg) : list cmsg :=
  if decide (ctl < sizeof_cmsghdr) then [] else l.

Definition is_rights (c : cmsg) : Prop := cmsg_level c = SOL_SOCKET ∧ cmsg_type c = SCM_RIGHTS.
#[global] Instance is_rights_dec c : Decision (is_rights c).
Proof. unfold is_rights. apply _. Defined.

Definition find_rights (ctl : Z) (l : list cmsg) : option (Z * Z * Z) :=
  cmsg_ints ∘ snd <$> list_find is_rights (cmsg_list ctl l).

Section daemon.
Context `{Env}.

(** ** Daemon *)

(** [Daemon::find_available_board] *)
Definition daemon_find_available_board (username : bytes) : M (option nat) :=
  w ← get; mret (find_available_board username (w_boards w)).

(** [Daemon::assign_board] *)
Definition daemon_assign_board (session : ptr) : M unit :=
  s ← deref session;
  brd ← daemon_find_available_board (get_username s);
  match brd with
  | Some i => assign_board session i
  | None => modify (λ w, set_queue (w_wait_queue w ++ [session]) w)
  end.

(** [std::list<Session*>::remove] *)
Definition queue_remove (p : ptr) : M unit :=
  modify (λ w, set_queue (filter (λ q, q ≠ p) (w_wait_queue w)) w).

(** [sessions.remove_if(&s == session)]: destroys the session, if there. *)
Definition sessions_remove (p : ptr) : M unit :=
  w ← get;
  match w_heap w !! p with
  | None => mret ()
  | Some s =>
    Session_destroy s;;
    modify (λ w, set_heap (delete p (w_heap w)) (set_sessions (filter (λ q, q ≠ p) (w_sessions w)) w))
  end.

(** The loop over the waiting sessions: the first one for which there is a
    board gets it. *)
Fixpoint grant_first (queue : list ptr) : M unit :=
  match queue with
  | [] => mret ()
  | waiting :: queue =>
    s ← deref waiting;
    brd ← daemon_find_available_board (get_username s);
    match brd with
    | Some i => queue_remove waiting;; assign_board waiting i
    | None => grant_first queue
    end
  end.

(** [Daemon::close_session] *)
Definition daemon_close_session (session : ptr) : M unit :=
  queue_remove session;;
  sessions_remove session;;
  w ← get;
  grant_first (w_wait_queue w);;
  w ← get;
  if decide (w_systemd w = true ∧ w_sessions w = []) then emit [EBreakLoop] else mret ().

(** [Daemon::print_status] *)
Fixpoint print_sessions (fd : Z) (l : list ptr) : M unit :=
  match l with
  | [] => mret ()
  | p :: l =>
    s ← deref p;
    w ← get;
    (if decide (ses_status s ≠ created) then
       let line := get_status_line s (i ← ses_board s; w_boards w !! i) in
       emit [EDprintf fd (c_str line ++ [x0a])]
     else mret ());;
    print_sessions fd l
  end.

Definition print_status (fd : Z) : M unit := w ← get; print_sessions fd (w_sessions w).

(** [Daemon::find_session_by_ppid] *)
Fixpoint find_ppid (ppid : Z) (l : list ptr) : M (option ptr) :=
  match l with
  | [] => mret None
  | p :: l =>
    s ← deref p;
    if decide (ses_ppid s = ppid) then mret (Some p) else find_ppid ppid l
  end.

Definition find_session_by_ppid (ppid : Z) : M (option ptr) :=
  w ← get; find_ppid ppid (w_sessions w).

(** What the environment decides when a client connects: the result of
    [accept4], the user database's answer ([None]: [getsockopt] failed), the
    address of the new list node and what its uninitialised members hold. *)
Record accept_env := mk_accept {
  ae_fd : Z;
  ae_pwd : option pwd_res;
  ae_ptr : ptr;
  ae_ppid0 : Z;
  ae_buffer0 : bytes;
  ae_since0 : Z;
}.

(** [Daemon::on_client_connecting] *)
Definition on_client_connecting (ae : accept_env) : M unit :=
  if decide (ae_fd ae = -1) then throw (SystemError (bs "accept"))
  else
    w ← get;
    let id := w_counter w in
    modify (set_counter (u64 (id + 1)));;
    match ae_pwd ae with
    | None => emit [EClose (ae_fd ae)];; throw (SystemError (bs "getsockopt(SO_PEERCRED)"))
    | Some pwd =>
      now ← do_now;
      let s := Session_new id (ae_fd ae) (get_username_cred pwd) now
                 (ae_ppid0 ae) (ae_buffer0 ae) (ae_since0 ae) in
      modify (λ w, set_heap (<[ae_ptr ae := s]> (w_heap w))
                     (set_sessions (w_sessions w ++ [ae_ptr ae]) w))
    end.

(** [Daemon::on_socket_connecting]: [l] is the position of the listener whose
    watcher fired, [cred] the peer's pid ([None]: [getsockopt] failed). *)
Definition on_socket_connecting (l : nat) (fd : Z) (cred : option Z) (ce : create_env) : M unit :=
  w ← get;
  match w_listeners w !! l with
  | None => throw (RuntimeError (bs "Proxy factory not found"))
  | Some factory =>
    if decide (fd = -1) then throw (SystemError (bs "accept"))
    else
      match cred with
      | None => emit [EClose fd];; throw (SystemError (bs "getsockopt(SO_PEERCRED)"))
      | Some pid =>
        s ← find_session_by_ppid pid;
        match s with
        | Some s => new_socket_connection s fd factory ce
        | None => emit [EClose fd]
        end
      end
  end.

(** [Daemon::on_signal] *)
Definition on_signal : M unit := emit [EBreakLoop].

(** ** Session *)

(** [Session::close_session] *)
Definition close_session (this : ptr) : M unit :=
  s ← deref this;
  if decide (ses_status s = has_board ∧ is_Some (ses_child s)) then
    emit [EKill (from_option fst 0 (ses_child s))]
  else if decide (ses_status s = has_board) then
    '(_, brd) ← deref_board (ses_board s);
    if decide (b_close_command brd ≠ []) then
      update this (set_status closing_board);;
      start_close_command this
    else daemon_close_session this
  else daemon_close_session this.

(** [Session::on_setup_msg]: the message is read from the session's buffer. *)
Definition on_setup_msg (this : ptr) (ctl : Z) (cmsgs : list cmsg) : M unit :=
  (if decide (ctl < sizeof_myfds) then _ ← deref this; close_session this else mret ());;
  match find_rights ctl cmsgs with
  | None => _ ← deref this; close_session this
  | Some (i, o, e) =>
    s ← deref this;
    let buf := ses_buffer s in
    match s_username buf with
    | None => undef BufferOverread
    | Some username =>
      update this (set_peer (s_ppid buf) username ∘ set_fds i o e);;
      match command_of_code (s_cmd buf) with
      | Some connect =>
        update this (set_status awaiting_board);;
        daemon_assign_board this;;
        s ← deref this;
        if decide (ses_status s = awaiting_board) then
          print_status (ses_fd_err s);;
          emit [EDprintf (ses_fd_err s)
                  (bs "No board currently available."
                   ++ (if s_no_wait buf then [] else bs " Waiting...") ++ [x0a])];;
          if s_no_wait buf then close_session this else mret ()
        else mret ()
      | Some list_sessions => print_status o;; close_session this
      | None => mret ()
      end
    end
  end.

(** [recvmsg] into the session's buffer: the rest keeps its contents. *)
Definition recv_into (buf data : bytes) : bytes := data ++ drop (length data) buf.

(** [Session::on_data_from_client] *)
Definition on_data_from_client (this : ptr) (r : recv_res) : M unit :=
  _ ← deref this;
  match r with
  | RecvErr => update this (set_client_active false);; close_session this
  | RecvMsg data ctl cmsgs =>
    match take session_buffer_size data with
    | [] => update this (set_client_active false);; close_session this
    | data =>
      update this (λ s, set_buffer (recv_into (ses_buffer s) data) s);;
      if decide (length data < sizeof_header)%nat then mret ()
      else
        s ← deref this;
        if decide (h_id (ses_buffer s) = msg_type_code setup)
        then on_setup_msg this ctl cmsgs
        else mret ()
    end
  end.

(** [Session::on_process_exit] and [Session::on_close_command_exit]: the
    watcher stops itself, then the closing goes on. *)
Definition on_process_exit (this : ptr) : M unit :=
  update this (set_child None);; close_session this.

Definition on_close_command_exit (this : ptr) : M unit :=
  update this (set_child None);; close_session this.

Definition on_child_exit (this : ptr) (cb : child_cb) : M unit :=
  match cb with
  | OnProcessExit => on_process_exit this
  | OnCloseCommandExit => on_close_command_exit this
  end.

(** ** The event loop *)
Inductive event :=
| EvClientConnecting (ae : accept_env)
| EvSocketConnecting (l : nat) (fd : Z) (cred : option Z) (ce : create_env)
| EvClientData (this : ptr) (r : recv_res)
| EvChildExit (this : ptr) (pid : Z)
| EvProxy (this q : ptr) (ev : proxy_event)
| EvSignal.

(** libev delivers an event only to an active watcher of a living object, and
    the allocator returns addresses that are not in use. *)
Definition enabled (w : world) (ev : event) : Prop :=
  match ev with
  | EvClientConnecting ae => w_heap w !! ae_ptr ae = None
  | EvSocketConnecting l _ _ ce =>
    (l < length (w_listeners w))%nat ∧
    map_Forall (λ _ s, ce_ptr ce ∉ (ses_proxies s).*1) (w_heap w)
  | EvClientData this _ => ∃ s, w_heap w !! this = Some s ∧ ses_client_active s = true
  | EvChildExit this pid => ∃ s cb, w_heap w !! this = Some s ∧ ses_child s = Some (pid, cb)
  | EvProxy this q _ => ∃ s p, w_heap w !! this = Some s ∧ (q, p) ∈ ses_proxies s
  | EvSignal => True
  end.

(** The handler of an event. *)
Definition handle (ev : event) : M unit :=
  match ev with
  | EvClientConnecting ae => on_client_connecting ae
  | EvSocketConnecting l fd cred ce => on_socket_connecting l fd cred ce
  | EvClientData this r => on_data_from_client this r
  | EvChildExit this pid =>
    s ← deref this;
    match ses_child s with
    | Some (_, cb) => on_child_exit this cb
    | None => mret ()
    end
  | EvProxy this q ev =>
    s ← deref this;
    match list_find (λ x, x.1 = q) (ses_proxies s) with
    | Some (_, (_, p)) => on_proxy_event this q p ev
    | None => mret ()
    end
  | EvSignal => on_signal
  end.

(** A step of the loop: an enabled event whose handler returns. *)
Inductive step (w : world) (ev : event) (w' : world) : Prop :=
| step_intro : enabled w ev → handle ev w = Ok () w' → step w ev w'.

(** The daemon after its constructor: nobody is connected, no board owned. *)
Definition initial (w : world) : Prop :=
  w_heap w = ∅ ∧ w_sessions w = [] ∧ w_wait_queue w = [] ∧ w_counter w = 0 ∧
  Forall (λ b, b_owner b = None) (w_boards w).

(** Reachable by events that satisfy [ok] (a constraint on the clients). *)
Inductive reachable (ok : world → event → Prop) : world → Prop :=
| reachable_init w : initial w → reachable ok w
| reachable_step w ev w' :
    reachable ok w → ok w ev → step w ev w' → reachable ok w'.
End daemon.
