(* ===== verification/Static.v ===== *)
(** * Static: what the daemon never changes

    The handlers own, release and list the boards, but the configuration in them
    stays: the names, addresses, commands and reservations of the boards, the
    proxy listeners, and how the daemon was started. The proof follows the
    structure of the handlers: every operation of the monad keeps the static part
    of the world, on every way out. *)
From S2P Require Import Prelude Bytes Protocol Env SocketProxy WrProxy TcpProxy Board World Session Daemon.

Local Open Scope Z_scope.

(** A board without its owner. *)
Definition board_config (b : Board) : bytes * bytes * bytes * bytes * bytes :=
  (b_id b, b_command b, b_ip_address b, b_close_command b, b_reserved_for b).

Definition static_part (w : world) : list (bytes * bytes * bytes * bytes * bytes) * list ProxyFactory * bool :=
  (board_config <$> w_boards w, w_listeners w, w_systemd w).

(** [m] keeps the static part, whether it returns or throws. *)
Definition keeps {A} (m : M A) : Prop :=
  ∀ w, match m w with
       | Ok _ w' | Throw _ w' => static_part w' = static_part w
       | Undef _ => True
       end.

Create HintDb keeps discriminated.

Section keeps.
Context {A B : Type}.

Lemma keeps_ret (a : A) : keeps (mret a).
Proof. done. Qed.

Lemma keeps_bind (m : M A) (k : A → M B) : keeps m → (∀ a, keeps (k a)) → keeps (m ≫= k).
Proof.
  intros Hm Hk w. unfold mbind, M_bind. specialize (Hm w). destruct (m w) as [a w1|e w1|u]; [|done..].
  specialize (Hk a w1). rewrite <- Hm. done.
Qed.

Lemma keeps_throw e : keeps (throw (A:=A) e).
Proof. done. Qed.

Lemma keeps_undef u : keeps (undef (A:=A) u).
Proof. done. Qed.
End keeps.

Lemma keeps_get : keeps get.
Proof. done. Qed.

Lemma keeps_modify f : (∀ w, static_part (f w) = static_part w) → keeps (modify f).
Proof. intros Hf w. apply Hf. Qed.

Lemma keeps_emit e : keeps (emit e).
Proof. done. Qed.

Lemma keeps_deref p : keeps (deref p).
Proof. intros w. unfold deref. by destruct (w_heap w !! p). Qed.

Lemma keeps_update p f : keeps (update p f).
Proof. apply keeps_bind; [apply keeps_deref|done]. Qed.

Lemma keeps_deref_board b : keeps (deref_board b).
Proof. intros w. unfold deref_board. destruct b as [i|]; [|done]. by destruct (w_boards w !! i). Qed.

(** The one write to the boards, with a function that changes the owner only. *)
Lemma keeps_update_board i f : (∀ b, board_config (f b) = board_config b) → keeps (update_board i f).
Proof.
  intros Hf. apply keeps_modify. intros w. unfold static_part. cbn. do 2 f_equal.
  apply list_eq. intros j. rewrite !list_lookup_fmap. destruct (decide (i = j)) as [->|Hij].
  - rewrite list_lookup_alter_eq. destruct (w_boards w !! j); cbn; [by rewrite Hf|done].
  - by rewrite list_lookup_alter_ne.
Qed.

#[export] Hint Resolve keeps_ret keeps_throw keeps_undef keeps_get keeps_emit keeps_deref keeps_update
  keeps_deref_board : keeps.

(** Walk through a handler. *)
Ltac keeps_go :=
  repeat first
    [ progress intros
    | solve [auto with keeps nocore]
    | apply keeps_bind
    | apply keeps_modify; done
    | apply keeps_update_board; done
    | match goal with
      | |- keeps (match ?x with _ => _ end) => destruct x
      | |- keeps (if ?x then _ else _) => destruct x
      end ].

(** ** The handlers *)
Lemma keeps_find_available_board u : keeps (daemon_find_available_board u).
Proof. unfold daemon_find_available_board. keeps_go. Qed.
#[export] Hint Resolve keeps_find_available_board : keeps.

Lemma keeps_queue_remove p : keeps (queue_remove p).
Proof. unfold queue_remove. keeps_go. Qed.
#[export] Hint Resolve keeps_queue_remove : keeps.

Lemma keeps_sessions_remove p : keeps (sessions_remove p).
Proof. unfold sessions_remove, Session_destroy. keeps_go. Qed.
#[export] Hint Resolve keeps_sessions_remove : keeps.

Lemma keeps_find_session_by_ppid ppid : keeps (find_session_by_ppid ppid).
Proof.
  unfold find_session_by_ppid. apply keeps_bind; [auto with keeps|]. intros w.
  induction (w_sessions w); cbn [find_ppid]; keeps_go.
Qed.
#[export] Hint Resolve keeps_find_session_by_ppid : keeps.

Section handlers.
Context `{Env}.

Lemma keeps_fork : keeps do_fork.
Proof using Type. done. Qed.

Lemma keeps_now : keeps do_now.
Proof using Type. done. Qed.

Hint Resolve keeps_fork keeps_now : keeps.

Lemma keeps_start_process p : keeps (start_process p).
Proof using Type. unfold start_process, split_command. keeps_go. Qed.
Hint Resolve keeps_start_process : keeps.

Lemma keeps_assign_board p i : keeps (assign_board p i).
Proof using Type. unfold assign_board. keeps_go. Qed.
Hint Resolve keeps_assign_board : keeps.

Lemma keeps_daemon_assign_board p : keeps (daemon_assign_board p).
Proof using Type. unfold daemon_assign_board. keeps_go. Qed.
Hint Resolve keeps_daemon_assign_board : keeps.

Lemma keeps_grant_first q : keeps (grant_first q).
Proof using Type. induction q; cbn [grant_first]; keeps_go. Qed.
Hint Resolve keeps_grant_first : keeps.

Lemma keeps_daemon_close_session p : keeps (daemon_close_session p).
Proof using Type. unfold daemon_close_session. keeps_go. Qed.
Hint Resolve keeps_daemon_close_session : keeps.

Lemma keeps_close_session p : keeps (close_session p).
Proof using Type. unfold close_session, start_close_command, split_command. keeps_go. Qed.
Hint Resolve keeps_close_session : keeps.

Lemma keeps_print_status fd : keeps (print_status fd).
Proof using Type.
  unfold print_status. apply keeps_bind; [auto with keeps|]. intros w.
  induction (w_sessions w); cbn [print_sessions]; keeps_go.
Qed.
Hint Resolve keeps_print_status : keeps.

Lemma keeps_on_data_from_client p r : keeps (on_data_from_client p r).
Proof using Type. unfold on_data_from_client, on_setup_msg. keeps_go. Qed.
Hint Resolve keeps_on_data_from_client : keeps.

Lemma keeps_on_socket_connecting l fd cred ce : keeps (on_socket_connecting l fd cred ce).
Proof using Type. unfold on_socket_connecting, new_socket_connection. keeps_go. Qed.
Hint Resolve keeps_on_socket_connecting : keeps.

Lemma keeps_handle ev : keeps (handle ev).
Proof using Type.
  unfold handle, on_client_connecting, on_signal, on_child_exit, on_process_exit, on_close_command_exit,
    on_proxy_event. keeps_go.
Qed.

Lemma static_step w ev w' : step w ev w' → static_part w' = static_part w.
Proof using Type. intros [_ Hw]. pose proof (keeps_handle ev w) as Hk. by rewrite Hw in Hk. Qed.

(** ** Runs from a given state *)
Inductive runs (ok : world → event → Prop) (w0 : world) : world → Prop :=
| runs_start : runs ok w0 w0
| runs_step w ev w' : runs ok w0 w → ok w ev → step w ev w' → runs ok w0 w'.

Lemma runs_reachable ok w0 w : initial w0 → runs ok w0 w → reachable ok w.
Proof using Type. intros Hi. induction 1; [by apply reachable_init|by eapply reachable_step]. Qed.

Lemma runs_static ok w0 w : runs ok w0 w → static_part w = static_part w0.
Proof using Type. induction 1 as [|w ev w' _ IH _ Hs]; [done|]. by rewrite (static_step _ _ _ Hs). Qed.

(** A board of a run is the board at the same place at its start. *)
Lemma runs_board ok w0 w i b :
  runs ok w0 w → w_boards w !! i = Some b →
  ∃ b0, w_boards w0 !! i = Some b0 ∧ board_config b = board_config b0.
Proof using Type.
  intros Hr%runs_static Hb. injection Hr as Hr _ _. apply (f_equal (lookup i)) in Hr.
  rewrite !list_lookup_fmap, Hb in Hr. destruct (w_boards w0 !! i) as [b0|]; [|done]. apply (inj Some) in Hr. eauto.
Qed.
End handlers.
