(* ===== verification/Allocation.v ===== *)
(** * Allocation: what the daemon's operations do to boards, sessions and queue

    Specifications of the operations of [Session] and [Daemon] on the part of
    the state the allocation of boards depends on, and the invariant that every
    event preserves, whatever the clients send. *)
From S2P Require Import Prelude Bytes Protocol Env Board SocketProxy WrProxy TcpProxy World Session Daemon.

Local Open Scope Z_scope.

(** ** Worlds that differ only in the trace and the counters *)
Record core_eq (w w' : world) : Prop := mk_core_eq {
  ce_boards : w_boards w' = w_boards w;
  ce_heap : w_heap w' = w_heap w;
  ce_sessions : w_sessions w' = w_sessions w;
  ce_queue : w_wait_queue w' = w_wait_queue w;
  ce_systemd : w_systemd w' = w_systemd w;
  ce_listeners : w_listeners w' = w_listeners w;
}.

#[global] Instance core_eq_equivalence : Equivalence core_eq.
Proof.
  split.
  - intros w. by split.
  - intros w w' []. by split.
  - intros w1 w2 w3 [] []. split; congruence.
Qed.

#[global] Instance set_heap_proper : Proper ((=) ==> core_eq ==> core_eq) set_heap.
Proof. intros h ? <- w w' []. by split. Qed.
#[global] Instance set_boards_proper : Proper ((=) ==> core_eq ==> core_eq) set_boards.
Proof. intros h ? <- w w' []. by split. Qed.
#[global] Instance set_queue_proper : Proper ((=) ==> core_eq ==> core_eq) set_queue.
Proof. intros h ? <- w w' []. by split. Qed.

Lemma core_eq_log e w : core_eq w (log_effects e w).
Proof. by split. Qed.
Lemma core_eq_tick a b w : core_eq w (tick a b w).
Proof. by split. Qed.

(** ** The invariant *)
Record inv (w : world) : Prop := mk_inv {
  (** [sessions] lists every living session once *)
  inv_nodup : NoDup (w_sessions w);
  inv_dom : ∀ p, p ∈ w_sessions w ↔ is_Some (w_heap w !! p);
  (** [wait_queue] has no dangling pointer *)
  inv_queue : ∀ p, p ∈ w_wait_queue w → is_Some (w_heap w !! p);
  (** a session's board has the session as its owner *)
  inv_board : ∀ p s i, w_heap w !! p = Some s → ses_board s = Some i →
    ∃ b, w_boards w !! i = Some b ∧ b_owner b = Some p;
  (** a session that uses its board has one *)
  inv_has : ∀ p s, w_heap w !! p = Some s →
    ses_status s = has_board ∨ ses_status s = closing_board ∨ is_Some (ses_child s) ∨ ses_proxies s ≠ [] →
    is_Some (ses_board s);
}.

#[global] Instance inv_proper : Proper (core_eq ==> iff) inv.
Proof.
  assert (∀ w w', core_eq w w' → inv w → inv w') as Himp.
  { intros w w' [Hb Hh Hs Hq _ _] []. split; rewrite ?Hb, ?Hh, ?Hs, ?Hq; done. }
  intros w w' Hc. split; apply Himp; [done | by symmetry].
Qed.

(** A change to one session that keeps its board. *)
Lemma inv_update w p s s' :
  inv w → w_heap w !! p = Some s → ses_board s' = ses_board s →
  (ses_status s' = has_board ∨ ses_status s' = closing_board ∨ is_Some (ses_child s') ∨ ses_proxies s' ≠ [] →
   is_Some (ses_board s)) →
  inv (set_heap (<[p := s']> (w_heap w)) w).
Proof.
  intros [H1 H2 H3 H4 H5] Hp Hb Hh. split; cbn.
  - done.
  - intros q. rewrite H2, lookup_insert. case_decide; subst; [|done]. rewrite Hp. split; intros _; by eexists.
  - intros q Hq. rewrite lookup_insert. case_decide; eauto.
  - intros q t i. rewrite lookup_insert. case_decide; [|eauto]. intros [= <-]. subst. rewrite Hb. eauto.
  - intros q t. rewrite lookup_insert. case_decide; [|eauto]. intros [= <-]. subst. rewrite Hb. done.
Qed.

Lemma inv_same_board w p s s' :
  inv w → w_heap w !! p = Some s → ses_board s' = ses_board s →
  ses_status s' = ses_status s → ses_child s' = ses_child s → ses_proxies s' = ses_proxies s →
  inv (set_heap (<[p := s']> (w_heap w)) w).
Proof.
  intros Hi Hp Hb Hs Hc Hpx. eapply inv_update; [done..|]. rewrite Hs, Hc, Hpx. by apply (inv_has w Hi p).
Qed.

(** A free board goes to a session. *)
Definition granted (p : ptr) (s' : Session) (i : nat) (w : world) : world :=
  set_heap (<[p := s']> (w_heap w)) (set_boards (alter (acquire p) i (w_boards w)) w).

Lemma inv_granted w p s s' i b :
  inv w → w_heap w !! p = Some s → w_boards w !! i = Some b → b_owner b = None →
  ses_board s' = Some i → inv (granted p s' i w).
Proof.
  intros [H1 H2 H3 H4 H5] Hp Hi Ho Hs'. split; cbn.
  - done.
  - intros q. rewrite H2, lookup_insert. case_decide; subst; [|done]. rewrite Hp. split; intros _; by eexists.
  - intros q Hq. rewrite lookup_insert. case_decide; eauto.
  - intros q t j. rewrite lookup_insert. case_decide.
    + intros [= <-] Hj. subst. rewrite Hs' in Hj. injection Hj as <-.
      exists (acquire q b). by rewrite list_lookup_alter, decide_True, Hi.
    + intros Hq Hj. destruct (H4 q t j) as (b' & Hb' & Ho'); [done..|].
      exists b'. rewrite list_lookup_alter_ne; [done|]. intros <-. simplify_eq.
  - intros q t. rewrite lookup_insert. case_decide; [|eauto]. intros [= <-] _. by rewrite Hs'.
Qed.

(** A session goes away, with its board. *)
Definition removed (p : ptr) (s : Session) (w : world) : world :=
  mk_world (match ses_board s with Some i => alter release i (w_boards w) | None => w_boards w end)
    (delete p (w_heap w)) (filter (λ q, q ≠ p) (w_sessions w)) (filter (λ q, q ≠ p) (w_wait_queue w))
    (w_systemd w) (w_listeners w) (w_counter w) (w_forks w) (w_clocks w) (w_trace w).

Lemma inv_removed w p s : inv w → w_heap w !! p = Some s → inv (removed p s w).
Proof.
  intros [H1 H2 H3 H4 H5] Hp. split; cbn.
  - by apply NoDup_filter.
  - intros q. rewrite list_elem_of_filter, H2, lookup_delete. case_decide; subst.
    + split; [naive_solver|]. by intros [? ?].
    + naive_solver.
  - intros q. rewrite list_elem_of_filter, lookup_delete. intros [Hne Hq].
    rewrite decide_False by done. eauto.
  - intros q t i. rewrite lookup_delete. case_decide; [done|]. intros Hq Hi.
    destruct (H4 q t i) as (b & Hb & Ho); [done..|].
    destruct (ses_board s) as [j|] eqn:Hj; [|eauto].
    assert (j ≠ i) as Hij.
    { intros ->. destruct (H4 p s i) as (b' & Hb' & Ho'); [done..|]. simplify_eq. }
    exists b. by rewrite list_lookup_alter_ne.
  - intros q t. rewrite lookup_delete. case_decide; [done|eauto].
Qed.

(** ** Specifications of the operations *)
Section specs.
Context `{Env}.

(** What [Session::assign_board] leaves in the session. *)
Definition assigned (s : Session) (i : nat) (s' : Session) : Prop :=
  ses_status s' = has_board ∧ ses_board s' = Some i ∧
  (∃ pid, pid ≠ -1 ∧ ses_child s' = Some (pid, OnProcessExit)) ∧
  get_username s' = get_username s ∧ ses_client_active s' = ses_client_active s ∧
  ses_proxies s' = ses_proxies s ∧ ses_ppid s' = ses_ppid s.

(** The exceptions of starting a command: [fork] fails, or the command cannot
    be split into words. *)
Definition spawn_failed (e : exn) : Prop :=
  e = SystemError (bs "fork") ∨ ∃ command, split_unix command = None ∧ e = EscapedListError command.

Lemma wp_assign_board U p s i b w :
  w_heap w !! p = Some s → w_boards w !! i = Some b →
  wp U (assign_board p i)
    (λ _ w', ∃ s', assigned s i s' ∧ core_eq (granted p s' i w) w')
    (λ e _, spawn_failed e) w.
Proof using Type.
  intros Hp Hi. unfold assign_board, start_process, granted.
  do 3 wp_step. wp_step. 
  eapply wp_bind, wp_deref_board; [done|]. cbn beta iota.
  wp_step. wp_step. wp_step. eapply wp_deref; [by simplify_map_eq|].
  wp_step. wp_step. wp_step. eapply wp_deref; [by simplify_map_eq|]. wp_step. cbn [ses_board set_board compose].
  eapply wp_deref_board. { cbn. by rewrite list_lookup_alter, decide_True, Hi. }
  cbn beta iota. wp_step. apply wp_split_command; [intros args _|intros Hn; right; by eexists]. wp_step. wp_step.
  case_decide as Hf; [by left|].
  wp_step. wp_step. wp_step.
  eexists. split; [|split; cbn; [done| rewrite !insert_insert_eq; reflexivity |done..]].
  split_and!; try done. eexists. split; [exact Hf|done].
Qed.

(** The outcome of the search through the wait queue: nobody waiting can use
    a free board, or the first who can gets one. *)
Definition none_for (w : world) (q : list ptr) : Prop :=
  ∀ p s, p ∈ q → w_heap w !! p = Some s → find_available_board (get_username s) (w_boards w) = None.

Definition grant_result (w w' : world) : Prop :=
  (none_for w (w_wait_queue w) ∧ core_eq w w') ∨
  ∃ q1 p q2 s s' i,
    w_wait_queue w = q1 ++ p :: q2 ∧ none_for w q1 ∧ w_heap w !! p = Some s ∧
    find_available_board (get_username s) (w_boards w) = Some i ∧ assigned s i s' ∧
    core_eq (granted p s' i (set_queue (filter (λ q, q ≠ p) (w_wait_queue w)) w)) w'.

#[global] Instance granted_proper : Proper ((=) ==> (=) ==> (=) ==> core_eq ==> core_eq) granted.
Proof using Type. intros p ? <- s ? <- i ? <- w w' [Hb Hh ????]. unfold granted. split; cbn; congruence. Qed.

Lemma grant_result_core w1 w2 w' : core_eq w1 w2 → grant_result w1 w' → grant_result w2 w'.
Proof using Type.
  intros Hc. pose proof Hc as [Hb Hh Hs Hq Hy Hl]. unfold grant_result, none_for.
  intros [[Hn Heq]|(q1 & p & q2 & s & s' & i & Hqq & Hn & Hp & Hf & Ha & Heq)].
  - left. rewrite Hq, Hh, Hb. split; [done|]. by rewrite <- Hc.
  - right. exists q1, p, q2, s, s', i. rewrite Hq, Hh, Hb. split_and!; try done. by rewrite <- Hc.
Qed.

Lemma wp_find U E u (Q : option nat → world → Prop) w :
  Q (find_available_board u (w_boards w)) w → wp U (daemon_find_available_board u) Q E w.
Proof using Type. done. Qed.

Lemma wp_grant_first U q1 q w :
  w_wait_queue w = q1 ++ q → (∀ p, p ∈ q → is_Some (w_heap w !! p)) → none_for w q1 →
  wp U (grant_first q) (λ _ w', grant_result w w') (λ e _, spawn_failed e) w.
Proof using Type.
  revert q1. induction q as [|p q IH]; intros q1 Hq Hl Hn; cbn [grant_first].
  { wp_step. left. rewrite Hq, app_nil_r. split; [done|reflexivity]. }
  destruct (Hl p) as [s Hp]; [by left|].
  do 3 wp_step. apply wp_find. cbn beta. unfold none_for in *.
  destruct (find_available_board (get_username s) (w_boards w)) as [i|] eqn:Ef.
  - destruct (find_available_board_Some _ _ _ Ef) as (b & Hb & _).
    unfold queue_remove. wp_step. wp_step. eapply wp_mono; [by eapply wp_assign_board|].
    intros _ w' (s' & Ha & Hc). right. exists q1, p, q, s, s', i. by split_and!.
  - apply (IH (q1 ++ [p])); [by rewrite Hq, <- app_assoc|set_solver|].
    intros x sx [Hx|Hx%list_elem_of_singleton]%elem_of_app; [by apply Hn|]. subst. congruence.
Qed.

Lemma wp_sessions_remove U E p s w :
  inv w → w_heap w !! p = Some s →
  wp U (sessions_remove p)
    (λ _ w', core_eq (set_queue (w_wait_queue w) (removed p s w)) w') E w.
Proof using Type.
  intros Hi Hp. unfold sessions_remove, Session_destroy, removed. wp_step. wp_step. rewrite Hp.
  destruct (ses_board s) as [i|] eqn:Eb.
  - destruct (inv_board _ Hi p s i) as (b & Hb & _); [done..|].
    do 3 wp_step. eapply wp_deref_board; [done|]. cbn beta. repeat wp_step. by split.
  - repeat wp_step. by split.
Qed.

Lemma wp_daemon_close_session U p s w :
  inv w → w_heap w !! p = Some s →
  wp U (daemon_close_session p) (λ _ w', grant_result (removed p s w) w') (λ e _, spawn_failed e) w.
Proof using Type.
  intros Hi Hp. unfold daemon_close_session, queue_remove. do 3 wp_step.
  set (w1 := set_queue _ w).
  assert (inv w1) as Hi1.
  { destruct Hi as [H1 H2 H3 H4 H5]. split; cbn; try done.
    intros q [_ Hq]%list_elem_of_filter. eauto. }
  eapply wp_mono; [apply (wp_sessions_remove _ _ p s); done|]. intros [] w2 Hc2. cbn beta in *.
  assert (core_eq (removed p s w) w2) as Hc3.
  { rewrite <- Hc2. by split. }
  assert (inv w2) as Hi2 by (rewrite <- Hc3; by apply inv_removed).
  wp_step. wp_step. wp_step. eapply wp_mono; [apply (wp_grant_first _ []); [done|apply Hi2|by intros ?? ?%elem_of_nil]|].
  intros [] w3 Hg. cbn beta in *. wp_step. wp_step.
  apply (grant_result_core w2 (removed p s w)) in Hg; [|by symmetry].
  case_decide; wp_step; [|done].
  destruct Hg as [[Hn Hc]|(q1 & q & q2 & t & t' & i & Hq & Hn & Ht & Hf & Ha & Hc)].
  - left. split; [done|]. by rewrite Hc, <- core_eq_log.
  - right. exists q1, q, q2, t, t', i. split_and!; try done. by rewrite Hc, <- core_eq_log.
Qed.

Lemma wp_print_sessions U E fd l w :
  (∀ p, p ∈ l → is_Some (w_heap w !! p)) →
  wp U (print_sessions fd l) (λ _ w', core_eq w w') E w.
Proof using Type.
  revert w. induction l as [|p l IH]; intros w Hl; cbn [print_sessions].
  { wp_step. reflexivity. }
  destruct (Hl p) as [s Hp]; [by left|]. do 5 wp_step.
  eapply (wp_mono _ _ _ (λ _ w', core_eq w w')).
  { case_decide; wp_step; [apply core_eq_log | reflexivity]. }
  intros [] w1 Hc. cbn beta in *. eapply wp_mono; [apply IH|].
  - intros q Hq. rewrite (ce_heap _ _ Hc). apply Hl. by right.
  - intros [] w2 Hc2. by rewrite Hc.
Qed.

Lemma wp_print_status U E fd w :
  inv w → wp U (print_status fd) (λ _ w', core_eq w w') E w.
Proof using Type.
  intros Hi. unfold print_status. wp_step. wp_step. apply wp_print_sessions.
  intros p. apply (inv_dom _ Hi).
Qed.

Lemma inv_grant_result w w' : inv w → grant_result w w' → inv w'.
Proof using Type.
  intros Hi [[_ Hc]|(q1 & p & q2 & s & s' & i & Hq & _ & Hp & Hf & Ha & Hc)].
  - by rewrite <- Hc.
  - rewrite <- Hc. destruct (find_available_board_Some _ _ _ Hf) as (b & Hb & Ho & _).
    eapply inv_granted; [|done|done|done|apply Ha].
    destruct Hi as [H1 H2 H3 H4 H5]. split; cbn; try done.
    intros q [_ ?]%list_elem_of_filter. eauto.
Qed.
End specs.
