(* ===== verification/Invariant.v ===== *)
(** * Invariant: what holds whatever the clients do

    Every event preserves the invariant of [Allocation.v], for any bytes a client
    sends, any order of events and any result of the system calls. Its
    consequences: a board is never shared, the wait queue never dangles, a
    proxy always has a board behind it. *)
From S2P Require Import Prelude Bytes Protocol Env Board SocketProxy WrProxy TcpProxy World Session.
From S2P Require Import Daemon Allocation.

Local Open Scope Z_scope.

Section invariant.
Context `{Env}.

(** ** Specifications of the session's closing and of the board assignment *)
Definition close_started (s s' : Session) : Prop :=
  ses_status s' = closing_board ∧ ses_board s' = ses_board s ∧
  (∃ pid, pid ≠ -1 ∧ ses_child s' = Some (pid, OnCloseCommandExit)) ∧
  get_username s' = get_username s ∧ ses_proxies s' = ses_proxies s.

(** The three ways [Session::close_session] ends. *)
Definition close_result (p : ptr) (s : Session) (w w' : world) : Prop :=
  (ses_status s = has_board ∧ is_Some (ses_child s) ∧ core_eq w w') ∨
  (ses_status s = has_board ∧ ses_child s = None ∧
   (∃ i b, ses_board s = Some i ∧ w_boards w !! i = Some b ∧ b_close_command b ≠ []) ∧
   ∃ s', close_started s s' ∧ core_eq (set_heap (<[p := s']> (w_heap w)) w) w') ∨
  ((ses_status s = has_board → ses_child s = None ∧
      ∃ i b, ses_board s = Some i ∧ w_boards w !! i = Some b ∧ b_close_command b = []) ∧
   grant_result (removed p s w) w').

Lemma wp_close_session U p s w :
  inv w → w_heap w !! p = Some s →
  wp U (close_session p) (λ _ w', close_result p s w w') (λ e _, spawn_failed e) w.
Proof using Type.
  intros Hi Hp. unfold close_session. wp_step. wp_step.
  case_decide as Hc1.
  { wp_step. left. destruct Hc1. by split_and!. }
  case_decide as Hc2.
  2: { eapply wp_mono; [by apply wp_daemon_close_session|]. intros [] w' Hg. right. right. done. }
  assert (ses_child s = None) as Hch by (destruct (ses_child s); [|done]; exfalso; apply Hc1; eauto).
  destruct (inv_has _ Hi p s Hp) as [i Hb]; [auto|].
  destruct (inv_board _ Hi p s i Hp Hb) as (b & Hbi & _).
  rewrite Hb. apply wp_bind. eapply wp_deref_board; [done|]. cbn beta iota.
  case_decide as Hcc.
  2: { eapply wp_mono; [by apply wp_daemon_close_session|]. intros [] w' Hg. right. right.
       split; [|done]. intros _. split; [done|]. exists i, b. by split_and!. }
  unfold start_close_command. do 4 wp_step. cbn [ses_board set_status]. rewrite Hb. wp_step.
  eapply wp_deref_board; [done|]. cbn beta iota. wp_step. apply wp_split_command; [intros args _|intros Hn; right; by eexists]. wp_step. wp_step.
  case_decide as Hf; [by left|].
  wp_step. wp_step. wp_step. right. left. split_and!; try done.
  - by exists i, b.
  - eexists. split; [|split; cbn; try done; rewrite insert_insert_eq; reflexivity].
    split_and!; try done. eexists. split; [exact Hf|done].
Qed.

Definition assign_result (p : ptr) (s : Session) (w w' : world) : Prop :=
  match find_available_board (get_username s) (w_boards w) with
  | Some i => ∃ s', assigned s i s' ∧ core_eq (granted p s' i w) w'
  | None => core_eq (set_queue (w_wait_queue w ++ [p]) w) w'
  end.

Lemma wp_daemon_assign_board U p s w :
  w_heap w !! p = Some s →
  wp U (daemon_assign_board p) (λ _ w', assign_result p s w w') (λ e _, spawn_failed e) w.
Proof using Type.
  intros Hp. unfold daemon_assign_board, assign_result. do 3 wp_step. apply wp_find. cbn beta.
  destruct (find_available_board _ _) as [i|] eqn:Ef.
  - destruct (find_available_board_Some _ _ _ Ef) as (b & Hb & _). by eapply wp_assign_board.
  - wp_step. reflexivity.
Qed.

Lemma inv_close_result p s w w' :
  inv w → w_heap w !! p = Some s → close_result p s w w' → inv w'.
Proof using Type.
  intros Hi Hp [(_ & _ & Hc)|[(Hst & _ & _ & s' & (Hs1 & Hs2 & _) & Hc)|[_ Hg]]].
  - by rewrite <- Hc.
  - rewrite <- Hc. eapply inv_update; [done..|]. intros _. apply (inv_has _ Hi p s); auto.
  - eapply inv_grant_result; [|done]. by apply inv_removed.
Qed.

Lemma inv_assign_result p s w w' :
  inv w → w_heap w !! p = Some s → assign_result p s w w' → inv w' ∧ ∃ s', w_heap w' !! p = Some s'.
Proof using Type.
  unfold assign_result. intros Hi Hp. destruct (find_available_board _ _) as [i|] eqn:Ef.
  - intros (s' & Ha & Hc). destruct (find_available_board_Some _ _ _ Ef) as (b & Hb & Ho & _).
    split.
    + rewrite <- Hc. eapply inv_granted; [done..|apply Ha].
    + exists s'. rewrite (ce_heap _ _ Hc). unfold granted. by simplify_map_eq/=.
  - intros Hc. split.
    + rewrite <- Hc. destruct Hi as [H1 H2 H3 H4 H5]. split; cbn; try done.
      intros q [?|?%list_elem_of_singleton]%elem_of_app; subst; eauto.
    + exists s. by rewrite (ce_heap _ _ Hc).
Qed.

(** ** Every handler preserves the invariant *)
Abbreviation anyE := (λ (_ : exn) (_ : world), True).

Lemma wp_weaken_E {A} U (m : M A) Q E w : wp U m Q E w → wp U m Q anyE w.
Proof using Type. unfold wp. by destruct (m w). Qed.

Lemma wp_deref_any p (Q : Session → world → Prop) E w :
  (∀ s, w_heap w !! p = Some s → Q s w) → wp True (deref p) Q E w.
Proof using Type. intros HQ. unfold wp, deref. destruct (w_heap w !! p) eqn:?; auto. Qed.

Lemma close_session_inv p w :
  inv w → wp True (close_session p) (λ _, inv) anyE w.
Proof using Type.
  intros Hi. destruct (w_heap w !! p) as [s|] eqn:Hp.
  - eapply wp_weaken_E, wp_mono; [by apply wp_close_session|].
    intros [] w' Hc. by eapply inv_close_result.
  - unfold close_session. wp_step. apply wp_deref_any. congruence.
Qed.

Lemma print_status_inv fd w : inv w → wp True (print_status fd) (λ _, inv) anyE w.
Proof using Type.
  intros Hi. eapply wp_mono; [by apply wp_print_status|]. intros [] w' Hc. by rewrite <- Hc.
Qed.

Lemma on_setup_msg_inv p ctl l w :
  inv w → wp True (on_setup_msg p ctl l) (λ _, inv) anyE w.
Proof using Type.
  intros Hi. unfold on_setup_msg. wp_step.
  apply (wp_mono _ _ _ (λ _, inv)).
  { case_decide; [|by wp_step]. wp_step. apply wp_deref_any. intros s Hs. by apply close_session_inv. }
  clear w Hi. intros [] w Hi. cbn beta.
  destruct (find_rights ctl l) as [[[i o] e]|].
  2: { wp_step. apply wp_deref_any. intros s Hs. by apply close_session_inv. }
  wp_step. apply wp_deref_any. intros s Hs. destruct (s_username (ses_buffer s)) as [b|]; [|done].
  do 2 wp_step. assert (inv (set_heap (<[p := (set_peer (s_ppid (ses_buffer s)) b ∘ set_fds i o e) s]> (w_heap w)) w))
    as Hi1 by (by eapply inv_same_board).
  set (w1 := set_heap _ w) in *. assert (∃ s1, w_heap w1 !! p = Some s1 ∧ ses_board s1 = ses_board s ∧
    ses_child s1 = ses_child s ∧ ses_proxies s1 = ses_proxies s) as (s1 & Hs1 & Hb1 & Hc1 & Hp1).
  { eexists. split; [by unfold w1; simplify_map_eq/=|done]. }
  clearbody w1. destruct (command_of_code _) as [[]|].
  - do 3 wp_step. assert (inv (set_heap (<[p := set_status awaiting_board s1]> (w_heap w1)) w1)) as Hi2.
    { eapply inv_update; [done..|]. cbn. rewrite Hc1, Hp1, Hb1. intros ?. apply (inv_has _ Hi p s); naive_solver. }
    set (w2 := set_heap _ w1) in *. assert (∃ s2, w_heap w2 !! p = Some s2) as (s2 & Hs2).
    { eexists. unfold w2. by simplify_map_eq/=. }
    eapply wp_weaken_E, wp_mono; [by apply wp_daemon_assign_board|].
    intros [] w3 Ha. cbn beta in *. destruct (inv_assign_result _ _ _ _ Hi2 Hs2 Ha) as [Hi3 _].
    wp_step. apply wp_deref_any. intros s3 Hs3. case_decide; [|by wp_step].
    wp_step. eapply wp_mono; [by apply print_status_inv|]. intros [] w4 Hi4. cbn beta in *.
    do 2 wp_step. assert (inv (log_effects [EDprintf (ses_fd_err s3) (bs "No board currently available." ++
      (if s_no_wait (ses_buffer s) then [] else bs " Waiting...") ++ [x0a])] w4)) as Hi5
      by (by rewrite <- core_eq_log).
    case_match; [by apply close_session_inv | by wp_step].
  - wp_step. eapply wp_mono; [by apply print_status_inv|]. intros [] w4 Hi4. by apply close_session_inv.
  - by wp_step.
Qed.

Lemma on_data_from_client_inv p r w :
  inv w → wp True (on_data_from_client p r) (λ _, inv) anyE w.
Proof using Type.
  intros Hi. unfold on_data_from_client. wp_step. apply wp_deref_any. intros s Hp.
  destruct r as [|data ctl l].
  { do 2 wp_step. apply close_session_inv. by eapply inv_same_board. }
  destruct (take session_buffer_size data) as [|b d].
  { do 2 wp_step. apply close_session_inv. by eapply inv_same_board. }
  do 2 wp_step. assert (inv (set_heap (<[p := set_buffer (recv_into (ses_buffer s) (b :: d)) s]> (w_heap w)) w))
    as Hi1 by (by eapply inv_same_board).
  case_decide; [by wp_step|]. do 2 wp_step. case_decide; [by apply on_setup_msg_inv | by wp_step].
Qed.

Lemma on_child_exit_inv p cb w : inv w → wp True (on_child_exit p cb) (λ _, inv) anyE w.
Proof using Type.
  intros Hi. destruct (w_heap w !! p) as [s|] eqn:Hp.
  - destruct cb; cbn; unfold on_process_exit, on_close_command_exit; do 2 wp_step;
      apply close_session_inv; (eapply inv_update; [done..|]); cbn; intros Hx;
      apply (inv_has _ Hi p s Hp); destruct Hx as [?|[?|[[? ?]|?]]]; naive_solver.
  - destruct cb; unfold wp, on_child_exit, on_process_exit, on_close_command_exit, update, mbind, M_bind, deref;
      by rewrite Hp.
Qed.

Lemma on_client_connecting_inv ae w :
  inv w → w_heap w !! ae_ptr ae = None → wp True (on_client_connecting ae) (λ _, inv) anyE w.
Proof using Type.
  intros Hi Hf. unfold on_client_connecting. case_decide; [done|]. do 4 wp_step.
  destruct (ae_pwd ae) as [pwd|]; [|by repeat wp_step].
  repeat wp_step. destruct Hi as [H1 H2 H3 H4 H5]. split; cbn.
  - apply NoDup_app. split_and!; [done| |apply NoDup_singleton].
    intros q Hq ->%list_elem_of_singleton. apply H2 in Hq. rewrite Hf in Hq. by destruct Hq.
  - intros q. rewrite elem_of_app, H2, list_elem_of_singleton, lookup_insert.
    case_decide; naive_solver.
  - intros q Hq. rewrite lookup_insert. case_decide; [by eexists|auto].
  - intros q s i. rewrite lookup_insert. case_decide; [|eauto]. by intros [= <-].
  - intros q s. rewrite lookup_insert. case_decide; [|eauto]. intros [= <-].
    cbn. intros [?|[?|[[? ?]|?]]]; done.
Qed.

Lemma wp_find_ppid ppid l (Q : option ptr → world → Prop) E w :
  (∀ o, (∀ p, o = Some p → p ∈ l ∧ ∃ s, w_heap w !! p = Some s ∧ ses_ppid s = ppid) → Q o w) →
  wp True (find_ppid ppid l) Q E w.
Proof using Type.
  induction l as [|p l IH]; intros HQ; cbn [find_ppid].
  { wp_step. by apply HQ. }
  wp_step. apply wp_deref_any. intros s Hp. case_decide as Hs.
  - wp_step. apply HQ. intros q [= <-]. split; [by left|]. eauto.
  - apply IH. intros o Ho. apply HQ. intros q Hq. destruct (Ho q Hq) as (? & ?).
    split; [by right|done].
Qed.

Lemma new_socket_connection_inv p fd f ce w :
  inv w → wp True (new_socket_connection p fd f ce) (λ _, inv) anyE w.
Proof using Type.
  intros Hi. unfold new_socket_connection. wp_step. apply wp_deref_any. intros s Hp.
  case_decide as Hst; [wp_step; by rewrite <- core_eq_log|].
  destruct (inv_has _ Hi p s Hp) as [i Hb]; [auto|].
  destruct (inv_board _ Hi p s i Hp Hb) as (b & Hbi & _). rewrite Hb. wp_step.
  eapply wp_deref_board; [done|]. cbn beta iota.
  destruct (factory_create f _ _ ce) as [eff o]. do 4 wp_step.
  assert (inv (log_effects eff w)) as Hi1 by (by rewrite <- core_eq_log).
  assert (inv (set_heap (<[p := set_proxies (ses_proxies s) (u64 (ses_proxy_cnt s + 1)) s]> (w_heap w))
    (log_effects eff w))) as Hi2.
  { eapply (inv_same_board (log_effects eff w)); done. }
  destruct o as [px| |e]; [|by wp_step|done]. wp_step.
  eapply (inv_update _ p (set_proxies (ses_proxies s) (u64 (ses_proxy_cnt s + 1)) s) _ Hi2).
  - cbn. by simplify_map_eq.
  - done.
  - cbn. intros _. rewrite Hb. by eexists.
Qed.

Lemma on_socket_connecting_inv l fd cred ce w :
  inv w → wp True (on_socket_connecting l fd cred ce) (λ _, inv) anyE w.
Proof using Type.
  intros Hi. unfold on_socket_connecting. do 2 wp_step. destruct (w_listeners w !! l); [|done].
  case_decide; [done|]. destruct cred as [pid|]; [|by repeat wp_step].
  unfold find_session_by_ppid. do 3 wp_step. apply wp_find_ppid. intros [q|] _.
  - by apply new_socket_connection_inv.
  - wp_step. by rewrite <- core_eq_log.
Qed.

Lemma on_proxy_event_inv p s q px ev w :
  inv w → w_heap w !! p = Some s → ses_proxies s ≠ [] →
  wp True (on_proxy_event p q px ev) (λ _, inv) anyE w.
Proof using Type.
  intros Hi Hp Hne. unfold on_proxy_event. do 4 wp_step.
  assert (is_Some (ses_board s)) as Hb by (apply (inv_has _ Hi p s); auto).
  destruct (proxy_handler _ px ev) as [[eff o]|]; [|by wp_step].
  do 2 wp_step. assert (inv (log_effects eff w)) as Hi1 by (by rewrite <- core_eq_log).
  destruct o as [px'| |e]; [| |done].
  - wp_step. eapply (inv_update (log_effects eff w)); done.
  - do 3 wp_step. rewrite (core_eq_log (proxy_destroy px)) in Hi1.
    eapply (inv_update (log_effects _ (log_effects eff w))); done.
Qed.

Lemma handle_inv w ev : enabled w ev → inv w → wp True (handle ev) (λ _, inv) anyE w.
Proof using Type.
  intros He Hi. destruct ev as [ae|l fd cred ce|p r|p pid|p q ev|]; cbn [handle].
  - by apply on_client_connecting_inv.
  - by apply on_socket_connecting_inv.
  - by apply on_data_from_client_inv.
  - wp_step. apply wp_deref_any. intros s Hp. destruct (ses_child s) as [[? cb]|]; [|by wp_step].
    by apply on_child_exit_inv.
  - wp_step. apply wp_deref_any. intros s Hp. destruct (list_find _ _) as [[j [q' px]]|] eqn:Ef; [|by wp_step].
    apply list_find_Some in Ef as (Hl & _). eapply on_proxy_event_inv; [done..|].
    intros Hn. by rewrite Hn in Hl.
  - unfold on_signal. wp_step. by rewrite <- core_eq_log.
Qed.

Lemma inv_step w ev w' : inv w → step w ev w' → inv w'.
Proof using Type.
  intros Hi [He Hh]. pose proof (handle_inv w ev He Hi) as Hw. unfold wp in Hw. by rewrite Hh in Hw.
Qed.

Lemma inv_initial w : initial w → inv w.
Proof using Type.
  intros (Hh & Hs & Hq & _ & _). split; rewrite ?Hh, ?Hs, ?Hq.
  - constructor.
  - intros p. rewrite lookup_empty. split; [by intros ?%elem_of_nil | by intros [? ?]].
  - by intros p ?%elem_of_nil.
  - intros p s i. by rewrite lookup_empty.
  - intros p s. by rewrite lookup_empty.
Qed.

Lemma reachable_inv ok w : reachable ok w → inv w.
Proof using Type.
  induction 1 as [w Hw|w ev w' _ IH _ Hs]; [by apply inv_initial | by eapply inv_step].
Qed.

(** C1: a board is never given to two users: in every state the daemon can
    reach, whatever the clients send, two sessions that have the same board
    are the same session, and the board's owner is that session. *)
Theorem boards_exclusive w p1 p2 s1 s2 i :
  reachable (λ _ _, True) w →
  w_heap w !! p1 = Some s1 → w_heap w !! p2 = Some s2 →
  ses_board s1 = Some i → ses_board s2 = Some i →
  p1 = p2 ∧ ∃ b, w_boards w !! i = Some b ∧ b_owner b = Some p1.
Proof using Type.
  intros Hi%reachable_inv H1 H2 Hb1 Hb2.
  destruct (inv_board _ Hi p1 s1 i H1 Hb1) as (b1 & Hbd1 & Ho1).
  destruct (inv_board _ Hi p2 s2 i H2 Hb2) as (b2 & Hbd2 & Ho2).
  simplify_eq. eauto.
Qed.

(** C32: the lists of pointers never dangle, whatever the clients send: in
    every reachable state each entry of [wait_queue] and of [sessions] is a
    living session, and every living session is listed exactly once. *)
Theorem lists_never_dangle w :
  reachable (λ _ _, True) w →
  Forall (λ p, is_Some (w_heap w !! p)) (w_wait_queue w) ∧
  NoDup (w_sessions w) ∧ (∀ p, p ∈ w_sessions w ↔ is_Some (w_heap w !! p)).
Proof using Type.
  intros [H1 H2 H3 _ _]%reachable_inv. split_and!; [|done..]. by apply Forall_forall.
Qed.

(** a proxy always has a board behind it, so that the constructors and
    handlers of proxies never follow a null board pointer: a session that is
    connected to a board, is closing one, runs a command or has a proxy
    points to a board of the configuration. *)
Theorem proxies_have_board w p s :
  reachable (λ _ _, True) w → w_heap w !! p = Some s →
  ses_proxies s ≠ [] ∨ is_Some (ses_child s) ∨ ses_status s = has_board ∨ ses_status s = closing_board →
  ∃ i b, ses_board s = Some i ∧ w_boards w !! i = Some b ∧ b_owner b = Some p.
Proof using Type.
  intros Hi%reachable_inv Hp Hs. destruct (inv_has _ Hi p s Hp) as [i Hb]; [naive_solver|].
  destruct (inv_board _ Hi p s i Hp Hb) as (b & ? & ?). eauto.
Qed.
End invariant.
