(* ===== verification/Conforming.v ===== *)
(** * Conforming: the daemon with clients that follow the protocol

    The client of [src/src/client.cpp] sends one setup message with its three
    descriptors and then nothing until it disconnects. With such clients the
    daemon is free of undefined behaviour, its bookkeeping is exact, and no user
    waits while there is a free board the user may have. *)
From S2P Require Import Prelude Bytes Protocol Env Board SocketProxy WrProxy TcpProxy World Session.
From S2P Require Import Daemon Allocation Invariant.

Local Open Scope Z_scope.

(** A message as [Client::send_setup] sends it. *)
Definition client_msg (data : bytes) (ctl : Z) (l : list cmsg) : Prop :=
  (∃ cmd ppid user nw pad, data = setup_msg cmd ppid user nw pad) ∧
  sizeof_myfds ≤ ctl ∧ is_Some (find_rights ctl l).

(** An event of a conforming client: a failed or empty read at any time, and a
    setup message on a session that has had none. *)
Definition conforming (w : world) (ev : event) : Prop :=
  match ev with
  | EvClientData p (RecvMsg data ctl l) =>
    data = [] ∨
    (client_msg data ctl l ∧ ∃ s, w_heap w !! p = Some s ∧ ses_status s = created)
  | _ => True
  end.

(** ** The stronger invariant *)

(** Members of a session by its status. *)
Definition shape (s : Session) : Prop :=
  match ses_status s with
  | created | awaiting_board => ses_board s = None ∧ ses_child s = None ∧ ses_proxies s = []
  | has_board => is_Some (ses_board s) ∧ ∃ pid, ses_child s = Some (pid, OnProcessExit)
  | closing_board => is_Some (ses_board s) ∧ ∃ pid, ses_child s = Some (pid, OnCloseCommandExit)
  end.

(** No waiting session could be given a free board. *)
Definition work_conserving (w : world) : Prop := none_for w (w_wait_queue w).

Record exact (w : world) : Prop := mk_exact {
  ex_inv : inv w;
  (** owners are living sessions that have the board *)
  ex_owner : ∀ i b p, w_boards w !! i = Some b → b_owner b = Some p →
    ∃ s, w_heap w !! p = Some s ∧ ses_board s = Some i;
  (** the queue holds the waiting sessions, once each *)
  ex_nodup : NoDup (w_wait_queue w);
  ex_wait : ∀ p s, w_heap w !! p = Some s → p ∈ w_wait_queue w ↔ ses_status s = awaiting_board;
  ex_shape : ∀ p s, w_heap w !! p = Some s → shape s;
}.

Definition conf (w : world) : Prop := exact w ∧ work_conserving w.

#[global] Instance exact_proper : Proper (core_eq ==> iff) exact.
Proof.
  assert (∀ w w', core_eq w w' → exact w → exact w') as Himp.
  { intros w w' Hc [H1 H2 H3 H4 H5]. pose proof Hc as [Hb Hh Hs Hq _ _].
    split; rewrite ?Hb, ?Hh, ?Hs, ?Hq; try done. by rewrite <- Hc. }
  intros w w' Hc. split; apply Himp; [done | by symmetry].
Qed.

#[global] Instance work_conserving_proper : Proper (core_eq ==> iff) work_conserving.
Proof.
  intros w w' [Hb Hh Hs Hq _ _]. unfold work_conserving, none_for. by rewrite Hb, Hh, Hq.
Qed.

#[global] Instance conf_proper : Proper (core_eq ==> iff) conf.
Proof. intros w w' Hc. unfold conf. by rewrite Hc. Qed.

(** A change to a session that leaves its place in the allocation. *)
Record same_place (s s' : Session) : Prop := mk_same_place {
  sp_status : ses_status s' = ses_status s;
  sp_board : ses_board s' = ses_board s;
  sp_child : ses_child s' = ses_child s;
  sp_user : get_username s' = get_username s;
  sp_proxies : ses_status s ≠ has_board → ses_proxies s = [] → ses_proxies s' = [];
}.

Lemma shape_same_place s s' : same_place s s' → shape s → shape s'.
Proof.
  intros [Hs Hb Hc _ Hp]. unfold shape. rewrite Hs, Hb, Hc.
  destruct (ses_status s); [naive_solver..|done|done].
Qed.

Lemma conf_same_place w p s s' :
  conf w → w_heap w !! p = Some s → same_place s s' → conf (set_heap (<[p := s']> (w_heap w)) w).
Proof.
  intros [[H1 H2 H3 H4 H5] Hw] Hp Hsp. pose proof Hsp as [Hs Hb Hc Hu Hpx]. split.
  - split; cbn; try done.
    + eapply inv_update; [done..|]. rewrite Hs, Hc. intros Hx. apply (inv_has _ H1 p s Hp).
      destruct Hx as [?|[?|[?|Hx]]]; auto.
      destruct (decide (ses_status s = has_board)); [auto|].
      right. right. right. intros Hn. by apply Hx, Hpx.
    + intros i b q Hi Ho. destruct (H2 i b q) as (t & Ht & Htb); [done..|].
      rewrite lookup_insert. case_decide; [|eauto]. subst. simplify_eq. exists s'. by rewrite Hb.
    + intros q t. rewrite lookup_insert. case_decide; [|eauto]. intros [= <-]. subst. rewrite Hs. eauto.
    + intros q t. rewrite lookup_insert. case_decide; [|eauto]. intros [= <-]. subst.
      eapply shape_same_place; eauto.
  - intros q t Hq. cbn. rewrite lookup_insert. case_decide; [|by apply Hw].
    intros [= <-]. subst. rewrite Hu. by eapply Hw.
Qed.

(** Taking a board away from the free ones never makes one available. *)
Lemma find_none_acquire u p i bds :
  find_available_board u bds = None → find_available_board u (alter (acquire p) i bds) = None.
Proof.
  rewrite !find_available_board_None. intros Hn j b. rewrite list_lookup_alter.
  case_decide; [|apply Hn]. intros (b' & Hb' & ->)%fmap_Some. done.
Qed.

(** ** A session enters the allocation *)
Section enter.
Context `{Env}.

(** [s] is new; [s'] is the same session after its setup message, asking for
    a board. *)
Lemma conf_assign_result w p s s' w' :
  conf w → w_heap w !! p = Some s → ses_status s = created →
  ses_status s' = awaiting_board → ses_board s' = None → ses_child s' = None → ses_proxies s' = [] →
  assign_result p s' (set_heap (<[p := s']> (w_heap w)) w) w' → conf w'.
Proof using Type.
  intros [[H1 H2 H3 H4 H5] Hw] Hp Hst Hst' Hb' Hc' Hp'.
  pose proof (H5 p s Hp) as Hsh. unfold shape in Hsh. rewrite Hst in Hsh. destruct Hsh as (Hb & Hc & Hpx).
  assert (p ∉ w_wait_queue w) as Hnq by (rewrite (H4 p s Hp), Hst; done).
  set (w1 := set_heap _ w). assert (inv w1) as Hi1.
  { eapply inv_update; [done|done|by rewrite Hb, Hb'|]. rewrite Hst', Hc', Hp'.
    intros [?|[?|[[? ?]|?]]]; done. }
  assert (w_heap w1 !! p = Some s') as Hp1 by (unfold w1; by simplify_map_eq/=).
  unfold assign_result. destruct (find_available_board _ _) as [i|] eqn:Ef.
  - intros (t & (Ht1 & Ht2 & (pid & _ & Ht3) & Ht4 & _ & Ht5 & _) & Hcore). rewrite <- Hcore.
    destruct (find_available_board_Some _ _ _ Ef) as (b & Hbi & Ho & _). unfold granted, w1; cbn.
    rewrite insert_insert_eq. split; [split; cbn|].
    + assert (inv (granted p t i w1)) as Hg by (by eapply inv_granted).
      unfold granted, w1 in Hg. cbn in Hg. by rewrite insert_insert_eq in Hg.
    + intros j c q. rewrite list_lookup_alter. case_decide.
      * subst. intros (c' & Hc'' & ->)%fmap_Some [= <-]. exists t. by simplify_map_eq.
      * intros Hj Hq. destruct (H2 j c q) as (r & Hr & Hrb); [done..|].
        exists r. split; [|done]. rewrite lookup_insert_ne; [done|]. congruence.
    + done.
    + intros q r. rewrite lookup_insert. case_decide; [|eauto]. intros [= <-]. subst. rewrite Ht1. done.
    + intros q r. rewrite lookup_insert. case_decide; [|eauto]. intros [= <-]. subst. unfold shape.
      rewrite Ht1, Ht2, Ht3. split; eauto.
    + intros q r Hq. cbn. rewrite lookup_insert_ne by (intros ->; done). intros Hr.
      apply find_none_acquire. by apply (Hw q r).
  - intros Hcore. rewrite <- Hcore. unfold w1; cbn. split; [split; cbn|].
    + destruct Hi1 as [I1 I2 I3 I4 I5]. split; cbn; try done.
      intros q [Hq| ->%list_elem_of_singleton]%elem_of_app; [by apply I3|]. unfold w1 in Hp1; cbn in Hp1. by rewrite Hp1.
    + intros j c q Hj Hq. destruct (H2 j c q) as (r & Hr & Hrb); [done..|].
      exists r. rewrite lookup_insert_ne; [done|]. congruence.
    + apply NoDup_app. split_and!; [done| |apply NoDup_singleton]. by intros q Hq ->%list_elem_of_singleton.
    + intros q r. rewrite lookup_insert, elem_of_app, list_elem_of_singleton. case_decide.
      * intros [= <-]. subst. rewrite Hst'. naive_solver.
      * intros Hr. rewrite <- (H4 q r Hr). naive_solver.
    + intros q r. rewrite lookup_insert. case_decide; [|eauto]. intros [= <-]. subst. unfold shape.
      by rewrite Hst', Hb', Hc', Hp'.
    + intros q r. cbn. rewrite elem_of_app, list_elem_of_singleton, lookup_insert. case_decide.
      * intros _ [= <-]. exact Ef.
      * intros [Hq| ->] Hr; [by apply (Hw q r)|done].
Qed.
End enter.

(** ** A session leaves, and the first waiting user who can use its board gets it *)
Section leave.
Context `{Env}.

Lemma exact_removed w p s : exact w → w_heap w !! p = Some s → exact (removed p s w).
Proof using Type.
  intros [H1 H2 H3 H4 H5] Hp. split; cbn.
  - by apply inv_removed.
  - intros i b q Hi Ho.
    assert (w_boards w !! i = Some b ∧ ses_board s ≠ Some i) as [Hi' Hne].
    { destruct (ses_board s) as [j|] eqn:Hj; [|done]. rewrite list_lookup_alter in Hi.
      case_decide; [|by split; [|congruence]]. apply fmap_Some in Hi as (b' & _ & ->). done. }
    destruct (H2 i b q) as (t & Ht & Htb); [done..|]. exists t. split; [|done].
    rewrite lookup_delete_ne; [done|]. congruence.
  - by apply NoDup_filter.
  - intros q t. rewrite lookup_delete, list_elem_of_filter. case_decide; [done|]. intros Ht.
    rewrite (H4 q t Ht). naive_solver.
  - intros q t. rewrite lookup_delete. case_decide; [done|]. eauto.
Qed.

Lemma exact_granted w q t t' i :
  exact w → w_heap w !! q = Some t → q ∈ w_wait_queue w →
  find_available_board (get_username t) (w_boards w) = Some i → assigned t i t' →
  exact (granted q t' i (set_queue (filter (λ x, x ≠ q) (w_wait_queue w)) w)).
Proof using Type.
  intros [H1 H2 H3 H4 H5] Hq Hin Hf (Ht1 & Ht2 & (pid & _ & Ht3) & _).
  destruct (find_available_board_Some _ _ _ Hf) as (b & Hbi & Ho & _).
  pose proof (proj1 (H4 q t Hq) Hin) as Hst. pose proof (H5 q t Hq) as Hsh. unfold shape in Hsh.
  rewrite Hst in Hsh. destruct Hsh as (Hb & _).
  split; unfold granted; cbn.
  - apply (inv_granted (set_queue _ w) q t t' i b); try done.
    destruct H1 as [I1 I2 I3 I4 I5]. split; cbn; try done. intros x [_ ?]%list_elem_of_filter. eauto.
  - intros j c x. rewrite list_lookup_alter. case_decide.
    + subst. intros (c' & Hc'' & ->)%fmap_Some [= <-]. exists t'. by simplify_map_eq.
    + intros Hj Hx. destruct (H2 j c x) as (r & Hr & Hrb); [done..|].
      exists r. rewrite lookup_insert_ne; [done|]. congruence.
  - by apply NoDup_filter.
  - intros x r. rewrite lookup_insert, list_elem_of_filter. case_decide.
    + intros [= <-]. subst. rewrite Ht1. naive_solver.
    + intros Hr. rewrite <- (H4 x r Hr). naive_solver.
  - intros x r. rewrite lookup_insert. case_decide; [|eauto]. intros [= <-]. unfold shape.
    rewrite Ht1, Ht2, Ht3. split; eauto.
Qed.

(** The only board that can have become available is the one given back. *)
Lemma find_after_release u bds j i :
  find_available_board u bds = None →
  find_available_board u (alter release j bds) = Some i → i = j.
Proof using Type.
  rewrite find_available_board_None. intros Hn Hf.
  destruct (find_available_board_Some _ _ _ Hf) as (b & Hb & Ho & Hu).
  rewrite list_lookup_alter in Hb. case_decide; [done|]. exfalso. by eapply Hn.
Qed.

Lemma conf_leave w p s w' :
  conf w → w_heap w !! p = Some s → grant_result (removed p s w) w' → conf w'.
Proof using Type.
  intros [Hex Hw] Hp. pose proof (exact_removed w p s Hex Hp) as Hex'.
  intros [[Hn Hc]|(q1 & q & q2 & t & t' & i & Hq & Hn & Ht & Hf & Ha & Hc)]; rewrite <- Hc.
  { by split. }
  assert (q ∈ w_wait_queue (removed p s w)) as Hqin by (rewrite Hq; set_solver).
  split; [by eapply exact_granted|].
  cbn in Hqin, Ht. apply list_elem_of_filter in Hqin as [Hqp Hqin].
  rewrite lookup_delete_ne in Ht by done. cbn in Hf.
  pose proof (Hw q t Hqin Ht) as Hnone.
  destruct (ses_board s) as [j|] eqn:Hj; [|congruence].
  pose proof (find_after_release _ _ _ _ Hnone Hf) as ->.
  intros x r Hx. cbn in Hx. apply list_elem_of_filter in Hx as [Hxq [Hxp Hx]%list_elem_of_filter].
  cbn. rewrite lookup_insert_ne, lookup_delete_ne by done. intros Hr.
  pose proof (Hw x r Hx Hr) as Hxn. rewrite Hj. rewrite find_available_board_None in Hxn |- *.
  intros k b. rewrite list_lookup_alter. case_decide.
  - intros (c & _ & ->)%fmap_Some. done.
  - rewrite list_lookup_alter_ne by done. apply Hxn.
Qed.

(** The board's close command starts. *)
Lemma conf_closing w p s s' :
  conf w → w_heap w !! p = Some s → ses_status s = has_board → close_started s s' →
  conf (set_heap (<[p := s']> (w_heap w)) w).
Proof using Type.
  intros [[H1 H2 H3 H4 H5] Hw] Hp Hs (Hs2 & Hb2 & (pid & _ & Hc2) & Hu2 & Hp2).
  assert (is_Some (ses_board s)) as [i Hi] by (apply (inv_has _ H1 p s Hp); auto).
  split; [split; cbn|].
  - eapply inv_update; [done|done|congruence|]. by rewrite Hi.
  - intros k b q Hk Ho. destruct (H2 k b q) as (t & Ht & Htb); [done..|].
    rewrite lookup_insert. case_decide; [|eauto]. subst. simplify_eq. exists s'. split; congruence.
  - done.
  - intros q t. rewrite lookup_insert. case_decide; [|eauto]. intros [= <-]. subst.
    rewrite (H4 q s Hp), Hs2, Hs. done.
  - intros q t. rewrite lookup_insert. case_decide; [|eauto]. intros [= <-]. unfold shape.
    rewrite Hs2, Hc2, Hb2, Hi. split; eauto.
  - intros q t Hq. cbn. rewrite lookup_insert. case_decide; [|by apply Hw].
    intros [= <-]. subst. rewrite Hu2. by apply (Hw q s).
Qed.

(** A client connects. *)
Definition connected (p : ptr) (s : Session) (w : world) : world :=
  set_heap (<[p := s]> (w_heap w)) (set_sessions (w_sessions w ++ [p]) w).

Definition fresh_session (s : Session) : Prop :=
  ses_status s = created ∧ ses_board s = None ∧ ses_child s = None ∧ ses_proxies s = [].

Lemma conf_connected w p s :
  conf w → w_heap w !! p = None → fresh_session s → conf (connected p s w).
Proof using Type.
  intros [[H1 H2 H3 H4 H5] Hw] Hf (Hs & Hb & Hc & Hpx).
  assert (p ∉ w_wait_queue w) as Hnq.
  { intros Hq. apply (inv_queue _ H1) in Hq as [? ?]. congruence. }
  split; [split; cbn|].
  - destruct H1 as [I1 I2 I3 I4 I5]. split; cbn.
    + apply NoDup_app. split_and!; [done| |apply NoDup_singleton].
      intros q Hq ->%list_elem_of_singleton. apply I2 in Hq. rewrite Hf in Hq. by destruct Hq.
    + intros q. rewrite elem_of_app, I2, list_elem_of_singleton, lookup_insert. case_decide; naive_solver.
    + intros q Hq. rewrite lookup_insert. case_decide; [by eexists|auto].
    + intros q t i. rewrite lookup_insert. case_decide; [|eauto]. intros [= <-]. by rewrite Hb.
    + intros q t. rewrite lookup_insert. case_decide; [|eauto]. intros [= <-].
      rewrite Hs, Hc, Hpx. intros [?|[?|[[? ?]|?]]]; done.
  - intros i b q Hi Ho. destruct (H2 i b q) as (t & Ht & Htb); [done..|].
    exists t. rewrite lookup_insert_ne; [done|]. congruence.
  - done.
  - intros q t. rewrite lookup_insert. case_decide; [|eauto]. intros [= <-]. subst. by rewrite Hs.
  - intros q t. rewrite lookup_insert. case_decide; [|eauto]. intros [= <-].
    unfold shape. by rewrite Hs.
  - intros q t Hq. cbn. rewrite lookup_insert_ne by (intros <-; done). by apply Hw.
Qed.
End leave.

(** ** The steps of the allocation

    Every handler is, for a conforming client, a short sequence of these, of
    which at most one serves a request: a session asks for a board for its user
    (and waits for one, if [wait]), or a session leaves. *)
Inductive request :=
| Ask (wait : bool) (p : ptr) (user : bytes)
| Leave (p : ptr).

Section alloc.
Context `{Env}.

Inductive alloc_step (w w' : world) : option request → Prop :=
| as_connect p s :
    w_heap w !! p = None → fresh_session s → core_eq (connected p s w) w' → alloc_step w w' None
| as_update p s s' :
    w_heap w !! p = Some s → same_place s s' →
    core_eq (set_heap (<[p := s']> (w_heap w)) w) w' → alloc_step w w' None
| as_request wait p s s' :
    w_heap w !! p = Some s → ses_status s = created →
    ses_status s' = awaiting_board → ses_board s' = None → ses_child s' = None → ses_proxies s' = [] →
    (wait = false → find_available_board (get_username s') (w_boards w) ≠ None) →
    assign_result p s' (set_heap (<[p := s']> (w_heap w)) w) w' →
    alloc_step w w' (Some (Ask wait p (get_username s')))
| as_refused p s user :
    w_heap w !! p = Some s → ses_status s = created →
    find_available_board user (w_boards w) = None →
    core_eq (removed p s w) w' → alloc_step w w' (Some (Ask false p user))
| as_closing p s s' i b :
    w_heap w !! p = Some s → ses_status s = has_board →
    ses_board s = Some i → w_boards w !! i = Some b → b_close_command b ≠ [] →
    close_started s s' → core_eq (set_heap (<[p := s']> (w_heap w)) w) w' → alloc_step w w' None
| as_leave p s :
    w_heap w !! p = Some s →
    (ses_status s = has_board →
      ∃ i b, ses_board s = Some i ∧ w_boards w !! i = Some b ∧ b_close_command b = []) →
    grant_result (removed p s w) w' → alloc_step w w' (Some (Leave p)).

(** The session of a new client has no part in the allocation. *)
Lemma removed_created w p s :
  conf w → w_heap w !! p = Some s → ses_status s = created →
  none_for (removed p s w) (w_wait_queue (removed p s w)).
Proof using Type.
  intros [[H1 H2 H3 H4 H5] Hw] Hp Hs q t Hq Ht. cbn in *.
  pose proof (H5 p s Hp) as Hsh. unfold shape in Hsh. rewrite Hs in Hsh. destruct Hsh as (-> & _).
  apply list_elem_of_filter in Hq as [Hne Hq]. rewrite lookup_delete_ne in Ht by done. by apply (Hw q).
Qed.

Lemma conf_alloc_step w w' o : conf w → alloc_step w w' o → conf w'.
Proof using Type.
  intros Hc [p s Hf Hs Hcore|p s s' Hp Hsp Hcore|wait p s s' Hp ???????|p s user Hp Hs Hn Hcore
    |p s s' i b Hp Hs ??? Hcl Hcore|p s Hp _ Hg].
  - rewrite <- Hcore. by apply conf_connected.
  - rewrite <- Hcore. by eapply conf_same_place.
  - by eapply conf_assign_result.
  - eapply conf_leave; [done..|]. left. split; [by apply removed_created|done].
  - rewrite <- Hcore. by eapply conf_closing.
  - by eapply conf_leave.
Qed.

(** Sequences of steps that serve at most one request. *)
Inductive alloc_steps : option request → world → world → Prop :=
| steps_nil w : alloc_steps None w w
| steps_silent o w w1 w2 : alloc_step w w1 None → alloc_steps o w1 w2 → alloc_steps o w w2
| steps_request r w w1 w2 : alloc_step w w1 (Some r) → alloc_steps None w1 w2 → alloc_steps (Some r) w w2.

Lemma alloc_steps_once o w w' : alloc_step w w' o → alloc_steps o w w'.
Proof using Type. destruct o; intros; [eapply steps_request|eapply steps_silent]; eauto using steps_nil. Qed.

Lemma conf_alloc_steps o w w' : conf w → alloc_steps o w w' → conf w'.
Proof using Type. intros Hc Hr. revert Hc. induction Hr; eauto using conf_alloc_step. Qed.

Lemma conf_inv w : conf w → inv w.
Proof using Type. by intros [[] _]. Qed.

Lemma same_place_refl s : same_place s s.
Proof using Type. by split. Qed.

(** A change of the trace only, while some session lives. *)
Lemma alloc_core w w' p s : w_heap w !! p = Some s → core_eq w w' → alloc_step w w' None.
Proof using Type.
  intros Hp Hc. eapply as_update; [done|apply same_place_refl|]. rewrite <- Hc.
  split; cbn; try done. by rewrite insert_id.
Qed.

Lemma alloc_step_core w w1 w2 o : alloc_step w w1 o → core_eq w1 w2 → alloc_step w w2 o.
Proof using Type.
  intros [p s Hf Hs Hcore|p s s' Hp Hsp Hcore|wait p s s' Hp ?????? Ha|p s user Hp ?? Hcore
    |p s s' i b ?????? Hcore|p s Hp ? Hg] Hc.
  - eapply as_connect; [done..|]. by rewrite Hcore.
  - eapply as_update; [done..|]. by rewrite Hcore.
  - eapply as_request; [done..|]. unfold assign_result in *. case_match.
    + destruct Ha as (t & ? & Ha). exists t. split; [done|]. by rewrite Ha.
    + by rewrite Ha.
  - eapply as_refused; [done..|]. by rewrite Hcore.
  - eapply as_closing; [done..|]. by rewrite Hcore.
  - eapply as_leave; [done..|].
    destruct Hg as [[Hn Hcore]|(q1 & q & q2 & t & t' & i & Hq & Hn & Ht & Hf & Ha & Hcore)].
    + left. split; [done|]. by rewrite Hcore.
    + right. exists q1, q, q2, t, t', i. split_and!; try done. by rewrite Hcore.
Qed.

(** What [Session::close_session] asks of the allocation: nothing while the
    board's command runs or the board has a close command to run. *)
Definition closing_request (w : world) (p : ptr) (s : Session) : option request :=
  if decide (ses_status s = has_board) then
    if decide (is_Some (ses_child s)) then None
    else
      match b ← ses_board s; w_boards w !! b with
      | Some b => if decide (b_close_command b ≠ []) then None else Some (Leave p)
      | None => None
      end
  else Some (Leave p).

(** [Session::close_session] of a session whose watcher has just stopped or
    whose child has just exited. *)
Lemma alloc_close_result w p s s1 w' :
  conf w → w_heap w !! p = Some s →
  ses_board s1 = ses_board s → ses_status s1 = ses_status s →
  (ses_child s1 = ses_child s ∨ ses_child s1 = None) →
  (ses_proxies s1 = ses_proxies s) → get_username s1 = get_username s →
  close_result p s1 (set_heap (<[p := s1]> (w_heap w)) w) w' → alloc_step w w' (closing_request w p s1).
Proof using Type.
  intros Hconf Hp Hb Hst Hch Hpx Hu.
  intros Hres. unfold closing_request.
  destruct Hres as [(Hs & [c Hcs] & Hc)|[(Hs & Hcn & (i & b & Hsb & Hbi & Hcc) & s2 & Hcl & Hc)|[Hh Hg]]].
  - rewrite decide_True, decide_True by (try eexists; done). eapply as_update; [done| |exact Hc]. split; try done; [|by rewrite Hpx].
    destruct Hch as [?|?]; congruence.
  - rewrite decide_True, decide_False by (rewrite ?Hcn; first [done|by intros [? ?]]).
    cbn [w_boards set_heap] in Hbi. rewrite Hsb. cbn [mbind option_bind]. rewrite Hbi, decide_True by done.
    destruct Hcl as (Hs2 & Hb2 & Hc2 & Hu2 & Hp2).
    eapply (as_closing _ _ p s s2); [done|congruence|by rewrite <- Hb|done|done| |].
    + split_and!; try done; congruence.
    + rewrite <- Hc. split; cbn; try done. by rewrite insert_insert_eq.
  - assert (closing_request w p s1 = Some (Leave p)) as Hreq.
    { unfold closing_request. case_decide as Hs; [|done]. destruct (Hh Hs) as (Hn & i & b & Hsb & Hbi & Hcc).
      cbn [w_boards set_heap] in Hbi. rewrite decide_False by (rewrite Hn; by intros [? ?]).
      rewrite Hsb. cbn [mbind option_bind]. rewrite Hbi, decide_False; [done|]. by intros ?. }
    unfold closing_request in Hreq. rewrite Hreq. eapply (as_leave _ _ p s); [done| |].
    + rewrite <- Hst. intros Hs. destruct (Hh Hs) as (_ & i & b & ? & ? & ?). exists i, b.
      split_and!; try done. congruence.
    + eapply grant_result_core; [|exact Hg].
      unfold removed. split; cbn; rewrite ?Hb; try done. by rewrite delete_insert_eq.
Qed.
(** *** A board with a close command is not given away in one step *)

Definition closes_board (w : world) (i : nat) : Prop :=
  ∃ b, w_boards w !! i = Some b ∧ b_close_command b ≠ [].

Definition using_board (w : world) (s : Session) (i : nat) : Prop :=
  ses_status s = has_board ∧ ses_board s = Some i ∧ closes_board w i.

Definition still_using (w w' : world) : Prop :=
  ∀ p s i, w_heap w !! p = Some s → using_board w s i →
    ∃ s', w_heap w' !! p = Some s' ∧ using_board w' s' i.

Definition using_or_closing (w w' : world) : Prop :=
  ∀ p s i, w_heap w !! p = Some s → using_board w s i →
    ∃ s', w_heap w' !! p = Some s' ∧ ses_board s' = Some i ∧
      (ses_status s' = has_board ∨
       ses_status s' = closing_board ∧ ∃ pid, ses_child s' = Some (pid, OnCloseCommandExit)).

Lemma still_using_closing w w' : still_using w w' → using_or_closing w w'.
Proof using Type. intros Hs p s i Hp Hu. destruct (Hs p s i Hp Hu) as (s' & ? & ? & ? & _). naive_solver. Qed.

Lemma still_using_trans w w1 w2 : still_using w w1 → using_or_closing w1 w2 → using_or_closing w w2.
Proof using Type. intros Hs Hu p s i Hp Hus. destruct (Hs p s i Hp Hus) as (s' & Hp' & Hus'). eauto. Qed.

Lemma closes_board_alter f j w w' i :
  (∀ b, b_close_command (f b) = b_close_command b) →
  w_boards w' = alter f j (w_boards w) → closes_board w i → closes_board w' i.
Proof using Type.
  intros Hf Hb (b & Hi & Hc). unfold closes_board. rewrite Hb.
  destruct (decide (j = i)) as [->|Hne].
  - exists (f b). by rewrite list_lookup_alter, decide_True, Hi, Hf.
  - exists b. by rewrite list_lookup_alter_ne.
Qed.

(** Granting a board to a session that has none. *)
Lemma still_using_granted w w' q t t' j :
  w_heap w !! q = Some t → ses_status t ≠ has_board → core_eq (granted q t' j w) w' → still_using w w'.
Proof using Type.
  intros Hq Ht Hc p s i Hp (Hs & Hb & Hcl). exists s. rewrite (ce_heap _ _ Hc). cbn.
  rewrite lookup_insert_ne by congruence. split_and!; try done.
  split_and!; try done. eapply (closes_board_alter (acquire q) j w); [done| |done].
  by rewrite (ce_boards _ _ Hc).
Qed.

Lemma still_using_core w w' : w_boards w' = w_boards w → w_heap w' = w_heap w → still_using w w'.
Proof using Type.
  intros Hb Hh p s i Hp Hu. exists s. rewrite Hh. unfold using_board, closes_board in *. by rewrite Hb.
Qed.

Lemma still_using_update w p s s' :
  w_heap w !! p = Some s → same_place s s' ∨ ses_status s ≠ has_board →
  still_using w (set_heap (<[p := s']> (w_heap w)) w).
Proof using Type.
  intros Hp Hs q t i Hq (Ht & Hb & Hcl). cbn. rewrite lookup_insert. case_decide.
  - subst. simplify_eq. destruct Hs as [[Hs1 Hs2]|?]; [|done]. exists s'. split; [done|].
    split_and!; [congruence..|done].
  - exists t. done.
Qed.

Lemma still_using_assign w p s s' w' :
  w_heap w !! p = Some s → ses_status s = created → ses_status s' = awaiting_board →
  assign_result p s' (set_heap (<[p := s']> (w_heap w)) w) w' → still_using w w'.
Proof using Type.
  intros Hp Hs Hs' Ha q t i Hq Hu.
  destruct (still_using_update w p s s' Hp) with q t i as (t1 & Ht1 & Hu1); [right; congruence|done..|].
  revert Ha. unfold assign_result. case_match.
  - intros (u & _ & Hc). eapply (still_using_granted (set_heap (<[p := s']> (w_heap w)) w) _ p s');
      [cbn; by simplify_map_eq|congruence|exact Hc|exact Ht1|done].
  - intros Hc. eapply still_using_core; [| |exact Ht1|done].
    + by rewrite (ce_boards _ _ Hc).
    + by rewrite (ce_heap _ _ Hc).
Qed.

Lemma still_using_leave w p s w' :
  conf w → w_heap w !! p = Some s →
  (ses_status s = has_board → ∃ i b, ses_board s = Some i ∧ w_boards w !! i = Some b ∧ b_close_command b = []) →
  grant_result (removed p s w) w' → still_using w w'.
Proof using Type.
  intros Hconf Hp Hcc Hg q t i Hq Hu.
  assert (q ≠ p) as Hqp.
  { intros ->. simplify_eq. destruct Hu as (Hs & Hb & c & Hci & Hcn).
    destruct (Hcc Hs) as (j & b & Hj & Hbj & Hbn). simplify_eq. }
  assert (w_heap (removed p s w) !! q = Some t) as Hq1 by (cbn; by rewrite lookup_delete_ne).
  assert (using_board (removed p s w) t i) as Hu1.
  { destruct Hu as (? & ? & Hcl). split_and!; try done. destruct (ses_board s) as [j|] eqn:Hj.
    - eapply (closes_board_alter release j w); [done| |done]. cbn. by rewrite Hj.
    - destruct Hcl as (b & ? & ?). exists b. cbn. by rewrite Hj. }
  destruct Hg as [[_ Hc]|(q1 & r & q2 & u & u' & j & Hqq & _ & Hr & _ & _ & Hc)].
  - eapply still_using_core; [| |exact Hq1|done].
    + by rewrite (ce_boards _ _ Hc).
    + by rewrite (ce_heap _ _ Hc).
  - eapply (still_using_granted
      (set_queue (filter (λ q, q ≠ r) (w_wait_queue (removed p s w))) (removed p s w)) w' r u u' j); [exact Hr| |exact Hc|exact Hq1|done].
    pose proof (exact_removed w p s (proj1 Hconf) Hp) as Hex.
    assert (r ∈ w_wait_queue (removed p s w)) as Hrin by (rewrite Hqq; set_solver).
    apply (ex_wait _ Hex r u Hr) in Hrin. congruence.
Qed.

Lemma alloc_step_using w w' o : conf w → alloc_step w w' o → using_or_closing w w'.
Proof using Type.
  intros Hconf [p s Hf Hs Hcore|p s s' Hp Hsp Hcore|wait p s s' Hp ?? ?? ? ? Ha|p s user Hp Hs Hn Hcore
    |p s s' i b Hp Hs Hb ?? Hcl Hcore|p s Hp Hcc Hg].
  - apply still_using_closing. intros q t i Hq Hu. exists t. rewrite (ce_heap _ _ Hcore). cbn.
    rewrite lookup_insert_ne by congruence. split; [done|].
    unfold using_board, closes_board in *. by rewrite (ce_boards _ _ Hcore).
  - apply still_using_closing. intros q t i Hq Hu.
    destruct (still_using_update w p s s' Hp) with q t i as (t1 & Ht1 & Hu1); [by left|done..|].
    eapply still_using_core; [| |exact Ht1|done].
    + by rewrite (ce_boards _ _ Hcore).
    + by rewrite (ce_heap _ _ Hcore).
  - by eapply still_using_closing, still_using_assign.
  - eapply still_using_closing, still_using_leave; [done..|congruence|].
    left. split; [by apply removed_created|done].
  - intros q t j Hq (Ht & Htb & _). rewrite (ce_heap _ _ Hcore). cbn. rewrite lookup_insert. case_decide.
    + subst. simplify_eq. destruct Hcl as (Hs1 & Hs2 & (pid & _ & Hs3) & _). exists s'.
      split_and!; [done|congruence|]. right. eauto.
    + exists t. auto.
  - by eapply still_using_closing, still_using_leave.
Qed.

(** What a handler does: a sequence of allocation steps, in which no board
    with a close command changes hands. *)
Definition does (o : option request) (w w' : world) : Prop := alloc_steps o w w' ∧ using_or_closing w w'.

Lemma does_once o w w' : conf w → alloc_step w w' o → does o w w'.
Proof using Type. intros Hc Hs. split; [by apply alloc_steps_once | by eapply alloc_step_using]. Qed.

Lemma does_cons o w w1 w2 : alloc_step w w1 None → still_using w w1 → does o w1 w2 → does o w w2.
Proof using Type. intros Hs Hu [Hr Hu2]. split; [by eapply steps_silent | by eapply still_using_trans]. Qed.

Lemma does_core w w' p s : conf w → w_heap w !! p = Some s → core_eq w w' → does None w w'.
Proof using Type. intros. by eapply does_once, alloc_core. Qed.

Lemma does_refl w : does None w w.
Proof using Type. split; [apply steps_nil|]. by apply still_using_closing, still_using_core. Qed.

(** What a client's message asks for, read from the session's buffer. *)
Definition message_request (p : ptr) (s : Session) : option request :=
  user ← s_username (ses_buffer s);
  command_of_code (s_cmd (ses_buffer s)) ≫= λ cmd,
  match cmd with
  | connect =>
    Some (Ask (negb (s_no_wait (ses_buffer s))) p (if decide (user = []) then ses_username_cred s else user))
  | list_sessions => Some (Leave p)
  end.

(** The request an event makes of the allocation. *)
Definition event_request (w : world) (ev : event) : option request :=
  match ev with
  | EvClientData p r =>
    s ← w_heap w !! p;
    match r with
    | RecvErr | RecvMsg [] _ _ => closing_request w p s
    | RecvMsg data _ _ => message_request p (set_buffer (recv_into (ses_buffer s) data) s)
    end
  | EvChildExit p _ => s ← w_heap w !! p; closing_request w p (set_child None s)
  | EvClientConnecting _ | EvSocketConnecting _ _ _ _ | EvProxy _ _ _ | EvSignal => None
  end.
End alloc.

(** ** Handlers *)
Section handlers.
Context `{Env}.

Abbreviation anyE := (λ (_ : exn) (_ : world), True).

(** Set a session's members that do not count for the allocation, then close. *)
Lemma close_after_update p s f w :
  conf w → w_heap w !! p = Some s → inv (set_heap (<[p := f s]> (w_heap w)) w) →
  ses_board (f s) = ses_board s → ses_status (f s) = ses_status s →
  (ses_child (f s) = ses_child s ∨ ses_child (f s) = None) →
  ses_proxies (f s) = ses_proxies s → get_username (f s) = get_username s →
  wp False (update p f;; close_session p) (λ _, does (closing_request w p (f s)) w) (λ e _, spawn_failed e) w.
Proof using Type.
  intros Hc Hp Hi ?????. do 2 wp_step.
  eapply wp_mono; [apply (wp_close_session _ p (f s)); [done|cbn; by simplify_map_eq]|].
  intros [] w' Hr. by eapply does_once, alloc_close_result.
Qed.

Lemma set_self p s (w : world) :
  w_heap w !! p = Some s → core_eq w (set_heap (<[p := s]> (w_heap w)) w).
Proof using Type. intros Hp. split; cbn; try done. by rewrite insert_id. Qed.

Lemma close_result_core p s w1 w2 w' : core_eq w1 w2 → close_result p s w1 w' → close_result p s w2 w'.
Proof using Type.
  intros Hc. pose proof Hc as [Hb Hh Hs Hq Hy Hl].
  intros [(?&?&Hr)|[(?&?&?&s'&?&Hr)|[? Hr]]]; unfold close_result; rewrite Hb.
  - left. split_and!; try done. by rewrite <- Hc.
  - right. left. split_and!; try done. exists s'. split; [done|]. rewrite Hh. by rewrite <- Hc.
  - right. right. split; [done|]. eapply grant_result_core; [|exact Hr].
    unfold removed. split; cbn; by rewrite ?Hb, ?Hh, ?Hs, ?Hq.
Qed.

Lemma close_session_conf p s w :
  conf w → w_heap w !! p = Some s →
  wp False (close_session p) (λ _, does (closing_request w p s) w) (λ e _, spawn_failed e) w.
Proof using Type.
  intros Hc Hp. eapply wp_mono; [apply wp_close_session; [by apply conf_inv|done]|].
  intros [] w' Hr. eapply does_once, (alloc_close_result w p s s); try done; [by left|].
  eapply close_result_core; [by apply set_self|done].
Qed.

(** The setup message of a new session. *)
Lemma assign_result_there p s w w' :
  assign_result p s w w' → w_heap w !! p = Some s → ∃ s', w_heap w' !! p = Some s'.
Proof using Type.
  unfold assign_result. intros Ha Hs. destruct (find_available_board _ _).
  - destruct Ha as (s' & _ & Hcore). exists s'. rewrite (ce_heap _ _ Hcore). cbn. by simplify_map_eq.
  - exists s. by rewrite (ce_heap _ _ Ha).
Qed.

(** A client that does not wait leaves when there is no board. *)
Lemma refused_conf p s s2 w w3 fd e :
  conf w → w_heap w !! p = Some s → ses_status s = created →
  ses_status s2 = awaiting_board → ses_board s2 = None → ses_child s2 = None → ses_proxies s2 = [] →
  find_available_board (get_username s2) (w_boards w) = None →
  assign_result p s2 (set_heap (<[p := s2]> (w_heap w)) w) w3 →
  wp False (print_status fd;; emit e;; close_session p)
    (λ _, does (Some (Ask false p (get_username s2))) w) (λ e _, spawn_failed e) w3.
Proof using Type.
  intros Hc Hp Hst Hs2 Hb2 Hc2 Hp2 Hn Ha.
  assert (conf w3) as Hc3 by (eapply conf_alloc_step, (as_request w w3 true p s s2); done).
  unfold assign_result in Ha. cbn [w_boards set_heap] in Ha. rewrite Hn in Ha.
  wp_step. eapply wp_mono; [by apply wp_print_status, conf_inv|]. intros [] w4 Hc4. cbn beta in *. do 2 wp_step.
  set (w5 := log_effects _ w4). assert (core_eq w3 w5) as Hc5 by (rewrite Hc4; apply core_eq_log).
  assert (conf w5) as Hcf5 by (by rewrite <- Hc5).
  assert (w_heap w5 !! p = Some s2) as Hp5.
  { rewrite (ce_heap _ _ Hc5), (ce_heap _ _ Ha). cbn. by simplify_map_eq. }
  eapply wp_mono; [apply (wp_close_session _ p s2); [by apply conf_inv|done]|].
  intros [] w6 [(Hx & _)|[(Hx & _)|[_ Hg]]]; [congruence..|].
  assert (core_eq (removed p s2 w5) (removed p s w)) as Hrem.
  { pose proof (ex_shape _ (proj1 Hc) p s Hp) as Hsh. unfold shape in Hsh. rewrite Hst in Hsh.
    destruct Hsh as (Hb & _). destruct (transitivity Ha Hc5) as [E1 E2 E3 E4 E5 E6].
    unfold removed. cbn in *. rewrite Hb, Hb2. split; cbn; rewrite ?E1, ?E2, ?E3, ?E4, ?E5, ?E6; try done.
    - by rewrite delete_insert_eq.
    - rewrite filter_app, filter_cons, decide_False by tauto. cbn. by rewrite app_nil_r. }
  eapply does_once, (as_refused w w6 p s); [done..|].
  apply (grant_result_core _ _ _ Hrem) in Hg. destruct Hg as [[_ Hg]|(q1 & q & q2 & t & t' & i & Hq & _ & Ht & Hf & _)]; [done|].
  pose proof (removed_created w p s Hc Hp Hst q t) as Hnone. rewrite Hnone in Hf; [done| |done]. rewrite Hq. set_solver.
Qed.

Lemma on_setup_msg_conf p s ctl l w cmd ppid user nw pad rest :
  conf w → w_heap w !! p = Some s → ses_status s = created →
  ses_buffer s = setup_msg cmd ppid user nw pad ++ rest →
  sizeof_myfds ≤ ctl → is_Some (find_rights ctl l) →
  wp False (on_setup_msg p ctl l) (λ _, does (message_request p s) w) (λ e _, spawn_failed e) w.
Proof using Type.
  intros Hc Hp Hst Hbuf Hctl [[[i o] e] Hr]. unfold on_setup_msg, message_request.
  rewrite decide_False by lia. do 2 wp_step. rewrite Hr. do 2 wp_step.
  rewrite Hbuf, setup_msg_username, setup_msg_cmd, setup_msg_no_wait. cbn [mbind option_bind]. do 2 wp_step.
  pose proof (ex_shape _ (proj1 Hc) p s Hp) as Hsh. unfold shape in Hsh. rewrite Hst in Hsh.
  destruct Hsh as (Hb & Hch & Hpx). set (f := set_peer _ _ ∘ set_fds i o e).
  destruct cmd.
  - do 3 wp_step. cbn [w_heap set_heap]. rewrite insert_insert_eq.
    set (s2 := set_status awaiting_board (f s)). 
    change (if decide (_ = []) then ses_username_cred s else _) with (get_username s2).
    eapply wp_mono.
    { apply (wp_daemon_assign_board _ p s2). cbn. by simplify_map_eq. }
    intros [] w3 Ha. cbn beta in *.
    destruct (find_available_board (get_username s2) (w_boards w)) as [j|] eqn:Ef.
    + assert (alloc_step w w3 (Some (Ask (negb nw) p (get_username s2)))) as Hstep
        by (eapply (as_request w w3 _ p s s2); [done..|congruence|done]).
      unfold assign_result in Ha. cbn [w_boards set_heap] in Ha. rewrite Ef in Ha.
      destruct Ha as (s3 & (Hs3 & _) & Hc3).
      assert (w_heap w3 !! p = Some s3) as Hp3 by (rewrite (ce_heap _ _ Hc3); cbn; by simplify_map_eq).
      do 2 wp_step. rewrite decide_False by congruence. wp_step. by apply does_once.
    + assert (w_heap w3 !! p = Some s2) as Hp3.
      { unfold assign_result in Ha. cbn [w_boards set_heap] in Ha. rewrite Ef in Ha.
        rewrite (ce_heap _ _ Ha). cbn. by simplify_map_eq. }
      do 2 wp_step. rewrite decide_True by done. destruct nw; [by eapply refused_conf|].
      assert (alloc_step w w3 (Some (Ask true p (get_username s2)))) as Hstep by (by eapply (as_request w w3 _ p s s2)).
      wp_step. eapply wp_mono; [by eapply wp_print_status, conf_inv, conf_alloc_step|]. intros [] w4 Hc4. cbn beta in *.
      do 3 wp_step. eapply does_once, alloc_step_core; [done..|]. rewrite Hc4. apply core_eq_log.
  - set (w1 := set_heap _ w).
    assert (inv w1) as Hi1 by (by eapply inv_same_board; [apply conf_inv|..]).
    wp_step. eapply wp_mono; [by apply wp_print_status|]. intros [] w4 Hc4. cbn beta in *.
    assert (w_heap w4 !! p = Some (f s)) as Hp4.
    { rewrite (ce_heap _ _ Hc4). unfold w1. cbn. by simplify_map_eq. }
    eapply wp_mono; [apply (wp_close_session _ p (f s)); [by rewrite <- Hc4|done]|].
    intros [] w5 [(Hs & _)|[(Hs & _)|[_ Hg]]].
    + unfold f in Hs. cbn in Hs. congruence.
    + unfold f in Hs. cbn in Hs. congruence.
    + eapply does_once, (as_leave w w5 p s); [done|done|congruence|]. eapply grant_result_core; [|exact Hg].
      destruct Hc4 as [E1 E2 E3 E4 E5 E6]. unfold removed. split; cbn; rewrite ?E1, ?E2, ?E3, ?E4, ?E5, ?E6; try done.
      unfold w1. cbn. by rewrite delete_insert_eq.
Qed.

Lemma on_data_from_client_conf p r w :
  conf w → (∃ s, w_heap w !! p = Some s ∧ ses_client_active s = true) →
  conforming w (EvClientData p r) →
  wp False (on_data_from_client p r) (λ _, does (event_request w (EvClientData p r)) w) (λ e _, spawn_failed e) w.
Proof using Type.
  intros Hc (s & Hp & _) Hcf. cbn [event_request]. rewrite Hp. cbn [mbind option_bind].
  unfold on_data_from_client. do 2 wp_step.
  assert (wp False (update p (set_client_active false);; close_session p) (λ _, does (closing_request w p s) w)
    (λ e _, spawn_failed e) w) as Hclose.
  { change (closing_request w p s) with (closing_request w p (set_client_active false s)).
    eapply close_after_update; try done; [|by left]. eapply inv_same_board; [by apply conf_inv|done..]. }
  destruct r as [|data ctl l]; [done|]. cbn in Hcf.
  destruct Hcf as [->|(((cmd & ppid & user & nw & pad & ->) & Hctl & Hr) & s' & Hs' & Hst)]; [done|].
  simplify_eq. set (data := setup_msg cmd ppid user nw pad).
  assert (length data = sizeof_setup) as Hlen by apply length_setup_msg.
  rewrite take_ge by (rewrite Hlen; pose proof session_buffer_size_eq; unfold sizeof_setup; lia).
  destruct data as [|b d] eqn:Ed; [done|].
  rewrite <- Ed in Hlen |- *. clear b d Ed. do 2 wp_step.
  rewrite decide_False by (rewrite Hlen; unfold sizeof_setup, sizeof_header; lia). do 2 wp_step.
  cbn [ses_buffer set_buffer]. unfold recv_into, data. rewrite setup_msg_id, decide_True by done.
  set (s1 := set_buffer _ s). set (w1 := set_heap _ w).
  assert (alloc_step w w1 None) as Hstep by (eapply (as_update w w1 p s s1); [done|by split|done]).
  eapply wp_mono; [eapply (on_setup_msg_conf p s1); try done|].
  - exact (conf_alloc_step _ _ _ Hc Hstep).
  - unfold w1. cbn. by simplify_map_eq.
  - intros [] w2 Hr2. eapply does_cons; [done| |done]. eapply still_using_update; [done|by left].
Qed.

Lemma on_child_exit_conf p s pid cb w :
  conf w → w_heap w !! p = Some s → ses_child s = Some (pid, cb) →
  wp False (on_child_exit p cb) (λ _, does (closing_request w p (set_child None s)) w) (λ e _, spawn_failed e) w.
Proof using Type.
  intros Hc Hp Hch.
  assert (wp False (update p (set_child None);; close_session p) (λ _, does (closing_request w p (set_child None s)) w)
    (λ e _, spawn_failed e) w) as Hclose.
  { eapply close_after_update; try done; [|by right]. eapply inv_update; [by apply conf_inv|done..|].
    intros _. apply (inv_has _ (conf_inv _ Hc) p s Hp). rewrite Hch. eauto. }
  by destruct cb.
Qed.

Lemma on_client_connecting_conf ae w :
  conf w → w_heap w !! ae_ptr ae = None →
  wp False (on_client_connecting ae) (λ _, does None w) anyE w.
Proof using Type.
  intros Hc Hf. unfold on_client_connecting. case_decide; [done|]. do 4 wp_step.
  destruct (ae_pwd ae) as [pwd|]; [|by repeat wp_step].
  repeat wp_step. eapply does_once, as_connect; [done|done| |by split]. done.
Qed.

Lemma wp_find_ppid_conf ppid l (Q : option ptr → world → Prop) E w :
  (∀ p, p ∈ l → is_Some (w_heap w !! p)) →
  (∀ o, (∀ p, o = Some p → ∃ s, w_heap w !! p = Some s) → Q o w) →
  wp False (find_ppid ppid l) Q E w.
Proof using Type.
  induction l as [|p l IH]; intros Hl HQ; cbn [find_ppid].
  { wp_step. by apply HQ. }
  destruct (Hl p) as [s Hp]; [by left|]. do 2 wp_step. case_decide.
  - wp_step. apply HQ. intros q [= <-]. eauto.
  - apply IH; [|done]. intros q Hq. apply Hl. by right.
Qed.

Lemma new_socket_connection_conf p s fd f ce w :
  conf w → w_heap w !! p = Some s → wp False (new_socket_connection p fd f ce) (λ _, does None w) anyE w.
Proof using Type.
  intros Hc Hp. unfold new_socket_connection. do 2 wp_step.
  case_decide as Hst; [wp_step; eapply does_core; [done..|apply core_eq_log]|].
  pose proof (conf_inv _ Hc) as Hi.
  destruct (inv_has _ Hi p s Hp) as [i Hb]; [auto|].
  destruct (inv_board _ Hi p s i Hp Hb) as (b & Hbi & _). rewrite Hb. wp_step.
  eapply wp_deref_board; [done|]. cbn beta iota.
  destruct (factory_create f _ _ ce) as [eff o]. do 4 wp_step.
  destruct o as [px| |e]; wp_step; [| |done].
  - eapply does_once, (as_update _ _ p s); [done..| |split; cbn; try done; by rewrite insert_insert_eq].
    split; try done.
  - eapply does_once, (as_update _ _ p s); [done..| |by split]. by split.
Qed.

Lemma on_proxy_event_conf p s q px ev w :
  conf w → w_heap w !! p = Some s → ses_proxies s ≠ [] →
  wp False (on_proxy_event p q px ev) (λ _, does None w) anyE w.
Proof using Type.
  intros Hc Hp Hne. unfold on_proxy_event. do 4 wp_step.
  destruct (proxy_handler _ px ev) as [[eff o]|]; [|wp_step; apply does_refl].
  do 2 wp_step. destruct o as [px'| |e]; [| |done].
  - wp_step. eapply does_once, (as_update _ _ p s); [done..| |by split]. split; naive_solver.
  - do 3 wp_step. eapply does_once, (as_update _ _ p s); [done..| |by split]. split; naive_solver.
Qed.

(** A world with no session: only the trace can change. *)
Lemma handle_conf w ev :
  conf w → enabled w ev → conforming w ev →
  wp False (handle ev) (λ _ w', ∃ w1, does (event_request w ev) w w1 ∧ core_eq w1 w') anyE w.
Proof using Type.
  intros Hc He Hcf.
  assert (∀ o (m : M unit), wp False m (λ _, does o w) anyE w →
    wp False m (λ _ w', ∃ w1, does o w w1 ∧ core_eq w1 w') anyE w) as Hlift.
  { intros o m Hm. eapply wp_mono; [exact Hm|]. intros [] w' Hr. by exists w'. }
  destruct ev as [ae|l fd cred ce|p r|p pid|p q ev|]; cbn [handle].
  - by apply Hlift, on_client_connecting_conf.
  - unfold on_socket_connecting. do 2 wp_step. destruct (w_listeners w !! l); [|done].
    case_decide; [done|]. destruct cred as [pid|]; [|by repeat wp_step].
    unfold find_session_by_ppid. do 3 wp_step. apply wp_find_ppid_conf.
    { intros q. apply (inv_dom _ (conf_inv _ Hc)). }
    intros [q|] Hq; [destruct (Hq q) as [s Hs]; [done|]; by eapply Hlift, new_socket_connection_conf|].
    wp_step. exists w. split; [apply does_refl|apply core_eq_log].
  - eapply Hlift, wp_weaken_E, on_data_from_client_conf; done.
  - destruct He as (s & cb & Hp & Hch). apply Hlift. cbn [event_request]. rewrite Hp. cbn [mbind option_bind].
    do 2 wp_step. rewrite Hch. by eapply wp_weaken_E, on_child_exit_conf.
  - destruct He as (s & px & Hp & Hin). apply Hlift. do 2 wp_step.
    destruct (list_find _ _) as [[j [q' px']]|]; [|wp_step; apply does_refl].
    eapply on_proxy_event_conf; [done..|]. intros Hn. rewrite Hn in Hin. by apply elem_of_nil in Hin.
  - unfold on_signal. wp_step. exists w. split; [apply does_refl|apply core_eq_log].
Qed.

Lemma conf_initial w : initial w → conf w.
Proof using Type.
  intros Hinit. pose proof Hinit as (Hh & Hs & Hq & _ & Hb). split; [split|].
  - by apply inv_initial.
  - intros i b p Hi Ho. rewrite Forall_lookup in Hb. rewrite (Hb i b Hi) in Ho. done.
  - rewrite Hq. constructor.
  - intros p s. by rewrite Hh, lookup_empty.
  - intros p s. by rewrite Hh, lookup_empty.
  - intros p s. rewrite Hq. by intros ?%elem_of_nil.
Qed.

Lemma reachable_conf w : reachable conforming w → conf w.
Proof using Type.
  induction 1 as [w Hw|w ev w' _ IH Hok [He Hh]]; [by apply conf_initial|].
  pose proof (handle_conf w ev IH He Hok) as Hwp. unfold wp in Hwp. rewrite Hh in Hwp.
  destruct Hwp as (w1 & [Hr _] & <-). by eapply conf_alloc_steps.
Qed.

(** A step of the loop is a sequence of allocation steps. *)
Lemma step_alloc w ev w' :
  conf w → conforming w ev → step w ev w' → ∃ w1, does (event_request w ev) w w1 ∧ core_eq w1 w'.
Proof using Type.
  intros Hc Hok [He Hh]. pose proof (handle_conf w ev Hc He Hok) as Hwp.
  unfold wp in Hwp. by rewrite Hh in Hwp.
Qed.

(** C3: with conforming clients no handler is ever undefined: from every
    reachable state, every enabled event of such a client leads to a state or
    to an exception, never to a dangling session or a null board. *)
Theorem conforming_no_undefined_behaviour w ev u :
  reachable conforming w → enabled w ev → conforming w ev → handle ev w ≠ Undef u.
Proof using Type.
  intros Hr He Hcf Hu. pose proof (handle_conf w ev (reachable_conf w Hr) He Hcf) as Hwp.
  unfold wp in Hwp. by rewrite Hu in Hwp.
Qed.

(** C10: with conforming clients the bookkeeping is exact: a board's owner is a
    living session that has this board (no board is leaked), the queue holds
    each waiting session once and nobody else, and the child process of a
    session is the board's command while it has the board and the close
    command while it is closing it. *)
Theorem conforming_bookkeeping w :
  reachable conforming w →
  (∀ i b p, w_boards w !! i = Some b → b_owner b = Some p →
     ∃ s, w_heap w !! p = Some s ∧ ses_board s = Some i) ∧
  NoDup (w_wait_queue w) ∧
  (∀ p s, w_heap w !! p = Some s →
     (p ∈ w_wait_queue w ↔ ses_status s = awaiting_board) ∧ shape s).
Proof using Type.
  intros [[H1 H2 H3 H4 H5] _]%reachable_conf. split_and!; try done.
  intros p s Hp. split; eauto.
Qed.

(** C4: no user waits in vain: in every state reachable with conforming
    clients, every board that a waiting user may have (unreserved, or reserved
    for that user) is owned by another living session. *)
Theorem no_waiting_with_free_board w p s i b :
  reachable conforming w → p ∈ w_wait_queue w → w_heap w !! p = Some s →
  w_boards w !! i = Some b → usable (get_username s) b →
  ∃ q t, b_owner b = Some q ∧ q ≠ p ∧ w_heap w !! q = Some t ∧ ses_board t = Some i.
Proof using Type.
  intros [[H1 H2 H3 H4 H5] Hw]%reachable_conf Hq Hp Hi Hu.
  pose proof (Hw p s Hq Hp) as Hn. rewrite find_available_board_None in Hn.
  specialize (Hn i b Hi Hu). destruct (b_owner b) as [q|] eqn:Ho; [|done].
  destruct (H2 i b q Hi Ho) as (t & Ht & Htb). exists q, t. split_and!; try done.
  intros ->. simplify_eq. apply (H4 p s Hp) in Hq. pose proof (H5 p s Hp) as Hsh.
  unfold shape in Hsh. rewrite Hq in Hsh. destruct Hsh. congruence.
Qed.

(** C5: a board with a close command is never handed over without it: an event
    of a conforming client leaves a session that uses such a board with that
    board, either still using it or with the close command running; the
    session does not go away in that step. *)
Theorem close_command_precedes_handover w ev w' p s i b :
  reachable conforming w → conforming w ev → step w ev w' →
  w_heap w !! p = Some s → ses_status s = has_board → ses_board s = Some i →
  w_boards w !! i = Some b → b_close_command b ≠ [] →
  ∃ s', w_heap w' !! p = Some s' ∧ ses_board s' = Some i ∧
    (ses_status s' = has_board ∨
     ses_status s' = closing_board ∧ ∃ pid, ses_child s' = Some (pid, OnCloseCommandExit)).
Proof using Type.
  intros Hr Hok Hst Hp Hs Hb Hi Hcc.
  destruct (step_alloc w ev w' (reachable_conf w Hr) Hok Hst) as (w1 & [_ Hu] & Hc).
  rewrite (ce_heap _ _ Hc). eapply Hu; [done|]. split_and!; try done. by exists b.
Qed.
End handlers.
