(* ===== verification/Pool.v ===== *)
(** * Pool: the abstract specification of the board allocator, and its refinement

    Seen from outside, the daemon manages a pool of boards, some of them
    reserved, and a queue of users. A user who asks gets the best free board or
    is queued; when a user leaves, the board is free again and goes to the first
    queued user who may have it. Each request has exactly one outcome, and an
    event of [Daemon.v] has the outcome of the request it makes. *)
From S2P Require Import Prelude Bytes Protocol Env Board SocketProxy WrProxy TcpProxy World Session.
From S2P Require Import Daemon Allocation Invariant Conforming.

Local Open Scope Z_scope.

(** ** The specification *)
Record pool := mk_pool {
  pool_boards : list (bytes * option ptr);      (* reserved for, holder *)
  pool_queue : list (ptr * bytes);              (* waiting sessions with their users *)
}.

Definition free_for (u : bytes) (st : pool) (i : nat) : Prop :=
  ∃ r, pool_boards st !! i = Some (r, None) ∧ (r = [] ∨ r = u).

(** The board a user gets: one reserved for the user before an unreserved one,
    then the first of the configuration. *)
Definition best_for (u : bytes) (st : pool) (i : nat) : Prop :=
  ∃ r, pool_boards st !! i = Some (r, None) ∧ (r = [] ∨ r = u) ∧
    (r = [] → u ≠ [] → ∀ j, pool_boards st !! j ≠ Some (u, None)) ∧
    (∀ j, pool_boards st !! j = Some (r, None) → (i ≤ j)%nat).

Definition nothing_for (u : bytes) (st : pool) : Prop := ∀ i, ¬ free_for u st i.

Definition give (p : ptr) (i : nat) (st : pool) : pool :=
  mk_pool (alter (λ x, (x.1, Some p)) i (pool_boards st)) (pool_queue st).

Definition forget (p : ptr) (st : pool) : pool :=
  mk_pool ((λ x, (x.1, if decide (x.2 = Some p) then None else x.2)) <$> pool_boards st)
    (filter (λ x, x.1 ≠ p) (pool_queue st)).

Definition unqueue (p : ptr) (st : pool) : pool :=
  mk_pool (pool_boards st) (filter (λ x, x.1 ≠ p) (pool_queue st)).

(** The requests and what they do to the pool. A request says who asks or leaves:
    the session, and its user, whom the board must be for. *)
Inductive pool_step : request → pool → pool → Prop :=
| ask_granted wait st p u i : best_for u st i → pool_step (Ask wait p u) st (give p i st)
| ask_queued st p u :
    nothing_for u st →
    pool_step (Ask true p u) st (mk_pool (pool_boards st) (pool_queue st ++ [(p, u)]))
| ask_refused st p u : nothing_for u st → pool_step (Ask false p u) st st
| leave_nobody st p :
    Forall (λ x, nothing_for x.2 (forget p st)) (pool_queue (forget p st)) →
    pool_step (Leave p) st (forget p st)
| leave_handover st p q1 q u q2 i :
    pool_queue (forget p st) = q1 ++ (q, u) :: q2 →
    Forall (λ x, nothing_for x.2 (forget p st)) q1 →
    best_for u (forget p st) i →
    pool_step (Leave p) st (give q i (unqueue q (forget p st))).

(** The specification leaves no choice: a request has one outcome. *)
Lemma best_for_unique u st i j : best_for u st i → best_for u st j → i = j.
Proof.
  intros (r & Hi & Hr & Hres & Hmin) (r' & Hj & Hr' & Hres' & Hmin').
  assert (r = r') as <-.
  { destruct Hr as [->| ->], Hr' as [->| ->]; try done; destruct (decide (u = [])) as [->|Hne]; try done; exfalso.
    - by eapply Hres.
    - by eapply Hres'. }
  apply Hmin in Hj. apply Hmin' in Hi. lia.
Qed.

Lemma best_for_something u st i : best_for u st i → ¬ nothing_for u st.
Proof. intros (r & Hi & Hr & _) Hn. apply (Hn i). by exists r. Qed.

(** The first of a list for whom there is something. *)
Lemma first_served_unique st (q1 q1' q2 q2' : list (ptr * bytes)) x x' :
  q1 ++ x :: q2 = q1' ++ x' :: q2' →
  Forall (λ y : ptr * bytes, nothing_for y.2 st) q1 → Forall (λ y : ptr * bytes, nothing_for y.2 st) q1' →
  ¬ nothing_for x.2 st → ¬ nothing_for x'.2 st → x = x'.
Proof.
  intros Heq H1. revert q1' Heq. induction H1 as [|y q1 Hy _ IH]; intros [|y' q1'] Heq H2 Hx Hx';
    simplify_eq/=; [done|by inversion H2|done|].
  apply Forall_cons in H2 as [_ H2]. by eapply IH.
Qed.

Lemma nobody_served st q1 q2 x :
  Forall (λ y : ptr * bytes, nothing_for y.2 st) (q1 ++ x :: q2) → nothing_for x.2 st.
Proof. by intros [_ [Hx _]%Forall_cons]%Forall_app. Qed.

Lemma pool_step_deterministic r st st1 st2 : pool_step r st st1 → pool_step r st st2 → st1 = st2.
Proof.
  intros H1 H2. pose proof best_for_something as Hsome.
  destruct H1 as [wait st p u i Hb|st p u Hn|st p u Hn|st p Hq|st p q1 q u q2 i Hq Hn Hb];
    inversion H2 as [????? Hb'|??? Hn'|??? Hn'|?? Hq'|?? q1' q' u' q2' i' Hq' Hn' Hb']; subst; try done;
    try by destruct (Hsome _ _ _ Hb).
  - by rewrite (best_for_unique u st i i0).
  - by destruct (Hsome _ _ _ Hb').
  - by destruct (Hsome _ _ _ Hb').
  - rewrite Hq' in Hq. apply nobody_served in Hq. by destruct (Hsome _ _ _ Hb').
  - rewrite Hq in Hq'. apply nobody_served in Hq'. by destruct (Hsome _ _ _ Hb).
  - rewrite Hq in Hq'. assert ((q, u) = (q', u')) as [= <- <-] by (eapply (first_served_unique _ q1 q1'); eauto).
    by rewrite (best_for_unique u _ _ _ Hb Hb').
Qed.

(** ** The daemon's state as a pool *)
Definition user_of (w : world) (p : ptr) : bytes := from_option get_username [] (w_heap w !! p).

Definition pool_of (w : world) : pool :=
  mk_pool ((λ b, (b_reserved_for b, b_owner b)) <$> w_boards w)
    ((λ p, (p, user_of w p)) <$> w_wait_queue w).

(** ** Refinement *)
Lemma pool_of_core w w' : core_eq w w' → pool_of w' = pool_of w.
Proof. intros [Hb Hh _ Hq _ _]. unfold pool_of, user_of. by rewrite Hb, Hh, Hq. Qed.

Lemma pool_lookup w i r o :
  pool_boards (pool_of w) !! i = Some (r, o) ↔
  ∃ b, w_boards w !! i = Some b ∧ b_reserved_for b = r ∧ b_owner b = o.
Proof.
  cbn. rewrite list_lookup_fmap, fmap_Some. split; [intros (b & ? & ?); simplify_eq; eauto | naive_solver].
Qed.

Lemma best_for_find u w i :
  find_available_board u (w_boards w) = Some i → best_for u (pool_of w) i.
Proof.
  intros Hf. pose proof (find_available_board_spec u (w_boards w)) as Hp. rewrite Hf in Hp.
  destruct Hp as (b & Hb & Ho & Hu & Hres & Hmin). exists (b_reserved_for b).
  rewrite pool_lookup. split_and!; [by exists b|done| |].
  - intros Hr Hne j (b' & Hb' & Hr' & Ho')%pool_lookup. by eapply Hres.
  - intros j (b' & Hb' & Hr' & Ho')%pool_lookup. by eapply Hmin.
Qed.

Lemma nothing_for_find u w :
  find_available_board u (w_boards w) = None → nothing_for u (pool_of w).
Proof.
  rewrite find_available_board_None. intros Hn i (r & Hr & Hu).
  apply pool_lookup in Hr as (b & Hb & <- & Ho). by eapply Hn.
Qed.

Section refinement.
Context `{Env}.

Lemma user_of_lookup w p s : w_heap w !! p = Some s → user_of w p = get_username s.
Proof using Type. intros Hp. unfold user_of. by rewrite Hp. Qed.

(** Users in the queue are not affected by changes to other sessions. *)
Lemma queue_users w (h : gmap ptr Session) (l : list ptr) :
  (∀ p, p ∈ l → h !! p = w_heap w !! p ∨ ∃ s s', w_heap w !! p = Some s ∧ h !! p = Some s' ∧
     get_username s' = get_username s) →
  (λ p, (p, from_option get_username [] (h !! p))) <$> l = (λ p, (p, user_of w p)) <$> l.
Proof using Type.
  intros Hl. apply list_fmap_ext. intros i p Hi. unfold user_of. f_equal.
  destruct (Hl p) as [->|(s & s' & -> & -> & Hu)]; [by eapply list_elem_of_lookup_2|done|done].
Qed.

Lemma alter_owner_fmap (f : Board → Board) (g : bytes * option ptr → bytes * option ptr) i (l : list Board) :
  (∀ b, (b_reserved_for (f b), b_owner (f b)) = g (b_reserved_for b, b_owner b)) →
  (λ b, (b_reserved_for b, b_owner b)) <$> alter f i l = alter g i ((λ b, (b_reserved_for b, b_owner b)) <$> l).
Proof using Type.
  intros Hg. apply list_eq. intros j. rewrite list_lookup_fmap, !list_lookup_alter, !list_lookup_fmap.
  case_decide; [subst; destruct (l !! j) as [b|]; cbn; [f_equal; apply (Hg b)|done]|done].
Qed.

Lemma pool_of_granted w p s' i :
  p ∉ w_wait_queue w → pool_of (granted p s' i w) = give p i (pool_of w).
Proof using Type.
  intros Hq. unfold pool_of, give, granted, user_of. cbn. f_equal.
  - by apply alter_owner_fmap.
  - apply queue_users. intros q Hin. left. rewrite lookup_insert_ne; [done|]. by intros ->.
Qed.

Lemma filter_queue (f : ptr → bytes) (q : ptr) (l : list ptr) :
  filter (λ x : ptr * bytes, x.1 ≠ q) ((λ p, (p, f p)) <$> l) = (λ p, (p, f p)) <$> filter (λ p, p ≠ q) l.
Proof using Type.
  induction l as [|x l IH]; [done|]. rewrite fmap_cons, !filter_cons. cbn [fst].
  case_decide; [|done]. by rewrite fmap_cons, IH.
Qed.

Lemma removed_board w p s j :
  w_boards (removed p s w) !! j =
    if decide (ses_board s = Some j) then release <$> w_boards w !! j else w_boards w !! j.
Proof using Type.
  unfold removed. cbn. destruct (ses_board s) as [k|]; [|by rewrite decide_False].
  rewrite list_lookup_alter. repeat case_decide; congruence.
Qed.

Lemma pool_of_removed w p s :
  conf w → w_heap w !! p = Some s → pool_of (removed p s w) = forget p (pool_of w).
Proof using Type.
  intros [[H1 H2 H3 H4 H5] _] Hp. unfold pool_of, forget. cbn [pool_boards pool_queue]. f_equal.
  - apply list_eq. intros j. rewrite !list_lookup_fmap, removed_board.
    destruct (w_boards w !! j) as [b|] eqn:Hj; [|by case_decide].
    assert (b_owner b = Some p ↔ ses_board s = Some j) as Ho.
    { split.
      - intros Ho. destruct (H2 j b p Hj Ho) as (t & Ht & Htb). by simplify_eq.
      - intros Hb. destruct (inv_board _ H1 p s j Hp Hb) as (b' & ? & ?). by simplify_eq. }
    cbn. case_decide as Hk; cbn; [rewrite decide_True by (by apply Ho)|rewrite decide_False by (by rewrite Ho)]; done.
  - rewrite filter_queue. apply list_fmap_ext. intros k q Hq. f_equal. unfold user_of. cbn.
    apply list_elem_of_lookup_2, list_elem_of_filter in Hq as [Hne _]. by rewrite lookup_delete_ne.
Qed.

Lemma pool_of_unqueue w q t' i :
  pool_of (granted q t' i (set_queue (filter (λ x, x ≠ q) (w_wait_queue w)) w))
    = give q i (unqueue q (pool_of w)).
Proof using Type.
  rewrite pool_of_granted by (cbn; rewrite list_elem_of_filter; naive_solver).
  f_equal. unfold pool_of, unqueue. cbn [pool_boards pool_queue]. by rewrite filter_queue.
Qed.

(** A session that leaves hands its board to the first user in the queue that it is for. *)
Lemma leave_refines w w' p s :
  conf w → w_heap w !! p = Some s → grant_result (removed p s w) w' →
  pool_step (Leave p) (pool_of w) (pool_of w').
Proof using Type.
  intros Hconf Hp Hg. set (w1 := removed p s w) in *. assert (pool_of w1 = forget p (pool_of w)) as Hw1 by (by apply pool_of_removed).
  pose proof (exact_removed w p s (proj1 Hconf) Hp) as [I1 _ _ _ _]. fold w1 in I1.
  assert (∀ l, (∀ x, x ∈ l → x ∈ w_wait_queue w1) → none_for w1 l →
    Forall (λ x, nothing_for x.2 (forget p (pool_of w))) ((λ p, (p, user_of w1 p)) <$> l)) as Hnone.
  { intros l Hl Hn. apply Forall_fmap, Forall_forall. intros x Hx. cbn.
    destruct (inv_queue _ I1 x (Hl x Hx)) as [t Ht]. rewrite (user_of_lookup _ _ _ Ht), <- Hw1.
    apply nothing_for_find. by eapply Hn. }
  destruct Hg as [[Hn Hcore]|(q1 & q & q2 & t & t' & i & Hq & Hn & Ht & Hf & Ha & Hcore)].
  + rewrite (pool_of_core _ _ Hcore), Hw1. apply leave_nobody.
    replace (pool_queue (forget p (pool_of w))) with ((λ p, (p, user_of w1 p)) <$> w_wait_queue w1)
      by (by rewrite <- Hw1).
    apply Hnone; [done|exact Hn].
  + rewrite (pool_of_core _ _ Hcore), pool_of_unqueue, Hw1.
    eapply (leave_handover _ p ((λ p, (p, user_of w1 p)) <$> q1) q (get_username t)
      ((λ p, (p, user_of w1 p)) <$> q2)).
    * rewrite <- Hw1. cbn [pool_queue pool_of]. rewrite Hq, fmap_app. cbn.
      by rewrite (user_of_lookup _ _ _ Ht).
    * apply Hnone; [|done]. rewrite Hq. set_solver.
    * rewrite <- Hw1. by apply best_for_find.
Qed.

(** What a request, or no request, does to the pool. *)
Definition pool_does (o : option request) (st st' : pool) : Prop :=
  match o with
  | Some r => pool_step r st st'
  | None => st' = st
  end.

Lemma pool_of_update w p s s' :
  inv w → w_heap w !! p = Some s → p ∉ w_wait_queue w ∨ get_username s' = get_username s →
  pool_of (set_heap (<[p := s']> (w_heap w)) w) = pool_of w.
Proof using Type.
  intros Hi Hp Hor. unfold pool_of, user_of. cbn. f_equal. apply queue_users. intros q Hq.
  rewrite lookup_insert. case_decide; [|by left]. subst. destruct Hor as [?|?]; [done|]. right. by exists s, s'.
Qed.

(** A session that has asked for nothing yet is not in the pool. *)
Lemma forget_created w p s :
  conf w → w_heap w !! p = Some s → ses_status s = created → pool_of (removed p s w) = pool_of w.
Proof using Type.
  intros [[H1 H2 H3 H4 H5] _] Hp Hs. pose proof (H5 p s Hp) as Hsh. unfold shape in Hsh. rewrite Hs in Hsh.
  destruct Hsh as (Hb & _). assert (p ∉ w_wait_queue w) as Hnq by (rewrite (H4 p s Hp), Hs; done).
  unfold pool_of, removed, user_of. rewrite Hb. cbn. f_equal.
  rewrite filter_id by (apply Forall_forall; by intros q Hq ->).
  apply queue_users. intros q Hq. left. rewrite lookup_delete_ne; [done|]. by intros ->.
Qed.

Lemma alloc_step_refines w w' o : conf w → alloc_step w w' o → pool_does o (pool_of w) (pool_of w').
Proof using Type.
  intros Hconf. pose proof Hconf as [[H1 H2 H3 H4 H5] Hw].
  intros [p s Hf Hs Hcore|p s s' Hp Hsp Hcore|wait p s s' Hp Hs Hs' Hb' Hc' Hp' Hwait Ha|p s u Hp Hs Hn Hcore
         |p s s' i b Hp Hs Hb Hbi Hcc Hcl Hcore|p s Hp Hcc Hg]; cbn.
  - rewrite (pool_of_core _ _ Hcore). unfold pool_of, connected, user_of. cbn. f_equal.
    apply queue_users. intros q Hq. left. rewrite lookup_insert_ne; [done|].
    intros ->. destruct (inv_queue _ H1 q Hq). congruence.
  - rewrite (pool_of_core _ _ Hcore). eapply pool_of_update; [done..|right; apply Hsp].
  - unfold assign_result in Ha. set (w1 := set_heap _ w) in Ha.
    assert (p ∉ w_wait_queue w) as Hnq by (rewrite (H4 p s Hp), Hs; done).
    assert (pool_of w1 = pool_of w) as Hw1 by (eapply pool_of_update; [done..|by left]).
    change (w_boards w1) with (w_boards w) in Ha.
    destruct (find_available_board _ _) as [i|] eqn:Ef.
    + destruct Ha as (t & _ & Hcore). rewrite (pool_of_core _ _ Hcore), pool_of_granted by done.
      rewrite Hw1. eapply ask_granted. by apply best_for_find.
    + destruct wait; [|by destruct Hwait]. rewrite (pool_of_core _ _ Ha).
      assert (pool_of (set_queue (w_wait_queue w1 ++ [p]) w1)
        = mk_pool (pool_boards (pool_of w1)) (pool_queue (pool_of w1) ++ [(p, get_username s')])) as ->.
      { unfold pool_of, user_of. cbn. rewrite fmap_app. cbn. rewrite lookup_insert_eq. done. }
      rewrite Hw1. apply ask_queued. by apply nothing_for_find.
  - rewrite (pool_of_core _ _ Hcore), (forget_created w p s) by done. by apply ask_refused, nothing_for_find.
  - rewrite (pool_of_core _ _ Hcore). eapply pool_of_update; [done..|]. left. rewrite (H4 p s Hp), Hs. done.
  - by eapply leave_refines.
Qed.

Lemma alloc_steps_refine o w w' : conf w → alloc_steps o w w' → pool_does o (pool_of w) (pool_of w').
Proof using Type.
  intros Hc Hs. revert Hc. induction Hs as [w|o w w1 w2 H1 _ IH|r w w1 w2 H1 _ IH]; intros Hc; [done|..];
    pose proof (conf_alloc_step _ _ _ Hc H1) as Hc1; apply alloc_step_refines in H1; try done; cbn in *.
  - rewrite <- H1. by apply IH.
  - by rewrite IH.
Qed.

(** C2: the daemon implements the pool: what an event of a conforming client does
    to the boards and the queue in a reachable state is what the specification
    prescribes, without choice, for the one request the event makes ([Ask] with
    the session and the user of a setup message, [Leave] with the session that
    ends), and nothing when the event makes none. *)
Theorem daemon_refines_pool w ev w' :
  reachable conforming w → conforming w ev → step w ev w' →
  match event_request w ev with
  | Some r => ∀ st, pool_step r (pool_of w) st ↔ st = pool_of w'
  | None => pool_of w' = pool_of w
  end.
Proof using Type.
  intros Hr Hok Hst. pose proof (reachable_conf w Hr) as Hconf.
  destruct (step_alloc w ev w' Hconf Hok Hst) as (w1 & [Hs _] & Hc).
  apply alloc_steps_refine in Hs; [|done]. rewrite (pool_of_core _ _ Hc).
  destruct (event_request w ev) as [r|]; [|done]. intros st. split; [|by intros ->].
  intros Hp. by eapply pool_step_deterministic.
Qed.
End refinement.
