(* ===== verification/Demo.v ===== *)
(** * Demo: the daemon run on concrete events

    [run] executes a list of events and checks that each of them may occur. The
    theorems about reachable states are instantiated at such runs, and the
    behaviours that only clients outside the protocol can cause are shown by
    them. *)
From S2P Require Import Prelude Bytes Protocol Env Board SocketProxy WrProxy TcpProxy World Session Daemon.
From S2P Require Import Allocation Invariant Conforming Pool.

Local Open Scope Z_scope.

(** ** Running a list of events *)
Section run.
Context `{Env}.

Definition enabledb (w : world) (ev : event) : bool :=
  match ev with
  | EvClientConnecting ae => bool_decide (w_heap w !! ae_ptr ae = None)
  | EvSocketConnecting l _ _ ce =>
    bool_decide (l < length (w_listeners w))%nat &&
    bool_decide (map_Forall (λ _ s, ce_ptr ce ∉ (ses_proxies s).*1) (w_heap w))
  | EvClientData this _ => if w_heap w !! this is Some s then ses_client_active s else false
  | EvChildExit this pid =>
    if w_heap w !! this is Some s then
      if ses_child s is Some (pid', _) then bool_decide (pid' = pid) else false
    else false
  | EvProxy this q _ =>
    if w_heap w !! this is Some s then bool_decide (q ∈ (ses_proxies s).*1) else false
  | EvSignal => true
  end.

Lemma enabledb_sound w ev : enabledb w ev = true → enabled w ev.
Proof using Type.
  destruct ev as [ae|l fd cred ce|this r|this pid|this q e|]; cbn.
  - apply bool_decide_eq_true.
  - intros [H1%bool_decide_eq_true H2%bool_decide_eq_true]%andb_true_iff. done.
  - destruct (w_heap w !! this) as [s|]; [eauto|done].
  - destruct (w_heap w !! this) as [s|]; [|done]. destruct (ses_child s) as [[pid' cb]|] eqn:Hc; [|done].
    intros <-%bool_decide_eq_true. eauto.
  - destruct (w_heap w !! this) as [s|]; [|done].
    intros ([q' p] & -> & Hin)%bool_decide_eq_true%list_elem_of_fmap. eauto.
  - done.
Qed.

(** Run the events from [w]; [None] when one is not enabled, is not [ok], or
    its handler does not return. *)
Fixpoint run (ok : world → event → bool) (evs : list event) (w : world) : option world :=
  match evs with
  | [] => Some w
  | ev :: evs =>
    if enabledb w ev && ok w ev then
      match handle ev w with
      | Ok _ w' => run ok evs w'
      | Throw _ _ | Undef _ => None
      end
    else None
  end.

Lemma run_reachable (ok : world → event → bool) (P : world → event → Prop) evs w w' :
  (∀ w ev, ok w ev = true → P w ev) → reachable P w → run ok evs w = Some w' → reachable P w'.
Proof using Type.
  intros Hok. revert w. induction evs as [|ev evs IH]; cbn; intros w Hr Hrun; [by simplify_eq|].
  destruct (enabledb w ev && ok w ev) eqn:Hb; [|done].
  apply andb_true_iff in Hb as [He%enabledb_sound Ho].
  destruct (handle ev w) as [[] w1| |] eqn:Hh; [|done..].
  eapply IH; [|done]. eapply reachable_step; [done|by apply Hok|by split].
Qed.

Definition any (w : world) (ev : event) : bool := true.
End run.

(** ** Boards, clients and runs *)
Definition demo_start (bds : list Board) (systemd : bool) : world :=
  mk_world bds ∅ [] [] systemd [WrProxyFactory (bs "wrproxy"); TcpProxyFactory (bs "gdb") 3333] 0 0 0 [].

Lemma demo_initial bds systemd :
  Forall (λ b, b_owner b = None) bds → @initial (demo_start bds systemd).
Proof. done. Qed.

Definition board_a : Board := Board_new (bs "a") (bs "novaboot") (bs "192.168.1.5") (bs "poweroff") [].
Definition board_b : Board := Board_new (bs "b") (bs "novaboot") (bs "192.168.1.6") [] (bs "alice").

(** A client that connects, and its setup message. *)
Definition demo_accept (p : ptr) (fd : Z) (user : bytes) : event :=
  EvClientConnecting (mk_accept fd (Some (PwdName user)) p 0 [] 0).
Definition demo_rights (fd : Z) : list cmsg := [mk_cmsg SOL_SOCKET SCM_RIGHTS (fd, fd + 1, fd + 2)].
Definition demo_setup (p : ptr) (cmd : command) (ppid : Z) (no_wait : bool) (fd : Z) : event :=
  EvClientData p (RecvMsg (setup_msg cmd ppid [] no_wait []) 32 (demo_rights fd)).
Definition demo_eof (p : ptr) : event := EvClientData p (RecvMsg [] 0 []).

(** The state after a run, and whether it went through to the end. *)
Definition demo_world (ok : world → event → bool) (bds : list Board) (systemd : bool) (evs : list event) : world :=
  default (demo_start bds systemd) (@run demo_env ok evs (demo_start bds systemd)).

Lemma demo_reachable (ok : world → event → bool) (P : world → event → Prop) bds systemd evs :
  (∀ w ev, ok w ev = true → P w ev) → bool_decide (Forall (λ b, b_owner b = None) bds) = true →
  @reachable demo_env P (demo_world ok bds systemd evs).
Proof.
  intros Hok Hb%bool_decide_eq_true. unfold demo_world.
  assert (@reachable demo_env P (demo_start bds systemd)) as Hs
    by (apply reachable_init, demo_initial; done).
  destruct (run ok evs _) as [w|] eqn:Hr; [|done]. by eapply run_reachable.
Qed.

(** Messages that are as [Client::send_setup] sends them. *)
Definition conformingb (w : world) (ev : event) : bool :=
  match ev with
  | EvClientData p (RecvMsg data ctl l) =>
    bool_decide (data = []) ||
    (bool_decide (data = setup_msg (default connect (command_of_code (s_cmd data))) (s_ppid data)
       (default [] (s_username data)) (s_no_wait data) (drop 49 data)) &&
     bool_decide (sizeof_myfds ≤ ctl) && bool_decide (is_Some (find_rights ctl l)) &&
     (if w_heap w !! p is Some s then bool_decide (ses_status s = created) else false))
  | _ => true
  end.

Lemma conformingb_sound w ev : conformingb w ev = true → conforming w ev.
Proof.
  destruct ev as [| |p [|data ctl l]| | |]; cbn; try done.
  rewrite orb_true_iff, !andb_true_iff, !bool_decide_eq_true.
  intros [->|[[[Hd Hc] Hr] Hs]]; [by left|right]. destruct (w_heap w !! p) as [s|]; [|done].
  apply bool_decide_eq_true in Hs. split; [|eauto]. split; [|done]. do 5 eexists; exact Hd.
Qed.

(** Alice gets the board reserved for her, Bob the other one; Carol waits; a
    process of Bob's shell opens a Workbench connection. *)
Definition demo_sessions : list event :=
  [demo_accept 1 10 (bs "alice"); demo_setup 1 connect 1001 false 20;
   demo_accept 2 11 (bs "bob"); demo_setup 2 connect 1002 false 30;
   demo_accept 3 12 (bs "carol"); demo_setup 3 connect 1003 false 40;
   EvSocketConnecting 0 13 (Some 1002) (mk_create 50 14 ConnOk (mk_so 0 0 []) [])].

(** Bob's process ends, then the close command of his board; Carol gets it. *)
Definition demo_closing : list event := demo_sessions ++ [EvChildExit 2 101].
Definition demo_handover : list event := demo_closing ++ [EvChildExit 2 102].

Definition demo (evs : list event) : world := demo_world conformingb [board_a; board_b] true evs.

Lemma demo_conforming evs : @reachable demo_env conforming (demo evs).
Proof. apply demo_reachable; [apply conformingb_sound|done]. Qed.

Lemma demo_any evs : @reachable demo_env (λ _ _, True) (demo evs).
Proof. apply demo_reachable; done. Qed.

(** The run above goes through, and ends with Carol on Bob's board. *)
Example demo_runs :
  (@run demo_env conformingb demo_handover (demo_start [board_a; board_b] true) ≠ None) ∧
  (b_owner <$> w_boards (demo demo_closing)) = [Some 2%N; Some 1%N] ∧
  w_wait_queue (demo demo_closing) = [3%N] ∧
  (b_owner <$> w_boards (demo demo_handover)) = [Some 3%N; Some 1%N] ∧
  w_wait_queue (demo demo_handover) = [].
Proof. vm_compute. by split_and!. Qed.

(** ** The theorems about reachable states at these runs *)
Definition session_at (w : world) (p : ptr) : Session :=
  default (Session_new 0 0 [] 0 0 [] 0) (w_heap w !! p).
Definition board_at (w : world) (i : nat) : Board :=
  default (Board_new [] [] [] [] []) (w_boards w !! i).

Ltac by_run := vm_compute; reflexivity.

Lemma boards_exclusive_witness :
  2%N = 2%N ∧ ∃ b, w_boards (demo demo_sessions) !! 0%nat = Some b ∧ b_owner b = Some 2%N.
Proof.
  apply (@boards_exclusive demo_env (demo demo_sessions) 2 2 (session_at (demo demo_sessions) 2)
    (session_at (demo demo_sessions) 2) 0); [apply demo_any|by_run..].
Defined.

Lemma lists_never_dangle_witness :
  Forall (λ p, is_Some (w_heap (demo demo_sessions) !! p)) (w_wait_queue (demo demo_sessions)) ∧
  w_wait_queue (demo demo_sessions) = [3%N].
Proof.
  split; [|by_run]. apply (@lists_never_dangle demo_env (demo demo_sessions)), demo_any.
Defined.

Lemma proxies_have_board_witness :
  ∃ i b, ses_board (session_at (demo demo_sessions) 2) = Some i ∧
    w_boards (demo demo_sessions) !! i = Some b ∧ b_owner b = Some 2%N.
Proof.
  apply (@proxies_have_board demo_env (demo demo_sessions) 2 (session_at (demo demo_sessions) 2));
    [apply demo_any|by_run|]. left. vm_compute. discriminate.
Defined.

Lemma conforming_no_undefined_behaviour_witness :
  @enabled (demo demo_closing) (EvChildExit 2 102) ∧
  @handle demo_env (EvChildExit 2 102) (demo demo_closing) ≠ Undef (UseAfterFree 2).
Proof.
  assert (@enabled (demo demo_closing) (EvChildExit 2 102)) as He by (apply enabledb_sound; by_run).
  split; [exact He|].
  apply (@conforming_no_undefined_behaviour demo_env (demo demo_closing) (EvChildExit 2 102) (UseAfterFree 2));
    [apply demo_conforming|exact He|exact I].
Defined.

Lemma conforming_bookkeeping_witness :
  (3%N ∈ w_wait_queue (demo demo_sessions) ↔ ses_status (session_at (demo demo_sessions) 3) = awaiting_board) ∧
  shape (session_at (demo demo_sessions) 3).
Proof.
  apply (@conforming_bookkeeping demo_env (demo demo_sessions)); [apply demo_conforming|by_run].
Defined.

Lemma no_waiting_with_free_board_witness :
  ∃ q t, b_owner (board_at (demo demo_sessions) 0) = Some q ∧ q ≠ 3%N ∧
    w_heap (demo demo_sessions) !! q = Some t ∧ ses_board t = Some 0%nat.
Proof.
  apply (@no_waiting_with_free_board demo_env (demo demo_sessions) 3 (session_at (demo demo_sessions) 3) 0
    (board_at (demo demo_sessions) 0)); [apply demo_conforming| |by_run|by_run|].
  - apply (bool_decide_unpack _). vm_compute. exact I.
  - left. by_run.
Defined.

Lemma close_command_precedes_handover_witness :
  let w' := match @handle demo_env (EvChildExit 2 101) (demo demo_sessions) with Ok _ w => w | _ => demo [] end in
  ∃ s', w_heap w' !! 2%N = Some s' ∧ ses_board s' = Some 0%nat ∧
    (ses_status s' = has_board ∨
     ses_status s' = closing_board ∧ ∃ pid, ses_child s' = Some (pid, OnCloseCommandExit)).
Proof.
  apply (@close_command_precedes_handover demo_env (demo demo_sessions) (EvChildExit 2 101) _ 2
    (session_at (demo demo_sessions) 2) 0 (board_at (demo demo_sessions) 0));
    [apply demo_conforming|exact I| |by_run..|vm_compute; discriminate].
  split; [apply enabledb_sound; by_run|by_run].
Defined.

Lemma daemon_refines_pool_witness :
  event_request (demo demo_closing) (EvChildExit 2 102) = Some (Leave 2) ∧
  ∀ st, pool_step (Leave 2) (pool_of (demo demo_closing)) st ↔ st = pool_of (demo demo_handover).
Proof.
  assert (event_request (demo demo_closing) (EvChildExit 2 102) = Some (Leave 2)) as Hreq by by_run.
  split; [exact Hreq|].
  pose proof (@daemon_refines_pool demo_env (demo demo_closing) (EvChildExit 2 102) (demo demo_handover)
    (demo_conforming demo_closing) I) as Hpool.
  rewrite Hreq in Hpool. apply Hpool. split; [apply enabledb_sound; by_run|by_run].
Defined.

(** The requests of some events: a setup message that asks for a board, one that
    asks for the list of sessions, the exit of a board with a close command. *)
Example demo_requests :
  event_request (demo (take 1 demo_sessions)) (demo_setup 1 connect 1001 false 20) = Some (Ask true 1 (bs "alice")) ∧
  event_request (demo (take 1 demo_sessions)) (demo_setup 1 list_sessions 1001 false 20) = Some (Leave 1) ∧
  event_request (demo demo_sessions) (EvChildExit 2 101) = None.
Proof. vm_compute. by split_and!. Qed.
