(* ===== verification/Lifecycle.v ===== *)
(** * Lifecycle: sessions from connection to exit

    When the socket-activated daemon leaves its loop, which session a proxy
    connection is attached to, and what happens on the two paths where the
    closing of a session does not go as intended. *)
From S2P Require Import Prelude Bytes Protocol Env Stream Board SocketProxy WrProxy TcpProxy World Session.
From S2P Require Import Daemon Allocation Invariant Conforming Pool Demo.

Local Open Scope Z_scope.

(** ** Leaving the loop *)
Section idle.
Context `{Env}.

Abbreviation anyE := (λ (_ : exn) (_ : world), True).

(** A part of a handler that neither breaks the loop nor touches the sessions. *)
Definition quiet (w w' : world) : Prop :=
  w_systemd w' = w_systemd w ∧ w_sessions w' = w_sessions w ∧
  ∃ e, w_trace w' = w_trace w ++ e ∧ EBreakLoop ∉ e.

(** The loop is broken exactly when the last session goes. *)
Definition breaks_idle (w w' : world) : Prop :=
  w_systemd w' = w_systemd w ∧ (w_sessions w = [] → w_sessions w' = []) ∧
  ∃ e, w_trace w' = w_trace w ++ e ∧
    (EBreakLoop ∈ e → w_systemd w = true ∧ w_sessions w' = []) ∧
    (w_systemd w = true → w_sessions w ≠ [] → w_sessions w' = [] → EBreakLoop ∈ e).

#[global] Instance quiet_preorder : PreOrder quiet.
Proof using Type.
  split.
  - intros w. split_and!; [done..|]. exists []. rewrite app_nil_r. set_solver.
  - intros w1 w2 w3 (H1 & H2 & e & He & Hn) (H3 & H4 & e' & He' & Hn').
    split_and!; [congruence..|]. exists (e ++ e'). rewrite He', He, app_assoc. set_solver.
Qed.

#[global] Instance breaks_idle_preorder : PreOrder breaks_idle.
Proof using Type.
  split.
  - intros w. split_and!; [done..|]. exists []. rewrite app_nil_r. split_and!; [done|set_solver..].
  - intros w1 w2 w3 (H1 & H2 & e & He & Hn1 & Hn2) (H3 & H4 & e' & He' & Hn1' & Hn2').
    split_and!; [congruence|auto|]. exists (e ++ e'). rewrite He', He, app_assoc. split_and!; [done|..].
    + rewrite elem_of_app, <- H1. intros [Hb|Hb]; [|auto]. rewrite H1. destruct (Hn1 Hb). auto.
    + rewrite elem_of_app. intros Hs Hne Hemp.
      destruct (decide (w_sessions w2 = [])) as [?|?]; [left|right]; [auto|].
      apply Hn2'; [congruence|done..].
Qed.

Lemma quiet_breaks_idle w w' : quiet w w' → breaks_idle w w'.
Proof using Type.
  intros (H1 & H2 & e & He & Hn). split_and!; [done|congruence|]. exists e. split_and!; [done..|].
  intros _ Hne Hemp. congruence.
Qed.

(** Computations whose runs are related by a preorder. *)
Definition runs {A} (R : world → world → Prop) (m : M A) : Prop :=
  ∀ w, wp True m (λ _ w', R w w') anyE w.

Lemma runs_bind {A B} R `{!PreOrder R} (m : M A) (k : A → M B) :
  runs R m → (∀ a, runs R (k a)) → runs R (m ≫= k).
Proof using Type.
  intros Hm Hk w. apply wp_bind. eapply wp_mono; [apply Hm|]. intros a w' Hw. cbn beta.
  eapply wp_mono; [apply Hk|]. intros b w'' Hw'. cbn beta. etransitivity; [exact Hw|exact Hw'].
Qed.

Lemma runs_weaken {A} (R R' : world → world → Prop) (m : M A) :
  (∀ w w', R w w' → R' w w') → runs R m → runs R' m.
Proof using Type. intros HR Hm w. eapply wp_mono; [apply Hm|]. intros a w1 H1. by apply HR. Qed.

Lemma runs_ret {A} R `{!PreOrder R} (a : A) : runs R (mret a).
Proof using Type. intros w. by apply wp_ret. Qed.
Lemma runs_get R `{!PreOrder R} : runs R get.
Proof using Type. intros w. by apply wp_get. Qed.
Lemma runs_throw {A} R (e : exn) : runs R (throw (A:=A) e).
Proof using Type. done. Qed.
Lemma runs_undef {A} R u : runs R (undef (A:=A) u).
Proof using Type. done. Qed.
Lemma runs_deref R `{!PreOrder R} p : runs R (deref p).
Proof using Type. intros w. by apply wp_deref_any. Qed.
Lemma runs_deref_board R `{!PreOrder R} b : runs R (deref_board b).
Proof using Type.
  intros w. unfold wp, deref_board. destruct b as [i|]; [|done]. by destruct (w_boards w !! i).
Qed.

Lemma quiet_emit e : EBreakLoop ∉ e → runs quiet (emit e).
Proof using Type. intros He w. apply wp_emit. split_and!; [done..|]. by exists e. Qed.

Lemma quiet_modify f :
  (∀ w, w_systemd (f w) = w_systemd w ∧ w_sessions (f w) = w_sessions w ∧ w_trace (f w) = w_trace w) →
  runs quiet (modify f).
Proof using Type.
  intros Hf w. apply wp_modify. destruct (Hf w) as (H1 & H2 & H3). split_and!; [done..|].
  exists []. rewrite app_nil_r. set_solver.
Qed.

Lemma quiet_update p f : runs quiet (update p f).
Proof using Type. apply runs_bind; [apply _|apply runs_deref, _|]. intros s. by apply quiet_modify. Qed.
Lemma quiet_update_board i f : runs quiet (update_board i f).
Proof using Type. by apply quiet_modify. Qed.
Lemma quiet_fork : runs quiet do_fork.
Proof using Type. intros w. apply wp_fork. split_and!; [done..|]. exists []. rewrite app_nil_r. set_solver. Qed.
Lemma quiet_now : runs quiet do_now.
Proof using Type. intros w. apply wp_now. split_and!; [done..|]. exists []. rewrite app_nil_r. set_solver. Qed.
End idle.

(** The structure of a handler decides: one rule per construct. *)
Ltac runs_step :=
  match goal with
  | |- ∀ _, _ => intros
  | |- runs _ (_ ≫= _) => apply runs_bind; [apply _| |]
  | |- runs _ (mret _) => apply runs_ret, _
  | |- runs _ get => apply runs_get, _
  | |- runs _ (throw _) => apply runs_throw
  | |- runs _ (undef _) => apply runs_undef
  | |- runs _ (deref _) => apply runs_deref, _
  | |- runs _ (deref_board _) => apply runs_deref_board, _
  | |- runs quiet (update _ _) => apply quiet_update
  | |- runs quiet (update_board _ _) => apply quiet_update_board
  | |- runs quiet do_fork => apply quiet_fork
  | |- runs quiet do_now => apply quiet_now
  | |- runs quiet (modify _) => by apply quiet_modify
  | |- runs _ (if decide ?P then _ else _) => destruct (decide P)
  | |- runs _ (match ?x with _ => _ end) => destruct x eqn:?
  end.
Ltac runs_auto := repeat runs_step.

Section systemd.
Context `{Env}.

Lemma quiet_assign_board p i : runs quiet (assign_board p i).
Proof using Type. unfold assign_board, start_process, split_command. runs_auto; apply quiet_emit; set_solver. Qed.

Lemma quiet_grant_first q : runs quiet (grant_first q).
Proof using Type.
  induction q as [|p q IH]; cbn [grant_first]; [runs_auto|].
  unfold daemon_find_available_board, queue_remove. runs_auto; [apply quiet_assign_board|done].
Qed.

Lemma proxy_destroy_quiet p : EBreakLoop ∉ proxy_destroy p.
Proof using Type. destruct p as [p|p]; cbn; unfold TcpProxy_destroy, WrProxy_destroy; set_solver. Qed.

Lemma Session_destroy_quiet s : runs quiet (Session_destroy s).
Proof using Type.
  unfold Session_destroy. runs_auto; apply quiet_emit; unfold Session_destroy_effects;
    rewrite !elem_of_app; (intros [?|[(l & Hin%list_elem_of_In & Hl%list_elem_of_In)%list_elem_of_In%in_concat|?]];
      [set_solver| |set_solver]);
    apply list_elem_of_fmap in Hin as (x & -> & _); by eapply proxy_destroy_quiet.
Qed.

(** [Daemon::close_session] breaks the loop when it removes the last session
    of a daemon started by systemd, and only then. *)
Lemma daemon_close_session_idle p : runs breaks_idle (daemon_close_session p).
Proof using Type.
  intros w. unfold daemon_close_session. wp_step.
  eapply wp_mono; [apply (quiet_modify (λ w, _)); done|]. intros [] w1 (S1 & L1 & e1 & T1 & N1). cbn beta.
  wp_step. eapply (wp_mono _ _ _ (λ _ w', w_systemd w' = w_systemd w1 ∧
    (w_sessions w1 = [] → w_sessions w' = []) ∧ ∃ e, w_trace w' = w_trace w1 ++ e ∧ EBreakLoop ∉ e)).
  { unfold sessions_remove. do 2 wp_step. destruct (w_heap w1 !! p) as [s|].
    - wp_step. eapply wp_mono; [apply Session_destroy_quiet|]. intros [] w2 (S2 & L2 & e2 & T2 & N2).
      cbn beta. wp_step. cbn. rewrite L2. split_and!; [done|by intros ->|by eexists].
    - wp_step. split_and!; [done..|]. exists []. rewrite app_nil_r. set_solver. }
  intros [] w2 (S2 & L2 & e2 & T2 & N2). cbn beta. do 3 wp_step.
  eapply wp_mono; [apply quiet_grant_first|]. intros [] w3 (S3 & L3 & e3 & T3 & N3). cbn beta.
  do 2 wp_step. assert (w_trace w3 = w_trace w ++ e1 ++ e2 ++ e3) as T by (rewrite T3, T2, T1, !app_assoc; done).
  case_decide as Hd; wp_step; unfold breaks_idle; cbn.
  - destruct Hd as [Hs Hl]. split_and!; [congruence|done|]. exists (e1 ++ e2 ++ e3 ++ [EBreakLoop]). cbn.
    rewrite T, !app_assoc. split_and!; [done|intros _; split; congruence|set_solver].
  - split_and!; [congruence|rewrite L3; intros; apply L2; congruence|]. exists (e1 ++ e2 ++ e3).
    split_and!; [done|set_solver|]. intros Hs Hne Hl. exfalso. apply Hd. split; [congruence|done].
Qed.

Lemma close_session_idle p : runs breaks_idle (close_session p).
Proof using Type.
  unfold close_session, start_close_command, split_command.
  runs_auto; try apply daemon_close_session_idle;
    (eapply runs_weaken; [apply quiet_breaks_idle|]); runs_auto; try done; apply quiet_emit; set_solver.
Qed.

Lemma quiet_print_status fd : runs quiet (print_status fd).
Proof using Type.
  unfold print_status. runs_auto. generalize (w_sessions a). intros l.
  induction l as [|p l IH]; cbn [print_sessions]; runs_auto; try done; apply quiet_emit; set_solver.
Qed.

Lemma on_setup_msg_idle p ctl l : runs breaks_idle (on_setup_msg p ctl l).
Proof using Type.
  unfold on_setup_msg, daemon_assign_board, daemon_find_available_board.
  runs_auto; try apply close_session_idle;
    (eapply runs_weaken; [apply quiet_breaks_idle|]);
    first [apply quiet_assign_board | apply quiet_print_status | apply quiet_emit; set_solver | runs_auto].
Qed.

(** The proxies have no business with the loop. *)
Lemma wr_fail_quiet p f args : EBreakLoop ∉ (wr_fail p f args).1.
Proof using Type. unfold wr_fail. repeat case_match; set_solver. Qed.

Lemma handle_connect_quiet ip p cmd io : EBreakLoop ∉ (handle_connect ip p cmd io).1.
Proof using Type.
  unfold handle_connect. destruct (parse_params _ _ _) as [[c|[f param]]|]; [|apply wr_fail_quiet|set_solver].
  case_decide; [|apply wr_fail_quiet]. destruct (stoi _); [|apply wr_fail_quiet].
  destruct ip as [ip|]; [|apply wr_fail_quiet]. destruct (inet_aton _); [|apply wr_fail_quiet].
  case_decide.
  { pose proof (wr_fail_quiet p (bs "connect {}:{}: {}") [ip; cp_port c; io_strerror io]).
    destruct (wr_fail p _ _). set_solver. }
  case_decide; [|set_solver].
  match goal with |- context [wr_fail ?q ?f ?a] =>
    pose proof (wr_fail_quiet q f a); destruct (wr_fail q f a) end. set_solver.
Qed.

Lemma parse_command_quiet ip p io : EBreakLoop ∉ (parse_command ip p io).1.
Proof using Type.
  unfold parse_command. destruct (find_first_of _ _); [|set_solver]. destruct (getline _ _) as [command cmd].
  case_decide; [apply handle_connect_quiet|]. case_match; [apply wr_fail_quiet|set_solver].
Qed.

Lemma on_target_connected_quiet p so : EBreakLoop ∉ (on_target_connected p so).1.
Proof using Type. unfold on_target_connected. repeat case_decide; set_solver. Qed.

Lemma factory_create_quiet f base ip ce : EBreakLoop ∉ (factory_create f base ip ce).1.
Proof using Type.
  destruct f as [n port|n]; cbn.
  - unfold TcpProxy_new. destruct (inet_aton _); [|set_solver]. case_decide; [set_solver|].
    destruct (ce_conn ce); [|set_solver..].
    match goal with |- context [on_target_connected ?q ?s] =>
      pose proof (on_target_connected_quiet q s); destruct (on_target_connected q s) as [eff []] end; set_solver.
  - unfold WrProxy_new. case_decide; set_solver.
Qed.

Lemma proxy_handler_quiet ip p ev r : proxy_handler ip p ev = Some r → EBreakLoop ∉ r.1.
Proof using Type.
  destruct p as [p|p], ev as [rd io|rd io|so]; cbn; try case_decide; intros; simplify_eq; cbn.
  - unfold on_data. repeat case_match; set_solver.
  - unfold on_data. repeat case_match; set_solver.
  - apply on_target_connected_quiet.
  - unfold wr_on_client_data. destruct (do_read _ _) as [[|b d]|]; [set_solver| |set_solver].
    cbn. destruct (wr_state p); [apply parse_command_quiet|].
    unfold forward_frame. repeat case_decide; set_solver.
  - unfold wr_on_target_data. destruct (do_read _ _) as [[|b d]|]; [set_solver| |set_solver].
    case_decide; set_solver.
Qed.

Lemma quiet_on_proxy_event p q px ev : runs quiet (on_proxy_event p q px ev).
Proof using Type.
  unfold on_proxy_event. do 2 (runs_step; [runs_step|]; intros).
  destruct (proxy_handler _ px ev) as [[eff o]|] eqn:Hh; [|runs_step].
  apply proxy_handler_quiet in Hh. runs_auto; apply quiet_emit; [done|apply proxy_destroy_quiet].
Qed.

Lemma quiet_on_socket_connecting l fd cred ce : runs quiet (on_socket_connecting l fd cred ce).
Proof using Type.
  unfold on_socket_connecting, find_session_by_ppid, new_socket_connection.
  runs_auto; try (apply quiet_emit; set_solver).
  - match goal with |- runs quiet (find_ppid _ ?l) => generalize l end. intros l'.
    induction l' as [|q l' IH]; cbn [find_ppid]; runs_auto; done.
  - apply quiet_emit. match goal with E : factory_create ?f ?b ?i ?c = _ |- _ =>
      pose proof (factory_create_quiet f b i c) as Hq; by rewrite E in Hq end.
Qed.

Lemma on_data_from_client_idle p r : runs breaks_idle (on_data_from_client p r).
Proof using Type.
  unfold on_data_from_client.
  runs_auto; first [apply close_session_idle | apply on_setup_msg_idle
    | eapply runs_weaken; [apply quiet_breaks_idle|]; runs_step].
Qed.

Lemma on_child_exit_idle p cb : runs breaks_idle (on_child_exit p cb).
Proof using Type.
  unfold on_child_exit, on_process_exit, on_close_command_exit.
  runs_auto; first [apply close_session_idle | eapply runs_weaken; [apply quiet_breaks_idle|]; runs_step].
Qed.

(** What an event does to the loop, from what its handler does to the sessions. *)
Definition idle_exit (w w' : world) (signal : Prop) : Prop :=
  ∃ e, w_trace w' = w_trace w ++ e ∧
    (EBreakLoop ∈ e ↔ signal ∨ w_systemd w = true ∧ w_sessions w ≠ [] ∧ w_sessions w' = []).

Lemma quiet_idle_exit w w' : quiet w w' → idle_exit w w' False.
Proof using Type. intros (_ & Hs & e & He & Hn). exists e. split; [done|]. rewrite Hs. naive_solver. Qed.

Lemma breaks_idle_exit w w' p : p ∈ w_sessions w → breaks_idle w w' → idle_exit w w' False.
Proof using Type.
  intros Hp (_ & _ & e & He & H1 & H2). exists e. split; [done|].
  assert (w_sessions w ≠ []) as Hne by (intros Hn; rewrite Hn in Hp; by apply elem_of_nil in Hp). naive_solver.
Qed.

(** C31: when the daemon leaves its loop: an event of a reachable state breaks the
    loop if and only if it is a signal ([SIGINT] or [SIGTERM]) or the daemon was
    started by systemd and the event made the last session go. A daemon started
    by hand thus leaves only on a signal. *)
Theorem systemd_exits_when_idle w ev w' :
  reachable (λ _ _, True) w → step w ev w' →
  ∃ e, w_trace w' = w_trace w ++ e ∧
    (EBreakLoop ∈ e ↔ ev = EvSignal ∨ w_systemd w = true ∧ w_sessions w ≠ [] ∧ w_sessions w' = []).
Proof using Type.
  intros Hi%reachable_inv [He Hh].
  assert (∀ R (m : M unit), runs R m → m w = Ok () w' → R w w') as Hruns.
  { intros R m Hm Hw. specialize (Hm w). unfold wp in Hm. by rewrite Hw in Hm. }
  assert (∀ p s, w_heap w !! p = Some s → p ∈ w_sessions w) as Hin by (intros p s Hp; apply (inv_dom _ Hi); eauto).
  assert (ev ≠ EvSignal → idle_exit w w' False) as Hexit.
  { intros Hsig. destruct ev as [ae|l fd cred ce|p r|p pid|p q ev|]; cbn [handle] in Hh; [..|done].
    - unfold on_client_connecting in Hh. case_decide; [done|]. cbn in Hh.
      destruct (ae_pwd ae); [|done]. injection Hh as <-. exists []. cbn. rewrite app_nil_r.
      split; [done|]. split; [set_solver|]. intros [[]|(_ & _ & Hn)]. by destruct (w_sessions w).
    - eapply quiet_idle_exit, Hruns, Hh. apply quiet_on_socket_connecting.
    - destruct He as (s & Hp & _). eapply breaks_idle_exit, Hruns, Hh; [by eapply Hin|apply on_data_from_client_idle].
    - destruct He as (s & cb & Hp & _). eapply breaks_idle_exit, Hruns, Hh; [by eapply Hin|].
      runs_auto. apply on_child_exit_idle.
    - eapply quiet_idle_exit, Hruns, Hh. runs_auto. apply quiet_on_proxy_event. }
  assert (ev = EvSignal ∨ ev ≠ EvSignal) as [->|Hsig] by (destruct ev; auto).
  - injection Hh as <-. exists [EBreakLoop]. split; [done|]. set_solver.
  - destruct (Hexit Hsig) as (e & Ht & Hb). exists e. split; [done|]. naive_solver.
Qed.
End systemd.

(** ** Proxy connections *)
Section connections.
Context `{Env}.

(** Sessions other than [p] are as before, and [p]'s proxies too unless it has a board. *)
Definition only_proxies_of (ok : ptr → Session → Prop) (w w' : world) : Prop :=
  ∀ p s s', w_heap w !! p = Some s → w_heap w' !! p = Some s' → ses_proxies s' ≠ ses_proxies s → ok p s.

Lemma only_proxies_same ok w w' : w_heap w' = w_heap w → only_proxies_of ok w w'.
Proof using Type. intros Hh p s s' Hp Hp' Hne. rewrite Hh in Hp'. congruence. Qed.

Lemma wp_deref_board_any o (Q : nat * Board → world → Prop) E w :
  (∀ i b, Q (i, b) w) → wp True (deref_board o) Q E w.
Proof using Type.
  intros HQ. unfold wp, deref_board. destruct o as [i|]; [|done]. destruct (w_boards w !! i); auto.
Qed.

Lemma new_socket_connection_proxies (p : ptr) s fd f ce w :
  w_heap w !! p = Some s →
  wp True (new_socket_connection p fd f ce)
    (λ _ w', only_proxies_of (λ q t, q = p ∧ ses_status t = has_board) w w') (λ _ _, True) w.
Proof using Type.
  intros Hp. unfold new_socket_connection. wp_step. wp_step. case_decide as Hs.
  { wp_step. by apply only_proxies_same. }
  wp_step. apply wp_deref_board_any. intros i b. cbn beta iota. destruct (factory_create _ _ _ _) as [eff o]. do 4 wp_step.
  assert (∀ t w', w_heap w' = <[p := t]> (w_heap w) →
    only_proxies_of (λ q t, q = p ∧ ses_status t = has_board) w w') as Hins.
  { intros t w' Hw q u u' Hq. rewrite Hw, lookup_insert. case_decide; [|congruence]. subst.
    intros _ _. split; [done|]. congruence. }
  destruct o as [px| |e]; [|wp_step; by eapply Hins|done].
  wp_step. eapply Hins. cbn. by rewrite insert_insert_eq.
Qed.

(** C30: a connection to a proxy socket reaches only the board of its own
    client: the sessions' lists of proxies are changed by an accepted
    connection from process [pid] only in a session that has a board and whose
    client gave [pid] as its parent (the shell on the client's side). *)
Theorem socket_connection_own_session w l fd cred ce w' p s s' :
  step w (EvSocketConnecting l fd cred ce) w' →
  w_heap w !! p = Some s → w_heap w' !! p = Some s' → ses_proxies s' ≠ ses_proxies s →
  cred = Some (ses_ppid s) ∧ ses_status s = has_board.
Proof using Type.
  intros [_ Hh]. cut (wp True (on_socket_connecting l fd cred ce)
    (λ _ w', only_proxies_of (λ q t, cred = Some (ses_ppid t) ∧ ses_status t = has_board) w w')
    (λ _ _, True) w).
  { unfold wp. cbn in Hh. rewrite Hh. intros Hw. apply Hw. }
  unfold on_socket_connecting. do 2 wp_step. destruct (w_listeners w !! l); [|done]. case_decide; [done|].
  destruct cred as [pid|]; [|by repeat wp_step].
  unfold find_session_by_ppid. do 3 wp_step. apply wp_find_ppid. intros [q|] Hq.
  - destruct (Hq q eq_refl) as (_ & t & Ht & <-).
    eapply wp_mono; [by eapply new_socket_connection_proxies|].
    intros [] w1 Hw1 q' u u' Hu Hu' Hne. destruct (Hw1 q' u u' Hu Hu' Hne) as [-> ?].
    split; [|done]. congruence.
  - wp_step. by apply only_proxies_same.
Qed.
End connections.

(** ** Closing that does not go as intended *)
Section closing.
Context `{Env}.

Lemma grant_result_gone p s w w' :
  grant_result (removed p s w) w' →
  w_heap w' !! p = None ∧
  (∀ i b, ses_board s = Some i → w_boards w' !! i = Some b → b_owner b ≠ Some p) ∧
  (∀ i b, w_boards w !! i = Some b → ∃ b', w_boards w' !! i = Some b').
Proof using Type.
  assert (∀ i b, ses_board s = Some i → w_boards (removed p s w) !! i = Some b → b_owner b = None) as Hown.
  { unfold removed. cbn. intros i b -> Hb. rewrite list_lookup_alter, decide_True in Hb by done.
    by apply fmap_Some in Hb as (b' & _ & ->). }
  assert (∀ i b, w_boards w !! i = Some b → ∃ b', w_boards (removed p s w) !! i = Some b') as Hex.
  { unfold removed. cbn. intros i b Hb. destruct (ses_board s) as [j|]; [|eauto].
    rewrite list_lookup_alter, Hb. case_decide; [subst; rewrite Hb|]; cbn; eauto. }
  assert (w_heap (removed p s w) !! p = None) as Hgone by (unfold removed; cbn; apply lookup_delete_eq).
  intros [[_ [Hb Hh _ _ _ _]]|(q1 & q & q2 & t & t' & i & Hq & _ & Ht & _ & _ & [Hb Hh _ _ _ _])].
  - rewrite Hh, Hb. split_and!; [done| |done]. intros i b Hi Hbi Ho. rewrite (Hown i b Hi Hbi) in Ho. done.
  - assert (q ≠ p) as Hne by congruence. rewrite Hh, Hb. unfold granted. cbn [w_heap w_boards set_heap set_boards set_queue].
    rewrite lookup_insert_ne by done. split_and!; [done| |].
    + intros j b Hj. rewrite list_lookup_alter. case_decide.
      * intros (b' & _ & ->)%fmap_Some. cbn. congruence.
      * intros Hbj Ho. rewrite (Hown j b Hj Hbj) in Ho. done.
    + intros j b [b' Hb']%Hex. rewrite list_lookup_alter. case_decide; [|eauto]. subst. rewrite Hb'. cbn. eauto.
Qed.

(** a client that disconnects while its board is being closed takes the
    board away from the close command: [Session::close_session] in state
    [closing_board] goes on to the daemon, the session is destroyed and its
    board free for, or already with, somebody else, although no exit of the
    close command has been seen. *)
Theorem disconnect_abandons_close_command w p s i w' :
  reachable conforming w → w_heap w !! p = Some s →
  ses_status s = closing_board → ses_board s = Some i →
  step w (EvClientData p (RecvMsg [] 0 [])) w' →
  (∃ pid, ses_child s = Some (pid, OnCloseCommandExit)) ∧
  w_heap w' !! p = None ∧ ∃ b, w_boards w' !! i = Some b ∧ b_owner b ≠ Some p.
Proof using Type.
  intros Hr Hp Hs Hb [_ Hh]. pose proof (reachable_conf w Hr) as [[H1 H2 H3 H4 H5] _].
  split. { pose proof (H5 p s Hp) as Hsh. unfold shape in Hsh. rewrite Hs in Hsh. apply Hsh. }
  pose proof (H5 p s Hp) as Hsh. unfold shape in Hsh. rewrite Hs in Hsh.
  assert (wp False (on_data_from_client p (RecvMsg [] 0 []))
    (λ _ w', grant_result (removed p (set_client_active false s)
       (set_heap (<[p := set_client_active false s]> (w_heap w)) w)) w') (λ e _, spawn_failed e) w) as Hwp.
  { unfold on_data_from_client. wp_step. wp_step. rewrite take_nil. wp_step. wp_step.
    eapply wp_mono; [apply (wp_close_session _ p (set_client_active false s))|].
    - by eapply inv_same_board.
    - cbn. by simplify_map_eq.
    - intros [] w1 [(Hx & _)|[(Hx & _)|[_ Hg]]]; [cbn in Hx; congruence..|done]. }
  unfold wp in Hwp. cbn [handle] in Hh. rewrite Hh in Hwp.
  destruct (grant_result_gone _ _ _ _ Hwp) as (Hgone & Hown & Hex).
  destruct (inv_board _ H1 p s i Hp Hb) as (b & Hbi & _).
  destruct (Hex i b Hbi) as (b' & Hb'). split; [done|]. exists b'. split; [done|]. by eapply Hown.
Qed.

(** The identifier is read from the received bytes. *)
Lemma h_id_recv_into buf data : (4 ≤ length data)%nat → h_id (recv_into buf data) = h_id data.
Proof using Type.
  intros Hl. unfold h_id, field, recv_into. rewrite !drop_0, take_app_le by done. done.
Qed.

Lemma bind_Ok {A B} (m : M A) (k : A → M B) w a w' : m w = Ok a w' → (m ≫= k) w = k a w'.
Proof using Type. intros Hm. unfold mbind, M_bind. by rewrite Hm. Qed.

Lemma deref_Ok p s w : w_heap w !! p = Some s → deref p w = Ok s w.
Proof using Type. intros Hp. unfold deref. by rewrite Hp. Qed.

Lemma update_Ok p f s w :
  w_heap w !! p = Some s → update p f w = Ok () (set_heap (<[p := f s]> (w_heap w)) w).
Proof using Type. intros Hp. unfold update. by erewrite bind_Ok by (by apply deref_Ok). Qed.

Lemma find_rights_short ctl l : ctl < sizeof_cmsghdr → find_rights ctl l = None.
Proof using Type. intros Hc. unfold find_rights, cmsg_list. by rewrite decide_True. Qed.

(** The session after the message was received. *)
Definition received (p : ptr) (s : Session) (data : bytes) (w : world) : world :=
  set_heap (<[p := set_buffer (recv_into (ses_buffer s) data) s]> (w_heap w)) w.

Lemma on_short_control p s data ctl l w :
  w_heap w !! p = Some s →
  (sizeof_header ≤ length data ≤ session_buffer_size)%nat → h_id data = msg_type_code setup →
  ctl < sizeof_myfds →
  on_data_from_client p (RecvMsg data ctl l) w =
    (close_session p;; _ ← deref p; close_session p) (received p s data w).
Proof using Type.
  unfold sizeof_header. intros Hp [Hl1 Hl2] Hid Hctl. unfold on_data_from_client. rewrite take_ge by done.
  destruct data as [|b d] eqn:Hd; [cbn in Hl1; lia|]. rewrite <- Hd in *. clear Hd b d.
  set (s1 := set_buffer (recv_into (ses_buffer s) data) s).
  assert (w_heap (received p s data w) !! p = Some s1) as Hp1 by (unfold received; cbn; by simplify_map_eq).
  erewrite bind_Ok by (by apply deref_Ok). erewrite bind_Ok by (by apply update_Ok).
  fold (received p s data w). rewrite decide_False by (unfold sizeof_header; lia).
  erewrite bind_Ok by (by apply deref_Ok).
  rewrite decide_True by (unfold s1; cbn [ses_buffer set_buffer]; rewrite h_id_recv_into; [done|lia]).
  unfold on_setup_msg. rewrite decide_True by done.
  rewrite find_rights_short by (unfold sizeof_myfds, sizeof_cmsghdr in *; lia).
  unfold mbind at 1 4, M_bind at 1 4. by erewrite bind_Ok by (by apply deref_Ok).
Qed.

(** A session that leaves while nobody else waits: no command is started. *)
Lemma wp_daemon_close_session_alone p s w :
  inv w → w_heap w !! p = Some s → (∀ q, q ∈ w_wait_queue w → q = p) →
  wp False (daemon_close_session p) (λ _ w', w_heap w' !! p = None) (λ _ _, False) w.
Proof using Type.
  intros Hi Hp Hq. unfold daemon_close_session, queue_remove. do 3 wp_step. set (w1 := set_queue _ w).
  assert (w_wait_queue w1 = []) as Hq1.
  { cbn. destruct (filter _ _) as [|q l] eqn:Hf; [done|].
    assert (q ∈ filter (λ q, q ≠ p) (w_wait_queue w)) as [Hne Hin]%list_elem_of_filter by (rewrite Hf; by left).
    by apply Hq in Hin. }
  assert (inv w1) as Hi1.
  { destruct Hi as [H1 H2 H3 H4 H5]. split; try done. rewrite Hq1. by intros q ?%elem_of_nil. }
  eapply wp_mono; [apply (wp_sessions_remove _ _ p s); done|]. intros [] w2 [_ Hh _ Hw2 _ _]. cbn beta.
  assert (w_heap w2 !! p = None) as Hgone by (rewrite Hh; cbn; apply lookup_delete_eq).
  wp_step. wp_step. wp_step. change (w_wait_queue w2 = w_wait_queue w1) in Hw2. rewrite Hw2, Hq1.
  cbn [grant_first]. do 3 wp_step. by case_decide; wp_step.
Qed.

(** C36: a setup message without ancillary data to a session that has no board
    makes the handler use the destroyed session: after the first
    [close_session()] there is no return, and the function goes on with the
    members of an object that was freed. When nobody else waits this is what
    happens; when others wait and one of them can be given a board, the exception
    of starting that user's command (a failed [fork], a command that
    cannot be split) may come first. The handler never returns normally. *)
Theorem setup_without_rights_use_after_free w p s data ctl l :
  reachable (λ _ _, True) w → w_heap w !! p = Some s →
  ses_status s = created ∨ ses_status s = awaiting_board →
  (sizeof_header ≤ length data ≤ session_buffer_size)%nat → h_id data = msg_type_code setup →
  ctl < sizeof_myfds →
  (handle (EvClientData p (RecvMsg data ctl l)) w = Undef (UseAfterFree p) ∨
   ∃ e w', handle (EvClientData p (RecvMsg data ctl l)) w = Throw e w' ∧ spawn_failed e) ∧
  ((∀ q, q ∈ w_wait_queue w → q = p) →
   handle (EvClientData p (RecvMsg data ctl l)) w = Undef (UseAfterFree p)).
Proof using Type.
  intros Hi%reachable_inv Hp Hs Hl Hid Hctl. cbn [handle]. rewrite (on_short_control p s) by done.
  set (s1 := set_buffer (recv_into (ses_buffer s) data) s).
  assert (w_heap (received p s data w) !! p = Some s1) as Hp1 by (unfold received; cbn; by simplify_map_eq).
  assert (inv (received p s data w)) as Hi1 by (by eapply inv_same_board).
  split.
  2: { intros Hq. pose proof (wp_daemon_close_session_alone p s1 _ Hi1 Hp1 Hq) as Hwp.
       assert (close_session p (received p s data w) = daemon_close_session p (received p s data w)) as Heq.
       { unfold close_session. erewrite bind_Ok by (by apply deref_Ok). change (ses_status s1) with (ses_status s).
         rewrite !decide_False; [done|destruct Hs; congruence|intros [? _]; destruct Hs; congruence]. }
       unfold wp in Hwp. unfold mbind, M_bind. rewrite Heq.
       destruct (daemon_close_session p (received p s data w)) as [[] w2| |]; [|done..].
       unfold deref. by rewrite Hwp. }
  pose proof (wp_close_session False p s1 _ Hi1 Hp1) as Hwp. unfold wp in Hwp. unfold mbind, M_bind.
  destruct (close_session p (received p s data w)) as [[] w2|e w2|]; [|right; by exists e, w2|done].
  left. destruct Hwp as [(Hx & _)|[(Hx & _)|[_ Hg]]]; [change (ses_status s1) with (ses_status s) in Hx; destruct Hs; congruence..|].
  apply grant_result_gone in Hg as [Hgone _]. unfold deref. by rewrite Hgone.
Qed.
End closing.

(** ** Clients outside the protocol, by example *)

(** A client that has a board and sends its setup message again. *)
Definition demo_resend : list event :=
  [demo_accept 1 10 (bs "bob"); demo_setup 1 connect 1001 false 20; demo_setup 1 connect 1001 false 30;
   EvChildExit 1 101].

Definition two_boards : list Board := [board_a; Board_new (bs "c") (bs "novaboot") (bs "192.168.1.7") [] []].

(** a second setup message leaks a board: the handler does not look at the
    session's status, so a session that already has a board asks for another
    one, forgets the first, and when it is gone the first board still has the
    destroyed session as its owner, never to be available again. *)
Theorem second_setup_leaks_board :
  ∃ w i b p, @reachable demo_env (λ _ _, True) w ∧ w_boards w !! i = Some b ∧
    b_owner b = Some p ∧ w_heap w !! p = None.
Proof.
  exists (demo_world any two_boards false demo_resend), 0%nat.
  eexists. exists 1%N. split; [by apply demo_reachable|].
  split_and!; vm_compute; reflexivity.
Qed.

(** ** Instances *)
Definition after (ev : event) (w : world) : world :=
  match @handle demo_env ev w with Ok _ w' => w' | _ => w end.

Lemma systemd_exits_when_idle_witness :
  let w0 := demo (take 2 demo_sessions) in
  ∃ e, w_trace (after (EvChildExit 1 100) w0) = w_trace w0 ++ e ∧
    w_sessions (after (EvChildExit 1 100) w0) = [] ∧ EBreakLoop ∈ e.
Proof.
  destruct (@systemd_exits_when_idle demo_env (demo (take 2 demo_sessions)) (EvChildExit 1 100)
    (after (EvChildExit 1 100) (demo (take 2 demo_sessions)))) as (e & He & _ & Hb).
  - apply demo_any.
  - split; [apply enabledb_sound; by_run|by_run].
  - exists e. split; [exact He|]. split; [by_run|]. apply Hb. right.
    split; [by_run|]. split; [vm_compute; discriminate|by_run].
Defined.

Lemma socket_connection_own_session_witness :
  let ev := EvSocketConnecting 0 13 (Some 1002) (mk_create 50 14 ConnOk (mk_so 0 0 []) []) in
  let s := session_at (demo (take 6 demo_sessions)) 2 in
  Some 1002 = Some (ses_ppid s) ∧ ses_status s = has_board.
Proof.
  apply (@socket_connection_own_session demo_env (demo (take 6 demo_sessions)) 0 13 (Some 1002)
    (mk_create 50 14 ConnOk (mk_so 0 0 []) []) (demo demo_sessions) 2 _ (session_at (demo demo_sessions) 2)).
  - split; [apply enabledb_sound; by_run|by_run].
  - by_run.
  - by_run.
  - vm_compute. discriminate.
Defined.

Lemma disconnect_abandons_close_command_witness :
  w_heap (after (demo_eof 2) (demo demo_closing)) !! 2%N = None.
Proof.
  apply (@disconnect_abandons_close_command demo_env (demo demo_closing) 2
    (session_at (demo demo_closing) 2) 0 (after (demo_eof 2) (demo demo_closing)));
    [apply demo_conforming|by_run..|]. split; [apply enabledb_sound; by_run|by_run].
Defined.

Lemma setup_without_rights_use_after_free_witness :
  let w := demo (take 1 demo_sessions) in
  let ev := EvClientData 1 (RecvMsg (setup_msg connect 1001 [] false []) 0 []) in
  @handle demo_env ev w = Undef (UseAfterFree 1).
Proof.
  apply (@setup_without_rights_use_after_free demo_env (demo (take 1 demo_sessions)) 1
    (session_at (demo (take 1 demo_sessions)) 1)); [apply demo_any|by_run|left; by_run| |by_run|by_run|intros q Hq; vm_compute in Hq; by apply elem_of_nil in Hq].
  rewrite length_setup_msg. pose proof session_buffer_size_eq. unfold sizeof_header, sizeof_setup. lia.
Defined.
