(* ===== verification/Os.v ===== *)
(** * Os: the system calls of the program's start, and the monad that makes them

    The constructors of the sockets, of the daemon and of the client are
    sequences of system calls whose results decide how they go on. [Kernel] is
    the other side: it answers every call, knowing all calls before it. The
    monad keeps the history of calls and stops at the first exception. *)
From S2P Require Import Prelude Env.

Local Open Scope Z_scope.

Inductive sock_type := SOCK_STREAM | SOCK_DGRAM | SOCK_SEQPACKET.

Inductive syscall :=
| SdListenFds                                 (* sd_listen_fds(1) *)
| SdIsSocket (fd : Z) (t : sock_type)         (* sd_is_socket(fd, AF_UNIX, t, 1) *)
| Socket (t : sock_type)                      (* socket(AF_UNIX, t | SOCK_CLOEXEC, 0) *)
| Connect (fd : Z) (sun_path : bytes)         (* connect(fd, sockaddr_un) *)
| Bind (fd : Z) (sun_path : bytes)            (* bind(fd, sockaddr_un) *)
| Listen (fd : Z) (backlog : Z)
| Accept4 (fd : Z)                            (* accept4(fd, SOCK_CLOEXEC | SOCK_NONBLOCK) *)
| FcntlGetFl (fd : Z)
| FcntlSetFl (fd : Z) (flags : Z)
| Close (fd : Z)
| GetPeerCred (fd : Z)                        (* getsockopt(fd, SOL_SOCKET, SO_PEERCRED) *)
| Unlink (path : bytes)
| Mkdir (path : bytes)
| Isatty (fd : Z)
| Getppid
| SendMsg (fd : Z) (data : bytes) (ctl_len : Z) (fds : list Z)
| SignalWatch (signum : Z)                    (* ev::sig::start *)
| System (cmd : bytes)                        (* system(3) *)
| Say (fd : Z) (text : bytes).                (* output to stdout or stderr *)

Definition EAGAIN : Z := 11.
Definition EEXIST : Z := 17.

(** The result of a call and [errno] after it. *)
Class Kernel := kernel : list syscall → syscall → Z * Z.

(** ** The monad *)
Definition OS (A : Type) : Type := list syscall → (A + exn) * list syscall.

#[global] Instance OS_ret : MRet OS := λ A a h, (inl a, h).
#[global] Instance OS_bind : MBind OS := λ A B k m h,
  match m h with
  | (inl a, h') => k a h'
  | (inr e, h') => (inr e, h')
  end.

Definition os_throw {A} (e : exn) : OS A := λ h, (inr e, h).

Definition sys `{Kernel} (c : syscall) : OS (Z * Z) := λ h, (inl (kernel h c), h ++ [c]).

(** A call whose failure is an exception with this text. *)
Definition sys_check `{Kernel} (c : syscall) (what : bytes) : OS Z :=
  '(ret, _) ← sys c;
  if decide (ret = -1) then os_throw (SystemError what) else mret ret.

(** A C++ scope: when the body throws, [undo] (the destructors of what was
    already constructed) runs before the exception goes on. *)
Definition unwinding {A} (undo : OS unit) (m : OS A) : OS A := λ h,
  match m h with
  | (inl a, h') => (inl a, h')
  | (inr e, h') => match undo h' with (_, h'') => (inr e, h'') end
  end.

(** ** Weakest preconditions over the history *)
Definition os_wp {A} (m : OS A) (Q : A → list syscall → Prop) (E : exn → list syscall → Prop)
    (h : list syscall) : Prop :=
  match m h with
  | (inl a, h') => Q a h'
  | (inr e, h') => E e h'
  end.

Section os_wp.
Context {A B : Type} (E : exn → list syscall → Prop).

Lemma os_wp_ret (a : A) (Q : A → list syscall → Prop) h : Q a h → os_wp (mret a) Q E h.
Proof. done. Qed.

Lemma os_wp_bind (m : OS A) (k : A → OS B) Q h :
  os_wp m (λ a, os_wp (k a) Q E) E h → os_wp (m ≫= k) Q E h.
Proof. unfold os_wp, mbind, OS_bind. by destruct (m h) as [[a|e] h']. Qed.

Lemma os_wp_throw e (Q : A → list syscall → Prop) h : E e h → os_wp (os_throw e) Q E h.
Proof. done. Qed.

Lemma os_wp_sys `{Kernel} c Q h : Q (kernel h c) (h ++ [c]) → os_wp (sys c) Q E h.
Proof. done. Qed.

Lemma os_wp_mono (m : OS A) (Q Q' : A → list syscall → Prop) h :
  os_wp m Q E h → (∀ a h', Q a h' → Q' a h') → os_wp m Q' E h.
Proof. unfold os_wp. intros Hm HQ. destruct (m h) as [[a|e] h']; auto. Qed.

Lemma os_wp_conseq (m : OS A) (Q Q' : A → list syscall → Prop) E' h :
  os_wp m Q E' h → (∀ a h', Q a h' → Q' a h') → (∀ e h', E' e h' → E e h') → os_wp m Q' E h.
Proof. unfold os_wp. intros Hm HQ HE. destruct (m h) as [[a|e] h']; auto. Qed.

Lemma os_wp_unwinding (undo : OS unit) (m : OS A) Q h :
  os_wp m Q (λ e h', E e (undo h').2) h → os_wp (unwinding undo m) Q E h.
Proof.
  unfold os_wp, unwinding. destruct (m h) as [[a|e] h']; [done|]. by destruct (undo h') as [r h''].
Qed.
End os_wp.

Lemma os_wp_check `{Kernel} E c what (Q : Z → list syscall → Prop) h :
  (∀ ret, ret = (kernel h c).1 → ret ≠ -1 → Q ret (h ++ [c])) →
  ((kernel h c).1 = -1 → E (SystemError what) (h ++ [c])) →
  os_wp (sys_check c what) Q E h.
Proof.
  intros HQ HE. unfold sys_check. apply os_wp_bind, os_wp_sys.
  destruct (kernel h c) as [ret err] eqn:Hk. cbn in *. case_decide; [by apply HE | by apply HQ].
Qed.

(** ** A kernel to run examples with: descriptors are numbered by the calls made,
    everything succeeds, and a shell ends with exit code 1 *)
Definition demo_kernel : Kernel := λ h c,
  match c with
  | Socket _ | Accept4 _ => (3 + Z.of_nat (length h), 0)
  | Isatty _ => (1, 0)
  | Getppid => (1001, 0)
  | System _ => (256, 0)
  | _ => (0, 0)
  end.
