(* ===== verification/UnixSocket.v ===== *)
(** * UnixSocket: the wrapper of UNIX sockets ([src/src/unix_socket.cpp]) *)
From S2P Require Import Prelude Bytes Env Os.

Local Open Scope Z_scope.

(** [UnixSocket::type] *)
Inductive us_type := seqpacket | stream | datagram.

Definition sock_type_of (t : us_type) : sock_type :=
  match t with
  | datagram => SOCK_DGRAM
  | seqpacket => SOCK_SEQPACKET
  | stream => SOCK_STREAM
  end.

(** [watcher.fd], [watcher.is_active()] and [is_from_systemd]. *)
Record UnixSocket := mk_us {
  us_fd : Z;
  us_active : bool;
  us_from_systemd : bool;
}.

Definition SD_LISTEN_FDS_START : Z := 3.
Definition O_NONBLOCK : Z := 2048.
Definition sizeof_sun_path : nat := 108.

(** [sockaddr_un::sun_path] after [memset] and [strncpy]. *)
Definition sun_path (path : bytes) : bytes := strncpy (sizeof_sun_path - 1) path ++ [x00].

(** The file the kernel takes the address for: up to the terminating NUL. *)
Definition sun_file (sun_path : bytes) : option bytes := c_str_at sun_path.

Section unix_socket.
Context `{Kernel}.

(** [UnixSocket(loop, t, allow_socket_activation)] *)
Definition UnixSocket_new (t : us_type) (allow_socket_activation : bool) : OS UnixSocket :=
  n ← (if allow_socket_activation then '(n, _) ← sys SdListenFds; mret n else mret 0);
  if decide (n > 0) then
    let fd := SD_LISTEN_FDS_START in
    '(ret, _) ← sys (SdIsSocket fd (sock_type_of t));
    if decide (ret < 0) then os_throw (SystemError (bs "sd_is_socket"))
    else if decide (ret = 0) then os_throw (RuntimeError (bs "Invalid socket from systemd"))
    else mret (mk_us fd false true)
  else
    fd ← sys_check (Socket (sock_type_of t)) (bs "socket(AF_UNIX)");
    mret (mk_us fd false false).

(** [UnixSocket(loop, fd)] *)
Definition UnixSocket_of_fd (fd : Z) : UnixSocket := mk_us fd false false.

(** [UnixSocket::close] *)
Definition us_close (s : UnixSocket) : OS UnixSocket :=
  (if decide (us_fd s ≠ -1) then _ ← sys (Close (us_fd s)); mret () else mret ());;
  mret (mk_us (-1) (us_active s) (us_from_systemd s)).

(** [UnixSocket::~UnixSocket] *)
Definition us_destroy (s : UnixSocket) : OS unit :=
  _ ← us_close (mk_us (us_fd s) false (us_from_systemd s)); mret ().

(** [watcher.start()] *)
Definition us_start (s : UnixSocket) : UnixSocket := mk_us (us_fd s) true (us_from_systemd s).

(** [UnixSocket::make_nonblocking] *)
Definition us_make_nonblocking (s : UnixSocket) : OS unit :=
  flags ← sys_check (FcntlGetFl (us_fd s)) (bs "fcntl(F_GETFL)");
  _ ← sys_check (FcntlSetFl (us_fd s) (Z.lor flags O_NONBLOCK)) (bs "fcntl(F_SETFL, O_NONBLOCK)");
  mret ().

(** [UnixSocket::connect] *)
Definition us_connect (s : UnixSocket) (path : bytes) : OS unit :=
  _ ← sys_check (Connect (us_fd s) (sun_path path)) path;
  us_make_nonblocking s.

(** [UnixSocket::bind] *)
Definition us_bind (s : UnixSocket) (path : bytes) : OS unit :=
  _ ← sys_check (Bind (us_fd s) (sun_path path)) path;
  us_make_nonblocking s.

(** [UnixSocket::listen] *)
Definition us_listen (s : UnixSocket) : OS unit :=
  '(ret, err) ← sys (Listen (us_fd s) 10);
  if decide (ret = -1 ∧ err ≠ EAGAIN) then os_throw (SystemError (bs "listen")) else mret ().

(** [UnixSocket::accept] *)
Definition us_accept (s : UnixSocket) : OS UnixSocket :=
  fd ← sys_check (Accept4 (us_fd s)) (bs "accept");
  mret (UnixSocket_of_fd fd).

(** [UnixSocket::peer_cred]: whether the credentials could be read. *)
Definition us_peer_cred (s : UnixSocket) : OS unit :=
  _ ← sys_check (GetPeerCred (us_fd s)) (bs "getsockopt(SO_PEERCRED)"); mret ().
End unix_socket.

(** ** Addresses *)
Lemma sun_file_path path : sun_file (sun_path path) = Some (take 107 (c_str path)).
Proof.
  unfold sun_file, sun_path, sizeof_sun_path. rewrite <- (app_nil_r [x00]).
  apply c_str_at_strncpy.
Qed.

(** socket files of different names are different files: when the path fits
    into [sun_path] the kernel gets exactly the path, so the client reaches the
    socket the daemon bound, and two names in one directory never collide. *)
Theorem socket_addresses_exact dir n1 n2 :
  x00 ∉ dir ++ bs "/" ++ n1 → x00 ∉ dir ++ bs "/" ++ n2 →
  (length (dir ++ bs "/" ++ n1) ≤ 107)%nat → (length (dir ++ bs "/" ++ n2) ≤ 107)%nat →
  sun_file (sun_path (dir ++ bs "/" ++ n1)) = Some (dir ++ bs "/" ++ n1) ∧
  (sun_path (dir ++ bs "/" ++ n1) = sun_path (dir ++ bs "/" ++ n2) → n1 = n2).
Proof.
  intros H1 H2 L1 L2.
  assert (∀ n, x00 ∉ dir ++ bs "/" ++ n → (length (dir ++ bs "/" ++ n) ≤ 107)%nat →
    sun_file (sun_path (dir ++ bs "/" ++ n)) = Some (dir ++ bs "/" ++ n)) as Hex.
  { intros n Hn Hl. rewrite sun_file_path, c_str_no_nul, take_ge by done. done. }
  split; [by apply Hex|]. intros Heq%(f_equal sun_file). rewrite !Hex in Heq by done.
  by simplify_list_eq.
Qed.

(** A longer path is cut without notice: with a socket directory of 107
    bytes or more all sockets get the same address, whatever their names. *)
Theorem long_directory_collides dir n1 n2 :
  x00 ∉ dir → (107 ≤ length dir)%nat → sun_path (dir ++ n1) = sun_path (dir ++ n2).
Proof.
  intros Hn Hl. unfold sun_path, strncpy, sizeof_sun_path. cbn [Nat.sub].
  assert (∀ n, take 107 (c_str (dir ++ n)) = take 107 dir) as Ht.
  { intros n. rewrite c_str_app_no_nul by done. by rewrite take_app_le. }
  by rewrite !Ht.
Qed.

(** ** Descriptors *)
Section descriptors.
Context `{Kernel}.

(** The descriptor a call hands to the program, by its result. *)
Definition opened_by (c : syscall) (ret : Z) : list Z :=
  match c with
  | Socket _ | Accept4 _ => if decide (ret = -1) then [] else [ret]
  | SdIsSocket fd _ => if decide (ret > 0) then [fd] else []
  | _ => []
  end.

Fixpoint opens (h cs : list syscall) : list Z :=
  match cs with
  | [] => []
  | c :: cs => opened_by c (kernel h c).1 ++ opens (h ++ [c]) cs
  end.

Definition closes (cs : list syscall) : list Z :=
  omap (λ c, match c with Close fd => Some fd | _ => None end) cs.

(** Between [h] and [h'] the descriptors held change from [a] to [b]: what was
    held or opened is what was closed or is held, each as often. *)
Definition holds (a : list Z) (h h' : list syscall) (b : list Z) : Prop :=
  ∃ cs, h' = h ++ cs ∧ a ++ opens h cs ≡ₚ closes cs ++ b.

Lemma opens_app h c1 c2 : opens h (c1 ++ c2) = opens h c1 ++ opens (h ++ c1) c2.
Proof using Type.
  revert h. induction c1 as [|c c1 IH]; intros h; cbn; [by rewrite app_nil_r|].
  by rewrite IH, <- !app_assoc.
Qed.

Lemma holds_refl a h : holds a h h a.
Proof using Type. exists []. rewrite !app_nil_r. done. Qed.

Lemma holds_trans a b c h1 h2 h3 : holds a h1 h2 b → holds b h2 h3 c → holds a h1 h3 c.
Proof using Type.
  intros (cs1 & -> & P1) (cs2 & -> & P2). exists (cs1 ++ cs2). split; [by rewrite app_assoc|].
  rewrite opens_app. unfold closes in *. rewrite omap_app.
  rewrite app_assoc, P1, <- app_assoc, P2, <- app_assoc. done.
Qed.

Lemma holds_frame x a b h h' : holds a h h' b → holds (x ++ a) h h' (x ++ b).
Proof using Type.
  intros (cs & -> & P). exists cs. split; [done|].
  rewrite <- app_assoc, P, !app_assoc. by rewrite (Permutation_app_comm x).
Qed.

Lemma holds_call c h :
  (∀ ret, opened_by c ret = []) → closes [c] = [] → holds [] h (h ++ [c]) [].
Proof using Type. intros Ho Hc. exists [c]. split; [done|]. cbn [opens]. by rewrite Ho, Hc. Qed.

Lemma holds_close fd h : holds [fd] h (h ++ [Close fd]) [].
Proof using Type. exists [Close fd]. done. Qed.
End descriptors.

(** A computation that neither opens nor closes. *)
Definition neutral `{Kernel} {A} (m : OS A) : Prop :=
  ∀ h, os_wp m (λ _ h', holds [] h h' []) (λ _ h', holds [] h h' []) h.

Section specs.
Context `{Kernel}.

Lemma holds_nil h1 h2 h3 : holds [] h1 h2 [] → holds [] h2 h3 [] → holds [] h1 h3 [].
Proof using Type. apply holds_trans. Qed.

Lemma neutral_ret {A} (a : A) : neutral (mret a).
Proof using Type. intros h. apply os_wp_ret, holds_refl. Qed.

Lemma neutral_throw {A} e : neutral (os_throw (A:=A) e).
Proof using Type. intros h. apply os_wp_throw, holds_refl. Qed.

Lemma neutral_bind {A B} (m : OS A) (k : A → OS B) : neutral m → (∀ a, neutral (k a)) → neutral (m ≫= k).
Proof using Type.
  intros Hm Hk h. specialize (Hm h). unfold os_wp, mbind, OS_bind in *. destruct (m h) as [[a|e] h1]; [|done].
  specialize (Hk a h1). unfold os_wp in Hk. destruct (k a h1) as [[b|e] h2]; by eapply holds_nil.
Qed.

Lemma neutral_sys c : (∀ ret, opened_by c ret = []) → closes [c] = [] → neutral (sys c).
Proof using Type. intros Ho Hc h. by apply os_wp_sys, holds_call. Qed.

Lemma neutral_check c what : (∀ ret, opened_by c ret = []) → closes [c] = [] → neutral (sys_check c what).
Proof using Type.
  intros Ho Hc. apply neutral_bind; [by apply neutral_sys|]. intros [ret err].
  case_decide; [apply neutral_throw | apply neutral_ret].
Qed.

(** One rule per construct. *)
Ltac neutral_auto :=
  repeat match goal with
  | |- neutral (_ ≫= _) => apply neutral_bind
  | |- ∀ _, neutral _ => intros
  | |- neutral (mret _) => apply neutral_ret
  | |- neutral (os_throw _) => apply neutral_throw
  | |- neutral (sys _) => by apply neutral_sys
  | |- neutral (sys_check _ _) => by apply neutral_check
  | |- neutral (if decide ?P then _ else _) => destruct (decide P)
  | |- neutral (let (_, _) := ?x in _) => destruct x
  end.

Lemma neutral_connect s path : neutral (us_connect s path).
Proof using Type. unfold us_connect, us_make_nonblocking. neutral_auto. Qed.
Lemma neutral_bind_path s path : neutral (us_bind s path).
Proof using Type. unfold us_bind, us_make_nonblocking. neutral_auto. Qed.
Lemma neutral_make_nonblocking s : neutral (us_make_nonblocking s).
Proof using Type. unfold us_make_nonblocking. neutral_auto. Qed.
Lemma neutral_listen s : neutral (us_listen s).
Proof using Type. unfold us_listen. neutral_auto. Qed.
Lemma neutral_peer_cred s : neutral (us_peer_cred s).
Proof using Type. unfold us_peer_cred. neutral_auto. Qed.

Lemma UnixSocket_new_holds t allow h :
  os_wp (UnixSocket_new t allow)
    (λ s h', us_fd s ≠ -1 ∧ us_active s = false ∧ holds [] h h' [us_fd s])
    (λ _ h', holds [] h h' []) h.
Proof using Type.
  unfold UnixSocket_new. apply os_wp_bind.
  eapply (os_wp_mono _ _ (λ n h1, holds [] h h1 [])).
  { destruct allow; [|apply os_wp_ret, holds_refl]. apply os_wp_bind, os_wp_sys.
    destruct (kernel h SdListenFds) as [n e]. apply os_wp_ret. by apply holds_call. }
  intros n h1 Hh1. case_decide as Hn.
  - apply os_wp_bind, os_wp_sys. destruct (kernel h1 _) as [ret err] eqn:Hk.
    assert (ret ≤ 0 → holds [] h (h1 ++ [SdIsSocket SD_LISTEN_FDS_START (sock_type_of t)]) []) as Hno.
    { intros Hr. eapply holds_nil; [done|]. eexists. split; [done|]. cbn. rewrite Hk. cbn.
      by rewrite decide_False by lia. }
    repeat case_decide; [apply os_wp_throw, Hno; lia..|]. apply os_wp_ret. split_and!; [done..|].
    eapply holds_trans; [done|]. eexists. split; [done|]. cbn. rewrite Hk. cbn.
    by rewrite decide_True by lia.
  - apply os_wp_bind, os_wp_check.
    + intros ret Hk Hr. apply os_wp_ret. split_and!; [done..|]. eapply holds_trans; [done|].
      eexists. split; [done|]. cbn. rewrite <- Hk. by rewrite decide_False.
    + intros Hk. eapply holds_nil; [done|]. eexists. split; [done|]. cbn. rewrite Hk. done.
Qed.

Lemma us_accept_holds s h :
  os_wp (us_accept s) (λ c h', us_fd c ≠ -1 ∧ holds [] h h' [us_fd c]) (λ _ h', holds [] h h' []) h.
Proof using Type.
  unfold us_accept. apply os_wp_bind, os_wp_check.
  - intros ret Hk Hr. apply os_wp_ret. split; [done|]. eexists. split; [done|]. cbn. rewrite <- Hk.
    by rewrite decide_False.
  - intros Hk. eexists. split; [done|]. cbn. by rewrite Hk.
Qed.

Lemma us_destroy_holds s h : us_fd s ≠ -1 → us_destroy s h = (inl (), h ++ [Close (us_fd s)]).
Proof using Type. intros Hs. unfold us_destroy, us_close. cbn. by rewrite decide_True. Qed.

(** The operations on a socket object. [accept] makes another one, and an
    object may be destroyed before the scope ends (a [unique_ptr] that is
    reset). *)
Inductive us_op :=
| OpConnect (path : bytes)
| OpBind (path : bytes)
| OpListen
| OpAccept
| OpMakeNonblocking
| OpPeerCred
| OpStart
| OpClose
| OpDestroy.

(** An operation on the object [s] at position [i] of the living ones. *)
Definition us_apply (objs : list UnixSocket) (i : nat) (s : UnixSocket) (op : us_op) : OS (list UnixSocket) :=
  match op with
  | OpConnect path => us_connect s path;; mret objs
  | OpBind path => us_bind s path;; mret objs
  | OpListen => us_listen s;; mret objs
  | OpAccept => c ← us_accept s; mret (objs ++ [c])
  | OpMakeNonblocking => us_make_nonblocking s;; mret objs
  | OpPeerCred => us_peer_cred s;; mret objs
  | OpStart => mret (<[i := us_start s]> objs)
  | OpClose => s' ← us_close s; mret (<[i := s']> objs)
  | OpDestroy => us_destroy s;; mret (delete i objs)
  end.

(** The destructors, last constructed first. *)
Fixpoint destroy_all (objs : list UnixSocket) : OS unit :=
  match objs with
  | [] => mret ()
  | s :: objs => destroy_all objs;; us_destroy s
  end.

(** Operations on the living objects, by position; at the end of the scope, or
    when one of them throws, all objects are destroyed. *)
Fixpoint us_run (objs : list UnixSocket) (ops : list (nat * us_op)) : OS unit :=
  match ops with
  | [] => destroy_all objs
  | (i, op) :: ops =>
    match objs !! i with
    | None => us_run objs ops
    | Some s => objs' ← unwinding (destroy_all objs) (us_apply objs i s op); us_run objs' ops
    end
  end.

Definition us_scope (t : us_type) (allow : bool) (ops : list (nat * us_op)) : OS unit :=
  s ← UnixSocket_new t allow; us_run [s] ops.

(** The descriptors of objects that are not closed. *)
Definition owned (objs : list UnixSocket) : list Z := filter (λ fd, fd ≠ -1) (us_fd <$> objs).

Lemma owned_perm l l' : l ≡ₚ l' → owned l ≡ₚ owned l'.
Proof using Type. intros Hl. unfold owned. by rewrite Hl. Qed.

Lemma owned_one s : owned [s] = if decide (us_fd s ≠ -1) then [us_fd s] else [].
Proof using Type. done. Qed.

Lemma owned_app l l' : owned (l ++ l') = owned l ++ owned l'.
Proof using Type. unfold owned. by rewrite fmap_app, filter_app. Qed.

Lemma owned_cons s objs : owned (s :: objs) = owned [s] ++ owned objs.
Proof using Type. apply (owned_app [s]). Qed.

Lemma owned_open s : us_fd s ≠ -1 → owned [s] = [us_fd s].
Proof using Type. intros Hs. by rewrite owned_one, decide_True. Qed.

Lemma owned_closed s : us_fd s = -1 → owned [s] = [].
Proof using Type. intros Hs. rewrite owned_one, decide_False; auto. Qed.

Lemma insert_perm (objs : list UnixSocket) i s s' : objs !! i = Some s → <[i := s']> objs ≡ₚ s' :: delete i objs.
Proof using Type.
  revert i. induction objs as [|x objs IH]; intros [|i] Hi; simplify_eq/=; [done|].
  rewrite (IH i Hi). apply Permutation_swap.
Qed.

Lemma holds_perm a a' b b' h h' : a ≡ₚ a' → b ≡ₚ b' → holds a h h' b → holds a' h h' b'.
Proof using Type. intros Ha Hb (cs & -> & P). exists cs. split; [done|]. by rewrite <- Ha, <- Hb. Qed.

(** [close()] gives the descriptor back and forgets it. *)
Lemma us_close_holds s h :
  ∃ h', us_close s h = (inl (mk_us (-1) (us_active s) (us_from_systemd s)), h') ∧ holds (owned [s]) h h' [].
Proof using Type.
  unfold us_close. rewrite owned_one. case_decide; eexists; (split; [done|]).
  - apply holds_close.
  - apply holds_refl.
Qed.

Lemma us_destroy_owned s h : ∃ h', us_destroy s h = (inl (), h') ∧ holds (owned [s]) h h' [].
Proof using Type.
  destruct (us_close_holds (mk_us (us_fd s) false (us_from_systemd s)) h) as (h' & Hc & Hh).
  exists h'. split; [|done]. unfold us_destroy, mbind, OS_bind. by rewrite Hc.
Qed.

Lemma destroy_all_owned objs h : ∃ h', destroy_all objs h = (inl (), h') ∧ holds (owned objs) h h' [].
Proof using Type.
  induction objs as [|s objs IH]; cbn [destroy_all]; [exists h; split; [done|apply holds_refl]|].
  destruct IH as (h1 & Hd & H1). destruct (us_destroy_owned s h1) as (h2 & Hs & H2).
  exists h2. split; [unfold mbind, OS_bind; by rewrite Hd|]. rewrite owned_cons.
  apply (holds_frame (owned [s])) in H1. rewrite app_nil_r in H1. by eapply holds_trans.
Qed.

Lemma us_apply_holds objs i s op h :
  objs !! i = Some s →
  os_wp (us_apply objs i s op) (λ objs' h', holds (owned objs) h h' (owned objs'))
    (λ _ h', holds (owned objs) h h' (owned objs)) h.
Proof using Type.
  intros Hi. pose proof (delete_Permutation objs i s Hi) as Hperm.
  assert (∀ m : OS unit, neutral m → os_wp (m;; mret objs) (λ objs' h', holds (owned objs) h h' (owned objs'))
    (λ _ h', holds (owned objs) h h' (owned objs)) h) as Hneutral.
  { intros m Hm. apply os_wp_bind. eapply os_wp_conseq; [apply Hm| |].
    - intros [] h' Hh. apply os_wp_ret. apply (holds_frame (owned objs)) in Hh. by rewrite app_nil_r in Hh.
    - intros e h' Hh. apply (holds_frame (owned objs)) in Hh. by rewrite app_nil_r in Hh. }
  assert (∀ s' h', holds (owned [s]) h h' (owned [s']) → holds (owned objs) h h' (owned (<[i := s']> objs))) as Hset.
  { intros s' h' Hh. apply (holds_frame (owned (delete i objs))) in Hh. revert Hh.
    apply holds_perm; rewrite Permutation_app_comm, <- owned_cons; symmetry; apply owned_perm;
      [done|by eapply insert_perm]. }
  destruct op; cbn [us_apply]; try apply Hneutral;
    [apply neutral_connect|apply neutral_bind_path|apply neutral_listen| |apply neutral_make_nonblocking
    |apply neutral_peer_cred| | |].
  - apply os_wp_bind. eapply os_wp_conseq; [apply us_accept_holds| |].
    + intros c h' [Hc Hh]. apply os_wp_ret. rewrite owned_app.
      rewrite (owned_open c) by done.
      apply (holds_frame (owned objs)) in Hh. by rewrite app_nil_r in Hh.
    + intros e h' Hh. apply (holds_frame (owned objs)) in Hh. by rewrite app_nil_r in Hh.
  - apply os_wp_ret, Hset. by destruct s; apply holds_refl.
  - apply os_wp_bind. destruct (us_close_holds s h) as (h' & Hc & Hh). unfold os_wp at 1. rewrite Hc.
    apply os_wp_ret, Hset. by rewrite (owned_closed (mk_us (-1) _ _)).
  - apply os_wp_bind. destruct (us_destroy_owned s h) as (h' & Hc & Hh). unfold os_wp at 1. rewrite Hc.
    apply os_wp_ret. apply (holds_frame (owned (delete i objs))) in Hh. rewrite app_nil_r in Hh. revert Hh.
    apply holds_perm; [|done]. rewrite Permutation_app_comm, <- owned_cons. symmetry. by apply owned_perm.
Qed.

Lemma us_run_holds objs ops h :
  os_wp (us_run objs ops) (λ _ h', holds (owned objs) h h' []) (λ _ h', holds (owned objs) h h' []) h.
Proof using Type.
  revert objs h. induction ops as [|[i op] ops IH]; intros objs h; cbn [us_run].
  { destruct (destroy_all_owned objs h) as (h' & Hd & Hh). unfold os_wp. by rewrite Hd. }
  destruct (objs !! i) as [s|] eqn:Hi; [|apply IH].
  apply os_wp_bind, os_wp_unwinding. eapply os_wp_conseq; [by apply us_apply_holds| |].
  - intros objs' h1 H1. eapply os_wp_conseq; [apply IH|intros ? h2 H2; exact (holds_trans _ _ _ _ _ _ H1 H2)..].
  - intros e h1 H1. destruct (destroy_all_owned objs h1) as (h2 & Hd & H2). cbn beta in *.
    rewrite Hd. exact (holds_trans _ _ _ _ _ _ H1 H2).
Qed.

(** C37: socket objects own their descriptors: whatever is done with a socket and
    the ones it accepted (an explicit [close()] and the destruction of some of
    them included) and wherever an exception is thrown, when the scope is left
    every descriptor they obtained (from [socket], [accept4] or systemd) has been
    closed, exactly once, and no other descriptor was closed. *)
Theorem socket_closed_exactly_once t allow ops h :
  ∃ cs, (us_scope t allow ops h).2 = h ++ cs ∧ opens h cs ≡ₚ closes cs.
Proof using Type.
  cut (os_wp (us_scope t allow ops) (λ _ h', holds [] h h' []) (λ _ h', holds [] h h' []) h).
  { unfold os_wp, holds. destruct (us_scope t allow ops h) as [[a|e] h']; cbn; setoid_rewrite app_nil_r; done. }
  unfold us_scope. apply os_wp_bind. eapply os_wp_mono; [apply UnixSocket_new_holds|].
  intros s h1 (Hs & _ & H1). cbn beta.
  pose proof (owned_open s Hs) as Ho.
  rewrite <- Ho in H1. eapply os_wp_conseq; [apply us_run_holds|intros ? h2 H2; exact (holds_trans _ _ _ _ _ _ H1 H2)..].
Qed.
End specs.

(** ** Instances *)
Lemma socket_addresses_exact_witness :
  sun_file (sun_path (bs "/run/psr" ++ bs "/" ++ bs "boardproxy")) = Some (bs "/run/psr" ++ bs "/" ++ bs "boardproxy") ∧
  (sun_path (bs "/run/psr" ++ bs "/" ++ bs "boardproxy") = sun_path (bs "/run/psr" ++ bs "/" ++ bs "www") →
   bs "boardproxy" = bs "www").
Proof.
  apply (socket_addresses_exact (bs "/run/psr") (bs "boardproxy") (bs "www"));
    [apply (bool_decide_unpack _); vm_compute; exact I..|vm_compute; lia|vm_compute; lia].
Defined.

Lemma long_directory_collides_witness :
  sun_path (replicate 107 "d"%byte ++ bs "/www") = sun_path (replicate 107 "d"%byte ++ bs "/wrproxy").
Proof.
  apply (long_directory_collides (replicate 107 "d"%byte));
    [apply (bool_decide_unpack _); vm_compute; exact I|vm_compute; lia].
Defined.
