(* ===== verification/Startup.v ===== *)
(** * Startup: the constructor of the daemon ([src/src/daemon.cpp])

    [Daemon::Daemon] and [Daemon::setup_listener]: which sockets the daemon
    listens on, in which order it makes its system calls, and what is left open
    when one of them fails. The state it ends in is the initial state of the
    event loop of [Daemon.v]. *)
From S2P Require Import Prelude Bytes Env Board World Daemon Os UnixSocket.

Local Open Scope Z_scope.

Definition SIGINT : Z := 2.
Definition SIGTERM : Z := 15.

Section startup.
Context `{Kernel}.

(** [Daemon::setup_listener]: returns the socket with its watcher started. *)
Definition setup_listener (sock : UnixSocket) (sock_name : bytes) : OS UnixSocket :=
  (if us_from_systemd sock then mret ()
   else
     _ ← sys (Unlink (c_str sock_name));
     us_bind sock sock_name;;
     us_listen sock);;
  mret (us_start sock).

(** The destructor of [std::list<std::unique_ptr<ProxyListener>>]. *)
Fixpoint destroy_all (l : list UnixSocket) : OS unit :=
  match l with
  | [] => mret ()
  | s :: l => us_destroy s;; destroy_all l
  end.

(** The loop over the factories; [acc] holds the listeners made so far. *)
Fixpoint setup_proxies (sock_dir : bytes) (fs : list ProxyFactory) (acc : list UnixSocket) :
    OS (list UnixSocket) :=
  match fs with
  | [] => mret acc
  | f :: fs =>
    s ← unwinding (destroy_all acc) (UnixSocket_new stream false);
    s ← unwinding (destroy_all (acc ++ [s])) (setup_listener s (sock_dir ++ bs "/" ++ sock_name f));
    setup_proxies sock_dir fs (acc ++ [s])
  end.

(** [Daemon::Daemon]: the state of the loop, the client listener and the
    listeners of the proxies. *)
Definition Daemon_new (sock_dir : bytes) (boards : list Board) (factories : list ProxyFactory) :
    OS (world * UnixSocket * list UnixSocket) :=
  client_listener ← UnixSocket_new seqpacket true;
  unwinding (us_destroy client_listener) (
    _ ← sys (SignalWatch SIGINT);
    _ ← sys (SignalWatch SIGTERM);
    '(ret, err) ← sys (Mkdir (c_str sock_dir));
    (if decide (ret = -1 ∧ err = EEXIST) then mret ()
     else if decide (ret = -1) then os_throw (SystemError (bs "sock_dir " ++ sock_dir))
     else mret ());;
    client_listener ← setup_listener client_listener (sock_dir ++ bs "/boardproxy");
    listeners ← setup_proxies sock_dir factories [];
    mret (mk_world boards ∅ [] [] (us_from_systemd client_listener) factories 0 0 0 [],
          client_listener, listeners)).

(** The socket is bound to the path and listening, by the calls of [cs]: first
    the stale file is removed, then bind, then listen. *)
Definition listening (s : UnixSocket) (path : bytes) (cs : list syscall) : Prop :=
  ∃ c1 c2 c3 c4, cs = c1 ++ Unlink (c_str path) :: c2 ++ Bind (us_fd s) (sun_path path) :: c3
    ++ Listen (us_fd s) 10 :: c4.

(** ** What is open when *)
Abbreviation opened l := (Forall (λ s, us_fd s ≠ -1) l).

Lemma destroy_all_calls l h : opened l → destroy_all l h = (inl (), h ++ (Close ∘ us_fd <$> l)).
Proof using Type.
  intros Hl. revert h. induction Hl as [|s l Hs _ IH]; intros h; cbn [destroy_all]; [by rewrite app_nil_r|].
  unfold mbind, OS_bind. rewrite us_destroy_holds by done. rewrite IH, <- app_assoc. done.
Qed.

Lemma destroy_all_holds l h : opened l → holds (us_fd <$> l) h (destroy_all l h).2 [].
Proof using Type.
  intros Hl. rewrite destroy_all_calls by done. eexists. split; [done|]. rewrite app_nil_r. clear Hl.
  revert h. induction l as [|s l IH]; intros h; cbn; [done|]. apply perm_skip, IH.
Qed.

Lemma neutral_setup_listener s name : neutral (setup_listener s name).
Proof using Type.
  unfold setup_listener. apply neutral_bind; [|intros; apply neutral_ret].
  destruct (us_from_systemd s); [apply neutral_ret|].
  apply neutral_bind; [by apply neutral_sys|]. intros _.
  apply neutral_bind; [apply neutral_bind_path|]. intros _. apply neutral_listen.
Qed.

Lemma setup_listener_socket s name h E :
  (∀ e h', E e h') →
  os_wp (setup_listener s name) (λ s' h', s' = us_start s ∧
    ∃ cs, h' = h ++ cs ∧ (us_from_systemd s = false → listening s name cs)) E h.
Proof using Type.
  intros HE. unfold setup_listener. apply os_wp_bind.
  eapply (os_wp_mono _ _ (λ _ h', ∃ cs, h' = h ++ cs ∧ (us_from_systemd s = false → listening s name cs))).
  2: { intros [] h1 (cs & -> & Hl). apply os_wp_ret. split; [done|]. by exists cs. }
  destruct (us_from_systemd s); [apply os_wp_ret; exists []; by rewrite app_nil_r|].
  apply os_wp_bind, os_wp_sys. apply os_wp_bind. unfold us_bind, us_make_nonblocking.
  apply os_wp_bind, os_wp_check; [|done]. intros r1 _ _.
  apply os_wp_bind, os_wp_check; [|done]. intros r2 _ _.
  apply os_wp_bind, os_wp_check; [|done]. intros r3 _ _. apply os_wp_ret.
  unfold us_listen. apply os_wp_bind, os_wp_sys. destruct (kernel _ _) as [ret err].
  case_decide; [apply os_wp_throw, HE|]. apply os_wp_ret. eexists. rewrite <- !app_assoc. split; [done|]. intros _.
  exists [], [], [FcntlGetFl (us_fd s); FcntlSetFl (us_fd s) (Z.lor r2 O_NONBLOCK)], []. done.
Qed.

Lemma listening_app s p c1 c2 c3 : listening s p c2 → listening s p (c1 ++ c2 ++ c3).
Proof using Type.
  intros (d1 & d2 & d3 & d4 & ->). exists (c1 ++ d1), d2, d3, (d4 ++ c3). by repeat (rewrite <- app_assoc; cbn).
Qed.

Lemma UnixSocket_new_fresh t h :
  os_wp (UnixSocket_new t false) (λ s h', ∃ cs, h' = h ++ cs ∧ us_from_systemd s = false) (λ _ _, True) h.
Proof using Type.
  unfold UnixSocket_new. apply os_wp_bind, os_wp_ret. rewrite decide_False by lia.
  apply os_wp_bind, os_wp_check; [|done]. intros ret _ _. apply os_wp_ret. by eexists.
Qed.

Lemma UnixSocket_new_extends t allow h :
  os_wp (UnixSocket_new t allow) (λ _ h', ∃ cs, h' = h ++ cs) (λ _ _, True) h.
Proof using Type.
  eapply os_wp_conseq; [apply UnixSocket_new_holds|..]; [|done].
  intros s h' (_ & _ & cs & -> & _). by exists cs.
Qed.

(** Two facts about one run. *)
Lemma os_wp_and {A} (m : OS A) Q1 Q2 E h :
  os_wp m Q1 (λ _ _, True) h → os_wp m Q2 E h → os_wp m (λ a h', Q1 a h' ∧ Q2 a h') E h.
Proof using Type. unfold os_wp. by destruct (m h) as [[a|e] h']. Qed.

Lemma setup_proxies_holds dir fs acc h :
  opened acc →
  os_wp (setup_proxies dir fs acc)
    (λ ls h', opened ls ∧ holds (us_fd <$> acc) h h' (us_fd <$> ls))
    (λ _ h', holds (us_fd <$> acc) h h' []) h.
Proof using Type.
  revert acc h. induction fs as [|f fs IH]; intros acc h Ha; cbn [setup_proxies].
  { apply os_wp_ret. split; [done|apply holds_refl]. }
  apply os_wp_bind, os_wp_unwinding.
  pose proof (UnixSocket_new_holds stream false h) as Hn. unfold os_wp at 1. unfold os_wp in Hn.
  destruct (UnixSocket_new stream false h) as [[s|e] h1].
  2: { eapply holds_trans; [|by apply destroy_all_holds].
       apply (holds_frame (us_fd <$> acc)) in Hn. by rewrite app_nil_r in Hn. }
  destruct Hn as (Hs & _ & Hn). apply (holds_frame (us_fd <$> acc)) in Hn. rewrite app_nil_r in Hn.
  assert (opened (acc ++ [s])) as Ha' by (by apply Forall_app; split; [|constructor]).
  apply os_wp_bind, os_wp_unwinding. pose proof (neutral_setup_listener s (dir ++ bs "/" ++ sock_name f) h1) as Hl.
  pose proof (setup_listener_socket s (dir ++ bs "/" ++ sock_name f) h1 (λ _ _, True) (λ _ _, I)) as Hst.
  unfold os_wp at 1. unfold os_wp in Hl, Hst.
  destruct (setup_listener s _ h1) as [[s'|e] h2]; apply (holds_frame (us_fd <$> acc ++ [s])) in Hl;
    rewrite app_nil_r, fmap_app in Hl; cbn [fmap list_fmap] in Hl.
  - destruct Hst as [-> _]. eapply os_wp_conseq; [apply IH|..].
    + by apply Forall_app; split; [|constructor].
    + intros ls h3 [Ho H3]. split; [done|]. rewrite fmap_app in H3. do 2 (eapply holds_trans; [done|]). done.
    + intros e h3 H3. rewrite fmap_app in H3. do 2 (eapply holds_trans; [done|]). done.
  - do 2 (eapply holds_trans; [done|]). pose proof (destroy_all_holds (acc ++ [s]) h2 Ha') as Hd.
    by rewrite fmap_app in Hd.
Qed.

Lemma setup_proxies_listen dir fs acc h :
  os_wp (setup_proxies dir fs acc)
    (λ ls h', ∃ ls' cs, ls = acc ++ ls' ∧ h' = h ++ cs ∧
       Forall2 (λ s f, us_active s = true ∧ listening s (dir ++ bs "/" ++ sock_name f) cs) ls' fs)
    (λ _ _, True) h.
Proof using Type.
  revert acc h. induction fs as [|f fs IH]; intros acc h; cbn [setup_proxies].
  { apply os_wp_ret. exists [], []. by rewrite !app_nil_r. }
  apply os_wp_bind, os_wp_unwinding. eapply os_wp_mono; [apply UnixSocket_new_fresh|].
  intros s h1 (c1 & -> & Hsys). cbn beta.
  apply os_wp_bind, os_wp_unwinding. eapply os_wp_mono; [by apply setup_listener_socket|].
  intros s' h2 (-> & c2 & -> & Hl). cbn beta. eapply os_wp_mono; [apply IH|].
  intros ls h3 (ls' & c3 & -> & -> & Hall). exists (us_start s :: ls'), (c1 ++ c2 ++ c3).
  rewrite <- !app_assoc. split_and!; [done..|]. constructor.
  - split; [done|]. apply listening_app. by apply (Hl Hsys).
  - eapply Forall2_impl; [done|]. intros t g [Ht Hg]. split; [done|].
    rewrite app_assoc, <- (app_nil_r c3), app_assoc. rewrite <- app_assoc. by apply listening_app.
Qed.

(** The state the constructor leaves. *)
Lemma Daemon_new_world dir boards fs h :
  os_wp (Daemon_new dir boards fs) (λ '(w, _, _) _,
    w_boards w = boards ∧ w_listeners w = fs ∧ (Forall (λ b, b_owner b = None) boards → initial w))
    (λ _ _, True) h.
Proof using Type.
  unfold Daemon_new. apply os_wp_bind. eapply os_wp_mono; [apply UnixSocket_new_extends|].
  intros s h1 _. cbn beta. apply os_wp_unwinding.
  do 2 (apply os_wp_bind, os_wp_sys). apply os_wp_bind, os_wp_sys. destruct (kernel _ (Mkdir _)) as [ret err].
  apply os_wp_bind. eapply (os_wp_mono _ _ (λ _ _, True)); [repeat case_decide; done|].
  intros [] h2 _. cbn beta. apply os_wp_bind. eapply os_wp_mono; [by apply setup_listener_socket|].
  intros s' h3 _. cbn beta. apply os_wp_bind. eapply os_wp_mono; [apply setup_proxies_listen|].
  intros ls h4 _. cbn beta. apply os_wp_ret. done.
Qed.

(** C26: a daemon that starts serves everything it was configured for: the event
    loop begins in an initial state with the configured boards, all free; every
    configured proxy socket and, unless systemd passed it, the client socket was
    unlinked, bound to its path in the socket directory and put to listen, in
    this order, and watches for connections. *)
Theorem daemon_starts_listening dir boards fs h w c ls h' :
  Forall (λ b, b_owner b = None) boards →
  Daemon_new dir boards fs h = (inl (w, c, ls), h') →
  initial w ∧ w_boards w = boards ∧ w_listeners w = fs ∧ w_systemd w = us_from_systemd c ∧
  us_active c = true ∧
  ∃ cs, h' = h ++ cs ∧
    (us_from_systemd c = false → listening c (dir ++ bs "/boardproxy") cs) ∧
    Forall2 (λ s f, us_active s = true ∧ listening s (dir ++ bs "/" ++ sock_name f) cs) ls fs.
Proof using Type.
  intros Hb. cut (os_wp (Daemon_new dir boards fs) (λ '(w, c, ls) h',
    initial w ∧ w_boards w = boards ∧ w_listeners w = fs ∧ w_systemd w = us_from_systemd c ∧
    us_active c = true ∧
    ∃ cs, h' = h ++ cs ∧
      (us_from_systemd c = false → listening c (dir ++ bs "/boardproxy") cs) ∧
      Forall2 (λ s f, us_active s = true ∧ listening s (dir ++ bs "/" ++ sock_name f) cs) ls fs)
    (λ _ _, True) h).
  { unfold os_wp. intros Hw Hd. by rewrite Hd in Hw. }
  clear w c ls h'. unfold Daemon_new. apply os_wp_bind. eapply os_wp_mono; [apply UnixSocket_new_extends|].
  intros s h1 [c1 ->]. cbn beta. apply os_wp_unwinding.
  do 2 (apply os_wp_bind, os_wp_sys). apply os_wp_bind, os_wp_sys. destruct (kernel _ (Mkdir _)) as [ret err].
  apply os_wp_bind. eapply (os_wp_mono _ _ (λ _ h', h' = (((h ++ c1) ++ [SignalWatch SIGINT]) ++ [SignalWatch SIGTERM])
    ++ [Mkdir (c_str dir)])); [repeat case_decide; done|].
  intros [] h2 ->. cbn beta. apply os_wp_bind. eapply os_wp_mono; [by apply setup_listener_socket|].
  intros s' h3 (-> & c2 & -> & Hl). cbn beta. apply os_wp_bind. eapply os_wp_mono; [apply setup_proxies_listen|].
  intros ls0 h4 (ls' & c3 & -> & -> & Hall). cbn beta. apply os_wp_ret. split_and!; try done.
  exists (c1 ++ [SignalWatch SIGINT; SignalWatch SIGTERM; Mkdir (c_str dir)] ++ c2 ++ c3).
  split; [by repeat (rewrite <- app_assoc; cbn)|]. split.
  - intros Hs. rewrite app_assoc. by apply (listening_app (us_start s)), Hl.
  - eapply Forall2_impl; [done|]. intros t g [Ht Hg]. split; [done|].
    apply (listening_app t _ (c1 ++ [SignalWatch SIGINT; SignalWatch SIGTERM; Mkdir (c_str dir)] ++ c2) _ []) in Hg.
    by rewrite app_nil_r, <- !app_assoc in Hg.
Qed.

(** starting leaks no descriptor: a daemon that starts holds exactly its
    listening sockets, and a start that fails in any system call has closed
    every descriptor it had obtained. *)
Theorem startup_leaks_nothing dir boards fs h :
  ∃ cs, (Daemon_new dir boards fs h).2 = h ++ cs ∧
    opens h cs ≡ₚ closes cs ++
      match (Daemon_new dir boards fs h).1 with
      | inl (_, c, ls) => us_fd c :: (us_fd <$> ls)
      | inr _ => []
      end.
Proof using Type.
  cut (os_wp (Daemon_new dir boards fs)
    (λ '(w, c, ls) h', holds [] h h' (us_fd c :: (us_fd <$> ls))) (λ _ h', holds [] h h' []) h).
  { unfold os_wp, holds. destruct (Daemon_new dir boards fs h) as [[[[w c] ls]|e] h']; done. }
  unfold Daemon_new. apply os_wp_bind. eapply os_wp_mono; [apply UnixSocket_new_holds|].
  intros s h1 (Hs & _ & H1). cbn beta. apply os_wp_unwinding.
  set (body := (_ ← sys (SignalWatch SIGINT); _)).
  assert (os_wp body (λ '(_, c, ls) h', us_fd c = us_fd s ∧ holds [] h1 h' (us_fd <$> ls))
    (λ _ h', holds [] h1 h' []) h1) as Hbody.
  { unfold body. apply os_wp_bind, os_wp_sys, os_wp_bind, os_wp_sys, os_wp_bind, os_wp_sys.
    destruct (kernel _ (Mkdir _)) as [ret err]. set (h2 := _ ++ [Mkdir _]).
    assert (holds [] h1 h2 []) as H2 by (do 2 (eapply holds_nil; [|by apply holds_call]); by apply holds_call).
    clearbody h2. apply os_wp_bind. eapply (os_wp_conseq _ _ (λ _ h', h' = h2) _ (λ _ h', h' = h2));
      [repeat case_decide; done| |by intros ? ? ->].
    intros [] h3 ->. cbn beta. apply os_wp_bind.
    eapply os_wp_conseq; [apply os_wp_and; [by apply setup_listener_socket|apply neutral_setup_listener]|..].
    2: { intros e h3 H3. by eapply holds_nil. }
    intros s' h3 [[-> _] H3]. cbn beta. apply os_wp_bind.
    eapply os_wp_conseq; [by apply setup_proxies_holds|..].
    - intros ls h4 [_ H4]. apply os_wp_ret. split; [done|]. by do 2 (eapply holds_trans; [done|]).
    - intros e h4 H4. by do 2 (eapply holds_trans; [done|]). }
  eapply os_wp_conseq; [exact Hbody|..].
  - intros [[w c] ls] h2 [Hc H2]. rewrite Hc. eapply holds_trans; [done|].
    by apply (holds_frame [us_fd s]) in H2.
  - intros e h2 H2. rewrite us_destroy_holds by done. cbn. eapply holds_trans; [done|].
    eapply holds_trans; [|apply holds_close]. by apply (holds_frame [us_fd s]) in H2.
Qed.
End startup.

(** ** Instances *)
Lemma daemon_starts_listening_witness :
  let fs := [TcpProxyFactory (bs "www") 80] in
  let w := mk_world [] ∅ [] [] false fs 0 0 0 [] in
  initial w ∧ listening (mk_us 13 true false) (bs "/tmp/bp/www")
    (@Daemon_new demo_kernel (bs "/tmp/bp") [] fs []).2.
Proof.
  destruct (@daemon_starts_listening demo_kernel (bs "/tmp/bp") [] [TcpProxyFactory (bs "www") 80] []
    (mk_world [] ∅ [] [] false [TcpProxyFactory (bs "www") 80] 0 0 0 [])
    (mk_us 4 true false) [mk_us 13 true false]
    (@Daemon_new demo_kernel (bs "/tmp/bp") [] [TcpProxyFactory (bs "www") 80] []).2)
    as (Hi & _ & _ & _ & _ & cs & Hcs & _ & Hl).
  - constructor.
  - vm_compute. reflexivity.
  - split; [exact Hi|]. rewrite Hcs. apply Forall2_cons_1 in Hl as [[_ Hl] _]. exact Hl.
Defined.
