(* ===== verification/Client.v ===== *)
(** * Client: the client process ([src/src/client.cpp]) and its meeting with the daemon

    The constructor connects to the daemon's socket and sends the setup message
    with the three standard descriptors; afterwards the client only waits for
    the end of the connection. The theorems join both sides: what the client
    sends is what the daemon's theorems assume, and it ends up in the session. *)
From S2P Require Import Prelude Bytes Protocol Env Board SocketProxy WrProxy TcpProxy World Session.
From S2P Require Import Daemon Allocation Invariant Conforming Pool Demo Os UnixSocket.

Local Open Scope Z_scope.

Definition STDIN_FILENO : Z := 0.
Definition STDOUT_FILENO : Z := 1.
Definition STDERR_FILENO : Z := 2.

(** [CMSG_SPACE(sizeof(int[3]))]: the header and the data, each aligned to 8. *)
Definition cmsg_space_3 : Z := 32.

Record Client := mk_client {
  cl_socket : UnixSocket;
  cl_is_connect : bool;
}.

Section client.
Context `{Kernel}.

(** [Client::send_setup]; [pad] is the padding of the message object. The result
    of [sendmsg] is not looked at. *)
Definition send_setup (s : UnixSocket) (cmd : command) (username : bytes) (no_wait : bool) (pad : bytes) :
    OS unit :=
  '(ppid, _) ← sys Getppid;
  _ ← sys (SendMsg (us_fd s) (setup_msg cmd ppid username no_wait pad) cmsg_space_3
             [STDIN_FILENO; STDOUT_FILENO; STDERR_FILENO]);
  _ ← sys (Close STDIN_FILENO);
  mret ().

(** [Client::Client] *)
Definition Client_new (sock_dir : bytes) (cmd : command) (username : bytes) (no_wait : bool) (pad : bytes) :
    OS Client :=
  socket ← UnixSocket_new seqpacket false;
  unwinding (us_destroy socket) (
    let is_connect := bool_decide (cmd = connect) in
    (if is_connect then
       '(tty, _) ← sys (Isatty STDOUT_FILENO);
       if decide (tty ≠ 0) then _ ← sys (Say STDOUT_FILENO (bs "Welcome to boardproxy" ++ [x0a])); mret ()
       else mret ()
     else mret ());;
    us_connect socket (sock_dir ++ bs "/boardproxy");;
    let socket := us_start socket in
    send_setup socket cmd username no_wait pad;;
    mret (mk_client socket is_connect)).

(** [Client::on_data_from_daemon]: the end of the connection stops the watcher,
    and with it the client's loop. [ret] is the result of [read]. *)
Definition on_data_from_daemon (c : Client) (ret : Z) : OS Client :=
  if decide (ret = 0) then
    (if cl_is_connect c
     then _ ← sys (Say STDERR_FILENO (bs "Server closed connection" ++ [x0a])); mret ()
     else mret ());;
    mret (mk_client (mk_us (us_fd (cl_socket c)) false (us_from_systemd (cl_socket c))) (cl_is_connect c))
  else mret c.
End client.

(** ** The message in transit

    A message sent with three descriptors arrives with its bytes and control
    length, and the kernel's new numbers for the descriptors. *)
Definition delivered (c : syscall) (fds : Z * Z * Z) : option recv_res :=
  match c with
  | SendMsg _ data ctl [_; _; _] => Some (RecvMsg data ctl [mk_cmsg SOL_SOCKET SCM_RIGHTS fds])
  | _ => None
  end.

(** The messages a client sends. *)
Definition messages (cs : list syscall) : list syscall :=
  omap (λ c, match c with SendMsg _ _ _ _ => Some c | _ => None end) cs.

Lemma send_setup_delivered fd cmd ppid user nw pad fds :
  delivered (SendMsg fd (setup_msg cmd ppid user nw pad) cmsg_space_3
    [STDIN_FILENO; STDOUT_FILENO; STDERR_FILENO]) fds
  = Some (RecvMsg (setup_msg cmd ppid user nw pad) 32 [mk_cmsg SOL_SOCKET SCM_RIGHTS fds]).
Proof. done. Qed.

Lemma rights_found (fds : Z * Z * Z) : find_rights 32 [mk_cmsg SOL_SOCKET SCM_RIGHTS fds] = Some fds.
Proof. done. Qed.

Section protocol.
Context `{Kernel}.

Lemma Client_new_connect dir cmd user nw pad h :
  os_wp (Client_new dir cmd user nw pad) (λ c _, cl_is_connect c = bool_decide (cmd = connect)) (λ _ _, True) h.
Proof using Type.
  unfold Client_new. apply os_wp_bind. eapply os_wp_conseq; [apply UnixSocket_new_holds| |done].
  intros s h1 _. apply os_wp_unwinding, os_wp_bind. eapply (os_wp_mono _ _ (λ _ _, True)).
  { case_bool_decide; [|done]. apply os_wp_bind, os_wp_sys. destruct (kernel _ _). by case_decide. }
  intros [] h2 _. apply os_wp_bind. eapply os_wp_conseq; [apply neutral_connect| |done].
  intros [] h3 _. apply os_wp_bind. unfold send_setup. apply os_wp_bind, os_wp_sys.
  destruct (kernel _ Getppid). by repeat apply os_wp_bind, os_wp_sys.
Qed.

(** C27: the client follows the protocol: a client that starts has connected its
    socket to [boardproxy] in the socket directory and then sent one message and
    no other, and that message, delivered to a session that had none, is an
    event of a conforming client, so the theorems about conforming clients hold
    for every daemon that has only clients of this program. *)
Theorem client_speaks_protocol dir cmd user nw pad h c h' :
  Client_new dir cmd user nw pad h = (inl c, h') →
  ∃ c1 msg c2, h' = h ++ c1 ++ msg :: c2 ∧
    messages c1 = [] ∧ messages c2 = [] ∧
    Connect (us_fd (cl_socket c)) (sun_path (dir ++ bs "/boardproxy")) ∈ c1 ∧
    ∀ fds, ∃ r, delivered msg fds = Some r ∧
      ∀ w p s, w_heap w !! p = Some s → ses_status s = created → conforming w (EvClientData p r).
Proof using Type.
  cut (os_wp (Client_new dir cmd user nw pad) (λ c h', ∃ c1 msg c2, h' = h ++ c1 ++ msg :: c2 ∧
    messages c1 = [] ∧ messages c2 = [] ∧
    Connect (us_fd (cl_socket c)) (sun_path (dir ++ bs "/boardproxy")) ∈ c1 ∧
    ∀ fds, ∃ r, delivered msg fds = Some r ∧
      ∀ w p s, w_heap w !! p = Some s → ses_status s = created → conforming w (EvClientData p r))
    (λ _ _, True) h).
  { unfold os_wp. intros Hw Hc. by rewrite Hc in Hw. }
  unfold Client_new, UnixSocket_new. apply os_wp_bind, os_wp_bind, os_wp_ret.
  rewrite decide_False by lia. apply os_wp_bind, os_wp_check; [|done]. intros fd _ _. apply os_wp_ret.
  apply os_wp_unwinding, os_wp_bind.
  eapply (os_wp_mono _ _ (λ _ h', ∃ cs, h' = (h ++ [Socket (sock_type_of seqpacket)]) ++ cs ∧ messages cs = [])).
  { case_bool_decide; [|apply os_wp_ret; exists []; by rewrite app_nil_r].
    apply os_wp_bind, os_wp_sys. destruct (kernel _ _) as [tty err].
    case_decide; [|apply os_wp_ret; by eexists].
    apply os_wp_bind, os_wp_sys, os_wp_ret. eexists. by rewrite <- app_assoc. }
  intros [] h1 (cs & -> & Hcs). cbn beta. apply os_wp_bind. unfold us_connect, us_make_nonblocking.
  apply os_wp_bind, os_wp_check; [|done]. intros r1 _ _.
  apply os_wp_bind, os_wp_check; [|done]. intros r2 _ _.
  apply os_wp_bind, os_wp_check; [|done]. intros r3 _ _. apply os_wp_ret.
  apply os_wp_bind. unfold send_setup. apply os_wp_bind, os_wp_sys. destruct (kernel _ Getppid) as [ppid err].
  apply os_wp_bind, os_wp_sys, os_wp_bind, os_wp_sys, os_wp_ret, os_wp_ret. cbn [cl_socket us_fd us_start].
  eexists (Socket _ :: cs ++ [Connect fd _; FcntlGetFl fd; FcntlSetFl fd _; Getppid]), _, [Close STDIN_FILENO].
  split; [by repeat (rewrite <- app_assoc; cbn)|].
  split; [unfold messages in *; cbn; rewrite omap_app, Hcs; done|].
  split; [done|]. split; [set_solver|]. intros fds. eexists. split; [by apply send_setup_delivered|].
  intros w p s Hp Hs. right. split; [|by eauto]. split; [by do 5 eexists|]. rewrite rights_found.
  split; [unfold sizeof_myfds; lia|by eexists].
Qed.
End protocol.

(** ** The message at the daemon *)
Section arrival.
Context `{Env}.

(** What the session knows of its client after a message of the client asked
    for a board. *)
Definition knows_client (s : Session) (ppid : Z) (user : bytes) (fds : Z * Z * Z) (s' : Session) : Prop :=
  ses_ppid s' = s32 ppid ∧ ses_username s' = take 31 (c_str user) ∧
  (ses_status s' = awaiting_board → (ses_fd_in s', ses_fd_out s', ses_fd_err s') = fds) ∧
  ses_id s' = ses_id s ∧ ses_client_fd s' = ses_client_fd s.

(** What [assign_board] does not touch. *)
Lemma assign_board_keeps p s i b w :
  w_heap w !! p = Some s → w_boards w !! i = Some b →
  wp True (assign_board p i)
    (λ _ w', ∃ s', w_heap w' !! p = Some s' ∧ ses_status s' = has_board ∧ ses_ppid s' = ses_ppid s ∧
       ses_username s' = ses_username s ∧ ses_id s' = ses_id s ∧ ses_client_fd s' = ses_client_fd s ∧
       w_wait_queue w' = w_wait_queue w) (λ _ _, True) w.
Proof using Type.
  intros Hp Hi. unfold assign_board, start_process.
  do 4 wp_step. eapply wp_bind, wp_deref_board; [done|]. cbn beta iota.
  wp_step. wp_step. wp_step. eapply wp_deref; [by simplify_map_eq|].
  wp_step. wp_step. wp_step. eapply wp_deref; [by simplify_map_eq|]. wp_step. cbn [ses_board set_board compose].
  eapply wp_deref_board. { cbn. by rewrite list_lookup_alter, decide_True, Hi. }
  cbn beta iota. wp_step. apply wp_split_command; [intros args _|done]. wp_step. wp_step.
  case_decide as Hf; [done|].
  wp_step. wp_step. wp_step. eexists. split; [cbn; by simplify_map_eq|]. done.
Qed.

Definition served (p : ptr) (s : Session) (ppid : Z) (user : bytes) (fds : Z * Z * Z) (w' : world) : Prop :=
  ∃ s', w_heap w' !! p = Some s' ∧ knows_client s ppid user fds s' ∧
    (ses_status s' = has_board ∨ ses_status s' = awaiting_board ∧ p ∈ w_wait_queue w').

Lemma on_setup_msg_served p s ppid user pad rest i o e w :
  inv w → w_heap w !! p = Some s → ses_status s = created →
  ses_buffer s = setup_msg connect ppid user false pad ++ rest →
  wp True (on_setup_msg p 32 [mk_cmsg SOL_SOCKET SCM_RIGHTS (i, o, e)])
    (λ _, served p s ppid user (i, o, e)) (λ _ _, True) w.
Proof using Type.
  intros Hi Hp Hst Hbuf. unfold on_setup_msg. rewrite decide_False by (unfold sizeof_myfds; lia).
  do 2 wp_step. rewrite rights_found. do 2 wp_step.
  rewrite Hbuf, setup_msg_username, setup_msg_cmd, setup_msg_no_wait, setup_msg_ppid. do 5 wp_step.
  cbn [w_heap set_heap]. rewrite insert_insert_eq.
  set (s1 := set_status awaiting_board _). set (w1 := set_heap _ _).
  assert (w_heap w1 !! p = Some s1) as Hp1 by (unfold w1; cbn; by simplify_map_eq).
  assert (knows_client s ppid user (i, o, e) s1) as Hk by (split_and!; done).
  unfold daemon_assign_board. do 3 wp_step. apply wp_find. cbn beta. fold s1.
  destruct (find_available_board (get_username s1) (w_boards w1)) as [j|] eqn:Ef.
  - destruct (find_available_board_Some _ _ _ Ef) as (b & Hb & _).
    eapply wp_mono; [by eapply assign_board_keeps|].
    intros [] w2 (s2 & Hp2 & Hs2 & H1 & H2 & H3 & H4 & _). cbn beta. do 2 wp_step.
    rewrite decide_False by congruence. wp_step. exists s2. split_and!; [done| |by left].
    destruct Hk as (K1 & K2 & _ & K4 & K5). split_and!; [congruence..| |congruence|congruence]. congruence.
  - wp_step. do 2 wp_step. rewrite decide_True by done. wp_step.
    set (w2 := set_queue _ w1). assert (inv w2) as Hi2.
    { assert (inv w1) as [I1 I2 I3 I4 I5].
      { change w1 with (set_heap (<[p := s1]> (w_heap w)) w). eapply inv_update; [done..|]. cbn. intros Hx. apply (inv_has _ Hi p s Hp). naive_solver. }
      split; cbn; try done.
      intros q [Hq| ->%list_elem_of_singleton]%elem_of_app; [by apply I3|]. exists s1. exact Hp1. }
    eapply wp_mono; [by apply wp_print_status|]. intros [] w3 [_ Eh _ Eq _ _]. cbn beta.
    repeat wp_step. exists s1. cbn [w_heap w_wait_queue log_effects]. rewrite Eh, Eq.
    split_and!; [done..|]. right. split; [done|]. cbn. set_solver.
Qed.

(** C6: the setup message survives the trip: when the daemon receives the message
    of a client that asks for a board and is willing to wait, then afterwards
    the session of that client exists, holds the client's parent process id,
    the user name (its first 31 bytes) and, while it waits, the received
    descriptors, and it either has a board or stands in the wait queue. *)
Theorem setup_reaches_session w p s ppid user pad fds w' :
  reachable conforming w → w_heap w !! p = Some s → ses_status s = created →
  step w (EvClientData p (RecvMsg (setup_msg connect ppid user false pad) 32
            [mk_cmsg SOL_SOCKET SCM_RIGHTS fds])) w' →
  served p s ppid user fds w'.
Proof using Type.
  intros Hr Hp Hst [_ Hh]. pose proof (reachable_conf w Hr) as [[Hi _ _ _ _] _]. destruct fds as [[i o] e].
  set (data := setup_msg connect ppid user false pad) in *.
  cut (wp True (on_data_from_client p (RecvMsg data 32
    [mk_cmsg SOL_SOCKET SCM_RIGHTS (i, o, e)])) (λ _, served p s ppid user (i, o, e)) (λ _ _, True) w).
  { unfold wp. cbn [handle] in Hh. by rewrite Hh. }
  unfold on_data_from_client. do 2 wp_step.
  assert (length data = sizeof_setup) as Hlen by apply length_setup_msg.
  rewrite take_ge by (rewrite Hlen; pose proof session_buffer_size_eq; unfold sizeof_setup; lia).
  destruct data as [|b d] eqn:Ed; [done|]. rewrite <- Ed in Hlen |- *. clear b d Ed Hh. do 2 wp_step.
  rewrite decide_False by (rewrite Hlen; unfold sizeof_setup, sizeof_header; lia). do 2 wp_step.
  cbn [ses_buffer set_buffer]. unfold recv_into, data. rewrite setup_msg_id, decide_True by done.
  eapply wp_mono; [eapply (on_setup_msg_served p); [|cbn; by apply lookup_insert_eq|done|done]|done].
  by eapply inv_same_board.
Qed.
End arrival.

(** ** Instances *)
Lemma client_speaks_protocol_witness :
  ∃ c h', @Client_new demo_kernel (bs "/tmp/bp") connect (bs "bob") false [] [] = (inl c, h') ∧
    ∃ c1 msg c2, h' = [] ++ c1 ++ msg :: c2 ∧ messages c1 = [] ∧ messages c2 = [].
Proof.
  eexists _, _. split; [vm_compute; reflexivity|].
  edestruct (@client_speaks_protocol demo_kernel (bs "/tmp/bp") connect (bs "bob") false [] [])
    as (c1 & msg & c2 & Hh & H1 & H2 & _).
  - vm_compute. reflexivity.
  - exists c1, msg, c2. split; [exact Hh|]. split; [exact H1|exact H2].
Defined.

Lemma setup_reaches_session_witness :
  let w := demo (take 1 demo_sessions) in
  let ev := demo_setup 1 connect 1001 false 20 in
  served 1 (session_at w 1) 1001 [] (20, 21, 22)
    (match @handle demo_env ev w with Ok _ w' => w' | _ => w end).
Proof.
  apply (@setup_reaches_session demo_env (demo (take 1 demo_sessions)) 1
    (session_at (demo (take 1 demo_sessions)) 1) 1001 [] [] (20, 21, 22));
    [apply demo_conforming|vm_compute; reflexivity..|].
  split; [apply enabledb_sound; vm_compute; reflexivity|vm_compute; reflexivity].
Defined.
