(* ===== verification/TomlNode.v ===== *)
(** * TomlNode: the document model of toml++ ([src/include/toml.hpp])

    The nodes of a parsed document and the operations on them that the program
    uses: tables ordered by key as in [std::map], look-up, and the conversions
    of [node::value] and [node::value_or]. *)
From Stdlib Require Import SpecFloat Sorted.
From S2P Require Import Prelude Bytes.

Local Open Scope Z_scope.

(** ** Ordered maps with string keys ([impl::string_map]) *)

(** The order of [std::less<>] on strings: bytes compare as unsigned. *)
Fixpoint bytes_compare (a b : bytes) : comparison :=
  match a, b with
  | [], [] => Eq
  | [], _ :: _ => Lt
  | _ :: _, [] => Gt
  | x :: a, y :: b =>
    match byte_to_Z x ?= byte_to_Z y with
    | Eq => bytes_compare a b
    | c => c
    end
  end.

Definition string_map (A : Type) : Type := list (bytes * A).

(** [table::do_get] *)
Fixpoint do_get {A} (vals : string_map A) (key : bytes) : option A :=
  match vals with
  | [] => None
  | (k, v) :: vals => if decide (k = key) then Some v else do_get vals key
  end.

(** [std::map::emplace]: an existing entry is kept. *)
Fixpoint emplace {A} (key : bytes) (v : A) (vals : string_map A) : string_map A :=
  match vals with
  | [] => [(key, v)]
  | (k, x) :: rest =>
    match bytes_compare key k with
    | Lt => (key, v) :: vals
    | Eq => vals
    | Gt => (k, x) :: emplace key v rest
    end
  end.

(** The mapped value of an existing key, changed in place. *)
Fixpoint map_alter {A} (f : A → A) (key : bytes) (vals : string_map A) : string_map A :=
  match vals with
  | [] => []
  | (k, x) :: rest => if decide (k = key) then (k, f x) :: rest else (k, x) :: map_alter f key rest
  end.

(** ** Nodes *)
Record source_position := mk_pos { pos_line : Z; pos_column : Z }.
#[global] Instance source_position_eq_dec : EqDecision source_position.
Proof. solve_decision. Defined.

(** [source_position::operator<] and [operator<=] *)
Definition pos_lt (a b : source_position) : bool :=
  (pos_line a <? pos_line b) || ((pos_line a =? pos_line b) && (pos_column a <? pos_column b)).
Definition pos_le (a b : source_position) : bool :=
  (pos_line a <? pos_line b) || ((pos_line a =? pos_line b) && (pos_column a <=? pos_column b)).

Record source_region := mk_region {
  reg_begin : source_position;
  reg_end : source_position;
  reg_path : option bytes;
}.

(** A [toml::parse_error]. *)
Record parse_error := mk_parse_error { pe_description : bytes; pe_source : source_region }.

Inductive node_type :=
| ty_none | ty_table | ty_array | ty_string | ty_integer | ty_floating_point | ty_boolean
| ty_date | ty_time | ty_date_time.
#[global] Instance node_type_eq_dec : EqDecision node_type.
Proof. solve_decision. Defined.

Record date := mk_date { d_year : Z; d_month : Z; d_day : Z }.
Record time := mk_time { t_hour : Z; t_minute : Z; t_second : Z; t_nanosecond : Z }.
Record date_time := mk_date_time { dt_date : date; dt_time : time; dt_offset : option Z }.

(** [value_flags]: how an integer was written. *)
Inductive value_flags := no_flags | format_as_binary | format_as_octal | format_as_hexadecimal.
#[global] Instance value_flags_eq_dec : EqDecision value_flags.
Proof. solve_decision. Defined.

(** The nodes. [addr] is the identity of a table or an array as an object: what
    the parser compares when it compares pointers. *)
Inductive node :=
| Table (addr : positive) (map : list (bytes * node)) (inline_ : bool) (src : source_region)
| Array (addr : positive) (elements : list node) (src : source_region)
| VString (s : bytes) (src : source_region)
| VInteger (z : Z) (flags : value_flags) (src : source_region)
| VFloat (x : spec_float) (src : source_region)
| VBoolean (b : bool) (src : source_region)
| VDate (d : date) (src : source_region)
| VTime (t : time) (src : source_region)
| VDateTime (dt : date_time) (src : source_region).

(** A [const table*]. *)
Definition table : Type := string_map node * source_region.

Definition node_type_of (n : node) : node_type :=
  match n with
  | Table _ _ _ _ => ty_table
  | Array _ _ _ => ty_array
  | VString _ _ => ty_string
  | VInteger _ _ _ => ty_integer
  | VFloat _ _ => ty_floating_point
  | VBoolean _ _ => ty_boolean
  | VDate _ _ => ty_date
  | VTime _ _ => ty_time
  | VDateTime _ _ => ty_date_time
  end.

Definition source (n : node) : source_region :=
  match n with
  | Table _ _ _ r | Array _ _ r | VString _ r | VInteger _ _ r | VFloat _ r | VBoolean _ r
  | VDate _ r | VTime _ r | VDateTime _ r => r
  end.

(** *** Copies

    Copying a node ([make_node] of a [const node&], the copy constructors of
    [table], [array] and [value]) copies all of it but where it came from. *)
Definition no_region : source_region := mk_region (mk_pos 0 0) (mk_pos 0 0) None.

Fixpoint copy_node (n : node) : node :=
  match n with
  | Table a m i _ => Table a (map (λ kv, (kv.1, copy_node kv.2)) m) i no_region
  | Array a els _ => Array a (map copy_node els) no_region
  | VString s _ => VString s no_region
  | VInteger z fl _ => VInteger z fl no_region
  | VFloat x _ => VFloat x no_region
  | VBoolean b _ => VBoolean b no_region
  | VDate d _ => VDate d no_region
  | VTime t _ => VTime t no_region
  | VDateTime dt _ => VDateTime dt no_region
  end.

Definition copy_map (m : string_map node) : string_map node := map (λ kv, (kv.1, copy_node kv.2)) m.
Definition copy_table (t : table) : table := (copy_map t.1, no_region).

(** [node::as_table] *)
Definition as_table (n : node) : option table :=
  match n with Table _ m _ r => Some (m, r) | _ => None end.

Definition is_string (n : node) : bool := bool_decide (node_type_of n = ty_string).

(** ** Views: [table::operator[]] and the [node_view] it returns *)
Definition view (t : table) (key : bytes) : option node := do_get t.1 key.

Definition view_type (v : option node) : node_type := from_option node_type_of ty_none v.

Definition contains (t : table) (key : bytes) : bool := bool_decide (is_Some (do_get t.1 key)).

(** ** Values *)

(** [node::value<std::string>] *)
Definition value_string (n : node) : option bytes :=
  match n with VString s _ => Some s | _ => None end.

(** [value_or("")]: a [const char*], so what is read of it ends at a NUL. *)
Definition value_or_cstr (n : node) : bytes :=
  match n with VString s _ => c_str s | _ => [] end.

(** [node_integer_cast<T>] for an unsigned [T] of [bits] bits, [bits < 63]. *)
Definition node_integer_cast (bits : Z) (val : Z) : option Z :=
  if decide (val < 0 ∨ val > 2 ^ bits - 1) then None else Some val.

(** The integer a finite double equals, if it is one. *)
Definition float_integer (x : spec_float) : option Z :=
  match x with
  | S754_zero _ => Some 0
  | S754_finite s m e =>
    let mag :=
      if decide (0 ≤ e) then Some (Z.pos m * 2 ^ e)
      else if decide (Z.pos m mod 2 ^ (- e) = 0) then Some (Z.pos m / 2 ^ (- e)) else None in
    (λ v, if s then - v else v) <$> mag
  | S754_infinity _ | S754_nan => None
  end.

(** [node::value<uint16_t>]: integers in range, and, as the library converts
    where nothing is lost, whole floats and booleans. A float that does not fit
    an [int64_t] has no defined conversion: the outer [None]. *)
Definition value_u16 (n : node) : option (option Z) :=
  match n with
  | VInteger z _ _ => Some (node_integer_cast 16 z)
  | VFloat x _ =>
    match float_integer x with
    | Some z => if decide (- 2 ^ 63 ≤ z < 2 ^ 63) then Some (node_integer_cast 16 z) else None
    | None =>
      match x with
      | S754_finite s m e => if decide (Z.pos m < 2 ^ 63 * 2 ^ (- e)) then Some None else None
      | _ => None
      end
    end
  | VBoolean b _ => Some (Some (if b then 1 else 0))
  | _ => Some None
  end.

(** ** Copies have the same values *)
Lemma view_copy t k : view (copy_table t) k = copy_node <$> view t k.
Proof.
  unfold view, copy_table, copy_map. cbn [fst]. induction t.1 as [|[k' n] m IH]; cbn; [done|]. by case_decide.
Qed.

Lemma as_table_copy n : as_table (copy_node n) = copy_table <$> as_table n.
Proof. by destruct n. Qed.

Lemma is_string_copy n : is_string (copy_node n) = is_string n.
Proof. by destruct n. Qed.

Lemma value_string_copy n : value_string (copy_node n) = value_string n.
Proof. by destruct n. Qed.

Lemma value_or_cstr_copy n : value_or_cstr (copy_node n) = value_or_cstr n.
Proof. by destruct n. Qed.

Lemma value_u16_copy n : value_u16 (copy_node n) = value_u16 n.
Proof. by destruct n. Qed.

Lemma copy_table_inv n a m' i r' :
  copy_node n = Table a m' i r' → ∃ m r, n = Table a m i r ∧ m' = copy_map m.
Proof. destruct n; try done. intros [= <- <- <- <-]. eauto. Qed.

(** ** The map is ordered *)
Lemma bytes_compare_eq a b : bytes_compare a b = Eq ↔ a = b.
Proof.
  revert b. induction a as [|x a IH]; intros [|y b]; cbn; try done.
  destruct (Z.compare_spec (byte_to_Z x) (byte_to_Z y)) as [Hxy|Hxy|Hxy].
  - apply byte_to_Z_inj in Hxy as ->. rewrite IH. split; congruence.
  - split; [done|]. intros [= -> ->]. lia.
  - split; [done|]. intros [= -> ->]. lia.
Qed.

Lemma bytes_compare_antisym a b : bytes_compare b a = CompOpp (bytes_compare a b).
Proof.
  revert b. induction a as [|x a IH]; intros [|y b]; cbn; try done.
  rewrite Z.compare_antisym. destruct (byte_to_Z x ?= byte_to_Z y); cbn; [apply IH|done|done].
Qed.

Definition blt (a b : bytes) : Prop := bytes_compare a b = Lt.
#[global] Instance blt_dec a b : Decision (blt a b).
Proof. unfold blt. apply _. Defined.

#[global] Instance blt_trans : Transitive blt.
Proof.
  intros a. unfold blt. induction a as [|x a IH]; intros [|y b] [|z c]; cbn; try done.
  destruct (Z.compare_spec (byte_to_Z x) (byte_to_Z y)) as [Hxy|Hxy|Hxy],
    (Z.compare_spec (byte_to_Z y) (byte_to_Z z)) as [Hyz|Hyz|Hyz];
    destruct (Z.compare_spec (byte_to_Z x) (byte_to_Z z)) as [Hxz|Hxz|Hxz]; try done; try lia.
  apply IH.
Qed.

Lemma blt_irrefl a : ¬ blt a a.
Proof. unfold blt. by rewrite (proj2 (bytes_compare_eq a a) eq_refl). Qed.

(** The entries of a [std::map]: strictly ascending by key. *)
Definition ascending {A} (vals : string_map A) : Prop := StronglySorted (λ a b, blt a.1 b.1) vals.

Section string_map.
Context {A : Type}.
Implicit Types (vals : string_map A).

Lemma emplace_keys key (v : A) vals k : k ∈ (emplace key v vals).*1 → k = key ∨ k ∈ vals.*1.
Proof.
  induction vals as [|[k' x] vals IH]; cbn [emplace]; [set_solver|].
  destruct (bytes_compare key k'); set_solver.
Qed.

Lemma emplace_ascending key (v : A) vals : ascending vals → ascending (emplace key v vals).
Proof.
  unfold ascending. induction 1 as [|[k x] vals Hs IH Hall]; cbn [emplace]; [by repeat constructor|].
  destruct (bytes_compare key k) eqn:Hc.
  - by constructor.
  - constructor; [by constructor|]. constructor; [done|].
    eapply Forall_impl; [done|]. intros y Hy. cbn in *. by etransitivity.
  - constructor; [done|]. apply Forall_forall. intros y Hy.
    apply (list_elem_of_fmap_2 fst), emplace_keys in Hy as [Hy|Hy]; cbn.
    + rewrite Hy. unfold blt. by rewrite bytes_compare_antisym, Hc.
    + apply list_elem_of_fmap in Hy as (z & -> & Hz). rewrite Forall_forall in Hall. by apply Hall.
Qed.

Ltac by_cases := repeat (case_decide; cbn); try done; congruence.

Lemma do_get_below key vals : Forall (λ b, blt key b.1) vals → do_get vals key = None.
Proof.
  induction 1 as [|[k x] vals Hk _ IH]; cbn; [done|]. rewrite decide_False; [done|].
  intros ->. by eapply blt_irrefl.
Qed.

Lemma do_get_emplace key k (v : A) vals :
  ascending vals →
  do_get (emplace key v vals) k
  = if decide (k = key) then Some (default v (do_get vals key)) else do_get vals k.
Proof.
  induction 1 as [|[k' x] vals Hs IH Hall]; cbn [emplace do_get].
  { cbn. by_cases. }
  destruct (bytes_compare key k') eqn:Hc.
  - apply bytes_compare_eq in Hc as ->. cbn. by_cases.
  - cbn. assert (k' ≠ key) by (intros ->; by eapply blt_irrefl).
    rewrite (do_get_below key).
    2: { eapply Forall_impl; [done|]. intros y Hy. cbn in *. by etransitivity. }
    by_cases.
  - cbn. assert (k' ≠ key) by (intros ->; by rewrite (proj2 (bytes_compare_eq key key) eq_refl) in Hc).
    rewrite IH. by_cases.
Qed.

Lemma map_alter_ascending f key vals : ascending vals → ascending (map_alter f key vals).
Proof.
  assert (∀ l, (map_alter f key l).*1 = l.*1) as Hk.
  { induction l as [|[k x] l IHl]; cbn; [done|]. case_decide; cbn; [done|]. by rewrite IHl. }
  unfold ascending. induction 1 as [|[k x] vals Hs IH Hall]; cbn [map_alter]; [constructor|].
  case_decide; [by constructor|]. constructor; [done|]. apply (Forall_fmap fst (blt k)). rewrite Hk.
  by apply Forall_fmap.
Qed.

Lemma do_get_alter f key k vals :
  do_get (map_alter f key vals) k = if decide (k = key) then f <$> do_get vals key else do_get vals k.
Proof.
  induction vals as [|[k' x] vals IH]; cbn; [by case_decide|].
  repeat (case_decide; cbn); subst; try congruence; rewrite IH; by repeat case_decide.
Qed.

Lemma do_get_elem k (v : A) vals : do_get vals k = Some v → (k, v) ∈ vals.
Proof.
  induction vals as [|[k' x] vals IH]; cbn; [done|]. case_decide; [|right; auto].
  intros [= ->]. subst. by left.
Qed.

Lemma do_get_absent k vals : k ∉ vals.*1 → do_get vals k = None.
Proof.
  induction vals as [|[k' x] vals IH]; cbn; [done|]. rewrite not_elem_of_cons. intros [Hk Hm]. rewrite decide_False by done. auto.
Qed.

Lemma ascending_NoDup vals : ascending vals → NoDup vals.*1.
Proof.
  unfold ascending. induction 1 as [|[k x] vals Hs IH Hall]; cbn; [constructor|].
  constructor; [|done]. intros (y & -> & Hy)%list_elem_of_fmap. rewrite Forall_forall in Hall.
  exact (blt_irrefl _ (Hall y Hy)).
Qed.
End string_map.

(** The tables of a document are ordered maps, at every level. *)
Fixpoint ordered (n : node) : Prop :=
  match n with
  | Table _ m _ _ => ascending m ∧ foldr (λ kv W, ordered kv.2 ∧ W) True m
  | Array _ els _ => foldr (λ v W, ordered v ∧ W) True els
  | _ => True
  end.
