(* ===== verification/TomlContainers.v ===== *)
(** * TomlContainers: arrays and tables of toml++ ([src/include/toml.hpp])

    The operations of [toml::array] and [toml::table] on their elements. An array
    is a vector of owning pointers, so a pointer that has been moved from is null
    while an operation runs; a table is a [std::map] from keys to nodes. Arrays
    are related to lists and tables to finite maps. *)
From Stdlib Require Import SpecFloat Sorted.
From stdpp Require Import countable.
From S2P Require Import Prelude Bytes TomlNode.

(** [impl::make_node(std::forward<T>(val))]: a new node that takes the value over
    or copies it. *)
Definition forward_node (rvalue : bool) (val : node) : node := if rvalue then val else copy_node val.

(** [array::is_homogeneous], [table::is_homogeneous] and [value::is_homogeneous] *)
Definition array_is_homogeneous (elements : list node) (ntype : node_type) : bool :=
  match elements with
  | [] => false
  | v :: _ =>
    let ntype := if decide (ntype = ty_none) then node_type_of v else ntype in
    forallb (λ v, bool_decide (node_type_of v = ntype)) elements
  end.

(** The overload that returns the first element of another type; what
    [first_nonmatch] held before is left there when there is none. *)
Definition array_first_nonmatch (elements : list node) (ntype : node_type) (first_nonmatch : option node) : bool * option node :=
  match elements with
  | [] => (false, None)
  | v :: _ =>
    let ntype := if decide (ntype = ty_none) then node_type_of v else ntype in
    match list_find (λ v, node_type_of v ≠ ntype) elements with
    | Some (_, v) => (false, Some v)
    | None => (true, first_nonmatch)
    end
  end.

Definition table_is_homogeneous (m : string_map node) (ntype : node_type) : bool := array_is_homogeneous m.*2 ntype.

Definition value_is_homogeneous (v : node) (ntype : node_type) : bool :=
  bool_decide (ntype = ty_none ∨ ntype = node_type_of v).

Definition is_homogeneous (n : node) (ntype : node_type) : bool :=
  match n with
  | Table _ m _ _ => table_is_homogeneous m ntype
  | Array _ els _ => array_is_homogeneous els ntype
  | _ => value_is_homogeneous n ntype
  end.

(** [array::is_array_of_tables] *)
Definition is_array_of_tables (els : list node) : bool := array_is_homogeneous els ty_table.

(** ** [toml::array] *)
Module array.

(** The vector; [None] is a null pointer. *)
Notation vec := (list (option node)) (only parsing).

(** The loop of [preinsertion_resize]: [n] more elements are moved to the right. *)
Fixpoint move_right (n left right : nat) (elements : vec) : vec :=
  match n with
  | O => elements
  | S n =>
    let left := pred left in
    move_right n left (pred right) (<[left := None]> (<[right := mjoin (elements !! left)]> elements))
  end.

(** [preinsertion_resize] *)
Definition preinsertion_resize (idx count : nat) (elements : vec) : vec :=
  let old_size := length elements in
  let new_size := old_size + count in
  let elements := elements ++ replicate count None in
  if decide (idx = old_size) then elements else move_right (old_size - idx) old_size (new_size - 1) elements.

(** [insert] of one element; [None] is an empty view. The second result of the
    insertions is the iterator they return, as a position. *)
Definition insert_one (pos : nat) (rvalue : bool) (val : option node) (elements : vec) : vec * nat :=
  match val with
  | None => (elements, length elements)
  | Some val => (take pos elements ++ [Some (forward_node rvalue val)] ++ drop pos elements, pos)
  end.

(** [insert] of [count] equal elements: all but the last are copies. *)
Fixpoint assign_copies (n i : nat) (val : node) (elements : vec) : nat * vec :=
  match n with
  | O => (i, elements)
  | S n => assign_copies n (S i) val (<[i := Some (copy_node val)]> elements)
  end.

Definition insert_count (pos count : nat) (rvalue : bool) (val : option node) (elements : vec) : vec * nat :=
  match val with
  | None => (elements, length elements)
  | Some v =>
    match count with
    | O => (elements, pos)
    | S O => insert_one pos rvalue val elements
    | S (S _) =>
      let elements := preinsertion_resize pos count elements in
      let '(i, elements) := assign_copies (count - 1) pos v elements in
      (<[i := Some (forward_node rvalue v)]> elements, pos)
    end
  end.

(** [insert] of a range; its empty views are skipped. *)
Fixpoint assign_range (i : nat) (rvalue : bool) (vals : list (option node)) (elements : vec) : vec :=
  match vals with
  | [] => elements
  | None :: vals => assign_range i rvalue vals elements
  | Some v :: vals => assign_range (S i) rvalue vals (<[i := Some (forward_node rvalue v)]> elements)
  end.

Definition insert_range (pos : nat) (rvalue : bool) (vals : list (option node)) (elements : vec) : vec * nat :=
  let count := length (omap id vals) in
  if decide (count = 0) then (elements, pos)
  else (assign_range pos rvalue vals (preinsertion_resize pos count elements), pos).

(** [erase] *)
Definition erase (first last : nat) (elements : vec) : vec := take first elements ++ drop last elements.

(** [truncate] and [resize] *)
Definition truncate (new_size : nat) (elements : vec) : vec :=
  if decide (new_size < length elements) then take new_size elements else elements.

Definition resize (new_size : nat) (rvalue : bool) (default_init_val : node) (elements : vec) : vec :=
  if decide (new_size = 0) then []
  else if decide (new_size < length elements) then take new_size elements
  else if decide (length elements < new_size) then
    (insert_count (length elements) (new_size - length elements) rvalue (Some default_init_val) elements).1
  else elements.

(** [push_back], [pop_back] and [get] *)
Definition push_back (rvalue : bool) (val : option node) (elements : vec) : vec :=
  match val with None => elements | Some v => elements ++ [Some (forward_node rvalue v)] end.
Definition pop_back (elements : vec) : vec := removelast elements.
Definition get (index : nat) (elements : list node) : option node :=
  if decide (index < length elements) then elements !! index else None.

(** [total_leaf_count] *)
Fixpoint leaf_count (n : node) : nat :=
  match n with
  | Array _ els _ => sum_list (map leaf_count els)
  | _ => 1
  end.
Definition total_leaf_count (elements : list node) : nat := sum_list (map leaf_count elements).

(** [flatten_child], for one element of the child: [None] when it writes past the
    end of the vector. *)
Fixpoint flatten_element (v : node) (st : nat * vec) : option (nat * vec) :=
  match v with
  | Array _ els _ => foldl (λ st v, st ≫= flatten_element v) (Some st) els
  | _ =>
    let '(dest_index, elements) := st in
    if decide (dest_index < length elements) then Some (S dest_index, <[dest_index := Some v]> elements) else None
  end.
Definition flatten_child (child : list node) (st : nat * vec) : option (nat * vec) :=
  foldl (λ st v, st ≫= flatten_element v) (Some st) child.

(** The first loop of [flatten], from the end: arrays without leaves are erased.
    A null pointer is dereferenced in the case [None]. *)
Fixpoint drop_empty (i : nat) (requires_flattening : bool) (elements : vec) : option (bool * vec) :=
  match i with
  | O => Some (requires_flattening, elements)
  | S i =>
    v ← mjoin (elements !! i);
    match v with
    | Array _ els _ =>
      if decide (0 < total_leaf_count els) then drop_empty i true elements
      else drop_empty i requires_flattening (take i elements ++ drop (S i) elements)
    | _ => drop_empty i requires_flattening elements
    end
  end.

(** The second loop. *)
Fixpoint flatten_loop (fuel i : nat) (elements : vec) : option vec :=
  match fuel with
  | O => None
  | S fuel =>
    if decide (i < length elements) then
      v ← mjoin (elements !! i);
      match v with
      | Array _ els _ =>
        let elements := <[i := None]> elements in
        let leaf_count := total_leaf_count els in
        let elements := if decide (1 < leaf_count) then preinsertion_resize (i + 1) (leaf_count - 1) elements else elements in
        '(i, elements) ← flatten_child els (i, elements);
        flatten_loop fuel i elements
      | _ => flatten_loop fuel (S i) elements
      end
    else Some elements
  end.

(** [flatten]; the fuel is for the second loop, which passes every leaf once. *)
Definition flatten (elements : list node) : option vec :=
  '(requires_flattening, vec) ← drop_empty (length elements) false (Some <$> elements);
  if (requires_flattening : bool) then flatten_loop (S (total_leaf_count elements)) 0 vec else Some vec.
End array.

(** ** [toml::table] *)
Module table.
Section table.
Context {A : Type}.
Implicit Types (m : string_map A).

(** [std::map::lower_bound] and [std::map::find], as positions. *)
Fixpoint lower_bound m (key : bytes) : nat :=
  match m with
  | [] => 0
  | (k, _) :: m => match bytes_compare k key with Lt => S (lower_bound m key) | _ => 0 end
  end.
Fixpoint find m (key : bytes) : option nat :=
  match m with
  | [] => None
  | (k, _) :: m => if decide (k = key) then Some 0 else S <$> find m key
  end.

(** [insert] and [emplace]: where the entry is, and whether it is new. [None] is
    an empty view. *)
Definition insert (key : bytes) (val : option A) m : string_map A * (nat * bool) :=
  match val with
  | None => (m, (length m, false))
  | Some val =>
    let ipos := lower_bound m key in
    match m !! ipos with
    | Some (k, _) =>
      if decide (k = key) then (m, (ipos, false)) else (take ipos m ++ [(key, val)] ++ drop ipos m, (ipos, true))
    | None => (take ipos m ++ [(key, val)] ++ drop ipos m, (ipos, true))
    end
  end.

(** [emplace]: as [insert], with a value made from its arguments. *)
Definition emplace_new (key : bytes) (val : A) m : string_map A * (nat * bool) :=
  let ipos := lower_bound m key in
  match m !! ipos with
  | Some (k, _) =>
    if decide (k = key) then (m, (ipos, false)) else (take ipos m ++ [(key, val)] ++ drop ipos m, (ipos, true))
  | None => (take ipos m ++ [(key, val)] ++ drop ipos m, (ipos, true))
  end.

Definition insert_range (l : list (bytes * option A)) m : string_map A :=
  foldl (λ m kv, (insert kv.1 kv.2 m).1) m l.

(** [insert_or_assign] *)
Definition insert_or_assign (key : bytes) (val : option A) m : string_map A * (nat * bool) :=
  match val with
  | None => (m, (length m, false))
  | Some val =>
    let ipos := lower_bound m key in
    match m !! ipos with
    | Some (k, _) =>
      if decide (k = key) then (<[ipos := (k, val)]> m, (ipos, false))
      else (take ipos m ++ [(key, val)] ++ drop ipos m, (ipos, true))
    | None => (take ipos m ++ [(key, val)] ++ drop ipos m, (ipos, true))
    end
  end.

(** The constructor from a list of pairs. *)
Definition from_pairs (pairs : list (bytes * option A)) : string_map A :=
  foldl (λ m kv, (insert_or_assign kv.1 kv.2 m).1) [] pairs.

(** [erase] of a key, and of an iterator or a range of them, by position *)
Definition erase (key : bytes) m : string_map A * bool :=
  match find m key with
  | Some i => (take i m ++ drop (S i) m, true)
  | None => (m, false)
  end.
Definition erase_range (first last : nat) m : string_map A := take first m ++ drop last m.
Definition erase_at (pos : nat) m : string_map A := take pos m ++ drop (S pos) m.
End table.
End table.

(** ** Arrays are lists *)
Section arrays.
Import array.
Implicit Types (elements pre post : vec).

Lemma replicate_snoc {A} n (x : A) : replicate (S n) x = replicate n x ++ [x].
Proof. induction n as [|n IH]; [done|]. cbn [replicate app] in *. by rewrite <- IH. Qed.

(** The elements behind the gap move as they are. *)
Lemma move_right_spec count pre mid moved :
  0 < count →
  move_right (length mid) (length (pre ++ mid)) (length (pre ++ mid) + count - 1) (pre ++ mid ++ replicate count None ++ moved)
  = pre ++ replicate count None ++ mid ++ moved.
Proof.
  intros Hc. destruct count as [|c]; [lia|]. revert moved. induction mid as [|x mid IH] using rev_ind; intros moved; [done|].
  replace (length (mid ++ [x])) with (S (length mid)) by (rewrite length_app; cbn; lia). cbn [move_right].
  replace (pred (length (pre ++ mid ++ [x]))) with (length (pre ++ mid)) by (rewrite !length_app; cbn; lia).
  assert ((pre ++ (mid ++ [x]) ++ replicate (S c) None ++ moved) !! length (pre ++ mid) = Some x) as ->.
  { rewrite <- (app_assoc mid), (app_assoc pre mid). by apply list_lookup_middle. }
  cbn [mjoin option_join].
  replace (<[length (pre ++ mid) := None]> _) with (pre ++ mid ++ replicate (S c) None ++ x :: moved).
  - replace (pred (length (pre ++ mid ++ [x]) + S c - 1)) with (length (pre ++ mid) + S c - 1) by (rewrite !length_app; cbn; lia).
    rewrite (IH (x :: moved)). by rewrite <- !app_assoc.
  - replace (length (pre ++ mid ++ [x]) + S c - 1) with (length (pre ++ mid) + S c) by (rewrite !length_app; cbn; lia).
    rewrite <- (app_assoc mid), !(app_assoc pre mid). generalize (pre ++ mid). intros l.
    rewrite replicate_snoc, insert_app_r. cbn [app]. rewrite <- app_assoc. cbn [app].
    match goal with |- context [<[S c := x]> (x :: ?y)] => change (<[S c := x]> (x :: y)) with (x :: <[c := x]> y) end.
    rewrite <- (app_assoc (replicate c None)), (insert_app_r_alt (replicate c None)) by (rewrite length_replicate; lia).
    rewrite length_replicate, Nat.sub_diag, insert_app_r_alt, Nat.sub_diag by lia. cbn. f_equal.
    assert (∀ y : list (option node), replicate c None ++ None :: y = None :: replicate c None ++ y) as ->; [|done].
    intros y. change (None :: y) with ([@None node] ++ y). rewrite app_assoc, <- replicate_snoc. done.
Qed.

Lemma preinsertion_resize_spec idx count elements :
  idx ≤ length elements → 0 < count →
  preinsertion_resize idx count elements = take idx elements ++ replicate count None ++ drop idx elements.
Proof.
  intros Hi Hc. unfold preinsertion_resize. case_decide as He.
  - subst idx. by rewrite firstn_all, drop_all, app_nil_r.
  - pose proof (move_right_spec count (take idx elements) (drop idx elements) [] Hc) as Hm.
    rewrite !app_nil_r, length_drop, app_assoc, !take_drop in Hm. exact Hm.
Qed.

(** Writing into a gap. *)
Lemma insert_gap pre (x : option node) n post :
  <[length pre := x]> (pre ++ replicate (S n) None ++ post) = (pre ++ [x]) ++ replicate n None ++ post.
Proof. rewrite <- (Nat.add_0_r (length pre)), insert_app_r. cbn. by rewrite <- app_assoc. Qed.

Lemma assign_copies_spec n pre v k post :
  assign_copies n (length pre) v (pre ++ replicate (n + k) None ++ post)
  = (length pre + n, (pre ++ replicate n (Some (copy_node v))) ++ replicate k None ++ post).
Proof.
  revert pre. induction n as [|n IH]; intros pre; cbn [assign_copies Nat.add]; [by rewrite Nat.add_0_r, app_nil_r|].
  rewrite insert_gap. replace (S (length pre)) with (length (pre ++ [Some (copy_node v)])) by (rewrite length_app; cbn; lia).
  rewrite IH. f_equal; [rewrite length_app; cbn; lia|]. by rewrite <- !app_assoc.
Qed.

(** Inserting puts new elements before the position and keeps the others. *)
Lemma insert_count_spec pos count rvalue v elements :
  pos ≤ length elements →
  insert_count pos (S count) rvalue (Some v) elements =
    (take pos elements ++ replicate count (Some (copy_node v)) ++ [Some (forward_node rvalue v)] ++ drop pos elements, pos).
Proof.
  intros Hp. destruct count as [|c]; [done|]. cbn [insert_count]. rewrite preinsertion_resize_spec by lia.
  replace (S (S c) - 1) with (S c) by lia. replace (S (S c)) with (S c + 1) by lia.
  assert (length (take pos elements) = pos) as Hl by (rewrite length_take; lia).
  pose proof (assign_copies_spec (S c) (take pos elements) v 1 (drop pos elements)) as Ha. rewrite Hl in Ha. rewrite Ha.
  replace (pos + S c) with (length (take pos elements ++ replicate (S c) (Some (copy_node v)))).
  2: { rewrite length_app, length_replicate, Hl. done. }
  rewrite (insert_gap _ _ 0). cbn [replicate app]. by rewrite <- !app_assoc.
Qed.

Lemma assign_range_spec pre rvalue vals post :
  assign_range (length pre) rvalue vals (pre ++ replicate (length (omap id vals)) None ++ post)
  = pre ++ (Some ∘ forward_node rvalue <$> omap id vals) ++ post.
Proof.
  revert pre. induction vals as [|[v|] vals IH]; intros pre; cbn [assign_range omap list_omap id length fmap list_fmap]; [done| |apply IH].
  rewrite insert_gap.
  replace (S (length pre)) with (length (pre ++ [Some (forward_node rvalue v)])) by (rewrite length_app; cbn; lia).
  rewrite IH, <- app_assoc. done.
Qed.

Lemma insert_range_spec pos rvalue vals elements :
  pos ≤ length elements →
  insert_range pos rvalue vals elements =
    (take pos elements ++ (Some ∘ forward_node rvalue <$> omap id vals) ++ drop pos elements, pos).
Proof.
  intros Hp. unfold insert_range. case_decide as Hc.
  - apply length_zero_iff_nil in Hc as ->. cbn. by rewrite take_drop.
  - rewrite preinsertion_resize_spec by lia.
    assert (length (take pos elements) = pos) as Hl by (rewrite length_take; lia).
    f_equal. rewrite <- Hl at 1. apply assign_range_spec.
Qed.

Lemma resize_spec n rvalue v elements :
  resize n rvalue v elements =
    take n elements ++ (if decide (length elements < n) then
      replicate (n - length elements - 1) (Some (copy_node v)) ++ [Some (forward_node rvalue v)] else []).
Proof.
  unfold resize. repeat case_decide; subst; try lia; try by rewrite app_nil_r.
  - destruct (n - length elements) as [|k] eqn:Hk; [lia|]. rewrite insert_count_spec by lia.
    rewrite firstn_all, drop_all, (firstn_all2 elements), app_nil_r by lia. cbn. by rewrite Nat.sub_0_r.
  - by rewrite firstn_all2, app_nil_r by lia.
Qed.

(** *** Flattening *)

(** The values in an array, however deep, in their order. *)
Fixpoint node_leaves (n : node) : list node :=
  match n with
  | Array _ els _ => concat (map node_leaves els)
  | _ => [n]
  end.
Definition leaves (elements : list node) : list node := concat (map node_leaves elements).

Lemma leaf_count_leaves n : leaf_count n = length (node_leaves n).
Proof.
  revert n. fix IH 1. intros [a m i r|a els r|s r|z f r|x r|b r|d r|t r|dt r]; try reflexivity. cbn [leaf_count node_leaves].
  induction els as [|v els IHels]; [reflexivity|]. cbn [map concat sum_list sum_list_with]. rewrite length_app, <- IH, <- IHels. reflexivity.
Qed.

Lemma total_leaf_count_leaves els : total_leaf_count els = length (leaves els).
Proof.
  unfold total_leaf_count, leaves. induction els as [|v els IH]; [done|]. cbn [map concat sum_list sum_list_with].
  rewrite length_app, <- leaf_count_leaves, <- IH. done.
Qed.

(** The fold of [flatten_child] over elements that each fill their part of the gap. *)
Lemma flatten_fold els pre post :
  Forall (λ v, ∀ pre post, flatten_element v (length pre, pre ++ replicate (length (node_leaves v)) None ++ post)
    = Some (length pre + length (node_leaves v), pre ++ (Some <$> node_leaves v) ++ post)) els →
  foldl (λ st v, st ≫= flatten_element v) (Some (length pre, pre ++ replicate (length (leaves els)) None ++ post)) els
  = Some (length pre + length (leaves els), pre ++ (Some <$> leaves els) ++ post).
Proof.
  intros Hels. revert pre. induction Hels as [|v els Hv _ IH]; intros pre; cbn [foldl]; [by rewrite Nat.add_0_r|].
  unfold leaves. cbn [map concat]. fold (leaves els). rewrite length_app, replicate_add, <- app_assoc. cbn [mbind option_bind].
  rewrite Hv, !app_assoc. replace (length pre + length (node_leaves v)) with (length (pre ++ (Some <$> node_leaves v))).
  2: { by rewrite length_app, length_fmap. }
  rewrite <- app_assoc, IH. rewrite fmap_app, !length_app, length_fmap, !app_assoc. f_equal. f_equal. lia.
Qed.

Lemma flatten_element_spec v pre post :
  flatten_element v (length pre, pre ++ replicate (length (node_leaves v)) None ++ post)
  = Some (length pre + length (node_leaves v), pre ++ (Some <$> node_leaves v) ++ post).
Proof.
  assert (∀ n, node_leaves n = [n] → (∀ st, flatten_element n st =
    let '(dest_index, elements) := st in
    if decide (dest_index < length elements) then Some (S dest_index, <[dest_index := Some n]> elements) else None) →
    ∀ pre post, flatten_element n (length pre, pre ++ replicate (length (node_leaves n)) None ++ post)
      = Some (length pre + length (node_leaves n), pre ++ (Some <$> node_leaves n) ++ post)) as Hleaf.
  { intros n Hn Hf pre' post'. rewrite Hf, Hn. rewrite decide_True by (rewrite length_app; cbn; lia).
    cbn [length fmap list_fmap]. rewrite (insert_gap pre' (Some n) 0), <- app_assoc. cbn [replicate app]. f_equal. f_equal. lia. }
  revert v pre post. fix IH 1. intros [a m i r|a els r|s r|z f r|x r|b r|d r|t r|dt r]; try (apply Hleaf; reflexivity).
  intros pre post. cbn [flatten_element node_leaves]. apply flatten_fold. clear pre post.
  induction els as [|v els IHels]; constructor; [apply IH|exact IHels].
Qed.

Lemma flatten_child_spec els pre post :
  flatten_child els (length pre, pre ++ replicate (length (leaves els)) None ++ post)
  = Some (length pre + length (leaves els), pre ++ (Some <$> leaves els) ++ post).
Proof. apply flatten_fold. apply Forall_forall. intros v _. apply flatten_element_spec. Qed.

(** After the first loop every array has leaves. *)
Definition has_leaves (n : node) : bool := match n with Array _ els _ => bool_decide (0 < total_leaf_count els) | _ => true end.

Lemma drop_empty_spec front rest b :
  ∃ b', drop_empty (length front) b ((Some <$> front) ++ rest) = Some (b', (Some <$> List.filter has_leaves front) ++ rest) ∧
    b' = b || existsb (λ v, match v with Array _ els _ => bool_decide (0 < total_leaf_count els) | _ => false end) front.
Proof.
  revert rest b. induction front as [|v front IH] using rev_ind; intros rest b; [exists b; by rewrite orb_false_r|].
  rewrite length_app, Nat.add_comm. cbn [length Nat.add drop_empty]. rewrite fmap_app, <- app_assoc. cbn [fmap list_fmap app].
  rewrite list_lookup_middle by (by rewrite length_fmap). cbn [mjoin option_join mbind option_bind].
  rewrite List.filter_app, existsb_app. cbn [List.filter existsb].
  destruct v as [a m i r|a els r|s r|z f r|x r|y r|d r|t r|dt r]; cbn [has_leaves];
    try (match goal with |- context [Some ?v :: rest] => destruct (IH (Some v :: rest) b) as (b' & -> & ->) end;
      eexists; split; [rewrite fmap_app, <- app_assoc; reflexivity|by rewrite orb_false_r]).
  case_decide as Hc.
  - rewrite bool_decide_true by done. destruct (IH (Some (Array a els r) :: rest) true) as (b' & -> & ->). eexists.
    split; [rewrite fmap_app, <- app_assoc; reflexivity|]. by rewrite !orb_true_r.
  - rewrite bool_decide_false by done.
    replace (take (length front) _ ++ drop (S (length front)) _) with ((Some <$> front) ++ rest).
    + destruct (IH rest b) as (b' & -> & ->). eexists. split; [by rewrite app_nil_r|]. by rewrite !orb_false_r.
    + rewrite take_app_length' by (by rewrite length_fmap). f_equal.
      rewrite (cons_middle (Some (Array a els r))), app_assoc, drop_app_length'; [done|]. rewrite length_app, length_fmap. cbn. lia.
Qed.

Lemma leaves_filter els : leaves (List.filter has_leaves els) = leaves els.
Proof.
  unfold leaves. induction els as [|v els IH]; [done|]. cbn [List.filter map concat]. destruct (has_leaves v) eqn:Hv; cbn [map concat];
    [by rewrite IH|]. destruct v as [|a l r| | | | | | |]; try done. cbn in Hv. apply bool_decide_eq_false in Hv.
  rewrite total_leaf_count_leaves in Hv. cbn [node_leaves]. fold (leaves l). destruct (leaves l); [done|cbn in Hv; lia].
Qed.

Lemma flatten_loop_spec fuel done_ rest :
  Forall (λ v, has_leaves v = true) rest → length (leaves rest) < fuel →
  flatten_loop fuel (length done_) ((Some <$> done_) ++ (Some <$> rest)) = Some (Some <$> (done_ ++ leaves rest)).
Proof.
  revert done_ rest. induction fuel as [|fuel IH]; intros done_ rest Hr Hf; [lia|]. cbn [flatten_loop].
  destruct rest as [|v rest].
  { rewrite decide_False by (rewrite length_app, length_fmap; cbn; lia). unfold leaves. cbn. by rewrite !app_nil_r. }
  inversion Hr as [|? ? Hv Hr']; subst. rewrite decide_True by (rewrite length_app, length_fmap; cbn; lia).
  cbn [fmap list_fmap]. rewrite list_lookup_middle by (by rewrite length_fmap). cbn [mjoin option_join mbind option_bind].
  unfold leaves in Hf. cbn [map concat] in Hf. rewrite length_app in Hf. fold (leaves rest) in Hf.
  assert (∀ n, v = n → node_leaves n = [n] → flatten_loop fuel (S (length done_)) ((Some <$> done_) ++ Some n :: (Some <$> rest))
    = Some (Some <$> (done_ ++ leaves (n :: rest)))) as Hleaf.
  { intros n -> Hn. rewrite Hn in Hf. cbn [length] in Hf. replace (S (length done_)) with (length (done_ ++ [n])) by (rewrite length_app; cbn; lia).
    replace ((Some <$> done_) ++ Some n :: (Some <$> rest)) with ((Some <$> (done_ ++ [n])) ++ (Some <$> rest)).
    2: { rewrite fmap_app, <- app_assoc. done. }
    rewrite IH by (done || lia). unfold leaves. cbn [map concat]. rewrite Hn, <- app_assoc. done. }
  destruct v as [a m i r|a els r|s r|z f r|x r|y r|d r|t r|dt r]; try (by apply Hleaf). clear Hleaf.
  cbn [has_leaves] in Hv. apply bool_decide_eq_true in Hv. rewrite total_leaf_count_leaves in *.
  cbn [node_leaves] in Hf. fold (leaves els) in Hf.
  set (gap := (Some <$> done_) ++ replicate (length (leaves els)) None ++ (Some <$> rest)).
  replace (if decide (1 < length (leaves els)) then _ else _) with gap.
  - unfold gap. pose proof (flatten_child_spec els (Some <$> done_) (Some <$> rest)) as Hc. rewrite length_fmap in Hc. rewrite Hc.
    cbn [mbind option_bind]. rewrite app_assoc, <- fmap_app.
    replace (length done_ + length (leaves els)) with (length (done_ ++ leaves els)) by (by rewrite length_app).
    rewrite IH by (done || lia). unfold leaves. cbn [map concat node_leaves]. by rewrite <- app_assoc.
  - rewrite <- (Nat.add_0_r (length done_)), <- (length_fmap Some done_), insert_app_r. cbn [insert list_insert Nat.add]. unfold gap.
    destruct (leaves els) as [|l1 [|l2 ls]] eqn:Hl; [cbn in Hv; lia|by rewrite decide_False by (cbn; lia)|].
    rewrite decide_True by (cbn; lia). rewrite Nat.add_0_r, length_fmap.
    rewrite preinsertion_resize_spec by (rewrite ?length_app, ?length_fmap; cbn; lia).
    replace ((Some <$> done_) ++ None :: (Some <$> rest)) with (((Some <$> done_) ++ [None]) ++ (Some <$> rest)) by (by rewrite <- app_assoc).
    assert (length done_ + 1 = length ((Some <$> done_) ++ [None])) as -> by (rewrite length_app, length_fmap; done).
    rewrite take_app_length, drop_app_length.
    rewrite <- app_assoc. cbn [length]. replace (S (S (length ls)) - 1) with (S (length ls)) by lia. done.
Qed.

Lemma flatten_no_arrays els :
  existsb (λ v, match v with Array _ l _ => bool_decide (0 < total_leaf_count l) | _ => false end) els = false →
  List.filter has_leaves els = leaves els.
Proof.
  unfold leaves. induction els as [|v els IH]; [done|]. cbn [existsb List.filter map concat]. intros [Hv Hels]%orb_false_iff.
  destruct v as [a m i r|a l r|s r|z f r|x r|y r|d r|t r|dt r]; cbn [has_leaves node_leaves app]; try (by rewrite IH).
  rewrite Hv, IH by done. fold (leaves l). apply bool_decide_eq_false in Hv. rewrite total_leaf_count_leaves in Hv.
  destruct (leaves l); [done|cbn in Hv; lia].
Qed.
End arrays.

Lemma flatten_spec elements : array.flatten elements = Some (Some <$> leaves elements).
Proof.
  unfold array.flatten. destruct (drop_empty_spec elements [] false) as (b & Hd & Hb). rewrite !app_nil_r in Hd. rewrite Hd.
  cbn [mbind option_bind]. destruct b.
  - assert (Forall (λ v, has_leaves v = true) (List.filter has_leaves elements)) as Hl.
    { apply List.Forall_forall. intros v [_ Hv]%List.filter_In. exact Hv. }
    pose proof (flatten_loop_spec (S (array.total_leaf_count elements)) [] (List.filter has_leaves elements) Hl) as Hf.
    cbn [length fmap list_fmap app] in Hf. rewrite leaves_filter, total_leaf_count_leaves in *. rewrite Hf by lia. done.
  - cbn [orb] in Hb. by rewrite flatten_no_arrays.
Qed.

(** ** Sequences of operations on an array *)
Section array_operations.

Inductive array_op :=
  | ArrayInsert (pos : nat) (rvalue : bool) (val : option node)
  | ArrayInsertCount (pos count : nat) (rvalue : bool) (val : option node)
  | ArrayInsertRange (pos : nat) (rvalue : bool) (vals : list (option node))
  | ArrayErase (first last : nat)
  | ArrayTruncate (new_size : nat)
  | ArrayResize (new_size : nat) (rvalue : bool) (val : node)
  | ArrayPushBack (rvalue : bool) (val : option node)
  | ArrayPopBack
  | ArrayFlatten
  | ArrayClear.

(** What the program runs: the vector is the state, and [flatten] needs the
    pointers to be there. *)
Definition array_run (op : array_op) (elements : list (option node)) : option (list (option node)) :=
  match op with
  | ArrayInsert pos rvalue val => Some (array.insert_one pos rvalue val elements).1
  | ArrayInsertCount pos count rvalue val => Some (array.insert_count pos count rvalue val elements).1
  | ArrayInsertRange pos rvalue vals => Some (array.insert_range pos rvalue vals elements).1
  | ArrayErase first last => Some (array.erase first last elements)
  | ArrayTruncate new_size => Some (array.truncate new_size elements)
  | ArrayResize new_size rvalue val => Some (array.resize new_size rvalue val elements)
  | ArrayPushBack rvalue val => Some (array.push_back rvalue val elements)
  | ArrayPopBack => Some (array.pop_back elements)
  | ArrayFlatten => mapM id elements ≫= array.flatten
  | ArrayClear => Some []
  end.

(** The preconditions: positions are inside the array. *)
Definition array_valid (op : array_op) (els : list node) : Prop :=
  match op with
  | ArrayInsert pos _ _ | ArrayInsertCount pos _ _ _ | ArrayInsertRange pos _ _ => pos ≤ length els
  | ArrayErase first last => first ≤ last ∧ last ≤ length els
  | ArrayPopBack => els ≠ []
  | _ => True
  end.
#[global] Instance array_valid_dec op els : Decision (array_valid op els).
Proof. destruct op; cbn; apply _. Defined.

(** The same on lists of nodes. *)
Definition splice (pos : nat) (new els : list node) : list node := take pos els ++ new ++ drop pos els.
Definition copies (count : nat) (rvalue : bool) (v : node) : list node :=
  match count with O => [] | S n => replicate n (copy_node v) ++ [forward_node rvalue v] end.

Definition list_op (op : array_op) (els : list node) : list node :=
  match op with
  | ArrayInsert pos rvalue val => splice pos (option_list (forward_node rvalue <$> val)) els
  | ArrayInsertCount pos count rvalue val => splice pos (from_option (copies count rvalue) [] val) els
  | ArrayInsertRange pos rvalue vals => splice pos (forward_node rvalue <$> omap id vals) els
  | ArrayErase first last => take first els ++ drop last els
  | ArrayTruncate new_size => take new_size els
  | ArrayResize new_size rvalue val => take new_size els ++ copies (new_size - length els) rvalue val
  | ArrayPushBack rvalue val => els ++ option_list (forward_node rvalue <$> val)
  | ArrayPopBack => take (length els - 1) els
  | ArrayFlatten => leaves els
  | ArrayClear => []
  end.

(** A sequence, and the preconditions along it. *)
Definition array_runs (ops : list array_op) (elements : list (option node)) : option (list (option node)) :=
  foldl (λ st op, st ≫= array_run op) (Some elements) ops.
Fixpoint array_valids (ops : list array_op) (els : list node) : Prop :=
  match ops with [] => True | op :: ops => array_valid op els ∧ array_valids ops (list_op op els) end.
#[global] Instance array_valids_dec ops els : Decision (array_valids ops els).
Proof. revert els. induction ops as [|op ops IH]; intros els; cbn; apply _. Defined.

Lemma mapM_Some_fmap (els : list node) : mapM id (Some <$> els) = Some els.
Proof. induction els as [|v els IH]; [done|]. cbn. cbn in IH. by rewrite IH. Qed.

Lemma fmap_take_drop pos (new els : list node) :
  take pos (Some <$> els) ++ (Some <$> new) ++ drop pos (Some <$> els) = Some <$> splice pos new els.
Proof. unfold splice. by rewrite <- fmap_take, <- fmap_drop, <- !fmap_app. Qed.

Lemma fmap_copies count rvalue v :
  Some <$> copies (S count) rvalue v = replicate count (Some (copy_node v)) ++ [Some (forward_node rvalue v)].
Proof. cbn [copies]. by rewrite fmap_app, fmap_replicate. Qed.

Lemma array_run_list op els :
  array_valid op els → array_run op (Some <$> els) = Some (Some <$> list_op op els).
Proof.
  destruct op as [pos rv val|pos count rv val|pos rv vals|first last|n|n rv v|rv val| | |]; cbn [array_valid array_run list_op]; intros Hv.
  - f_equal. destruct val as [v|]; cbn [array.insert_one fst fmap option_fmap option_map option_list].
    + by rewrite <- fmap_take_drop.
    + unfold splice. by rewrite app_nil_l, take_drop.
  - f_equal. destruct val as [v|]; cbn [from_option].
    2: { cbn. unfold splice. by rewrite app_nil_l, take_drop. }
    destruct count as [|count].
    + cbn. unfold splice. by rewrite app_nil_l, take_drop.
    + rewrite insert_count_spec by (by rewrite length_fmap). cbn [fst]. by rewrite <- fmap_take_drop, fmap_copies, <- !app_assoc.
  - rewrite insert_range_spec by (by rewrite length_fmap). cbn [fst]. rewrite <- fmap_take_drop, <- list_fmap_compose. done.
  - unfold array.erase. by rewrite fmap_app, fmap_take, fmap_drop.
  - unfold array.truncate. case_decide as Hn; rewrite length_fmap in Hn; [by rewrite fmap_take|]. by rewrite firstn_all2 by lia.
  - rewrite resize_spec, length_fmap, fmap_app, fmap_take. case_decide as Hn.
    + destruct (n - length els) as [|k] eqn:Hk; [lia|]. rewrite fmap_copies. replace (S k - 1) with k by lia. done.
    + by replace (n - length els) with 0 by lia.
  - f_equal. destruct val as [v|]; cbn; [by rewrite fmap_app|by rewrite app_nil_r].
  - f_equal. unfold array.pop_back. destruct els as [|v els _] using rev_ind; [done|].
    rewrite fmap_app. cbn [fmap list_fmap]. rewrite removelast_last, length_app. cbn [length]. rewrite Nat.add_sub, take_app_length. done.
  - rewrite mapM_Some_fmap. cbn [mbind option_bind]. apply flatten_spec.
  - done.
Qed.
End array_operations.

(** C18: [toml::array] implements lists of nodes. The elements are owning pointers
    that insertions move one place after the other and that [flatten] takes out and
    writes into gaps; for every sequence of operations whose positions are inside
    the array, the vector holds exactly the nodes that the list operation
    describes, in that order, and no null pointer is left behind. *)
Theorem array_refines_list ops els :
  array_valids ops els → array_runs ops (Some <$> els) = Some (Some <$> foldl (flip list_op) els ops).
Proof.
  unfold array_runs. revert els. induction ops as [|op ops IH]; intros els Hv; [done|]. destruct Hv as [Hv Hs]. cbn [foldl mbind option_bind].
  rewrite array_run_list by done. by apply IH.
Qed.

(** ** Tables are finite maps *)
#[global] Instance byte_countable : Countable byte := inj_countable' byte_to_Z byte_of_Z byte_of_to_Z.

Section tables.
Import table.
Context {A : Type}.
Implicit Types (m : string_map A) (v : A).

(** Where the key is or would be. *)
Lemma lower_bound_spec key m :
  ascending m →
  Forall (λ kv, blt kv.1 key) (take (lower_bound m key) m) ∧
  match m !! lower_bound m key with
  | Some (k, x) => if decide (k = key) then do_get m key = Some x else do_get m key = None
  | None => do_get m key = None
  end.
Proof.
  induction 1 as [|[k x] m Hs IH Hall]; [done|]. cbn [lower_bound]. destruct (bytes_compare k key) eqn:Hc.
  - apply bytes_compare_eq in Hc as ->. cbn. rewrite !decide_True by done. done.
  - cbn. destruct IH as [Hf Hm]. split; [by constructor|]. assert (k ≠ key) by (intros ->; by eapply blt_irrefl).
    rewrite decide_False by done. done.
  - cbn. assert (k ≠ key) by (intros ->; rewrite (proj2 (bytes_compare_eq key key) eq_refl) in Hc; done).
    rewrite !decide_False by done. split; [done|]. apply do_get_below. eapply Forall_impl; [exact Hall|]. intros y Hy. cbn in *.
    etransitivity; [|exact Hy]. unfold blt. by rewrite bytes_compare_antisym, Hc.
Qed.

Lemma emplace_position key v m :
  ascending m → do_get m key = None →
  take (lower_bound m key) m ++ [(key, v)] ++ drop (lower_bound m key) m = emplace key v m.
Proof.
  induction 1 as [|[k x] m Hs IH Hall]; [done|]. cbn [lower_bound emplace do_get]. case_decide as Hk; [done|]. intros Hn.
  rewrite (bytes_compare_antisym k). destruct (bytes_compare k key) eqn:Hc; cbn [CompOpp].
  - by apply bytes_compare_eq in Hc.
  - cbn. f_equal. by apply IH.
  - done.
Qed.

Lemma emplace_present key v x m : ascending m → do_get m key = Some x → emplace key v m = m.
Proof.
  induction 1 as [|[k y] m Hs IH Hall]; [done|]. cbn [emplace do_get]. case_decide as Hk.
  - subst k. by rewrite (proj2 (bytes_compare_eq key key) eq_refl).
  - intros Hg. destruct (bytes_compare key k) eqn:Hc; [done| |f_equal; by apply IH].
    rewrite (do_get_below key m) in Hg; [done|]. eapply Forall_impl; [exact Hall|]. intros z Hz. cbn in *. by etransitivity.
Qed.

(** [insert] and [emplace] keep what is there; [insert_or_assign] replaces it. *)
Lemma insert_spec key v m :
  ascending m → insert key (Some v) m = (emplace key v m, (lower_bound m key, bool_decide (do_get m key = None))).
Proof.
  intros Hm. unfold insert. destruct (lower_bound_spec key m Hm) as [_ Hl]. destruct (m !! lower_bound m key) as [[k x]|].
  - case_decide as Hk.
    + rewrite (emplace_present key v x), Hl, bool_decide_false; done.
    + rewrite emplace_position, Hl, bool_decide_true; done.
  - rewrite emplace_position, Hl, bool_decide_true; done.
Qed.

Lemma assign_position key v x m :
  ascending m → do_get m key = Some x → <[lower_bound m key := (key, v)]> m = map_alter (const v) key m.
Proof.
  induction 1 as [|[k y] m Hs IH Hall]; [done|]. cbn [lower_bound map_alter do_get]. case_decide as Hk.
  - subst k. by rewrite (proj2 (bytes_compare_eq key key) eq_refl).
  - intros Hg. destruct (bytes_compare k key) eqn:Hc; [by apply bytes_compare_eq in Hc|cbn; f_equal; by apply IH|].
    rewrite (do_get_below key m) in Hg; [done|]. eapply Forall_impl; [exact Hall|]. intros z Hz. cbn in *.
    etransitivity; [|exact Hz]. unfold blt. by rewrite bytes_compare_antisym, Hc.
Qed.

Lemma insert_or_assign_spec key v m :
  ascending m →
  insert_or_assign key (Some v) m =
    (match do_get m key with Some _ => map_alter (const v) key m | None => emplace key v m end,
     (lower_bound m key, bool_decide (do_get m key = None))).
Proof.
  intros Hm. unfold insert_or_assign. destruct (lower_bound_spec key m Hm) as [_ Hl]. destruct (m !! lower_bound m key) as [[k x]|].
  - case_decide as Hk.
    + subst k. by rewrite Hl, (assign_position key v x), bool_decide_false.
    + by rewrite Hl, emplace_position, bool_decide_true.
  - by rewrite Hl, emplace_position, bool_decide_true.
Qed.

(** [erase] *)
Lemma find_spec key m :
  match find m key with
  | Some i => ∃ x pre post, m = pre ++ (key, x) :: post ∧ length pre = i ∧ do_get m key = Some x ∧ key ∉ pre.*1
  | None => key ∉ m.*1 ∧ do_get m key = None
  end.
Proof.
  induction m as [|[k y] m IH]; cbn [find do_get]; [split; [set_solver|done]|]. case_decide as Hk.
  - subst k. exists y, [], m. repeat split; try done. set_solver.
  - destruct (find m key) as [i|]; cbn.
    + destruct IH as (x & pre & post & -> & <- & Hg & Hp). exists x, ((k, y) :: pre), post. repeat split; try done. set_solver.
    + destruct IH as [Hp Hg]. split; [set_solver|done].
Qed.

Lemma ascending_app m1 m2 :
  ascending (m1 ++ m2) ↔ ascending m1 ∧ ascending m2 ∧ Forall (λ a, Forall (λ b, blt a.1 b.1) m2) m1.
Proof.
  unfold ascending. split.
  - intros Hs. induction m1 as [|x m1 IH]; [repeat constructor; done|]. cbn in Hs. inversion Hs as [|? ? Hs' Hall]; subst.
    destruct (IH Hs') as (H1 & H2 & H3). apply Forall_app in Hall as [Hl Hr]. repeat split; [by constructor|done|by constructor].
  - intros (H1 & H2 & H3). induction H1 as [|x m1 Hs IH Hall]; [done|]. cbn. inversion H3; subst. constructor; [by apply IH|].
    by apply Forall_app.
Qed.

Lemma erase_range_ascending first last m : ascending m → first ≤ last → ascending (erase_range first last m).
Proof.
  intros Hm Hl. unfold erase_range. rewrite <- (take_drop first m) in Hm. apply ascending_app in Hm as (H1 & H2 & H3).
  replace last with (first + (last - first)) by lia. rewrite <- drop_drop.
  rewrite <- (take_drop (last - first) (drop first m)) in H2, H3. apply ascending_app in H2 as (H4 & H5 & H6).
  apply ascending_app. repeat split; [done|done|]. eapply Forall_impl; [exact H3|]. cbn. intros a Ha. by apply Forall_app in Ha as [_ Ha].
Qed.

Lemma erase_spec key m :
  ascending m →
  ascending (erase key m).1 ∧ (erase key m).2 = bool_decide (is_Some (do_get m key)) ∧
  ∀ k, do_get (erase key m).1 k = if decide (k = key) then None else do_get m k.
Proof.
  intros Hm. unfold erase. pose proof (find_spec key m) as Hf. destruct (find m key) as [i|]; cbn [fst snd].
  - destruct Hf as (x & pre & post & -> & <- & Hg & Hp). rewrite Hg. split; [apply erase_range_ascending; [done|lia]|].
    split; [by rewrite bool_decide_true by eauto|]. intros k.
    rewrite take_app_length, cons_middle, app_assoc, drop_app_length' by (rewrite length_app; cbn; lia).
    apply ascending_NoDup in Hm. rewrite fmap_app in Hm. apply NoDup_app in Hm as (_ & _ & Hm). apply NoDup_cons in Hm as [Hn _].
    clear Hg. induction pre as [|[k' y] pre IH]; cbn in Hp |- *.
    + case_decide as Hk; [|rewrite decide_False by congruence; done]. subst k. apply do_get_absent. exact Hn.
    + rewrite IH by set_solver. repeat case_decide; subst; try done. set_solver.
  - destruct Hf as [Hp Hg]. split; [done|]. rewrite Hg, bool_decide_false by (intros [? ?]; done). split; [done|]. intros k.
    case_decide as Hk; [by subst|done].
Qed.
End tables.

(** Positions in a table are determined by the keys. *)
Section positions.
Import table.
Context {A : Type}.
Implicit Types (m : list (bytes * A)).

Lemma ascending_lookup m j k x :
  ascending m → m !! j = Some (k, x) → lower_bound m k = j ∧ do_get m k = Some x.
Proof.
  intros Hm. revert j. induction Hm as [|[k' y] m Hs IH Hall]; intros [|j] Hj; simplify_eq/=.
  - by rewrite (proj2 (bytes_compare_eq k k) eq_refl), decide_True.
  - destruct (IH j Hj) as [<- Hg]. rewrite Forall_forall in Hall. assert (blt k' k) as Hlt.
    { apply (Hall (k, x)). by eapply list_elem_of_lookup_2. }
    rewrite Hlt, decide_False; [done|]. intros ->. by apply blt_irrefl in Hlt.
Qed.

Lemma ascending_index m k x : ascending m → do_get m k = Some x → m !! lower_bound m k = Some (k, x).
Proof.
  intros Hm Hg. destruct (lower_bound_spec k m Hm) as [_ Hl]. unfold string_map in *.
  destruct (m !! lower_bound m k) as [[k' y]|]; [|congruence].
  case_decide; [|congruence]. subst. congruence.
Qed.

Lemma lower_bound_count m key :
  ascending m → length (filter (λ kv, blt kv.1 key) m) = lower_bound m key.
Proof.
  unfold string_map in *.
  assert (∀ k (m : list (bytes * A)), bytes_compare k key ≠ Lt → Forall (λ kv, blt k kv.1) m → filter (λ kv : bytes * A, blt kv.1 key) m = []) as Hnone.
  { intros k l Hk Hall. induction Hall as [|x l Hx _ IH]; [done|]. rewrite filter_cons_False; [done|].
    intros Hlt. apply Hk. change (blt k key). by etransitivity. }
  induction 1 as [|[k y] m Hs IH Hall]; [done|]. rewrite filter_cons. cbn [lower_bound fst].
  destruct (bytes_compare k key) eqn:Hc.
  - rewrite decide_False by (unfold blt; congruence). by rewrite (Hnone k) by (done || congruence).
  - rewrite decide_True by done. cbn. by rewrite IH.
  - rewrite decide_False by (unfold blt; congruence). by rewrite (Hnone k) by (done || congruence).
Qed.

(** What is left after a range is erased. *)
Lemma erase_range_spec first last m k x :
  ascending m → first ≤ last →
  do_get (erase_range first last m) k = Some x ↔
    do_get m k = Some x ∧ ¬ (first ≤ lower_bound m k < last).
Proof.
  intros Hm Hl. pose proof (erase_range_ascending first last m Hm Hl) as Hm'. unfold string_map in *. split.
  - intros Hg%ascending_index; [|done]. unfold erase_range in Hg. apply lookup_app_Some in Hg as [Hg|[_ Hg]].
    + apply lookup_take_Some in Hg as [Hg Hlt]. destruct (ascending_lookup m _ k x Hm Hg) as [Hi Hx]. split; [done|]. lia.
    + rewrite lookup_drop in Hg. destruct (ascending_lookup m _ k x Hm Hg) as [Hi Hx]. split; [done|]. lia.
  - intros [Hg Hn]. apply ascending_index in Hg; [|done].
    destruct (decide (lower_bound m k < first)) as [Hlt|Hge].
    + apply (ascending_lookup _ (lower_bound m k)); [done|]. unfold erase_range, string_map.
      rewrite lookup_app_l; [by rewrite lookup_take_lt|]. apply lookup_lt_Some in Hg. rewrite length_take. lia.
    + apply (ascending_lookup _ (length (take first m) + (lower_bound m k - last))); [done|]. unfold erase_range, string_map.
      rewrite lookup_app_r by lia. rewrite lookup_drop. replace (last + _) with (lower_bound m k) by lia. done.
Qed.
End positions.

(** *** Sequences of operations on a table *)
Section table_operations.
Context {A : Type}.

(** An empty view is [None]; iterators are positions. *)
Inductive table_op :=
  | TableInsert (key : bytes) (val : option A)
  | TableInsertRange (l : list (bytes * option A))
  | TableInsertOrAssign (key : bytes) (val : option A)
  | TableEmplace (key : bytes) (val : A)
  | TableErase (key : bytes)
  | TableEraseAt (pos : nat)
  | TableEraseRange (first last : nat)
  | TableContains (key : bytes)
  | TableClear.

(** What an operation returns: an iterator and whether the entry is new, a
    boolean, an iterator, or nothing. *)
Inductive table_result :=
  | AtEntry (pos : nat) (inserted : bool)
  | Answer (b : bool)
  | AtPosition (pos : nat)
  | Nothing.

(** The preconditions of iterators. *)
Definition table_valid (op : table_op) (size : nat) : Prop :=
  match op with
  | TableEraseAt pos => pos < size
  | TableEraseRange first last => first ≤ last ≤ size
  | _ => True
  end.

Definition table_run (op : table_op) (m : string_map A) : string_map A * table_result :=
  match op with
  | TableInsert key val => let '(m, (i, b)) := table.insert key val m in (m, AtEntry i b)
  | TableInsertRange l => (table.insert_range l m, Nothing)
  | TableInsertOrAssign key val => let '(m, (i, b)) := table.insert_or_assign key val m in (m, AtEntry i b)
  | TableEmplace key val => let '(m, (i, b)) := table.emplace_new key val m in (m, AtEntry i b)
  | TableErase key => let '(m, b) := table.erase key m in (m, Answer b)
  | TableEraseAt pos => (table.erase_at pos m, AtPosition pos)
  | TableEraseRange first last => (table.erase_range first last m, AtPosition first)
  | TableContains key => (m, Answer (bool_decide (is_Some (do_get m key))))
  | TableClear => ([], Nothing)
  end.

(** The same on an abstract map. The place of a key is the number of the keys
    before it. *)
Definition rank (key : bytes) (g : gmap bytes A) : nat := length (filter (λ kv, blt kv.1 key) (map_to_list g)).

Definition map_add (g : gmap bytes A) (kv : bytes * option A) : gmap bytes A :=
  match kv.2 with
  | Some v => if decide (g !! kv.1 = None) then <[kv.1 := v]> g else g
  | None => g
  end.

Definition map_op (op : table_op) (g : gmap bytes A) : gmap bytes A * table_result :=
  match op with
  | TableInsert key (Some v) | TableEmplace key v =>
    (map_add g (key, Some v), AtEntry (rank key g) (bool_decide (g !! key = None)))
  | TableInsertOrAssign key (Some v) => (<[key := v]> g, AtEntry (rank key g) (bool_decide (g !! key = None)))
  | TableInsert _ None | TableInsertOrAssign _ None => (g, AtEntry (size g) false)
  | TableInsertRange l => (foldl map_add g l, Nothing)
  | TableErase key => (delete key g, Answer (bool_decide (is_Some (g !! key))))
  | TableEraseAt pos => (filter (λ kv, rank kv.1 g ≠ pos) g, AtPosition pos)
  | TableEraseRange first last => (filter (λ kv, ¬ (first ≤ rank kv.1 g < last)) g, AtPosition first)
  | TableContains key => (g, Answer (bool_decide (is_Some (g !! key))))
  | TableClear => (∅, Nothing)
  end.

Fixpoint runs {S} (step : table_op → S → S * table_result) (ops : list table_op) (s : S) : S * list table_result :=
  match ops with
  | [] => (s, [])
  | op :: ops =>
    let '(s, b) := step op s in
    let '(s, bs) := runs step ops s in (s, b :: bs)
  end.

(** The preconditions along a sequence, in terms of the abstract map. *)
Fixpoint table_valids (ops : list table_op) (g : gmap bytes A) : Prop :=
  match ops with
  | [] => True
  | op :: ops => table_valid op (size g) ∧ table_valids ops (map_op op g).1
  end.

(** The map that a table stands for. *)
Definition refines (m : string_map A) (g : gmap bytes A) : Prop := ascending m ∧ ∀ k, g !! k = do_get m k.

Lemma list_to_map_do_get m k : (list_to_map m : gmap bytes A) !! k = do_get m k.
Proof.
  induction m as [|[k' v] m IH]; cbn [list_to_map foldr do_get]; [done|]. cbn. case_decide as Hk.
  - subst. by rewrite lookup_insert_eq.
  - by rewrite lookup_insert_ne.
Qed.

Lemma refines_list m g : refines m g → map_to_list g ≡ₚ m.
Proof.
  intros [Hm Hg]. assert (g = list_to_map m) as -> by (apply map_eq; intros k; by rewrite Hg, list_to_map_do_get).
  apply map_to_list_to_map. by apply ascending_NoDup.
Qed.

Lemma refines_rank m g key : refines m g → rank key g = table.lower_bound m key.
Proof.
  intros Hr. unfold rank. rewrite <- lower_bound_count by apply Hr. by rewrite (refines_list m g Hr).
Qed.

Lemma refines_size m g : refines m g → size g = length m.
Proof. intros Hr. rewrite <- (refines_list m g Hr). symmetry. apply length_map_to_list. Qed.

Lemma refines_emplace m g key v : refines m g → refines (emplace key v m) (map_add g (key, Some v)).
Proof.
  intros [Hm Hg]. unfold map_add. cbn [fst snd]. rewrite Hg. case_decide as Hk.
  - split; [by apply emplace_ascending|]. intros k. rewrite do_get_emplace by done.
    case_decide; [subst; by rewrite lookup_insert_eq, Hk|by rewrite lookup_insert_ne].
  - destruct (do_get m key) as [x|] eqn:Hx; [|done]. by rewrite (emplace_present key v x).
Qed.

Lemma refines_assign m g key v :
  refines m g →
  refines (match do_get m key with Some _ => map_alter (const v) key m | None => emplace key v m end) (<[key := v]> g).
Proof.
  intros [Hm Hg]. destruct (do_get m key) as [x|] eqn:Hx.
  - split; [by apply map_alter_ascending|]. intros k. rewrite do_get_alter.
    case_decide; [subst; by rewrite lookup_insert_eq, Hx|by rewrite lookup_insert_ne].
  - split; [by apply emplace_ascending|]. intros k. rewrite do_get_emplace by done.
    case_decide; [subst; by rewrite lookup_insert_eq, Hx|by rewrite lookup_insert_ne].
Qed.

Lemma refines_range l m g : refines m g → refines (table.insert_range l m) (foldl map_add g l).
Proof.
  unfold table.insert_range. revert m g. induction l as [|[k [v|]] l IH]; intros m g Hr; [done|..]; cbn [foldl fst snd]; apply IH.
  - rewrite insert_spec by apply Hr. by apply refines_emplace.
  - done.
Qed.

Lemma refines_erase_range first last m g :
  refines m g → first ≤ last →
  refines (table.erase_range first last m) (filter (λ kv, ¬ (first ≤ rank kv.1 g < last)) g).
Proof.
  intros Hr Hl. pose proof Hr as [Hm Hg]. split; [by apply erase_range_ascending|]. intros k. apply option_eq. intros x.
  rewrite map_lookup_filter_Some, erase_range_spec by done. cbn [fst]. by rewrite Hg, (refines_rank m g) by done.
Qed.

Lemma erase_at_range pos m : table.erase_at pos m = table.erase_range (A:=A) pos (S pos) m.
Proof. done. Qed.

Lemma table_run_refines op m g :
  refines m g → table_valid op (size g) →
  refines (table_run op m).1 (map_op op g).1 ∧ (table_run op m).2 = (map_op op g).2.
Proof.
  intros Hr Hv. pose proof Hr as [Hm Hg]. pose proof (refines_rank m g) as Hrank.
  destruct op as [key [v|]|l|key [v|]|key v|key|pos|first last|key|]; cbn [table_run map_op].
  - rewrite insert_spec by done. cbn [fst snd]. rewrite Hrank, Hg by done. split; [by apply refines_emplace|done].
  - cbn. by rewrite (refines_size m).
  - split; [by apply refines_range|done].
  - rewrite insert_or_assign_spec by done. cbn [fst snd]. rewrite Hrank, Hg by done. split; [by apply refines_assign|done].
  - cbn. by rewrite (refines_size m).
  - change (table.emplace_new key v m) with (table.insert key (Some v) m).
    rewrite insert_spec by done. cbn [fst snd]. rewrite Hrank, Hg by done. split; [by apply refines_emplace|done].
  - destruct (erase_spec key m Hm) as (Ha & Hb & Hc). destruct (table.erase key m) as [m' b]. cbn [fst snd] in *.
    rewrite Hb, Hg. split; [|done]. split; [done|]. intros k. rewrite Hc.
    case_decide; [subst; by rewrite lookup_delete_eq|by rewrite lookup_delete_ne].
  - cbn [fst snd]. split; [|done]. rewrite erase_at_range.
    replace (filter _ g) with (filter (λ kv, ¬ (pos ≤ rank kv.1 g < S pos)) g); [by apply refines_erase_range; [|lia]|].
    apply map_filter_ext. intros k x _. cbn. lia.
  - cbn [fst snd]. split; [|done]. apply refines_erase_range; [done|apply Hv].
  - cbn. by rewrite Hg.
  - split; [|done]. split; [constructor|done].
Qed.

Lemma runs_refine ops m g :
  refines m g → table_valids ops g →
  refines (runs table_run ops m).1 (runs map_op ops g).1 ∧ (runs table_run ops m).2 = (runs map_op ops g).2.
Proof.
  revert m g. induction ops as [|op ops IH]; intros m g Hr Hv; [done|]. destruct Hv as [Hv Hvs]. cbn [runs].
  pose proof (table_run_refines op m g Hr Hv) as Hop. destruct (table_run op m) as [m' b], (map_op op g) as [g' b']. cbn in Hop.
  destruct Hop as [Hr' ->]. pose proof (IH m' g' Hr' Hvs) as Hops.
  destruct (runs table_run ops m') as [m'' bs], (runs map_op ops g') as [g'' bs'].
  cbn in *. destruct Hops as [Hr'' ->]. done.
Qed.
End table_operations.
Arguments table_op : clear implicits.

(** C19: [toml::table] implements finite maps from keys to nodes. For every sequence of
    [insert] (of an entry or a range), [emplace], [insert_or_assign], [erase] (of a
    key, an iterator or a range), [contains] and [clear] on an empty table, with
    iterators of the table, what the operations return, iterators and booleans, is
    what they return on an abstract map whose entries are numbered by their keys,
    the entries are exactly the map's, and they stay in the strict order of the keys
    that the next operation's binary search and the formatters rely on. *)
Theorem table_refines_map {A} (ops : list (table_op A)) :
  table_valids ops ∅ →
  let '(m, results) := runs table_run ops [] in
  let '(g, expected) := runs map_op ops (∅ : gmap bytes A) in
  results = expected ∧ ascending m ∧ ∀ key, do_get m key = g !! key.
Proof.
  intros Hv. assert (refines (A:=A) [] ∅) as Hr by (split; [constructor|done]). pose proof (runs_refine ops [] ∅ Hr Hv) as Ho.
  destruct (runs table_run ops []) as [m bs], (runs map_op ops ∅) as [g bs']. destruct Ho as [[Hm Hg] Hb]. cbn in *.
  split; [done|]. split; [done|]. intros key. by rewrite Hg.
Qed.

(** ** Documents stay well-formed *)
Lemma foldr_Forall {A} (P : A → Prop) (l : list A) : foldr (λ x W, P x ∧ W) True l ↔ Forall P l.
Proof. induction l as [|x l IH]; cbn; [done|]. by rewrite IH, Forall_cons. Qed.

Lemma copy_map_ascending m : ascending m → ascending (copy_map m).
Proof.
  unfold ascending, copy_map. induction 1 as [|[k v] m Hm IH Hall]; cbn [map]; constructor; [done|].
  apply Forall_map. eapply Forall_impl; [exact Hall|]. done.
Qed.

Lemma copy_node_ordered n : ordered n → ordered (copy_node n).
Proof.
  revert n. fix IH 1. intros [a m i r|a els r|s r|z f r|x r|b r|d r|t r|dt r]; try done; cbn [copy_node ordered].
  - intros [Ha Hm]. split; [by apply copy_map_ascending|]. clear Ha.
    induction m as [|[k v] m IHm]; [done|]. destruct Hm as [Hv Hm]. split; [by apply IH|by apply IHm].
  - induction els as [|v els IHels]; [done|]. intros [Hv Hels]. split; [by apply IH|by apply IHels].
Qed.

Lemma node_leaves_ordered n : ordered n → Forall ordered (node_leaves n).
Proof.
  revert n. fix IH 1. intros [a m i r|a els r|s r|z f r|x r|b r|d r|t r|dt r] Hn; try (constructor; [exact Hn|constructor]).
  cbn [node_leaves ordered] in *. induction els as [|v els IHels]; [constructor|]. destruct Hn as [Hv Hels]. cbn [map concat].
  apply Forall_app. split; [by apply IH|by apply IHels].
Qed.

Lemma forward_node_ordered rvalue v : ordered v → ordered (forward_node rvalue v).
Proof. destruct rvalue; cbn; [done|apply copy_node_ordered]. Qed.

(** The nodes that are arguments of an operation. *)
Definition array_op_values (op : array_op) : list node :=
  match op with
  | ArrayInsert _ _ val | ArrayInsertCount _ _ _ val | ArrayPushBack _ val => option_list val
  | ArrayInsertRange _ _ vals => omap id vals
  | ArrayResize _ _ val => [val]
  | _ => []
  end.
Definition table_op_values {A} (op : table_op A) : list A :=
  match op with
  | TableInsert _ val | TableInsertOrAssign _ val => option_list val
  | TableInsertRange l => omap snd l
  | TableEmplace _ val => [val]
  | _ => []
  end.

Lemma splice_Forall (P : node → Prop) pos new els : Forall P new → Forall P els → Forall P (splice pos new els).
Proof. intros Hn He. unfold splice. rewrite !Forall_app. auto using Forall_take, Forall_drop. Qed.

Lemma copies_ordered count rvalue v : ordered v → Forall ordered (copies count rvalue v).
Proof.
  intros Hv. destruct count; cbn; [constructor|]. apply Forall_app.
  split; [by apply Forall_replicate, copy_node_ordered|]. constructor; [by apply forward_node_ordered|constructor].
Qed.

Lemma list_op_ordered op els : Forall ordered (array_op_values op) → Forall ordered els → Forall ordered (list_op op els).
Proof.
  intros Hv He. destruct op as [pos rv val|pos count rv val|pos rv vals|first last|n|n rv v|rv val| | |]; cbn [array_op_values list_op] in *.
  - apply splice_Forall; [|done]. destruct val as [v|]; cbn in *; [|constructor]. inversion Hv; subst.
    constructor; [by apply forward_node_ordered|constructor].
  - apply splice_Forall; [|done]. destruct val as [v|]; cbn in *; [|constructor]. inversion Hv; subst. by apply copies_ordered.
  - apply splice_Forall; [|done]. apply Forall_fmap. eapply Forall_impl; [exact Hv|]. intros v. apply forward_node_ordered.
  - apply Forall_app. auto using Forall_take, Forall_drop.
  - by apply Forall_take.
  - inversion Hv; subst. apply Forall_app. split; [by apply Forall_take|by apply copies_ordered].
  - apply Forall_app. split; [done|]. destruct val as [v|]; cbn in *; [|constructor]. inversion Hv; subst.
    constructor; [by apply forward_node_ordered|constructor].
  - by apply Forall_take.
  - unfold leaves. induction He as [|v els Hn _ IH]; cbn; [constructor|]. apply Forall_app. split; [by apply node_leaves_ordered|done].
  - constructor.
Qed.

Lemma table_run_Forall {A} (P : A → Prop) (op : table_op A) m :
  ascending m → Forall P (table_op_values op) → Forall (λ kv, P kv.2) m → Forall (λ kv, P kv.2) (table_run op m).1.
Proof.
  assert (∀ key v m, P v → Forall (λ kv, P kv.2) m → Forall (λ kv, P kv.2) (emplace key v m)) as Hemp.
  { intros key v l Hv. induction 1 as [|[k x] l Hx Hl IH]; cbn [emplace]; [by repeat constructor|].
    destruct (bytes_compare key k); repeat (constructor; try done). }
  assert (∀ key v m, P v → Forall (λ kv, P kv.2) m → Forall (λ kv, P kv.2) (map_alter (const v) key m)) as Halt.
  { intros key v l Hv. induction 1 as [|[k x] l Hx Hl IH]; cbn [map_alter]; [done|]. case_decide; by constructor. }
  intros Ha Hv Hm. destruct op as [key [v|]|l|key [v|]|key v|key|pos|first last|key|];
    cbn [table_run table_op_values option_list] in *; try done.
  - rewrite insert_spec by done. inversion Hv; subst. by apply Hemp.
  - cbn [fst]. unfold table.insert_range. revert m Ha Hm. induction l as [|[k [v|]] l IH]; intros m Ha Hm; [done|..]; cbn [foldl fst snd].
    + cbn in Hv. inversion Hv; subst. rewrite insert_spec by done. apply IH; [done|by apply emplace_ascending|by apply Hemp].
    + by apply IH.
  - rewrite insert_or_assign_spec by done. inversion Hv; subst. cbn [fst]. destruct (do_get m key); auto.
  - change (table.emplace_new key v m) with (table.insert key (Some v) m).
    rewrite insert_spec by done. inversion Hv; subst. by apply Hemp.
  - unfold table.erase. destruct (table.find m key); [|done]. apply Forall_app. auto using Forall_take, Forall_drop.
  - apply Forall_app. auto using Forall_take, Forall_drop.
  - apply Forall_app. auto using Forall_take, Forall_drop.
Qed.

(** An operation on the elements of a node of a document. *)
Inductive container_op := OnArray (op : array_op) | OnTable (op : table_op node).

Definition container_run (op : container_op) (n : node) : option node :=
  match op, n with
  | OnArray op, Array a els r => (λ els, Array a els r) <$> (array_run op (Some <$> els) ≫= mapM id)
  | OnTable op, Table a m i r => Some (Table a (table_run op m).1 i r)
  | _, _ => None
  end.

Definition container_valid (op : container_op) (n : node) : Prop :=
  match op, n with
  | OnArray op, Array _ els _ => array_valid op els ∧ Forall ordered (array_op_values op)
  | OnTable op, Table _ m _ _ => table_valid op (length m) ∧ Forall ordered (table_op_values op)
  | _, _ => False
  end.

(** The node that keys and indices lead to, and the document with an operation
    done on it. *)
Fixpoint node_at (path : list (bytes + nat)) (n : node) : option node :=
  match path, n with
  | [], _ => Some n
  | inl key :: path, Table _ m _ _ => do_get m key ≫= node_at path
  | inr index :: path, Array _ els _ => els !! index ≫= node_at path
  | _, _ => None
  end.

Fixpoint run_at (path : list (bytes + nat)) (op : container_op) (n : node) : option node :=
  match path, n with
  | [], _ => container_run op n
  | inl key :: path, Table a m i r =>
    v ← do_get m key; v' ← run_at path op v; Some (Table a (map_alter (const v') key m) i r)
  | inr index :: path, Array a els r =>
    v ← els !! index; v' ← run_at path op v; Some (Array a (<[index := v']> els) r)
  | _, _ => None
  end.

Lemma container_run_ordered op n :
  ordered n → container_valid op n → ∃ n', container_run op n = Some n' ∧ ordered n'.
Proof.
  destruct op as [op|op], n as [a m i r|a els r| | | | | | |]; try done; cbn [container_valid ordered].
  - intros Hn [Hv Hvals]. apply foldr_Forall in Hn. exists (Array a (list_op op els) r). cbn [container_run].
    rewrite array_run_list by done. cbn [mbind option_bind]. rewrite mapM_Some_fmap. split; [done|].
    cbn [ordered]. apply foldr_Forall. by apply list_op_ordered.
  - intros [Ha Hm] [Hv Hvals]. apply (foldr_Forall (λ kv, ordered kv.2)) in Hm. eexists. split; [done|].
    assert (refines m (list_to_map m)) as Hr by (split; [done|]; intros k; by apply list_to_map_do_get).
    rewrite <- (refines_size _ _ Hr) in Hv.
    destruct (table_run_refines op m _ Hr Hv) as [[Hasc _] _]. split; [done|].
    apply (foldr_Forall (λ kv, ordered kv.2)). by apply table_run_Forall.
Qed.

Lemma map_alter_Forall {A} (P : A → Prop) key v (m : string_map A) :
  P v → Forall (λ kv, P kv.2) m → Forall (λ kv, P kv.2) (map_alter (const v) key m).
Proof. intros Hv. induction 1 as [|[k x] m Hx Hm IH]; cbn [map_alter]; [done|]. case_decide; by constructor. Qed.

Lemma do_get_Forall {A} (P : A → Prop) (m : string_map A) key v :
  do_get m key = Some v → Forall (λ kv, P kv.2) m → P v.
Proof.
  intros Hg. induction 1 as [|[k x] m Hx _ IH]; cbn [do_get] in *; [done|]. case_decide; [by simplify_eq|by apply IH].
Qed.

(** C24: a document stays well-formed under editing: an operation on the array or
    the table that keys and indices lead to, within its bounds and with
    well-formed values, changes that node as the operation says, and the whole
    document is again well-formed at every level: each of its tables is strictly
    ordered by key, which lookups rely on, and no element of an array is a null
    pointer. *)
Theorem container_operations_ordered path op doc n :
  ordered doc → node_at path doc = Some n → container_valid op n →
  ∃ doc' n', run_at path op doc = Some doc' ∧ ordered doc' ∧
    container_run op n = Some n' ∧ node_at path doc' = Some n'.
Proof.
  revert doc. induction path as [|[key|index] path IH]; intros doc Hd Hn Hv.
  - injection Hn as ->. destruct (container_run_ordered op n Hd Hv) as (n' & Hr & Ho). exists n', n'. done.
  - destruct doc as [a m i r| | | | | | | |]; try done. cbn [node_at run_at] in *.
    destruct (do_get m key) as [v|] eqn:Hg; [|done]. cbn [mbind option_bind] in *.
    destruct Hd as [Ha Hm]. pose proof Hm as Hm'. apply (foldr_Forall (λ kv, ordered kv.2)) in Hm'.
    destruct (IH v (do_get_Forall ordered _ _ _ Hg Hm') Hn Hv) as (v' & n' & Hrun & Hov & Hop & Hat).
    rewrite Hrun. exists (Table a (map_alter (const v') key m) i r), n'. split; [done|]. split; [|split; [done|]].
    + split; [by apply map_alter_ascending|]. apply (foldr_Forall (λ kv, ordered kv.2)). by apply map_alter_Forall.
    + by rewrite do_get_alter, decide_True, Hg.
  - destruct doc as [|a els r| | | | | | |]; try done. cbn [node_at run_at] in *.
    destruct (els !! index) as [v|] eqn:Hg; [|done]. cbn [mbind option_bind] in *. apply foldr_Forall in Hd.
    destruct (IH v (Forall_lookup_1 _ _ _ _ Hd Hg) Hn Hv) as (v' & n' & Hrun & Hov & Hop & Hat).
    rewrite Hrun. exists (Array a (<[index := v']> els) r), n'. split; [done|]. split; [|split; [done|]].
    + apply foldr_Forall. by apply Forall_insert.
    + by rewrite list_lookup_insert_eq by (by eapply lookup_lt_Some).
Qed.

(** ** Examples *)

(** [[1, [2, [], [3, 4]], []]] *)
Definition demo_int (z : Z) : node := VInteger z no_flags no_region.
Definition demo_nested : list node :=
  [demo_int 1; Array 1 [demo_int 2; Array 2 [] no_region; Array 3 [demo_int 3; demo_int 4] no_region] no_region; Array 4 [] no_region].
Definition demo_array_ops : list array_op :=
  [ArrayPushBack true (Some (demo_int 5)); ArrayFlatten; ArrayInsertCount 1 3 false (Some (demo_int 9));
   ArrayInsertRange 0 true [None; Some (demo_int 7); Some (demo_int 8)]; ArrayErase 3 6; ArrayPopBack; ArrayResize 6 false (demo_int 0)].

Example array_operations_example :
  array_runs demo_array_ops (Some <$> demo_nested) = Some (Some <$> (demo_int <$> [7; 8; 1; 2; 3; 4]%Z)).
Proof. vm_compute. reflexivity. Qed.

Lemma array_refines_list_witness :
  array_runs demo_array_ops (Some <$> demo_nested) = Some (Some <$> foldl (flip list_op) demo_nested demo_array_ops).
Proof. apply array_refines_list. apply (bool_decide_unpack _). vm_compute. exact I. Defined.

(** In [{a: [...], b: 5}] the array is flattened. *)
Definition demo_document : node :=
  Table 6 [(bs "a", Array 5 demo_nested no_region); (bs "b", demo_int 5)] false no_region.

Lemma container_operations_ordered_witness :
  ∃ doc' n', run_at [inl (bs "a")] (OnArray ArrayFlatten) demo_document = Some doc' ∧ ordered doc' ∧
    container_run (OnArray ArrayFlatten) (Array 5 demo_nested no_region) = Some n' ∧
    node_at [inl (bs "a")] doc' = Some n'.
Proof.
  apply (container_operations_ordered [inl (bs "a")] (OnArray ArrayFlatten) demo_document (Array 5 demo_nested no_region)).
  - split; [|by repeat split]. repeat constructor.
  - reflexivity.
  - split; [exact I|constructor].
Defined.

(** Three entries, the middle one erased by its iterator, then looked for. *)
Definition demo_table_ops : list (table_op Z) :=
  [TableInsertRange [(bs "b", Some 2%Z); (bs "c", None); (bs "a", Some 1%Z)]; TableInsert (bs "ab") (Some 3%Z);
   TableEraseAt 1; TableInsertOrAssign (bs "b") (Some 4%Z); TableContains (bs "ab")].

Lemma table_refines_map_witness :
  (runs table_run demo_table_ops []).2 = [Nothing; AtEntry 1 true; AtPosition 1; AtEntry 1 false; Answer false] ∧
  (runs map_op demo_table_ops (∅ : gmap bytes Z)).2 = (runs table_run demo_table_ops []).2.
Proof.
  split; [vm_compute; reflexivity|].
  assert (table_valids demo_table_ops ∅) as Hv.
  { split; [exact I|]. split; [exact I|]. split; [vm_compute; lia|]. split; [exact I|]. split; [exact I|exact I]. }
  pose proof (table_refines_map demo_table_ops Hv) as Ht.
  destruct (runs table_run demo_table_ops []) as [m r], (runs map_op demo_table_ops ∅) as [g r'].
  destruct Ht as [Hr _]. exact (eq_sym Hr).
Defined.
