(* ===== verification/TomlIterators.v ===== *)
(** * TomlIterators: iterators of arrays and tables ([src/include/toml.hpp])

    [array_iterator] and [table_iterator], over a store in which nodes have
    addresses: a table owns its nodes through pointers, and an iterator of a table
    keeps a reference to the node it was dereferenced at. The loops of the program
    over tables ([for (auto [k, v] : tbl)]) are loops of these iterators. *)
From Stdlib Require Import Sorted.
From S2P Require Import Prelude Bytes TomlNode TomlContainers.

(** ** [impl::array_iterator] *)
Module array_iterator.
Section array_iterator.
Local Open Scope Z_scope.

(** An iterator of the vector, as its position: from 0 to the length. What leaves
    this range is undefined ([None]). *)
Variable elements : list (option node).

Definition valid (raw : Z) : bool := (0 <=? raw) && (raw <=? Z.of_nat (length elements)).
Definition begin : Z := 0.
Definition end_ : Z := Z.of_nat (length elements).

(** [operator +=], [operator -=] and the operators [+] and [-] *)
Definition add_assign (raw rhs : Z) : option Z := if valid (raw + rhs) then Some (raw + rhs) else None.
Definition sub_assign (raw rhs : Z) : option Z := if valid (raw - rhs) then Some (raw - rhs) else None.
Definition difference (lhs rhs : Z) : Z := lhs - rhs.

(** [++] and [--]; of the postfix operators, the iterator returned comes first. *)
Definition pre_increment (raw : Z) : option Z := add_assign raw 1.
Definition pre_decrement (raw : Z) : option Z := sub_assign raw 1.
Definition post_increment (raw : Z) : option (Z * Z) := out ← Some raw; raw ← pre_increment raw; Some (out, raw).
Definition post_decrement (raw : Z) : option (Z * Z) := out ← Some raw; raw ← pre_decrement raw; Some (out, raw).

(** [operator *] and [operator ->]: undefined at the end and at a null pointer. *)
Definition dereference (raw : Z) : option node := if 0 <=? raw then mjoin (elements !! Z.to_nat raw) else None.
Definition subscript (raw idx : Z) : option node := raw ← add_assign raw idx; dereference raw.

(** The comparison operators *)
Definition eq (lhs rhs : Z) : bool := lhs =? rhs.
Definition ne (lhs rhs : Z) : bool := negb (lhs =? rhs).
Definition lt (lhs rhs : Z) : bool := lhs <? rhs.
Definition le (lhs rhs : Z) : bool := lhs <=? rhs.
Definition gt (lhs rhs : Z) : bool := rhs <? lhs.
Definition ge (lhs rhs : Z) : bool := rhs <=? lhs.

(** A loop over the elements. *)
Fixpoint for_each {B} (fuel : nat) (body : B → node → B) (last raw : Z) (b : B) : option B :=
  match fuel with
  | O => None
  | S fuel =>
    if eq raw last then Some b
    else elem ← dereference raw; raw ← pre_increment raw; for_each fuel body last raw (body b elem)
  end.
End array_iterator.
End array_iterator.

(** ** Tables in memory *)

(** An entry of the map: iterators stay at the entry, whatever its pointer is. *)
Record slot := mk_slot { slot_entry : nat; slot_node : nat }.
#[global] Instance slot_eq_dec : EqDecision slot.
Proof. solve_decision. Defined.

(** The map of a table, the nodes by address, and the next address: none is given
    out again, so that the use of a destroyed node is seen. *)
Record store := mk_store { st_map : string_map slot; st_nodes : gmap nat node; st_next : nat }.

(** [new] and [delete] of a node. *)
Definition new_node (v : node) (s : store) : nat * store :=
  (st_next s, mk_store (st_map s) (<[st_next s := v]> (st_nodes s)) (S (st_next s))).
Definition delete_nodes (l : string_map slot) (nodes : gmap nat node) : gmap nat node :=
  foldr (λ kv, delete (slot_node kv.2)) nodes l.

(** [std::map::emplace_hint]: a new entry. *)
Definition emplace_hint (ipos : nat) (key : bytes) (p : nat) (s : store) : nat * store :=
  let m := st_map s in
  (st_next s, mk_store (take ipos m ++ [(key, mk_slot (st_next s) p)] ++ drop ipos m) (st_nodes s) (S (st_next s))).

(** An iterator of the map: its entry, or the end. *)
Definition raw_iterator : Type := option nat.

Definition position (m : string_map slot) (entry : nat) : option nat :=
  fst <$> list_find (λ kv, slot_entry kv.2 = entry) m.
Definition raw_at (m : string_map slot) (i : nat) : raw_iterator := slot_entry ∘ snd <$> m !! i.

(** [++] and [--], undefined at the end and at the beginning. *)
Definition raw_next (m : string_map slot) (raw : raw_iterator) : option raw_iterator :=
  entry ← raw; i ← position m entry; Some (raw_at m (S i)).
Definition raw_previous (m : string_map slot) (raw : raw_iterator) : option raw_iterator :=
  i ← match raw with Some entry => position m entry | None => Some (length m) end;
  match i with O => None | S i => Some (raw_at m i) end.

(** Where a range begins or ends. *)
Definition raw_position (m : string_map slot) (raw : raw_iterator) : option nat :=
  match raw with Some entry => position m entry | None => Some (length m) end.

(** *** Operations of the table *)

(** [table::insert] and [table::emplace]; [None] is an empty view, and other values
    are the node that [make_node] makes. *)
Definition insert_new (ipos : nat) (key : bytes) (v : node) (s : store) : store * (raw_iterator * bool) :=
  let '(p, s) := new_node v s in
  let '(entry, s) := emplace_hint ipos key p s in
  (s, (Some entry, true)).

Definition insert (key : bytes) (val : option node) (s : store) : store * (raw_iterator * bool) :=
  match val with
  | None => (s, (None, false))
  | Some v =>
    let ipos := table.lower_bound (st_map s) key in
    match st_map s !! ipos with
    | Some (k, sl) => if decide (k = key) then (s, (Some (slot_entry sl), false)) else insert_new ipos key v s
    | None => insert_new ipos key v s
    end
  end.

(** [unique_ptr::reset] of an entry: the new node takes the place of the old one, which
    is destroyed. *)
Definition reset (ipos : nat) (k : bytes) (sl : slot) (v : node) (s : store) : store :=
  let '(p, s) := new_node v s in
  mk_store (<[ipos := (k, mk_slot (slot_entry sl) p)]> (st_map s)) (delete (slot_node sl) (st_nodes s)) (st_next s).

(** [table::insert_or_assign] *)
Definition insert_or_assign (key : bytes) (val : option node) (s : store) : store * (raw_iterator * bool) :=
  match val with
  | None => (s, (None, false))
  | Some v =>
    let ipos := table.lower_bound (st_map s) key in
    match st_map s !! ipos with
    | Some (k, sl) =>
      if decide (k = key) then (reset ipos k sl v s, (Some (slot_entry sl), false)) else insert_new ipos key v s
    | None => insert_new ipos key v s
    end
  end.

(** The entries from one position to another are removed, and their nodes
    destroyed. *)
Definition erase_positions (first last : nat) (s : store) : store :=
  mk_store (table.erase_range first last (st_map s))
    (delete_nodes (take (last - first) (drop first (st_map s))) (st_nodes s)) (st_next s).

(** [table::erase] of a range, of an iterator and of a key; [table::clear] *)
Definition erase_range (first last : raw_iterator) (s : store) : option (store * raw_iterator) :=
  i ← raw_position (st_map s) first;
  j ← raw_position (st_map s) last;
  if decide (i ≤ j) then Some (erase_positions i j s, last) else None.

Definition erase_at (raw : raw_iterator) (s : store) : option (store * raw_iterator) :=
  entry ← raw;
  i ← position (st_map s) entry;
  Some (erase_positions i (S i) s, raw_at (st_map s) (S i)).

Definition erase_key (key : bytes) (s : store) : store * bool :=
  match table.find (st_map s) key with
  | Some i => (erase_positions i (S i) s, true)
  | None => (s, false)
  end.

Definition clear (s : store) : store := erase_positions 0 (length (st_map s)) s.

(** ** [impl::table_iterator] *)

(** [table_proxy_pair]: a reference to the key of an entry, and one to a node. *)
Definition proxy_pair : Type := nat * nat.

(** [raw_], and the proxy if it is instantiated. *)
Record table_iterator := mk_iterator { raw_ : raw_iterator; proxy : option proxy_pair }.

(** [table_iterator(raw)], the copy constructor, and the conversion to an iterator
    of constants. *)
Definition iterator_of (raw : raw_iterator) : table_iterator := mk_iterator raw None.
Definition copy_iterator (other : table_iterator) : table_iterator := iterator_of (raw_ other).

(** [operator =] *)
Definition assign_iterator (it rhs : table_iterator) : table_iterator := mk_iterator (raw_ rhs) None.

(** [get_proxy], which [operator *] and [operator ->] return. *)
Definition get_proxy (s : store) (it : table_iterator) : option (table_iterator * proxy_pair) :=
  match proxy it with
  | Some p => Some (it, p)
  | None =>
    entry ← raw_ it;
    kv ← snd <$> list_find (λ kv, slot_entry kv.2 = entry) (st_map s);
    let p := (entry, slot_node kv.2) in
    Some (mk_iterator (raw_ it) (Some p), p)
  end.

(** [++] and [--] *)
Definition pre_increment (s : store) (it : table_iterator) : option table_iterator :=
  raw ← raw_next (st_map s) (raw_ it); Some (mk_iterator raw None).
Definition pre_decrement (s : store) (it : table_iterator) : option table_iterator :=
  raw ← raw_previous (st_map s) (raw_ it); Some (mk_iterator raw None).
Definition post_increment (s : store) (it : table_iterator) : option (table_iterator * table_iterator) :=
  raw ← raw_next (st_map s) (raw_ it); Some (iterator_of (raw_ it), mk_iterator raw None).
Definition post_decrement (s : store) (it : table_iterator) : option (table_iterator * table_iterator) :=
  raw ← raw_previous (st_map s) (raw_ it); Some (iterator_of (raw_ it), mk_iterator raw None).

(** [operator ==] *)
Definition iterator_eq (lhs rhs : table_iterator) : bool := bool_decide (raw_ lhs = raw_ rhs).

(** [table::begin], [table::end] and [table::find] *)
Definition begin (s : store) : table_iterator := iterator_of (raw_at (st_map s) 0).
Definition end_ : table_iterator := iterator_of None.
Definition find (s : store) (key : bytes) : table_iterator :=
  iterator_of (i ← table.find (st_map s) key; raw_at (st_map s) i).

(** What the references of a proxy refer to; [None] when one of them dangles. *)
Definition read (s : store) (p : proxy_pair) : option (bytes * node) :=
  kv ← snd <$> list_find (λ kv, slot_entry kv.2 = p.1) (st_map s);
  v ← st_nodes s !! p.2;
  Some (kv.1, v).

(** [for (auto&& [k, v] : tbl) b = body(b, k, v)] *)
Fixpoint for_each {B} (fuel : nat) (body : B → bytes * node → B) (s : store) (last it : table_iterator) (b : B) : option B :=
  match fuel with
  | O => None
  | S fuel =>
    if iterator_eq it last then Some b
    else
      '(it, p) ← get_proxy s it;
      kv ← read s p;
      it ← pre_increment s it;
      for_each fuel body s last it (body b kv)
  end.

(** ** Programs with iterators *)

(** Variables of the program, by number: a table and its iterators. *)
Record state := mk_state { the_store : store; iterators : gmap nat table_iterator }.

Inductive command :=
  | Begin (x : nat)
  | End (x : nat)
  | Find (x : nat) (key : bytes)
  | Copy (x y : nat)
  | Assign (x y : nat)
  | PreIncrement (x : nat)
  | PreDecrement (x : nat)
  | PostIncrement (x y : nat)
  | PostDecrement (x y : nat)
  | Dereference (x : nat)
  | Insert (x : nat) (key : bytes) (val : option node)
  | InsertOrAssign (x : nat) (key : bytes) (val : option node)
  | EraseAt (x y : nat)
  | EraseRange (x first last : nat)
  | EraseKey (key : bytes)
  | Clear.

Definition set_iterator (x : nat) (it : table_iterator) (st : state) : state :=
  mk_state (the_store st) (<[x := it]> (iterators st)).

(** One of them; [None] is undefined behaviour. *)
Definition exec (st : state) (c : command) : option state :=
  let s := the_store st in
  match c with
  | Begin x => Some (set_iterator x (begin s) st)
  | End x => Some (set_iterator x end_ st)
  | Find x key => Some (set_iterator x (find s key) st)
  | Copy x y => it ← iterators st !! y; Some (set_iterator x (copy_iterator it) st)
  | Assign x y =>
    it ← iterators st !! x; rhs ← iterators st !! y; Some (set_iterator x (assign_iterator it rhs) st)
  | PreIncrement x => it ← iterators st !! x; it ← pre_increment s it; Some (set_iterator x it st)
  | PreDecrement x => it ← iterators st !! x; it ← pre_decrement s it; Some (set_iterator x it st)
  | PostIncrement x y =>
    it ← iterators st !! y; '(out, it) ← post_increment s it; Some (set_iterator x out (set_iterator y it st))
  | PostDecrement x y =>
    it ← iterators st !! y; '(out, it) ← post_decrement s it; Some (set_iterator x out (set_iterator y it st))
  | Dereference x =>
    it ← iterators st !! x; '(it, p) ← get_proxy s it; _ ← read s p; Some (set_iterator x it st)
  | Insert x key val =>
    let '(s, (raw, _)) := insert key val s in Some (mk_state s (<[x := iterator_of raw]> (iterators st)))
  | InsertOrAssign x key val =>
    let '(s, (raw, _)) := insert_or_assign key val s in Some (mk_state s (<[x := iterator_of raw]> (iterators st)))
  | EraseAt x y =>
    it ← iterators st !! y;
    '(s, raw) ← erase_at (raw_ it) s; Some (mk_state s (<[x := iterator_of raw]> (iterators st)))
  | EraseRange x first last =>
    it ← iterators st !! first;
    it' ← iterators st !! last;
    '(s, raw) ← erase_range (raw_ it) (raw_ it') s; Some (mk_state s (<[x := iterator_of raw]> (iterators st)))
  | EraseKey key => Some (mk_state (erase_key key s).1 (iterators st))
  | Clear => Some (mk_state (clear s) (iterators st))
  end.

Definition run (cs : list command) (st : state) : option state := foldl (λ st c, st ≫= λ st, exec st c) (Some st) cs.

(** An empty table and no iterators. *)
Definition init_state : state := mk_state (mk_store [] ∅ 0) ∅.

(** ** Stores that tables keep *)
Section stores.
Implicit Types (s : store) (m pre post : string_map slot) (kv : bytes * slot).

Definition entries m : list nat := (λ kv, slot_entry kv.2) <$> m.
Definition pointers m : list nat := (λ kv, slot_node kv.2) <$> m.

(** Keys ascend; no two entries share a pointer, no pointer dangles, and every node
    that was not destroyed belongs to an entry. *)
Record wf s : Prop := mk_wf {
  wf_ascending : ascending (st_map s);
  wf_entries : NoDup (entries (st_map s));
  wf_pointers : NoDup (pointers (st_map s));
  wf_owned : ∀ a, is_Some (st_nodes s !! a) ↔ a ∈ pointers (st_map s);
  wf_fresh : Forall (λ kv, slot_entry kv.2 < st_next s ∧ slot_node kv.2 < st_next s) (st_map s);
}.

Lemma NoDup_fmap_eq {A B} (f : A → B) l x y : NoDup (f <$> l) → x ∈ l → y ∈ l → f x = f y → x = y.
Proof.
  induction l as [|z l IH]; cbn; [set_solver|]. intros [Hz Hl]%NoDup_cons Hx Hy He.
  apply elem_of_cons in Hx as [->|Hx], Hy as [->|Hy]; [done| | |by apply IH];
    exfalso; apply Hz, list_elem_of_fmap; eauto.
Qed.

Lemma same_entry s kv kv' :
  wf s → kv ∈ st_map s → kv' ∈ st_map s → slot_entry kv.2 = slot_entry kv'.2 → kv = kv'.
Proof. intros Hs H1 H2 He. by apply (NoDup_fmap_eq _ _ _ _ (wf_entries s Hs)). Qed.
Lemma same_pointer s kv kv' :
  wf s → kv ∈ st_map s → kv' ∈ st_map s → slot_node kv.2 = slot_node kv'.2 → kv = kv'.
Proof. intros Hs H1 H2 He. by apply (NoDup_fmap_eq _ _ _ _ (wf_pointers s Hs)). Qed.

Lemma find_entry s i kv :
  wf s → st_map s !! i = Some kv →
  list_find (λ kv', slot_entry kv'.2 = slot_entry kv.2) (st_map s) = Some (i, kv).
Proof.
  intros Hs Hi. apply list_find_Some. split; [done|]. split; [done|]. intros j kv' Hj Hlt He.
  assert (j = i); [|lia]. apply (NoDup_lookup (entries (st_map s)) j i (slot_entry kv.2)); [by apply wf_entries| |];
    unfold entries; apply list_lookup_fmap_Some; eauto.
Qed.

Lemma find_entry_elem s kv :
  wf s → kv ∈ st_map s → snd <$> list_find (λ kv', slot_entry kv'.2 = slot_entry kv.2) (st_map s) = Some kv.
Proof. intros Hs [i Hi]%list_elem_of_lookup. by rewrite (find_entry s i kv). Qed.

Lemma owned_node s kv : wf s → kv ∈ st_map s → is_Some (st_nodes s !! slot_node kv.2).
Proof. intros Hs Hk. apply (wf_owned s Hs), list_elem_of_fmap. eauto. Qed.

Lemma fresh_node s : wf s → st_nodes s !! st_next s = None.
Proof.
  intros Hs. destruct (st_nodes s !! st_next s) eqn:Hn; [|done]. exfalso.
  assert (st_next s ∈ pointers (st_map s)) as (kv & Hk & Hin)%list_elem_of_fmap by (apply (wf_owned s Hs); eauto).
  pose proof (wf_fresh s Hs) as Hf. rewrite Forall_forall in Hf. specialize (Hf kv Hin). lia.
Qed.

(** What an operation leaves of the entries: those that have a pointer of before are
    entries of before, and, unless it resets one, so are those of before. *)
Record evolves s s' : Prop := mk_evolves {
  ev_next : st_next s ≤ st_next s';
  ev_pointers : ∀ kv, kv ∈ st_map s' → slot_node kv.2 < st_next s → kv ∈ st_map s;
}.
Definition keeps s s' : Prop := ∀ kv, kv ∈ st_map s' → slot_entry kv.2 < st_next s → kv ∈ st_map s.

#[local] Notation opened s pre key v post :=
  (mk_store (pre ++ [(key, mk_slot (S (st_next s)) (st_next s))] ++ post) (<[st_next s := v]> (st_nodes s)) (S (S (st_next s)))).

Lemma new_entry_wf s pre post key v :
  wf s → st_map s = pre ++ post → ascending (pre ++ [(key, mk_slot (S (st_next s)) (st_next s))] ++ post) →
  wf (opened s pre key v post) ∧ evolves s (opened s pre key v post) ∧ keeps s (opened s pre key v post).
Proof.
  intros Hs Hm Ha. pose proof (wf_fresh s Hs) as Hf. rewrite Hm in Hf.
  assert (pre ++ [(key, mk_slot (S (st_next s)) (st_next s))] ++ post ≡ₚ (key, mk_slot (S (st_next s)) (st_next s)) :: st_map s) as Hp.
  { rewrite Hm. cbn. by rewrite Permutation_middle. }
  split; [|split; [split|]]; cbn [st_map st_nodes st_next].
  - split; cbn [st_map st_nodes st_next]; [done| | | |].
    + unfold entries. rewrite Hp. cbn. apply NoDup_cons. split; [|by apply wf_entries].
      intros (kv & Hk & Hin)%list_elem_of_fmap. rewrite Hm in Hin. rewrite Forall_forall in Hf. specialize (Hf kv Hin). cbn in *. lia.
    + unfold pointers. rewrite Hp. cbn. apply NoDup_cons. split; [|by apply wf_pointers].
      intros (kv & Hk & Hin)%list_elem_of_fmap. rewrite Hm in Hin. rewrite Forall_forall in Hf. specialize (Hf kv Hin). cbn in *. lia.
    + intros a. unfold pointers. rewrite Hp. cbn. rewrite elem_of_cons, <- (wf_owned s Hs a), lookup_insert_is_Some'. split; (intros [Hx|Hx]; [by left|by right]).
    + rewrite Hp, Hm. constructor; [cbn; lia|]. eapply Forall_impl; [exact Hf|]. cbn. intros kv [??]. lia.
  - lia.
  - intros kv Hk Hlt. rewrite Hp in Hk. apply elem_of_cons in Hk as [->|Hk]; [cbn in Hlt; lia|done].
  - intros kv Hk Hlt. cbn in Hk. rewrite Hp in Hk. apply elem_of_cons in Hk as [->|Hk]; [cbn in Hlt; lia|done].
Qed.

Lemma reset_wf s pre k sl post v :
  wf s → st_map s = pre ++ (k, sl) :: post → ascending (pre ++ (k, mk_slot (slot_entry sl) (st_next s)) :: post) →
  let s' := mk_store (pre ++ (k, mk_slot (slot_entry sl) (st_next s)) :: post)
    (delete (slot_node sl) (<[st_next s := v]> (st_nodes s))) (S (st_next s)) in
  wf s' ∧ evolves s s'.
Proof.
  intros Hs Hm Ha s'. pose proof (wf_fresh s Hs) as Hf. pose proof (wf_entries s Hs) as He. pose proof (wf_pointers s Hs) as Hn.
  pose proof (λ a, wf_owned s Hs a) as Ho. rewrite Hm in Hf, He, Hn, Ho.
  assert (pre ++ (k, sl) :: post ≡ₚ (k, sl) :: pre ++ post) as Hp by (by rewrite Permutation_middle).
  assert (pre ++ (k, mk_slot (slot_entry sl) (st_next s)) :: post ≡ₚ (k, mk_slot (slot_entry sl) (st_next s)) :: pre ++ post)
    as Hp' by (by rewrite Permutation_middle).
  rewrite Hp in Hf. unfold entries, pointers in *. rewrite Hp in He, Hn. setoid_rewrite Hp in Ho. cbn in He, Hn, Ho.
  apply NoDup_cons in Hn as [Hsl Hn]. apply Forall_cons in Hf as [[Hf1 Hf2] Hf]. cbn in Hf1, Hf2.
  assert (∀ kv, kv ∈ pre ++ post → slot_node kv.2 < st_next s) as Hlt by (intros kv Hk; rewrite Forall_forall in Hf; by apply Hf).
  split; [split; cbn [s' st_map st_nodes st_next]|].
  - done.
  - unfold entries. rewrite Hp'. exact He.
  - unfold pointers. rewrite Hp'. cbn. apply NoDup_cons. split; [|done]. intros (kv & Hk & Hin)%list_elem_of_fmap.
    specialize (Hlt kv Hin). lia.
  - intros a. unfold pointers. rewrite Hp'. cbn. rewrite elem_of_cons, lookup_delete_is_Some, lookup_insert_is_Some', Ho, elem_of_cons.
    split; [intros [? [?|[?|?]]]; [by left|done|by right]|]. intros [->|Hin].
    + split; [lia|by left].
    + split; [by intros <-|by right; right].
  - rewrite Hp'. constructor; [cbn; lia|]. eapply Forall_impl; [exact Hf|]. cbn. intros kv [??]. lia.
  - split; cbn [s' st_map st_next]; [lia|]. intros kv Hk Hlt'. rewrite Hp' in Hk. rewrite Hm, Hp.
    apply elem_of_cons in Hk as [->|Hk]; [cbn in Hlt'; lia|by right].
Qed.

Lemma lookup_delete_nodes m (nodes : gmap nat node) a :
  delete_nodes m nodes !! a = if decide (a ∈ pointers m) then None else nodes !! a.
Proof.
  induction m as [|kv m IH]; [done|]. unfold delete_nodes, pointers in *. cbn [foldr fmap list_fmap].
  destruct (decide (a = slot_node kv.2)) as [->|Hne].
  - rewrite lookup_delete_eq, decide_True; [done|by left].
  - rewrite lookup_delete_ne, IH by done. apply decide_ext. rewrite elem_of_cons. naive_solver.
Qed.

Lemma erase_wf s pre mid post :
  wf s → st_map s = pre ++ mid ++ post →
  let s' := mk_store (pre ++ post) (delete_nodes mid (st_nodes s)) (st_next s) in
  wf s' ∧ evolves s s' ∧ keeps s s'.
Proof.
  intros Hs Hm s'. assert (st_map s ≡ₚ mid ++ pre ++ post) as Hp by (rewrite Hm; solve_Permutation).
  assert (∀ kv, kv ∈ pre ++ post → kv ∈ st_map s) as Hin by (intros kv Hk; rewrite Hp; set_solver).
  pose proof (wf_entries s Hs) as He. pose proof (wf_pointers s Hs) as Hn. pose proof (λ a, wf_owned s Hs a) as Ho.
  pose proof (wf_fresh s Hs) as Hf. unfold entries, pointers in He, Hn, Ho. rewrite Hp in He, Hn, Hf. setoid_rewrite Hp in Ho.
  rewrite fmap_app in He, Hn. setoid_rewrite fmap_app in Ho. apply NoDup_app in He as (_ & _ & He), Hn as (_ & Hd & Hn).
  apply Forall_app in Hf as [_ Hf]. split; [split; cbn [s' st_map st_nodes st_next]; try done|].
  - pose proof (wf_ascending s Hs) as Ha. rewrite Hm in Ha. apply ascending_app in Ha as (H1 & H2 & H3).
    apply ascending_app in H2 as (_ & H2 & _). apply ascending_app. split; [done|]. split; [done|].
    eapply Forall_impl; [exact H3|]. cbn. intros kv Hk. by apply Forall_app in Hk as [_ Hk].
  - intros a. rewrite lookup_delete_nodes. unfold pointers in *. case_decide as Hc.
    + split; [by intros [? ?]|]. intros Hin'. by destruct (Hd a Hc).
    + rewrite Ho, elem_of_app. naive_solver.
  - split; [split; [done|]|]; intros kv Hk _; by apply Hin.
Qed.

(** *** The operations of the table *)
Record outcome (resets : bool) s s' (raw : raw_iterator) : Prop := mk_outcome {
  oc_wf : wf s';
  oc_evolves : evolves s s';
  oc_keeps : resets = false → keeps s s';
  oc_raw : ∀ e, raw = Some e → e < st_next s';
}.

Lemma entry_fresh s kv : wf s → kv ∈ st_map s → slot_entry kv.2 < st_next s ∧ slot_node kv.2 < st_next s.
Proof. intros Hs Hk. pose proof (wf_fresh s Hs) as Hf. rewrite Forall_forall in Hf. by apply Hf. Qed.

Lemma same_outcome resets s raw : wf s → (∀ e, raw = Some e → e < st_next s) → outcome resets s s raw.
Proof. intros Hs Hr. split; [done| |by intros _ ?|done]. split; [done|]. by intros. Qed.

Lemma raw_at_fresh s i e : wf s → raw_at (st_map s) i = Some e → e < st_next s.
Proof. intros Hs (kv & Hi & ->)%fmap_Some. apply (entry_fresh s kv Hs). by eapply list_elem_of_lookup_2. Qed.

Lemma insert_new_outcome resets key v s :
  wf s → do_get (st_map s) key = None →
  outcome resets s (insert_new (table.lower_bound (st_map s) key) key v s).1 (insert_new (table.lower_bound (st_map s) key) key v s).2.1.
Proof.
  intros Hs Hk. destruct (new_entry_wf s (take (table.lower_bound (st_map s) key) (st_map s))
    (drop (table.lower_bound (st_map s) key) (st_map s)) key v) as (H1 & H2 & H3); [done|by rewrite take_drop| |].
  - rewrite emplace_position by (done || by apply wf_ascending). apply emplace_ascending. by apply wf_ascending.
  - split; [done|done|done|]. cbn. intros e [= <-]. lia.
Qed.

Lemma insert_outcome resets key val s : wf s → outcome resets s (insert key val s).1 (insert key val s).2.1.
Proof.
  intros Hs. destruct val as [v|]; [|by apply same_outcome]. cbn [insert].
  destruct (lower_bound_spec key (st_map s) (wf_ascending s Hs)) as [_ Hl].
  destruct (st_map s !! table.lower_bound (st_map s) key) as [[k sl]|] eqn:Hi; [case_decide|]; try by apply insert_new_outcome.
  apply same_outcome; [done|]. cbn. intros e [= <-]. apply (entry_fresh s (k, sl) Hs). by eapply list_elem_of_lookup_2.
Qed.

Lemma reset_outcome key sl v s :
  wf s → st_map s !! table.lower_bound (st_map s) key = Some (key, sl) →
  outcome true s (reset (table.lower_bound (st_map s) key) key sl v s) (Some (slot_entry sl)).
Proof.
  intros Hs Hi. pose proof (wf_ascending s Hs) as Ha. destruct (lower_bound_spec key (st_map s) Ha) as [_ Hl].
  rewrite Hi, decide_True in Hl by done. unfold reset, new_node. cbn [st_map st_nodes st_next].
  pose proof (map_alter_ascending (const (mk_slot (slot_entry sl) (st_next s))) key _ Ha) as Ha'.
  rewrite <- (assign_position _ _ sl) in Ha' by done.
  set (x := (key, mk_slot (slot_entry sl) (st_next s))) in *.
  assert (<[table.lower_bound (st_map s) key := x]> (st_map s)
    = take (table.lower_bound (st_map s) key) (st_map s) ++ x :: drop (S (table.lower_bound (st_map s) key)) (st_map s)) as Hr
    by (apply insert_take_drop; by eapply lookup_lt_Some).
  rewrite Hr in Ha' |- *.
  apply reset_wf with (v := v) in Ha' as [H1 H2]; [|done|by rewrite take_drop_middle].
  split; [done|done|done|]. intros e [= <-]. cbn. apply Nat.lt_lt_succ_r.
  apply (entry_fresh s (key, sl) Hs). by eapply list_elem_of_lookup_2.
Qed.

Lemma insert_or_assign_outcome key val s : wf s → outcome true s (insert_or_assign key val s).1 (insert_or_assign key val s).2.1.
Proof.
  intros Hs. destruct val as [v|]; [|by apply same_outcome]. cbn [insert_or_assign].
  destruct (lower_bound_spec key (st_map s) (wf_ascending s Hs)) as [_ Hl].
  destruct (st_map s !! table.lower_bound (st_map s) key) as [[k sl]|] eqn:Hi; [case_decide|]; try by apply insert_new_outcome.
  subst k. by apply reset_outcome.
Qed.

Lemma erase_positions_outcome resets i j s raw :
  wf s → i ≤ j → (∀ e, raw = Some e → e < st_next s) → outcome resets s (erase_positions i j s) raw.
Proof.
  intros Hs Hij Hr. unfold erase_positions, table.erase_range.
  destruct (erase_wf s (take i (st_map s)) (take (j - i) (drop i (st_map s))) (drop j (st_map s)) Hs) as (H1 & H2 & H3).
  - replace j with (i + (j - i)) at 2 by lia. by rewrite <- drop_drop, !take_drop.
  - by split.
Qed.

Lemma erase_at_outcome resets raw s s' raw' : wf s → erase_at raw s = Some (s', raw') → outcome resets s s' raw'.
Proof.
  intros Hs He. unfold erase_at in He. simplify_option_eq. apply erase_positions_outcome; [done|lia|].
  intros e' He'. by eapply raw_at_fresh.
Qed.

Lemma erase_range_outcome resets first last s s' raw :
  wf s → (∀ e, last = Some e → e < st_next s) → erase_range first last s = Some (s', raw) → outcome resets s s' raw.
Proof. intros Hs Hl He. unfold erase_range in He. simplify_option_eq. by apply erase_positions_outcome. Qed.

Lemma erase_key_outcome resets key s : wf s → outcome resets s (erase_key key s).1 None.
Proof.
  intros Hs. unfold erase_key. destruct (table.find (st_map s) key); cbn; [|by apply same_outcome].
  apply erase_positions_outcome; [done|lia|done].
Qed.

Lemma clear_outcome resets s : wf s → outcome resets s (clear s) None.
Proof. intros Hs. apply erase_positions_outcome; [done|lia|done]. Qed.
End stores.

(** ** Iterators stay with their entries *)
Section iterators.
Implicit Types (s : store) (it : table_iterator) (st : state).

(** The references of a proxy are to the entry of the iterator and to a node that
    no other entry has; to the entry's own node, unless it was replaced
    ([current]). *)
Record it_ok s it : Prop := mk_it_ok {
  io_raw : ∀ e, raw_ it = Some e → e < st_next s;
  io_proxy : ∀ e a, proxy it = Some (e, a) →
    raw_ it = Some e ∧ a < st_next s ∧ ∀ kv, kv ∈ st_map s → slot_node kv.2 = a → slot_entry kv.2 = e;
}.
Definition current s it : Prop :=
  ∀ e a kv, proxy it = Some (e, a) → kv ∈ st_map s → slot_entry kv.2 = e → slot_node kv.2 = a.

Lemma it_ok_evolves s s' it : evolves s s' → it_ok s it → it_ok s' it.
Proof.
  intros [Hn Hp] [Hr Hx]. split.
  - intros e He. specialize (Hr e He). lia.
  - intros e a He. destruct (Hx e a He) as (H1 & H2 & H3). split; [done|]. split; [lia|].
    intros kv Hk Ha. apply H3; [|done]. apply Hp; [done|lia].
Qed.

Lemma current_keeps s s' it : keeps s s' → it_ok s it → current s it → current s' it.
Proof.
  intros Hs Hi Hc e a kv Hx Hk He. apply (Hc e); [done| |done]. apply Hs; [done|]. rewrite He.
  destruct (io_proxy s it Hi e a Hx) as [Hr _]. by apply (io_raw s it Hi).
Qed.

Lemma raw_ok s raw : (∀ e, raw = Some e → e < st_next s) → it_ok s (mk_iterator raw None) ∧ current s (mk_iterator raw None).
Proof. intros Hr. split; [by split|]. by intros e a kv. Qed.

Lemma get_proxy_ok s it it' p :
  wf s → it_ok s it → get_proxy s it = Some (it', p) → it_ok s it' ∧ (current s it → current s it').
Proof.
  intros Hs Hi Hg. unfold get_proxy in Hg. destruct (proxy it) as [q|] eqn:Hq; [by injection Hg as <- <-|].
  destruct (raw_ it) as [e|] eqn:Hr; [|done]. cbn in Hg. destruct (list_find _ _) as [[i kv]|] eqn:Hf; [|done].
  injection Hg as <- <-. apply list_find_Some in Hf as (Hk%list_elem_of_lookup_2 & He & _).
  pose proof (entry_fresh s kv Hs Hk). split; [split|].
  - cbn. intros e' [= <-]. lia.
  - cbn. intros e' a [= <- <-]. split; [done|]. split; [lia|]. intros kv' Hk' Ha. by rewrite (same_pointer s kv' kv).
  - cbn. intros _ e' a kv' [= <- <-] Hk' He'. rewrite (same_entry s kv' kv); [done|done|done|done|congruence].
Qed.

(** Dereferencing at an entry of the table. *)
Lemma dereference_spec s it key sl :
  wf s → it_ok s it → raw_ it = Some (slot_entry sl) → (key, sl) ∈ st_map s →
  ∃ n it' p, st_nodes s !! slot_node sl = Some n ∧ get_proxy s it = Some (it', p) ∧
    match read s p with
    | Some kv => kv = (key, n)
    | None => proxy it = Some p ∧ ¬ current s it
    end.
Proof.
  intros Hs Hi Hr Hk. destruct (owned_node s (key, sl) Hs Hk) as [n Hn]. cbn in Hn. exists n.
  pose proof (find_entry_elem s (key, sl) Hs Hk) as Hf. cbn in Hf. unfold get_proxy. destruct (proxy it) as [[e a]|] eqn:Hp.
  - exists it, (e, a). destruct (io_proxy s it Hi e a Hp) as (He & _ & Ha). rewrite Hr in He. injection He as He.
    split; [done|]. split; [done|]. unfold read. cbn [fst snd]. rewrite <- He, Hf. cbn [mbind option_bind].
    destruct (st_nodes s !! a) as [n'|] eqn:Hn'; cbn.
    + assert (a ∈ pointers (st_map s)) as (kv & -> & Hkv)%list_elem_of_fmap by (apply (wf_owned s Hs); eauto).
      rewrite (same_entry s kv (key, sl)) in Hn'; [cbn in Hn'; congruence|done|done|done|]. cbn. rewrite He. by apply Ha.
    + split; [done|]. intros Hc. specialize (Hc e a (key, sl) Hp Hk He). cbn in Hc. congruence.
  - rewrite Hr. cbn [mbind option_bind]. rewrite Hf. cbn [mbind option_bind]. eexists _, _. split; [done|]. split; [done|].
    unfold read. cbn [fst snd]. rewrite Hf. cbn [mbind option_bind]. by rewrite Hn.
Qed.

(** *** Every program keeps this *)
Definition good (strict : bool) st : Prop :=
  wf (the_store st) ∧
  ∀ x it, iterators st !! x = Some it → it_ok (the_store st) it ∧ (strict = true → current (the_store st) it).

Lemma good_set strict x it st :
  good strict st → it_ok (the_store st) it → (strict = true → current (the_store st) it) → good strict (set_iterator x it st).
Proof.
  intros [Hs Hi] Ho Hc. split; [done|]. intros y it'. cbn. intros [[<- <-]|[_ Hy]]%lookup_insert_Some; [done|by apply (Hi y)].
Qed.

Lemma good_raw strict x raw st :
  good strict st → (∀ e, raw = Some e → e < st_next (the_store st)) → good strict (set_iterator x (mk_iterator raw None) st).
Proof. intros Hg Hr. destruct (raw_ok _ raw Hr). by apply good_set. Qed.

Lemma good_outcome strict x s' raw st :
  good strict st → outcome (negb strict) (the_store st) s' raw →
  good strict (mk_state s' (iterators st)) ∧ good strict (mk_state s' (<[x := iterator_of raw]> (iterators st))).
Proof.
  intros [Hs Hi] [H1 H2 H3 H4]. assert (good strict (mk_state s' (iterators st))) as Hg.
  - split; [done|]. intros y it Hy. destruct (Hi y it Hy) as [Ho Hc]. split; [by eapply it_ok_evolves|].
    intros ->. eapply current_keeps; [by apply H3|done|by apply Hc].
  - split; [done|]. apply (good_raw strict x raw (mk_state s' (iterators st))); done.
Qed.

Lemma raw_next_fresh s raw raw' e : wf s → raw_next (st_map s) raw = Some raw' → raw' = Some e → e < st_next s.
Proof. intros Hs Hn ->. unfold raw_next in Hn. simplify_option_eq. by eapply raw_at_fresh. Qed.
Lemma raw_previous_fresh s raw raw' e : wf s → raw_previous (st_map s) raw = Some raw' → raw' = Some e → e < st_next s.
Proof. intros Hs Hn ->. unfold raw_previous in Hn. destruct raw; simplify_option_eq; repeat case_match; simplify_eq; by eapply raw_at_fresh. Qed.

Definition replaces (c : command) : bool := match c with InsertOrAssign _ _ (Some _) => true | _ => false end.

Lemma exec_good strict st c st' :
  good strict st → (strict = true → replaces c = false) → exec st c = Some st' → good strict st'.
Proof.
  intros Hg Hc He. pose proof Hg as [Hs Hi].
  destruct c as [x|x|x key|x y|x y|x|x|x y|x y|x|x key val|x key val|x y|x first last|key|]; cbn [exec] in He.
  - injection He as <-. apply good_raw; [done|]. intros e. by apply raw_at_fresh.
  - injection He as <-. by apply good_raw.
  - injection He as <-. apply good_raw; [done|]. intros e Hr. simplify_option_eq. by eapply raw_at_fresh.
  - simplify_option_eq. apply good_raw; [done|]. apply io_raw. by eapply Hi.
  - simplify_option_eq. apply good_raw; [done|]. apply io_raw. by eapply Hi.
  - unfold pre_increment in He. simplify_option_eq. apply good_raw; [done|]. intros e Hr. by eapply raw_next_fresh.
  - unfold pre_decrement in He. simplify_option_eq. apply good_raw; [done|]. intros e Hr. by eapply raw_previous_fresh.
  - unfold post_increment in He. simplify_option_eq. apply good_raw; [apply good_raw; [done|]|].
    + intros e Hr. by eapply raw_next_fresh.
    + apply io_raw. by eapply Hi.
  - unfold post_decrement in He. simplify_option_eq. apply good_raw; [apply good_raw; [done|]|].
    + intros e Hr. by eapply raw_previous_fresh.
    + apply io_raw. by eapply Hi.
  - destruct (iterators st !! x) as [it|] eqn:Hx; [|done]. cbn [mbind option_bind] in He.
    destruct (get_proxy (the_store st) it) as [[it' p]|] eqn:Hp; [|done]. simplify_option_eq.
    destruct (Hi x it Hx) as [Ho Hcu]. destruct (get_proxy_ok _ _ _ _ Hs Ho Hp) as [Ho' Hcu'].
    apply good_set; [done|done|]. intros Hst. by apply Hcu', Hcu.
  - destruct (insert key val (the_store st)) as [s [raw b]] eqn:Hn. injection He as <-.
    apply good_outcome; [done|]. pose proof (insert_outcome (negb strict) key val _ Hs) as Ho. by rewrite Hn in Ho.
  - destruct (insert_or_assign key val (the_store st)) as [s [raw b]] eqn:Hn. injection He as <-.
    apply good_outcome; [done|]. destruct strict.
    + destruct val as [v|]; [by specialize (Hc eq_refl)|]. injection Hn as <- <- <-. by apply same_outcome.
    + pose proof (insert_or_assign_outcome key val _ Hs) as Ho. by rewrite Hn in Ho.
  - destruct (iterators st !! y) as [it|]; [|done]. cbn [mbind option_bind] in He.
    destruct (erase_at (raw_ it) (the_store st)) as [[s raw]|] eqn:Hn; [|done]. injection He as <-.
    apply good_outcome; [done|]. by eapply erase_at_outcome.
  - destruct (iterators st !! first) as [it|]; [|done]. destruct (iterators st !! last) as [it'|] eqn:Hl; [|done].
    cbn [mbind option_bind] in He. destruct (erase_range (raw_ it) (raw_ it') (the_store st)) as [[s raw]|] eqn:Hn; [|done].
    injection He as <-. apply good_outcome; [done|]. eapply erase_range_outcome; [done| |done]. apply io_raw. by eapply Hi.
  - injection He as <-. eapply (good_outcome strict 0); [done|]. by apply erase_key_outcome.
  - injection He as <-. eapply (good_outcome strict 0); [done|]. by apply clear_outcome.
Qed.

Lemma init_good strict : good strict init_state.
Proof.
  split; [|by intros x it]. split; cbn; try by constructor. intros a. rewrite lookup_empty. split; [by intros [? ?]|set_solver].
Qed.

Lemma run_good strict cs st st' :
  good strict st → (strict = true → existsb replaces cs = false) → run cs st = Some st' → good strict st'.
Proof.
  revert st. induction cs as [|c cs IH]; intros st Hg Hc Hr; [by injection Hr as <-|].
  unfold run in Hr. cbn [foldl mbind option_bind] in Hr. cbn [existsb] in Hc.
  destruct (exec st c) as [st1|] eqn:He.
  - apply (IH st1); [|intros Hst; by apply orb_false_iff in Hc as [_ ?]|exact Hr].
    eapply exec_good; [done| |done]. intros Hst. by apply orb_false_iff in Hc as [? _].
  - exfalso. clear -Hr. induction cs as [|c cs IH]; [done|]. by apply IH.
Qed.

(** A table owns its nodes: whatever a program does, no entry is left with a pointer
    to a destroyed node, no two entries share one, and no node is left without an
    entry. *)
Theorem tables_own_their_nodes cs st :
  run cs init_state = Some st →
  NoDup (pointers (st_map (the_store st))) ∧
  ∀ a, is_Some (st_nodes (the_store st) !! a) ↔ a ∈ pointers (st_map (the_store st)).
Proof.
  intros Hr. assert (good false st) as [Hs _] by by apply (run_good false cs init_state); [apply init_good|..].
  split; [by apply wf_pointers|by apply wf_owned].
Qed.

(** C25: an iterator that is at an entry of its table, whatever insertions, erasures
    and moves of iterators came before, gives the entry's key and the node the
    entry has now when it is dereferenced. The one exception is the reference
    that the iterator itself keeps from an earlier dereference: it dangles when
    [insert_or_assign] has replaced the node since, and then it is never another
    node that is read, but a destroyed one. *)
Theorem table_iterators_exact cs st x it key sl :
  run cs init_state = Some st → iterators st !! x = Some it →
  (key, sl) ∈ st_map (the_store st) → raw_ it = Some (slot_entry sl) →
  ∃ n it' p, st_nodes (the_store st) !! slot_node sl = Some n ∧ get_proxy (the_store st) it = Some (it', p) ∧
    match read (the_store st) p with
    | Some kv => kv = (key, n)
    | None => proxy it = Some p ∧ existsb replaces cs = true
    end.
Proof.
  intros Hr Hx Hk He. destruct (existsb replaces cs) eqn:Hc.
  - destruct (run_good false cs init_state st (init_good _)) as [Hs Hi]; [done|done|]. destruct (Hi x it Hx) as [Ho _].
    destruct (dereference_spec _ it key sl Hs Ho He Hk) as (n & it' & p & H1 & H2 & H3). exists n, it', p.
    split; [done|]. split; [done|]. destruct (read _ p); [done|]. naive_solver.
  - destruct (run_good true cs init_state st (init_good _)) as [Hs Hi]; [done|done|]. destruct (Hi x it Hx) as [Ho Hcu].
    destruct (dereference_spec _ it key sl Hs Ho He Hk) as (n & it' & p & H1 & H2 & H3). exists n, it', p.
    split; [done|]. split; [done|]. destruct (read _ p); [done|]. by destruct H3 as [_ []]; apply Hcu.
Qed.
End iterators.

Definition a_program : list command :=
  [Insert 0 (bs "b") (Some (VString (bs "1") no_region)); Insert 1 (bs "a") (Some (VString (bs "2") no_region));
   Begin 2; Dereference 2; InsertOrAssign 3 (bs "b") (Some (VString (bs "3") no_region)); PostIncrement 4 2].

Lemma table_iterators_exact_witness :
  ∃ st it sl, run a_program init_state = Some st ∧ iterators st !! 2 = Some it ∧ (bs "b", sl) ∈ st_map (the_store st) ∧
    raw_ it = Some (slot_entry sl) ∧
    ∃ n it' p, st_nodes (the_store st) !! slot_node sl = Some n ∧ get_proxy (the_store st) it = Some (it', p) ∧
      match read (the_store st) p with
      | Some kv => kv = (bs "b", n)
      | None => proxy it = Some p ∧ existsb replaces a_program = true
      end.
Proof.
  eexists _, _, (mk_slot 1 4). assert (run a_program init_state = Some _) as Hr by (vm_compute; reflexivity).
  split; [exact Hr|]. split; [vm_compute; reflexivity|]. split; [right; left|]. split; [vm_compute; reflexivity|].
  apply (table_iterators_exact a_program _ 2 _ _ _ Hr); [vm_compute; reflexivity|right; left|vm_compute; reflexivity].
Defined.

Section replaced_nodes.
Implicit Types (s : store) (it : table_iterator) (st : state).

Lemma do_get_present {A} key (v : A) (m : string_map A) : ascending m → (key, v) ∈ m → do_get m key = Some v.
Proof.
  intros Hm Hk. destruct (do_get m key) as [w|] eqn:Hg.
  - apply do_get_elem in Hg. by pose proof (NoDup_fmap_eq fst m _ _ (ascending_NoDup m Hm) Hg Hk eq_refl) as [= ->].
  - exfalso. induction m as [|[k w] m IH]; [set_solver|]. cbn in Hg. case_decide; [done|].
    apply elem_of_cons in Hk as [Hk|Hk]; [congruence|]. apply IH; [by inversion Hm|done|done].
Qed.

Lemma lower_bound_present {A} key (v : A) (m : string_map A) :
  ascending m → (key, v) ∈ m → m !! table.lower_bound m key = Some (key, v).
Proof.
  intros Hm Hk. pose proof (do_get_present key v m Hm Hk) as Hg. destruct (lower_bound_spec key m Hm) as [_ Hl].
  destruct (m !! table.lower_bound m key) as [[k w]|]; [case_decide|]; congruence.
Qed.

Lemma dereferenced s it it' p n key sl :
  wf s → it_ok s it → raw_ it = Some (slot_entry sl) → (key, sl) ∈ st_map s →
  get_proxy s it = Some (it', p) → read s p = Some n → it' = mk_iterator (raw_ it) (Some p) ∧ p.2 = slot_node sl.
Proof.
  intros Hs Hi Hr Hk Hg Hp. pose proof (get_proxy_ok s it it' p Hs Hi Hg) as [Ho _].
  assert (it' = mk_iterator (raw_ it) (Some p)) as ->.
  { unfold get_proxy in Hg. destruct it as [raw [q|]]; cbn in *; [by injection Hg as <- <-|].
    by simplify_option_eq. }
  split; [done|]. destruct p as [e a]. destruct (io_proxy s _ Ho e a eq_refl) as (He & _ & Ha). cbn in He. rewrite Hr in He.
  injection He as He. unfold read in Hp. cbn [fst snd] in *. destruct (st_nodes s !! a) eqn:Hn; [|by destruct (snd <$> list_find _ _)].
  assert (a ∈ pointers (st_map s)) as (kv & Hav & Hkv)%list_elem_of_fmap by (apply (wf_owned s Hs); eauto).
  rewrite Hav. f_equal. rewrite (same_entry s kv (key, sl)); [done|done|done|done|]. cbn. rewrite He. by apply Ha.
Qed.

(** the cached reference: an iterator that was dereferenced before
    [insert_or_assign] replaces the node of its entry is used after free when it
    is dereferenced again, although it still equals the iterator returned, which
    gives the new node. *)
Theorem replaced_node_dangles cs st st1 st2 x y it key sl v :
  run cs init_state = Some st → iterators st !! x = Some it →
  (key, sl) ∈ st_map (the_store st) → raw_ it = Some (slot_entry sl) →
  exec st (Dereference x) = Some st1 → exec st1 (InsertOrAssign y key (Some v)) = Some st2 → x ≠ y →
  exec st2 (Dereference x) = None ∧ is_Some (exec st2 (Dereference y)) ∧
  (∃ it1 it2, iterators st2 !! x = Some it1 ∧ iterators st2 !! y = Some it2 ∧ iterator_eq it1 it2 = true).
Proof.
  intros Hr Hx Hk He H1 H2 Hne. assert (good false st) as Hg by by apply (run_good false cs init_state); [apply init_good|..].
  pose proof (exec_good _ _ _ _ Hg ltac:(done) H1) as Hg1. pose proof (exec_good _ _ _ _ Hg1 ltac:(done) H2) as Hg2.
  destruct Hg as [Hs Hi]. destruct (Hi x it Hx) as [Ho _]. cbn in H1. rewrite Hx in H1. cbn in H1.
  destruct (get_proxy (the_store st) it) as [[it' p]|] eqn:Hp; [|done]. cbn in H1.
  destruct (read (the_store st) p) as [n|] eqn:Hn; [|done]. injection H1 as <-.
  destruct (dereferenced _ _ _ _ _ _ _ Hs Ho He Hk Hp Hn) as [-> Ha].
  pose proof (lower_bound_present key sl _ (wf_ascending _ Hs) Hk) as Hl.
  cbn in H2. rewrite Hl, decide_True in H2 by done. injection H2 as <-.
  cbn [exec the_store iterators set_iterator].
  rewrite (lookup_insert_ne _ y x), (lookup_insert_eq _ x), (lookup_insert_eq _ y) by done. cbn [mbind option_bind]. split; [|split].
  - unfold read, get_proxy. cbn [proxy mbind option_bind]. cbn [st_nodes]. rewrite Ha, lookup_delete_eq. by destruct (snd <$> list_find _ _).
  - destruct Hg2 as [Hs2 Hi2]. cbn in Hs2. destruct (Hi2 y (iterator_of (Some (slot_entry sl)))) as [Ho2 _]; [apply lookup_insert_eq|].
    eapply (dereference_spec _ _ key (mk_slot (slot_entry sl) (st_next (the_store st)))) in Hs2 as (n2 & it2 & p2 & _ & Hp2 & Hn2); cbn [the_store] in *;
      [|exact Ho2|done|].
    + rewrite Hp2. cbn [mbind option_bind]. destruct (read _ p2); [by eexists|by destruct Hn2].
    + cbn. eapply list_elem_of_lookup_2. apply list_lookup_insert_eq. by eapply lookup_lt_Some.
  - eexists _, _. split; [done|]. split; [done|]. unfold iterator_eq. cbn. by rewrite bool_decide_true.
Qed.
End replaced_nodes.

(** ** The data a table in memory holds *)
Section contents.
Implicit Types (s : store) (m : string_map node).

Definition holds (nodes : gmap nat node) (kv : bytes * slot) (kn : bytes * node) : Prop :=
  kv.1 = kn.1 ∧ nodes !! slot_node kv.2 = Some kn.2.
Definition represents s m : Prop := Forall2 (holds (st_nodes s)) (st_map s) m.

Lemma Forall2_impl_elem {A B} (P Q : A → B → Prop) l k :
  Forall2 P l k → (∀ x y, x ∈ l → P x y → Q x y) → Forall2 Q l k.
Proof. induction 1; constructor; set_solver. Qed.

Lemma holds_fresh s v kv kn : wf s → holds (st_nodes s) kv kn → holds (<[st_next s := v]> (st_nodes s)) kv kn.
Proof.
  intros Hs [H1 H2]. split; [done|]. rewrite lookup_insert_ne; [done|]. intros He. pose proof (fresh_node s Hs). congruence.
Qed.

Lemma represents_bound nodes (l : string_map slot) m key :
  Forall2 (holds nodes) l m → table.lower_bound l key = table.lower_bound m key ∧ table.find l key = table.find m key.
Proof.
  induction 1 as [|[k sl] [k' n] l m [Hk _] _ [IH1 IH2]]; [done|]. cbn in Hk. subst k'. cbn. by rewrite IH1, IH2.
Qed.

Lemma loop_round s i kv n :
  wf s → st_map s !! i = Some kv → st_nodes s !! slot_node kv.2 = Some n →
  let p := (slot_entry kv.2, slot_node kv.2) in
  let it := mk_iterator (raw_at (st_map s) i) (Some p) in
  get_proxy s (iterator_of (raw_at (st_map s) i)) = Some (it, p) ∧ read s p = Some (kv.1, n) ∧
  pre_increment s it = Some (iterator_of (raw_at (st_map s) (S i))).
Proof.
  intros Hs Hi Hn p it. pose proof (find_entry s i kv Hs Hi) as Hf.
  assert (raw_at (st_map s) i = Some (slot_entry kv.2)) as Hr by (unfold raw_at; by rewrite Hi). subst it.
  unfold get_proxy, read, pre_increment, raw_next, position. rewrite Hr. cbn [proxy raw_ iterator_of mbind option_bind p fst snd].
  rewrite Hf. cbn. by rewrite Hn.
Qed.

(** What the loops over tables do: the body runs for the keys and the nodes in the
    order of the keys. *)
Theorem for_each_table {B} (body : B → bytes * node → B) s m b fuel :
  wf s → represents s m → length m < fuel → for_each fuel body s end_ (begin s) b = Some (foldl body b m).
Proof.
  intros Hs Hm Hf. unfold begin. change m with (drop 0 m). assert (length m - 0 < fuel) as Hf' by lia. clear Hf.
  revert b Hf'. generalize 0. induction fuel as [|fuel IH]; intros i b Hf; [lia|]. cbn [for_each]. unfold iterator_eq.
  destruct (st_map s !! i) as [kv|] eqn:Hi.
  - destruct (Forall2_lookup_l _ _ _ _ _ Hm Hi) as ([k n] & Hi' & Hk & Hn). cbn in Hk, Hn.
    destruct (loop_round s i kv n Hs Hi Hn) as (-> & Hr & Hp). rewrite bool_decide_false by (unfold raw_at; cbn; by rewrite Hi).
    cbn [mbind option_bind]. rewrite Hr. cbn [mbind option_bind]. rewrite Hp. cbn [mbind option_bind].
    rewrite IH by (apply lookup_lt_Some in Hi'; lia). by rewrite (drop_S _ _ _ Hi'), Hk.
  - rewrite bool_decide_true by (unfold raw_at; cbn; by rewrite Hi). rewrite drop_ge; [done|].
    rewrite <- (Forall2_length _ _ _ Hm). by apply lookup_ge_None.
Qed.

Lemma lower_bound_le {A} (l : string_map A) key : table.lower_bound l key ≤ length l.
Proof. induction l as [|[k x] l IH]; cbn; [done|]. destruct (bytes_compare k key); lia. Qed.

Lemma represents_new ipos key v s m :
  wf s → represents s m → ipos ≤ length (st_map s) →
  let '(s', (raw, _)) := insert_new ipos key v s in
  represents s' (take ipos m ++ [(key, v)] ++ drop ipos m) ∧ raw = raw_at (st_map s') ipos.
Proof.
  intros Hs Hm Hi. split.
  - unfold represents. cbn [st_map st_nodes]. repeat apply Forall2_app; [| |].
    + apply Forall2_take. eapply Forall2_impl; [exact Hm|]. intros. by apply holds_fresh.
    + constructor; [|constructor]. split; [done|]. apply lookup_insert_eq.
    + apply Forall2_drop. eapply Forall2_impl; [exact Hm|]. intros. by apply holds_fresh.
  - unfold raw_at. cbn [st_map emplace_hint new_node]. assert (length (take ipos (st_map s)) = ipos) as Hl by (rewrite length_take; lia).
    symmetry. apply fmap_Some. eexists. split; [apply list_lookup_middle; by rewrite Hl|done].
Qed.

Lemma represents_reset i k sl v s m :
  wf s → represents s m → st_map s !! i = Some (k, sl) →
  represents (reset i k sl v s) (<[i := (k, v)]> m) ∧ Some (slot_entry sl) = raw_at (st_map (reset i k sl v s)) i.
Proof.
  intros Hs Hm Hi. pose proof (lookup_lt_Some _ _ _ Hi) as Hlt. split.
  - unfold represents, reset. cbn [st_map st_nodes new_node]. apply Forall2_same_length_lookup.
    unfold represents in Hm. unfold string_map in *. split.
    { rewrite !length_insert. by eapply Forall2_length. }
    intros j kv kn Hj Hj'. destruct (decide (i = j)) as [<-|Hne].
    + rewrite list_lookup_insert_eq in Hj by done. rewrite list_lookup_insert_eq in Hj' by (by rewrite <- (Forall2_length _ _ _ Hm)).
      injection Hj as <-. injection Hj' as <-. split; [done|]. cbn. rewrite lookup_delete_ne; [apply lookup_insert_eq|].
      pose proof (entry_fresh s (k, sl) Hs (list_elem_of_lookup_2 _ _ _ Hi)). cbn in *. lia.
    + rewrite list_lookup_insert_ne in Hj by done. rewrite list_lookup_insert_ne in Hj' by done. destruct (Forall2_lookup_lr _ _ _ _ _ _ Hm Hj Hj') as [H1 H2].
      split; [done|]. rewrite lookup_delete_ne; [by apply (holds_fresh s v kv kn Hs)|]. intros He. apply Hne.
      apply (NoDup_lookup (pointers (st_map s)) i j (slot_node sl)); [by apply wf_pointers| |];
        apply list_lookup_fmap_Some; [by exists (k, sl)|by exists kv].
  - unfold raw_at, reset. cbn [st_map new_node]. unfold string_map in *. by rewrite list_lookup_insert_eq.
Qed.

Lemma represents_erase i j s m :
  wf s → represents s m → i ≤ j → represents (erase_positions i j s) (table.erase_range i j m).
Proof.
  intros Hs Hm Hij. unfold represents, erase_positions, table.erase_range. cbn [st_map st_nodes].
  eapply Forall2_impl_elem; [apply Forall2_app; [by apply Forall2_take|by apply Forall2_drop]|].
  intros kv kn Hk [H1 H2]. split; [done|]. rewrite lookup_delete_nodes, decide_False; [done|].
  pose proof (wf_pointers s Hs) as Hn.
  rewrite <- (take_drop i (st_map s)), <- (take_drop (j - i) (drop i (st_map s))), drop_drop in Hn.
  replace (i + (j - i)) with j in Hn by lia. unfold pointers in *. rewrite !fmap_app in Hn.
  apply NoDup_app in Hn as (_ & Hd & Hn). apply NoDup_app in Hn as (_ & Hd' & _).
  intros Hin. apply elem_of_app in Hk as [Hk|Hk].
  - apply (Hd (slot_node kv.2)); [apply list_elem_of_fmap; eauto|]. apply elem_of_app. by left.
  - apply (Hd' _ Hin). apply list_elem_of_fmap. eauto.
Qed.

(** What becomes of a table that an operation of the map changes. *)
Definition simulates (r : store * (raw_iterator * bool)) (r' : string_map node * (nat * bool)) : Prop :=
  represents r.1 r'.1 ∧ r.2.1 = raw_at (st_map r.1) r'.2.1 ∧ r.2.2 = r'.2.2.

(** The operations on the table in memory are those on the map of its data, and
    return an iterator at the position that those return. *)
Theorem store_refines_table s m key v :
  wf s → represents s m →
  simulates (insert key (Some v) s) (table.insert key (Some v) m) ∧
  simulates (insert_or_assign key (Some v) s) (table.insert_or_assign key (Some v) m) ∧
  represents (erase_key key s).1 (table.erase key m).1 ∧ (erase_key key s).2 = (table.erase key m).2.
Proof.
  intros Hs Hm. destruct (represents_bound _ _ _ key Hm) as [Hb Hf].
  assert (simulates (insert_new (table.lower_bound m key) key v s)
    (take (table.lower_bound m key) m ++ [(key, v)] ++ drop (table.lower_bound m key) m, (table.lower_bound m key, true))) as Hnew.
  { destruct (represents_new (table.lower_bound m key) key v s m Hs Hm) as [H1 H2]; [rewrite <- Hb; apply lower_bound_le|]. by split. }
  split; [|split].
  - cbn [insert table.insert]. rewrite Hb. unfold string_map in *. destruct (_ !! _) as [[k sl]|] eqn:Hi.
    + destruct (Forall2_lookup_l _ _ _ _ _ Hm Hi) as ([k' n] & Hi' & Hk & _). cbn in Hk. subst k'. rewrite Hi'.
      case_decide; [|exact Hnew]. split; [done|]. split; [|done]. symmetry. apply fmap_Some. by exists (k, sl).
    + rewrite (proj2 (lookup_ge_None m _)); [exact Hnew|]. rewrite <- (Forall2_length _ _ _ Hm). by apply lookup_ge_None.
  - cbn [insert_or_assign table.insert_or_assign]. rewrite Hb. unfold string_map in *. destruct (_ !! _) as [[k sl]|] eqn:Hi.
    + destruct (Forall2_lookup_l _ _ _ _ _ Hm Hi) as ([k' n] & Hi' & Hk & _). cbn in Hk. subst k'. rewrite Hi'.
      case_decide; [|exact Hnew]. destruct (represents_reset _ k sl v s m Hs Hm Hi) as [H1 H2]. by split.
    + rewrite (proj2 (lookup_ge_None m _)); [exact Hnew|]. rewrite <- (Forall2_length _ _ _ Hm). by apply lookup_ge_None.
  - unfold erase_key, table.erase. rewrite Hf. destruct (table.find m key) as [i|]; [|done]. split; [|done].
    apply (represents_erase i (S i)); [done|done|lia].
Qed.
End contents.

(** ** Loops over arrays *)
Theorem for_each_array {B} (body : B → node → B) (els : list node) b fuel :
  length els < fuel →
  array_iterator.for_each (Some <$> els) fuel body (array_iterator.end_ (Some <$> els)) array_iterator.begin b = Some (foldl body b els).
Proof.
  intros Hf. unfold array_iterator.begin. change 0%Z with (Z.of_nat 0). change els with (drop 0 els) at 3.
  assert (length els - 0 < fuel) as Hf' by lia. assert (0 ≤ length els) as Hi by lia. clear Hf. revert b Hf' Hi. generalize 0.
  induction fuel as [|fuel IH]; intros i b Hf Hi; [lia|]. cbn [array_iterator.for_each]. unfold array_iterator.eq, array_iterator.end_ at 1.
  rewrite length_fmap. destruct (Z.eqb_spec (Z.of_nat i) (Z.of_nat (length els))) as [He|Hne].
  - rewrite drop_ge by lia. done.
  - destruct (lookup_lt_is_Some_2 els i) as [v Hv]; [lia|].
    unfold array_iterator.dereference, array_iterator.pre_increment, array_iterator.add_assign, array_iterator.valid.
    rewrite (proj2 (Z.leb_le 0 (Z.of_nat i))), Nat2Z.id, list_lookup_fmap, Hv by lia. cbn [fmap option_fmap option_map mjoin option_join mbind option_bind].
    rewrite length_fmap, (proj2 (Z.leb_le 0 _)), (proj2 (Z.leb_le _ _)) by lia. cbn [andb mbind option_bind].
    replace (Z.of_nat i + 1)%Z with (Z.of_nat (S i)) by lia. rewrite IH by lia. by rewrite (drop_S _ _ _ Hv).
Qed.

(** Moving an iterator is arithmetic on positions: as far as it stays in the array,
    it comes back, and it is compared as its position. *)
Theorem array_iterator_arithmetic (els : list (option node)) raw n :
  array_iterator.valid els raw = true → array_iterator.valid els (raw + n) = true →
  ∃ raw', array_iterator.add_assign els raw n = Some raw' ∧ array_iterator.sub_assign els raw' n = Some raw ∧
    array_iterator.difference raw' raw = n ∧ array_iterator.subscript els raw n = array_iterator.dereference els raw' ∧
    array_iterator.lt raw raw' = (0 <? n)%Z ∧ array_iterator.eq raw raw' = (n =? 0)%Z.
Proof.
  intros H1 H2. exists (raw + n)%Z. unfold array_iterator.add_assign, array_iterator.sub_assign, array_iterator.difference, array_iterator.subscript, array_iterator.add_assign.
  rewrite H2. replace (raw + n - n)%Z with raw by lia. rewrite H1. split; [done|]. split; [done|]. split; [lia|]. split; [done|].
  unfold array_iterator.lt, array_iterator.eq. split; apply eq_true_iff_eq; rewrite ?Z.ltb_lt, ?Z.eqb_eq; lia.
Qed.
