(* ===== verification/TomlWrite.v ===== *)
(** * TomlWrite: values as text ([impl::print_to_stream] of [src/include/toml.hpp])

    How the library writes booleans, integers, floats, dates and times, and the
    escapes of strings; and how it writes positions. The stream is the list of the
    bytes written to it. *)
From Stdlib Require Import SpecFloat.
From S2P Require Import Prelude Bytes TomlNode.

Local Open Scope Z_scope.

(** ** Escapes *)
Definition backslash : byte := x5c.

(** [low_character_escape_table] *)
Definition low_character_escape_table : list bytes :=
  (λ t, backslash :: bs t) <$>
  ["u0000"; "u0001"; "u0002"; "u0003"; "u0004"; "u0005"; "u0006"; "u0007"; "b"; "t"; "n"; "u000B"; "f"; "r"; "u000E"; "u000F";
   "u0010"; "u0011"; "u0012"; "u0013"; "u0014"; "u0015"; "u0016"; "u0017"; "u0018"; "u0019"; "u001A"; "u001B"; "u001C";
   "u001D"; "u001E"; "u001F"].

(** One character of [print_to_stream_with_escapes]. *)
Definition escape (c : byte) : bytes :=
  if byte_to_Z c <=? 0x1F then default [] (low_character_escape_table !! Z.to_nat (byte_to_Z c))
  else if decide (c = x7f) then backslash :: bs "u007F"
  else if decide (c = x22) then [backslash; x22]
  else if decide (c = backslash) then [backslash; backslash]
  else [c].

(** [print_to_stream_with_escapes] *)
Definition with_escapes (str : bytes) : bytes := concat (escape <$> str).

(** ** Integers *)

(** [std::to_chars], for a value of at most 64 bits. *)
Fixpoint to_digits (fuel : nat) (base z : Z) : list Z :=
  match fuel with
  | O => []
  | S fuel => if z <? base then [z] else to_digits fuel base (z / base) ++ [z mod base]
  end.

Definition char_of_digit (d : Z) : byte := byte_of_Z (if d <? 10 then 48 + d else 97 + (d - 10)).

Definition to_chars (base val : Z) : bytes :=
  (if val <? 0 then bs "-" else []) ++ (char_of_digit <$> to_digits 64 base (Z.abs val)).

(** The loop that turns letters into capitals. *)
Definition to_upper (c : byte) : byte := if 97 <=? byte_to_Z c then byte_of_Z (byte_to_Z c - 32) else c.

Definition flags_base (format : value_flags) : Z :=
  match format with no_flags => 10 | format_as_binary => 2 | format_as_octal => 8 | format_as_hexadecimal => 16 end.

(** [print_integer_to_stream] *)
Definition print_integer_to_stream (val : Z) (format : value_flags) : bytes :=
  if val =? 0 then bs "0"
  else
    let base := if 0 <=? val then flags_base format else 10 in
    let buf := to_chars base val in
    if base =? 16 then to_upper <$> buf else buf.

(** The overload with [zero_pad_to_digits], for unsigned values. *)
Definition print_padded (val : Z) (zero_pad_to_digits : nat) : bytes :=
  let buf := to_chars 10 val in
  replicate (zero_pad_to_digits - length buf) "0"%byte ++ buf.

(** ** Booleans *)
Definition print_bool (val : bool) : bytes := if val then bs "true" else bs "false".

(** ** Floats *)

(** [ostream << double] with a precision of 16 digits ([%.16g]), of a finite
    positive [m * 2 ^ e]. *)
Section percent_g.
Variables (m : positive) (e : Z).

Let num : Z := if 0 <=? e then Z.pos m * 2 ^ e else Z.pos m.
Let den : Z := if 0 <=? e then 1 else 2 ^ (- e).

(** [10 ^ x <= m * 2 ^ e] *)
Definition pow10_le (x : Z) : bool := if 0 <=? x then 10 ^ x * den <=? num else den <=? num * 10 ^ (- x).

(** The decimal exponent of the value. *)
Definition exponent10 : Z :=
  let x := (Z.log2 (Z.pos m) + e) * 30103 / 100000 in
  if pow10_le (x + 1) then x + 1 else if pow10_le x then x else x - 1.

(** Sixteen digits, to nearest, ties to even. *)
Definition round_div (a b : Z) : Z :=
  let q := a / b in
  let r := a mod b in
  match 2 * r ?= b with Lt => q | Gt => q + 1 | Eq => if Z.even q then q else q + 1 end.

Definition significand : Z * Z :=
  let x := exponent10 in
  let s := 15 - x in
  let q := if 0 <=? s then round_div (num * 10 ^ s) den else round_div num (den * 10 ^ (- s)) in
  if q =? 10 ^ 16 then (10 ^ 15, x + 1) else (q, x).

Fixpoint drop_trailing_zeros (l : bytes) : bytes :=
  match l with
  | [] => []
  | c :: l =>
    match drop_trailing_zeros l with
    | [] => if decide (c = "0"%byte) then [] else [c]
    | l' => c :: l'
    end
  end.

(** Digits around a decimal point. *)
Definition pointed (whole fraction : bytes) : bytes :=
  whole ++ match drop_trailing_zeros fraction with [] => [] | f => bs "." ++ f end.

Definition print_g : bytes :=
  let '(q, x) := significand in
  let digits := to_chars 10 q in
  if (x <? -4) || (16 <=? x) then
    pointed (take 1 digits) (drop 1 digits) ++ bs "e" ++ (if x <? 0 then bs "-" else bs "+") ++ print_padded (Z.abs x) 2
  else if x <? 0 then pointed (bs "0") (replicate (Z.to_nat (- x - 1)) "0"%byte ++ digits)
  else pointed (take (Z.to_nat (x + 1)) digits) (drop (Z.to_nat (x + 1)) digits).
End percent_g.

Definition needs_decimal_point (s : bytes) : bool :=
  forallb (λ c, negb (bool_decide (c = "."%byte ∨ c = "E"%byte ∨ c = "e"%byte))) s.

(** [print_floating_point_to_stream] *)
Definition print_floating_point_to_stream (val : spec_float) : bytes :=
  let ok str := str ++ (if needs_decimal_point str then bs ".0" else []) in
  match val with
  | S754_infinity true => bs "-inf"
  | S754_infinity false => bs "inf"
  | S754_nan => bs "nan"
  | S754_zero s => ok ((if s then bs "-" else []) ++ bs "0")
  | S754_finite s m e => ok ((if s then bs "-" else []) ++ print_g m e)
  end.

(** ** Dates and times *)
Definition print_date (val : date) : bytes :=
  print_padded (d_year val) 4 ++ bs "-" ++ print_padded (d_month val) 2 ++ bs "-" ++ print_padded (d_day val) 2.

(** The digits of a fraction without the zeros at its end. *)
Fixpoint strip_fraction (digits : nat) (ns : Z) : Z * nat :=
  match digits with
  | O => (ns, O)
  | S digits' => if ns mod 10 =? 0 then strip_fraction digits' (ns / 10) else (ns, digits)
  end.

Definition print_time (val : time) : bytes :=
  print_padded (t_hour val) 2 ++ bs ":" ++ print_padded (t_minute val) 2 ++ bs ":" ++ print_padded (t_second val) 2 ++
  (if negb (t_nanosecond val =? 0) && (t_nanosecond val <=? 999999999) then
     let '(ns, digits) := strip_fraction 9 (t_nanosecond val) in bs "." ++ print_padded ns digits
   else []).

Definition print_time_offset (minutes : Z) : bytes :=
  if minutes =? 0 then bs "Z"
  else
    let mins := Z.abs minutes in
    let hours := mins / 60 in
    (if minutes <? 0 then bs "-" else bs "+") ++
    (if hours =? 0 then bs "00" else print_padded hours 2) ++ bs ":" ++ print_padded (mins - hours * 60) 2.

Definition print_date_time (val : date_time) : bytes :=
  print_date (dt_date val) ++ bs "T" ++ print_time (dt_time val) ++ from_option print_time_offset [] (dt_offset val).

(** ** Positions: [operator<<] of [source_position] and [source_region] *)
Definition print_pos (p : source_position) : bytes :=
  bs "line " ++ print_integer_to_stream (pos_line p) no_flags ++ bs ", column "
  ++ print_integer_to_stream (pos_column p) no_flags.

Definition print_region (r : source_region) : bytes :=
  print_pos (reg_begin r) ++
  match reg_path r with Some path => bs " of '" ++ path ++ bs "'" | None => [] end.
