(* ===== verification/TomlUtf8.v ===== *)
(** * TomlUtf8: how the TOML parser reads text ([src/include/toml.hpp])

    The classes of code points, the UTF-8 decoder (a table-driven automaton), the
    reader that turns the bytes of a document into positioned code points, and
    the buffered reader that can step back. *)
From S2P Require Import Prelude Bytes TomlNode.

Local Open Scope Z_scope.

(** A character literal of the source, [U'x']. *)
Definition U (b : byte) : Z := byte_to_Z b.
Arguments U b%_byte_scope.

(** ** Classes of code points *)
Definition is_ascii_whitespace (c : Z) : bool := (c =? 9) || (c =? U " ").

Definition is_non_ascii_whitespace (c : Z) : bool :=
  (c =? 0xA0) || (c =? 0x1680) || ((0x2000 <=? c) && (c <=? 0x200A)) || (c =? 0x202F) || (c =? 0x205F)
  || (c =? 0x3000).

Definition is_whitespace (c : Z) : bool := is_ascii_whitespace c || is_non_ascii_whitespace c.

Definition is_ascii_line_break (include_carriage_return : bool) (c : Z) : bool :=
  (10 <=? c) && (c <=? (if include_carriage_return then 13 else 12)).

Definition is_non_ascii_line_break (c : Z) : bool := (c =? 0x85) || (c =? 0x2028) || (c =? 0x2029).

Definition is_line_break (include_carriage_return : bool) (c : Z) : bool :=
  is_ascii_line_break include_carriage_return c || is_non_ascii_line_break c.

Definition is_string_delimiter (c : Z) : bool := (c =? 34) || (c =? U "'").

Definition is_ascii_letter (c : Z) : bool :=
  ((U "a" <=? c) && (c <=? U "z")) || ((U "A" <=? c) && (c <=? U "Z")).

Definition is_binary_digit (c : Z) : bool := (c =? U "0") || (c =? U "1").
Definition is_octal_digit (c : Z) : bool := (U "0" <=? c) && (c <=? U "7").
Definition is_decimal_digit (c : Z) : bool := (U "0" <=? c) && (c <=? U "9").

(** The hexadecimal digits, as the bits of a mask. *)
Definition is_hexadecimal_digit (c : Z) : bool :=
  (U "0" <=? c) && (c <=? U "f")
  && negb (Z.land (u64 (Z.shiftl 1 (c - 0x30))) 0x7E0000007E03FF =? 0).

Definition hex_to_dec (c : Z) : Z :=
  if 0x41 <=? c then u32 (10 + Z.lor c 0x20 - 0x61) else u32 (c - 0x30).

Definition is_bare_key_character (c : Z) : bool :=
  is_ascii_letter c || is_decimal_digit c || (c =? U "-") || (c =? U "_").

Definition is_value_terminator (c : Z) : bool :=
  is_ascii_line_break true c || is_ascii_whitespace c || (c =? U "]") || (c =? U "}") || (c =? U ",")
  || (c =? U "#") || is_non_ascii_line_break c || is_non_ascii_whitespace c.

Definition is_control_character (c : Z) : bool := (c <=? 0x1F) || (c =? 0x7F).

Definition is_nontab_control_character (c : Z) : bool :=
  (c <=? 8) || ((10 <=? c) && (c <=? 0x1F)) || (c =? 0x7F).

Definition is_unicode_surrogate (c : Z) : bool := (0xD800 <=? c) && (c <=? 0xDFFF).

(** [is_match] *)
Definition is_match (c : Z) (vals : list byte) : bool := existsb (λ b, c =? U b) vals.

(** ** The decoder *)
Module utf8_decoder.

Record t := mk { state : Z; codepoint : Z }.

Definition init : t := mk 0 0.

(** [state_table]: the class of each byte, then the transitions. *)
Definition state_table : list Z := [
  0;0;0;0;0;0;0;0;0;0;0;0;0;0;0;0;   0;0;0;0;0;0;0;0;0;0;0;0;0;0;0;0;
  0;0;0;0;0;0;0;0;0;0;0;0;0;0;0;0;   0;0;0;0;0;0;0;0;0;0;0;0;0;0;0;0;
  0;0;0;0;0;0;0;0;0;0;0;0;0;0;0;0;   0;0;0;0;0;0;0;0;0;0;0;0;0;0;0;0;
  0;0;0;0;0;0;0;0;0;0;0;0;0;0;0;0;   0;0;0;0;0;0;0;0;0;0;0;0;0;0;0;0;
  1;1;1;1;1;1;1;1;1;1;1;1;1;1;1;1;   9;9;9;9;9;9;9;9;9;9;9;9;9;9;9;9;
  7;7;7;7;7;7;7;7;7;7;7;7;7;7;7;7;   7;7;7;7;7;7;7;7;7;7;7;7;7;7;7;7;
  8;8;2;2;2;2;2;2;2;2;2;2;2;2;2;2;   2;2;2;2;2;2;2;2;2;2;2;2;2;2;2;2;
  10;3;3;3;3;3;3;3;3;3;3;3;3;4;3;3;  11;6;6;6;5;8;8;8;8;8;8;8;8;8;8;8;

  0;12;24;36;60;96;84;12;12;12;48;72;   12;12;12;12;12;12;12;12;12;12;12;12;
  12; 0;12;12;12;12;12; 0;12; 0;12;12;  12;24;12;12;12;12;12;24;12;24;12;12;
  12;12;12;12;12;12;12;24;12;12;12;12;  12;24;12;12;12;12;12;12;12;24;12;12;
  12;12;12;12;12;12;12;36;12;36;12;12;  12;36;12;12;12;12;12;36;12;36;12;12;
  12;36;12;12;12;12;12;12;12;12;12;12].

Definition at_ (i : Z) : Z := default 0 (state_table !! Z.to_nat i).

Definition error (d : t) : bool := state d =? 12.
Definition has_code_point (d : t) : bool := state d =? 0.
Definition needs_more_input (d : t) : bool := (0 <? state d) && negb (state d =? 12).

(** [operator()] *)
Definition feed (d : t) (b : byte) : t :=
  let b := byte_to_Z b in
  let type := at_ b in
  mk (at_ (state d + 256 + type))
     (if has_code_point d then Z.land (Z.shiftr 255 type) b
      else Z.lor (Z.land b 63) (u32 (Z.shiftl (codepoint d) 6))).
End utf8_decoder.

(** ** The reader *)
Record utf8_codepoint := mk_cp { value : Z; cp_bytes : bytes; position : source_position }.

(** [utf8_codepoint::as_view]: the text of the code point; a NUL reads as an
    empty string. *)
Definition as_view (cp : utf8_codepoint) : bytes :=
  match cp_bytes cp with
  | [_; _; _; _] => cp_bytes cp
  | b => c_str b
  end.

Definition utf8_byte_order_mark : bytes := [xef; xbb; xbf].

Fixpoint drop_nulls (l : bytes) : bytes :=
  match l with
  | [] => []
  | b :: l' => if decide (b = x00) then drop_nulls l' else l
  end.

(** [utf8_byte_stream] of a [string_view]: NULs at the end are dropped (but a
    document of nothing else is kept), and a byte order mark at the start. *)
Definition trim_nulls (source : bytes) : bytes :=
  match rev (drop_nulls (rev source)) with [] => source | actual => actual end.
Definition skip_bom (source : bytes) : bytes :=
  if decide (take 3 source = utf8_byte_order_mark) then drop 3 source else source.
Definition string_stream (source : bytes) : bytes := skip_bom (trim_nulls source).

(** [utf8_byte_stream] of an [istream]: the byte order mark only. *)
Definition file_stream (contents : bytes) : bytes := skip_bom contents.

(** [utf8_reader]: the bytes to come, the decoder, and the two positions it
    keeps, of the code point read last and of the next one. *)
Record utf8_reader := mk_reader {
  rd_stream : bytes;
  rd_decoder : utf8_decoder.t;
  rd_prev : source_position;
  rd_current : source_position;
}.

Definition utf8_reader_new (stream : bytes) : utf8_reader :=
  mk_reader stream utf8_decoder.init (mk_pos 1 1) (mk_pos 1 1).

Inductive read_result (R : Type) :=
| ReadChar (cp : utf8_codepoint) (r : R)
| ReadEof (r : R)
| ReadError (what : bytes) (pos : source_position).
Arguments ReadChar {R} cp r.
Arguments ReadEof {R} r.
Arguments ReadError {R} what pos.

Definition next_position (c : Z) (p : source_position) : source_position :=
  if is_line_break false c then mk_pos (u16 (pos_line p + 1)) 1
  else mk_pos (pos_line p) (u16 (pos_column p + 1)).

(** The loop of [utf8_reader::read_next]; [seq] holds the bytes of the current
    code point. *)
Fixpoint decode_loop (r : utf8_reader) (seq : bytes) (d : utf8_decoder.t) (stream : bytes) :
    read_result utf8_reader :=
  match stream with
  | [] =>
    if utf8_decoder.needs_more_input d then
      ReadError (bs "Encountered EOF during incomplete utf-8 code point sequence") (rd_prev r)
    else ReadEof (mk_reader [] d (rd_prev r) (rd_current r))
  | b :: stream =>
    let d := utf8_decoder.feed d b in
    if utf8_decoder.error d then ReadError (bs "Encountered invalid utf-8 sequence") (rd_prev r)
    else if utf8_decoder.has_code_point d then
      let c := utf8_decoder.codepoint d in
      ReadChar (mk_cp c (seq ++ [b]) (rd_current r))
        (mk_reader stream d (rd_current r) (next_position c (rd_current r)))
    else decode_loop r (seq ++ [b]) d stream
  end.

(** [utf8_reader::read_next] *)
Definition read_next (r : utf8_reader) : read_result utf8_reader :=
  match rd_stream r with
  | [] => ReadEof r
  | stream => decode_loop r [] (rd_decoder r) stream
  end.

Definition reader_peek_eof (r : utf8_reader) : bool := bool_decide (rd_stream r = []).

(** ** The buffered reader *)
Definition max_history_length : Z := 72.
Definition history_buffer_size : Z := max_history_length - 1.

Record utf8_buffered_reader := mk_buffered {
  br_reader : utf8_reader;
  br_buffer : list utf8_codepoint;
  br_count : Z;
  br_first : Z;
  br_head : option utf8_codepoint;
  br_negative_offset : Z;
}.

Definition utf8_buffered_reader_new (r : utf8_reader) : utf8_buffered_reader :=
  mk_buffered r [] 0 0 None 0.

(** The buffer starts out zeroed. *)
Definition zero_codepoint : utf8_codepoint := mk_cp 0 [] (mk_pos 0 0).

Definition history_at (b : utf8_buffered_reader) (negative_offset : Z) : utf8_codepoint :=
  default zero_codepoint
    (br_buffer b !! Z.to_nat (u64 (br_first b + br_count b - negative_offset) mod history_buffer_size)).

(** Storing the head in the history. *)
Definition push_history (b : utf8_buffered_reader) (cp : utf8_codepoint) : utf8_buffered_reader :=
  if br_count b <? history_buffer_size then
    mk_buffered (br_reader b) (br_buffer b ++ [cp]) (br_count b + 1) (br_first b) (br_head b) 0
  else
    mk_buffered (br_reader b)
      (<[Z.to_nat ((br_first b + history_buffer_size) mod history_buffer_size) := cp]> (br_buffer b))
      (br_count b) (br_first b + 1) (br_head b) 0.

Definition set_head (b : utf8_buffered_reader) (r : read_result utf8_reader) :
    read_result utf8_buffered_reader :=
  match r with
  | ReadChar cp r => ReadChar cp (mk_buffered r (br_buffer b) (br_count b) (br_first b) (Some cp) 0)
  | ReadEof r => ReadEof (mk_buffered r (br_buffer b) (br_count b) (br_first b) None 0)
  | ReadError what pos => ReadError what pos
  end.

(** [utf8_buffered_reader::read_next] *)
Definition buffered_read_next (b : utf8_buffered_reader) : read_result utf8_buffered_reader :=
  if negb (br_negative_offset b =? 0) then
    let off := br_negative_offset b - 1 in
    let b' := mk_buffered (br_reader b) (br_buffer b) (br_count b) (br_first b) (br_head b) off in
    if off =? 0 then
      match br_head b with Some cp => ReadChar cp b' | None => ReadEof b' end
    else ReadChar (history_at b off) b'
  else
    match br_head b with
    | None => if br_count b =? 0 then set_head b (read_next (br_reader b)) else ReadEof b
    | Some cp => let b' := push_history b cp in set_head b' (read_next (br_reader b'))
    end.

(** [utf8_buffered_reader::step_back], for a positive [count]. *)
Definition step_back (b : utf8_buffered_reader) (count : Z) : utf8_codepoint * utf8_buffered_reader :=
  let off := br_negative_offset b + count in
  (history_at b off, mk_buffered (br_reader b) (br_buffer b) (br_count b) (br_first b) (br_head b) off).

(** ** What the decoder accepts *)

(** UTF-8 as RFC 3629 defines it. *)
Definition scalar (c : Z) : Prop := 0 ≤ c < 0xD800 ∨ 0xE000 ≤ c ≤ 0x10FFFF.

Definition utf8_encode (c : Z) : bytes :=
  byte_of_Z <$>
  (if c <? 0x80 then [c]
   else if c <? 0x800 then [0xC0 + c / 64; 0x80 + c mod 64]
   else if c <? 0x10000 then [0xE0 + c / 4096; 0x80 + c / 64 mod 64; 0x80 + c mod 64]
   else [0xF0 + c / 262144; 0x80 + c / 4096 mod 64; 0x80 + c / 64 mod 64; 0x80 + c mod 64]).

Module decoder_facts.
Import utf8_decoder.

Definition within (lo hi x s : Z) : Z := if (lo <=? x) && (x <=? hi) then s else 12.

(** The automaton by ranges of bytes: the state says how many bytes are still
    to come and what the next one may be. *)
Definition next (s x : Z) : Z :=
  match s with
  | 0 =>
    if x <? 0x80 then 0 else if x <? 0xC2 then 12 else if x <? 0xE0 then 24 else if x =? 0xE0 then 48
    else if x =? 0xED then 60 else if x <? 0xF0 then 36 else if x =? 0xF0 then 72 else if x <? 0xF4 then 84
    else within 0xF4 0xF4 x 96
  | 24 => within 0x80 0xBF x 0
  | 36 => within 0x80 0xBF x 24
  | 48 => within 0xA0 0xBF x 24
  | 60 => within 0x80 0x9F x 24
  | 72 => within 0x90 0xBF x 36
  | 84 => within 0x80 0xBF x 36
  | 96 => within 0x80 0x8F x 36
  | _ => 12
  end.

(** The payload of a first byte. *)
Definition lead (x : Z) : Z :=
  if x <? 0x80 then x else if x <? 0xE0 then x - 0xC0 else if x <? 0xF0 then x - 0xE0 else x - 0xF0.

Definition live : list Z := [0; 24; 36; 48; 60; 72; 84; 96].
Ltac by_live := rewrite list_elem_of_In; cbn; tauto.

Lemma table_spec s b : s ∈ live → at_ (s + 256 + at_ (byte_to_Z b)) = next s (byte_to_Z b).
Proof.
  assert (forallb (λ s, forallb (λ n, at_ (s + 256 + at_ (Z.of_nat n)) =? next s (Z.of_nat n)) (seq 0 256)) live
          = true) as Hall by (vm_compute; reflexivity).
  intros Hs. rewrite forallb_forall in Hall. apply list_elem_of_In in Hs. specialize (Hall s Hs).
  rewrite forallb_forall in Hall. specialize (Hall (Z.to_nat (byte_to_Z b))).
  pose proof (byte_to_Z_range b). rewrite Z2Nat.id in Hall by lia. apply Z.eqb_eq, Hall, in_seq. lia.
Qed.

Lemma lead_spec b :
  next 0 (byte_to_Z b) ≠ 12 → Z.land (Z.shiftr 255 (at_ (byte_to_Z b))) (byte_to_Z b) = lead (byte_to_Z b).
Proof.
  assert (forallb (λ n, (next 0 (Z.of_nat n) =? 12)
    || (Z.land (Z.shiftr 255 (at_ (Z.of_nat n))) (Z.of_nat n) =? lead (Z.of_nat n))) (seq 0 256) = true) as Hall
    by (vm_compute; reflexivity).
  intros Hn. rewrite forallb_forall in Hall. specialize (Hall (Z.to_nat (byte_to_Z b))).
  pose proof (byte_to_Z_range b). rewrite Z2Nat.id in Hall by lia.
  apply orb_true_iff in Hall as [He%Z.eqb_eq|He%Z.eqb_eq]; [done|done|]. apply in_seq. lia.
Qed.

Lemma lor_shiftl_low a c n : 0 ≤ n → 0 ≤ a < 2 ^ n → Z.lor a (Z.shiftl c n) = c * 2 ^ n + a.
Proof.
  intros Hn Ha.
  assert (Z.land a (Z.shiftl c n) = 0) as Hl.
  { apply Z.bits_inj'. intros i Hi. rewrite Z.land_spec, Z.bits_0, Z.shiftl_spec by lia.
    destruct (Z.ltb_spec i n); [by rewrite (Z.testbit_neg_r _ (i - n)), andb_false_r by lia|].
    by rewrite <- (Z.mod_small a (2 ^ n)), Z.mod_pow2_bits_high by lia. }
  rewrite <- Z.lxor_lor, <- Z.add_nocarry_lxor by done. rewrite Z.shiftl_mul_pow2 by lia. lia.
Qed.

Lemma feed_lead d b :
  state d = 0 → next 0 (byte_to_Z b) ≠ 12 → feed d b = mk (next 0 (byte_to_Z b)) (lead (byte_to_Z b)).
Proof.
  intros Hs Hn. unfold feed, has_code_point. rewrite Hs, table_spec by by_live.
  cbn [Z.eqb]. by rewrite lead_spec.
Qed.

Lemma feed_more d b :
  state d ∈ live → state d ≠ 0 → 0 ≤ codepoint d < 2 ^ 20 → next (state d) (byte_to_Z b) ≠ 12 →
  feed d b = mk (next (state d) (byte_to_Z b)) (codepoint d * 64 + (byte_to_Z b - 0x80)).
Proof.
  intros Hs H0 Hc Hn. unfold feed, has_code_point. rewrite table_spec by done.
  destruct (Z.eqb_spec (state d) 0) as [|_]; [done|]. f_equal.
  assert (0x80 ≤ byte_to_Z b ≤ 0xBF) as Hb.
  { clear -Hs H0 Hn. revert Hn. generalize (byte_to_Z b). intros x. revert Hs H0. generalize (state d). intros s Hs H0.
    rewrite list_elem_of_In in Hs. cbn [live In] in Hs. unfold next, within.
    repeat destruct Hs as [<-|Hs]; [done|..|done];
      match goal with |- context [?a <=? x] => destruct (Z.leb_spec a x) end;
      match goal with |- context [x <=? ?a] => destruct (Z.leb_spec x a) end; cbn; lia. }
  change 63 with (Z.ones 6). rewrite Z.land_ones by lia. unfold u32.
  rewrite (Z.mod_small (Z.shiftl _ _)) by (rewrite Z.shiftl_mul_pow2; lia).
  rewrite lor_shiftl_low; [|lia|apply Z.mod_pos_bound; lia]. change (2 ^ 6) with 64.
  Z.to_euclidean_division_equations. lia.
Qed.
End decoder_facts.

Section decoding.
Import utf8_decoder decoder_facts.

Definition started (r : utf8_reader) : Prop := state (rd_decoder r) = 0.

(** The reader after it has read [c]. *)
Definition after_read (r : utf8_reader) (c : Z) (rest : bytes) (d : utf8_decoder.t) : utf8_reader :=
  mk_reader rest d (rd_current r) (next_position c (rd_current r)).

Ltac ltbs :=
  repeat match goal with
  | |- context [?a <? ?b] => destruct (Z.ltb_spec a b); try lia
  | |- context [?a <=? ?b] => destruct (Z.leb_spec a b); try lia
  | |- context [?a =? ?b] => destruct (Z.eqb_spec a b); try lia
  end.

Lemma loop_step r seq d b s :
  state d ∈ live → state d ≠ 0 → 0 ≤ codepoint d < 2 ^ 20 → next (state d) (byte_to_Z b) ≠ 12 →
  decode_loop r seq d (b :: s) =
  (let c := codepoint d * 64 + (byte_to_Z b - 0x80) in
   let d' := mk (next (state d) (byte_to_Z b)) c in
   if next (state d) (byte_to_Z b) =? 0 then ReadChar (mk_cp c (seq ++ [b]) (rd_current r)) (after_read r c s d')
   else decode_loop r (seq ++ [b]) d' s).
Proof.
  intros. cbn [decode_loop]. rewrite feed_more by done. unfold error, has_code_point. cbn [state codepoint].
  destruct (Z.eqb_spec (next (state d) (byte_to_Z b)) 12); done.
Qed.

Lemma loop_bad r seq d b s :
  state d ∈ live → next (state d) (byte_to_Z b) = 12 →
  decode_loop r seq d (b :: s) = ReadError (bs "Encountered invalid utf-8 sequence") (rd_prev r).
Proof.
  intros Hl Hn. cbn [decode_loop]. unfold error, feed. cbn [state]. by rewrite table_spec, Hn by done.
Qed.

Lemma loop_lead r d b s :
  state d = 0 → next 0 (byte_to_Z b) ≠ 12 →
  decode_loop r [] d (b :: s) =
  (let d' := mk (next 0 (byte_to_Z b)) (lead (byte_to_Z b)) in
   if next 0 (byte_to_Z b) =? 0 then
     ReadChar (mk_cp (lead (byte_to_Z b)) [b] (rd_current r)) (after_read r (lead (byte_to_Z b)) s d')
   else decode_loop r [b] d' s).
Proof.
  intros. cbn [decode_loop]. rewrite feed_lead by done. unfold error, has_code_point. cbn [state codepoint].
  destruct (Z.eqb_spec (next 0 (byte_to_Z b)) 12); done.
Qed.

Lemma within_inv lo hi x s : within lo hi x s ≠ 12 → lo ≤ x ≤ hi ∧ within lo hi x s = s.
Proof. unfold within. destruct (Z.leb_spec lo x), (Z.leb_spec x hi); cbn; lia. Qed.

Lemma next_0_inv x :
  0 ≤ x → next 0 x ≠ 12 →
  (next 0 x = 0 ∧ x < 0x80) ∨ (next 0 x = 24 ∧ 0xC2 ≤ x < 0xE0) ∨ (next 0 x = 48 ∧ x = 0xE0) ∨
  (next 0 x = 60 ∧ x = 0xED) ∨ (next 0 x = 36 ∧ 0xE0 < x < 0xF0 ∧ x ≠ 0xED) ∨ (next 0 x = 72 ∧ x = 0xF0) ∨
  (next 0 x = 84 ∧ 0xF0 < x < 0xF4) ∨ (next 0 x = 96 ∧ x = 0xF4).
Proof. unfold next, within. intros. ltbs; cbn in *; lia. Qed.

Lemma lead_range x : 0 ≤ x < 256 → next 0 x ≠ 12 → 0 ≤ lead x < 128 ∧ (128 ≤ x → lead x < 32).
Proof. intros ? H%next_0_inv; [|lia]. unfold lead. ltbs. Qed.

Lemma byte_of_eq z b : z = byte_to_Z b → byte_of_Z z = b.
Proof. intros ->. apply byte_of_to_Z. Qed.

Ltac encoded :=
  unfold utf8_encode; ltbs; cbn [fmap list_fmap app]; repeat f_equal; symmetry; apply byte_of_eq;
  Z.to_euclidean_division_equations; lia.

(** One continuation byte in a live state: the loop fails or goes on. *)
Ltac continue b s Hc :=
  destruct s as [|b s]; [done|];
  match goal with
  | |- decode_loop ?r ?seq (mk ?st ?c) (b :: s) = _ → _ =>
    destruct (decide (next st (byte_to_Z b) = 12)) as [Hc|Hc];
    [rewrite loop_bad by (done || by_live); done|];
    rewrite loop_step by (done || by_live || (cbn [codepoint]; lia));
    cbn [next state codepoint] in *; apply within_inv in Hc as [Hc ->]; cbn [Z.eqb Pos.eqb app]; cbv zeta
  end.

Lemma decode_sound r d stream cp r' :
  state d = 0 → decode_loop r [] d stream = ReadChar cp r' →
  scalar (value cp) ∧ cp_bytes cp = utf8_encode (value cp) ∧ stream = cp_bytes cp ++ rd_stream r' ∧
  position cp = rd_current r ∧ ∃ d', state d' = 0 ∧ r' = after_read r (value cp) (rd_stream r') d'.
Proof.
  intros Hd. destruct stream as [|b s]; [by cbn [decode_loop]; destruct (needs_more_input d)|].
  destruct (decide (next 0 (byte_to_Z b) = 12)) as [Hn|Hn].
  { rewrite loop_bad; [done|rewrite Hd; by_live|by rewrite Hd]. }
  rewrite loop_lead by done. pose proof (byte_to_Z_range b) as Hb.
  destruct (lead_range (byte_to_Z b)) as [Hl Hl']; [done|done|].
  destruct (next_0_inv (byte_to_Z b)) as
    [[-> H]|[[-> H]|[[-> H]|[[-> H]|[[-> H]|[[-> H]|[[-> H]|[-> H]]]]]]]]; [lia|done|..];
    cbn [Z.eqb Pos.eqb]; cbv zeta.
  1: intros [= <- <-]; cbn [value cp_bytes rd_stream after_read app].
  2: continue b2 s H2.
  3-5: continue b2 s H2; continue b3 s H3.
  6-8: continue b2 s H2; continue b3 s H3; continue b4 s H4.
  2-8: intros [= <- <-]; cbn [value cp_bytes rd_stream after_read app].
  all: split; [|split; [|split; [done|split; [done|eexists; split; [|reflexivity]; done]]]].
  all: unfold lead; ltbs; first [unfold scalar; lia|encoded].
Qed.

Lemma byte_to_of_small z : 0 ≤ z < 256 → byte_to_Z (byte_of_Z z) = z.
Proof. intros. rewrite byte_to_of_Z. by apply Z.mod_small. Qed.

(** The states a longer sequence goes through. *)
Lemma next_2 c : 0x80 ≤ c < 0x800 → next 0 (0xC0 + c / 64) = 24 ∧ lead (0xC0 + c / 64) = c / 64.
Proof. unfold next, lead, within. intros. Z.to_euclidean_division_equations. ltbs. Qed.

Lemma next_3 c :
  0x800 ≤ c < 0x10000 → scalar c → let s := next 0 (0xE0 + c / 4096) in
  s ∈ live ∧ s ≠ 0 ∧ s ≠ 12 ∧ next s (0x80 + c / 64 mod 64) = 24 ∧ lead (0xE0 + c / 4096) = c / 4096.
Proof.
  intros Hc Hs. unfold scalar in Hs. unfold lead, next at 1 2 3 4.
  assert (c / 4096 = 0 ∨ c / 4096 = 13 ∨ (1 ≤ c / 4096 ≤ 15 ∧ c / 4096 ≠ 13)) as [H|[H|H]]
    by (Z.to_euclidean_division_equations; lia);
    [rewrite H..|]; ltbs; cbv zeta; (split; [by_live|]); (split; [done|]); (split; [done|]);
    (split; [|lia]); unfold next, within; Z.to_euclidean_division_equations; ltbs; done.
Qed.

Lemma next_4 c :
  0x10000 ≤ c ≤ 0x10FFFF → let s := next 0 (0xF0 + c / 262144) in
  s ∈ live ∧ s ≠ 0 ∧ s ≠ 12 ∧ next s (0x80 + c / 4096 mod 64) = 36 ∧ lead (0xF0 + c / 262144) = c / 262144.
Proof.
  intros Hc. unfold lead, next at 1 2 3 4.
  assert (c / 262144 = 0 ∨ c / 262144 = 4 ∨ (1 ≤ c / 262144 ≤ 3)) as [H|[H|H]]
    by (Z.to_euclidean_division_equations; lia);
    [rewrite H..|]; ltbs; cbv zeta; cbn [within Z.leb Z.compare Pos.compare Pos.compare_cont andb];
    (split; [by_live|]); (split; [done|]); (split; [done|]);
    (split; [|lia]); unfold next, within; Z.to_euclidean_division_equations; ltbs; done.
Qed.

Lemma next_more x : 0 ≤ x < 64 → next 24 (0x80 + x) = 0 ∧ next 36 (0x80 + x) = 24.
Proof. intros. unfold next, within. ltbs. done. Qed.

Ltac small := Z.to_euclidean_division_equations; lia.

Ltac forward H :=
  rewrite loop_step; cbn [state codepoint]; rewrite ?byte_to_of_small by small; rewrite ?H;
  [cbn [Z.eqb app]; cbv zeta|first [done|by_live]|done|small|done].

Lemma decode_complete r d c rest :
  state d = 0 → scalar c →
  ∃ d', state d' = 0 ∧
    decode_loop r [] d (utf8_encode c ++ rest)
    = ReadChar (mk_cp c (utf8_encode c) (rd_current r)) (after_read r c rest d').
Proof.
  intros Hd Hc. pose proof Hc as Hc'. unfold scalar in Hc'. unfold utf8_encode.
  destruct (Z.ltb_spec c 0x80); [|destruct (Z.ltb_spec c 0x800); [|destruct (Z.ltb_spec c 0x10000)]];
    cbn [fmap list_fmap app].
  - rewrite loop_lead; rewrite ?byte_to_of_small by lia; [|done|unfold next; ltbs].
    unfold next, lead. ltbs. cbn [Z.eqb Pos.eqb]. eexists. split; [|reflexivity]. done.
  - destruct (next_2 c) as [Hn Hl]; [lia|]. destruct (next_more (c mod 64)) as [Hm _]; [small|].
    rewrite loop_lead; rewrite ?byte_to_of_small by small; rewrite ?Hn, ?Hl; [|done..]. cbn [Z.eqb].
    forward Hm.
    match goal with |- context [mk_cp ?x _ _] => replace x with c by small end.
    eexists. split; [|reflexivity]. done.
  - destruct (next_3 c) as (Hl & Hs0 & H12 & Hn & Hld); [lia|done|].
    destruct (next_more (c mod 64)) as [Hm _]; [small|].
    rewrite loop_lead; rewrite ?byte_to_of_small by small; rewrite ?Hld; [|done..].
    rewrite (proj2 (Z.eqb_neq _ _) Hs0). cbv zeta.
    forward Hn.
    forward Hm.
    match goal with |- context [mk_cp ?x _ _] => replace x with c by small end.
    eexists. split; [|reflexivity]. done.
  - destruct (next_4 c) as (Hl & Hs0 & H12 & Hn & Hld); [lia|].
    destruct (next_more (c mod 64)) as [Hm _]; [small|]. destruct (next_more (c / 64 mod 64)) as [_ Hm']; [small|].
    rewrite loop_lead; rewrite ?byte_to_of_small by small; rewrite ?Hld; [|done..].
    rewrite (proj2 (Z.eqb_neq _ _) Hs0). cbv zeta.
    forward Hn.
    forward Hm'.
    forward Hm.
    match goal with |- context [mk_cp ?x _ _] => replace x with c by small end.
    eexists. split; [|reflexivity]. done.
Qed.
End decoding.
