(* ===== verification/TomlFormat.v ===== *)
(** * TomlFormat: documents as text (the formatters of [src/include/toml.hpp])

    [impl::formatter], [default_formatter] and [json_formatter]: a node is written
    to a stream as TOML or as JSON. The members of a formatter are its state; an
    operation ends with the state after it, or is undefined. *)
From Stdlib Require Import SpecFloat.
From S2P Require Import Prelude Bytes Env TomlNode TomlContainers TomlUtf8 TomlWrite.

Local Open Scope Z_scope.

(** ** [impl::formatter] *)

(** [format_flags] *)
Record format_flags := mk_flags {
  quote_dates_and_times : bool;
  allow_literal_strings : bool;
  allow_multi_line_strings : bool;
  allow_value_format_flags : bool;
}.

Record formatter := mk_formatter {
  stream : bytes;
  indent : Z;
  naked_newline : bool;
  key_path : list bytes;
}.

Inductive written := Wrote (s : formatter) | Unwritten (u : ub).

Definition F : Type := formatter → written.

Definition nothing : F := Wrote.
Definition andthen (m n : F) : F := λ s, match m s with Wrote s => n s | Unwritten u => Unwritten u end.
Notation "m >> n" := (andthen m n) (at level 61, left associativity).

(** The state of the formatter, as it is now. *)
Definition with_state (f : formatter → F) : F := λ s, f s s.

Definition set_indent (level : Z) : F := λ s, Wrote (mk_formatter (stream s) level (naked_newline s) (key_path s)).
Definition set_naked (b : bool) : F := λ s, Wrote (mk_formatter (stream s) (indent s) b (key_path s)).
Definition set_path (p : list bytes) : F := λ s, Wrote (mk_formatter (stream s) (indent s) (naked_newline s) p).

(** [print_to_stream] of text *)
Definition put (text : bytes) : F :=
  λ s, Wrote (mk_formatter (stream s ++ text) (indent s) (naked_newline s) (key_path s)).

Definition increase_indent : F := with_state (λ s, set_indent (indent s + 1)).
Definition decrease_indent : F := with_state (λ s, set_indent (indent s - 1)).
Definition clear_naked_newline : F := set_naked false.

Definition print_newline (force : bool) : F :=
  with_state (λ s, if negb (naked_newline s) || force then put [x0a] >> set_naked true else nothing).

(** The loop of [print_indent]. *)
Fixpoint repeat_indent (n : nat) : F :=
  match n with O => nothing | S n => put (bs "    ") >> set_naked false >> repeat_indent n end.
Definition print_indent : F := with_state (λ s, repeat_indent (Z.to_nat (indent s))).

(** *** Strings *)

(** What a look at a string finds. *)
Record string_kind := mk_kind { has_line_breaks : bool; has_control_chars : bool; has_single_quotes : bool }.

Definition all_found (k : string_kind) : bool := has_line_breaks k && has_control_chars k && has_single_quotes k.

Definition see_char (k : string_kind) (c : Z) : string_kind :=
  if is_line_break true c then mk_kind true (has_control_chars k) (has_single_quotes k)
  else if is_nontab_control_character c then mk_kind (has_line_breaks k) true (has_single_quotes k)
  else if c =? U "'" then mk_kind (has_line_breaks k) (has_control_chars k) true
  else k.

Fixpoint look_at (str : bytes) (d : utf8_decoder.t) (k : string_kind) : string_kind :=
  match str with
  | [] => k
  | b :: str =>
    if all_found k then k
    else
      let d := utf8_decoder.feed d b in
      if utf8_decoder.error d then mk_kind false true true
      else if utf8_decoder.has_code_point d then look_at str d (see_char k (utf8_decoder.codepoint d))
      else look_at str d k
  end.

Section flags.
Variable flags : format_flags.

Definition print_quoted_string (str : bytes) (allow_multi_line : bool) : F :=
  let literals := allow_literal_strings flags in
  match str with
  | [] => put (if literals then bs "''" else [x22; x22]) >> clear_naked_newline
  | _ =>
    let multi_line := allow_multi_line && allow_multi_line_strings flags in
    let kind := look_at str utf8_decoder.init (mk_kind false false false) in
    let '(multi_line, literals) :=
      if multi_line || literals then
        let multi_line := multi_line && has_line_breaks kind in
        (multi_line, literals && negb (has_control_chars kind) && negb (negb multi_line && has_single_quotes kind))
      else (multi_line, literals) in
    (if literals then
       let quot := if multi_line then bs "'''" else bs "'" in
       put quot >> put str >> put quot
     else
       let quot := if multi_line then [x22; x22; x22] else [x22] in
       put quot >> put (with_escapes str) >> put quot)
    >> clear_naked_newline
  end.

(** *** Values *)
Definition print_quotable (text : bytes) : F :=
  if quote_dates_and_times flags then
    let quot := if allow_literal_strings flags then bs "'" else [x22] in
    put quot >> put text >> put quot >> set_naked false
  else put text >> set_naked false.

Definition flags_prefix (fmt : value_flags) : bytes :=
  match fmt with
  | no_flags => []
  | format_as_binary => bs "0b"
  | format_as_octal => bs "0o"
  | format_as_hexadecimal => bs "0x"
  end.

Definition print_integer (z : Z) (fmt : value_flags) : F :=
  (if allow_value_format_flags flags && (0 <=? z) && negb (bool_decide (fmt = no_flags)) then
     put (flags_prefix fmt) >> put (print_integer_to_stream z fmt)
   else put (print_integer_to_stream z no_flags))
  >> set_naked false.

(** [print_value]; tables and arrays are written by the formatters. *)
Definition print_value (v : node) : F :=
  match v with
  | VString s _ => print_quoted_string s true
  | VInteger z fmt _ => print_integer z fmt
  | VFloat x _ => put (print_floating_point_to_stream x) >> set_naked false
  | VBoolean b _ => put (print_bool b) >> set_naked false
  | VDate d _ => print_quotable (print_date d)
  | VTime t _ => print_quotable (print_time t)
  | VDateTime dt _ => print_quotable (print_date_time dt)
  | Table _ _ _ _ | Array _ _ _ => nothing
  end.
End flags.

(** A loop over the elements of a container; the body is told whether it is at
    the first of them. *)
Fixpoint for_each {A} (body : bool → A → F) (first : bool) (l : list A) : F :=
  match l with
  | [] => nothing
  | x :: l => body first x >> for_each body false l
  end.

(** ** [default_formatter] *)

(** *** Widths *)

(** The C library's [log10] of a positive double, truncated. *)
Class Libm := {
  trunc_log10 : spec_float → Z;
  trunc_log10_int64 z : 1 ≤ z < 2 ^ 63 → 0 ≤ trunc_log10 (binary_normalize 53 1024 z 0 false) < 2 ^ 64;
}.

Definition default_formatter_line_wrap : Z := 120.

(** A loop that adds up widths and ends when the line is full. *)
Fixpoint sum_columns {A} (width : A → ub + Z) (weight : Z) (l : list A) : ub + Z :=
  match l with
  | [] => inr weight
  | x :: l =>
    match width x with
    | inr w =>
      let weight := weight + w in
      if default_formatter_line_wrap <=? weight then inr weight else sum_columns width weight l
    | inl u => inl u
    end
  end.

(** A [double] truncated to [size_t]. *)
Definition to_size (weight z : Z) : ub + Z := if (0 <=? z) && (z <? 2 ^ 64) then inr (weight + z + 1) else inl FloatToInt.

Section columns.
Context `{Libm}.

Definition integer_columns (v : Z) : ub + Z :=
  if v =? 0 then inr 1
  else if v =? - 2 ^ 63 then inl SignedOverflow
  else to_size (if v <? 0 then 1 else 0) (trunc_log10 (binary_normalize 53 1024 (Z.abs v) 0 false)).

Definition float_columns (x : spec_float) : ub + Z :=
  match x with
  | S754_zero _ => inr 3
  | S754_finite s m e => to_size (if s then 3 else 2) (trunc_log10 (S754_finite false m e))
  | S754_infinity _ | S754_nan => inl FloatToInt
  end.

(** [default_formatter_inline_columns] *)
Fixpoint default_formatter_inline_columns (n : node) : ub + Z :=
  match n with
  | Table _ [] _ _ | Array _ [] _ => inr 2
  | Table _ m _ _ =>
    sum_columns (λ kv,
      match default_formatter_inline_columns kv.2 with
      | inr w => inr (Z.of_nat (length kv.1) + w + 2)
      | inl u => inl u
      end) 3 m
  | Array _ els _ =>
    sum_columns (λ v,
      match default_formatter_inline_columns v with inr w => inr (w + 2) | inl u => inl u end) 3 els
  | VString s _ => inr (Z.of_nat (length s) + 2)
  | VInteger v _ _ => integer_columns v
  | VFloat x _ => float_columns x
  | VBoolean _ _ => inr 5
  | VDate _ _ | VTime _ _ => inr 10
  | VDateTime _ _ => inr 30
  end.

(** [default_formatter_forces_multiline] *)
Definition default_formatter_forces_multiline (n : node) (starting_column_bias : Z) : ub + bool :=
  match default_formatter_inline_columns n with
  | inr w => inr (default_formatter_line_wrap <? w + starting_column_bias)
  | inl u => inl u
  end.
End columns.

(** *** Keys *)

(** The loop that looks for a character no bare key has. *)
Fixpoint requires_quotes (str : bytes) (d : utf8_decoder.t) : bool :=
  match str with
  | [] => false
  | b :: str =>
    let d := utf8_decoder.feed d b in
    if utf8_decoder.error d then true
    else if utf8_decoder.has_code_point d && negb (is_bare_key_character (utf8_decoder.codepoint d)) then true
    else requires_quotes str d
  end.

(** One character in [default_formatter_make_key_segment]. *)
Definition escape_segment (c : byte) : bytes :=
  if byte_to_Z c <=? 0x1F then default [] (low_character_escape_table !! Z.to_nat (byte_to_Z c))
  else if decide (c = x7f) then backslash :: bs "u007F"
  else if decide (c = x22) then [backslash; x22]
  else [c].

(** [default_formatter_make_key_segment] *)
Definition default_formatter_make_key_segment (str : bytes) : bytes :=
  match str with
  | [] => bs "''"
  | _ =>
    if requires_quotes str utf8_decoder.init then [x22] ++ concat (escape_segment <$> str) ++ [x22] else str
  end.

Definition print_key_segment (str : bytes) : F :=
  match str with
  | [] => put (bs "''")
  | _ =>
    if requires_quotes str utf8_decoder.init then put [x22] >> put (with_escapes str) >> put [x22] else put str
  end >> clear_naked_newline.

Definition print_key_path : F :=
  with_state (λ s, for_each (λ (first : bool) segment, (if first then nothing else put (bs ".")) >> put segment) true (key_path s))
  >> clear_naked_newline.

Definition push_key (k : bytes) : F :=
  with_state (λ s, set_path (key_path s ++ [default_formatter_make_key_segment k])).
Definition pop_key : F := with_state (λ s, set_path (removelast (key_path s))).

Section default_formatter.
Context `{Libm}.
Variable flags : format_flags.

(** *** Values, arrays and inline tables *)

(** [print(const array&)] around its elements. *)
Definition print_array (n : node) (els : list node) (print_element : node → F) : F :=
  match els with
  | [] => put (bs "[]")
  | _ =>
    with_state (λ s,
      let original_indent := indent s in
      match default_formatter_forces_multiline n (4 * (if original_indent <? 0 then 0 else original_indent)) with
      | inl u => λ _, Unwritten u
      | inr multiline =>
        put (bs "[") >>
        (if multiline then (if original_indent <? 0 then set_indent 0 else nothing) >> increase_indent else put (bs " ")) >>
        for_each (λ (first : bool) v,
          (if first then nothing else put (bs ",") >> (if multiline then nothing else put (bs " "))) >>
          (if multiline then print_newline true >> print_indent else nothing) >>
          print_element v) true els >>
        (if multiline then set_indent original_indent >> print_newline true >> print_indent else put (bs " ")) >>
        put (bs "]")
      end)
  end >> clear_naked_newline.

(** [print_inline] around the values. *)
Definition print_inline (m : string_map node) (print_element : node → F) : F :=
  match m with
  | [] => put (bs "{}")
  | _ =>
    put (bs "{ ") >>
    for_each (λ (first : bool) kv,
      (if first then nothing else put (bs ", ")) >> print_key_segment kv.1 >> put (bs " = ") >> print_element kv.2) true m >>
    put (bs " }")
  end >> clear_naked_newline.

(** The switch over the type of a value. *)
Fixpoint print_node (v : node) : F :=
  match v with
  | Table _ m _ _ => print_inline m print_node
  | Array _ els _ => print_array v els print_node
  | _ => print_value flags v
  end.

(** *** Tables *)
Definition is_inline (n : node) : bool := match n with Table _ _ i _ => i | _ => false end.

Definition is_non_inline_array_of_tables (n : node) : bool :=
  match n with
  | Array _ els _ => is_array_of_tables els && negb (from_option is_inline false (head els))
  | _ => false
  end.

Definition is_non_inline_table (n : node) : bool :=
  bool_decide (node_type_of n = ty_table) && negb (is_inline n).

(** A key-value pair: the loop over values, arrays and inline tables. *)
Definition print_pair (kv : bytes * node) : F :=
  if is_non_inline_table kv.2 || is_non_inline_array_of_tables kv.2 then nothing
  else
    print_newline false >> print_indent >> print_key_segment kv.1 >> put (bs " = ") >> print_node kv.2.

(** A table with no values of its own gets no header. *)
Definition skip_self (m : string_map node) : bool :=
  forallb (λ kv, is_non_inline_table kv.2 || is_non_inline_array_of_tables kv.2) m && negb (bool_decide (m = [])).

Definition print_header (opening closing : bytes) : F := print_indent >> put opening >> print_key_path >> put closing.

(** [print(const table&)] *)
Fixpoint print_table (n : node) : F :=
  match n with
  | Table _ m _ _ =>
    for_each (λ _, print_pair) true m >>
    for_each (λ _ kv,
      match kv.2 with
      | Table _ child_tbl i _ =>
        if i then nothing
        else
          let skip := skip_self child_tbl in
          push_key kv.1 >>
          (if skip then nothing
           else
             with_state (λ s, if negb (naked_newline s) then print_newline false >> print_newline true else nothing) >>
             increase_indent >> print_header (bs "[") (bs "]") >> print_newline false) >>
          print_table kv.2 >>
          pop_key >>
          (if skip then nothing else decrease_indent)
      | _ => nothing
      end) true m >>
    for_each (λ _ kv,
      match kv.2 with
      | Array _ arr _ =>
        if is_non_inline_array_of_tables kv.2 then
          increase_indent >>
          push_key kv.1 >>
          for_each (λ _ v,
            print_newline false >> print_newline true >> print_header (bs "[[") (bs "]]") >> print_newline true >>
            print_table v) true arr >>
          pop_key >>
          decrease_indent
        else nothing
      | _ => nothing
      end) true m
  | _ => nothing
  end.

(** [print()] *)
Definition default_print (source : node) : F :=
  match source with
  | Table _ m i _ =>
    if i then print_inline m print_node else decrease_indent >> print_table source >> print_newline false
  | _ => print_node source
  end.

(** [operator<<]: what is written to the stream. *)
Definition attached : formatter := mk_formatter [] 0 true [].
Definition format (source : node) : ub + bytes :=
  match default_print source attached with Wrote s => inr (stream s) | Unwritten u => inl u end.
End default_formatter.

Definition default_flags : format_flags := mk_flags false true true true.

(** ** [json_formatter] *)
Module json.
Section json_formatter.
Variable flags : format_flags.

Definition print_array (els : list node) (print : node → F) : F :=
  match els with
  | [] => put (bs "[]")
  | _ =>
    put (bs "[") >> increase_indent >>
    for_each (λ (first : bool) v,
      (if first then nothing else put (bs ",")) >> print_newline true >> print_indent >> print v) true els >>
    decrease_indent >> print_newline true >> print_indent >> put (bs "]")
  end >> clear_naked_newline.

Definition print_table (m : string_map node) (print : node → F) : F :=
  match m with
  | [] => put (bs "{}")
  | _ =>
    put (bs "{") >> increase_indent >>
    for_each (λ (first : bool) kv,
      (if first then nothing else put (bs ", ")) >> print_newline true >> print_indent >>
      print_quoted_string flags kv.1 false >> put (bs " : ") >> print kv.2) true m >>
    decrease_indent >> print_newline true >> print_indent >> put (bs "}")
  end >> clear_naked_newline.

Fixpoint print_node (v : node) : F :=
  match v with
  | Table _ m _ _ => print_table m print_node
  | Array _ els _ => print_array els print_node
  | _ => print_value flags v
  end.

Definition print (source : node) : F :=
  match source with
  | Table _ _ _ _ => print_node source >> print_newline false
  | _ => print_node source
  end.

Definition format (source : node) : ub + bytes :=
  match print source (mk_formatter [] 0 true []) with Wrote s => inr (stream s) | Unwritten u => inl u end.
End json_formatter.

Definition default_flags : format_flags := mk_flags true false false false.
End json.
