(* ===== verification/TomlReader.v ===== *)
(** * TomlReader: the readers of the TOML parser are exact

    What [TomlUtf8.v] models, proved: the reader yields the code points of
    well-formed UTF-8 and nothing else, and the buffered reader replays the text
    it is set back by, within the length of its history. *)
From S2P Require Import Prelude Bytes TomlNode TomlUtf8.

Local Open Scope Z_scope.

(** ** The reader accepts well-formed UTF-8 *)

(** All code points of a text, and the error that ends it, if one does. *)
Fixpoint read_all (n : nat) (r : utf8_reader) : list utf8_codepoint * option bytes :=
  match n with
  | O => ([], None)
  | S n =>
    match read_next r with
    | ReadChar cp r => let '(l, e) := read_all n r in (cp :: l, e)
    | ReadEof _ => ([], None)
    | ReadError what _ => ([], Some what)
    end
  end.

Definition encode_text (cs : list Z) : bytes := concat (utf8_encode <$> cs).

Lemma encode_text_cons c cs : encode_text (c :: cs) = utf8_encode c ++ encode_text cs.
Proof. done. Qed.

Lemma utf8_encode_cons c : ∃ b l, utf8_encode c = b :: l.
Proof. unfold utf8_encode. repeat case_match; eauto. Qed.

Lemma read_next_sound r cp r' :
  started r → read_next r = ReadChar cp r' →
  scalar (value cp) ∧ cp_bytes cp = utf8_encode (value cp) ∧ rd_stream r = cp_bytes cp ++ rd_stream r' ∧
  started r' ∧ position cp = rd_current r ∧ rd_current r' = next_position (value cp) (rd_current r).
Proof.
  intros Hs. unfold read_next. destruct (rd_stream r) as [|b s] eqn:E; [done|].
  intros (H1 & H2 & H3 & H4 & d & Hd & Hr)%decode_sound; [|done]. rewrite Hr. by repeat split.
Qed.

Lemma read_next_complete r c rest :
  started r → scalar c → rd_stream r = utf8_encode c ++ rest →
  ∃ r', read_next r = ReadChar (mk_cp c (utf8_encode c) (rd_current r)) r' ∧ started r' ∧ rd_stream r' = rest.
Proof.
  intros Hs Hc Hr. unfold read_next. rewrite Hr.
  destruct (decode_complete r (rd_decoder r) c rest) as (d & Hd & Hl); [done|done|].
  destruct (utf8_encode_cons c) as (b & l & E). rewrite E in *. cbn [app] in *. rewrite Hl. by eexists.
Qed.

(** Inside a sequence, the end of the text is an error. *)
Lemma table_nonneg i : 0 ≤ utf8_decoder.at_ i.
Proof.
  unfold utf8_decoder.at_. destruct (_ !! _) as [z|] eqn:E; [|done]. cbn.
  assert (Forall (Z.le 0) utf8_decoder.state_table) as Hall by (apply (bool_decide_unpack _); vm_compute; exact I).
  eapply Forall_lookup_1 in Hall; eauto.
Qed.

Lemma decode_loop_eof r seq d stream r' :
  decode_loop r seq d stream = ReadEof r' → stream = [] ∧ utf8_decoder.needs_more_input d = false.
Proof.
  revert seq d. induction stream as [|b s IH]; intros seq d; cbn [decode_loop].
  - by destruct (utf8_decoder.needs_more_input d).
  - destruct (utf8_decoder.error _) eqn:He; [done|]. destruct (utf8_decoder.has_code_point _) eqn:Hc; [done|].
    intros [-> Hn]%IH. exfalso. revert He Hc Hn.
    unfold utf8_decoder.error, utf8_decoder.has_code_point, utf8_decoder.needs_more_input, utf8_decoder.feed.
    cbn [utf8_decoder.state]. generalize (table_nonneg (utf8_decoder.state d + 256 + utf8_decoder.at_ (byte_to_Z b))).
    intros. destruct (Z.ltb_spec 0 (utf8_decoder.at_ (utf8_decoder.state d + 256 + utf8_decoder.at_ (byte_to_Z b)))).
    + by rewrite He in Hn.
    + lia.
Qed.

Lemma read_next_eof r r' : read_next r = ReadEof r' → rd_stream r = [].
Proof.
  unfold read_next. destruct (rd_stream r) as [|b s]; [done|]. by intros [? _]%decode_loop_eof.
Qed.

Lemma read_all_complete cs n r :
  started r → Forall scalar cs → rd_stream r = encode_text cs → (length cs < n)%nat →
  (value <$> (read_all n r).1) = cs ∧ (read_all n r).2 = None.
Proof.
  revert n r. induction cs as [|c cs IH]; intros [|n] r Hs Hf Hr Hn; cbn in Hn; try lia; cbn [read_all].
  - unfold read_next. rewrite Hr. done.
  - inversion Hf as [|? ? Hc Hcs]; subst.
    destruct (read_next_complete r c (encode_text cs)) as (r' & -> & Hs' & Hr'); [done|done|done|].
    destruct (IH n r') as [H1 H2]; [done|done|done|lia|].
    destruct (read_all n r') as [l e]. cbn in *. by rewrite H1.
Qed.

Lemma read_all_sound n r :
  started r → (length (rd_stream r) < n)%nat → let '(l, e) := read_all n r in
  Forall scalar (value <$> l) ∧ cp_bytes <$> l = utf8_encode <$> (value <$> l) ∧
  ∃ rest, rd_stream r = encode_text (value <$> l) ++ rest ∧ (e = None → rest = []).
Proof.
  revert r. induction n as [|n IH]; intros r Hs Hn; [lia|]. cbn [read_all].
  destruct (read_next r) as [cp r'|r'|what pos] eqn:E.
  - apply read_next_sound in E as (Hc & Hb & Hstr & Hs' & _); [|done].
    assert (length (rd_stream r') < n)%nat as Hn'.
    { rewrite Hstr, Hb, length_app in Hn. destruct (utf8_encode_cons (value cp)) as (b & l & E).
      rewrite E in Hn. cbn in Hn. lia. }
    specialize (IH r' Hs' Hn'). destruct (read_all n r') as [l e]. destruct IH as (H1 & H2 & rest & H3 & H4).
    rewrite !fmap_cons. split; [by constructor|]. split; [by rewrite Hb, H2|]. exists rest. split; [|done].
    rewrite Hstr, H3, Hb. unfold encode_text. cbn. by rewrite app_assoc.
  - split; [constructor|]. split; [done|]. exists (rd_stream r). split; [done|]. intros _.
    by eapply read_next_eof.
  - split; [constructor|]. split; [done|]. by exists (rd_stream r).
Qed.

(** C17: the reader reads UTF-8 exactly: a document that is the encoding of
    Unicode scalar values is read as those values, to its end; and whatever the
    bytes of a document are, the code points read before an error are scalar
    values, each with its encoding as its bytes, and they make up the document up
    to the place of the error. So a document is read without error if and only
    if it is well-formed UTF-8. *)
Theorem utf8_reader_exact stream :
  let '(cps, error) := read_all (S (length stream)) (utf8_reader_new stream) in
  Forall scalar (value <$> cps) ∧ cp_bytes <$> cps = utf8_encode <$> (value <$> cps) ∧
  encode_text (value <$> cps) `prefix_of` stream ∧
  (error = None ↔ ∃ cs, Forall scalar cs ∧ stream = encode_text cs) ∧
  (∀ cs, Forall scalar cs → stream = encode_text cs → value <$> cps = cs).
Proof.
  assert (started (utf8_reader_new stream)) as Hs by done.
  assert (∀ cs, Forall scalar cs → stream = encode_text cs → (length cs < S (length stream))%nat) as Hlen.
  { clear Hs. intros cs _ ->. induction cs as [|c cs IH]; [cbn; lia|]. rewrite encode_text_cons.
    destruct (utf8_encode_cons c) as (b & l & ->). rewrite length_app. cbn [length] in *. lia. }
  pose proof (λ cs Hf He, read_all_complete cs (S (length stream)) _ Hs Hf He (Hlen cs Hf He)) as Hc.
  pose proof (read_all_sound (S (length stream)) (utf8_reader_new stream) Hs (Nat.lt_succ_diag_r _)) as Hsound.
  destruct (read_all _ _) as [cps e]. destruct Hsound as (H1 & H2 & rest & H3 & H4). cbn [rd_stream utf8_reader_new fst snd] in *.
  split; [done|]. split; [done|]. split; [by exists rest|]. split; [split|].
  - intros ->. exists (value <$> cps). rewrite (H4 eq_refl), app_nil_r in H3. done.
  - intros (cs & Hcs & He). by apply (Hc cs).
  - intros cs Hcs He. by apply (Hc cs).
Qed.

(** ** The history replays the text *)
Section history.
Implicit Types (b : utf8_buffered_reader) (seen : list utf8_codepoint).

(** [seen] is all that was read before the head; the buffer holds the last 71
    of it, the code point number [j] in slot [j mod 71]. *)
Definition history_inv b seen : Prop :=
  br_count b = Z.min history_buffer_size (Z.of_nat (length seen)) ∧
  br_first b = Z.of_nat (length seen) - br_count b ∧
  Z.of_nat (length (br_buffer b)) = br_count b ∧
  ∀ j : nat, br_first b ≤ Z.of_nat j → (j < length seen)%nat →
    br_buffer b !! Z.to_nat (Z.of_nat j mod history_buffer_size) = seen !! j.

Lemma history_inv_new r : history_inv (utf8_buffered_reader_new r) [].
Proof. by repeat split. Qed.

Lemma history_at_spec b seen k :
  history_inv b seen → 0 < k ≤ br_count b → Z.of_nat (length seen) < 2 ^ 64 →
  Some (history_at b k) = seen !! Z.to_nat (Z.of_nat (length seen) - k).
Proof.
  intros (Hc & Hf & Hl & Hb) Hk Hlen. unfold history_at, u64.
  rewrite (Z.mod_small (_ - k)) by lia.
  replace (br_first b + br_count b - k) with (Z.of_nat (Z.to_nat (Z.of_nat (length seen) - k))) by lia.
  rewrite Hb by lia. destruct (lookup_lt_is_Some_2 seen (Z.to_nat (Z.of_nat (length seen) - k))) as [x ->]; [lia|].
  done.
Qed.

Lemma push_history_inv b seen cp :
  history_inv b seen → history_inv (push_history b cp) (seen ++ [cp]).
Proof.
  intros (Hc & Hf & Hl & Hb). unfold push_history. unfold history_inv.
  destruct (Z.ltb_spec (br_count b) history_buffer_size) as [Hlt|Hge]; cbn [br_count br_first br_buffer];
    rewrite length_app; cbn [length]; unfold history_buffer_size, max_history_length in *.
  - split; [lia|]. split; [lia|]. split; [rewrite length_app; cbn; lia|]. intros j Hj Hjl.
    rewrite Z.mod_small by lia. rewrite Nat2Z.id. destruct (decide (j < length seen)%nat) as [Hjs|Hjs].
    + rewrite !lookup_app_l by lia. rewrite <- Hb by lia. f_equal. rewrite Z.mod_small; lia.
    + rewrite !lookup_app_r by lia. f_equal. lia.
  - split; [lia|]. split; [lia|]. split; [rewrite length_insert; lia|]. intros j Hj Hjl.
    replace (br_first b + (72 - 1)) with (br_first b + 1 * 71) by lia. rewrite Z_mod_plus_full.
    destruct (decide (j < length seen)%nat) as [Hjs|Hjs].
    + rewrite lookup_app_l by lia. rewrite <- Hb by lia. apply list_lookup_insert_ne.
      intros Heq%Z2Nat.inj; [|apply Z.mod_pos_bound; lia..].
      Z.to_euclidean_division_equations. lia.
    + rewrite lookup_app_r by lia. replace (j - length seen)%nat with O by lia. cbn.
      replace (Z.of_nat j) with (br_first b + 1 * 71) by lia. change (72 - 1) with 71. rewrite Z_mod_plus_full.
      apply list_lookup_insert_eq. pose proof (Z.mod_pos_bound (br_first b) 71). lia.
Qed.

(** Reading [n] times. *)
Fixpoint replay (n : nat) b : list (option utf8_codepoint) * utf8_buffered_reader :=
  match n with
  | O => ([], b)
  | S n =>
    match buffered_read_next b with
    | ReadChar cp b => let '(l, b) := replay n b in (Some cp :: l, b)
    | ReadEof b => let '(l, b) := replay n b in (None :: l, b)
    | ReadError _ _ => ([], b)
    end
  end.

Definition set_offset b (off : Z) : utf8_buffered_reader :=
  mk_buffered (br_reader b) (br_buffer b) (br_count b) (br_first b) (br_head b) off.

Lemma replay_set_offset b seen n :
  history_inv b seen → br_negative_offset b = 0 → (0 < n)%nat → Z.of_nat n ≤ br_count b →
  Z.of_nat (length seen) < 2 ^ 64 →
  replay n (set_offset b (Z.of_nat n)) = ((Some <$> drop (length seen - n + 1) seen) ++ [br_head b], b).
Proof.
  intros Hinv Hoff Hn Hc Hlen. induction n as [|n IH]; [lia|]. cbn [replay]. unfold buffered_read_next.
  cbn [br_negative_offset set_offset br_reader br_buffer br_count br_first br_head].
  destruct (Z.eqb_spec (Z.of_nat (S n)) 0) as [|_]; [lia|]. cbn [negb].
  replace (Z.of_nat (S n) - 1) with (Z.of_nat n) by lia. destruct (Z.eqb_spec (Z.of_nat n) 0) as [H0|H0].
  - assert (n = O) as -> by lia. rewrite drop_ge by lia. cbn [replay fmap list_fmap app Z.of_nat].
    destruct b as [? ? ? ? [h|] o]; cbn in Hoff; subst o; done.
  - fold (set_offset b (Z.of_nat n)). rewrite IH by lia.
    change (history_at _ _) with (history_at b (Z.of_nat n)).
    pose proof Hinv as (Hc' & _).
    pose proof (history_at_spec b seen (Z.of_nat n) Hinv ltac:(lia) Hlen) as Hh.
    replace (Z.to_nat (Z.of_nat (length seen) - Z.of_nat n)) with (length seen - S n + 1)%nat in Hh by lia.
    rewrite (drop_S _ _ _ (eq_sym Hh)). cbn [fmap list_fmap app].
    by replace (S (length seen - S n + 1)) with (length seen - n + 1)%nat by lia.
Qed.

Lemma step_back_inv b seen :
  history_inv b seen → br_negative_offset b = 0 → Z.of_nat (length seen) < 2 ^ 64 →
  (∀ k : nat, (0 < k ≤ 71)%nat → (k ≤ length seen)%nat →
     let '(cp, b') := step_back b (Z.of_nat k) in
     Some cp = seen !! (length seen - k)%nat ∧
     replay k b' = ((Some <$> drop (length seen - k + 1) seen) ++ [br_head b], b)) ∧
  ((72 ≤ length seen)%nat → Some (step_back b max_history_length).1 = last seen).
Proof.
  intros Hinv Hoff Hlen. pose proof Hinv as (Hc & Hf & Hl & Hb).
  unfold history_buffer_size, max_history_length in *. split.
  - intros k Hk Hks. unfold step_back. rewrite Hoff, Z.add_0_l. cbv zeta. fold (set_offset b (Z.of_nat k)). split.
    + rewrite (history_at_spec b seen) by (done || lia). f_equal. lia.
    + apply replay_set_offset; done || lia.
  - intros Hge. unfold step_back, history_at, u64. rewrite Hoff. cbn [fst].
    rewrite (Z.mod_small (_ - _)) by lia. rewrite last_lookup.
    replace (br_first b + br_count b - (0 + 72)) with (Z.of_nat (Init.Nat.pred (length seen)) + (-1) * 71) by lia.
    unfold history_buffer_size, max_history_length. change (72 - 1) with 71 in *. rewrite Z_mod_plus_full.
    rewrite (Hb (Init.Nat.pred (length seen))) by lia.
    destruct (lookup_lt_is_Some_2 seen (Init.Nat.pred (length seen))) as [x ->]; [lia|]. done.
Qed.

Definition read_head (h : option utf8_codepoint) b : read_result utf8_buffered_reader :=
  match h with Some cp => ReadChar cp b | None => ReadEof b end.

Lemma set_head_inv b seen r h b' :
  history_inv b seen → set_head b r = read_head h b' →
  br_head b' = h ∧ br_negative_offset b' = 0 ∧ history_inv b' seen.
Proof.
  intros Hinv. destruct r as [cp r|r|what pos], h as [h|]; cbn; intros [=]; subst; done.
Qed.

(** Every read moves the head to the history. *)
Lemma read_history_inv b seen h b' :
  history_inv b seen → br_negative_offset b = 0 → buffered_read_next b = read_head h b' →
  br_head b' = h ∧ br_negative_offset b' = 0 ∧ history_inv b' (seen ++ option_list (br_head b)).
Proof.
  intros Hinv Hoff. unfold buffered_read_next. rewrite Hoff. cbn [Z.eqb negb].
  destruct (br_head b) as [cp|] eqn:Hh; cbn [option_list].
  - by apply set_head_inv, push_history_inv.
  - rewrite app_nil_r. destruct (br_count b =? 0); [by apply set_head_inv|].
    destruct h; cbn; intros [= <-]; done.
Qed.

Lemma replay_history_inv n b seen l b' :
  history_inv b seen → br_negative_offset b = 0 → replay n b = (l, b') → length l = n →
  Some (br_head b') = last (br_head b :: l) ∧ br_negative_offset b' = 0 ∧
  history_inv b' (seen ++ omap id (take n (br_head b :: l))).
Proof.
  revert b seen l. induction n as [|n IH]; intros b seen l Hinv Hoff; cbn [replay].
  { intros [= <- <-] _. cbn. by rewrite app_nil_r. }
  assert (∀ h b1, buffered_read_next b = read_head h b1 →
    (let '(l, b) := replay n b1 in (h :: l, b)) = (l, b') → length l = S n →
    Some (br_head b') = last (br_head b :: l) ∧ br_negative_offset b' = 0 ∧
    history_inv b' (seen ++ omap id (take (S n) (br_head b :: l)))) as Hgo.
  { intros h b1 (Hh & Ho & Hi)%(read_history_inv _ seen); [|done|done].
    destruct (replay n b1) as [l1 b2] eqn:E. intros [= <- <-] [= Hl].
    destruct (IH b1 _ l1 Hi Ho E Hl) as (H1 & H2 & H3). rewrite Hh in *. split; [by rewrite H1|]. split; [done|].
    rewrite firstn_cons. destruct (br_head b); cbn [option_list omap list_omap id] in *; rewrite <- ?app_assoc in H3; done. }
  destruct (buffered_read_next b) as [cp b1|b1|what pos] eqn:E.
  - by apply (Hgo (Some cp)).
  - by apply (Hgo None).
  - by intros [= <- <-].
Qed.

Lemma omap_length {A B} (f : A → option B) (l : list A) : (length (omap f l) ≤ length l)%nat.
Proof. induction l as [|x l IH]; cbn; [lia|]. destruct (f x); cbn; lia. Qed.

(** the buffered reader replays the text exactly, as long as it is not set
    back by more than the 71 code points its history holds. After any [n + 1]
    reads of a text, stepping back by [k] gives the code point [k] places
    before the last one read; reading [k] times from there gives the code
    points that followed it, ends with the last one read, and leaves the
    reader as it was. Set back by 72, the [max_history_length] up to which
    the parser scans ahead, it is at the newest code point of the history
    instead of the oldest. *)
Theorem buffered_reader_replays r n l b :
  replay (S n) (utf8_buffered_reader_new r) = (l, b) → length l = S n → Z.of_nat n < 2 ^ 64 →
  let seen := omap id (take n l) in
  (∀ k : nat, (0 < k ≤ 71)%nat → (k ≤ length seen)%nat →
     let '(cp, b') := step_back b (Z.of_nat k) in
     Some cp = seen !! (length seen - k)%nat ∧
     replay k b' = ((Some <$> drop (length seen - k + 1) seen) ++ option_list (last l), b)) ∧
  ((72 ≤ length seen)%nat → Some (step_back b max_history_length).1 = last seen).
Proof.
  intros Hr Hl Hn seen.
  destruct (replay_history_inv (S n) _ [] l b (history_inv_new r) eq_refl Hr Hl) as (Hh & Ho & Hi).
  change (history_inv b seen) in Hi.
  assert (Z.of_nat (length seen) < 2 ^ 64) as Hlen.
  { unfold seen. pose proof (omap_length id (take n l)). rewrite length_take in *. lia. }
  destruct (step_back_inv b seen Hi Ho Hlen) as [H1 H2]. split; [|done].
  destruct l as [|x l]; [done|]. rewrite (last_cons_cons (br_head _) x l) in Hh.
  intros k Hk Hks. specialize (H1 k Hk Hks). destruct (step_back b (Z.of_nat k)) as [cp b'].
  by rewrite <- Hh.
Qed.
End history.

(** Eighty characters of text. *)
Definition demo_text : bytes := concat (replicate 8 (bs "0123456789")).

Definition demo_read : list (option utf8_codepoint) * utf8_buffered_reader :=
  replay 80 (utf8_buffered_reader_new (utf8_reader_new demo_text)).

Lemma buffered_reader_replays_witness :
  length demo_read.1 = 80%nat ∧
  replay 71 (step_back demo_read.2 71).2
  = ((Some <$> drop 9 (omap id (take 79 demo_read.1))) ++ option_list (last demo_read.1), demo_read.2) ∧
  Some (step_back demo_read.2 max_history_length).1 = last (omap id (take 79 demo_read.1)).
Proof.
  assert (length demo_read.1 = 80%nat) as Hl by (vm_compute; reflexivity).
  assert (length (omap id (take 79 demo_read.1)) = 79%nat) as Hs by (vm_compute; reflexivity).
  destruct (buffered_reader_replays (utf8_reader_new demo_text) 79 demo_read.1 demo_read.2) as [H1 H2].
  - unfold demo_read. apply surjective_pairing.
  - exact Hl.
  - reflexivity.
  - rewrite Hs in H1, H2. split; [exact Hl|]. split; [|apply H2; lia].
    specialize (H1 71%nat ltac:(lia) ltac:(lia)). change (Z.of_nat 71) with 71 in H1.
    destruct (step_back demo_read.2 71) as [c b]. exact (proj2 H1).
Defined.
