(* ===== verification/TomlParser.v ===== *)
(** * TomlParser: the state of the TOML parser ([impl::parser] of [src/include/toml.hpp])

    The parser object as a state monad with the exceptions it throws, its
    primitive steps (advance, go back, record, report an error) and the functions
    that consume blanks, comments and fixed sequences, then the strings.

    The build defines neither [_DEBUG] nor a checking [TOML_ASSUME] (GCC), so the
    assertions of the source do nothing here. Reading [*cp] at the end of the text
    is a null dereference and a result of its own, as are writes past an array
    and signed overflow. *)
From S2P Require Import Prelude Bytes Env TomlNode TomlUtf8.

Local Open Scope Z_scope.

(** ** The parser object *)
Record parser := mk_parser {
  reader : utf8_buffered_reader;
  source_path : option bytes;
  root : node;
  prev_pos : source_position;
  cp : option utf8_codepoint;
  implicit_tables : list positive;
  dotted_key_tables : list positive;
  table_arrays : list positive;
  recording_buffer : bytes;
  recording : bool;
  recording_whitespace : bool;
  current_scope : bytes;
  next_addr : positive;      (* the address of the next table or array allocated *)
}.

(** ** The monad *)
Inductive outcome (A : Type) :=
| Done (a : A) (s : parser)
| Throws (e : parse_error)
| Undefined (u : ub)
| OutOfFuel.
Arguments Done {A} a s.
Arguments Throws {A} e.
Arguments Undefined {A} u.
Arguments OutOfFuel {A}.

Definition P (A : Type) : Type := parser → outcome A.

#[global] Instance P_ret : MRet P := λ A a s, Done a s.
#[global] Instance P_bind : MBind P := λ A B k m s,
  match m s with
  | Done a s' => k a s'
  | Throws e => Throws e
  | Undefined u => Undefined u
  | OutOfFuel => OutOfFuel
  end.

Definition undefined {A} (u : ub) : P A := λ _, Undefined u.
Definition out_of_fuel {A} : P A := λ _, OutOfFuel.
Definition gets {A} (f : parser → A) : P A := λ s, Done (f s) s.
Definition modify (f : parser → parser) : P unit := λ s, Done tt (f s).

Definition set_cursor (r : utf8_buffered_reader) (pos : source_position) (c : option utf8_codepoint) (s : parser) : parser :=
  mk_parser r (source_path s) (root s) pos c (implicit_tables s) (dotted_key_tables s) (table_arrays s)
    (recording_buffer s) (recording s) (recording_whitespace s) (current_scope s) (next_addr s).
Definition set_recording (buffer : bytes) (on whitespace : bool) (s : parser) : parser :=
  mk_parser (reader s) (source_path s) (root s) (prev_pos s) (cp s) (implicit_tables s) (dotted_key_tables s)
    (table_arrays s) buffer on whitespace (current_scope s) (next_addr s).
Definition set_scope (scope : bytes) (s : parser) : parser :=
  mk_parser (reader s) (source_path s) (root s) (prev_pos s) (cp s) (implicit_tables s) (dotted_key_tables s)
    (table_arrays s) (recording_buffer s) (recording s) (recording_whitespace s) scope (next_addr s).
Definition set_root (r : node) (s : parser) : parser :=
  mk_parser (reader s) (source_path s) r (prev_pos s) (cp s) (implicit_tables s) (dotted_key_tables s)
    (table_arrays s) (recording_buffer s) (recording s) (recording_whitespace s) (current_scope s) (next_addr s).
Definition set_tables (implicit dotted arrays : list positive) (s : parser) : parser :=
  mk_parser (reader s) (source_path s) (root s) (prev_pos s) (cp s) implicit dotted arrays
    (recording_buffer s) (recording s) (recording_whitespace s) (current_scope s) (next_addr s).
Definition set_next_addr (a : positive) (s : parser) : parser :=
  mk_parser (reader s) (source_path s) (root s) (prev_pos s) (cp s) (implicit_tables s) (dotted_key_tables s)
    (table_arrays s) (recording_buffer s) (recording s) (recording_whitespace s) (current_scope s) a.

(** [push_parse_scope]: the scope of the rest of a block. An exception keeps
    the text built in the inner scope. *)
Definition scoped {A} (scope : bytes) (m : P A) : P A :=
  parent ← gets current_scope;
  modify (set_scope scope);;
  a ← m;
  modify (set_scope parent);;
  mret a.

(** How many more reads reach the end of the text, at most: the bound of every
    loop of the parser. *)
Definition reads_left (s : parser) : nat :=
  (Z.to_nat (br_negative_offset (reader s)) +
   match br_head (reader s) with Some _ => S (length (rd_stream (br_reader (reader s)))) | None => O end)%nat.

(** A loop that takes at most as many rounds as there are reads left. *)
Definition looping {A} (loop : nat → P A) : P A := λ s, loop (S (reads_left s)) s.

(** ** Errors *)
Definition hex_digit (z : Z) : bytes := take 1 (drop (Z.to_nat z) (bs "0123456789ABCDEF")).

(** [low_character_escape_table] *)
Definition low_character_escape (c : Z) : bytes :=
  if c =? 8 then bs "\b" else if c =? 9 then bs "\t" else if c =? 10 then bs "\n"
  else if c =? 12 then bs "\f" else if c =? 13 then bs "\r"
  else bs "\u00" ++ hex_digit (c / 16) ++ hex_digit (c mod 16).

(** [to_sv(const utf8_codepoint&)] *)
Definition to_sv (c : utf8_codepoint) : bytes :=
  if value c <=? 0x1F then low_character_escape (value c)
  else if value c =? 0x7F then bs "\u007F"
  else as_view c.

(** [node_type_friendly_names] *)
Definition node_type_friendly_name (t : node_type) : bytes :=
  match t with
  | ty_none => bs "none"
  | ty_table => bs "table"
  | ty_array => bs "array"
  | ty_string => bs "string"
  | ty_integer => bs "integer"
  | ty_floating_point => bs "floating-point"
  | ty_boolean => bs "boolean"
  | ty_date => bs "date"
  | ty_time => bs "time"
  | ty_date_time => bs "date-time"
  end.

(** [concatenate] into the buffer of [error_builder]: at most 511 bytes. *)
Definition concatenate (max : nat) (buf arg : bytes) : bytes := buf ++ take (max - length buf) arg.

(** [error_builder]: the message, which [parse_error] reads as a C string. *)
Definition error_message (scope : bytes) (reasons : list bytes) : bytes :=
  c_str (foldl (concatenate 511) [] ([bs "Error while parsing "; scope; bs ": "] ++ reasons)).

(** [current_position] *)
Definition position_of (s : parser) (fallback_offset : Z) : source_position :=
  match cp s with
  | Some c => position c
  | None => mk_pos (pos_line (prev_pos s)) (u16 (pos_column (prev_pos s) + fallback_offset))
  end.
Definition current_position (fallback_offset : Z) : P source_position :=
  gets (λ s, position_of s fallback_offset).

(** [set_error_at] *)
Definition set_error_at {A} (pos : source_position) (reasons : list bytes) : P A := λ s,
  Throws (mk_parse_error (error_message (current_scope s) reasons) (mk_region pos pos (source_path s))).

(** [set_error] *)
Definition set_error {A} (reasons : list bytes) : P A :=
  pos ← current_position 1; set_error_at pos reasons.

(** ** Primitive steps *)
Definition is_eof : P bool := gets (λ s, negb (bool_decide (is_Some (cp s)))).

(** [*cp] *)
Definition cur : P utf8_codepoint := λ s,
  match cp s with Some c => Done c s | None => Undefined NullNode end.

Definition set_error_if_eof : P unit :=
  eof ← is_eof; if (eof : bool) then set_error [bs "encountered end-of-file"] else mret ().

(** [go_back] *)
Definition go_back (count : Z) : P unit := λ s,
  let '(c, r) := step_back (reader s) count in
  Done tt (set_cursor r (position c) (Some c) s).

(** What is recorded of a code point that was read. *)
Definition record (s : parser) (c : utf8_codepoint) : bytes :=
  if recording s && (recording_whitespace s || negb (is_whitespace (value c) || is_line_break true (value c)))
  then recording_buffer s ++ as_view c else recording_buffer s.

(** [advance] *)
Definition advance : P unit := λ s,
  match cp s with
  | None => Undefined NullNode
  | Some c =>
    match buffered_read_next (reader s) with
    | ReadChar c' r =>
      Done tt (set_recording (record s c') (recording s) (recording_whitespace s)
                 (set_cursor r (position c) (Some c') s))
    | ReadEof r => Done tt (set_cursor r (position c) None s)
    | ReadError what pos => Throws (mk_parse_error what (mk_region pos pos (source_path s)))
    end
  end.

(** [advance_and_return_if_error_or_eof] *)
Definition advance_not_eof : P unit := advance;; set_error_if_eof.

(** [start_recording] *)
Definition start_recording : P unit := modify (λ s,
  set_recording (from_option as_view [] (cp s)) true true s).

(** [stop_recording] *)
Definition stop_recording (pop_bytes : nat) : P unit := modify (λ s,
  set_recording (take (length (recording_buffer s) - pop_bytes) (recording_buffer s)) false
    (recording_whitespace s) s).

Definition set_recording_whitespace (b : bool) : P unit := modify (λ s,
  set_recording (recording_buffer s) (recording s) b s).

(** ** Blanks, comments and fixed sequences *)

(** [consume_leading_whitespace] *)
Fixpoint skip_whitespace (n : nat) (consumed : bool) : P bool :=
  match n with
  | O => out_of_fuel
  | S n =>
    eof ← is_eof;
    if (eof : bool) then mret consumed
    else
      c ← cur;
      if is_whitespace (value c) then advance;; skip_whitespace n true else mret consumed
  end.
Definition consume_leading_whitespace : P bool := looping (λ n, skip_whitespace n false).

(** [consume_line_break] *)
Definition consume_line_break : P bool :=
  eof ← is_eof;
  if (eof : bool) then mret false
  else
    c ← cur;
    if negb (is_line_break true (value c)) then mret false
    else if value c =? 13 then
      advance;;
      eof ← is_eof;
      if (eof : bool) then mret true
      else
        c ← cur;
        if negb (value c =? 10) then set_error [bs "expected \n, saw '"; to_sv c; bs "'"]
        else advance;; mret true
    else advance;; mret true.

(** [consume_rest_of_line] *)
Fixpoint skip_line (n : nat) : P bool :=
  match n with
  | O => out_of_fuel
  | S n =>
    c ← cur;
    if is_line_break true (value c) then consume_line_break
    else
      advance;;
      eof ← is_eof;
      if (eof : bool) then mret true else skip_line n
  end.
Definition consume_rest_of_line : P bool :=
  eof ← is_eof; if (eof : bool) then mret false else looping skip_line.

(** The loop of [consume_comment]. *)
Fixpoint skip_comment (n : nat) : P bool :=
  match n with
  | O => out_of_fuel
  | S n =>
    eof ← is_eof;
    if (eof : bool) then mret true
    else
      line_break ← consume_line_break;
      if (line_break : bool) then mret true
      else
        c ← cur;
        if is_nontab_control_character (value c) then
          set_error [bs "control characters other than TAB (U+0009) are explicitly prohibited"]
        else if is_unicode_surrogate (value c) then
          set_error [bs "unicode surrogates (U+D800 to U+DFFF) are explicitly prohibited"]
        else advance;; skip_comment n
  end.

(** [consume_comment] *)
Definition consume_comment : P bool :=
  eof ← is_eof;
  if (eof : bool) then mret false
  else
    c ← cur;
    if negb (value c =? U "#") then mret false
    else scoped (bs "comment") (advance;; looping skip_comment).

(** [consume_expected_sequence] *)
Fixpoint consume_expected_sequence (seq : bytes) : P bool :=
  match seq with
  | [] => mret true
  | x :: seq =>
    set_error_if_eof;;
    c ← cur;
    if negb (value c =? U x) then mret false else advance;; consume_expected_sequence seq
  end.

(** [consume_digit_sequence]: the digits, or [None] where it returns false. *)
Fixpoint consume_digit_sequence (len : nat) : P (option (list Z)) :=
  match len with
  | O => mret (Some [])
  | S len =>
    set_error_if_eof;;
    c ← cur;
    if negb (is_decimal_digit (value c)) then mret None
    else
      advance;;
      digits ← consume_digit_sequence len;
      mret ((λ l, (value c - U "0") :: l) <$> digits)
  end.

(** [consume_variable_length_digit_sequence] *)
Fixpoint consume_variable_length_digit_sequence (max_len : nat) : P (list Z) :=
  match max_len with
  | O => mret []
  | S max_len =>
    eof ← is_eof;
    if (eof : bool) then mret []
    else
      c ← cur;
      if negb (is_decimal_digit (value c)) then mret []
      else
        advance;;
        digits ← consume_variable_length_digit_sequence max_len;
        mret ((value c - U "0") :: digits)
  end.

(** An error that ends with the current character. *)
Definition saw {A} (text : bytes) : P A := c ← cur; set_error [text; to_sv c; bs "'"].

(** ** Strings *)

(** The digits of a unicode escape: a loop over the place values, at most eight. *)
Fixpoint escape_digits (n : nat) (place_value sequence_value : Z) : P Z :=
  match n with
  | O => out_of_fuel
  | S n =>
    if place_value =? 0 then mret sequence_value
    else
      set_error_if_eof;;
      c ← cur;
      if negb (is_hexadecimal_digit (value c)) then set_error [bs "expected hex digit, saw '"; to_sv c; bs "'"]
      else
        advance;;
        escape_digits n (place_value / 16) (u32 (sequence_value + u32 (place_value * hex_to_dec (value c))))
  end.

(** The bytes a unicode escape adds to the string, as they are computed. *)
Definition escape_bytes (v : Z) : bytes :=
  byte_of_Z <$>
  (if v <=? 0x7F then [Z.land v 0x7F]
   else if v <=? 0x7FF then
     [Z.lor 0xC0 (Z.land (Z.shiftr v 6) 0x1F); Z.lor 0x80 (Z.land v 0x3F)]
   else if v <=? 0xFFFF then
     [Z.lor 0xE0 (Z.land (Z.shiftr v 12) 0x0F); Z.lor 0x80 (Z.land (Z.shiftr v 6) 0x1F);
      Z.lor 0x80 (Z.land v 0x3F)]
   else
     [Z.lor 0xF0 (Z.land (Z.shiftr v 18) 0x07); Z.lor 0x80 (Z.land (Z.shiftr v 12) 0x3F);
      Z.lor 0x80 (Z.land (Z.shiftr v 6) 0x3F); Z.lor 0x80 (Z.land v 0x3F)]).

(** The cases [\x], [\u] and [\U]. *)
Definition unicode_escape (escaped_codepoint : Z) : P bytes :=
  scoped (bs "unicode scalar escape sequence") (
    advance_not_eof;;
    v ← escape_digits 9
          (if escaped_codepoint =? U "U" then 0x10000000
           else if escaped_codepoint =? U "u" then 0x1000 else 0x10) 0;
    if is_unicode_surrogate v then
      set_error [bs "unicode surrogates (U+D800 - U+DFFF) are explicitly prohibited"]
    else if 0x10FFFF <? v then set_error [bs "values greater than U+10FFFF are invalid"]
    else mret (escape_bytes v)).

(** The switch over the escaped character: what it stands for. *)
Definition parse_escape : P bytes :=
  c ← cur;
  let simple b := advance_not_eof;; mret [b] in
  if value c =? U "b" then simple x08
  else if value c =? U "f" then simple x0c
  else if value c =? U "n" then simple x0a
  else if value c =? U "r" then simple x0d
  else if value c =? U "t" then simple x09
  else if value c =? U x22 then simple x22
  else if value c =? U x5c then simple x5c
  else if value c =? U "x" then
    set_error [bs "escape sequence '\x' is not supported in TOML 1.0.0 and earlier"]
  else if (value c =? U "u") || (value c =? U "U") then unicode_escape (value c)
  else set_error [bs "unknown escape sequence '\"; to_sv c; bs "'"].

(** Counting the delimiters that follow one in a multi-line string. *)
Fixpoint count_delimiters (n : nat) (delim : byte) (consecutive : nat) : P nat :=
  match n with
  | O => mret consecutive
  | S n =>
    advance;;
    more ← gets (λ s, match cp s with Some c => value c =? U delim | None => false end);
    if (more : bool) then count_delimiters n delim (S consecutive) else mret consecutive
  end.

(** One round of the loop of [parse_basic_string]. *)
Inductive string_step :=
| StringDone (str : bytes)
| StringMore (str : bytes) (escaped skipping_whitespace : bool).

(** Up to five delimiters in a row: two of text and three that close. *)
Definition close_multi_line (delim : byte) (str : bytes) : P string_step :=
  consecutive ← count_delimiters 4 delim 1;
  match consecutive with
  | 1 => mret (StringMore (str ++ [delim]) false false)
  | 2 => mret (StringMore (str ++ [delim; delim]) false false)
  | 3 => mret (StringDone str)
  | 4 => mret (StringDone (str ++ [delim]))
  | _ => advance;; mret (StringDone (str ++ [delim; delim]))
  end%nat.

(** An escaped character; in a multi-line string possibly a line-ending backslash. *)
Definition escaped_step (multi_line : bool) (str : bytes) (skipping_whitespace : bool) : P string_step :=
  c ← cur;
  if multi_line && (is_line_break true (value c) || is_whitespace (value c)) then
    consume_leading_whitespace;;
    line_break ← consume_line_break;
    if negb line_break then
      set_error [bs "line-ending backslashes must be the last non-whitespace character on the line"]
    else mret (StringMore str false true)
  else
    b ← parse_escape;
    mret (StringMore (str ++ b) false skipping_whitespace).

(** Any other character. *)
Definition plain_step (multi_line : bool) (str : bytes) (skipping_whitespace : bool) : P string_step :=
  c ← cur;
  if multi_line && is_line_break true (value c) then
    consume_line_break;;
    mret (StringMore (if skipping_whitespace then str else str ++ [x0a]) false skipping_whitespace)
  else if is_nontab_control_character (value c) then
    set_error [bs "unescaped control characters other than TAB (U+0009) are explicitly prohibited"]
  else if is_unicode_surrogate (value c) then
    set_error [bs "unescaped unicode surrogates (U+D800 to U+DFFF) are explicitly prohibited"]
  else if multi_line then
    if negb skipping_whitespace || negb (is_whitespace (value c)) then
      advance;; mret (StringMore (str ++ as_view c) false false)
    else advance;; mret (StringMore str false skipping_whitespace)
  else advance;; mret (StringMore (str ++ as_view c) false skipping_whitespace).

Definition basic_string_step (multi_line : bool) (str : bytes) (escaped skipping_whitespace : bool) : P string_step :=
  if escaped then escaped_step multi_line str skipping_whitespace
  else
    c ← cur;
    if value c =? U x22 then
      if multi_line then close_multi_line x22 str else advance;; mret (StringDone str)
    else if value c =? U x5c then advance_not_eof;; mret (StringMore str true false)
    else plain_step multi_line str skipping_whitespace.

(** One round of the loop of [parse_literal_string]. *)
Definition literal_string_step (multi_line : bool) (str : bytes) (escaped skipping_whitespace : bool) : P string_step :=
  c ← cur;
  if value c =? U "'" then
    if multi_line then close_multi_line "'"%byte str else advance;; mret (StringDone str)
  else if multi_line && is_line_break true (value c) then
    consume_line_break;; mret (StringMore (str ++ [x0a]) false false)
  else if is_nontab_control_character (value c) then
    set_error [bs "control characters other than TAB (U+0009) are explicitly prohibited"]
  else if is_unicode_surrogate (value c) then
    set_error [bs "unicode surrogates (U+D800 - U+DFFF) are explicitly prohibited"]
  else advance;; mret (StringMore (str ++ as_view c) false false).

Fixpoint string_loop (step : bytes → bool → bool → P string_step) (n : nat)
    (str : bytes) (escaped skipping_whitespace : bool) : P bytes :=
  match n with
  | O => out_of_fuel
  | S n =>
    r ← step str escaped skipping_whitespace;
    match r with
    | StringDone str => mret str
    | StringMore str escaped skipping_whitespace =>
      eof ← is_eof;
      if (eof : bool) then set_error [bs "encountered end-of-file"]
      else string_loop step n str escaped skipping_whitespace
    end
  end.

(** The start shared by both kinds: the delimiter, and in a multi-line string one
    line ending. *)
Definition string_start (multi_line : bool) : P unit :=
  advance_not_eof;;
  if multi_line then consume_line_break;; set_error_if_eof else mret ().

(** [parse_basic_string] *)
Definition parse_basic_string (multi_line : bool) : P bytes :=
  scoped (bs "string") (
    string_start multi_line;;
    looping (λ n, string_loop (basic_string_step multi_line) n [] false false)).

(** [parse_literal_string] *)
Definition parse_literal_string (multi_line : bool) : P bytes :=
  scoped (bs "literal string") (
    string_start multi_line;;
    looping (λ n, string_loop (literal_string_step multi_line) n [] false false)).

(** [parse_string]: the text and whether it was a multi-line string. *)
Definition parse_string : P (bytes * bool) :=
  scoped (bs "string") (
    first ← cur;
    let first := value first in
    advance_not_eof;;
    second ← cur;
    let second := value second in
    advance;;
    third ← gets cp;
    match third with
    | None => if second =? first then mret ([], false) else set_error [bs "encountered end-of-file"]
    | Some third =>
      if (first =? second) && (first =? value third) then
        s ← (if first =? U "'" then parse_literal_string true else parse_basic_string true);
        mret (s, true)
      else
        go_back 2;;
        s ← (if first =? U "'" then parse_literal_string false else parse_basic_string false);
        mret (s, false)
    end).
