(* ===== verification/TomlScalar.v ===== *)
(** * TomlScalar: the scalar values of TOML ([impl::parser] of [src/include/toml.hpp])

    Booleans, integers, floats, dates and times, each function of the parser as a
    definition, with the arrays of the source at their sizes and the integers at
    their widths. *)
From Stdlib Require Import SpecFloat.
From S2P Require Import Prelude Bytes Env TomlNode TomlUtf8 TomlParser.

Local Open Scope Z_scope.

(** ** Booleans, infinities and NaNs *)

Definition expect_value_terminator : P unit :=
  c ← gets cp;
  match c with
  | Some c => if negb (is_value_terminator (value c)) then saw (bs "expected value-terminator, saw '") else mret ()
  | None => mret ()
  end.

(** A word of the language, reported with what was read of it. *)
Definition expect_word (word : bytes) : P unit :=
  ok ← consume_expected_sequence word;
  (if negb ok then
     buf ← gets recording_buffer;
     set_error [bs "expected '"; word; bs "', saw '"; buf; bs "'"]
   else mret ());;
  stop_recording 0;;
  expect_value_terminator.

(** [parse_boolean] *)
Definition parse_boolean : P bool :=
  scoped (bs "boolean") (
    start_recording;;
    c ← cur;
    let result := is_match (value c) ["t"; "T"]%byte in
    expect_word (if result then bs "true" else bs "false");;
    mret result).

(** [parse_inf_or_nan] *)
Definition parse_inf_or_nan : P spec_float :=
  scoped (bs "floating-point") (
    start_recording;;
    c ← cur;
    let negative := value c =? U "-" in
    (if negative || (value c =? U "+") then advance_not_eof else mret ());;
    c ← cur;
    let inf := is_match (value c) ["i"; "I"]%byte in
    expect_word (if inf then bs "inf" else bs "nan");;
    mret (if inf then S754_infinity negative else S754_nan)).

(** ** Floats *)

(** The first byte of a code point as a [char]. *)
Definition byte0 (c : utf8_codepoint) : byte := default x00 (head (cp_bytes c)).

(** The characters of a float as they are collected. *)
Record float_chars := mk_float_chars {
  fc_chars : bytes;                    (* char chars[64], the first [length] of it *)
  fc_prev : option Z;
  fc_seen_decimal : bool;
  fc_seen_exponent : bool;
  fc_first_integer_part : option byte;
}.

Definition float_chars_size : nat := 64.

(** [chars[length++] = ...; prev = cp], past the checks. *)
Definition float_store (f : float_chars) (c : utf8_codepoint) (dec exp : bool) (fip : option byte) : P float_chars :=
  if (length (fc_chars f) <? float_chars_size)%nat then
    advance;; mret (mk_float_chars (fc_chars f ++ [byte0 c]) (Some (value c)) dec exp fip)
  else undefined BufferOverflow.

(** One round of the loop: the chain of checks on the current character. *)
Definition float_step (f : float_chars) (c : utf8_codepoint) : P float_chars :=
  let '(mk_float_chars chars prev seen_decimal seen_exponent fip) := f in
  if value c =? U "_" then
    if negb (from_option is_decimal_digit false prev) then set_error [bs "underscores may only follow digits"]
    else advance_not_eof;; mret (mk_float_chars chars (Some (value c)) seen_decimal seen_exponent fip)
  else if from_option (λ p, p =? U "_") false prev && negb (is_decimal_digit (value c)) then
    set_error [bs "underscores must be followed by digits"]
  else if value c =? U "." then
    if negb (bool_decide (is_Some fip)) then set_error [bs "expected decimal digit, saw '.'"]
    else if seen_exponent then set_error [bs "expected exponent decimal digit or sign, saw '.'"]
    else if seen_decimal then set_error [bs "expected decimal digit or exponent, saw '.'"]
    else float_store f c true seen_exponent fip
  else if is_match (value c) ["e"; "E"]%byte then
    if from_option (λ p, negb (is_decimal_digit p)) false prev then saw (bs "expected decimal digit, saw '")
    else if seen_exponent then saw (bs "expected decimal digit, saw '")
    else float_store f c true true fip
  else if is_match (value c) ["+"; "-"]%byte then
    if negb seen_exponent then saw (bs "expected decimal digit or '.', saw '")
    else
      match prev with
      | None => undefined NullNode
      | Some p =>
        if negb (is_match p ["e"; "E"]%byte) then saw (bs "expected exponent digit, saw '")
        else float_store f c seen_decimal seen_exponent fip
      end
  else if (length chars =? float_chars_size)%nat then
    set_error [bs "exceeds maximum length of "; dec (Z.of_nat float_chars_size); bs " characters"]
  else if is_decimal_digit (value c) then
    if seen_decimal then float_store f c seen_decimal seen_exponent fip
    else
      match fip with
      | None => float_store f c seen_decimal seen_exponent (Some (byte0 c))
      | Some d =>
        if decide (d = "0"%byte) then set_error [bs "leading zeroes are prohibited"]
        else float_store f c seen_decimal seen_exponent fip
      end
  else saw (bs "expected decimal digit, saw '").

Fixpoint float_loop (n : nat) (f : float_chars) : P float_chars :=
  match n with
  | O => out_of_fuel
  | S n =>
    c ← gets cp;
    match c with
    | Some c => if is_value_terminator (value c) then mret f else f ← float_step f c; float_loop n f
    | None => mret f
    end
  end.

(** [ss >> result] of a [double] in the classic locale (gcc and clang do not use
    [std::from_chars], see [TOML_FLOAT_CHARCONV]): decimal text, correctly rounded.
    Without digits, and out of range, the extraction fails; a value too small is
    a zero. *)

Fixpoint leading_digits (l : bytes) : list Z * bytes :=
  match l with
  | b :: l' =>
    if is_decimal_digit (U b) then let '(ds, r) := leading_digits l' in ((U b - U "0") :: ds, r) else ([], l)
  | [] => ([], [])
  end.

Definition digits_value (base : Z) (ds : list Z) : Z := foldl (λ a d, a * base + d) 0 ds.

(** [m * 10 ^ e] as a double. *)
Definition round_decimal (m e : Z) : spec_float :=
  match m with
  | Z.pos p =>
    if 400 <? e then S754_infinity false
    else if e <? -500 then S754_zero false
    else if 0 <=? e then binary_normalize 53 1024 (m * 10 ^ e) 0 false
    else SFdiv 53 1024 (S754_finite false p 0) (S754_finite false (Z.to_pos (10 ^ (- e))) 0)
  | _ => S754_zero false
  end.

Definition extract_double (chars : bytes) : option spec_float :=
  let '(ip, r) := leading_digits chars in
  let '(fp, r) := match r with "."%byte :: r' => leading_digits r' | _ => ([], r) end in
  match ip ++ fp with
  | [] => None
  | ds =>
    let e10 :=
      match r with
      | x :: r' =>
        if is_match (U x) ["e"; "E"]%byte then
          let '(neg, r'') := match r' with
            | "-"%byte :: t => (true, t) | "+"%byte :: t => (false, t) | _ => (false, r') end in
          let v := digits_value 10 (leading_digits r'').1 in if (neg : bool) then - v else v
        else 0
      | [] => 0
      end in
    let m := digits_value 10 ds in
    match round_decimal m (e10 - Z.of_nat (length fp)) with
    | S754_infinity _ => None
    | x => Some x
    end
  end.

(** [parse_float] *)
Definition parse_float : P spec_float :=
  scoped (bs "floating-point") (
    c ← cur;
    let negative := value c =? U "-" in
    (if is_match (value c) ["+"; "-"]%byte then advance_not_eof else mret ());;
    f ← looping (λ n, float_loop n (mk_float_chars [] None false false None));
    match fc_prev f with
    | Some p =>
      if p =? U "_" then set_error_if_eof;; set_error [bs "underscores must be followed by digits"]
      else if is_match p ["e"; "E"; "+"; "-"; "."]%byte then
        set_error_if_eof;; saw (bs "expected decimal digit, saw '")
      else mret ()
    | None => mret ()
    end;;
    match extract_double (fc_chars f) with
    | Some x => mret (if negative then SFopp x else x)
    | None => set_error [bs "'"; fc_chars f; bs "' could not be interpreted as a value"]
    end).

(** [parse_hex_float], without the unreleased features. *)
Definition parse_hex_float : P spec_float :=
  scoped (bs "hexadecimal floating-point")
    (set_error [bs "hexadecimal floating-point values are not supported in TOML 1.0.0 and earlier"]).

(** ** Integers *)

(** [parse_integer_traits] *)
Record integer_traits := mk_traits {
  tr_base : Z;
  tr_scope_qualifier : bytes;
  tr_is_digit : Z → bool;
  tr_is_signed : bool;
  tr_buffer_length : nat;
  tr_prefix : option byte;
}.

Definition binary_traits : integer_traits :=
  mk_traits 2 (bs "binary integer") is_binary_digit false 63 (Some "b"%byte).
Definition octal_traits : integer_traits :=
  mk_traits 8 (bs "octal integer") is_octal_digit false 21 (Some "o"%byte).
Definition decimal_traits : integer_traits :=
  mk_traits 10 (bs "decimal integer") is_decimal_digit true 19 None.
Definition hexadecimal_traits : integer_traits :=
  mk_traits 16 (bs "hexadecimal integer") is_hexadecimal_digit false 16 (Some "x"%byte).

(** The loop that collects the digits; [chars] has [tr_buffer_length] places. *)
Fixpoint integer_loop (t : integer_traits) (n : nat) (chars : bytes) (prev : option Z) : P (bytes * option Z) :=
  match n with
  | O => out_of_fuel
  | S n =>
    c ← gets cp;
    match c with
    | None => mret (chars, prev)
    | Some c =>
      if is_value_terminator (value c) then mret (chars, prev)
      else if value c =? U "_" then
        if negb (from_option (tr_is_digit t) false prev) then set_error [bs "underscores may only follow digits"]
        else advance_not_eof;; integer_loop t n chars (Some (value c))
      else if from_option (λ p, p =? U "_") false prev && negb (tr_is_digit t (value c)) then
        set_error [bs "underscores must be followed by digits"]
      else if negb (tr_is_digit t (value c)) then saw (bs "expected digit, saw '")
      else if (length chars =? tr_buffer_length t)%nat then
        set_error [bs "exceeds maximum length of "; dec (Z.of_nat (tr_buffer_length t)); bs " characters"]
      else advance;; integer_loop t n (chars ++ [byte0 c]) (Some (value c))
    end
  end.

Definition digit_value (t : integer_traits) (b : byte) : Z :=
  if tr_base t =? 16 then hex_to_dec (U b) else u64 (U b - U "0").

(** The sum of the digits by their places, from the last one, in [uint64_t]. *)
Fixpoint accumulate (base : Z) (ds : list Z) (result power : Z) : Z :=
  match ds with
  | [] => result
  | d :: ds => accumulate base ds (u64 (result + u64 (power * d))) (u64 (power * base))
  end.

Fixpoint drop_zeros (l : bytes) : bytes :=
  match l with
  | [] => []
  | b :: l' => if decide (b = "0"%byte) then drop_zeros l' else l
  end.

Definition int64_max : Z := 2 ^ 63 - 1.

(** From the digits collected to the value: the part of [parse_integer] after
    the loop. *)
Definition integer_value (t : integer_traits) (sign : Z) (chars : bytes) : P Z :=
  if (tr_base t =? 10) && bool_decide (head chars = Some "0"%byte) then
    set_error [bs "leading zeroes are prohibited"]
  else
    match chars with
    | [b] => mret (digit_value t b)
    | _ =>
      match drop_zeros chars with
      | [] => mret 0
      | ds =>
        let result := accumulate (tr_base t) (digit_value t <$> rev ds) 0 1 in
        if int64_max + (if sign <? 0 then 1 else 0) <? result then
          set_error [bs "'"; chars; bs "' is not representable in 64 bits"]
        else if tr_is_signed t then
          let v := s64 result * sign in
          if (- 2 ^ 63 <=? v) && (v <=? int64_max) then mret v else undefined SignedOverflow
        else mret (s64 result)
      end
    end.

(** [parse_integer] *)
Definition parse_integer (t : integer_traits) : P Z :=
  scoped (tr_scope_qualifier t) (
    sign ← (if tr_is_signed t then
              c ← cur;
              (if is_match (value c) ["+"; "-"]%byte then advance_not_eof else mret ());;
              mret (if value c =? U "-" then -1 else 1)
            else mret 1);
    match tr_prefix t with
    | None =>
      c ← cur;
      if negb (tr_is_digit t (value c)) then saw (bs "expected expected digit or sign, saw '") else mret ()
    | Some prefix =>
      c ← cur;
      (if negb (value c =? U "0") then saw (bs "expected '0', saw '") else mret ());;
      advance_not_eof;;
      c ← cur;
      (if negb (value c =? U prefix) then saw (bs "expected '" ++ [prefix] ++ bs "', saw '") else mret ());;
      advance_not_eof
    end;;
    '(chars, prev) ← looping (λ n, integer_loop t n [] None);
    (if from_option (λ p, p =? U "_") false prev then
       set_error_if_eof;; set_error [bs "underscores must be followed by digits"]
     else mret ());;
    integer_value t sign chars).

(** ** Dates and times *)

Definition expect_char (b : byte) : P unit :=
  c ← cur;
  (if negb (value c =? U b) then saw (bs "expected '" ++ [b] ++ bs "', saw '") else mret ());;
  advance_not_eof.

(** A number of exactly [len] digits. *)
Definition parse_digits (len : nat) (what : bytes) : P Z :=
  digits ← consume_digit_sequence len;
  match digits with
  | None => saw (bs "expected " ++ what ++ bs ", saw '")
  | Some ds => mret (digits_value 10 ds)
  end.

Definition is_leap_year (year : Z) : bool :=
  (year mod 4 =? 0) && (negb (year mod 100 =? 0) || (year mod 400 =? 0)).

Definition max_days_in_month (year month : Z) : Z :=
  if month =? 2 then (if is_leap_year year then 29 else 28)
  else if (month =? 4) || (month =? 6) || (month =? 9) || (month =? 11) then 30 else 31.

(** [parse_date] *)
Definition parse_date (part_of_datetime : bool) : P date :=
  scoped (bs "date") (
    year ← parse_digits 4 (bs "4-digit year");
    set_error_if_eof;;
    expect_char "-";;
    month ← parse_digits 2 (bs "2-digit month");
    (if (month =? 0) || (12 <? month) then
       set_error [bs "expected month between 1 and 12 (inclusive), saw "; dec month]
     else mret ());;
    set_error_if_eof;;
    expect_char "-";;
    day ← parse_digits 2 (bs "2-digit day");
    (if (day =? 0) || (max_days_in_month year month <? day) then
       set_error [bs "expected day between 1 and "; dec (max_days_in_month year month);
                  bs " (inclusive), saw "; dec day]
     else mret ());;
    (if part_of_datetime then mret () else expect_value_terminator);;
    mret (mk_date (u16 year) (u8 month) (u8 day))).

(** The fractional digits as nanoseconds. *)
Fixpoint scale (n : nat) (v : Z) : Z := match n with O => v | S n => scale n (u32 (v * 10)) end.

(** [parse_time] *)
Definition parse_time (part_of_datetime : bool) : P time :=
  scoped (bs "time") (
    hour ← parse_digits 2 (bs "2-digit hour");
    (if 23 <? hour then set_error [bs "expected hour between 0 to 59 (inclusive), saw "; dec hour] else mret ());;
    set_error_if_eof;;
    expect_char ":";;
    minute ← parse_digits 2 (bs "2-digit minute");
    (if 59 <? minute then set_error [bs "expected minute between 0 and 59 (inclusive), saw "; dec minute]
     else mret ());;
    set_error_if_eof;;
    expect_char ":";;
    second ← parse_digits 2 (bs "2-digit second");
    (if 59 <? second then set_error [bs "expected second between 0 and 59 (inclusive), saw "; dec second]
     else mret ());;
    let at_second := mk_time (u8 hour) (u8 minute) (u8 second) in
    c ← gets cp;
    let early_exit := match c with
      | None => true
      | Some c => is_value_terminator (value c) || (part_of_datetime && is_match (value c) ["+"; "-"; "Z"]%byte)
      end in
    if (early_exit : bool) then mret (at_second 0)
    else
      expect_char ".";;
      digits ← consume_variable_length_digit_sequence 9;
      c ← gets cp;
      match digits, c with
      | [], _ => set_error_if_eof;; saw (bs "expected fractional digits, saw '")
      | _, None => mret ()
      | _, Some c =>
        if (length digits =? 9)%nat && is_decimal_digit (value c) then
          set_error [bs "fractional component exceeds maximum precision of "; dec 9]
        else if negb part_of_datetime && negb (is_value_terminator (value c)) then
          saw (bs "expected value-terminator, saw '")
        else mret ()
      end;;
      mret (at_second (scale (9 - length digits) (digits_value 10 digits)))).

(** The offset of a date-time, in minutes. *)
Definition parse_time_offset : P Z :=
  scoped (bs "date-time offset") (
    c ← cur;
    let sign := if value c =? U "-" then -1 else 1 in
    advance_not_eof;;
    hour ← parse_digits 2 (bs "2-digit hour");
    (if 23 <? hour then set_error [bs "expected hour between 0 and 23 (inclusive), saw "; dec hour] else mret ());;
    set_error_if_eof;;
    expect_char ":";;
    minute ← parse_digits 2 (bs "2-digit minute");
    (if 59 <? minute then set_error [bs "expected minute between 0 and 59 (inclusive), saw "; dec minute]
     else mret ());;
    mret ((hour * 60 + minute) * sign)).

(** [parse_date_time] *)
Definition parse_date_time : P date_time :=
  scoped (bs "date-time") (
    date ← parse_date true;
    set_error_if_eof;;
    c ← cur;
    (if negb (is_match (value c) [" "; "T"]%byte) then saw (bs "expected space or 'T', saw '") else mret ());;
    advance_not_eof;;
    time ← parse_time true;
    c ← gets cp;
    match c with
    | None => mret (mk_date_time date time None)
    | Some c =>
      if is_value_terminator (value c) then mret (mk_date_time date time None)
      else
        offset ← (if value c =? U "Z" then advance;; mret 0
                  else if is_match (value c) ["+"; "-"]%byte then parse_time_offset
                  else mret 0);
        expect_value_terminator;;
        mret (mk_date_time date time (Some offset))
    end).
