(* ===== verification/TomlDocument.v ===== *)
(** * TomlDocument: values, keys, tables and the document ([impl::parser] of [src/include/toml.hpp])

    The part of the parser that builds the tree: how a value is recognised, arrays
    and inline tables, keys, table headers and the document. A pointer to a
    table is the path of keys that leads to it from the root (the last element,
    through an array of tables); the vectors of pointers are lists of addresses. *)
From Stdlib Require Import SpecFloat.
From S2P Require Import Prelude Bytes Env TomlNode TomlUtf8 TomlParser TomlScalar.

Local Open Scope Z_scope.

(** ** Nodes while they are built *)
Definition set_source (r : source_region) (n : node) : node :=
  match n with
  | Table a m i _ => Table a m i r
  | Array a els _ => Array a els r
  | VString s _ => VString s r
  | VInteger z fl _ => VInteger z fl r
  | VFloat x _ => VFloat x r
  | VBoolean b _ => VBoolean b r
  | VDate d _ => VDate d r
  | VTime t _ => VTime t r
  | VDateTime dt _ => VDateTime dt r
  end.

Definition set_end (r : source_region) (e : source_position) : source_region :=
  mk_region (reg_begin r) e (reg_path r).

(** [new table] and [new array] *)
Definition alloc : P positive :=
  a ← gets next_addr; modify (set_next_addr (Pos.succ a));; mret a.

Definition push_implicit (a : positive) : P unit :=
  modify (λ s, set_tables (implicit_tables s ++ [a]) (dotted_key_tables s) (table_arrays s) s).
Definition push_dotted (a : positive) : P unit :=
  modify (λ s, set_tables (implicit_tables s) (dotted_key_tables s ++ [a]) (table_arrays s) s).
Definition push_table_array (a : positive) : P unit :=
  modify (λ s, set_tables (implicit_tables s) (dotted_key_tables s) (table_arrays s ++ [a]) s).

(** [find] in a vector of pointers, and [erase] of what it found. *)
Definition find_addr (l : list positive) (a : positive) : bool := bool_decide (a ∈ l).
Fixpoint erase_addr (a : positive) (l : list positive) : list positive :=
  match l with
  | [] => []
  | x :: l => if decide (x = a) then l else x :: erase_addr a l
  end.
Definition pop_implicit (a : positive) : P unit :=
  modify (λ s, set_tables (erase_addr a (implicit_tables s)) (dotted_key_tables s) (table_arrays s) s).

(** ** Keys *)

(** [parse_bare_key_segment] *)
Fixpoint bare_key_loop (n : nat) (segment : bytes) : P bytes :=
  match n with
  | O => out_of_fuel
  | S n =>
    c ← gets cp;
    match c with
    | None => mret segment
    | Some c =>
      if negb (is_bare_key_character (value c)) then mret segment
      else advance;; bare_key_loop n (segment ++ as_view c)
    end
  end.
Definition parse_bare_key_segment : P bytes := looping (λ n, bare_key_loop n []).

(** One segment of a key. *)
Definition parse_key_segment (segments : list bytes) : P bytes :=
  c ← cur;
  if is_bare_key_character (value c) then parse_bare_key_segment
  else if is_string_delimiter (value c) then
    let begin_pos := position c in
    set_recording_whitespace true;;
    '(str, was_multi_line) ← parse_string;
    set_recording_whitespace false;;
    if (was_multi_line : bool) then
      set_error_at begin_pos
        [bs "multi-line strings are prohibited in "; match segments with [] => [] | _ => bs "dotted " end; bs "keys"]
    else mret str
  else saw (bs "expected bare key starting character or string delimiter, saw '").

Fixpoint key_loop (n : nat) (segments : list bytes) : P (list bytes) :=
  match n with
  | O => out_of_fuel
  | S n =>
    segment ← parse_key_segment segments;
    let segments := segments ++ [segment] in
    consume_leading_whitespace;;
    dot ← gets (λ s, match cp s with Some c => value c =? U "." | None => false end);
    if negb dot then mret segments
    else
      advance_not_eof;;
      consume_leading_whitespace;;
      set_error_if_eof;;
      key_loop n segments
  end.

(** [parse_key] *)
Definition parse_key : P (list bytes) :=
  scoped (bs "key") (set_recording_whitespace false;; looping (λ n, key_loop n [])).

(** ** Recognising a value *)

(** [value_traits] *)
Module traits.
Definition has_digits : Z := 1.
Definition has_b : Z := 2 ^ 1.
Definition has_e : Z := 2 ^ 2.
Definition has_o : Z := 2 ^ 3.
Definition has_p : Z := 2 ^ 4.
Definition has_t : Z := 2 ^ 5.
Definition has_x : Z := 2 ^ 6.
Definition has_z : Z := 2 ^ 7.
Definition has_colon : Z := 2 ^ 8.
Definition has_plus : Z := 2 ^ 9.
Definition has_minus : Z := 2 ^ 10.
Definition has_dot : Z := 2 ^ 11.
Definition begins_sign : Z := 2 ^ 12.
Definition begins_digit : Z := 2 ^ 13.
Definition begins_zero : Z := 2 ^ 14.

Definition bor (l : list Z) : Z := foldl Z.lor 0 l.
Definition signs_msk : Z := bor [has_plus; has_minus].
Definition bzero_msk : Z := bor [begins_zero; has_digits].
Definition bdigit_msk : Z := bor [begins_digit; has_digits].

Definition has_any (traits : Z) (l : list Z) : bool := negb (Z.land traits (bor l) =? 0).
Definition has_none (traits : Z) (l : list Z) : bool := Z.land traits (bor l) =? 0.
End traits.
Import traits.

(** What the scan has seen: the characters but underscores, their traits, and how
    far the parser has advanced. *)
Record scanned := mk_scanned { sc_chars : list Z; sc_traits : Z; sc_advance_count : Z; sc_eof : bool }.

Definition char_count (sc : scanned) : Z := Z.of_nat (length (sc_chars sc)).
Definition char_at (sc : scanned) (i : nat) : Z := default 0 (sc_chars sc !! i).

(** The traits a character adds; [sc] already has it as its last. *)
Definition char_traits (sc : scanned) (c : Z) : Z :=
  let traits := sc_traits sc in
  if is_decimal_digit c then has_digits
  else if is_ascii_letter c then
    let c := Z.lor c 32 in
    if c =? U "b" then (if (char_count sc =? 2) && has_any traits [begins_zero] then has_b else 0)
    else if c =? U "e" then
      (if (1 <? char_count sc) && has_none traits [has_b; has_o; has_p; has_t; has_x; has_z; has_colon]
          && (has_none traits [has_plus; has_minus] || has_any traits [begins_sign]) then has_e else 0)
    else if c =? U "o" then (if (char_count sc =? 2) && has_any traits [begins_zero] then has_o else 0)
    else if c =? U "p" then (if has_any traits [has_x] then has_p else 0)
    else if c =? U "x" then
      (if ((char_count sc =? 2) && has_any traits [begins_zero])
          || ((char_count sc =? 3) && has_any traits [begins_sign] && (char_at sc 1 =? U "0")) then has_x else 0)
    else if c =? U "t" then has_t
    else if c =? U "z" then has_z
    else 0
  else if c <=? U ":" then
    if c =? U "+" then has_plus else if c =? U "-" then has_minus else if c =? U "." then has_dot
    else if c =? U ":" then has_colon else 0
  else 0.

Definition scan_push (sc : scanned) (c : Z) : scanned :=
  mk_scanned (sc_chars sc ++ [c]) (sc_traits sc) (sc_advance_count sc) (sc_eof sc).
Definition scan_traits (sc : scanned) (t : Z) : scanned :=
  mk_scanned (sc_chars sc) (Z.lor (sc_traits sc) t) (sc_advance_count sc) (sc_eof sc).

Definition scan_char (sc : scanned) (c : Z) : scanned :=
  if c =? U "_" then sc else let sc := scan_push sc c in scan_traits sc (char_traits sc c).

Definition scan_advanced (sc : scanned) (eof : bool) : scanned :=
  mk_scanned (sc_chars sc) (sc_traits sc) (sc_advance_count sc + 1) eof.

(** The loop of the lambda [scan]. *)
Fixpoint scan_loop (n : nat) (sc : scanned) : P scanned :=
  match n with
  | O => out_of_fuel
  | S n =>
    c ← cur;
    advance;;
    next ← gets cp;
    let sc := scan_advanced (scan_char sc (value c)) (negb (bool_decide (is_Some next))) in
    let go_on := match next with
      | Some c => (sc_advance_count sc <? max_history_length) && negb (is_value_terminator (value c))
      | None => false
      end in
    if (go_on : bool) then scan_loop n sc else mret sc
  end.
Definition scan (sc : scanned) : P scanned :=
  eof ← is_eof; if (eof : bool) then mret sc else looping (λ n, scan_loop n sc).

(** Undoing the second scan. *)
Definition backpedal (pre sc : scanned) : P scanned :=
  go_back (sc_advance_count sc - sc_advance_count pre);;
  mret (mk_scanned (take 10 (sc_chars sc)) (sc_traits pre) (sc_advance_count pre) (sc_eof sc)).

(** A date may be followed by a space and a time. *)
Definition scan_date_time (sc : scanned) : P scanned :=
  c ← gets cp;
  if (char_count sc =? 10) && (sc_traits sc =? bor [bdigit_msk; has_minus])
     && (char_at sc 4 =? U "-") && (char_at sc 7 =? U "-")
     && from_option (λ c, value c =? U " ") false c
  then
    let pre := sc in
    let sc := scan_traits (scan_push sc (U " ")) has_t in
    advance;;
    let sc := scan_advanced sc (sc_eof sc) in
    c ← gets cp;
    match c with
    | Some c =>
      if negb (is_decimal_digit (value c)) then backpedal pre sc
      else
        let sc := scan_push sc (value c) in
        advance;;
        let sc := scan_advanced sc (sc_eof sc) in
        sc ← scan sc;
        if char_count sc =? 12 then backpedal pre sc else mret sc
    | None => backpedal pre sc
    end
  else mret sc.

(** The whole look-ahead: afterwards the parser is set back to where it began. *)
Definition scan_value (first_traits : Z) : P scanned :=
  sc ← scan (mk_scanned [] first_traits 0 false);
  sc ← scan_date_time sc;
  go_back (sc_advance_count sc);;
  mret sc.

(** *** Values by their traits *)
Definition new_integer (t : integer_traits) (flags : value_flags) : P (option node) :=
  z ← parse_integer t; mret (Some (VInteger z flags no_region)).
Definition new_float (m : P spec_float) : P (option node) :=
  x ← m; mret (Some (VFloat x no_region)).

(** The values that one character or a prefix gives away. *)
Definition fuzzy_match (sc : scanned) : P (option node) :=
  let traits := sc_traits sc in
  if has_any traits [has_p] then new_float parse_hex_float
  else if has_any traits [has_x] then new_integer hexadecimal_traits format_as_hexadecimal
  else if has_any traits [has_o] then new_integer octal_traits format_as_octal
  else if has_any traits [has_b] then new_integer binary_traits format_as_binary
  else if has_any traits [has_e] || (has_any traits [begins_zero; begins_digit] && (char_at sc 1 =? U ".")) then
    new_float parse_float
  else if has_any traits [begins_sign] then
    if (char_count sc =? 2) && has_any traits [has_digits] then
      advance;;
      advance;;
      mret (Some (VInteger ((char_at sc 1 - U "0") * (if char_at sc 0 =? U "-" then -1 else 1)) no_flags no_region))
    else if is_decimal_digit (char_at sc 1) && (char_at sc 2 =? U ".") then new_float parse_float
    else if is_match (char_at sc 1) ["i"; "n"; "I"; "N"]%byte then new_float parse_inf_or_nan
    else mret None
  else mret None.

(** The masks of the switch over the traits. *)
Definition decimal_integer_masks : list Z := bor <$>
  [[bzero_msk]; [bdigit_msk]; [begins_sign; has_digits; has_minus]; [begins_sign; has_digits; has_plus]].

Definition float_masks : list Z := bor <$>
  [[bzero_msk; has_e]; [bzero_msk; has_e; has_minus]; [bzero_msk; has_e; has_plus]; [bzero_msk; has_dot];
   [bzero_msk; has_dot; has_e]; [bzero_msk; has_dot; has_e; has_minus]; [bzero_msk; has_dot; has_e; has_plus];
   [bdigit_msk; has_e]; [bdigit_msk; has_e; has_minus]; [bdigit_msk; has_e; has_plus]; [bdigit_msk; has_dot];
   [bdigit_msk; has_dot; has_e]; [bdigit_msk; has_dot; has_e; has_minus]; [bdigit_msk; has_dot; has_e; has_plus];
   [begins_sign; has_digits; has_e; has_plus]; [begins_sign; has_digits; has_dot; has_plus];
   [begins_sign; has_digits; has_dot; has_e; has_plus]; [begins_sign; has_digits; has_dot; has_e; signs_msk];
   [begins_sign; has_digits; has_e; has_minus]; [begins_sign; has_digits; has_e; signs_msk];
   [begins_sign; has_digits; has_dot; has_minus]; [begins_sign; has_digits; has_dot; has_e; has_minus]].

Definition hex_float_masks : list Z := bor <$>
  [[bzero_msk; has_x; has_p]; [bzero_msk; has_x; has_p; has_minus]; [bzero_msk; has_x; has_p; has_plus];
   [begins_sign; has_digits; has_x; has_p; has_minus]; [begins_sign; has_digits; has_x; has_p; has_plus];
   [begins_sign; has_digits; has_x; has_p; signs_msk];
   [bzero_msk; has_x; has_dot; has_p]; [bzero_msk; has_x; has_dot; has_p; has_minus];
   [bzero_msk; has_x; has_dot; has_p; has_plus];
   [begins_sign; has_digits; has_x; has_dot; has_p; has_minus];
   [begins_sign; has_digits; has_x; has_dot; has_p; has_plus];
   [begins_sign; has_digits; has_x; has_dot; has_p; signs_msk]].

Definition time_masks : list Z := bor <$>
  [[bzero_msk; has_colon]; [bzero_msk; has_colon; has_dot]; [bdigit_msk; has_colon];
   [bdigit_msk; has_colon; has_dot]].

Definition date_masks : list Z := bor <$> [[bzero_msk; has_minus]; [bdigit_msk; has_minus]].

Definition date_time_masks : list Z := bor <$>
  [[bzero_msk; has_minus; has_colon; has_t]; [bzero_msk; signs_msk; has_colon; has_t];
   [bdigit_msk; has_minus; has_colon; has_t]; [bdigit_msk; signs_msk; has_colon; has_t];
   [bzero_msk; has_minus; has_colon; has_dot; has_t]; [bzero_msk; signs_msk; has_colon; has_dot; has_t];
   [bdigit_msk; has_minus; has_colon; has_dot; has_t]; [bdigit_msk; signs_msk; has_colon; has_dot; has_t];
   [bzero_msk; has_minus; has_colon; has_z; has_t]; [bzero_msk; has_minus; has_colon; has_dot; has_z; has_t];
   [bdigit_msk; has_minus; has_colon; has_z; has_t]; [bdigit_msk; has_minus; has_colon; has_dot; has_z; has_t]].

Definition among (traits : Z) (masks : list Z) : bool := existsb (Z.eqb traits) masks.

(** The switch. *)
Definition exact_match (traits : Z) : P (option node) :=
  if among traits [bor [bzero_msk; has_b]] then new_integer binary_traits format_as_binary
  else if among traits [bor [bzero_msk; has_o]] then new_integer octal_traits format_as_octal
  else if among traits decimal_integer_masks then new_integer decimal_traits no_flags
  else if among traits [bor [bzero_msk; has_x]] then new_integer hexadecimal_traits format_as_hexadecimal
  else if among traits float_masks then new_float parse_float
  else if among traits hex_float_masks then new_float parse_hex_float
  else if among traits time_masks then t ← parse_time false; mret (Some (VTime t no_region))
  else if among traits date_masks then d ← parse_date false; mret (Some (VDate d no_region))
  else if among traits date_time_masks then dt ← parse_date_time; mret (Some (VDateTime dt no_region))
  else mret None.

(** Values that begin with a digit or a sign. *)
Definition parse_number_like (first_traits : Z) : P (option node) :=
  sc ← scan_value first_traits;
  if char_count sc =? 1 then
    if has_any (sc_traits sc) [begins_zero; begins_digit] then
      advance;; mret (Some (VInteger (char_at sc 0 - U "0") no_flags no_region))
    else set_error [if sc_eof sc then bs "encountered end-of-file" else bs "could not determine value type"]
  else
    v ← fuzzy_match sc;
    match v with
    | Some _ => mret v
    | None => exact_match (sc_traits sc)
    end.

Section values.
(** [parse_value], for the values inside arrays and inline tables. *)
Variable parse_inner : P node.

(** *** Arrays *)
Fixpoint blanks_loop (n : nat) : P unit :=
  match n with
  | O => out_of_fuel
  | S n =>
    b ← consume_leading_whitespace;
    if (b : bool) then blanks_loop n
    else
      b ← consume_line_break;
      if (b : bool) then blanks_loop n
      else
        b ← consume_comment;
        if (b : bool) then blanks_loop n else mret ()
  end.

Inductive parse_elem := elem_none | elem_comma | elem_val.

Fixpoint array_loop (n : nat) (vals : list node) (prev : parse_elem) : P (list node) :=
  match n with
  | O => out_of_fuel
  | S n =>
    looping blanks_loop;;
    set_error_if_eof;;
    c ← cur;
    if value c =? U "," then
      match prev with
      | elem_val => advance_not_eof;; array_loop n vals elem_comma
      | _ => set_error [bs "expected value or closing ']', saw comma"]
      end
    else if value c =? U "]" then advance;; mret vals
    else
      match prev with
      | elem_val => saw (bs "expected comma or closing ']', saw '")
      | _ => v ← parse_inner; array_loop n (vals ++ [v]) elem_val
      end
  end.

(** [parse_array] *)
Definition parse_array : P node :=
  scoped (bs "array") (
    advance_not_eof;;
    a ← alloc;
    vals ← looping (λ n, array_loop n [] elem_none);
    mret (Array a vals no_region)).

(** *** Key-value pairs *)

(** [parse_key_value_pair] *)
Definition parse_key_value_pair : P (list bytes * node) :=
  scoped (bs "key-value pair") (
    start_recording;;
    key ← parse_key;
    stop_recording 1;;
    consume_leading_whitespace;;
    set_error_if_eof;;
    c ← cur;
    (if negb (value c =? U "=") then saw (bs "expected '=', saw '") else mret ());;
    advance_not_eof;;
    consume_leading_whitespace;;
    set_error_if_eof;;
    c ← cur;
    if is_value_terminator (value c) then saw (bs "expected value, saw '")
    else v ← parse_inner; mret (key, v)).

(** Inserting a value under the segments of its key, into the table [m]: the
    part of [parse_key_value_pair_and_insert] after the parsing. *)
Fixpoint insert_value (segments : list bytes) (v : node) (m : string_map node) : P (string_map node) :=
  match segments with
  | [] => mret m
  | [k] =>
    match do_get m k with
    | Some conflicting =>
      buf ← gets recording_buffer;
      set_error (
        [bs "cannot redefine existing "; node_type_friendly_name (node_type_of conflicting); bs " '"; buf] ++
        (if decide (node_type_of conflicting = node_type_of v) then [bs "'"]
         else [bs "' as "; node_type_friendly_name (node_type_of v)]))
    | None => mret (emplace k v m)
    end
  | k :: segments =>
    match do_get m k with
    | None =>
      a ← alloc;
      push_dotted a;;
      m' ← insert_value segments v [];
      mret (emplace k (Table a m' true (source v)) m)
    | Some child =>
      dotted ← gets dotted_key_tables;
      match child with
      | Table a m1 i r =>
        if find_addr dotted a then
          m' ← insert_value segments v m1;
          mret (map_alter (λ _, Table a m' i (set_end r (reg_end (source v)))) k m)
        else set_error [bs "cannot redefine existing "; node_type_friendly_name (node_type_of child);
                        bs " as dotted key-value pair"]
      | _ => set_error [bs "cannot redefine existing "; node_type_friendly_name (node_type_of child);
                        bs " as dotted key-value pair"]
      end
    end
  end.

(** [parse_key_value_pair_and_insert], into a table of its own. *)
Definition parse_key_value_pair_and_insert (m : string_map node) : P (string_map node) :=
  scoped (bs "key-value pair") (
    '(segments, v) ← parse_key_value_pair;
    insert_value segments v m).

(** *** Inline tables *)
Fixpoint whitespace_loop (n : nat) : P unit :=
  match n with
  | O => out_of_fuel
  | S n => b ← consume_leading_whitespace; if (b : bool) then whitespace_loop n else mret ()
  end.

Fixpoint inline_table_loop (n : nat) (m : string_map node) (prev : parse_elem) : P (string_map node) :=
  match n with
  | O => out_of_fuel
  | S n =>
    looping whitespace_loop;;
    set_error_if_eof;;
    c ← cur;
    if value c =? U "," then
      match prev with
      | elem_val => advance_not_eof;; inline_table_loop n m elem_comma
      | _ => set_error [bs "expected key-value pair or closing '}', saw comma"]
      end
    else if value c =? U "}" then
      match prev with
      | elem_comma => set_error [bs "expected key-value pair, saw closing '}' (dangling comma)"]
      | _ => advance;; mret m
      end
    else if is_string_delimiter (value c) || is_bare_key_character (value c) then
      match prev with
      | elem_val => saw (bs "expected comma or closing '}', saw '")
      | _ => m ← parse_key_value_pair_and_insert m; inline_table_loop n m elem_val
      end
    else saw (bs "expected key or closing '}', saw '")
  end.

(** [parse_inline_table] *)
Definition parse_inline_table : P node :=
  scoped (bs "inline table") (
    advance_not_eof;;
    a ← alloc;
    m ← looping (λ n, inline_table_loop n [] elem_none);
    mret (Table a m true no_region)).

(** [parse_value_known_prefixes] *)
Definition parse_value_known_prefixes : P (option node) :=
  c ← cur;
  if value c =? U "[" then v ← parse_array; mret (Some v)
  else if value c =? U "{" then v ← parse_inline_table; mret (Some v)
  else if value c =? U "." then new_float parse_float
  else if (value c =? U x22) || (value c =? U "'") then
    '(s, _) ← parse_string; mret (Some (VString s no_region))
  else if is_match (value c) ["t"; "f"; "T"; "F"]%byte then
    b ← parse_boolean; mret (Some (VBoolean b no_region))
  else if is_match (value c) ["i"; "I"; "n"; "N"]%byte then new_float parse_inf_or_nan
  else mret None.

(** The body of [parse_value]. *)
Definition parse_value_body : P node :=
  scoped (bs "value") (
    c ← cur;
    if is_control_character (value c) then set_error [bs "unexpected control character"]
    else if value c =? U "_" then set_error [bs "values may not begin with underscores"]
    else
      let begin_pos := position c in
      v ← parse_value_known_prefixes;
      v ← match v with
          | Some _ => mret v
          | None =>
            if is_decimal_digit (value c) then
              parse_number_like (if value c =? U "0" then begins_zero else begins_digit)
            else if is_match (value c) ["+"; "-"]%byte then parse_number_like begins_sign
            else mret None
          end;
      match v with
      | None => set_error_at begin_pos [bs "could not determine value type"]
      | Some v =>
        end_pos ← current_position 1;
        path ← gets source_path;
        mret (set_source (mk_region begin_pos end_pos path) v)
      end).
End values.

(** [parse_value]; the fuel is for the values nested in each other. *)
Fixpoint parse_value (n : nat) : P node :=
  match n with
  | O => out_of_fuel
  | S n => parse_value_body (parse_value n)
  end.

(** ** Table headers *)

Section headers.
Variables (is_arr : bool) (region : source_region).

Definition redefinition {A} (t : node_type) : P A :=
  buf ← gets recording_buffer;
  set_error (
    if negb is_arr && bool_decide (t = ty_table) then [bs "cannot redefine existing table '"; buf; bs "'"]
    else [bs "cannot redefine existing "; node_type_friendly_name t; bs " '"; buf; bs "' as ";
          if is_arr then bs "array-of-tables" else bs "table"]).

(** The last segment of the key, in its parent table. *)
Definition declare_last (k : bytes) (m : string_map node) : P (string_map node) :=
  match do_get m k with
  | None =>
    if is_arr then
      a ← alloc;
      push_table_array a;;
      t ← alloc;
      mret (emplace k (Array a [Table t [] false region] region) m)
    else
      t ← alloc;
      mret (emplace k (Table t [] false region) m)
  | Some matching =>
    arrays ← gets table_arrays;
    implicit ← gets implicit_tables;
    match matching with
    | Array a els r =>
      if is_arr && find_addr arrays a then
        t ← alloc;
        mret (map_alter (λ _, Array a (els ++ [Table t [] false region]) r) k m)
      else redefinition ty_array
    | Table a m1 i r =>
      if negb is_arr && find_addr implicit a then
        pop_implicit a;;
        mret (map_alter (λ _, Table a m1 i (mk_region (reg_begin region) (reg_end region) (reg_path r))) k m)
      else redefinition ty_table
    | _ => redefinition (node_type_of matching)
    end
  end.

(** The walk along the key: missing parents are made, implicitly. *)
Fixpoint declare_table (segments : list bytes) (m : string_map node) : P (string_map node) :=
  match segments with
  | [] => mret m
  | [k] => declare_last k m
  | k :: segments =>
    match do_get m k with
    | None =>
      a ← alloc;
      push_implicit a;;
      m' ← declare_table segments [];
      mret (emplace k (Table a m' false region) m)
    | Some (Table a m1 i r) =>
      m' ← declare_table segments m1;
      mret (map_alter (λ _, Table a m' i r) k m)
    | Some (Array a els r as child) =>
      arrays ← gets table_arrays;
      if find_addr arrays a then
        match last els with
        | Some (Table t m1 i r1) =>
          m' ← declare_table segments m1;
          mret (map_alter (λ _, Array a (removelast els ++ [Table t m' i r1]) r) k m)
        | _ => undefined NullNode
        end
      else redefinition (node_type_of child)
    | Some child => redefinition (node_type_of child)
    end
  end.
End headers.

(** The text of a header: its key, whether it is of an array of tables, and its
    region. *)
Definition parse_header_text : P (list bytes * bool * source_region) :=
  c ← cur;
  let header_begin_pos := position c in
  advance_not_eof;;
  had_leading_whitespace ← consume_leading_whitespace;
  set_error_if_eof;;
  c ← cur;
  is_arr ←
    (if value c =? U "[" then
       if (had_leading_whitespace : bool) then
         set_error [bs "[[array-of-table]] brackets must be contiguous (i.e. [ [ this ] ] is prohibited)"]
       else advance_not_eof;; consume_leading_whitespace;; set_error_if_eof;; mret true
     else mret false);
  c ← cur;
  (if value c =? U "]" then set_error [bs "tables with blank bare keys are explicitly prohibited"] else mret ());;
  start_recording;;
  key ← parse_key;
  stop_recording 1;;
  consume_leading_whitespace;;
  set_error_if_eof;;
  c ← cur;
  (if negb (value c =? U "]") then saw (bs "expected ']', saw '") else mret ());;
  (if (is_arr : bool) then
     advance_not_eof;;
     c ← cur;
     if negb (value c =? U "]") then saw (bs "expected ']', saw '") else mret ()
   else mret ());;
  advance;;
  header_end_pos ← current_position 1;
  path ← gets source_path;
  mret (key, is_arr, mk_region header_begin_pos header_end_pos path).

(** The rest of a line: nothing, a comment or the line break. *)
Definition expect_line_end : P unit :=
  consume_leading_whitespace;;
  eof ← is_eof;
  if (eof : bool) then mret ()
  else
    comment ← consume_comment;
    if (comment : bool) then mret ()
    else
      line_break ← consume_line_break;
      if (line_break : bool) then mret () else saw (bs "expected a comment or whitespace, saw '").

(** The map of the root table, changed. *)
Definition root_map (s : parser) : string_map node :=
  match root s with Table _ m _ _ => m | _ => [] end.
Definition set_root_map (m : string_map node) (s : parser) : parser :=
  match root s with Table a _ i r => set_root (Table a m i r) s | _ => s end.

(** [parse_table_header]: the path of the table it declares. *)
Definition parse_table_header : P (list bytes) :=
  scoped (bs "table header") (
    '(key, is_arr, region) ← parse_header_text;
    expect_line_end;;
    m ← gets root_map;
    m ← declare_table is_arr region key m;
    modify (set_root_map m);;
    mret key).

(** ** The document *)

(** An operation on the table at a path. *)
Fixpoint with_table (path : list bytes) (f : string_map node → source_region → P (string_map node * source_region))
    (m : string_map node) (r : source_region) : P (string_map node * source_region) :=
  match path with
  | [] => f m r
  | k :: path =>
    match do_get m k with
    | Some (Table a m1 i r1) =>
      '(m', r') ← with_table path f m1 r1;
      mret (map_alter (λ _, Table a m' i r') k m, r)
    | Some (Array a els ra) =>
      match last els with
      | Some (Table t m1 i r1) =>
        '(m', r') ← with_table path f m1 r1;
        mret (map_alter (λ _, Array a (removelast els ++ [Table t m' i r']) ra) k m, r)
      | _ => undefined NullNode
      end
    | _ => undefined NullNode
    end
  end.

Definition at_table (path : list bytes) (f : string_map node → source_region → P (string_map node * source_region)) : P unit :=
  rt ← gets root;
  match rt with
  | Table a m i r =>
    '(m', r') ← with_table path f m r;
    modify (set_root (Table a m' i r'))
  | _ => mret ()
  end.

Definition insert_into (kvp : P (list bytes * node)) (path : list bytes) : P unit :=
  '(segments, v) ← kvp;
  at_table path (λ m r, m ← insert_value segments v m; mret (m, r)).

(** A key-value pair of the document: [parse_key_value_pair_and_insert] into
    the current table, and the rest of its line. *)
Definition parse_document_pair (path : list bytes) : P unit :=
  scoped (bs "key-value pair") (
    scoped (bs "key-value pair") (insert_into (parse_key_value_pair (looping parse_value)) path);;
    expect_line_end).

(** One round of the loop: the path of the current table after it. *)
Definition document_step (path : list bytes) : P (list bytes) :=
  b ← consume_leading_whitespace;
  if (b : bool) then mret path
  else
    b ← consume_line_break;
    if (b : bool) then mret path
    else
      b ← consume_comment;
      if (b : bool) then mret path
      else
        c ← cur;
        if value c =? U "[" then parse_table_header
        else if is_bare_key_character (value c) || is_string_delimiter (value c) then
          parse_document_pair path;; mret path
        else saw (bs "expected keys, tables, whitespace or comments, saw '").

Fixpoint document_loop (n : nat) (path : list bytes) : P (list bytes) :=
  match n with
  | O => out_of_fuel
  | S n =>
    path ← document_step path;
    eof ← is_eof;
    if (eof : bool) then mret path else document_loop n path
  end.

(** [parse_document] *)
Definition parse_document : P unit :=
  scoped (bs "root table") (
    path ← looping (λ n, document_loop n []);
    eof_pos ← current_position 1;
    at_table [] (λ m r, mret (m, set_end r eof_pos));;
    match path with
    | [] => mret ()
    | _ => at_table path (λ m r, mret (m, if pos_le (reg_end r) (reg_begin r) then set_end r eof_pos else r))
    end).

(** [update_region_ends]: for a table, the computed end is dropped. *)
Fixpoint update_region_ends (n : node) : node :=
  match n with
  | Table a m i r => if i then n else Table a (map (λ kv, (kv.1, update_region_ends kv.2)) m) i r
  | Array a els r =>
    let els := map update_region_ends els in
    Array a els (set_end r (foldl (λ e v, if pos_lt e (reg_end (source v)) then reg_end (source v) else e) (reg_end r) els))
  | _ => n
  end.

(** ** The entry points *)
Definition root_addr : positive := 1.

Definition parser_new (stream : bytes) (path : bytes) : parser :=
  let src := match path with [] => None | _ => Some path end in
  mk_parser (utf8_buffered_reader_new (utf8_reader_new stream)) src
    (Table root_addr [] false (mk_region (mk_pos 1 1) (mk_pos 1 1) src))
    (mk_pos 1 1) None [] [] [] [] false true [] (Pos.succ root_addr).

(** The first read of the constructor of [parser]. *)
Definition read_first : P unit := λ s,
  match buffered_read_next (reader s) with
  | ReadChar c r => Done tt (set_cursor r (prev_pos s) (Some c) s)
  | ReadEof r => Done tt (set_cursor r (prev_pos s) None s)
  | ReadError what pos => Throws (mk_parse_error what (mk_region pos pos (source_path s)))
  end.

(** The constructor of [parser] and its conversion to a result. *)
Definition parse_stream : P table :=
  eof ← gets (λ s, reader_peek_eof (br_reader (reader s)));
  (if (eof : bool) then mret ()
   else
     read_first;;
     eof ← is_eof;
     if (eof : bool) then mret () else parse_document);;
  rt ← gets root;
  match update_region_ends rt with
  | Table _ m _ r => mret (m, r)
  | _ => undefined NullNode
  end.

(** [parse(string_view)] and [parse(istream)] *)
Definition parse (doc path : bytes) : outcome table := parse_stream (parser_new (string_stream doc) path).
Definition parse_istream (contents path : bytes) : outcome table := parse_stream (parser_new (file_stream contents) path).

(** What [parse_file] finds at its path. *)
Inductive file := CannotOpen | NoSize | File (contents : bytes).

(** [parse_file] *)
Definition parse_file (f : file) (path : bytes) : outcome table :=
  let fail what := Throws (mk_parse_error what (mk_region (mk_pos 0 0) (mk_pos 0 0) (Some path))) in
  match f with
  | CannotOpen => fail (bs "File could not be opened for reading")
  | NoSize => fail (bs "Could not determine file size")
  | File contents =>
    if Z.of_nat (length contents) <=? 1024 * 1024 * 8 * 4 then parse contents path
    else parse_istream contents path
  end.
