(* ===== verification/TomlSafety.v ===== *)
(** * TomlSafety: the TOML parser terminates and stays within its text

    A program logic for the parser monad ([TomlParser.v]) and, with it, the
    specifications of the functions that read: every loop ends, the current
    character is never read past the end of the text, and the only undefined
    behaviour left is that of the two overflows of [parse_float] and
    [parse_integer]. *)
From Stdlib Require Import SpecFloat.
From S2P Require Import Prelude Bytes Env TomlNode TomlUtf8 TomlParser TomlScalar.

Local Open Scope Z_scope.

(** ** The cursor *)

(** The reader and the current character agree. *)
Definition ready (s : parser) : Prop :=
  0 ≤ br_negative_offset (reader s) ∧ 0 ≤ br_count (reader s) ∧
  (br_head (reader s) = None → br_count (reader s) ≠ 0) ∧
  (cp s = None ↔ br_negative_offset (reader s) = 0 ∧ br_head (reader s) = None).

(** What reading leaves alone: the tree and the vectors of the document. *)
Record same (s s' : parser) : Prop := mk_same {
  same_path : source_path s' = source_path s;
  same_root : root s' = root s;
  same_arrays : table_arrays s' = table_arrays s;
  same_addr : (next_addr s ≤ next_addr s')%positive;
}.

(** The parser after at least [k] more characters. *)
Definition after (k : nat) (s s' : parser) : Prop :=
  ready s' ∧ (reads_left s' + k ≤ reads_left s)%nat ∧ same s s'.

#[global] Instance same_refl : Reflexive same.
Proof. intros s. split; done || lia. Qed.
#[global] Instance same_trans : Transitive same.
Proof. intros s1 s2 s3 [] []. split; congruence || lia. Qed.

Lemma after_refl s : ready s → after 0 s s.
Proof. intros. split; [done|]. split; [lia|done]. Qed.

Lemma after_trans k1 k2 s1 s2 s3 : after k1 s1 s2 → after k2 s2 s3 → after (k1 + k2) s1 s3.
Proof. intros (_ & H1 & H2) (? & H3 & H4). split; [done|]. split; [lia|by etransitivity]. Qed.

Lemma after_weaken k k' s s' : (k' ≤ k)%nat → after k s s' → after k' s s'.
Proof. intros ? (? & ? & ?). split; [done|]. split; [lia|done]. Qed.

(** ** Weakest preconditions *)

(** Exceptions carry the path of the document. *)
Definition pwp {A} (m : P A) (Q : A → parser → Prop) (s : parser) : Prop :=
  match m s with
  | Done a s' => Q a s'
  | Throws e => reg_path (pe_source e) = source_path s
  | Undefined u => u = BufferOverflow ∨ u = SignedOverflow
  | OutOfFuel => False
  end.

Section pwp.
Context {A B : Type}.
Implicit Types (Q : A → parser → Prop) (s : parser).

Lemma pwp_ret (a : A) Q s : Q a s → pwp (mret a) Q s.
Proof. done. Qed.

(** The path is the same all along. *)
Lemma pwp_bind (m : P A) (k : A → P B) (R : B → parser → Prop) s :
  pwp m (λ a s', source_path s' = source_path s ∧ pwp (k a) R s') s → pwp (m ≫= k) R s.
Proof.
  unfold pwp, mbind, P_bind. destruct (m s) as [a s'|e|u|]; try done.
  intros [Hp Hk]. destruct (k a s') as [b s''|e|u|]; try done. by rewrite <- Hp.
Qed.

Lemma pwp_mono (m : P A) Q Q' s : pwp m Q s → (∀ a s', Q a s' → Q' a s') → pwp m Q' s.
Proof. unfold pwp. intros Hm HQ. destruct (m s); auto. Qed.

Lemma pwp_gets (f : parser → A) Q s : Q (f s) s → pwp (gets f) Q s.
Proof. done. Qed.

Lemma pwp_set_error_at pos l Q s : pwp (set_error_at pos l) Q s.
Proof. done. Qed.
Lemma pwp_set_error l Q s : pwp (set_error l) Q s.
Proof. done. Qed.

Lemma pwp_saw l Q s : is_Some (cp s) → pwp (saw l) Q s.
Proof. intros [c Hc]. unfold saw, pwp, mbind, P_bind, cur. by rewrite Hc. Qed.

Lemma pwp_overflow u Q s : u = BufferOverflow ∨ u = SignedOverflow → pwp (undefined u) Q s.
Proof. done. Qed.

Lemma pwp_if (b : bool) (m1 m2 : P A) Q s :
  (b = true → pwp m1 Q s) → (b = false → pwp m2 Q s) → pwp (if b then m1 else m2) Q s.
Proof. destruct b; auto. Qed.

Lemma pwp_looping (loop : nat → P A) Q s :
  (∀ n, (reads_left s < n)%nat → pwp (loop n) Q s) → pwp (looping loop) Q s.
Proof. intros H. apply H. lia. Qed.
End pwp.

Lemma pwp_cur (Q : utf8_codepoint → parser → Prop) s :
  is_Some (cp s) → (∀ c, cp s = Some c → Q c s) → pwp cur Q s.
Proof. intros [c Hc] HQ. unfold pwp, cur. rewrite Hc. by apply HQ. Qed.

Lemma pwp_is_eof (Q : bool → parser → Prop) s :
  (cp s = None → Q true s) → (is_Some (cp s) → Q false s) → pwp is_eof Q s.
Proof. intros H1 H2. unfold pwp, is_eof, gets. destruct (cp s) as [c|]; cbn; [by apply H2|by apply H1]. Qed.

Lemma pwp_set_error_if_eof (Q : unit → parser → Prop) s :
  (is_Some (cp s) → Q () s) → pwp set_error_if_eof Q s.
Proof.
  intros HQ. unfold pwp, set_error_if_eof, mbind, P_bind, is_eof, gets. destruct (cp s) eqn:E; cbn; [by apply HQ|done].
Qed.

(** ** Reading *)
Lemma decode_loop_shorter r seq d stream c r' :
  decode_loop r seq d stream = ReadChar c r' → (length (rd_stream r') < length stream)%nat.
Proof.
  revert seq d. induction stream as [|b l IH]; intros seq d; cbn [decode_loop].
  - by destruct (utf8_decoder.needs_more_input d).
  - destruct (utf8_decoder.error _); [done|]. destruct (utf8_decoder.has_code_point _).
    + intros [= <- <-]. cbn. lia.
    + intros H%IH. cbn. lia.
Qed.

Lemma read_next_shorter r c r' :
  read_next r = ReadChar c r' → (length (rd_stream r') < length (rd_stream r))%nat.
Proof. unfold read_next. destruct (rd_stream r) eqn:E; [done|]. rewrite <- E. apply decode_loop_shorter. Qed.

(** One read of the buffered reader, as [advance] sees it. *)
Lemma advance_spec s :
  ready s → is_Some (cp s) →
  match advance s with
  | Done _ s' =>
    after 1 s s' ∧ (2 ≤ br_negative_offset (reader s) →
      is_Some (cp s') ∧ br_negative_offset (reader s') = br_negative_offset (reader s) - 1)
  | Throws e => reg_path (pe_source e) = source_path s
  | _ => False
  end.
Proof.
  intros (Hoff & Hcnt & Hhead & Hcp) [c Hc]. unfold advance. rewrite Hc. unfold buffered_read_next.
  assert (¬ (br_negative_offset (reader s) = 0 ∧ br_head (reader s) = None)) as Hn by (rewrite <- Hcp, Hc; done).
  destruct (Z.eqb_spec (br_negative_offset (reader s)) 0) as [H0|H0]; cbn [negb].
  - destruct (br_head (reader s)) as [h|] eqn:Hh; [|by destruct Hn].
    destruct (read_next (br_reader (push_history (reader s) h))) as [c' r'|r'|what pos] eqn:E; cbn [set_head]; [| |done].
    + assert (br_reader (push_history (reader s) h) = br_reader (reader s)) as Hr
        by (unfold push_history; by destruct (_ <? _)).
      rewrite Hr in E. apply read_next_shorter in E. split; [|lia].
      split; [|split; [|done]].
      * unfold ready. cbn. split; [done|]. split; [unfold push_history; destruct (_ <? _); cbn; lia|]. naive_solver.
      * unfold reads_left. cbn. rewrite Hh. lia.
    + split; [|lia]. split; [|split; [|done]].
      * unfold ready. cbn. split; [done|].
        assert (0 < br_count (push_history (reader s) h)).
        { unfold push_history. destruct (Z.ltb_spec (br_count (reader s)) history_buffer_size); cbn; [lia|].
          unfold history_buffer_size, max_history_length in *. lia. }
        naive_solver lia.
      * unfold reads_left. cbn. rewrite Hh. lia.
  - cbv zeta. destruct (Z.eqb_spec (br_negative_offset (reader s) - 1) 0) as [H1|H1].
    + destruct (br_head (reader s)) as [h|] eqn:Hh; (split; [|lia]); (split; [|split; [|done]]).
      * unfold ready. cbn. rewrite ?Hh. naive_solver lia.
      * unfold reads_left. cbn. rewrite Hh. lia.
      * unfold ready. cbn. rewrite ?Hh. naive_solver lia.
      * unfold reads_left. cbn. rewrite Hh. lia.
    + split; [|cbn; split; [by eexists|lia]]. split; [|split; [|done]].
      * unfold ready. cbn. naive_solver lia.
      * unfold reads_left. cbn. lia.
Qed.

Lemma pwp_advance (Q : unit → parser → Prop) s :
  ready s → is_Some (cp s) → (∀ s', after 1 s s' → Q () s') → pwp advance Q s.
Proof.
  intros Hr Hc HQ. pose proof (advance_spec s Hr Hc) as H. unfold pwp.
  destruct (advance s) as [[] s'|e|u|]; [apply HQ, H|done..].
Qed.

Lemma pwp_advance_not_eof (Q : unit → parser → Prop) s :
  ready s → is_Some (cp s) → (∀ s', after 1 s s' → is_Some (cp s') → Q () s') → pwp advance_not_eof Q s.
Proof.
  intros Hr Hc HQ. unfold advance_not_eof. apply pwp_bind, pwp_advance; [done..|]. intros s' Ha.
  split; [apply Ha|]. apply pwp_set_error_if_eof. auto.
Qed.

Lemma pwp_go_back n (Q : unit → parser → Prop) s :
  ready s → 0 < n →
  (∀ s', ready s' → (Z.of_nat (reads_left s') = Z.of_nat (reads_left s) + n) → same s s' → is_Some (cp s') →
     br_negative_offset (reader s') = br_negative_offset (reader s) + n → Q () s') →
  pwp (go_back n) Q s.
Proof.
  intros (Hoff & Hcnt & Hhead & Hcp) Hn HQ. unfold pwp, go_back, step_back. apply HQ; try done.
  - unfold ready. cbn. naive_solver lia.
  - unfold reads_left. cbn. lia.
Qed.

(** A step that leaves the reader alone. *)
Lemma pwp_modify (f : parser → parser) (Q : unit → parser → Prop) s :
  ready s → reader (f s) = reader s → cp (f s) = cp s → same s (f s) →
  (∀ s', after 0 s s' → cp s' = cp s → reader s' = reader s → Q () s') → pwp (modify f) Q s.
Proof.
  intros Hr H1 H2 H3 HQ. unfold pwp, modify. apply HQ; [|done..]. unfold after, ready, reads_left. rewrite H1, H2.
  split; [done|]. split; [lia|done].
Qed.

Lemma pwp_scoped {A} scope (m : P A) (Q : A → parser → Prop) s :
  ready s →
  (∀ s0, after 0 s s0 → cp s0 = cp s → reader s0 = reader s →
     pwp m (λ a s', ready s' ∧ same s0 s' ∧
       ∀ s'', after 0 s' s'' → cp s'' = cp s' → reader s'' = reader s' → Q a s'') s0) →
  pwp (scoped scope m) Q s.
Proof.
  intros Hr Hm. unfold scoped. apply pwp_bind, pwp_gets. split; [done|].
  apply pwp_bind, pwp_modify; [done..|]. intros s0 Ha Hc Hrd. split; [apply Ha|].
  apply pwp_bind. eapply pwp_mono; [by apply Hm|]. cbn. intros a s' (Hr' & Hs & HQ).
  split; [apply Hs|]. apply pwp_bind, pwp_modify; [done..|]. intros s'' Ha' Hc' Hrd'.
  split; [apply Ha'|]. by apply HQ.
Qed.

(** ** Sequences of steps *)
Section seq.
Context {A B : Type}.
Implicit Types (k : A → P B) (R : B → parser → Prop) (s : parser).

(** A call whose specification is known. *)
Lemma pwp_call (m : P A) k R (j : nat) (φ : A → parser → Prop) s :
  pwp m (λ a s', after j s s' ∧ φ a s') s →
  (∀ a s', after j s s' → φ a s' → pwp (k a) R s') → pwp (m ≫= k) R s.
Proof.
  intros Hm Hk. apply pwp_bind. eapply pwp_mono; [exact Hm|]. intros a s' [Ha Hφ].
  split; [apply Ha|]. by apply Hk.
Qed.

Lemma pwp_bind_ret (a : A) k R s : pwp (k a) R s → pwp (mret a ≫= k) R s.
Proof. done. Qed.

Lemma pwp_bind_gets (f : parser → A) k R s : pwp (k (f s)) R s → pwp (gets f ≫= k) R s.
Proof. done. Qed.

Lemma pwp_bind_set_error l k R s : pwp (set_error l ≫= k) R s.
Proof. done. Qed.

Lemma pwp_bind_saw l k R s : is_Some (cp s) → pwp (saw l ≫= k) R s.
Proof. intros. by apply pwp_bind, pwp_saw. Qed.

Lemma pwp_bind_if (b : bool) (m1 m2 : P A) k R s :
  (b = true → pwp (m1 ≫= k) R s) → (b = false → pwp (m2 ≫= k) R s) →
  pwp ((if b then m1 else m2) ≫= k) R s.
Proof. destruct b; auto. Qed.

Lemma pwp_bind_assoc {C} (m : P C) (f : C → P A) k R s :
  pwp (m ≫= λ c, f c ≫= k) R s → pwp ((m ≫= f) ≫= k) R s.
Proof. unfold pwp, mbind, P_bind. by destruct (m s). Qed.
End seq.

Section seq_unit.
Context {B : Type}.
Implicit Types (R : B → parser → Prop) (s : parser).

Lemma pwp_bind_cur (k : utf8_codepoint → P B) R s :
  is_Some (cp s) → (∀ c, cp s = Some c → pwp (k c) R s) → pwp (cur ≫= k) R s.
Proof. intros Hc Hk. apply pwp_bind, pwp_cur; [done|]. auto. Qed.

Lemma pwp_bind_is_eof (k : bool → P B) R s :
  (cp s = None → pwp (k true) R s) → (is_Some (cp s) → pwp (k false) R s) → pwp (is_eof ≫= k) R s.
Proof. intros H1 H2. apply pwp_bind, pwp_is_eof; auto. Qed.

Lemma pwp_bind_if_eof (k : unit → P B) R s :
  (is_Some (cp s) → pwp (k ()) R s) → pwp (set_error_if_eof ≫= k) R s.
Proof. intros H. apply pwp_bind, pwp_set_error_if_eof. auto. Qed.

Lemma pwp_bind_advance (k : unit → P B) R s :
  ready s → is_Some (cp s) → (∀ s', after 1 s s' → pwp (k ()) R s') → pwp (advance ≫= k) R s.
Proof. intros Hr Hc Hk. apply pwp_bind, pwp_advance; [done..|]. intros s' Ha. split; [apply Ha|auto]. Qed.

Lemma pwp_bind_advance_not_eof (k : unit → P B) R s :
  ready s → is_Some (cp s) → (∀ s', after 1 s s' → is_Some (cp s') → pwp (k ()) R s') →
  pwp (advance_not_eof ≫= k) R s.
Proof. intros Hr Hc Hk. apply pwp_bind, pwp_advance_not_eof; [done..|]. intros s' Ha Hc'. split; [apply Ha|auto]. Qed.

Lemma pwp_bind_modify f (k : unit → P B) R s :
  ready s → reader (f s) = reader s → cp (f s) = cp s → same s (f s) →
  (∀ s', after 0 s s' → cp s' = cp s → pwp (k ()) R s') → pwp (modify f ≫= k) R s.
Proof. intros Hr H1 H2 H3 Hk. apply pwp_bind, pwp_modify; [done..|]. intros s' Ha Hc _. split; [apply Ha|auto]. Qed.
End seq_unit.

(** A scope around a call. *)
Lemma pwp_scoped_after {A} scope (m : P A) (j : A → parser → nat) (φ : A → Prop) s :
  ready s →
  (∀ s0, after 0 s s0 → cp s0 = cp s → reader s0 = reader s → pwp m (λ a s', after (j a s0) s0 s' ∧ φ a) s0) →
  (∀ a s0, after 0 s s0 → cp s0 = cp s → reader s0 = reader s → j a s0 = j a s) →
  pwp (scoped scope m) (λ a s', after (j a s) s s' ∧ φ a) s.
Proof.
  intros Hr Hm Hj. apply pwp_scoped; [done|]. intros s0 Ha Hc Hrd.
  eapply pwp_mono; [by apply Hm|]. cbn. intros a s' [Ha' Hφ]. split; [apply Ha'|]. split; [apply Ha'|].
  intros s'' Ha'' _ _. split; [|done]. rewrite <- (Hj a s0) by done.
  apply (after_weaken (0 + (j a s0 + 0))); [lia|]. eapply after_trans; [done|]. by eapply after_trans.
Qed.

(** ** Tactics *)
Ltac solve_ready :=
  match goal with
  | H : ready ?s |- ready ?s => exact H
  | H : after _ _ ?s |- ready ?s => exact (proj1 H)
  end.

Ltac solve_some :=
  first
  [ assumption
  | match goal with H : cp ?s = Some _ |- is_Some (cp ?s) => rewrite H; eexists; reflexivity end
  | match goal with H : cp ?s = cp ?s0 |- is_Some (cp ?s) => rewrite H; solve_some end ].

Ltac concrete_le := first [apply Nat.leb_le; reflexivity|lia].

(** [after] along the states passed through. *)
Ltac chain :=
  lazymatch goal with
  | |- after ?k ?s ?s => apply after_refl; solve_ready
  | H : after ?j ?s ?s' |- after ?k ?s ?s' => apply (after_weaken j k); [concrete_le|exact H]
  | H : after ?j ?x ?s' |- after ?k ?s ?s' =>
    apply (after_weaken ((k - j) + j) k); [concrete_le|]; apply (after_trans (k - j) j s x s'); [cbn [Nat.sub]; chain|exact H]
  end.

(** Bounds on the reads left. *)
Ltac measure := repeat match goal with H : after _ _ _ |- _ => destruct H as (_ & H & _) end; lia.

Ltac pwp_go :=
  repeat lazymatch goal with
  | |- pwp (let _ := _ in _) _ _ => cbv zeta
  | |- pwp (set_error _) _ _ => apply pwp_set_error
  | |- pwp (set_error_at _ _) _ _ => apply pwp_set_error_at
  | |- pwp (saw _) _ _ => apply pwp_saw; solve_some
  | |- pwp (mret _) _ _ => apply pwp_ret
  | |- pwp (if _ then _ else _) _ _ => apply pwp_if; intros ?
  | |- pwp (mret _ ≫= _) _ _ => apply pwp_bind_ret
  | |- pwp (gets _ ≫= _) _ _ => apply pwp_bind_gets
  | |- pwp (set_error _ ≫= _) _ _ => apply pwp_bind_set_error
  | |- pwp (saw _ ≫= _) _ _ => apply pwp_bind_saw; solve_some
  | |- pwp (cur ≫= _) _ _ => apply pwp_bind_cur; [solve_some|intros ? ?]
  | |- pwp (is_eof ≫= _) _ _ => apply pwp_bind_is_eof; intros ?
  | |- pwp (set_error_if_eof ≫= _) _ _ => apply pwp_bind_if_eof; intros ?
  | |- pwp (advance ≫= _) _ _ => apply pwp_bind_advance; [solve_ready|solve_some|intros ? ?]
  | |- pwp (advance_not_eof ≫= _) _ _ => apply pwp_bind_advance_not_eof; [solve_ready|solve_some|intros ? ? ?]
  | |- pwp (modify _ ≫= _) _ _ =>
    apply pwp_bind_modify; [solve_ready|reflexivity|reflexivity|split; cbn; done || lia|intros ? ? ?]
  | |- pwp ((if _ then _ else _) ≫= _) _ _ => apply pwp_bind_if; intros ?
  | |- pwp ((_ ≫= _) ≫= _) _ _ => apply pwp_bind_assoc
  end.

(** ** Blanks *)
Definition consumed (b : bool) (s s' : parser) : Prop :=
  after (if b then 1 else 0) s s' ∧ (b = false → s' = s).

Lemma skip_whitespace_spec n s b :
  ready s → (reads_left s < n)%nat →
  pwp (skip_whitespace n b) (λ b' s', after 0 s s' ∧ (b' = b ∧ s' = s ∨ b' = true ∧ after 1 s s')) s.
Proof.
  revert s b. induction n as [|n IH]; intros s b Hr Hn; [lia|]. cbn [skip_whitespace]. pwp_go.
  - split; [chain|by left].
  - eapply pwp_mono; [apply IH; [solve_ready|measure]|].
    cbn. intros b' s1 [Ha Hb]. split; [chain|right]. split; [by destruct Hb as [[-> _]|[-> _]]|chain].
  - split; [chain|by left].
Qed.

Lemma consume_leading_whitespace_spec s :
  ready s → pwp consume_leading_whitespace (λ b s', after 0 s s' ∧ consumed b s s') s.
Proof.
  intros Hr. apply pwp_looping. intros n Hn. eapply pwp_mono; [by apply skip_whitespace_spec|]. cbn.
  intros b s' [Ha [[-> ->]|[-> Hb]]]; (split; [done|]); split; done.
Qed.

Lemma consume_line_break_spec s :
  ready s →
  pwp consume_line_break (λ b s', after 0 s s' ∧ consumed b s s' ∧
    (∀ c, cp s = Some c → is_line_break true (value c) = true → b = true)) s.
Proof.
  intros Hr. unfold consume_line_break. pwp_go; (split; [chain|]); (split; [split; [chain|done]|]); try done.
  - congruence.
  - intros c' Hc' Hl. rewrite Hc' in *. simplify_eq. by rewrite Hl in *.
Qed.

Lemma skip_comment_spec n s :
  ready s → (reads_left s < n)%nat → pwp (skip_comment n) (λ b s', after 0 s s' ∧ b = true) s.
Proof.
  revert s. induction n as [|n IH]; intros s Hr Hn; [lia|]. cbn [skip_comment]. pwp_go; [by split; [chain|]|].
  eapply pwp_call; [by apply consume_line_break_spec|]. intros b s' Ha [[_ Hb] _].
  destruct b; cbn iota; [apply pwp_ret; by split; [chain|]|]. rewrite (Hb eq_refl) in *. pwp_go.
  eapply pwp_mono; [apply IH; [solve_ready|measure]|]. cbn. intros b' s1 [Ha' ->]. split; [chain|done].
Qed.

Lemma consume_comment_spec s :
  ready s → pwp consume_comment (λ b s', after 0 s s' ∧ consumed b s s') s.
Proof.
  intros Hr. unfold consume_comment. pwp_go; [by split; [chain|]; split; [chain|]..|].
  apply pwp_scoped; [done|]. intros s0 Ha Hc _. pwp_go.
  eapply pwp_mono; [apply pwp_looping; intros n Hn; apply skip_comment_spec; [solve_ready|done]|]. cbn.
  intros b s2 [Ha2 ->]. split; [solve_ready|]. split; [apply (after_trans _ _ _ _ _ H2 Ha2)|].
  intros s3 Ha3 _ _. split; [chain|]. split; [chain|done].
Qed.

(** ** Fixed sequences *)
Definition digits (ds : list Z) : Prop := Forall (λ d, 0 ≤ d ≤ 9) ds.

Lemma decimal_digit_value c : is_decimal_digit c = true → 0 ≤ c - U "0" ≤ 9.
Proof. unfold is_decimal_digit. change (U "0") with 48. change (U "9") with 57. lia. Qed.

(** The rest of a loop after one step. *)
Ltac by_IH IH := eapply pwp_mono; [apply IH; [solve_ready|measure..]|].

Lemma consume_expected_sequence_spec seq s :
  ready s →
  pwp (consume_expected_sequence seq)
    (λ b s', after (if b then length seq else 0) s s' ∧ (b = false → is_Some (cp s'))) s.
Proof.
  revert s. induction seq as [|x seq IH]; intros s Hr; cbn [consume_expected_sequence]; pwp_go.
  - split; [cbn; chain|done].
  - split; [chain|by rewrite H0].
  - by_IH IH. cbn. intros b s2 [Ha Hb]. split; [|done]. destruct b; cbn [length]; [|chain].
    apply (after_trans 1 (length seq) _ _ _ H2 Ha).
Qed.

Lemma consume_digit_sequence_spec len s :
  ready s →
  pwp (consume_digit_sequence len) (λ r s',
    after (match r with Some _ => len | None => 0 end) s s' ∧
    match r with Some ds => length ds = len ∧ digits ds | None => is_Some (cp s') end) s.
Proof.
  revert s. induction len as [|len IH]; intros s Hr; cbn [consume_digit_sequence]; pwp_go.
  - split; [chain|]. split; [done|constructor].
  - split; [chain|solve_some].
  - apply pwp_bind. by_IH IH. intros [ds|] s2 [Ha Hds].
    + split; [apply Ha|]. apply pwp_ret. cbn. destruct Hds as [Hl Hd].
      split; [apply (after_trans 1 len _ _ _ H2 Ha)|]. split; [lia|]. constructor; [|done].
      by apply decimal_digit_value, negb_false_iff.
    + split; [apply Ha|]. apply pwp_ret. cbn. split; [chain|done].
Qed.

Lemma consume_variable_length_digit_sequence_spec n s :
  ready s →
  pwp (consume_variable_length_digit_sequence n)
    (λ ds s', after 0 s s' ∧ digits ds ∧ (length ds ≤ n)%nat) s.
Proof.
  revert s. induction n as [|n IH]; intros s Hr; cbn [consume_variable_length_digit_sequence]; pwp_go;
    [by (split; [chain|]; split; [constructor|cbn; lia])..|].
  eapply pwp_call; [apply IH; solve_ready|]. intros ds s2 Ha [Hd Hl]. apply pwp_ret.
  split; [chain|]. split; [|cbn; lia]. constructor; [|done]. by apply decimal_digit_value, negb_false_iff.
Qed.

(** ** Strings *)
Lemma escape_digits_spec n place seq s :
  ready s → 0 ≤ place < 16 ^ Z.of_nat n → pwp (escape_digits (S n) place seq) (λ v s', after 0 s s' ∧ True) s.
Proof.
  revert place seq s. induction n as [|n IH]; intros place seq s Hr Hp.
  - assert (place = 0) as -> by (cbn in Hp; lia). cbn. split; [chain|done].
  - change (escape_digits (S (S n)) place seq) with
      (if place =? 0 then mret seq else
       set_error_if_eof;; c ← cur;
       if negb (is_hexadecimal_digit (value c)) then set_error [bs "expected hex digit, saw '"; to_sv c; bs "'"]
       else advance;; escape_digits (S n) (place / 16) (u32 (seq + u32 (place * hex_to_dec (value c))))).
    pwp_go; [split; [chain|done]|].
    eapply pwp_mono; [apply IH; [solve_ready|]|cbn; intros v s2 [Ha _]; split; [chain|done]].
    rewrite Nat2Z.inj_succ, Z.pow_succ_r in Hp by lia.
    split; [apply Z.div_pos; lia|apply Z.div_lt_upper_bound; lia].
Qed.

Lemma unicode_escape_spec c s :
  ready s → is_Some (cp s) → pwp (unicode_escape c) (λ b s', after 1 s s' ∧ True) s.
Proof.
  intros Hr Hc. unfold unicode_escape. apply (pwp_scoped_after _ _ (λ _ _, 1%nat)); [done| |done].
  intros s0 Ha Hc0 _. pwp_go.
  eapply pwp_call.
  { apply (escape_digits_spec 8); [solve_ready|]. repeat case_match; lia. }
  intros v s2 Ha2 _. pwp_go. by split; [chain|].
Qed.

Lemma parse_escape_spec s : ready s → is_Some (cp s) → pwp parse_escape (λ b s', after 1 s s' ∧ True) s.
Proof.
  intros Hr Hc. unfold parse_escape. pwp_go; [by split; [chain|]..|]. by apply unicode_escape_spec.
Qed.

Lemma count_delimiters_spec n d k s :
  ready s → is_Some (cp s) →
  pwp (count_delimiters n d k) (λ r s',
    after (Nat.min 1 n) s s' ∧ (k ≤ r ≤ k + n)%nat ∧ (r = k + n → is_Some (cp s'))%nat) s.
Proof.
  revert k s. induction n as [|n IH]; intros k s Hr Hc; cbn [count_delimiters]; pwp_go.
  - split; [chain|]. split; [lia|done].
  - eapply pwp_mono; [apply IH; [solve_ready|]|].
    + destruct (cp s'); [by eexists|done].
    + cbn. intros r s2 (Ha & Hk & Hs). split; [chain|]. split; [lia|]. intros ?. apply Hs. lia.
  - split; [chain|]. split; [lia|lia].
Qed.

Lemma close_multi_line_spec d str s :
  ready s → is_Some (cp s) → pwp (close_multi_line d str) (λ _ s', after 1 s s' ∧ True) s.
Proof.
  intros Hr Hc. unfold close_multi_line. eapply pwp_call; [by apply count_delimiters_spec|].
  cbn [Nat.min]. intros r s1 Ha [Hk Hs]. do 5 (destruct r as [|r]; [first [lia|apply pwp_ret; by split]|]).
  assert (r = O) as -> by lia. specialize (Hs eq_refl). pwp_go. split; [chain|done].
Qed.

(** One character of a string. *)
Definition reads_one (step : bytes → bool → bool → P string_step) : Prop :=
  ∀ str e sk s, ready s → is_Some (cp s) → pwp (step str e sk) (λ _ s', after 1 s s' ∧ True) s.

Lemma basic_string_step_spec multi_line : reads_one (basic_string_step multi_line).
Proof.
  intros str e sk s Hr Hc. unfold basic_string_step. pwp_go.
  - unfold escaped_step. pwp_go.
    + eapply pwp_call; [by apply consume_leading_whitespace_spec|]. intros b s1 Ha1 _.
      eapply pwp_call; [apply consume_line_break_spec; solve_ready|]. intros b' s2 Ha2 [[Hb _] _]. pwp_go.
      destruct b'; [|done]. by split; [chain|].
    + eapply pwp_call; [by apply parse_escape_spec|]. intros b s1 Ha _. apply pwp_ret. by split; [chain|].
  - by apply close_multi_line_spec.
  - by split; [chain|].
  - by split; [chain|].
  - unfold plain_step. pwp_go; try by (split; [chain|]).
    eapply pwp_call; [by apply consume_line_break_spec|]. intros b s1 Ha [[Hb1 Hb2] Hb3]. apply pwp_ret.
    assert (b = true) as ->. { eapply Hb3; [done|]. by apply andb_true_iff in H4 as [_ ?]. }
    by split; [chain|].
Qed.

Lemma literal_string_step_spec multi_line : reads_one (literal_string_step multi_line).
Proof.
  intros str e sk s Hr Hc. unfold literal_string_step. pwp_go; try by (split; [chain|]).
  - by apply close_multi_line_spec.
  - eapply pwp_call; [by apply consume_line_break_spec|]. intros b s1 Ha [[Hb1 Hb2] Hb3]. apply pwp_ret.
    assert (b = true) as ->. { eapply Hb3; [done|]. by apply andb_true_iff in H1 as [_ ?]. }
    by split; [chain|].
Qed.

Lemma string_loop_spec step n str e sk s :
  reads_one step → ready s → is_Some (cp s) → (reads_left s < n)%nat →
  pwp (string_loop step n str e sk) (λ _ s', after 1 s s' ∧ True) s.
Proof.
  intros Hstep. revert str e sk s. induction n as [|n IH]; intros str e sk s Hr Hc Hn; [lia|]. cbn [string_loop].
  eapply pwp_call; [by apply Hstep|]. intros [str'|str' e' sk'] s1 Ha _; pwp_go; [by split|].
  eapply pwp_mono; [apply IH; [solve_ready|done|measure]|]. cbn. intros b s2 [Ha2 _]. by split; [chain|].
Qed.

Lemma string_spec scope multi_line step s :
  reads_one step → ready s → is_Some (cp s) →
  pwp (scoped scope (string_start multi_line;; looping (λ n, string_loop step n [] false false)))
    (λ _ s', after 1 s s' ∧ True) s.
Proof.
  intros Hstep Hr Hc. apply (pwp_scoped_after _ _ (λ _ _, 1%nat)); [done| |done]. intros s0 Ha Hc0 _.
  unfold string_start. pwp_go.
  - eapply pwp_call; [apply consume_line_break_spec; solve_ready|]. intros b s2 Ha2 _. pwp_go.
    apply pwp_looping. intros n Hn. eapply pwp_mono; [apply string_loop_spec; [done|solve_ready|done|done]|].
    cbn. intros r s3 [Ha3 _]. by split; [chain|].
  - apply pwp_looping. intros n Hn. eapply pwp_mono; [apply string_loop_spec; [done|solve_ready|done|done]|].
    cbn. intros r s3 [Ha3 _]. by split; [chain|].
Qed.

Lemma parse_string_spec s :
  ready s → is_Some (cp s) → pwp parse_string (λ _ s', after 1 s s' ∧ True) s.
Proof.
  intros Hr Hc. unfold parse_string. apply (pwp_scoped_after _ _ (λ _ _, 1%nat)); [done| |done].
  intros s0 Ha Hc0 _. pwp_go. destruct (cp s'0) as [third|] eqn:Hthird; pwp_go.
  - eapply pwp_call; [apply string_spec; [apply literal_string_step_spec|solve_ready|solve_some]|].
    intros r s3 Ha3 _. apply pwp_ret. by split; [chain|].
  - eapply pwp_call; [apply string_spec; [apply basic_string_step_spec|solve_ready|solve_some]|].
    intros r s3 Ha3 _. apply pwp_ret. by split; [chain|].
  - apply pwp_bind, pwp_go_back; [solve_ready|lia|]. intros s3 Hr3 Hl3 Hs3 Hc3 _. split; [apply Hs3|].
    assert (after 0 s0 s3) as Ha3.
    { split; [done|]. split; [measure|]. repeat match goal with H : after _ _ _ |- _ => destruct H as (_ & _ & H) end.
      by repeat (etransitivity; [eassumption|]). }
    pwp_go; (eapply pwp_call; [apply string_spec;
      [first [apply literal_string_step_spec|apply basic_string_step_spec]|solve_ready|done]|]);
      intros r s4 Ha4 _; apply pwp_ret; (by split; [chain|]).
  - by split; [chain|].
Qed.

(** ** Words and floats *)
Lemma expect_value_terminator_spec s :
  ready s → pwp expect_value_terminator (λ _ s', after 0 s s' ∧ s' = s) s.
Proof.
  intros Hr. unfold expect_value_terminator. pwp_go. destruct (cp s) eqn:Hc; pwp_go; (split; [chain|done]).
Qed.

Lemma expect_word_spec w s :
  ready s → pwp (expect_word w) (λ _ s', after (length w) s s' ∧ True) s.
Proof.
  intros Hr. unfold expect_word. apply pwp_bind. eapply pwp_mono; [by apply consume_expected_sequence_spec|].
  intros b s1 [Ha Hb]. split; [apply Ha|]. unfold stop_recording. destruct b; cbn [negb]; pwp_go.
  eapply pwp_mono; [apply expect_value_terminator_spec; solve_ready|]. cbn. intros _ s2 [Ha2 _]. split; [|done].
  apply (after_weaken (length w + (0 + 0))); [lia|]. eapply after_trans; [done|]. by eapply after_trans.
Qed.

Lemma parse_boolean_spec s : ready s → is_Some (cp s) → pwp parse_boolean (λ _ s', after 1 s s' ∧ True) s.
Proof.
  intros Hr Hc. unfold parse_boolean, start_recording. apply (pwp_scoped_after _ _ (λ _ _, 1%nat)); [done| |done].
  intros s0 Ha Hc0 _. pwp_go. eapply pwp_call; [apply expect_word_spec; solve_ready|]. intros _ s2 Ha2 _. apply pwp_ret.
  split; [|done]. destruct (is_match _ _); cbn in Ha2; chain.
Qed.

Lemma parse_inf_or_nan_spec s : ready s → is_Some (cp s) → pwp parse_inf_or_nan (λ _ s', after 1 s s' ∧ True) s.
Proof.
  intros Hr Hc. unfold parse_inf_or_nan, start_recording. apply (pwp_scoped_after _ _ (λ _ _, 1%nat)); [done| |done].
  intros s0 Ha Hc0 _. pwp_go; (eapply pwp_call; [apply expect_word_spec; solve_ready|]); intros _ s2 Ha2 _; apply pwp_ret;
    (split; [|done]); destruct (is_match _ _); cbn in Ha2; chain.
Qed.

(** An exponent was seen only if something was. *)
Definition float_ok (f : float_chars) : Prop := fc_seen_exponent f = true → is_Some (fc_prev f).

Lemma float_store_spec f c d e fip s :
  ready s → is_Some (cp s) → pwp (float_store f c d e fip) (λ f' s', after 1 s s' ∧ float_ok f') s.
Proof.
  intros Hr Hc. unfold float_store. pwp_go; [by split; [chain|eexists]|]. apply pwp_overflow. by left.
Qed.

Lemma float_step_spec f c s :
  ready s → cp s = Some c → float_ok f → pwp (float_step f c) (λ f' s', after 1 s s' ∧ float_ok f') s.
Proof.
  intros Hr Hc Hf. unfold float_step. destruct f as [chars prev sd se fip]. unfold float_ok in Hf. cbn in Hf.
  assert (is_Some (cp s)) as Hs by solve_some.
  pwp_go; try (apply float_store_spec; done).
  - by split; [chain|eexists].
  - destruct prev as [p|]; [|by destruct se; [destruct (Hf eq_refl)|]]. pwp_go. by apply float_store_spec.
  - destruct fip; [case_decide|]; pwp_go; by apply float_store_spec.
Qed.

Lemma float_loop_spec n f s :
  ready s → (reads_left s < n)%nat → float_ok f →
  pwp (float_loop n f) (λ f' s', after 0 s s' ∧ (s' = s ∧ f' = f ∨ after 1 s s')) s.
Proof.
  revert f s. induction n as [|n IH]; intros f s Hr Hn Hf; [lia|]. cbn [float_loop]. pwp_go.
  destruct (cp s) as [c|] eqn:Hc; pwp_go; [by split; [chain|left]| |by split; [chain|left]].
  eapply pwp_call; [by apply float_step_spec|]. intros f' s1 Ha Hf'.
  eapply pwp_mono; [apply IH; [solve_ready|measure|done]|]. cbn. intros f2 s2 [Ha2 _]. split; [chain|right; chain].
Qed.

Lemma parse_float_spec s : ready s → is_Some (cp s) → pwp parse_float (λ _ s', after 1 s s' ∧ True) s.
Proof.
  intros Hr Hc. unfold parse_float. apply (pwp_scoped_after _ _ (λ _ _, 1%nat)); [done| |done].
  intros s0 Ha Hc0 _.
  assert (∀ s1 (neg : bool), ready s1 → (is_Some (cp s1)) → after 0 s0 s1 →
    pwp (f ← looping (λ n, float_loop n (mk_float_chars [] None false false None));
        match fc_prev f with
        | Some p =>
          if p =? U "_" then set_error_if_eof;; set_error [bs "underscores must be followed by digits"]
          else if is_match p ["e"; "E"; "+"; "-"; "."]%byte then
            set_error_if_eof;; saw (bs "expected decimal digit, saw '")
          else mret ()
        | None => mret ()
        end;;
        match extract_double (fc_chars f) with
        | Some x => mret (if neg then SFopp x else x)
        | None => set_error [bs "'"; fc_chars f; bs "' could not be interpreted as a value"]
        end) (λ _ s', after 1 s0 s' ∧ True) s1) as Hgo.
  { intros s1 neg Hr1 Hc1 Ha1. eapply pwp_call.
    { apply pwp_looping. intros n Hn. by apply float_loop_spec. }
    cbn beta. intros f s2 Ha2 Hf.
    assert (pwp (match extract_double (fc_chars f) with
      | Some x => mret (if neg then SFopp x else x)
      | None => set_error [bs "'"; fc_chars f; bs "' could not be interpreted as a value"]
      end) (λ _ s', after 1 s0 s' ∧ True) s2) as Hend.
    { destruct Hf as [[-> ->]|Hf]; [done|]. destruct (extract_double _); pwp_go. split; [chain|done]. }
    destruct (fc_prev f) as [p|]; pwp_go; exact Hend. }
  pwp_go; apply Hgo; first [solve_ready|solve_some|chain].
Qed.

(** ** Integers *)
Definition starts_value (s : parser) : nat :=
  match cp s with Some c => if is_value_terminator (value c) then 0 else 1 | None => 0 end.

Lemma integer_loop_spec t n chars prev s :
  ready s → (reads_left s < n)%nat →
  pwp (integer_loop t n chars prev) (λ _ s', after (starts_value s) s s' ∧ True) s.
Proof.
  revert chars prev s. induction n as [|n IH]; intros chars prev s Hr Hn; [lia|]. cbn [integer_loop].
  unfold starts_value. pwp_go. destruct (cp s) as [c|] eqn:Hc; [|pwp_go; by split; [chain|]].
  destruct (is_value_terminator (value c)) eqn:Ht; pwp_go; [by split; [chain|]|..];
    (eapply pwp_mono; [apply IH; [solve_ready|measure]|]); cbn; intros _ s2 [Ha2 _]; (split; [|done]);
    (eapply (after_trans 1 0); [eassumption|]); by eapply after_weaken; [|exact Ha2]; lia.
Qed.

Lemma integer_value_spec t sign chars s : pwp (integer_value t sign chars) (λ _ s', s' = s) s.
Proof.
  unfold integer_value. pwp_go. destruct chars as [|b [|b' chars]]; [|done|];
    (destruct (drop_zeros _); [done|]); pwp_go; try done; apply pwp_overflow; by right.
Qed.

(** The digits of a base without a prefix are not terminators. *)
Definition traits_ok (t : integer_traits) : Prop :=
  tr_prefix t = None → ∀ c, tr_is_digit t c = true → is_value_terminator c = false.

Lemma traits_decimal : traits_ok decimal_traits.
Proof.
  intros _ c Hc. cbn in Hc. unfold is_decimal_digit in Hc. change (U "0") with 48 in Hc. change (U "9") with 57 in Hc.
  unfold is_value_terminator, is_ascii_line_break, is_ascii_whitespace, is_non_ascii_line_break, is_non_ascii_whitespace.
  change (U " ") with 32. change (U "]") with 93. change (U "}") with 125. change (U ",") with 44. change (U "#") with 35.
  lia.
Qed.

Lemma parse_integer_spec t s :
  traits_ok t → ready s → is_Some (cp s) → pwp (parse_integer t) (λ _ s', after 1 s s' ∧ True) s.
Proof.
  intros Ht Hr Hc. unfold parse_integer. apply (pwp_scoped_after _ _ (λ _ _, 1%nat)); [done| |done].
  intros s0 Ha Hc0 _.
  assert (∀ sign s1, after 0 s0 s1 → (is_Some (cp s1)) → (starts_value s1 = 1%nat ∨ after 1 s0 s1) →
    pwp ('(chars, prev) ← looping (λ n, integer_loop t n [] None);
        (if from_option (λ p, p =? U "_") false prev then
           set_error_if_eof;; set_error [bs "underscores must be followed by digits"]
         else mret ());;
        integer_value t sign chars) (λ _ s', after 1 s0 s' ∧ True) s1) as Hgo.
  { intros sign s1 Ha1 Hc1 Hs1. eapply pwp_call.
    { apply pwp_looping. intros n Hn. apply integer_loop_spec; [solve_ready|done]. }
    intros [chars prev] s2 Ha2 _. cbn beta iota. pwp_go. eapply pwp_mono; [apply integer_value_spec|].
    intros v s3 ->. split; [|done]. destruct Hs1 as [Hs1|Hs1].
    - rewrite Hs1 in Ha2. chain.
    - eapply after_weaken; [|eapply after_trans; [exact Hs1|exact Ha2]]. lia. }
  destruct (tr_prefix t) as [p|] eqn:Hp.
  - pwp_go; apply Hgo; first [solve_some|chain|right; chain].
  - pwp_go; apply Hgo; first
      [ solve_some | chain
      | left; unfold starts_value; match goal with
        | H : cp ?s1 = Some ?c, Hd : negb (tr_is_digit t (value ?c)) = false |- context [cp ?s1] =>
          rewrite H, (Ht Hp) by (by apply negb_false_iff); done
        end ].
Qed.

(** ** Dates and times *)
Definition valid_date (d : date) : Prop :=
  0 ≤ d_year d ≤ 9999 ∧ 1 ≤ d_month d ≤ 12 ∧ 1 ≤ d_day d ≤ max_days_in_month (d_year d) (d_month d).
Definition valid_time (t : time) : Prop :=
  0 ≤ t_hour t ≤ 23 ∧ 0 ≤ t_minute t ≤ 59 ∧ 0 ≤ t_second t ≤ 59 ∧ 0 ≤ t_nanosecond t < 10 ^ 9.
Definition valid_date_time (dt : date_time) : Prop :=
  valid_date (dt_date dt) ∧ valid_time (dt_time dt) ∧
  from_option (λ o, Z.abs o < 24 * 60) True (dt_offset dt).

Lemma digits_value_range ds a :
  digits ds → 0 ≤ a → 0 ≤ foldl (λ a d, a * 10 + d) a ds < (a + 1) * 10 ^ Z.of_nat (length ds).
Proof.
  intros Hd. revert a. induction Hd as [|d ds Hd _ IH]; intros a Ha; cbn [foldl length].
  - rewrite Z.pow_0_r. lia.
  - specialize (IH (a * 10 + d) ltac:(lia)). rewrite Nat2Z.inj_succ, Z.pow_succ_r by lia. nia.
Qed.

Lemma parse_digits_spec len what s :
  ready s →
  pwp (parse_digits len what) (λ v s', after len s s' ∧ 0 ≤ v < 10 ^ Z.of_nat len) s.
Proof.
  intros Hr. unfold parse_digits. apply pwp_bind. eapply pwp_mono; [by apply consume_digit_sequence_spec|].
  intros [ds|] s1 [Ha Hd]; (split; [apply Ha|]); [|by apply pwp_saw]. apply pwp_ret. split; [done|].
  destruct Hd as [<- Hd]. pose proof (digits_value_range ds 0 Hd ltac:(lia)). unfold digits_value. lia.
Qed.

Lemma expect_char_spec b s :
  ready s → is_Some (cp s) → pwp (expect_char b) (λ _ s', after 1 s s' ∧ is_Some (cp s')) s.
Proof.
  intros Hr Hc. unfold expect_char. pwp_go. apply pwp_advance_not_eof; [done|solve_some|auto].
Qed.

Lemma max_days_range y m : 28 ≤ max_days_in_month y m ≤ 31.
Proof. unfold max_days_in_month. repeat case_match; lia. Qed.

(** Steps over the parts of a date. *)
Ltac pwp_parts :=
  repeat first
  [ progress pwp_go
  | lazymatch goal with
    | |- pwp (parse_digits _ _ ≫= _) _ _ => 
      eapply pwp_call; [apply parse_digits_spec; solve_ready|];
      let Hv := fresh "Hv" in intros ? ? ? Hv; cbv beta in Hv;
      let n := lazymatch type of Hv with context [10 ^ Z.of_nat ?n] => n end in
      let v := eval vm_compute in (10 ^ Z.of_nat n) in change (10 ^ Z.of_nat n) with v in Hv
    | |- pwp (expect_char _ ≫= _) _ _ =>
      eapply pwp_call; [apply expect_char_spec; [solve_ready|solve_some]|intros ? ? ? ?]
    | |- pwp (expect_value_terminator ≫= _) _ _ =>
      eapply pwp_call; [apply expect_value_terminator_spec; solve_ready|intros ? ? _ ->]
    end ].

Lemma parse_date_spec b s :
  ready s → pwp (parse_date b) (λ d s', after 1 s s' ∧ valid_date d) s.
Proof.
  intros Hr. unfold parse_date. apply (pwp_scoped_after _ _ (λ _ _, 1%nat)); [done| |done]. intros s0 Ha Hc0 _.
  pwp_parts.
  all: split; [chain|]; unfold valid_date, u16, u8; cbn [d_year d_month d_day].
  all: rewrite !Z.mod_small by lia; lia.
Qed.

Lemma scale_spec n v : 0 ≤ v → v * 10 ^ Z.of_nat n < 2 ^ 32 → scale n v = v * 10 ^ Z.of_nat n.
Proof.
  revert v. induction n as [|n IH]; intros v Hv Hn; cbn [scale]; [by rewrite Z.mul_1_r|].
  rewrite Nat2Z.inj_succ, Z.pow_succ_r in * by lia.
  assert (0 < 10 ^ Z.of_nat n) by (apply Z.pow_pos_nonneg; lia).
  unfold u32. rewrite Z.mod_small by nia. rewrite IH by nia. lia.
Qed.

Lemma fraction_range ds :
  digits ds → (length ds ≤ 9)%nat → 0 ≤ scale (9 - length ds) (digits_value 10 ds) < 10 ^ 9.
Proof.
  intros Hd Hl. pose proof (digits_value_range ds 0 Hd ltac:(lia)) as Hr. fold (digits_value 10 ds) in Hr.
  assert (10 ^ Z.of_nat (length ds) * 10 ^ Z.of_nat (9 - length ds) = 10 ^ 9) as Hp.
  { rewrite <- Z.pow_add_r by lia. f_equal. lia. }
  assert (0 < 10 ^ Z.of_nat (9 - length ds)) by (apply Z.pow_pos_nonneg; lia).
  rewrite scale_spec; nia.
Qed.

Lemma parse_time_spec b s :
  ready s → pwp (parse_time b) (λ t s', after 1 s s' ∧ valid_time t) s.
Proof.
  intros Hr. unfold parse_time. apply (pwp_scoped_after _ _ (λ _ _, 1%nat)); [done| |done]. intros s0 Ha Hc0 _.
  pwp_parts.
  - split; [chain|]. unfold valid_time, u8. cbn. rewrite !Z.mod_small by lia. lia.
  - match goal with |- pwp _ _ ?s1 => assert (is_Some (cp s1)) as Hs by (destruct (cp s1); [by eexists|done]) end.
    pwp_parts. eapply pwp_call; [apply consume_variable_length_digit_sequence_spec; solve_ready|].
    intros ds s6 Ha6 [Hd Hl].
    assert (pwp (mret (mk_time (u8 a) (u8 a1) (u8 a3) (scale (9 - length ds) (digits_value 10 ds))))
      (λ t s', after 1 s0 s' ∧ valid_time t) s6) as Hend.
    { apply pwp_ret. split; [chain|]. pose proof (fraction_range ds Hd Hl). unfold valid_time, u8. cbn -[scale Z.pow].
      rewrite !Z.mod_small by lia. lia. }
    pwp_go. destruct ds as [|d ds]; [pwp_go|]. destruct (cp s6) as [c|] eqn:Hc6; pwp_go; exact Hend.
Qed.

Lemma parse_time_offset_spec s :
  ready s → is_Some (cp s) → pwp parse_time_offset (λ o s', after 1 s s' ∧ Z.abs o < 24 * 60) s.
Proof.
  intros Hr Hc. unfold parse_time_offset. apply (pwp_scoped_after _ _ (λ _ _, 1%nat)); [done| |done].
  intros s0 Ha Hc0 _. pwp_parts. split; [chain|]. destruct (_ =? _); lia.
Qed.

Lemma parse_date_time_spec s :
  ready s → pwp parse_date_time (λ dt s', after 1 s s' ∧ valid_date_time dt) s.
Proof.
  intros Hr. unfold parse_date_time. apply (pwp_scoped_after _ _ (λ _ _, 1%nat)); [done| |done]. intros s0 Ha Hc0 _.
  eapply pwp_call; [apply parse_date_spec; solve_ready|]. intros d s1 Ha1 Hd. pwp_go.
  eapply pwp_call; [apply parse_time_spec; solve_ready|]. intros t s3 Ha3 Ht. pwp_go.
  assert (∀ o s4, after 1 s0 s4 → from_option (λ o, Z.abs o < 24 * 60) True o →
    after 1 s0 s4 ∧ valid_date_time (mk_date_time d t o)) as Hend
    by (intros; by do 3 (split; [done|])).
  destruct (cp s3) as [c3|] eqn:Hc3; pwp_parts; try (apply Hend; [chain|cbn; lia || done]).
  eapply pwp_call; [apply parse_time_offset_spec; [solve_ready|solve_some]|]. intros o s4 Ha4 Ho. pwp_parts.
  apply Hend; [chain|exact Ho].
Qed.
