(* ===== verification/TomlTotal.v ===== *)
(** * TomlTotal: every document is parsed to a well-formed tree, or refused

    The specifications of the part of the parser that builds the tree
    ([TomlDocument.v]), up to the theorem about [toml::parse]: it ends for every
    text; its tables are ordered maps, whatever the text; and it is undefined only
    by the overflows of [parse_float] and [parse_integer]. *)
From Stdlib Require Import SpecFloat Sorted.
From S2P Require Import Prelude Bytes Env TomlNode TomlUtf8 TomlParser TomlScalar TomlDocument TomlSafety.

Local Open Scope Z_scope.

(** ** Well-formed trees *)

(** Induction over a tree. *)
Lemma node_induction (Φ : node → Prop) :
  (∀ a m i r, Forall (λ kv, Φ kv.2) m → Φ (Table a m i r)) →
  (∀ a els r, Forall Φ els → Φ (Array a els r)) →
  (∀ n, (∀ a m i r, n ≠ Table a m i r) → (∀ a els r, n ≠ Array a els r) → Φ n) →
  ∀ n, Φ n.
Proof.
  intros HT HA HL. fix IH 1. intros [a m i r|a els r| | | | | | |]; [| |by apply HL..].
  - apply HT. induction m as [|kv m IHm]; constructor; [apply IH|exact IHm].
  - apply HA. induction els as [|v els IHe]; constructor; [apply IH|exact IHe].
Qed.

Definition is_table (n : node) : Prop := ∃ a m i r, n = Table a m i r.

Section wf.
(** The arrays of tables declared so far, and the first address not used. *)
Variables (arrays : list positive) (fresh : positive).

(** Tables are ordered by key; an array that is an array of tables ends in a
    table. *)
Fixpoint wf_node (n : node) : Prop :=
  match n with
  | Table _ m _ _ => ascending m ∧ foldr (λ kv W, wf_node kv.2 ∧ W) True m
  | Array a els _ =>
    (a < fresh)%positive ∧ (a ∈ arrays → from_option is_table False (last els)) ∧
    foldr (λ v W, wf_node v ∧ W) True els
  | _ => True
  end.

Definition wf_map (m : string_map node) : Prop := ascending m ∧ Forall (λ kv, wf_node kv.2) m.

Lemma wf_table a m i r : wf_node (Table a m i r) ↔ wf_map m.
Proof.
  unfold wf_map. cbn. apply and_iff_compat_l. induction m as [|kv m IH]; cbn; [by split|].
  rewrite IH. by rewrite Forall_cons.
Qed.

Lemma wf_array a els r :
  wf_node (Array a els r) ↔
  (a < fresh)%positive ∧ (a ∈ arrays → from_option is_table False (last els)) ∧ Forall wf_node els.
Proof.
  cbn. do 2 apply and_iff_compat_l. induction els as [|v els IH]; cbn; [by split|].
  rewrite IH. by rewrite Forall_cons.
Qed.

Lemma wf_map_nil : wf_map [].
Proof. split; constructor. Qed.

Lemma wf_map_get m k n : wf_map m → do_get m k = Some n → wf_node n.
Proof. intros [_ Hm] Hk%do_get_elem. rewrite Forall_forall in Hm. by apply (Hm (k, n)). Qed.

Lemma wf_map_emplace m k n : wf_map m → wf_node n → wf_map (emplace k n m).
Proof.
  intros [Ha Hm] Hn. split; [by apply emplace_ascending|]. clear Ha.
  induction Hm as [|[k' x] m Hx Hm IH]; cbn [emplace]; [by repeat constructor|].
  destruct (bytes_compare k k'); repeat (constructor; try done).
Qed.

Lemma wf_map_alter m k n : wf_map m → wf_node n → wf_map (map_alter (λ _, n) k m).
Proof.
  intros [Ha Hm] Hn. split; [by apply map_alter_ascending|]. clear Ha.
  induction Hm as [|[k' x] m Hx Hm IH]; cbn [map_alter]; [constructor|]. case_decide; by constructor.
Qed.

(** The last element of an array, replaced or added. *)
Lemma wf_array_last a els r n :
  wf_node (Array a els r) → wf_node n → is_table n → ∀ els', els' ⊆ els → wf_node (Array a (els' ++ [n]) r).
Proof.
  intros (Ha & Hl & Hels)%wf_array Hn Ht els' Hsub. apply wf_array. split; [done|]. rewrite last_snoc. split; [done|].
  apply Forall_app. split; [|by constructor]. apply Forall_forall. intros x Hx. rewrite Forall_forall in Hels. auto.
Qed.
End wf.

(** More arrays of tables, at new addresses, and more addresses. *)
Definition extends (arrays : list positive) (fresh : positive) (arrays' : list positive) (fresh' : positive) : Prop :=
  (fresh ≤ fresh')%positive ∧ ∀ a, (a < fresh)%positive → a ∈ arrays' → a ∈ arrays.

Lemma wf_node_extends arrays fresh arrays' fresh' n :
  extends arrays fresh arrays' fresh' → wf_node arrays fresh n → wf_node arrays' fresh' n.
Proof.
  intros [Hf Ha]. induction n as [a m i r IH|a els r IH|n H1 H2] using node_induction.
  - rewrite !wf_table. intros [Hs Hm]. split; [done|]. clear Hs. induction IH; inversion Hm; subst; constructor; auto.
  - rewrite !wf_array. intros (Hlt & Hl & Hels). split; [lia|]. split; [auto|].
    clear Hl. induction IH; inversion Hels; subst; constructor; auto.
  - destruct n; try done; [by destruct (H1 addr map inline_ src)|by destruct (H2 addr elements src)].
Qed.

Lemma wf_map_extends arrays fresh arrays' fresh' m :
  extends arrays fresh arrays' fresh' → wf_map arrays fresh m → wf_map arrays' fresh' m.
Proof.
  intros He. rewrite <- !(wf_table _ _ 1 m false no_region). by apply wf_node_extends.
Qed.

(** ** The invariant of the parser *)
Definition addresses (s : parser) : Prop := Forall (λ a, (a < next_addr s)%positive) (table_arrays s).

Abbreviation wf s := (wf_node (table_arrays s) (next_addr s)).
Abbreviation wfm s := (wf_map (table_arrays s) (next_addr s)).

Lemma after_addresses k s s' : after k s s' → addresses s → addresses s'.
Proof.
  intros (_ & _ & [_ _ Harr Haddr]). unfold addresses. rewrite Harr. intros H.
  eapply Forall_impl; [exact H|]. cbn. lia.
Qed.

Lemma after_extends k s s' : after k s s' → extends (table_arrays s) (next_addr s) (table_arrays s') (next_addr s').
Proof. intros (_ & _ & [_ _ Harr Haddr]). split; [done|]. by rewrite Harr. Qed.

Lemma after_wf k s s' n : after k s s' → wf s n → wf s' n.
Proof. intros Ha. by apply wf_node_extends, (after_extends k). Qed.

Lemma after_wfm k s s' m : after k s s' → wfm s m → wfm s' m.
Proof. intros Ha. by apply wf_map_extends, (after_extends k). Qed.

Lemma pwp_bind_alloc {B} (k : positive → P B) R s :
  ready s →
  (∀ s', after 0 s s' → cp s' = cp s → (next_addr s < next_addr s')%positive → pwp (k (next_addr s)) R s') →
  pwp (alloc ≫= k) R s.
Proof.
  intros Hr Hk. unfold alloc. apply pwp_bind_assoc, pwp_bind_gets, pwp_bind_assoc, pwp_bind.
  unfold pwp at 1, modify. split; [done|]. apply pwp_bind_ret. apply Hk; [|done|cbn; lia].
  split; [done|]. split; [unfold reads_left; cbn; lia|]. split; cbn; done || lia.
Qed.

(** ** Keys *)
Lemma bare_key_loop_spec n seg s :
  ready s → (reads_left s < n)%nat → pwp (bare_key_loop n seg) (λ _ s', after 0 s s' ∧ True) s.
Proof.
  revert seg s. induction n as [|n IH]; intros seg s Hr Hn; [lia|]. cbn [bare_key_loop]. pwp_go.
  destruct (cp s) eqn:Hc; pwp_go; [by split; [chain|]| |by split; [chain|]].
  by_IH IH. cbn. intros _ s2 [Ha _]. by split; [chain|].
Qed.

Lemma parse_key_segment_spec segs s :
  ready s → is_Some (cp s) → pwp (parse_key_segment segs) (λ _ s', after 0 s s' ∧ True) s.
Proof.
  intros Hr Hc. unfold parse_key_segment, set_recording_whitespace. pwp_go.
  - apply pwp_looping. intros n Hn. by apply bare_key_loop_spec.
  - eapply pwp_call; [apply parse_string_spec; [solve_ready|solve_some]|]. intros [str ml] s2 Ha2 _. pwp_go.
    by split; [chain|].
Qed.

Lemma key_loop_spec n segs s :
  ready s → is_Some (cp s) → (reads_left s < n)%nat →
  pwp (key_loop n segs) (λ l s', after 0 s s' ∧ l ≠ []) s.
Proof.
  revert segs s. induction n as [|n IH]; intros segs s Hr Hc Hn; [lia|]. cbn [key_loop].
  eapply pwp_call; [by apply parse_key_segment_spec|]. intros seg s1 Ha1 _. cbv zeta.
  eapply pwp_call; [apply consume_leading_whitespace_spec; solve_ready|]. intros _ s2 Ha2 _. pwp_go.
  - split; [chain|by destruct segs].
  - assert (is_Some (cp s2)) as Hc2 by (destruct (cp s2); [by eexists|done]). pwp_go.
    eapply pwp_call; [apply consume_leading_whitespace_spec; solve_ready|]. intros _ s4 Ha4 _. pwp_go.
    eapply pwp_mono; [apply IH; [solve_ready|done|measure]|]. cbn. intros l s5 [Ha5 Hl]. by split; [chain|].
Qed.

Lemma parse_key_spec s :
  ready s → is_Some (cp s) → pwp parse_key (λ l s', after 0 s s' ∧ l ≠ []) s.
Proof.
  intros Hr Hc. unfold parse_key, set_recording_whitespace.
  apply (pwp_scoped_after _ _ (λ _ _, 0%nat)); [done| |done]. intros s0 Ha Hc0 _. pwp_go.
  apply pwp_looping. intros n Hn. eapply pwp_mono; [apply key_loop_spec; [solve_ready|solve_some|done]|].
  cbn. intros l s2 [Ha2 Hl]. by split; [chain|].
Qed.

(** ** The look-ahead *)

(** What was scanned since [s0]. *)
Definition scanned_since (s0 : parser) (sc : scanned) (s : parser) : Prop :=
  ready s ∧ same s0 s ∧ Z.of_nat (reads_left s) + sc_advance_count sc ≤ Z.of_nat (reads_left s0) ∧
  char_count sc ≤ sc_advance_count sc.

Lemma scan_char_count sc c : char_count (scan_char sc c) ≤ char_count sc + 1.
Proof.
  unfold scan_char, char_count. destruct (_ =? _); cbn; [lia|]. rewrite length_app. cbn. lia.
Qed.

Lemma scan_char_advance sc c : sc_advance_count (scan_char sc c) = sc_advance_count sc.
Proof. unfold scan_char. by destruct (_ =? _). Qed.

Lemma advance_scanned s0 sc sc' s s' :
  scanned_since s0 sc s → after 1 s s' → sc_advance_count sc' = sc_advance_count sc + 1 →
  char_count sc' ≤ char_count sc + 1 → scanned_since s0 sc' s'.
Proof.
  intros (_ & Hs & Hl & Hc) (Hr & Hl' & Hs') Ha Hc'. split; [done|]. split; [by etransitivity|]. split; lia.
Qed.

Lemma scan_loop_spec n s0 sc s :
  scanned_since s0 sc s → is_Some (cp s) → (reads_left s < n)%nat →
  pwp (scan_loop n sc) (λ sc' s', source_path s' = source_path s ∧ scanned_since s0 sc' s' ∧
    sc_advance_count sc < sc_advance_count sc') s.
Proof.
  revert sc s. induction n as [|n IH]; intros sc s Hsc Hc Hn; [lia|]. cbn [scan_loop].
  assert (ready s) as Hr by apply Hsc. apply pwp_bind_cur; [done|]. intros c Hcp.
  apply pwp_bind_advance; [done|done|]. intros s' Ha. apply pwp_bind_gets. cbv zeta.
  match goal with |- context [scan_advanced ?x ?y] => set (sc1 := scan_advanced x y) end.
  assert (scanned_since s0 sc1 s' ∧ sc_advance_count sc1 = sc_advance_count sc + 1) as [Hsc1 Hadv].
  { assert (sc_advance_count sc1 = sc_advance_count sc + 1) as Hadv by (cbn; by rewrite scan_char_advance).
    split; [|done]. eapply advance_scanned; [done|done|done|].
    pose proof (scan_char_count sc (value c)). unfold char_count in *. cbn. lia. }
  assert (source_path s' = source_path s) as Hp by (by destruct Ha as (_ & _ & [])).
  destruct (cp s') as [c'|] eqn:Hc'; pwp_go; try (split; [done|]; split; [done|lia]).
  eapply pwp_mono; [apply IH; [done|solve_some|measure]|]. cbn beta. intros sc2 s2 (Hp2 & Hs2 & Hl2).
  split; [congruence|]. split; [done|lia].
Qed.

Lemma scan_spec s0 sc s :
  scanned_since s0 sc s →
  pwp (scan sc) (λ sc' s', source_path s' = source_path s ∧ scanned_since s0 sc' s' ∧
    sc_advance_count sc ≤ sc_advance_count sc' ∧ (is_Some (cp s) → sc_advance_count sc < sc_advance_count sc')) s.
Proof.
  intros Hsc. unfold scan. pwp_go.
  - split; [done|]. split; [done|]. split; [lia|]. rewrite H. by intros [].
  - apply pwp_looping. intros n Hn. eapply pwp_mono; [by apply scan_loop_spec|]. cbn. intros sc' s' (? & ? & ?).
    split; [done|]. split; [done|]. split; lia.
Qed.

Lemma backpedal_spec s0 pre sc s :
  scanned_since s0 sc s → sc_advance_count pre < sc_advance_count sc → 10 ≤ sc_advance_count pre →
  pwp (backpedal pre sc) (λ sc' s', source_path s' = source_path s ∧ scanned_since s0 sc' s' ∧ 0 < sc_advance_count sc') s.
Proof.
  intros (Hr & Hs & Hl & Hc) Hlt Hge. unfold backpedal. apply pwp_bind, pwp_go_back; [done|lia|].
  intros s' Hr' Hl' Hs' _ _. split; [apply Hs'|]. apply pwp_ret. split; [apply Hs'|]. split; [|cbn; lia].
  split; [done|]. split; [by etransitivity|]. unfold char_count in *. cbn. split; [lia|].
  rewrite length_take. lia.
Qed.

Lemma scan_date_time_spec s0 sc s :
  scanned_since s0 sc s → 0 < sc_advance_count sc →
  pwp (scan_date_time sc) (λ sc' s', source_path s' = source_path s ∧ scanned_since s0 sc' s' ∧
    0 < sc_advance_count sc') s.
Proof.
  intros Hsc Hadv. assert (ready s) as Hr by apply Hsc. unfold scan_date_time. apply pwp_bind_gets. apply pwp_if; intros Hb; [|by apply pwp_ret].
  repeat (apply andb_true_iff in Hb as [Hb ?]). apply Z.eqb_eq in Hb.
  assert (is_Some (cp s)) as Hc by (destruct (cp s); [by eexists|done]).
  assert (10 ≤ sc_advance_count sc) as H10 by (destruct Hsc as (_ & _ & _ & ?); lia).
  cbv zeta. apply pwp_bind_advance; [done|done|]. intros s1 Ha1.
  match goal with |- context [scan_advanced (scan_traits ?x ?y) ?z] => set (sc1 := scan_advanced (scan_traits x y) z) end.
  assert (scanned_since s0 sc1 s1) as Hsc1.
  { eapply advance_scanned; [done|done|done|]. unfold char_count. cbn. rewrite length_app. cbn. lia. }
  assert (source_path s1 = source_path s) as Hp1 by (by destruct Ha1 as (_ & _ & [])).
  assert (∀ sc2 s2, source_path s2 = source_path s → scanned_since s0 sc2 s2 → sc_advance_count sc < sc_advance_count sc2 →
    pwp (backpedal sc sc2) (λ sc' s', source_path s' = source_path s ∧ scanned_since s0 sc' s' ∧ 0 < sc_advance_count sc') s2) as Hback.
  { intros sc2 s2 Hp Hs Hl. eapply pwp_mono; [by apply (backpedal_spec s0)|]. cbn. intros sc' s' (Hp' & ? & ?).
    split; [congruence|done]. }
  assert (sc_advance_count sc1 = sc_advance_count sc + 1) as Hl1 by done.
  apply pwp_bind_gets. destruct (cp s1) as [c1|] eqn:Hc1; [|apply Hback; done || lia].
  apply pwp_if; intros Hd; [apply Hback; done || lia|].
  apply pwp_bind_advance; [solve_ready|solve_some|]. intros s2 Ha2.
  match goal with |- context [scan (scan_advanced ?x ?y)] => set (sc2 := scan_advanced x y) end.
  assert (scanned_since s0 sc2 s2) as Hsc2.
  { eapply advance_scanned; [exact Hsc1|done|done|]. unfold char_count. cbn. rewrite length_app. cbn. lia. }
  assert (source_path s2 = source_path s) as Hp2 by (destruct Ha2 as (_ & _ & []); congruence).
  apply pwp_bind. eapply pwp_mono; [by apply (scan_spec s0)|]. cbn beta. intros sc3 s3 (Hp3 & Hs3 & Hl3 & _).
  split; [done|]. assert (sc_advance_count sc2 = sc_advance_count sc1 + 1) as Hl2 by done.
  apply pwp_if; intros _; [apply Hback; [congruence|done|lia]|]. apply pwp_ret. split; [congruence|]. split; [done|lia].
Qed.

Lemma scan_value_spec t s :
  ready s → is_Some (cp s) →
  pwp (scan_value t) (λ sc s', after 0 s s' ∧ is_Some (cp s') ∧ char_count sc ≤ br_negative_offset (reader s')) s.
Proof.
  intros Hr Hc. unfold scan_value. apply pwp_bind. eapply pwp_mono.
  { apply (scan_spec s). split; [done|]. split; [done|]. cbn [sc_advance_count]. split; [lia|done]. }
  cbn beta. intros sc1 s1 (Hp1 & Hs1 & _ & Hl1). split; [done|]. specialize (Hl1 Hc). cbn in Hl1.
  apply pwp_bind. eapply pwp_mono; [by apply (scan_date_time_spec s)|]. cbn beta.
  intros sc2 s2 (Hp2 & (Hr2 & Hsame2 & Hreads2 & Hcount2) & Hl2). split; [done|].
  apply pwp_bind, pwp_go_back; [done|done|]. intros s3 Hr3 Hreads3 Hsame3 Hc3 Hoff3. split; [apply Hsame3|].
  apply pwp_ret. split; [|split; [done|]].
  - split; [done|]. split; [lia|by etransitivity].
  - destruct Hr2 as (? & _). lia.
Qed.

(** ** Values *)
Definition leaf (n : node) : Prop := match n with Table _ _ _ _ | Array _ _ _ => False | _ => True end.

Lemma leaf_wf arrays fresh n : leaf n → wf_node arrays fresh n.
Proof. by destruct n. Qed.

(** A scalar that was read, or nothing. *)
Definition read_leaf (s : parser) (v : option node) (s' : parser) : Prop :=
  from_option leaf True v ∧ match v with Some _ => after 1 s s' | None => s' = s end.

Lemma new_float_spec m s :
  pwp m (λ _ s', after 1 s s' ∧ True) s → pwp (new_float m) (read_leaf s) s.
Proof. intros Hm. unfold new_float. eapply pwp_call; [exact Hm|]. intros x s' Ha _. apply pwp_ret. by split. Qed.

Lemma new_integer_spec t fl s :
  traits_ok t → ready s → is_Some (cp s) → pwp (new_integer t fl) (read_leaf s) s.
Proof.
  intros Ht Hr Hc. unfold new_integer. eapply pwp_call; [by apply parse_integer_spec|]. intros z s' Ha _.
  apply pwp_ret. by split.
Qed.

Lemma traits_prefixed t p : tr_prefix t = Some p → traits_ok t.
Proof. by intros H H'; rewrite H in H'. Qed.

Lemma parse_hex_float_spec s : pwp parse_hex_float (λ _ s', after 1 s s' ∧ True) s.
Proof. done. Qed.

Ltac scalar_value := first
  [ apply new_float_spec; first [apply parse_hex_float_spec|apply parse_float_spec; assumption
                                |apply parse_inf_or_nan_spec; assumption]
  | apply new_integer_spec; [first [apply traits_decimal|by eapply traits_prefixed]|assumption|assumption] ].

Lemma fuzzy_match_spec sc s :
  ready s → is_Some (cp s) → char_count sc ≤ br_negative_offset (reader s) → pwp (fuzzy_match sc) (read_leaf s) s.
Proof.
  intros Hr Hc Ho. unfold fuzzy_match. cbv zeta.
  repeat (apply pwp_if; intros ?); try scalar_value; try by apply pwp_ret.
  match goal with H : _ && _ = true |- _ => apply andb_true_iff in H as [Hcc%Z.eqb_eq _] end. rewrite Hcc in Ho.
  pose proof (advance_spec s Hr Hc) as Hadv. apply pwp_bind. unfold pwp at 1.
  destruct (advance s) as [[] s1|e|u|]; [|done..]. destruct Hadv as [Ha1 Hs1]. destruct (Hs1 Ho) as [Hc1 _].
  split; [apply Ha1|]. pwp_go. split; [done|]. chain.
Qed.

Lemma exact_match_spec t s : ready s → is_Some (cp s) → pwp (exact_match t) (read_leaf s) s.
Proof.
  intros Hr Hc. unfold exact_match.
  repeat (apply pwp_if; intros ?); try scalar_value; [| | |by apply pwp_ret].
  - eapply pwp_call; [by apply parse_time_spec|]. intros x s1 Ha _. apply pwp_ret. by split.
  - eapply pwp_call; [by apply parse_date_spec|]. intros x s1 Ha _. apply pwp_ret. by split.
  - eapply pwp_call; [by apply parse_date_time_spec|]. intros x s1 Ha _. apply pwp_ret. by split.
Qed.

Lemma parse_number_like_spec t s :
  ready s → is_Some (cp s) →
  pwp (parse_number_like t) (λ v s', after (match v with Some _ => 1 | None => 0 end) s s' ∧ from_option leaf True v) s.
Proof.
  intros Hr Hc. unfold parse_number_like.
  eapply pwp_call; [by apply scan_value_spec|]. intros sc s1 Ha1 [Hc1 Ho1]. pwp_go.
  - split; [|done]. chain.
  - apply pwp_bind. eapply pwp_mono; [apply fuzzy_match_spec; [solve_ready|done|done]|].
    intros [v|] s2 [Hv Ha2]; cbn in Hv, Ha2.
    + split; [by destruct Ha2 as (_ & _ & [])|]. apply pwp_ret. split; [chain|done].
    + rewrite Ha2. split; [done|]. eapply pwp_mono; [apply exact_match_spec; [solve_ready|done]|].
      intros [v|] s3 [Hv3 Ha3]; cbn in Hv3, Ha3; [by split; [chain|]|]. rewrite Ha3. by split.
Qed.

(** What a function that parses a value promises, on texts of fewer than [N]
    reads. *)
Definition parses_value (N : nat) (pv : P node) : Prop :=
  ∀ s, ready s → is_Some (cp s) → addresses s → (reads_left s < N)%nat →
    pwp pv (λ v s', after 1 s s' ∧ wf s' v) s.

(** Blanks that may be of several kinds. *)
Lemma blanks_loop_spec n s :
  ready s → (reads_left s < n)%nat → pwp (blanks_loop n) (λ _ s', after 0 s s' ∧ True) s.
Proof.
  revert s. induction n as [|n IH]; intros s Hr Hn; [lia|]. cbn [blanks_loop].
  assert (∀ s1, after 1 s s1 → pwp (blanks_loop n) (λ _ s', after 0 s s' ∧ True) s1) as Hnext.
  { intros s1 Ha. by_IH IH. cbn. intros _ s2 [Ha2 _]. by split; [chain|]. }
  eapply pwp_call; [by apply consume_leading_whitespace_spec|]. intros [] s1 Ha1 [Hb1 Hs1]; [by apply Hnext|].
  rewrite (Hs1 eq_refl). eapply pwp_call; [by apply consume_line_break_spec|].
  intros [] s2 Ha2 [[Hb2 Hs2] _]; [by apply Hnext|]. rewrite (Hs2 eq_refl).
  eapply pwp_call; [by apply consume_comment_spec|]. intros [] s3 Ha3 [Hb3 Hs3]; [by apply Hnext|].
  rewrite (Hs3 eq_refl). apply pwp_ret. by split; [chain|].
Qed.

Lemma whitespace_loop_spec n s :
  ready s → (reads_left s < n)%nat → pwp (whitespace_loop n) (λ _ s', after 0 s s' ∧ True) s.
Proof.
  revert s. induction n as [|n IH]; intros s Hr Hn; [lia|]. cbn [whitespace_loop].
  eapply pwp_call; [by apply consume_leading_whitespace_spec|]. intros [] s1 Ha1 [Hb1 _].
  - cbn in Hb1. clear Ha1. by_IH IH. cbn. intros _ s2 [Ha2 _]. by split; [chain|].
  - apply pwp_ret. by split; [chain|].
Qed.

Section parse_value.
Context (N : nat) (pv : P node) (Hpv : parses_value N pv).

Lemma array_loop_spec n vals prev s :
  ready s → addresses s → (reads_left s < n)%nat → (reads_left s < N)%nat → Forall (wf s) vals →
  pwp (array_loop pv n vals prev) (λ l s', after 0 s s' ∧ Forall (wf s') l) s.
Proof using Hpv.
  revert vals prev s. induction n as [|n IH]; intros vals prev s Hr Had Hn HN Hv; [lia|]. cbn [array_loop].
  eapply pwp_call; [apply pwp_looping; intros; by apply blanks_loop_spec|]. intros _ s1 Ha1 _.
  assert (∀ s2, after 0 s s2 → Forall (wf s2) vals) as Hvals.
  { intros s2 Ha. eapply Forall_impl; [done|]. intros x. by eapply after_wf. }
  assert (∀ p l s2, after 1 s s2 → Forall (wf s2) l →
    pwp (array_loop pv n l p) (λ l s', after 0 s s' ∧ Forall (wf s') l) s2) as Hnext.
  { intros p l s2 Ha Hl. eapply pwp_mono; [apply IH|]; [solve_ready|by eapply after_addresses|measure|measure|done|].
    cbn. intros l' s3 [Ha3 Hl3]. by split; [chain|]. }
  pwp_go.
  - destruct prev; pwp_go. apply Hnext; [chain|]. apply Hvals. chain.
  - split; [chain|]. apply Hvals. chain.
  - destruct prev; pwp_go; (eapply pwp_call; [apply Hpv; [solve_ready|done|by eapply after_addresses|measure]|]);
      intros v s2 Ha2 Hv2; (apply Hnext; [chain|]); (apply Forall_app; split; [apply Hvals; chain|by constructor]).
Qed.

Lemma parse_array_spec s :
  ready s → is_Some (cp s) → addresses s → (reads_left s ≤ N)%nat →
  pwp (parse_array pv) (λ v s', after 1 s s' ∧ wf s' v) s.
Proof using Hpv.
  intros Hr Hc Had HN. unfold parse_array. apply pwp_scoped; [done|]. intros s0 Ha Hc0 _. pwp_go.
  apply pwp_bind_alloc; [solve_ready|]. intros s2 Ha2 _ Hlt.
  eapply pwp_call.
  { apply pwp_looping. intros n Hn. apply array_loop_spec; [solve_ready| |done|measure|constructor].
    eapply after_addresses; [|exact Had]. by eapply (after_trans 0); [exact Ha|]; eapply after_trans. }
  cbn beta. intros vals s3 Ha3 Hvals. apply pwp_ret. split; [solve_ready|].
  split; [assert (after 0 s0 s3) as Ha03 by chain; apply Ha03|].
  intros s4 Ha4 _ _. split; [chain|]. eapply after_wf; [exact Ha4|].
  apply wf_array. destruct Ha3 as (_ & _ & [_ _ Harr3 Haddr3]). split; [lia|]. split; [|done].
  intros Hin. exfalso. rewrite Harr3, (same_arrays _ _ (proj2 (proj2 Ha2))) in Hin.
  assert (addresses s') as Had' by (eapply after_addresses; [exact H|by eapply after_addresses]).
  unfold addresses in Had'. rewrite Forall_forall in Had'. specialize (Had' _ Hin). cbn in Had'. lia.
Qed.

Lemma parse_key_value_pair_spec s :
  ready s → is_Some (cp s) → addresses s → (reads_left s ≤ N)%nat →
  pwp (parse_key_value_pair pv) (λ kv s', after 1 s s' ∧ wf s' kv.2) s.
Proof using Hpv.
  intros Hr Hc Had HN. unfold parse_key_value_pair, start_recording, stop_recording. apply pwp_scoped; [done|].
  intros s0 Ha Hc0 _. pwp_go.
  eapply pwp_call; [apply parse_key_spec; [solve_ready|solve_some]|]. intros key s2 Ha2 _. pwp_go.
  eapply pwp_call; [apply consume_leading_whitespace_spec; solve_ready|]. intros _ s4 Ha4 _. pwp_go.
  eapply pwp_call; [apply consume_leading_whitespace_spec; solve_ready|]. intros _ s6 Ha6 _. pwp_go.
  eapply pwp_call.
  { apply Hpv; [solve_ready|solve_some| |measure].
    assert (after 0 s s6) as Has by chain. by eapply after_addresses. }
  cbn beta. intros v s7 Ha7 Hv. apply pwp_ret. split; [solve_ready|].
  split; [assert (after 0 s0 s7) as Ha07 by chain; apply Ha07|]. intros s8 Ha8 _ _. split; [chain|].
  by eapply after_wf.
Qed.

Lemma insert_value_spec segs v m s :
  ready s → wfm s m → wf s v → pwp (insert_value segs v m) (λ m' s', after 0 s s' ∧ wfm s' m') s.
Proof using Type.
  revert m s. induction segs as [|k segs IH]; intros m s Hr Hm Hv; cbn [insert_value]; [by split; [chain|]|].
  destruct segs as [|k' segs].
  { destruct (do_get m k) eqn:Hk; pwp_go. split; [chain|]. by apply wf_map_emplace. }
  destruct (do_get m k) as [child|] eqn:Hk.
  - pwp_go. destruct child as [a m1 i r| | | | | | | |]; pwp_go.
    assert (wfm s m1) as Hm1. { eapply wf_map_get in Hk; [|done]. by apply wf_table in Hk. }
    eapply pwp_call; [by apply IH|]. intros m' s1 Ha1 Hm'. apply pwp_ret. split; [chain|].
    apply wf_map_alter; [by eapply after_wfm|]. by apply wf_table.
  - apply pwp_bind_alloc; [done|]. intros s1 Ha1 Hc1 _. unfold push_dotted. pwp_go.
    eapply pwp_call.
    { apply IH; [solve_ready|apply wf_map_nil|]. eapply after_wf; [eassumption|]. by eapply after_wf. }
    intros m' s3 Ha3 Hm'. apply pwp_ret. assert (after 0 s s3) as Ha03 by chain. split; [done|].
    apply wf_map_emplace; [by eapply after_wfm|by apply wf_table].
Qed.

Lemma insert_pair_spec m s :
  ready s → is_Some (cp s) → addresses s → (reads_left s ≤ N)%nat → wfm s m →
  pwp (parse_key_value_pair_and_insert pv m) (λ m' s', after 1 s s' ∧ wfm s' m') s.
Proof using Hpv.
  intros Hr Hc Had HN Hm. unfold parse_key_value_pair_and_insert. apply pwp_scoped; [done|]. intros s0 Ha Hc0 _.
  eapply pwp_call.
  { apply parse_key_value_pair_spec; [solve_ready|solve_some|by eapply after_addresses|measure]. }
  intros [segs v] s1 Ha1 Hv. cbn in Hv. cbn beta iota.
  eapply pwp_mono; [apply insert_value_spec; [solve_ready| |done]|].
  { eapply after_wfm; [exact Ha1|]. by eapply after_wfm. }
  cbn beta. intros m' s2 [Ha2 Hm']. split; [solve_ready|].
  split; [assert (after 0 s0 s2) as Ha02 by chain; apply Ha02|]. intros s3 Ha3 _ _. split; [chain|]. by eapply after_wfm.
Qed.

Lemma inline_table_loop_spec n m prev s :
  ready s → addresses s → (reads_left s < n)%nat → (reads_left s ≤ N)%nat → wfm s m →
  pwp (inline_table_loop pv n m prev) (λ m' s', after 0 s s' ∧ wfm s' m') s.
Proof using Hpv.
  revert m prev s. induction n as [|n IH]; intros m prev s Hr Had Hn HN Hm; [lia|]. cbn [inline_table_loop].
  eapply pwp_call; [apply pwp_looping; intros; by apply whitespace_loop_spec|]. intros _ s1 Ha1 _.
  assert (∀ s2, after 0 s s2 → wfm s2 m) as Hmap by (intros s2 Ha2; by eapply after_wfm).
  assert (∀ p m' s2, after 1 s s2 → wfm s2 m' →
    pwp (inline_table_loop pv n m' p) (λ m' s', after 0 s s' ∧ wfm s' m') s2) as Hnext.
  { intros p m' s2 Ha Hl. eapply pwp_mono; [apply IH|]; [solve_ready|by eapply after_addresses|measure|measure|done|].
    cbn. intros l' s3 [Ha3 Hl3]. by split; [chain|]. }
  pwp_go.
  - destruct prev; pwp_go. apply Hnext; [chain|]. apply Hmap. chain.
  - destruct prev; pwp_go; (split; [chain|]); apply Hmap; chain.
  - destruct prev; pwp_go;
      (eapply pwp_call;
        [apply insert_pair_spec; [solve_ready|solve_some|by eapply after_addresses|measure|by apply Hmap]|]);
      intros m' s2 Ha2 Hm2; (apply Hnext; [chain|done]).
Qed.

Lemma parse_inline_table_spec s :
  ready s → is_Some (cp s) → addresses s → (reads_left s ≤ N)%nat →
  pwp (parse_inline_table pv) (λ v s', after 1 s s' ∧ wf s' v) s.
Proof using Hpv.
  intros Hr Hc Had HN. unfold parse_inline_table. apply pwp_scoped; [done|]. intros s0 Ha Hc0 _. pwp_go.
  apply pwp_bind_alloc; [solve_ready|]. intros s2 Ha2 _ Hlt.
  eapply pwp_call.
  { apply pwp_looping. intros n Hn. apply inline_table_loop_spec; [solve_ready| |done|measure|apply wf_map_nil].
    assert (after 0 s s2) as Has by chain. by eapply after_addresses. }
  cbn beta. intros m s3 Ha3 Hm. apply pwp_ret. split; [solve_ready|].
  split; [assert (after 0 s0 s3) as Ha03 by chain; apply Ha03|]. intros s4 Ha4 _ _. split; [chain|].
  eapply after_wf; [exact Ha4|]. by apply wf_table.
Qed.

Lemma known_prefixes_spec s :
  ready s → is_Some (cp s) → addresses s → (reads_left s ≤ N)%nat →
  pwp (parse_value_known_prefixes pv)
    (λ v s', after (match v with Some _ => 1 | None => 0 end) s s' ∧
       match v with Some n => wf s' n | None => s' = s end) s.
Proof using Hpv.
  intros Hr Hc Had HN. unfold parse_value_known_prefixes.
  assert (∀ m, pwp m (λ _ s', after 1 s s' ∧ True) s → pwp (new_float m)
    (λ v s', after (match v with Some _ => 1 | None => 0 end) s s' ∧
       match v with Some n => wf s' n | None => s' = s end) s) as Hfloat.
  { intros m Hm. unfold new_float. eapply pwp_call; [exact Hm|]. intros x s1 Ha1 _. by apply pwp_ret. }
  pwp_go.
  - eapply pwp_call; [by apply parse_array_spec|]. intros v s1 Ha1 Hv. by apply pwp_ret.
  - eapply pwp_call; [by apply parse_inline_table_spec|]. intros v s1 Ha1 Hv. by apply pwp_ret.
  - by apply Hfloat, parse_float_spec.
  - eapply pwp_call; [by apply parse_string_spec|]. intros [v b] s1 Ha1 _. by apply pwp_ret.
  - eapply pwp_call; [by apply parse_boolean_spec|]. intros b s1 Ha1 _. by apply pwp_ret.
  - by apply Hfloat, parse_inf_or_nan_spec.
  - by split; [chain|].
Qed.

Lemma set_source_wf arrays fresh r n : wf_node arrays fresh n → wf_node arrays fresh (set_source r n).
Proof using Type. by destruct n. Qed.

Lemma parse_value_body_spec : parses_value (S N) (parse_value_body pv).
Proof using Hpv.
  intros s Hr Hc Had HN. unfold parse_value_body. apply pwp_scoped; [done|]. intros s0 Ha Hc0 _. pwp_go.
  apply pwp_bind. eapply pwp_mono.
  { apply known_prefixes_spec; [solve_ready|solve_some|by eapply after_addresses|measure]. }
  intros v s1 [Ha1 Hv]. split; [by destruct Ha1 as (_ & _ & [])|].
  assert (∀ n s2, after 1 s0 s2 → wf s2 n →
    pwp (end_pos ← current_position 1; path ← gets source_path;
        mret (set_source (mk_region (position c) end_pos path) n))
      (λ a s', ready s' ∧ same s0 s' ∧ (∀ s'', after 0 s' s'' → cp s'' = cp s' → reader s'' = reader s' →
         after 1 s s'' ∧ wf s'' a)) s2) as Hend.
  { intros n s2 Ha2 Hn. unfold current_position. pwp_go. split; [solve_ready|]. split; [apply Ha2|].
    intros s3 Ha3 _ _. split; [chain|]. by eapply after_wf, set_source_wf. }
  destruct v as [n|]; [apply pwp_bind_ret; by apply Hend|]. rewrite Hv in *.
  assert (∀ t, pwp (v ← parse_number_like t;
      match v with
      | None => set_error_at (position c) [bs "could not determine value type"]
      | Some n => end_pos ← current_position 1; path ← gets source_path;
          mret (set_source (mk_region (position c) end_pos path) n)
      end) (λ a s', ready s' ∧ same s0 s' ∧ (∀ s'', after 0 s' s'' → cp s'' = cp s' → reader s'' = reader s' →
         after 1 s s'' ∧ wf s'' a)) s0) as Hnum.
  { intros t. apply pwp_bind. eapply pwp_mono; [apply parse_number_like_spec; [solve_ready|solve_some]|].
    intros [n|] s2 [Ha2 Hl]; (split; [by destruct Ha2 as (_ & _ & [])|]); [|done].
    apply Hend; [done|by apply leaf_wf]. }
  pwp_go; [apply Hnum..|done].
Qed.
End parse_value.

Lemma parse_value_spec n : parses_value n (parse_value n).
Proof.
  induction n as [|n IH]; [intros s _ _ _ H; lia|]. cbn [parse_value]. by apply parse_value_body_spec.
Qed.

(** ** Table headers *)

(** The path leads to a table. *)
Fixpoint resolves (path : list bytes) (m : string_map node) : Prop :=
  match path with
  | [] => True
  | k :: path =>
    match do_get m k with
    | Some (Table _ m1 _ _) => resolves path m1
    | Some (Array _ els _) =>
      match last els with Some (Table _ m1 _ _) => resolves path m1 | _ => False end
    | _ => False
    end
  end.

(** A step on the tree: the cursor stays, arrays of tables may be added at new
    addresses. *)
Definition grows (s s' : parser) : Prop :=
  reader s' = reader s ∧ cp s' = cp s ∧ source_path s' = source_path s ∧ root s' = root s ∧
  extends (table_arrays s) (next_addr s) (table_arrays s') (next_addr s') ∧ (addresses s → addresses s').

#[global] Instance grows_refl : Reflexive grows.
Proof. intros s. do 4 (split; [done|]). split; [split; [lia|done]|done]. Qed.
#[global] Instance grows_trans : Transitive grows.
Proof.
  intros s1 s2 s3 (E1 & E2 & E3 & E4 & [Hf Hb] & Hadd) (E1' & E2' & E3' & E4' & [Hf' Hb'] & Hadd').
  do 4 (split; [congruence|]). split; [|auto]. split; [lia|].
  intros a Ha Hin. apply Hb; [done|]. apply Hb'; [lia|done].
Qed.

Lemma grows_wf s s' n : grows s s' → wf s n → wf s' n.
Proof. intros (_ & _ & _ & _ & He & _). by apply wf_node_extends. Qed.
Lemma grows_wfm s s' m : grows s s' → wfm s m → wfm s' m.
Proof. intros (_ & _ & _ & _ & He & _). by apply wf_map_extends. Qed.

Lemma pwp_grow {A B} (m : P A) (k : A → P B) R (φ : A → parser → Prop) s :
  pwp m (λ a s', grows s s' ∧ φ a s') s → (∀ a s', grows s s' → φ a s' → pwp (k a) R s') → pwp (m ≫= k) R s.
Proof.
  intros Hm Hk. apply pwp_bind. eapply pwp_mono; [exact Hm|]. intros a s' [Hg Hφ]. split; [apply Hg|auto].
Qed.

Lemma grows_intro s s' :
  reader s' = reader s → cp s' = cp s → source_path s' = source_path s → root s' = root s →
  table_arrays s' = table_arrays s → (next_addr s ≤ next_addr s')%positive → grows s s'.
Proof.
  intros E1 E2 E3 E4 Ha Hn. do 4 (split; [done|]). split; [split; [done|by rewrite Ha]|].
  unfold addresses. rewrite Ha. intros Hall. eapply Forall_impl; [exact Hall|]. cbn. lia.
Qed.

Lemma alloc_grows s : pwp alloc (λ a s', grows s s' ∧ a = next_addr s ∧ (next_addr s < next_addr s')%positive) s.
Proof.
  split; [|split; [done|apply Pos.lt_succ_diag_r]]. apply grows_intro; cbn; done || lia.
Qed.

Lemma push_implicit_grows a s : pwp (push_implicit a) (λ _ s', grows s s' ∧ True) s.
Proof. split; [|done]. apply grows_intro; cbn; done || lia. Qed.
Lemma pop_implicit_grows a s : pwp (pop_implicit a) (λ _ s', grows s s' ∧ True) s.
Proof. split; [|done]. apply grows_intro; cbn; done || lia. Qed.

Lemma removelast_sub {A} (l : list A) : removelast l ⊆ l.
Proof.
  induction l as [|x [|y l] IH]; [done|set_solver|]. change (removelast (x :: y :: l)) with (x :: removelast (y :: l)).
  set_solver.
Qed.

Section headers.
Context (is_arr : bool) (region : source_region).

Lemma new_table_wf arrays fresh t : wf_node arrays fresh (Table t [] false region).
Proof using Type. apply wf_table, wf_map_nil. Qed.

Lemma declare_new_array k m s :
  wfm s m → do_get m k = None → addresses s →
  pwp (a ← alloc; push_table_array a;; t ← alloc; mret (emplace k (Array a [Table t [] false region] region) m))
    (λ m' s', grows s s' ∧ wfm s' m' ∧ resolves [k] m') s.
Proof using Type.
  intros Hm Hk Had. unfold alloc, push_table_array, pwp, mbind, P_bind, gets, modify, mret, P_ret.
  cbn -[resolves wf_map grows emplace Pos.succ].
  match goal with |- context [wf_map ?ta ?na] => assert (extends (table_arrays s) (next_addr s) ta na) as He end.
  { split; [lia|]. intros a Ha. rewrite elem_of_app, list_elem_of_singleton. intros [?| ->]; [done|lia]. }
  split; [|split].
  - do 4 (split; [done|]). split; [exact He|]. intros _. unfold addresses. cbn. apply Forall_app. split.
    + eapply Forall_impl; [exact Had|]. cbn. lia.
    + repeat constructor. lia.
  - apply wf_map_emplace; [by eapply wf_map_extends|]. apply wf_array. split; [lia|]. split; [intros _; cbn; repeat eexists|].
    repeat constructor.
  - cbn. rewrite do_get_emplace by apply Hm. rewrite decide_True, Hk by done. done.
Qed.

Lemma declare_last_spec k m s :
  wfm s m → addresses s →
  pwp (declare_last is_arr region k m) (λ m' s', grows s s' ∧ wfm s' m' ∧ resolves [k] m') s.
Proof using Type.
  intros Hm Had. unfold declare_last. destruct (do_get m k) as [matching|] eqn:Hk.
  - pwp_go. pose proof (wf_map_get _ _ _ _ _ Hm Hk) as Hw.
    destruct matching as [a m1 i r|a els r| | | | | | |]; try done.
    + apply pwp_if; intros _; [|done]. eapply pwp_grow; [apply pop_implicit_grows|]. intros _ s1 Hg _. apply pwp_ret.
      split; [done|]. apply wf_table in Hw. split; [|cbn; by rewrite do_get_alter, decide_True, Hk].
      apply wf_map_alter; [by eapply grows_wfm|]. apply wf_table. by eapply grows_wfm.
    + apply pwp_if; intros _; [|done]. eapply pwp_grow; [apply alloc_grows|]. intros t s1 Hg _. apply pwp_ret.
      split; [done|]. split; [|cbn; by rewrite do_get_alter, decide_True, Hk by done; cbn; rewrite last_snoc].
      apply wf_map_alter; [by eapply grows_wfm|].
      apply (wf_array_last _ _ _ els r); [by eapply grows_wf|apply new_table_wf|by repeat eexists|done].
  - apply pwp_if; intros _; [by apply declare_new_array|].
    eapply pwp_grow; [apply alloc_grows|]. intros t s1 Hg _. apply pwp_ret. split; [done|]. split.
    + apply wf_map_emplace; [by eapply grows_wfm|apply new_table_wf].
    + cbn. rewrite do_get_emplace by apply Hm. by rewrite decide_True, Hk by done.
Qed.

Lemma declare_table_spec segs m s :
  wfm s m → addresses s →
  pwp (declare_table is_arr region segs m) (λ m' s', grows s s' ∧ wfm s' m' ∧ resolves segs m') s.
Proof using Type.
  revert m s. induction segs as [|k segs IH]; intros m s Hm Had; cbn [declare_table]; [by apply pwp_ret|].
  destruct segs as [|k' segs]; [by apply declare_last_spec|].
  destruct (do_get m k) as [child|] eqn:Hk.
  - pose proof (wf_map_get _ _ _ _ _ Hm Hk) as Hw.
    destruct child as [a m1 i r|a els r| | | | | | |]; try done.
    + apply wf_table in Hw. eapply pwp_grow; [by apply IH|]. intros m' s1 Hg [Hm' Hres]. apply pwp_ret.
      split; [done|]. split; [apply wf_map_alter; [by eapply grows_wfm|by apply wf_table]|].
      cbn -[resolves]. cbn [resolves]. by rewrite do_get_alter, decide_True, Hk by done.
    + pwp_go; [|done]. unfold find_addr in *. rewrite bool_decide_eq_true in *.
      pose proof Hw as (_ & Hlast & Hels)%wf_array. specialize (Hlast ltac:(done)).
      destruct (last els) as [l|] eqn:Hl; [|done]. destruct Hlast as (t & m1 & i & r1 & ->).
      assert (wfm s m1) as Hm1.
      { rewrite Forall_forall in Hels. eapply (wf_table _ _ t m1 i r1), Hels.
        rewrite last_lookup in Hl. by eapply list_elem_of_lookup_2. }
      eapply pwp_grow; [by apply IH|]. intros m' s1 Hg [Hm' Hres]. apply pwp_ret. split; [done|]. split.
      * apply wf_map_alter; [by eapply grows_wfm|].
        apply (wf_array_last _ _ _ els r); [by eapply grows_wf|by apply wf_table|by repeat eexists|apply removelast_sub].
      * cbn -[resolves]. cbn [resolves]. rewrite do_get_alter, decide_True, Hk by done. cbn -[resolves].
        by rewrite last_snoc.
  - eapply pwp_grow; [apply alloc_grows|]. intros a s1 Hg1 _.
    eapply pwp_grow; [apply push_implicit_grows|]. intros _ s2 Hg2 _.
    eapply pwp_grow; [apply IH; [apply wf_map_nil|by apply Hg2, Hg1]|]. intros m' s3 Hg3 [Hm' Hres]. apply pwp_ret.
    assert (grows s s3) as Hg by (do 2 (etransitivity; [eassumption|]); done). split; [done|]. split.
    + apply wf_map_emplace; [by eapply grows_wfm|by apply wf_table].
    + cbn -[resolves]. cbn [resolves]. rewrite do_get_emplace by apply Hm. by rewrite decide_True, Hk by done.
Qed.
End headers.

Lemma parse_header_text_spec s :
  ready s → is_Some (cp s) → pwp parse_header_text (λ _ s', after 1 s s' ∧ True) s.
Proof.
  intros Hr Hc. unfold parse_header_text, start_recording, stop_recording, current_position. pwp_go.
  eapply pwp_call; [apply consume_leading_whitespace_spec; solve_ready|]. intros ws s2 Ha2 _. pwp_go.
  all: repeat first
    [ progress pwp_go
    | eapply pwp_call; [apply consume_leading_whitespace_spec; solve_ready|intros ? ? ? _]
    | eapply pwp_call; [apply parse_key_spec; [solve_ready|solve_some]|intros ? ? ? _] ].
  all: split; [chain|done].
Qed.

Lemma expect_line_end_spec s : ready s → pwp expect_line_end (λ _ s', after 0 s s' ∧ True) s.
Proof.
  intros Hr. unfold expect_line_end.
  eapply pwp_call; [by apply consume_leading_whitespace_spec|]. intros _ s1 Ha1 _. pwp_go; [by split; [chain|]|].
  eapply pwp_call; [apply consume_comment_spec; solve_ready|]. intros [] s2 Ha2 [_ Hs2]; [by split; [chain|]|].
  rewrite (Hs2 eq_refl).
  eapply pwp_call; [apply consume_line_break_spec; solve_ready|]. intros [] s3 Ha3 [[_ Hs3] _]; [by split; [chain|]|].
  rewrite (Hs3 eq_refl). by apply pwp_saw.
Qed.

(** ** The document *)

(** The tree is well formed and the current table is in it. *)
Definition document_ok (path : list bytes) (s : parser) : Prop :=
  addresses s ∧ wf s (root s) ∧ ∃ a m i r, root s = Table a m i r ∧ resolves path m.

Lemma after_document k path s s' : after k s s' → document_ok path s → document_ok path s'.
Proof.
  intros Ha (Had & Hw & Hres). pose proof Ha as (_ & _ & [_ Hroot _ _]). split; [by eapply after_addresses|].
  rewrite Hroot. split; [by eapply after_wf|done].
Qed.

(** [after], but for the tree. *)
Definition moved (k : nat) (s s' : parser) : Prop :=
  ready s' ∧ (reads_left s' + k ≤ reads_left s)%nat ∧ source_path s' = source_path s.

Lemma after_moved k s s' : after k s s' → moved k s s'.
Proof. intros (? & ? & []). by split. Qed.

Lemma moved_trans k k' s1 s2 s3 : moved k s1 s2 → moved k' s2 s3 → moved (k + k') s1 s3.
Proof. intros (_ & ? & ?) (? & ? & ?). split; [done|]. split; [lia|congruence]. Qed.

Lemma pwp_scoped_moved {A} scope (m : P A) (Q : A → parser → Prop) s :
  ready s →
  (∀ s0, after 0 s s0 → cp s0 = cp s → reader s0 = reader s →
     pwp m (λ a s', ready s' ∧ source_path s' = source_path s0 ∧
       ∀ s'', after 0 s' s'' → cp s'' = cp s' → Q a s'') s0) →
  pwp (scoped scope m) Q s.
Proof.
  intros Hr Hm. unfold scoped. apply pwp_bind, pwp_gets. split; [done|].
  apply pwp_bind, pwp_modify; [done..|]. intros s0 Ha Hc Hrd. split; [apply Ha|].
  apply pwp_bind. eapply pwp_mono; [by apply Hm|]. cbn. intros a s' (Hr' & Hs & HQ).
  split; [done|]. apply pwp_bind, pwp_modify; [done..|]. intros s'' Ha' Hc' Hrd'.
  split; [apply Ha'|]. by apply HQ.
Qed.

(** The operations on a table of the document. *)
Definition table_op (f : string_map node → source_region → P (string_map node * source_region)) (s : parser) : Prop :=
  ∀ m r, wfm s m → pwp (f m r) (λ mr s', after 0 s s' ∧ wfm s' mr.1) s.

Lemma with_table_spec path f m r s :
  ready s → table_op f s → wfm s m → resolves path m →
  pwp (with_table path f m r) (λ mr s', after 0 s s' ∧ wfm s' mr.1 ∧ resolves path mr.1) s.
Proof.
  intros Hr Hf. revert m r. induction path as [|k path IH]; intros m r Hm Hres; cbn [with_table].
  { eapply pwp_mono; [by apply Hf|]. cbn. intros mr s' [? ?]. done. }
  cbn [resolves] in Hres. destruct (do_get m k) as [n|] eqn:Hk; [|done].
  pose proof (wf_map_get _ _ _ _ _ Hm Hk) as Hw. destruct n as [a m1 i r1|a els ra| | | | | | |]; try done.
  - apply wf_table in Hw. eapply pwp_call; [by apply IH|]. intros [m' r'] s1 Ha1 [Hm' Hres']. cbn in Hm', Hres'. apply pwp_ret.
    split; [done|]. cbn [fst]. split; [apply wf_map_alter; [by eapply after_wfm|by apply wf_table]|].
    cbn [resolves]. by rewrite do_get_alter, decide_True, Hk by done.
  - destruct (last els) as [l|] eqn:Hl; [|done]. destruct l as [t m1 i r1| | | | | | | |]; try done.
    assert (wfm s m1) as Hm1.
    { pose proof Hw as (_ & _ & Hels)%wf_array. rewrite Forall_forall in Hels. eapply (wf_table _ _ t m1 i r1), Hels.
      rewrite last_lookup in Hl. by eapply list_elem_of_lookup_2. }
    eapply pwp_call; [by apply IH|]. intros [m' r'] s1 Ha1 [Hm' Hres']. cbn in Hm', Hres'. apply pwp_ret.
    split; [done|]. cbn [fst]. split.
    + apply wf_map_alter; [by eapply after_wfm|].
      apply (wf_array_last _ _ _ els ra); [by eapply after_wf|by apply wf_table|by repeat eexists|apply removelast_sub].
    + cbn [resolves]. rewrite do_get_alter, decide_True, Hk by done. cbn [fmap option_fmap option_map]. by rewrite last_snoc.
Qed.

Lemma at_table_spec path f s :
  ready s → table_op f s → document_ok path s →
  pwp (at_table path f) (λ _ s', moved 0 s s' ∧ document_ok path s') s.
Proof.
  intros Hr Hf (Had & Hw & a & m & i & r & Hroot & Hres). unfold at_table. apply pwp_bind_gets. rewrite Hroot in *.
  apply wf_table in Hw. eapply pwp_call; [by apply with_table_spec|]. intros [m' r'] s1 Ha1 [Hm' Hres'].
  cbn in Hm', Hres'. cbn beta iota. unfold pwp, modify. split.
  - destruct Ha1 as (? & ? & []). by split.
  - split; [by eapply (after_addresses 0 s s1)|]. cbn [root set_root]. split; [by apply wf_table|].
    by exists a, m', i, r'.
Qed.

Lemma grows_moved s s' : ready s → grows s s' → moved 0 s s'.
Proof.
  intros Hr (Hrd & Hc & Hp & _). unfold moved, ready, reads_left. rewrite Hrd, Hc. split; [exact Hr|]. split; [lia|done].
Qed.

Lemma parse_table_header_spec path s :
  ready s → is_Some (cp s) → document_ok path s →
  pwp parse_table_header (λ path' s', moved 1 s s' ∧ document_ok path' s') s.
Proof.
  intros Hr Hc Hdoc. unfold parse_table_header. apply pwp_scoped_moved; [done|]. intros s0 Ha Hc0 _.
  eapply pwp_call; [apply parse_header_text_spec; [solve_ready|solve_some]|]. intros [[key is_arr] region] s1 Ha1 _.
  cbn beta iota. eapply pwp_call; [apply expect_line_end_spec; solve_ready|]. intros _ s2 Ha2 _. apply pwp_bind_gets.
  assert (after 1 s s2) as Has by chain.
  pose proof (after_document _ _ _ _ Has Hdoc) as (Had & Hw & a & m & i & r & Hroot & _).
  unfold root_map. rewrite Hroot in *. apply wf_table in Hw.
  eapply pwp_grow; [by apply declare_table_spec|]. intros m' s3 Hg [Hm' Hres].
  pose proof (grows_moved s2 s3 (proj1 Ha2) Hg) as Hmv3. destruct Hg as (_ & _ & _ & Hroot3 & _ & Had3).
  apply pwp_bind. unfold pwp at 1, modify, set_root_map. rewrite Hroot3, Hroot.
  split; [done|]. apply pwp_ret. split; [exact (proj1 Hmv3)|].
  split; [etransitivity; [apply Hmv3|]; by destruct Ha1 as (_ & _ & []), Ha2 as (_ & _ & []); congruence|].
  intros s4 Ha4 _. split.
  - change 1%nat with (1 + (0 + 0))%nat. eapply moved_trans; [by apply after_moved|].
    eapply moved_trans; [exact Hmv3|]. by apply (after_moved 0) in Ha4.
  - eapply after_document; [exact Ha4|]. split; [by apply Had3|]. cbn [root set_root]. split; [by apply wf_table|].
    by exists a, m', i, r.
Qed.

Lemma parse_document_pair_spec path s :
  ready s → is_Some (cp s) → document_ok path s →
  pwp (parse_document_pair path) (λ _ s', moved 1 s s' ∧ document_ok path s') s.
Proof.
  intros Hr Hc Hdoc. unfold parse_document_pair. apply pwp_scoped_moved; [done|]. intros s0 Ha Hc0 _.
  pose proof (after_document _ _ _ _ Ha Hdoc) as Hdoc0.
  apply pwp_bind, pwp_scoped_moved; [solve_ready|]. intros s1 Ha1 Hc1 _. unfold insert_into.
  pose proof (after_document _ _ _ _ Ha1 Hdoc0) as Hdoc1.
  eapply pwp_call.
  { eapply (parse_key_value_pair_spec (S (reads_left s1)) (looping parse_value)); [|solve_ready|solve_some|apply Hdoc1|lia].
    intros s2 Hr2 Hc2 Had2 _. apply pwp_looping. intros n Hn. by apply parse_value_spec. }
  intros [segs v] s2 Ha2 Hv. cbn in Hv. cbn beta iota.
  eapply pwp_mono.
  { apply at_table_spec; [solve_ready| |eapply after_document; [exact Ha2|exact Hdoc1]].
    intros m r Hm. eapply pwp_call; [apply insert_value_spec; [solve_ready|done|done]|].
    intros m' s3 Ha3 Hm'. by apply pwp_ret. }
  cbn beta. intros _ s3 [Hmv3 Hdoc3]. split; [apply Hmv3|].
  split; [etransitivity; [apply Hmv3|]; by destruct Ha2 as (_ & _ & [])|].
  intros s4 Ha4 Hc4. split; [etransitivity; [apply Ha4|]; etransitivity; [apply Hmv3|];
    destruct Ha1 as (_ & _ & []), Ha2 as (_ & _ & []); congruence|].
  eapply pwp_mono; [apply expect_line_end_spec; solve_ready|]. cbn beta. intros _ s5 [Ha5 _].
  assert (after 1 s s2) as Has2 by chain.
  assert (moved 1 s s5) as Hmv5.
  { change 1%nat with (1 + (0 + (0 + 0)))%nat. eapply moved_trans; [by apply after_moved|]. eapply moved_trans; [exact Hmv3|].
    eapply moved_trans; by apply after_moved. }
  split; [apply Ha5|]. split; [etransitivity; [apply Hmv5|]; symmetry; apply Ha|].
  intros s6 Ha6 _. split.
  - change 1%nat with (1 + 0)%nat. eapply moved_trans; [exact Hmv5|by apply after_moved].
  - eapply after_document; [exact Ha6|]. eapply after_document; [exact Ha5|]. by eapply after_document.
Qed.

Lemma document_step_spec path s :
  ready s → is_Some (cp s) → document_ok path s →
  pwp (document_step path) (λ path' s', moved 1 s s' ∧ document_ok path' s') s.
Proof.
  intros Hr Hc Hdoc. unfold document_step.
  assert (∀ s1, after 1 s s1 → moved 1 s s1 ∧ document_ok path s1) as Hblank.
  { intros s1 Ha. split; [by apply after_moved|by eapply after_document]. }
  eapply pwp_call; [by apply consume_leading_whitespace_spec|]. intros [] s1 Ha1 [Hb1 Hs1]; [by apply Hblank|].
  rewrite (Hs1 eq_refl). eapply pwp_call; [by apply consume_line_break_spec|].
  intros [] s2 Ha2 [[Hb2 Hs2] _]; [by apply Hblank|]. rewrite (Hs2 eq_refl).
  eapply pwp_call; [by apply consume_comment_spec|]. intros [] s3 Ha3 [Hb3 Hs3]; [by apply Hblank|].
  rewrite (Hs3 eq_refl). clear s1 Ha1 Hb1 Hs1 s2 Ha2 Hb2 Hs2 s3 Ha3 Hb3 Hs3. pwp_go.
  - by eapply parse_table_header_spec.
  - apply pwp_bind. eapply pwp_mono; [by apply parse_document_pair_spec|]. cbn beta. intros _ s1 [Hm1 Hd1].
    split; [apply Hm1|]. by apply pwp_ret.
Qed.

Lemma document_loop_spec n path s :
  ready s → is_Some (cp s) → document_ok path s → (reads_left s < n)%nat →
  pwp (document_loop n path) (λ path' s', moved 0 s s' ∧ document_ok path' s') s.
Proof.
  revert path s. induction n as [|n IH]; intros path s Hr Hc Hdoc Hn; [lia|]. cbn [document_loop].
  apply pwp_bind. eapply pwp_mono; [by apply document_step_spec|]. cbn beta. intros path1 s1 [Hm1 Hd1].
  split; [apply Hm1|]. apply pwp_bind_is_eof; intros Hc1.
  - apply pwp_ret. split; [|done]. destruct Hm1 as (? & ? & ?). split; [done|]. split; [lia|done].
  - pose proof Hm1 as (Hr1 & Hl1 & Hp1). eapply pwp_mono; [apply IH; [done|done|done|lia]|]. cbn beta. intros path2 s2 [Hm2 Hd2].
    split; [|done]. destruct Hm2 as (? & ? & ?). split; [done|]. split; [lia|congruence].
Qed.

(** Changes of the region of a table. *)
Lemma root_region_spec path g s :
  ready s → document_ok path s →
  pwp (at_table [] (λ m r, mret (m, g r))) (λ _ s', moved 0 s s' ∧ document_ok path s') s.
Proof.
  intros Hr (Had & Hw & a & m & i & r & Hroot & Hres). unfold at_table. apply pwp_bind_gets. rewrite Hroot in *.
  apply pwp_bind_ret. unfold pwp, modify. split; [|split; [done|]].
  - split; [done|]. split; [unfold reads_left; cbn; lia|done].
  - cbn [root set_root]. split; [exact Hw|]. by exists a, m, i, (g r).
Qed.

Lemma table_region_spec path g s :
  ready s → document_ok path s →
  pwp (at_table path (λ m r, mret (m, g r))) (λ _ s', moved 0 s s' ∧ document_ok path s') s.
Proof.
  intros Hr Hd. apply at_table_spec; [done| |done]. intros m r Hm. apply pwp_ret. by split; [chain|].
Qed.

Lemma document_ok_nil path s : document_ok path s → document_ok [] s.
Proof. intros (? & ? & a & m & i & r & ? & ?). split; [done|]. split; [done|]. by exists a, m, i, r. Qed.

Lemma parse_document_spec s :
  ready s → is_Some (cp s) → document_ok [] s →
  pwp parse_document (λ _ s', source_path s' = source_path s ∧ document_ok [] s') s.
Proof.
  intros Hr Hc Hdoc. unfold parse_document. apply pwp_scoped_moved; [done|]. intros s0 Ha Hc0 _.
  apply pwp_bind. eapply pwp_mono.
  { apply pwp_looping. intros n Hn. apply document_loop_spec; [solve_ready|solve_some|by eapply after_document|done]. }
  cbn beta. intros path s1 [Hm1 Hd1]. split; [apply Hm1|]. unfold current_position. apply pwp_bind_gets.
  apply pwp_bind. eapply pwp_mono; [apply (root_region_spec path); [apply Hm1|done]|]. cbn beta. intros _ s2 [Hm2 Hd2].
  split; [apply Hm2|]. pose proof (moved_trans _ _ _ _ _ Hm1 Hm2) as Hm02.
  assert (∀ s3, moved 0 s2 s3 → document_ok path s3 →
    ready s3 ∧ source_path s3 = source_path s0 ∧ (∀ s'', after 0 s3 s'' → cp s'' = cp s3 →
      source_path s'' = source_path s ∧ document_ok [] s'')) as Hend.
  { intros s3 Hm3 Hd3. pose proof (moved_trans _ _ _ _ _ Hm02 Hm3) as Hm03. split; [apply Hm03|]. split; [apply Hm03|].
    intros s4 Ha4 _. split; [|by eapply after_document, document_ok_nil].
    destruct Ha4 as (_ & _ & []), Ha as (_ & _ & []), Hm03 as (_ & _ & ?). congruence. }
  destruct path as [|k path].
  - apply pwp_ret, Hend; [|done]. split; [apply Hm2|]. split; [lia|done].
  - eapply pwp_mono; [apply table_region_spec; [apply Hm2|done]|]. cbn beta. intros _ s3 [Hm3 Hd3]. by apply Hend.
Qed.

(** ** The entry point *)
Lemma update_region_ends_wf arrays fresh n : wf_node arrays fresh n → wf_node arrays fresh (update_region_ends n).
Proof.
  induction n as [a m i r IH|a els r IH|n H1 H2] using node_induction; cbn [update_region_ends].
  - destruct i; [done|]. rewrite !wf_table. intros [Hs Hm]. split.
    + unfold ascending in *. clear Hm IH. induction Hs as [|kv m Hs IH Hall]; cbn; constructor; [done|].
      apply Forall_map. eapply Forall_impl; [exact Hall|]. done.
    + clear Hs. apply Forall_map. induction IH; inversion Hm; subst; constructor; auto.
  - rewrite !wf_array. intros (Hlt & Hl & Hels). split; [done|]. split.
    + intros Hin. specialize (Hl Hin). change (map update_region_ends els) with (update_region_ends <$> els).
      rewrite fmap_last. destruct (last els) as [l|]; [|done].
      destruct Hl as (t & m & i & r1 & ->). cbn. destruct i; by repeat eexists.
    + clear Hl. apply Forall_map. induction IH; inversion Hels; subst; constructor; auto.
  - destruct n as [a m i r|a els r| | | | | | |]; try done; [by destruct (H1 a m i r)|by destruct (H2 a els r)].
Qed.

Lemma read_first_spec s :
  br_negative_offset (reader s) = 0 → br_head (reader s) = None → br_count (reader s) = 0 →
  pwp read_first (λ _ s', (is_Some (cp s') → ready s') ∧ same s s') s.
Proof.
  intros H1 H2 H3. unfold pwp, read_first, buffered_read_next. rewrite H1, H2, H3. cbn [Z.eqb negb].
  destruct (read_next (br_reader (reader s))) as [c r|r|what pos]; cbn [set_head]; [| |done].
  - split; [|done]. intros _. unfold ready. cbn. rewrite H3. naive_solver lia.
  - split; [|done]. by intros [].
Qed.

Lemma parse_stream_spec stream path :
  pwp parse_stream (λ t s', wf_map (table_arrays s') (next_addr s') t.1) (parser_new stream path).
Proof.
  set (s := parser_new stream path).
  assert (document_ok [] s) as Hdoc.
  { split; [constructor|]. split; [apply wf_table, wf_map_nil|]. by repeat eexists. }
  assert (∀ s', source_path s' = source_path s → document_ok [] s' →
    pwp (rt ← gets root; match update_region_ends rt with Table _ m _ r => mret (m, r) | _ => undefined NullNode end)
      (λ t s', wf_map (table_arrays s') (next_addr s') t.1) s') as Hend.
  { intros s' _ (_ & Hw & a & m & i & r & Hroot & _). apply pwp_bind_gets.
    apply update_region_ends_wf in Hw. rewrite Hroot in *. cbn [update_region_ends] in *.
    destruct i; by apply wf_table in Hw. }
  unfold parse_stream. apply pwp_bind_gets, pwp_bind_if; intros _; [by apply pwp_bind_ret, Hend|].
  apply pwp_bind_assoc, pwp_bind. eapply pwp_mono; [by apply read_first_spec|]. cbn beta. intros _ s1 [Hr1 Hs1].
  split; [apply Hs1|].
  assert (document_ok [] s1) as Hdoc1.
  { destruct Hs1 as [_ Hroot Harr Haddr], Hdoc as (Had & Hw & Hres). split.
    - unfold addresses. by rewrite Harr.
    - rewrite Hroot. split; [apply wf_table, wf_map_nil|done]. }
  apply pwp_bind_assoc, pwp_bind_is_eof; intros Hc; [apply pwp_bind_ret, Hend; [apply Hs1|done]|].
  apply pwp_bind. eapply pwp_mono; [by apply parse_document_spec; [apply Hr1| |]|]. cbn beta. intros _ s2 [Hp2 Hd2].
  split; [done|]. apply Hend; [|done]. etransitivity; [exact Hp2|apply Hs1].
Qed.

Lemma wf_ordered arrays fresh n : wf_node arrays fresh n → ordered n.
Proof.
  induction n as [a m i r IH|a els r IH|n H1 H2] using node_induction.
  - rewrite wf_table. intros [Hs Hm]. cbn. split; [done|]. clear Hs. induction IH; inversion Hm; subst; cbn; auto.
  - rewrite wf_array. intros (_ & _ & Hels). cbn. induction IH; inversion Hels; subst; cbn; auto.
  - destruct n as [a m i r|a els r| | | | | | |]; try done; [by destruct (H1 a m i r)|by destruct (H2 a els r)].
Qed.

(** What a parse may end in: a document whose tables are ordered maps at every
    level, an exception that names the file, or one of two overflows. *)
Definition ends_well (path : bytes) (r : outcome table) : Prop :=
  match r with
  | Done t _ => ascending t.1 ∧ Forall (λ kv, ordered kv.2) t.1
  | Throws e => path ≠ [] → reg_path (pe_source e) = Some path
  | Undefined u => u = BufferOverflow ∨ u = SignedOverflow
  | OutOfFuel => False
  end.

Lemma parse_stream_ends stream path : ends_well path (parse_stream (parser_new stream path)).
Proof.
  pose proof (parse_stream_spec stream path) as H. unfold pwp in H. unfold ends_well.
  destruct (parse_stream (parser_new stream path)) as [t s|e|u|]; [|intros Hp; by destruct path|done..].
  destruct H as [Ha Hm]. split; [done|]. eapply Forall_impl; [exact Hm|]. intros kv. apply wf_ordered.
Qed.

Lemma parse_file_ends f path : ends_well path (parse_file f path).
Proof.
  unfold parse_file. destruct f as [| |contents]; [done..|]. case_match; apply parse_stream_ends.
Qed.

(** C13: the TOML parser is total: for every text, [toml::parse] returns a
    document or throws a [parse_error], and so does [toml::parse_file] whatever
    it finds at its path; their loops and recursion end, and they never read the
    current character past the end of the text nor follow a path that leads to
    no table. The tables of a document are ordered maps at every level, and
    every error names the file. What remains undefined are the overflow of the
    buffer of [parse_float] and the signed overflow of [parse_integer]. *)
Theorem toml_parse_total f doc contents path :
  ends_well path (parse_file f path) ∧ ends_well path (parse doc path) ∧
  ends_well path (parse_istream contents path).
Proof. split_and!; [apply parse_file_ends|apply parse_stream_ends..]. Qed.

(** Both overflows occur. *)
Example float_buffer_overflows :
  parse_file (File (bs "x = " ++ replicate 64 "1"%byte ++ bs ".")) (bs "c.toml") = Undefined BufferOverflow.
Proof. vm_compute. reflexivity. Qed.

Example smallest_integer_overflows :
  parse_file (File (bs "x = -9223372036854775808")) (bs "c.toml") = Undefined SignedOverflow.
Proof. vm_compute. reflexivity. Qed.
