(* ===== verification/TomlExact.v ===== *)
(** * TomlExact: what the TOML parser computes

    Integers are exact within their 64 bits, escapes are UTF-8 but for one mask,
    and strings are read back: the functional side of the parser, with the texts
    on which it goes wrong. *)
From Stdlib Require Import SpecFloat.
From S2P Require Import Prelude Bytes Env TomlNode TomlUtf8 TomlReader TomlParser TomlScalar TomlDocument.

Local Open Scope Z_scope.

(** ** Unicode escapes *)
Lemma land_mask v n m : m = 2 ^ n - 1 → 0 ≤ n → Z.land v m = v mod 2 ^ n.
Proof. intros -> Hn. rewrite <- Z.land_ones by done. by rewrite Z.ones_equiv. Qed.

Lemma lor_high b a v n : b = a * 2 ^ n → 0 ≤ n → 0 ≤ v < 2 ^ n → Z.lor b v = b + v.
Proof.
  intros -> Hn Hv. rewrite Z.lor_comm, <- Z.shiftl_mul_pow2 by done. rewrite decoder_facts.lor_shiftl_low by done.
  by rewrite Z.shiftl_mul_pow2.
Qed.

Ltac low_bits := first [done|lia|apply Z.mod_pos_bound; lia].

(** The continuation byte of six bits. *)
Lemma continuation v : Z.lor 0x80 (Z.land v 0x3F) = 0x80 + v mod 64.
Proof.
  rewrite (land_mask v 6) by low_bits. apply (lor_high _ 2 _ 6); low_bits.
Qed.

Lemma byte_of_Z_inj x y : 0 ≤ x < 256 → 0 ≤ y < 256 → byte_of_Z x = byte_of_Z y → x = y.
Proof.
  intros Hx Hy H. apply (f_equal byte_to_Z) in H. rewrite !byte_to_of_Z in H. by rewrite !Z.mod_small in H.
Qed.

Lemma escape_bytes_exact v :
  scalar v →
  escape_bytes v = utf8_encode v ↔ v < 0x800 ∨ 0x10000 ≤ v ∨ Z.testbit v 11 = false.
Proof.
  intros Hv. assert (0 ≤ v ≤ 0x10FFFF) as Hr by (unfold scalar in Hv; lia). unfold escape_bytes, utf8_encode.
  assert (∀ n, 0 ≤ n → Z.shiftr v n = v / 2 ^ n) as Hs by (intros; by apply Z.shiftr_div_pow2).
  destruct (Z.leb_spec v 0x7F), (Z.ltb_spec v 0x80); try lia.
  { split; [intros _; lia|intros _]. rewrite (land_mask v 7) by low_bits. by rewrite Z.mod_small by lia. }
  destruct (Z.leb_spec v 0x7FF), (Z.ltb_spec v 0x800); try lia.
  { split; [intros _; lia|intros _]. rewrite continuation, Hs by lia. rewrite (land_mask _ 5) by low_bits.
    rewrite (lor_high _ 6 _ 5) by low_bits. change (2 ^ 6) with 64. change (2 ^ 5) with 32.
    rewrite (Z.mod_small (v / 64)) by (Z.to_euclidean_division_equations; lia). done. }
  destruct (Z.leb_spec v 0xFFFF), (Z.ltb_spec v 0x10000); try lia.
  - rewrite continuation, !Hs by lia. rewrite (land_mask _ 4), (land_mask _ 5) by low_bits.
    rewrite (lor_high _ 14 _ 4) by low_bits.
    rewrite (lor_high _ 4 (_ mod 2 ^ 5) 5) by low_bits.
    rewrite Z.testbit_eqb by lia. change (2 ^ 12) with 4096. change (2 ^ 6) with 64. change (2 ^ 11) with 2048.
    change (2 ^ 5) with 32. change (2 ^ 4) with 16. cbn [fmap list_fmap].
    rewrite (Z.mod_small (v / 4096)) by (Z.to_euclidean_division_equations; lia). split.
    + intros [= He]. apply byte_of_Z_inj in He; [|Z.to_euclidean_division_equations; lia..].
      right. right. apply Z.eqb_neq. Z.to_euclidean_division_equations. lia.
    + intros [?|[?|Hb%Z.eqb_neq]]; [lia|lia|]. do 2 f_equal. f_equal. Z.to_euclidean_division_equations. lia.
  - split; [intros _; lia|intros _]. rewrite !continuation, !Hs by lia. rewrite (land_mask _ 3) by low_bits.
    rewrite (lor_high _ 30 _ 3) by low_bits. change (2 ^ 18) with 262144.
    change (2 ^ 12) with 4096. change (2 ^ 6) with 64. change (2 ^ 3) with 8.
    rewrite (Z.mod_small (v / 262144)) by (Z.to_euclidean_division_equations; lia). done.
Qed.

(** C40: which unicode escapes a string may use: the escape of a scalar value
    adds its UTF-8 encoding to the string if and only if the value takes one,
    two or four bytes, or three with bit 11 clear. For half of the values of
    three bytes, U+0800 the first of them, the middle byte is cut to five bits
    and the string gets the bytes of another text. *)
Theorem escape_utf8_exact v :
  scalar v →
  escape_bytes v = utf8_encode v ↔ v < 0x800 ∨ 0x10000 ≤ v ∨ Z.testbit v 11 = false.
Proof. apply escape_bytes_exact. Qed.

Lemma escape_utf8_exact_witness :
  scalar 0x0800 ∧ escape_bytes 0x0800 ≠ utf8_encode 0x0800 ∧ escape_bytes 0x20AC = utf8_encode 0x20AC.
Proof.
  assert (scalar 0x0800) as Hs by (left; lia). assert (scalar 0x20AC) as Ht by (left; lia).
  split; [exact Hs|]. split.
  - intros H. apply (escape_utf8_exact 0x0800 Hs) in H as [?|[?|?]]; [lia|lia|discriminate].
  - apply (escape_utf8_exact 0x20AC Ht). right. right. reflexivity.
Defined.

(** ** Integers *)
Definition all_traits : list integer_traits := [binary_traits; octal_traits; decimal_traits; hexadecimal_traits].

Definition all_bytes : bytes := (λ n, byte_of_Z (Z.of_nat n)) <$> seq 0 256.

Lemma all_bytes_spec b : b ∈ all_bytes.
Proof.
  apply list_elem_of_fmap. exists (Z.to_nat (byte_to_Z b)). pose proof (byte_to_Z_range b).
  rewrite Z2Nat.id, byte_of_to_Z by lia. split; [done|]. apply elem_of_seq. lia.
Qed.

(** A digit has a value below its base, and only [0] has the value 0. *)
Lemma digit_value_spec t b :
  t ∈ all_traits → tr_is_digit t (U b) = true →
  0 ≤ digit_value t b < tr_base t ∧ (digit_value t b = 0 ↔ b = "0"%byte).
Proof.
  intros Ht Hd.
  assert (forallb (λ t, forallb (λ b, implb (tr_is_digit t (U b))
    ((0 <=? digit_value t b) && (digit_value t b <? tr_base t) &&
     eqb (digit_value t b =? 0) (bool_decide (b = "0"%byte)))) all_bytes) all_traits = true) as Hall
    by (vm_compute; reflexivity).
  rewrite forallb_forall in Hall. apply list_elem_of_In in Ht. specialize (Hall t Ht).
  rewrite forallb_forall in Hall. specialize (Hall b (proj1 (list_elem_of_In _ _) (all_bytes_spec b))).
  rewrite Hd in Hall. cbn [implb] in Hall. apply andb_true_iff in Hall as [Hr%andb_true_iff He].
  apply eqb_prop in He. split; [lia|]. rewrite <- Z.eqb_eq, He. by rewrite bool_decide_eq_true.
Qed.

Fixpoint le_value (base : Z) (ds : list Z) : Z :=
  match ds with [] => 0 | d :: ds => d + base * le_value base ds end.

(** The sum of [parse_integer] is right modulo 2^64. *)
Lemma accumulate_spec base ds r p :
  accumulate base ds (u64 r) (u64 p) = u64 (r + p * le_value base ds).
Proof.
  revert r p. induction ds as [|d ds IH]; intros r p; cbn [accumulate le_value].
  - f_equal. lia.
  - replace (u64 (u64 r + u64 (u64 p * d))) with (u64 (r + p * d)).
    2: { unfold u64. by rewrite Zmult_mod_idemp_l, <- Zplus_mod. }
    replace (u64 (u64 p * base)) with (u64 (p * base)) by (unfold u64; by rewrite Zmult_mod_idemp_l).
    rewrite IH. f_equal. lia.
Qed.

Lemma le_value_app base ds d : le_value base (ds ++ [d]) = le_value base ds + base ^ Z.of_nat (length ds) * d.
Proof.
  induction ds as [|x ds IH]; cbn [le_value app length]; [cbn; lia|].
  rewrite IH, Nat2Z.inj_succ, Z.pow_succ_r by lia. lia.
Qed.

Lemma digits_value_le base ds : digits_value base ds = le_value base (rev ds).
Proof.
  induction ds as [|d ds IH] using rev_ind; [done|].
  unfold digits_value in *. rewrite foldl_app, rev_app_distr, IH. cbn. lia.
Qed.

Lemma le_value_range base ds :
  0 < base → Forall (λ d, 0 ≤ d < base) ds → 0 ≤ le_value base ds < base ^ Z.of_nat (length ds).
Proof.
  intros Hb. induction 1 as [|d ds Hd _ IH]; cbn [le_value length]; [cbn; lia|].
  rewrite Nat2Z.inj_succ, Z.pow_succ_r by lia. nia.
Qed.

Lemma drop_zeros_value t chars :
  t ∈ all_traits → digits_value (tr_base t) (digit_value t <$> drop_zeros chars)
  = digits_value (tr_base t) (digit_value t <$> chars).
Proof.
  intros Ht. induction chars as [|b chars IH]; [done|]. cbn [drop_zeros]. case_decide as Hb; [|done].
  rewrite IH. subst b. cbn [fmap list_fmap].
  assert (digit_value t "0" = 0) as ->.
  { unfold all_traits in Ht. rewrite list_elem_of_In in Ht. cbn in Ht. by repeat destruct Ht as [<-|Ht]. }
  unfold digits_value. done.
Qed.

Lemma drop_zeros_sub chars : drop_zeros chars `suffix_of` chars.
Proof.
  induction chars as [|b chars IH]; [done|]. cbn [drop_zeros]. case_decide; [|done]. by apply suffix_cons_r.
Qed.

(** No buffer holds more digits than a [uint64_t]. *)
Lemma buffer_bound t : t ∈ all_traits → 0 < tr_base t ∧ tr_base t ^ Z.of_nat (tr_buffer_length t) ≤ 2 ^ 64.
Proof.
  intros Ht. unfold all_traits in Ht. rewrite list_elem_of_In in Ht. cbn [In] in Ht.
  repeat destruct Ht as [<-|Ht]; [..|done]; (split; [reflexivity|]); apply Z.leb_le; vm_compute; reflexivity.
Qed.

Lemma fmap_rev_list {A B} (f : A → B) (l : list A) : f <$> rev l = rev (f <$> l).
Proof. apply map_rev. Qed.

(** The [uint64_t] that is computed is the value of the digits. *)
Lemma accumulate_exact t chars :
  t ∈ all_traits → Forall (λ b, tr_is_digit t (U b) = true) chars → (length chars ≤ tr_buffer_length t)%nat →
  accumulate (tr_base t) (digit_value t <$> rev (drop_zeros chars)) 0 1
  = digits_value (tr_base t) (digit_value t <$> chars).
Proof.
  intros Ht Hd Hl. destruct (buffer_bound t Ht) as [Hb Hp].
  pose proof (accumulate_spec (tr_base t) (digit_value t <$> rev (drop_zeros chars)) 0 1) as Ha.
  change (u64 0) with 0 in Ha. change (u64 1) with 1 in Ha. rewrite Ha, <- drop_zeros_value by done.
  rewrite digits_value_le, fmap_rev_list. clear Ha. set (ds := digit_value t <$> drop_zeros chars).
  rewrite Z.add_0_l, Z.mul_1_l. unfold u64. apply Z.mod_small.
  destruct (drop_zeros_sub chars) as [zs Hzs].
  assert (Forall (λ d, 0 ≤ d < tr_base t) (rev ds)) as Hds.
  { apply Forall_rev. unfold ds. apply Forall_fmap. rewrite Hzs in Hd. apply Forall_app in Hd as [_ Hd].
    eapply Forall_impl; [exact Hd|]. intros b Hbd. by apply digit_value_spec. }
  pose proof (le_value_range (tr_base t) (rev ds) Hb Hds).
  assert (length (rev ds) ≤ tr_buffer_length t)%nat.
  { unfold ds. rewrite length_rev, length_fmap. rewrite Hzs, length_app in Hl. lia. }
  assert (tr_base t ^ Z.of_nat (length (rev ds)) ≤ tr_base t ^ Z.of_nat (tr_buffer_length t))
    by (apply Z.pow_le_mono_r; lia). lia.
Qed.

(** The digits collected in any of the four bases are returned with their sign
    when their value fits an [int64_t] of that sign, and refused when it does not;
    the [uint64_t] they are summed in never wraps. The one value that is neither
    is the smallest [int64_t]. *)
Lemma integer_value_exact t sign chars s :
  t ∈ all_traits → Forall (λ b, tr_is_digit t (U b) = true) chars → (length chars ≤ tr_buffer_length t)%nat →
  sign = 1 ∨ (sign = -1 ∧ tr_is_signed t = true ∧ (1 < length chars)%nat) →
  (tr_base t = 10 → head chars ≠ Some "0"%byte) →
  let v := digits_value (tr_base t) (digit_value t <$> chars) in
  (v < 2 ^ 63 → integer_value t sign chars s = Done (sign * v) s) ∧
  (v = 2 ^ 63 → sign = -1 → integer_value t sign chars s = Undefined SignedOverflow) ∧
  (v > 2 ^ 63 ∨ (v = 2 ^ 63 ∧ sign = 1) → ∃ e, integer_value t sign chars s = Throws e).
Proof.
  intros Ht Hd Hl Hsign Hzero v.
  assert (0 ≤ v) as Hv0.
  { unfold v. rewrite digits_value_le. destruct (buffer_bound t Ht) as [Hb _]. apply le_value_range; [done|].
    apply Forall_rev, Forall_fmap. eapply Forall_impl; [exact Hd|]. intros b Hbd. by apply digit_value_spec. }
  unfold integer_value.
  replace ((tr_base t =? 10) && bool_decide (head chars = Some "0"%byte)) with false.
  2: { symmetry. apply andb_false_iff. destruct (Z.eqb_spec (tr_base t) 10); [right|by left].
       apply bool_decide_eq_false. auto. }
  pose proof (accumulate_exact t chars Ht Hd Hl) as Hacc. fold v in Hacc.
  destruct chars as [|b [|b' chars]].
  - subst v. cbn. split; [intros _; destruct Hsign as [->|(_ & _ & ?)]; [done|cbn in *; lia]|]. split; cbn; lia.
  - destruct Hsign as [->|(_ & _ & ?)]; [|cbn in *; lia]. subst v.
    assert (digits_value (tr_base t) (digit_value t <$> [b]) = digit_value t b) as -> by (cbn; lia).
    inversion Hd as [|? ? Hb _]; subst. destruct (digit_value_spec t b Ht Hb) as [Hr _].
    assert (tr_base t ≤ 16) as H16.
    { unfold all_traits in Ht. rewrite list_elem_of_In in Ht. cbn [In] in Ht. repeat destruct Ht as [<-|Ht]; done. }
    split; [intros _; by rewrite Z.mul_1_l|]. split; lia.
  - set (cs := b :: b' :: chars) in *. destruct (drop_zeros cs) as [|z zs] eqn:Hz.
    + clearbody v. cbn in Hacc. subst v. split; [intros _; by rewrite Z.mul_0_r|]. split; lia.
    + clearbody v. cbv zeta. rewrite Hacc. unfold int64_max.
      assert (v < 2 ^ 63 → s64 v = v) as Hs64 by (intros; unfold s64; rewrite Z.mod_small; lia).
      destruct Hsign as [->|(-> & Hsg & _)]; cbn [Z.ltb Z.compare].
      * destruct (Z.ltb_spec (2 ^ 63 - 1 + 0) v) as [Hlt|Hge].
        { split; [lia|]. split; [done|]. intros _. by eexists. }
        split; [intros Hlt|split; lia]. rewrite Hs64, Z.mul_1_r, Z.mul_1_l by done.
        destruct (tr_is_signed t); [|done].
        by rewrite (proj2 (Z.leb_le (- 2 ^ 63) v)), (proj2 (Z.leb_le v (2 ^ 63 - 1))) by lia.
      * destruct (Z.ltb_spec (2 ^ 63 - 1 + 1) v) as [Hlt|Hge].
        { split; [lia|]. split; [lia|]. intros _. by eexists. }
        rewrite Hsg. split; [|split; [|lia]].
        -- intros Hlt. rewrite Hs64 by done. replace (v * -1) with (-1 * v) by lia.
           by rewrite (proj2 (Z.leb_le (- 2 ^ 63) (-1 * v))), (proj2 (Z.leb_le (-1 * v) (2 ^ 63 - 1))) by lia.
        -- intros -> _. vm_compute. reflexivity.
Qed.
