(* ===== verification/TomlText.v ===== *)
(** * TomlText: the parser at a place in a text

    [at_text] relates the state of the parser to the text before and after its
    cursor, through the reader, its history and the UTF-8 decoder; [reads] states
    what a function of the parser makes of the text it consumes. With these,
    functions of the parser are specified by the text they read. *)
From Stdlib Require Import SpecFloat.
From S2P Require Import Prelude Bytes Env TomlNode TomlUtf8 TomlReader TomlParser TomlScalar TomlDocument.

Local Open Scope Z_scope.

(** ** Code points with their bytes *)
Definition proper (x : utf8_codepoint) : Prop := scalar (value x) ∧ cp_bytes x = utf8_encode (value x).

Lemma x00_not_in_encode c : scalar c → c ≠ 0 → x00 ∉ utf8_encode c.
Proof.
  intros Hc H0. assert (0 ≤ c ≤ 0x10FFFF) as Hr by (unfold scalar in Hc; lia).
  assert (∀ z, 0 < z < 256 → byte_of_Z z ≠ x00) as Hz.
  { intros z Hz He. apply (f_equal byte_to_Z) in He. rewrite byte_to_of_Z, Z.mod_small in He by lia.
    change (byte_to_Z x00) with 0 in He. lia. }
  unfold utf8_encode. repeat case_match; cbn [fmap list_fmap]; rewrite ?not_elem_of_cons; split_and!;
    try (apply not_elem_of_nil); intros He; symmetry in He; revert He; apply Hz; Z.to_euclidean_division_equations; lia.
Qed.

Lemma as_view_proper x : proper x → value x ≠ 0 → as_view x = utf8_encode (value x).
Proof.
  intros [Hs Hb] H0. unfold as_view. rewrite <- Hb. pose proof (x00_not_in_encode _ Hs H0) as Hn. rewrite <- Hb in Hn.
  assert (c_str (cp_bytes x) = cp_bytes x) as Hc by (unfold c_str; by rewrite c_str_at_app).
  destruct (cp_bytes x) as [|b0 [|b1 [|b2 [|b3 [|b4 l]]]]]; done.
Qed.

(** ** Where the parser is

    The reader has read [seen] and its head [h] and has [rest] to come; it is set
    back by [k]. The text at the cursor is [cs]. *)
Inductive stands (s : parser) (k : nat) (past : list utf8_codepoint) (cs : list Z) : Prop :=
| mk_stands (seen : list utf8_codepoint) (rest : list Z)
    (at_history : history_inv (reader s) seen)
    (at_offset : br_negative_offset (reader s) = Z.of_nat k)
    (at_k : (k ≤ 71)%nat ∧ (k ≤ length seen)%nat)
    (at_started : started (br_reader (reader s)))
    (at_stream : rd_stream (br_reader (reader s)) = encode_text rest)
    (at_scalar : Forall scalar rest)
    (at_eof : br_head (reader s) = None → rest = [] ∧ seen ≠ [])
    (at_proper : Forall proper (seen ++ option_list (br_head (reader s))))
    (at_past : past = take (length seen - k) seen)
    (at_cs : cs = (value <$> drop (length seen - k) seen ++ option_list (br_head (reader s))) ++ rest)
    (at_cp : cp s = head (drop (length seen - k) seen ++ option_list (br_head (reader s))))
    (at_length : Z.of_nat (length past + length cs) < 2 ^ 64).

(** What reading does not change. *)
Record keeps (s s' : parser) : Prop := mk_keeps {
  keeps_path : source_path s' = source_path s;
  keeps_root : root s' = root s;
  keeps_scope : current_scope s' = current_scope s;
  keeps_arrays : table_arrays s' = table_arrays s;
  keeps_dotted : dotted_key_tables s' = dotted_key_tables s;
  keeps_implicit : implicit_tables s' = implicit_tables s;
  keeps_addresses : (next_addr s ≤ next_addr s')%positive;
}.

#[global] Instance keeps_refl : Reflexive keeps.
Proof. intros s. by split. Qed.
#[global] Instance keeps_trans : Transitive keeps.
Proof. intros s1 s2 s3 [] []. split; congruence || by etransitivity. Qed.

(** Only the cursor matters. *)
Lemma stands_same s s' k past cs :
  reader s' = reader s → cp s' = cp s → stands s k past cs → stands s' k past cs.
Proof. intros Hr Hc [seen rest]. exists seen rest; by rewrite ?Hr, ?Hc. Qed.

Lemma stands_cur s k past c cs :
  stands s k past (c :: cs) → ∃ x, cp s = Some x ∧ value x = c ∧ proper x.
Proof.
  intros [seen rest Hh Ho Hk Hst Hstr Hsc Heof Hp -> Hcs Hcp Hlen].
  destruct (drop (length seen - k) seen ++ option_list (br_head (reader s))) as [|x l] eqn:E.
  - apply app_eq_nil in E as [_ E]. destruct (br_head (reader s)); [done|].
    destruct (Heof eq_refl) as [-> _]. done.
  - injection Hcs as -> _. exists x. split; [done|]. split; [done|].
    assert (Forall proper (drop (length seen - k) seen ++ option_list (br_head (reader s)))) as Hpl.
    { apply Forall_app in Hp as [Hp1 Hp2]. apply Forall_app. split; [by apply Forall_drop|done]. }
    rewrite E in Hpl. by inversion Hpl.
Qed.

Lemma stands_end s k past : stands s k past [] → cp s = None.
Proof.
  intros [seen rest Hh Ho Hk Hst Hstr Hsc Heof Hp -> Hcs Hcp Hlen].
  destruct (drop (length seen - k) seen ++ option_list (br_head (reader s))); [done|].
  symmetry in Hcs. by apply app_eq_nil in Hcs as [? _].
Qed.

Lemma stands_scalar_text s k past cs : stands s k past cs → Forall scalar cs.
Proof.
  intros [seen rest Hh Ho Hk Hst Hstr Hsc Heof Hp -> -> Hcp Hlen]. apply Forall_app. split; [|done].
  apply Forall_fmap. apply Forall_app in Hp as [Hp1 Hp2].
  eapply (Forall_impl proper); [|by intros x []]. apply Forall_app. split; [by apply Forall_drop|done].
Qed.

Lemma encode_text_length cs : (length cs ≤ length (encode_text cs))%nat.
Proof.
  induction cs as [|c cs IH]; [done|]. rewrite encode_text_cons, length_app.
  destruct (utf8_encode_cons c) as (b & l & ->). cbn [length]. lia.
Qed.

(** There are at least as many reads left as there is text. *)
Lemma stands_fuel s k past cs : stands s k past cs → (length cs ≤ reads_left s)%nat.
Proof.
  intros [seen rest Hh Ho [Hk1 Hk2] Hst Hstr Hsc Heof Hp -> -> Hcp Hlen]. unfold reads_left.
  rewrite Ho, Nat2Z.id, Hstr, length_app, length_fmap, length_app, length_drop.
  pose proof (encode_text_length rest). destruct (br_head (reader s)); simpl; [lia|].
  destruct (Heof eq_refl) as [-> _]. cbn. lia.
Qed.

Lemma stands_k s k past cs : stands s k past cs → (k ≤ 71)%nat.
Proof. by intros [? ? ? ? []]. Qed.

(** The first character of a document. *)
Lemma stands_start cs path :
  cs ≠ [] → Forall scalar cs → Z.of_nat (length cs) < 2 ^ 64 →
  ∃ s, read_first (parser_new (encode_text cs) path) = Done tt s ∧ stands s 0 [] cs ∧
    keeps (parser_new (encode_text cs) path) s.
Proof.
  intros Hne Hcs Hlen. destruct cs as [|c cs]; [done|]. inversion Hcs as [|? ? Hc Hcs']; subst.
  destruct (read_next_complete (utf8_reader_new (encode_text (c :: cs))) c (encode_text cs))
    as (r & Hr & Hs & Hstr); [done|done|done|].
  unfold read_first, parser_new, buffered_read_next, utf8_buffered_reader_new.
  cbn [reader br_negative_offset br_head br_count br_reader Z.eqb negb set_head]. rewrite Hr. cbn [set_head].
  eexists. split; [done|]. split; [|done].
  exists [] cs; cbn [reader set_cursor br_negative_offset br_head br_count br_reader cp app option_list]; try done.
  - lia.
  - by constructor.
Qed.

(** ** Moving *)
Definition moved_to (s : parser) (b : utf8_buffered_reader) (c : option utf8_codepoint) (s' : parser) : Prop :=
  reader s' = b ∧ cp s' = c ∧ keeps s s'.

Lemma advance_moves s x h b :
  cp s = Some x → buffered_read_next (reader s) = read_head h b →
  ∃ s', advance s = Done () s' ∧ moved_to s b h s'.
Proof.
  intros Hc Hb. unfold advance. rewrite Hc, Hb. destruct h as [c|]; cbn [read_head]; by eexists.
Qed.

(** The head moves to the history, and the reader reads the next character. *)
Lemma stands_read_step s seen rest x h r' rest' :
  history_inv (reader s) seen → br_negative_offset (reader s) = 0 → br_head (reader s) = Some x → cp s = Some x →
  Forall proper (seen ++ [x]) → Z.of_nat (length (seen ++ [x]) + length rest) < 2 ^ 64 →
  let b := push_history (reader s) x in
  set_head b (read_next (br_reader b)) = read_head h (mk_buffered r' (br_buffer b) (br_count b) (br_first b) h 0) →
  started r' → rd_stream r' = encode_text rest' → Forall scalar rest' → (h = None → rest' = []) →
  Forall proper (option_list h) → rest = (value <$> option_list h) ++ rest' →
  ∃ s', advance s = Done () s' ∧ stands s' 0 (seen ++ [x]) rest ∧ keeps s s'.
Proof.
  intros Hh Ho Hhead Hx Hp Hlen b Hset Hst' Hstr' Hsc' Hn Hph Hrest.
  pose proof (push_history_inv _ _ x Hh) as Hpush. fold b in Hpush.
  assert (buffered_read_next (reader s) =
    read_head h (mk_buffered r' (br_buffer b) (br_count b) (br_first b) h 0)) as Hread.
  { unfold buffered_read_next. rewrite Ho, Hhead. exact Hset. }
  destruct (advance_moves s x h _ Hx Hread) as (s' & Ha & Hr & Hc & Hkeep). exists s'.
  split_and!; try done. exists (seen ++ [x]) rest'; rewrite ?Hr, ?Hc, ?Nat.sub_0_r; cbn [br_negative_offset br_reader br_head];
    try done.
  - lia.
  - intros ->. split; [auto|]. by destruct seen.
  - apply Forall_app. by split.
  - by rewrite take_ge by lia.
  - by rewrite drop_all.
  - rewrite drop_all. by destruct h.
Qed.

Lemma stands_read s past c cs :
  stands s 0 past (c :: cs) →
  ∃ x s', cp s = Some x ∧ value x = c ∧ proper x ∧ advance s = Done () s' ∧
    stands s' 0 (past ++ [x]) cs ∧ keeps s s'.
Proof.
  intros Hat. pose proof (stands_cur _ _ _ _ _ Hat) as (x & Hx & Hv & Hpx).
  destruct Hat as [seen rest Hh Ho [Hk1 Hk2] Hst Hstr Hsc Heof Hp -> Hcs Hcp Hlen]. exists x.
  rewrite Nat.sub_0_r in *. rewrite drop_all in *. rewrite take_ge in * by lia. cbn [app] in *.
  destruct (br_head (reader s)) as [y|] eqn:Hhead; [|simpl in Hcp; congruence]. cbn in Hcp, Hcs. injection Hcs as -> ->.
  assert (y = x) as -> by congruence.
  assert (br_reader (push_history (reader s) x) = br_reader (reader s)) as Hbr by (unfold push_history; by case_match).
  assert (Z.of_nat (length (seen ++ [x]) + length rest) < 2 ^ 64) as Hl by (rewrite length_app; cbn in *; lia).
  cut (∃ s', advance s = Done () s' ∧ stands s' 0 (seen ++ [x]) rest ∧ keeps s s').
  { intros (s' & Ha & Hat & Hk). exists s'. by split_and!. }
  destruct rest as [|c' rest].
  - apply (stands_read_step s seen [] x None (br_reader (reader s)) []); try done. unfold read_next. by rewrite Hbr, Hstr.
  - inversion Hsc as [|? ? Hc' Hsc']; subst.
    destruct (read_next_complete (br_reader (push_history (reader s) x)) c' (encode_text rest)) as (r' & Hrn & Hst' & Hstr');
      [by rewrite Hbr|done|by rewrite Hbr|].
    eapply (stands_read_step s seen (c' :: rest) x (Some _) r' rest); try done; [by rewrite Hrn|by constructor|done].
Qed.

(** Set back, the history is replayed. *)
Lemma stands_replay s k past c cs :
  stands s (S k) past (c :: cs) →
  ∃ x s', cp s = Some x ∧ value x = c ∧ proper x ∧ advance s = Done () s' ∧
    stands s' k (past ++ [x]) cs ∧ keeps s s'.
Proof.
  intros Hat. pose proof (stands_cur _ _ _ _ _ Hat) as (x & Hx & Hv & Hpx).
  destruct Hat as [seen rest Hh Ho [Hk1 Hk2] Hst Hstr Hsc Heof Hp -> Hcs Hcp Hlen]. exists x.
  assert (Z.of_nat (length seen) < 2 ^ 64) as Hls.
  { apply (f_equal length) in Hcs. rewrite length_app, length_fmap, length_app, length_drop in Hcs.
    rewrite length_take in Hlen. lia. }
  assert (∃ h, buffered_read_next (reader s) = read_head h (set_offset (reader s) (Z.of_nat k)) ∧
    h = head (drop (length seen - k) seen ++ option_list (br_head (reader s)))) as (h & Hread & Hh').
  { unfold buffered_read_next. rewrite Ho. destruct (Z.eqb_spec (Z.of_nat (S k)) 0); [lia|]. cbn [negb].
    replace (Z.of_nat (S k) - 1) with (Z.of_nat k) by lia. fold (set_offset (reader s) (Z.of_nat k)).
    destruct (Z.eqb_spec (Z.of_nat k) 0) as [E|E].
    - assert (k = O) as -> by lia. rewrite Nat.sub_0_r, drop_all. exists (br_head (reader s)).
      by destruct (br_head (reader s)).
    - exists (Some (history_at (reader s) (Z.of_nat k))). split; [done|].
      pose proof Hh as (Hcnt & _).
      rewrite (history_at_spec _ seen) by (try done; unfold history_buffer_size, max_history_length in *; lia).
      replace (Z.to_nat (Z.of_nat (length seen) - Z.of_nat k)) with (length seen - k)%nat by lia.
      destruct (lookup_lt_is_Some_2 seen (length seen - k)) as [y Hy]; [lia|].
      by rewrite (drop_S _ _ _ Hy). }
  destruct (advance_moves s x h _ Hx Hread) as (s' & Ha & Hr & Hc & Hkeep). exists s'.
  destruct (lookup_lt_is_Some_2 seen (length seen - S k)) as [y Hy]; [lia|].
  rewrite (drop_S _ _ _ Hy) in Hcp, Hcs. cbn in Hcp, Hcs. injection Hcs as -> ->.
  assert (y = x) as -> by congruence.
  replace (S (length seen - S k)) with (length seen - k)%nat in * by lia.
  split_and!; try done.
  exists seen rest; rewrite ?Hr, ?Hc; cbn [set_offset br_negative_offset br_reader br_head]; try done.
  + lia.
  + rewrite <- (take_S_r _ _ _ Hy). f_equal. lia.
  + rewrite length_app. cbn [length] in *. lia.
Qed.

Lemma stands_advance s k past c cs :
  stands s k past (c :: cs) →
  ∃ x s', cp s = Some x ∧ value x = c ∧ proper x ∧ advance s = Done () s' ∧
    stands s' (k - 1) (past ++ [x]) cs ∧ keeps s s'.
Proof. intros Hat. destruct k as [|k]; [by apply stands_read|]. rewrite Nat.sub_succ, Nat.sub_0_r. by apply stands_replay. Qed.

Lemma stands_go_back s k past back cs :
  stands s k (past ++ back) cs → (0 < length back)%nat → (k + length back ≤ 71)%nat →
  ∃ s', go_back (Z.of_nat (length back)) s = Done () s' ∧
    stands s' (k + length back) past ((value <$> back) ++ cs) ∧ keeps s s'.
Proof.
  intros [seen rest Hh Ho [Hk1 Hk2] Hst Hstr Hsc Heof Hp Hpast Hcs Hcp Hlen] Hb Hk.
  set (n := length back) in *.
  assert (length past + n = length seen - k)%nat as Hlp.
  { apply (f_equal length) in Hpast. rewrite length_app, length_take in Hpast. fold n in Hpast. lia. }
  assert (past = take (length seen - (k + n)) seen ∧ drop (length seen - (k + n)) seen = back ++ drop (length seen - k) seen)
    as [Hp1 Hp2].
  { rewrite <- (take_drop (length seen - k) seen) at 2 4. rewrite <- Hpast.
    replace (length seen - (k + n))%nat with (length past) by lia. split.
    - by rewrite <- app_assoc, take_app_length.
    - by rewrite <- app_assoc, drop_app_length. }
  assert (Z.of_nat (length seen) < 2 ^ 64) as Hls.
  { apply (f_equal length) in Hcs. rewrite length_app, length_fmap, length_app, length_drop in Hcs.
    rewrite length_app in Hlen. fold n in Hlen. lia. }
  unfold go_back, step_back. rewrite Ho, <- Nat2Z.inj_add. fold (set_offset (reader s) (Z.of_nat (k + n))).
  destruct back as [|y back]; [cbn in Hb; lia|].
  assert (Some (history_at (reader s) (Z.of_nat (k + n))) = Some y) as Hy.
  { pose proof Hh as (Hcnt & _).
    rewrite (history_at_spec _ seen) by (try done; unfold history_buffer_size, max_history_length in *; lia).
    replace (Z.to_nat (Z.of_nat (length seen) - Z.of_nat (k + n))) with (length seen - (k + n))%nat by lia.
    destruct (lookup_lt_is_Some_2 seen (length seen - (k + n))) as [z Hz]; [lia|].
    rewrite (drop_S _ _ _ Hz) in Hp2. cbn in Hp2. injection Hp2 as -> _. done. }
  injection Hy as ->. eexists. split; [done|]. split; [|done].
  exists seen rest; cbn [reader cp set_cursor set_offset br_negative_offset br_reader br_head]; try done.
  - lia.
  - by rewrite Hp2, <- app_assoc, fmap_app, Hcs, app_assoc.
  - by rewrite Hp2.
  - rewrite length_app, length_fmap in *. cbn [length] in *. lia.
Qed.

(** ** At a place in the text

    A look-ahead that goes too far by one character leaves the reader set back by
    one; from then on it stays at most one character further back than the
    functions that have gone back themselves account for with [k]. *)
Inductive at_text (s : parser) (k : nat) (past : list utf8_codepoint) (cs : list Z) : Prop :=
| mk_at_text j (at_limit : (k ≤ 70)%nat) (at_back : (j ≤ S k)%nat) (at_stands : stands s j past cs).

Lemma at_text_same s s' k past cs :
  reader s' = reader s → cp s' = cp s → at_text s k past cs → at_text s' k past cs.
Proof. intros Hr Hc [j Hk Hj Hs]. exists j; [done|done|]. by apply (stands_same s). Qed.

Lemma at_cur s k past c cs : at_text s k past (c :: cs) → ∃ x, cp s = Some x ∧ value x = c ∧ proper x.
Proof. intros [j _ _ Hs]. by eapply stands_cur. Qed.

Lemma at_end s k past : at_text s k past [] → cp s = None.
Proof. intros [j _ _ Hs]. by eapply stands_end. Qed.

Lemma at_scalar_text s k past cs : at_text s k past cs → Forall scalar cs.
Proof. intros [j _ _ Hs]. by eapply stands_scalar_text. Qed.

Lemma at_fuel s k past cs : at_text s k past cs → (length cs ≤ reads_left s)%nat.
Proof. intros [j _ _ Hs]. by eapply stands_fuel. Qed.

Lemma at_text_k s k past cs : at_text s k past cs → (k ≤ 70)%nat.
Proof. by intros []. Qed.

Lemma at_start cs path :
  cs ≠ [] → Forall scalar cs → Z.of_nat (length cs) < 2 ^ 64 →
  ∃ s, read_first (parser_new (encode_text cs) path) = Done tt s ∧ at_text s 0 [] cs ∧
    keeps (parser_new (encode_text cs) path) s.
Proof.
  intros Hne Hcs Hlen. destruct (stands_start cs path Hne Hcs Hlen) as (s & Hs & Hat & Hk). exists s. split_and!; try done.
  by exists 0%nat; [lia|lia|].
Qed.

Lemma at_advance s k past c cs :
  at_text s k past (c :: cs) →
  ∃ x s', cp s = Some x ∧ value x = c ∧ proper x ∧ advance s = Done () s' ∧
    at_text s' (k - 1) (past ++ [x]) cs ∧ keeps s s'.
Proof.
  intros [j Hk Hj Hs]. destruct (stands_advance _ _ _ _ _ Hs) as (x & s' & ? & ? & ? & ? & ? & ?).
  exists x, s'. split_and!; try done. by exists (j - 1)%nat; [lia|lia|].
Qed.

Lemma at_go_back s k past back cs :
  at_text s k (past ++ back) cs → (0 < length back)%nat → (k + length back ≤ 70)%nat →
  ∃ s', go_back (Z.of_nat (length back)) s = Done () s' ∧
    at_text s' (k + length back) past ((value <$> back) ++ cs) ∧ keeps s s'.
Proof.
  intros [j _ Hj Hs] Hb Hk. destruct (stands_go_back _ _ _ _ _ Hs Hb) as (s' & ? & ? & ?); [lia|].
  exists s'. split_and!; try done. by exists (j + length back)%nat; [lia|lia|].
Qed.

(** One character further and back again. *)
Lemma at_look_behind s k past c cs :
  at_text s k past (c :: cs) →
  ∃ x s1 s2, value x = c ∧ advance s = Done () s1 ∧ at_text s1 (k - 1) (past ++ [x]) cs ∧
    go_back 1 s1 = Done () s2 ∧ at_text s2 k past (c :: cs) ∧ keeps s s2.
Proof.
  intros [j Hk Hj Hs]. destruct (stands_advance _ _ _ _ _ Hs) as (x & s1 & _ & Hx & _ & Ha & Hs1 & Hk1).
  destruct (stands_go_back _ _ past [x] _ Hs1) as (s2 & Hb & Hs2 & Hk2); [cbn; lia|cbn; lia|].
  exists x, s1, s2. split_and!; try done.
  - by exists (j - 1)%nat; [lia|lia|].
  - cbn in Hs2. rewrite Hx in Hs2. by exists (j - 1 + 1)%nat; [lia|lia|].
  - by etransitivity.
Qed.

(** ** What a function reads

    At a text that begins with [pre] and goes on with [post], [m] consumes [pre]
    and returns a result in [Q]. *)
Definition reads {A} (m : P A) (pre post : list Z) (Q : A → Prop) : Prop :=
  ∀ s k past, at_text s k past (pre ++ post) →
  ∃ a s' past', m s = Done a s' ∧ Q a ∧ at_text s' (k - length pre) (past ++ past') post ∧
    value <$> past' = pre ∧ keeps s s'.

Section reads.
Context {A B : Type}.
Implicit Types (m : P A) (Q : A → Prop) (pre post : list Z).

Lemma reads_ret a post Q : Q a → reads (mret a) [] post Q.
Proof.
  intros HQ s k past Hat. exists a, s, []. rewrite app_nil_r, Nat.sub_0_r. by repeat split.
Qed.

Lemma reads_mono m pre post Q Q' : reads m pre post Q → (∀ a, Q a → Q' a) → reads m pre post Q'.
Proof. intros Hm HQ s k past Hat. destruct (Hm s k past Hat) as (a & s' & past' & ? & ? & ?). eauto 8. Qed.

Lemma reads_bind (m : P B) (f : B → P A) pre1 pre2 post (Q1 : B → Prop) Q :
  reads m pre1 (pre2 ++ post) Q1 → (∀ b, Q1 b → reads (f b) pre2 post Q) → reads (m ≫= f) (pre1 ++ pre2) post Q.
Proof.
  intros Hm Hf s k past Hat. rewrite <- app_assoc in Hat.
  destruct (Hm s k past Hat) as (b & s1 & past1 & Hm1 & HQ1 & Hat1 & Hl1 & Hk1).
  destruct (Hf b HQ1 _ _ _ Hat1) as (a & s2 & past2 & Hm2 & HQ2 & Hat2 & Hl2 & Hk2).
  exists a, s2, (past1 ++ past2). unfold mbind, P_bind. rewrite Hm1.
  rewrite length_app, app_assoc, Nat.sub_add_distr, fmap_app, Hl1, Hl2. split_and!; try done. by etransitivity.
Qed.

(** Steps that read nothing. *)
Lemma reads_step (m : P B) (f : B → P A) pre post Q (Q1 : B → Prop) :
  (∀ s k past, at_text s k past (pre ++ post) →
     ∃ b s', m s = Done b s' ∧ Q1 b ∧ reader s' = reader s ∧ cp s' = cp s ∧ keeps s s') →
  (∀ b, Q1 b → reads (f b) pre post Q) → reads (m ≫= f) pre post Q.
Proof.
  intros Hm Hf s k past Hat. destruct (Hm s k past Hat) as (b & s1 & Hm1 & HQ1 & Hr & Hc & Hk1).
  destruct (Hf b HQ1 s1 k past) as (a & s2 & past2 & Hm2 & HQ2 & Hat2 & Hl2 & Hk2); [by eapply at_text_same|].
  exists a, s2, past2. unfold mbind, P_bind. rewrite Hm1. split_and!; try done. by etransitivity.
Qed.

Lemma reads_gets (g : parser → B) (f : B → P A) pre post Q (Q1 : B → Prop) :
  (∀ s k past, at_text s k past (pre ++ post) → Q1 (g s)) →
  (∀ b, Q1 b → reads (f b) pre post Q) → reads (gets g ≫= f) pre post Q.
Proof.
  intros Hg. apply reads_step. intros s k past Hat. exists (g s), s. split; [done|]. split; [eauto|done].
Qed.

End reads.

Section reads_primitives.
Context {A : Type}.
Implicit Types (m : P A) (Q : A → Prop) (pre post : list Z).

Lemma reads_modify g (f : () → P A) pre post Q :
  (∀ s, reader (g s) = reader s ∧ cp (g s) = cp s ∧ keeps s (g s)) →
  reads (f tt) pre post Q → reads (modify g ≫= f) pre post Q.
Proof.
  intros Hg Hf. apply (reads_step _ _ _ _ _ (λ _, True)); [|by intros [] _].
  intros s k past _. exists tt, (g s). destruct (Hg s) as (? & ? & ?). done.
Qed.

Lemma reads_advance (f : () → P A) c pre post Q :
  reads (f tt) pre post Q → reads (advance ≫= f) (c :: pre) post Q.
Proof.
  intros Hf s k past Hat. destruct (at_advance _ _ _ _ _ Hat) as (x & s1 & _ & Hv & _ & Ha & Hat1 & Hk1).
  destruct (Hf _ _ _ Hat1) as (a & s2 & past2 & Hm2 & HQ2 & Hat2 & Hl2 & Hk2).
  exists a, s2, (x :: past2). unfold mbind, P_bind. rewrite Ha. split_and!; try done.
  - rewrite <- app_assoc in Hat2. cbn [app length]. by replace (k - S (length pre))%nat with (k - 1 - length pre)%nat by lia.
  - cbn. by rewrite Hv, Hl2.
  - by etransitivity.
Qed.

Lemma reads_cur (f : utf8_codepoint → P A) c t pre post Q :
  pre ++ post = c :: t → (∀ x, value x = c → proper x → reads (f x) pre post Q) → reads (cur ≫= f) pre post Q.
Proof.
  intros Ht Hf. apply (reads_step _ _ _ _ _ (λ x, value x = c ∧ proper x)); [|intros x []; by apply Hf].
  intros s k past Hat. rewrite Ht in Hat. destruct (at_cur _ _ _ _ _ Hat) as (x & Hx & Hv & Hp).
  exists x, s. unfold cur. by rewrite Hx.
Qed.

Lemma reads_gets_cp (f : option utf8_codepoint → P A) c t pre post Q :
  pre ++ post = c :: t → (∀ x, value x = c → proper x → reads (f (Some x)) pre post Q) →
  reads (gets cp ≫= f) pre post Q.
Proof.
  intros Ht Hf. apply (reads_gets _ _ _ _ _ (λ o, ∃ x, o = Some x ∧ value x = c ∧ proper x)).
  - intros s k past Hat. rewrite Ht in Hat. apply (at_cur _ _ _ _ _ Hat).
  - intros b (x & -> & ? & ?). by apply Hf.
Qed.

Lemma reads_gets_cp_end (f : option utf8_codepoint → P A) Q :
  reads (f None) [] [] Q → reads (gets cp ≫= f) [] [] Q.
Proof.
  intros Hf. apply (reads_gets _ _ _ _ _ (λ o, o = None)); [|by intros b ->].
  intros s k past Hat. by apply (at_end _ _ _ Hat).
Qed.

Lemma reads_is_eof (f : bool → P A) pre post Q :
  pre ++ post ≠ [] → reads (f false) pre post Q → reads (is_eof ≫= f) pre post Q.
Proof.
  intros Ht Hf. apply (reads_gets _ _ _ _ _ (λ b, b = false)); [|by intros b ->].
  intros s k past Hat. destruct (pre ++ post) as [|c t]; [done|].
  destruct (at_cur _ _ _ _ _ Hat) as (x & -> & _). by rewrite bool_decide_true.
Qed.

Lemma reads_is_eof_end (f : bool → P A) Q : reads (f true) [] [] Q → reads (is_eof ≫= f) [] [] Q.
Proof.
  intros Hf. apply (reads_gets _ _ _ _ _ (λ b, b = true)); [|by intros b ->].
  intros s k past Hat. by rewrite (at_end _ _ _ Hat).
Qed.

Lemma reads_not_eof (f : () → P A) pre post Q :
  pre ++ post ≠ [] → reads (f tt) pre post Q → reads (set_error_if_eof ≫= f) pre post Q.
Proof.
  intros Ht Hf. apply (reads_step _ _ _ _ _ (λ _, True)); [|by intros [] _].
  intros s k past Hat. exists tt, s. split; [|done]. unfold set_error_if_eof, is_eof, gets, mbind, P_bind.
  destruct (pre ++ post) as [|c t]; [done|]. destruct (at_cur _ _ _ _ _ Hat) as (x & -> & _). done.
Qed.

Lemma reads_scoped scope m pre post Q : reads m pre post Q → reads (scoped scope m) pre post Q.
Proof.
  intros Hm s k past Hat. unfold scoped, gets, modify, mbind, P_bind.
  destruct (Hm (set_scope scope s) k past) as (a & s' & past' & Hm' & HQ & Hat' & Hl & []);
    [by apply (at_text_same s)|].
  rewrite Hm'. exists a, (set_scope (current_scope s) s'), past'. split_and!; [done|done|by apply (at_text_same s')|done|].
  by split.
Qed.

Lemma reads_looping (loop : nat → P A) pre post Q :
  (∀ n, (length (pre ++ post) < n)%nat → reads (loop n) pre post Q) → reads (looping loop) pre post Q.
Proof.
  intros Hl s k past Hat. pose proof (at_fuel _ _ _ _ Hat). unfold looping. by apply (Hl (S (reads_left s))); [lia|].
Qed.
End reads_primitives.

(** ** Stepping through a function

    [rd] applies the rule for the next primitive step; side conditions about the
    text are solved by computation. *)
Ltac rd :=
  lazymatch goal with
  | |- reads (advance ≫= _) (_ :: _) _ _ => apply reads_advance
  | |- reads (cur ≫= _) _ _ _ => eapply reads_cur; [reflexivity|let x := fresh "x" in let Hx := fresh "Hx" in let Hp := fresh "Hp" in intros x Hx Hp; try rewrite Hx]
  | |- reads (is_eof ≫= _) _ _ _ => apply reads_is_eof; [done|]
  | |- reads (set_error_if_eof ≫= _) _ _ _ => apply reads_not_eof; [done|]
  | |- reads (mret _) [] _ _ => apply reads_ret
  end.

(** Comparisons of characters are computed. *)
Ltac compare_chars :=
  repeat match goal with
  | |- context [U ?a =? U ?b] => let v := eval vm_compute in (U a =? U b) in change (U a =? U b) with v; cbv iota
  end.

(** ** Functions that throw on a text *)
Definition raises {A} (m : P A) (t : list Z) : Prop :=
  ∀ s k past, at_text s k past t → ∃ e, m s = Throws e.

Section raises.
Context {A B : Type}.

Lemma raises_after (m : P B) (f : B → P A) pre post Q :
  reads m pre post Q → (∀ b, Q b → raises (f b) post) → raises (m ≫= f) (pre ++ post).
Proof.
  intros Hm Hf s k past Hat. destruct (Hm s k past Hat) as (b & s' & past' & Hr & HQ & Hat' & _).
  destruct (Hf b HQ _ _ _ Hat') as [e He]. exists e. unfold mbind, P_bind. by rewrite Hr.
Qed.

Lemma raises_first (m : P B) (f : B → P A) t : raises m t → raises (m ≫= f) t.
Proof. intros Hm s k past Hat. destruct (Hm s k past Hat) as [e He]. exists e. unfold mbind, P_bind. by rewrite He. Qed.

Lemma raises_gets_cp (f : option utf8_codepoint → P A) c t :
  (∀ x, value x = c → proper x → raises (f (Some x)) (c :: t)) → raises (gets cp ≫= f) (c :: t).
Proof.
  intros Hf s k past Hat. destruct (at_cur _ _ _ _ _ Hat) as (x & Hx & Hv & Hp).
  destruct (Hf x Hv Hp s k past Hat) as [e He]. exists e. unfold gets, mbind, P_bind. by rewrite Hx.
Qed.

Lemma raises_advance (f : () → P A) c t : raises (f tt) t → raises (advance ≫= f) (c :: t).
Proof.
  intros Hf s k past Hat. destruct (at_advance _ _ _ _ _ Hat) as (x & s1 & _ & Hv & _ & Ha & Hat1 & Hk1).
  destruct (Hf _ _ _ Hat1) as [e He]. exists e. unfold mbind, P_bind. by rewrite Ha.
Qed.

Lemma raises_scoped scope (m : P A) t : raises m t → raises (scoped scope m) t.
Proof.
  intros Hm s k past Hat. unfold scoped, gets, modify, mbind, P_bind.
  destruct (Hm (set_scope scope s) k past) as [e He]; [by apply (at_text_same s)|]. exists e. by rewrite He.
Qed.

Lemma raises_looping (loop : nat → P A) t :
  (∀ n, (length t < n)%nat → raises (loop n) t) → raises (looping loop) t.
Proof.
  intros Hl s k past Hat. pose proof (at_fuel _ _ _ _ Hat). unfold looping. by eapply (Hl (S (reads_left s))); [lia|].
Qed.

Lemma raises_set_error reasons t : raises (set_error (A:=A) reasons) t.
Proof. intros s k past _. unfold set_error, current_position, mbind, P_bind. eexists. reflexivity. Qed.
End raises.

(** A function that ends with [advance]. *)
Lemma reads_advance_last c post : reads advance [c] post (λ _, True).
Proof.
  intros s k past Hat. destruct (at_advance _ _ _ _ _ Hat) as (x & s1 & _ & Hv & _ & Ha & Hat1 & Hk1).
  exists tt, s1, [x]. cbn. by rewrite Hv.
Qed.

(** [advance_and_return_if_error_or_eof] before more text. *)
Lemma reads_advance_not_eof_last c post : post ≠ [] → reads advance_not_eof [c] post (λ _, True).
Proof.
  intros Ht. unfold advance_not_eof. apply reads_advance. intros s k past Hat. exists tt, s, [].
  rewrite app_nil_r, Nat.sub_0_r. split_and!; try done. unfold set_error_if_eof, is_eof, gets, mbind, P_bind.
  cbn [app] in Hat. destruct post as [|c' t]; [done|]. by destruct (at_cur _ _ _ _ _ Hat) as (x & -> & _).
Qed.

Lemma reads_advance_not_eof {A} (f : () → P A) c pre post Q :
  pre ++ post ≠ [] → reads (f tt) pre post Q → reads (advance_not_eof ≫= f) (c :: pre) post Q.
Proof.
  intros Ht Hf. apply (reads_bind _ _ [c] pre _ (λ _, True)); [|by intros [] _]. by apply reads_advance_not_eof_last.
Qed.
