(* ===== verification/TomlGrammar.v ===== *)
(** * TomlGrammar: texts and what they mean

    A reference for the TOML parser and the formatters: data, the texts that stand
    for it, and what a document of several lines means. The texts are relations,
    so that they leave the layout open; the formatter of [TomlFormat] writes some of
    them, and [TomlRoundtrip] shows that the parser reads all of them. *)
From Stdlib Require Import SpecFloat.
From S2P Require Import Prelude Bytes TomlNode TomlUtf8 TomlReader TomlScalar.

Local Open Scope Z_scope.

(** ** Data: what is written, without how and where *)

(** How a table came to be: under a header of its own or in braces, on the way to
    the table of a longer header, or by the dots of a key. *)
Inductive table_kind := KDefined | KImplicit | KDotted.
#[global] Instance table_kind_eq_dec : EqDecision table_kind.
Proof. solve_decision. Defined.

Inductive data :=
| DString (b : bytes)
| DInteger (z : Z)
| DFloat (x : spec_float)
| DBoolean (b : bool)
| DDate (d : date)
| DTime (t : time)
| DDateTime (dt : date_time)
| DArray (l : list data)
| DTableAs (kd : table_kind) (m : list (bytes * data))
| DTables (l : list (list (bytes * data))).

Notation DTable := (DTableAs KDefined).

(** The data of a node. [DTables], an array of tables that headers add to, is
    not told from other arrays, nor is one kind of table from another. *)
Fixpoint strip (n : node) : data :=
  match n with
  | Table _ m _ _ => DTable (map (λ kv, (kv.1, strip kv.2)) m)
  | Array _ els _ => DArray (map strip els)
  | VString s _ => DString s
  | VInteger z _ _ => DInteger z
  | VFloat x _ => DFloat x
  | VBoolean b _ => DBoolean b
  | VDate d _ => DDate d
  | VTime t _ => DTime t
  | VDateTime dt _ => DDateTime dt
  end.

Definition strip_map (m : string_map node) : string_map data := map (λ kv, (kv.1, strip kv.2)) m.

(** Data without the distinctions. *)
Fixpoint plain (d : data) : data :=
  match d with
  | DArray l => DArray (map plain l)
  | DTableAs _ m => DTable (map (λ kv, (kv.1, plain kv.2)) m)
  | DTables l => DArray (map (λ m, DTable (map (λ kv, (kv.1, plain kv.2)) m)) l)
  | _ => d
  end.

Definition plain_map (m : string_map data) : string_map data := map (λ kv, (kv.1, plain kv.2)) m.

Definition zs (b : bytes) : list Z := U <$> b.

(** The value of a list of digits. *)
Definition number (base : Z) (ds : list Z) : Z := foldl (λ a d, a * base + d) 0 ds.

Definition digit_of (b : byte) : option Z :=
  let c := U b in
  if (U "0" <=? c) && (c <=? U "9") then Some (c - U "0")
  else if (U "a" <=? c) && (c <=? U "f") then Some (c - U "a" + 10)
  else if (U "A" <=? c) && (c <=? U "F") then Some (c - U "A" + 10)
  else None.

(** ** Layout *)

(** Spaces and tabs. *)
Definition blank_char (c : Z) : Prop := c = U " " ∨ c = 9.
Definition spaces (b : list Z) : Prop := Forall blank_char b.

(** A line feed, or a carriage return and a line feed. *)
Definition newline (nl : list Z) : Prop := nl = [10] ∨ nl = [13; 10].

Definition comment_char (c : Z) : Prop :=
  scalar c ∧ is_nontab_control_character c = false ∧ is_line_break true c = false.
Definition comment (cs : list Z) : Prop := ∃ t, cs = U "#" :: t ∧ Forall comment_char t.

(** Between the elements of an array: spaces, line breaks and comments. *)
Inductive array_blanks : list Z → Prop :=
| blank_none : array_blanks []
| blank_space c b : blank_char c → array_blanks b → array_blanks (c :: b)
| blank_break nl b : newline nl → array_blanks b → array_blanks (nl ++ b)
| blank_comment cs nl b : comment cs → newline nl → array_blanks b → array_blanks (cs ++ nl ++ b).

(** A line ends with a line break; the last line need not. *)
Definition ends_line (last : bool) (nl : list Z) : Prop := newline nl ∨ last = true ∧ nl = [].

(** After a key-value pair or a header: spaces, perhaps a comment, the line's end. *)
Inductive line_end (last : bool) : list Z → Prop :=
| plain_end b nl : spaces b → ends_line last nl → line_end last (b ++ nl)
| comment_end b cs nl : spaces b → comment cs → ends_line last nl → line_end last (b ++ cs ++ nl).

(** ** Strings *)
Definition hex_char (d : Z) : Z := if d <? 10 then U "0" + d else U "A" + (d - 10).

(** A character of a basic string: control characters, the quotation mark and
    the backslash are escaped. *)
Definition escape_char (c : Z) : list Z :=
  if c =? 8 then [U x5c; U "b"]
  else if c =? 9 then [U x5c; U "t"]
  else if c =? 10 then [U x5c; U "n"]
  else if c =? 12 then [U x5c; U "f"]
  else if c =? 13 then [U x5c; U "r"]
  else if c =? U x22 then [U x5c; U x22]
  else if c =? U x5c then [U x5c; U x5c]
  else if is_control_character c then [U x5c; U "u"; U "0"; U "0"; hex_char (c / 16); hex_char (c mod 16)]
  else [c].

Definition escape_text (cs : list Z) : list Z := concat (escape_char <$> cs).
Definition quote (cs : list Z) : list Z := [U x22] ++ escape_text cs ++ [U x22].

(** A literal string holds its characters as they are. *)
Definition literal_char (c : Z) : Prop := scalar c ∧ is_nontab_control_character c = false ∧ c ≠ U "'".
Definition single_quote (cs : list Z) : list Z := [U "'"] ++ cs ++ [U "'"].

(** *** Escapes *)
Definition simple_escapes : list (byte * byte) :=
  [("b"%byte, x08); ("f"%byte, x0c); ("n"%byte, x0a); ("r"%byte, x0d); ("t"%byte, x09); (x22, x22); (x5c, x5c)].

(** What follows a backslash. Of the characters of three bytes, only half have an
    escape that is read right. *)
Inductive escape_sequence : list Z → bytes → Prop :=
| simple_escape c b : (c, b) ∈ simple_escapes → escape_sequence [U c] [b]
| unicode_sequence (long : bool) chars ds :
    mapM digit_of chars = Some ds → length chars = (if long then 8 else 4)%nat → scalar (number 16 ds) →
    number 16 ds < 0x800 ∨ 0x10000 ≤ number 16 ds ∨ Z.testbit (number 16 ds) 11 = false →
    escape_sequence (U (if long then "U" else "u")%byte :: zs chars) (utf8_encode (number 16 ds)).

(** Whether a text begins with a line break. *)
Definition begins_line (t : list Z) : bool := match t with [] => false | c :: _ => is_line_break true c end.

(** *** Basic strings *)
Definition plain_char (c : Z) : Prop := scalar c ∧ c ≠ U x22 ∧ c ≠ U x5c ∧ is_nontab_control_character c = false.

(** The text of a basic string, on one line or on several. A backslash at the end
    of a line takes away ([skip]) all blanks up to the next character. *)
Inductive basic_text (ml : bool) : bool → bytes → list Z → Prop :=
| basic_nil skip : basic_text ml skip [] []
| basic_char skip c b t :
    plain_char c → (ml = true → is_line_break true c = false) → (skip = true → is_whitespace c = false) →
    basic_text ml false b t → basic_text ml skip (utf8_encode c ++ b) (c :: t)
| basic_escape skip e v b t :
    escape_sequence e v → basic_text ml false b t → basic_text ml skip (v ++ b) (U x5c :: e ++ t)
| basic_break skip nl b t :
    ml = true → newline nl → basic_text ml skip b t → basic_text ml skip (if skip then b else x0a :: b) (nl ++ t)
| basic_quotes skip n b t :
    ml = true → n = 1%nat ∨ n = 2%nat → t ≠ [] → head t ≠ Some (U x22) → basic_text ml false b t →
    basic_text ml skip (replicate n x22 ++ b) (replicate n (U x22) ++ t)
| basic_continue skip sp nl b t :
    ml = true → spaces sp → newline nl → basic_text ml true b t → basic_text ml skip b (U x5c :: sp ++ nl ++ t)
| basic_skipped c b t :
    ml = true → blank_char c → basic_text ml true b t → basic_text ml true b (c :: t).

(** *** Literal strings over several lines *)
Inductive literal_text : bytes → list Z → Prop :=
| literal_nil : literal_text [] []
| literal_cons c b t :
    literal_char c → is_line_break true c = false → literal_text b t → literal_text (utf8_encode c ++ b) (c :: t)
| literal_break nl b t : newline nl → literal_text b t → literal_text (x0a :: b) (nl ++ t)
| literal_quotes n b t :
    n = 1%nat ∨ n = 2%nat → t ≠ [] → head t ≠ Some (U "'") → literal_text b t →
    literal_text (replicate n "'"%byte ++ b) (replicate n (U "'") ++ t).

(** On one line, as keys and values. *)
Inductive string_text : bytes → list Z → Prop :=
| basic_string b t : basic_text false false b t → string_text b ([U x22] ++ t ++ [U x22])
| literal_string cs : Forall literal_char cs → string_text (encode_text cs) (single_quote cs).

(** Over several lines, as values: a line break at the start is not part of the
    string, and up to two quotation marks at the end are. *)
Inductive multi_line_text : bytes → list Z → Prop :=
| multi_line_basic b start t n :
    basic_text true false b t → newline start ∨ start = [] ∧ begins_line t = false → (n ≤ 2)%nat →
    multi_line_text (b ++ replicate n x22) (replicate 3 (U x22) ++ start ++ t ++ replicate (3 + n) (U x22))
| multi_line_literal b start t n :
    literal_text b t → newline start ∨ start = [] ∧ begins_line t = false → (n ≤ 2)%nat →
    multi_line_text (b ++ replicate n "'"%byte) (replicate 3 (U "'") ++ start ++ t ++ replicate (3 + n) (U "'")).

(** ** Integers *)
Fixpoint dec_digits (n : nat) (z : Z) : list Z :=
  match n with
  | O => []
  | S n => if z <? 10 then [z] else dec_digits n (z / 10) ++ [z mod 10]
  end.

Definition dec_bytes (z : Z) : bytes := (λ d, byte_of_Z (U "0" + d)) <$> dec_digits 19 z.

(** Nineteen digits are enough for 63 bits. *)
Definition decimal (z : Z) : list Z := (if z <? 0 then [U "-"] else []) ++ zs (dec_bytes (Z.abs z)).

(** Digits, with single underscores between them. *)
Inductive separated : bytes → list Z → Prop :=
| separated_last b : separated [b] [U b]
| separated_more b chars t : separated chars t → separated (b :: chars) (U b :: t)
| separated_underscore b chars t : separated chars t → separated (b :: chars) (U b :: U "_" :: t).

Inductive sign_text : bool → list Z → Prop :=
| no_sign : sign_text false []
| plus_sign : sign_text false [U "+"]
| minus_sign : sign_text true [U "-"].

(** Decimal integers: a sign, and digits that do not begin with a zero unless it is
    the only one. *)
Inductive decimal_text : Z → list Z → Prop :=
| signed_decimal neg st chars ds body :
    sign_text neg st → mapM digit_of chars = Some ds → Forall (λ d, d < 10) ds → separated chars body →
    (length chars ≤ 19)%nat → ((1 < length ds)%nat → head ds ≠ Some 0) → number 10 ds < 2 ^ 63 →
    decimal_text (if neg then - number 10 ds else number 10 ds) (st ++ body).

(** Binary, octal and hexadecimal integers, of at most as many digits as an
    [int64_t] can need. *)
Definition prefixes : list (byte * Z * nat) := [("b"%byte, 2, 63%nat); ("o"%byte, 8, 21%nat); ("x"%byte, 16, 16%nat)].

Inductive prefixed_text : Z → list Z → Prop :=
| prefixed p base limit chars ds body :
    (p, base, limit) ∈ prefixes → mapM digit_of chars = Some ds → Forall (λ d, d < base) ds → separated chars body →
    (length chars ≤ limit)%nat → (length body ≤ 68)%nat → number base ds < 2 ^ 63 →
    prefixed_text (number base ds) ([U "0"; U p] ++ body).

(** ** Floats *)
Definition digit_chars (ds : list Z) : list Z := (λ d, U "0" + d) <$> ds.
Definition decimal_digits (ds : list Z) : Prop := Forall (λ d, 0 ≤ d < 10) ds ∧ ds ≠ [].

(** Digits, a fraction and an exponent, one of the two at least; the digits before
    the point do not begin with a zero unless it is the only one. *)
Record float_parts := mk_float_parts { whole : list Z; fraction : list Z; exponent : option (bool * list Z * list Z) }.

Definition exponent_value (e : option (bool * list Z * list Z)) : Z :=
  match e with Some (neg, _, ds) => if neg then - number 10 ds else number 10 ds | None => 0 end.
Definition exponent_chars (e : option (bool * list Z * list Z)) : list Z :=
  match e with Some (_, st, ds) => [U "e"] ++ st ++ digit_chars ds | None => [] end.

Definition float_chars_text (p : float_parts) : list Z :=
  digit_chars (whole p) ++ (match fraction p with [] => [] | fp => [U "."] ++ digit_chars fp end) ++ exponent_chars (exponent p).

Record float_text (p : float_parts) : Prop := mk_float_text {
  ft_whole : decimal_digits (whole p);
  ft_zero : (1 < length (whole p))%nat → head (whole p) ≠ Some 0;
  ft_fraction : Forall (λ d, 0 ≤ d < 10) (fraction p);
  ft_exponent : match exponent p with Some (neg, st, ds) => sign_text neg st ∧ decimal_digits ds | None => fraction p ≠ [] end;
  ft_length : (length (float_chars_text p) ≤ 64)%nat;
}.

(** The nearest double, unless it is out of range. *)
Definition float_value (p : float_parts) : spec_float :=
  round_decimal (number 10 (whole p ++ fraction p)) (exponent_value (exponent p) - Z.of_nat (length (fraction p))).
Definition finite (x : spec_float) : Prop := match x with S754_infinity _ => False | _ => True end.

(** ** Dates and times *)
Definition two (n : Z) : list Z := digit_chars [n / 10; n mod 10].
Definition four (n : Z) : list Z := digit_chars [n / 1000; n / 100 mod 10; n / 10 mod 10; n mod 10].

Definition leap_year (year : Z) : bool := (year mod 4 =? 0) && (negb (year mod 100 =? 0) || (year mod 400 =? 0)).
Definition days_in_month (year month : Z) : Z :=
  nth (Z.to_nat (month - 1)) [31; (if leap_year year then 29 else 28); 31; 30; 31; 30; 31; 31; 30; 31; 30; 31] 0.

Definition calendar_date (d : date) : Prop :=
  0 ≤ d_year d ≤ 9999 ∧ 1 ≤ d_month d ≤ 12 ∧ 1 ≤ d_day d ≤ days_in_month (d_year d) (d_month d).
Definition clock_time (t : time) : Prop := 0 ≤ t_hour t < 24 ∧ 0 ≤ t_minute t < 60 ∧ 0 ≤ t_second t < 60.

Definition date_text (d : date) : list Z := four (d_year d) ++ [U "-"] ++ two (d_month d) ++ [U "-"] ++ two (d_day d).

(** One to nine digits after the second, as nanoseconds. *)
Inductive fraction_text : Z → list Z → Prop :=
| no_fraction : fraction_text 0 []
| some_fraction ds :
    Forall (λ d, 0 ≤ d < 10) ds → (1 ≤ length ds ≤ 9)%nat →
    fraction_text (number 10 ds * 10 ^ Z.of_nat (9 - length ds)) ([U "."] ++ digit_chars ds).

Inductive time_text : time → list Z → Prop :=
| hms t f :
    clock_time t → fraction_text (t_nanosecond t) f →
    time_text t (two (t_hour t) ++ [U ":"] ++ two (t_minute t) ++ [U ":"] ++ two (t_second t) ++ f).

(** The offset from UTC, in minutes. *)
Inductive offset_text : option Z → list Z → Prop :=
| local_time : offset_text None []
| zulu_time : offset_text (Some 0) [U "Z"]
| with_offset (neg : bool) h m :
    0 ≤ h < 24 → 0 ≤ m < 60 →
    offset_text (Some (if neg then - (h * 60 + m) else h * 60 + m)) ([U (if neg then "-" else "+")%byte] ++ two h ++ [U ":"] ++ two m).

(** ** Keys *)
Definition is_bare (k : list Z) : bool := negb (bool_decide (k = [])) && forallb is_bare_key_character k.

Inductive key_text : bytes → list Z → Prop :=
| bare_key cs : is_bare cs = true → key_text (encode_text cs) cs
| quoted_key k t : string_text k t → key_text k t.

(** The keys of a path, separated by dots. *)
Inductive path_text : list bytes → list Z → Prop :=
| path_one k t : key_text k t → path_text [k] t
| path_cons k t b b' ks ts :
    key_text k t → spaces b → spaces b' → path_text ks ts → path_text (k :: ks) (t ++ b ++ [U "."] ++ b' ++ ts).

(** ** Values *)
Inductive equals_text : list Z → Prop :=
| spaced_equals b b' : spaces b → spaces b' → equals_text (b ++ [U "="] ++ b').

Inductive value_text : data → list Z → Prop :=
| text_string s t : string_text s t → value_text (DString s) t
| text_multi_line s t : multi_line_text s t → value_text (DString s) t
| text_integer z t : decimal_text z t → value_text (DInteger z) t
| text_prefixed z t : prefixed_text z t → value_text (DInteger z) t
| text_float neg st p :
    sign_text neg st → float_text p → finite (float_value p) →
    value_text (DFloat (if neg then SFopp (float_value p) else float_value p)) (st ++ float_chars_text p)
| text_infinity neg st : sign_text neg st → value_text (DFloat (S754_infinity neg)) (st ++ zs (bs "inf"))
| text_nan neg st : sign_text neg st → value_text (DFloat S754_nan) (st ++ zs (bs "nan"))
| text_date d : calendar_date d → value_text (DDate d) (date_text d)
| text_time t tt : time_text t tt → value_text (DTime t) tt
| text_date_time dt tt ot :
    calendar_date (dt_date dt) → time_text (dt_time dt) tt → offset_text (dt_offset dt) ot →
    value_text (DDateTime dt) (date_text (dt_date dt) ++ [U "T"] ++ tt ++ ot)
| text_boolean b : value_text (DBoolean b) (zs (if b then bs "true" else bs "false"))
| text_array l t : elements_text l t → value_text (DArray l) ([U "["] ++ t ++ [U "]"])
| text_empty_table b : spaces b → value_text (DTable []) ([U "{"] ++ b ++ [U "}"])
| text_table l m t :
    pairs_text l t → NoDup l.*1 → m = foldl (λ m kv, emplace kv.1 kv.2 m) [] l →
    value_text (DTable m) ([U "{"] ++ t ++ [U "}"])
with elements_text : list data → list Z → Prop :=
| no_elements b : array_blanks b → elements_text [] b
| last_element d t b b' : array_blanks b → value_text d t → array_blanks b' → elements_text [d] (b ++ t ++ b')
| more_elements d t b b' l ts :
    array_blanks b → value_text d t → array_blanks b' → elements_text l ts →
    elements_text (d :: l) (b ++ t ++ b' ++ [U ","] ++ ts)
with pairs_text : list (bytes * data) → list Z → Prop :=
| last_pair k kt e d t b b' :
    spaces b → key_text k kt → equals_text e → value_text d t → spaces b' → pairs_text [(k, d)] (b ++ (kt ++ e ++ t) ++ b')
| more_pairs k kt e d t b b' l ts :
    spaces b → key_text k kt → equals_text e → value_text d t → spaces b' → pairs_text l ts →
    pairs_text ((k, d) :: l) (b ++ (kt ++ e ++ t) ++ b' ++ [U ","] ++ ts).

Scheme value_text_min := Minimality for value_text Sort Prop
  with elements_text_min := Minimality for elements_text Sort Prop
  with pairs_text_min := Minimality for pairs_text Sort Prop.
Combined Scheme value_text_mutual from value_text_min, elements_text_min, pairs_text_min.

(** ** Documents *)

(** A line: nothing, a comment, a key-value pair of the current table, or the
    header of a table or of an element of an array of tables. *)
Inductive line :=
| Blank
| Comment (cs : list Z)
| Pair (ks : list bytes) (d : data)
| Header (arr : bool) (path : list bytes).

Definition brackets (arr : bool) : list Z * list Z := if arr then ([U "["; U "["], [U "]"; U "]"]) else ([U "["], [U "]"]).
Definition header_text (arr : bool) (t : list Z) : list Z := (brackets arr).1 ++ t ++ (brackets arr).2.

Inductive line_text (last : bool) : line → list Z → Prop :=
| blank_line nl : newline nl → line_text last Blank nl
| comment_line cs nl : Forall comment_char cs → ends_line last nl → line_text last (Comment cs) (U "#" :: cs ++ nl)
| pair_line ks kt e d t le :
    path_text ks kt → equals_text e → value_text d t → line_end last le → line_text last (Pair ks d) ((kt ++ e ++ t) ++ le)
| header_line arr path b t b' le :
    spaces b → path_text path t → spaces b' → line_end last le →
    line_text last (Header arr path) (header_text arr (b ++ t ++ b') ++ le).

Definition document : Type := list line.

(** The lines of a document are indented. *)
Inductive document_text : document → list Z → Prop :=
| document_nil : document_text [] []
| document_cons last l b t d ts :
    spaces b → line_text last l t → (last = true → d = []) → document_text d ts → document_text (l :: d) (b ++ t ++ ts).

(** *** What a document means *)

(** An operation on the table at a path: tables that are missing on the way are
    made for now, and an array of tables stands for its last element. *)
Fixpoint enter (path : list bytes) (f : string_map data → option (string_map data)) (m : string_map data) :
    option (string_map data) :=
  match path with
  | [] => f m
  | k :: path =>
    match do_get m k with
    | None => m1 ← enter path f []; Some (emplace k (DTableAs KImplicit m1) m)
    | Some (DTableAs kd m1) => m1' ← enter path f m1; Some (map_alter (λ _, DTableAs kd m1') k m)
    | Some (DTables l) =>
      m1 ← last l; m1' ← enter path f m1; Some (map_alter (λ _, DTables (removelast l ++ [m1'])) k m)
    | Some _ => None
    end
  end.

(** A new entry of a table. *)
Definition add (k : bytes) (d : data) (m : string_map data) : option (string_map data) :=
  match do_get m k with None => Some (emplace k d m) | Some _ => None end.

(** The same under a key with dots: they make tables, and go on with those that
    dots have made. *)
Fixpoint add_path (ks : list bytes) (d : data) (m : string_map data) : option (string_map data) :=
  match ks with
  | [] => None
  | [k] => add k d m
  | k :: ks =>
    match do_get m k with
    | None => m1 ← add_path ks d []; Some (emplace k (DTableAs KDotted m1) m)
    | Some (DTableAs KDotted m1) => m1' ← add_path ks d m1; Some (map_alter (λ _, DTableAs KDotted m1') k m)
    | Some _ => None
    end
  end.

(** A new table, or one that a longer header has made; or a new element of an
    array of tables. *)
Definition open (arr : bool) (k : bytes) (m : string_map data) : option (string_map data) :=
  match do_get m k with
  | None => Some (emplace k (if arr then DTables [[]] else DTable []) m)
  | Some (DTables l) => if arr then Some (map_alter (λ _, DTables (l ++ [[]])) k m) else None
  | Some (DTableAs KImplicit m1) => if arr then None else Some (map_alter (λ _, DTable m1) k m)
  | Some _ => None
  end.

Definition declare (arr : bool) (path : list bytes) (m : string_map data) : option (string_map data) :=
  k ← last path; enter (removelast path) (open arr k) m.

(** The current table and the data so far. *)
Definition doc_state : Type := list bytes * string_map data.

(** A line changes them; [None] when it defines a key or a table again. *)
Definition line_meaning (l : line) (s : doc_state) : option doc_state :=
  let '(path, m) := s in
  match l with
  | Blank | Comment _ => Some (path, m)
  | Pair ks d => m' ← enter path (add_path ks d) m; Some (path, m')
  | Header arr p => m' ← declare arr p m; Some (p, m')
  end.

Fixpoint lines_meaning (d : document) (s : doc_state) : option doc_state :=
  match d with
  | [] => Some s
  | l :: d => line_meaning l s ≫= lines_meaning d
  end.

Definition document_meaning (d : document) : option (string_map data) := snd <$> lines_meaning d ([], []).
