(* ===== verification/TomlCompare.v ===== *)
(** * TomlCompare: comparison of dates, times and nodes ([src/include/toml.hpp])

    The comparison operators of [toml::date], [toml::time], [toml::time_offset],
    [toml::date_time], [toml::value], [toml::array] and [toml::table]. Dates and
    times are compared through words their fields are packed into; nodes are
    compared by walking both trees. *)
From Stdlib Require Import SpecFloat.
From S2P Require Import Prelude Bytes TomlNode TomlGrammar.

Local Open Scope Z_scope.

(** ** Dates and times *)
Definition date_eq (lhs rhs : date) : bool :=
  (d_year lhs =? d_year rhs) && (d_month lhs =? d_month rhs) && (d_day lhs =? d_day rhs).
Definition date_pack (d : date) : Z := Z.lor (Z.lor (Z.shiftl (d_year d) 16) (Z.shiftl (d_month d) 8)) (d_day d).
Definition date_lt (lhs rhs : date) : bool := date_pack lhs <? date_pack rhs.
Definition date_le (lhs rhs : date) : bool := date_pack lhs <=? date_pack rhs.
Definition date_gt (lhs rhs : date) : bool := date_pack rhs <? date_pack lhs.
Definition date_ge (lhs rhs : date) : bool := date_pack rhs <=? date_pack lhs.

Definition time_eq (lhs rhs : time) : bool :=
  (t_hour lhs =? t_hour rhs) && (t_minute lhs =? t_minute rhs) && (t_second lhs =? t_second rhs) &&
  (t_nanosecond lhs =? t_nanosecond rhs).
Definition time_pack (t : time) : Z :=
  Z.lor (Z.lor (Z.lor (Z.shiftl (t_hour t) 48) (Z.shiftl (t_minute t) 40)) (Z.shiftl (t_second t) 32)) (t_nanosecond t).
Definition time_lt (lhs rhs : time) : bool := time_pack lhs <? time_pack rhs.
Definition time_le (lhs rhs : time) : bool := time_pack lhs <=? time_pack rhs.
Definition time_gt (lhs rhs : time) : bool := time_pack rhs <? time_pack lhs.
Definition time_ge (lhs rhs : time) : bool := time_pack rhs <=? time_pack lhs.

(** [std::optional<time_offset>]: none is before every offset. *)
Definition offset_eq (lhs rhs : option Z) : bool :=
  match lhs, rhs with Some l, Some r => l =? r | None, None => true | _, _ => false end.
Definition offset_lt (lhs rhs : option Z) : bool :=
  match rhs with None => false | Some r => match lhs with None => true | Some l => l <? r end end.
Definition offset_le (lhs rhs : option Z) : bool :=
  match lhs with None => true | Some l => match rhs with None => false | Some r => l <=? r end end.

Definition date_time_eq (lhs rhs : date_time) : bool :=
  date_eq (dt_date lhs) (dt_date rhs) && time_eq (dt_time lhs) (dt_time rhs) && offset_eq (dt_offset lhs) (dt_offset rhs).
Definition date_time_lt (lhs rhs : date_time) : bool :=
  if negb (date_eq (dt_date lhs) (dt_date rhs)) then date_lt (dt_date lhs) (dt_date rhs)
  else if negb (time_eq (dt_time lhs) (dt_time rhs)) then time_lt (dt_time lhs) (dt_time rhs)
  else offset_lt (dt_offset lhs) (dt_offset rhs).
Definition date_time_le (lhs rhs : date_time) : bool :=
  if negb (date_eq (dt_date lhs) (dt_date rhs)) then date_lt (dt_date lhs) (dt_date rhs)
  else if negb (time_eq (dt_time lhs) (dt_time rhs)) then time_lt (dt_time lhs) (dt_time rhs)
  else offset_le (dt_offset lhs) (dt_offset rhs).
Definition date_time_gt (lhs rhs : date_time) : bool := negb (date_time_le lhs rhs).
Definition date_time_ge (lhs rhs : date_time) : bool := negb (date_time_lt lhs rhs).

(** ** Doubles *)

(** The bits of a double, as [memcpy] gives them; a NaN is the quiet one. *)
Definition double_bits (x : spec_float) : Z :=
  match x with
  | S754_zero s => if s then 2 ^ 63 else 0
  | S754_infinity s => (if s then 2 ^ 63 else 0) + 2047 * 2 ^ 52
  | S754_nan => 2047 * 2 ^ 52 + 2 ^ 51
  | S754_finite s m e =>
    (if s then 2 ^ 63 else 0) + (if 2 ^ 52 <=? Z.pos m then (e + 1075) * 2 ^ 52 + (Z.pos m - 2 ^ 52) else Z.pos m)
  end.

Inductive fp_class := fp_ok | fp_neg_inf | fp_pos_inf | fp_nan.
#[global] Instance fp_class_eq_dec : EqDecision fp_class.
Proof. solve_decision. Defined.

(** [impl::fpclassify] *)
Definition fpclassify (val_bits : Z) : fp_class :=
  let sign := 0x8000000000000000 in
  let exponent := 0x7FF0000000000000 in
  let mantissa := 0x000FFFFFFFFFFFFF in
  if negb (Z.land val_bits exponent =? exponent) then fp_ok
  else if negb (Z.land val_bits mantissa =? 0) then fp_nan
  else if negb (Z.land val_bits sign =? 0) then fp_neg_inf
  else fp_pos_inf.

(** [operator==] of [value<double>] *)
Definition double_eq (lhs rhs : spec_float) : bool :=
  let lhs_nan := bool_decide (fpclassify (double_bits lhs) = fp_nan) in
  let rhs_nan := bool_decide (fpclassify (double_bits rhs) = fp_nan) in
  if lhs_nan && rhs_nan then true
  else if negb (Bool.eqb lhs_nan rhs_nan) then false
  else SFeqb lhs rhs.

(** ** Nodes *)

(** [operator==] of values, arrays and tables, on nodes that are different
    objects. *)
Fixpoint node_eq (lhs rhs : node) {struct lhs} : bool :=
  match lhs, rhs with
  | Table _ l _ _, Table _ r _ _ =>
    if negb (length l =? length r)%nat then false
    else (fix entries l r :=
      match l, r with
      | (k, v) :: l, (k', v') :: r =>
        if negb (bool_decide (k = k')) then false
        else if negb (bool_decide (node_type_of v = node_type_of v')) then false
        else if negb (node_eq v v') then false
        else entries l r
      | _, _ => true
      end) l r
  | Array _ l _, Array _ r _ =>
    if negb (length l =? length r)%nat then false
    else (fix elements l r :=
      match l, r with
      | v :: l, v' :: r =>
        if negb (bool_decide (node_type_of v = node_type_of v')) then false
        else if negb (node_eq v v') then false
        else elements l r
      | _, _ => true
      end) l r
  | VString l _, VString r _ => bool_decide (l = r)
  | VInteger l _ _, VInteger r _ _ => l =? r
  | VFloat l _, VFloat r _ => double_eq l r
  | VBoolean l _, VBoolean r _ => Bool.eqb l r
  | VDate l _, VDate r _ => date_eq l r
  | VTime l _, VTime r _ => time_eq l r
  | VDateTime l _, VDateTime r _ => date_time_eq l r
  | _, _ => false
  end.

(** [operator==] of arrays and tables looks at the addresses first. *)
Definition container_eq (same_object : bool) (lhs rhs : node) : bool := if same_object then true else node_eq lhs rhs.

(** The order of values: of one type, that of the type; otherwise, that of the
    types ([node_type]). *)
Definition type_index (t : node_type) : Z :=
  match t with
  | ty_none => 0 | ty_table => 1 | ty_array => 2 | ty_string => 3 | ty_integer => 4
  | ty_floating_point => 5 | ty_boolean => 6 | ty_date => 7 | ty_time => 8 | ty_date_time => 9
  end.

Definition value_lt (lhs rhs : node) : bool :=
  match lhs, rhs with
  | VString l _, VString r _ => bool_decide (bytes_compare l r = Lt)
  | VInteger l _ _, VInteger r _ _ => l <? r
  | VFloat l _, VFloat r _ => SFltb l r
  | VBoolean l _, VBoolean r _ => Z.b2z l <? Z.b2z r
  | VDate l _, VDate r _ => date_lt l r
  | VTime l _, VTime r _ => time_lt l r
  | VDateTime l _, VDateTime r _ => date_time_lt l r
  | _, _ => type_index (node_type_of lhs) <? type_index (node_type_of rhs)
  end.

Definition value_le (lhs rhs : node) : bool :=
  match lhs, rhs with
  | VString l _, VString r _ => bool_decide (bytes_compare l r ≠ Gt)
  | VInteger l _ _, VInteger r _ _ => l <=? r
  | VFloat l _, VFloat r _ => SFleb l r
  | VBoolean l _, VBoolean r _ => Z.b2z l <=? Z.b2z r
  | VDate l _, VDate r _ => date_le l r
  | VTime l _, VTime r _ => time_le l r
  | VDateTime l _, VDateTime r _ => date_time_le l r
  | _, _ => type_index (node_type_of lhs) <=? type_index (node_type_of rhs)
  end.

Definition value_gt (lhs rhs : node) : bool :=
  match lhs, rhs with
  | VString l _, VString r _ => bool_decide (bytes_compare l r = Gt)
  | VInteger l _ _, VInteger r _ _ => r <? l
  | VFloat l _, VFloat r _ => SFltb r l
  | VBoolean l _, VBoolean r _ => Z.b2z r <? Z.b2z l
  | VDate l _, VDate r _ => date_gt l r
  | VTime l _, VTime r _ => time_gt l r
  | VDateTime l _, VDateTime r _ => date_time_gt l r
  | _, _ => type_index (node_type_of rhs) <? type_index (node_type_of lhs)
  end.

Definition value_ge (lhs rhs : node) : bool :=
  match lhs, rhs with
  | VString l _, VString r _ => bool_decide (bytes_compare l r ≠ Lt)
  | VInteger l _ _, VInteger r _ _ => r <=? l
  | VFloat l _, VFloat r _ => SFleb r l
  | VBoolean l _, VBoolean r _ => Z.b2z r <=? Z.b2z l
  | VDate l _, VDate r _ => date_ge l r
  | VTime l _, VTime r _ => time_ge l r
  | VDateTime l _, VDateTime r _ => date_time_ge l r
  | _, _ => type_index (node_type_of rhs) <=? type_index (node_type_of lhs)
  end.

(** [source_position]; [pos_lt] and [pos_le] are in [TomlNode]. *)
Definition position_eq (lhs rhs : source_position) : bool :=
  (pos_line lhs =? pos_line rhs) && (pos_column lhs =? pos_column rhs).
Definition position_ne (lhs rhs : source_position) : bool :=
  negb (pos_line lhs =? pos_line rhs) || negb (pos_column lhs =? pos_column rhs).

(** ** The order of dates and times *)

(** The fields of an object have the widths of their types. *)
Definition sized_date (d : date) : Prop := 0 ≤ d_year d < 2 ^ 16 ∧ 0 ≤ d_month d < 2 ^ 8 ∧ 0 ≤ d_day d < 2 ^ 8.
Definition sized_time (t : time) : Prop :=
  0 ≤ t_hour t < 2 ^ 8 ∧ 0 ≤ t_minute t < 2 ^ 8 ∧ 0 ≤ t_second t < 2 ^ 8 ∧ 0 ≤ t_nanosecond t < 2 ^ 32.
Definition sized_date_time (dt : date_time) : Prop := sized_date (dt_date dt) ∧ sized_time (dt_time dt).

(** Lists of numbers, compared from the left. *)
Fixpoint lex_compare (l r : list Z) : comparison :=
  match l, r with
  | [], [] => Eq
  | [], _ :: _ => Lt
  | _ :: _, [] => Gt
  | x :: l, y :: r => match x ?= y with Eq => lex_compare l r | c => c end
  end.

Definition date_fields (d : date) : list Z := [d_year d; d_month d; d_day d].
Definition time_fields (t : time) : list Z := [t_hour t; t_minute t; t_second t; t_nanosecond t].
Definition date_time_fields (dt : date_time) : list Z :=
  date_fields (dt_date dt) ++ time_fields (dt_time dt) ++ option_list (dt_offset dt).

(** A field below another one in a word. *)
Lemma lor_low a b n : 0 ≤ n → 0 ≤ b < 2 ^ n → Z.lor (Z.shiftl a n) b = a * 2 ^ n + b.
Proof.
  intros Hn Hb. rewrite Z.shiftl_mul_pow2 by done. rewrite <- Z.add_lor_land.
  assert (Z.land (a * 2 ^ n) b = 0) as ->; [|lia]. apply Z.bits_inj'. intros i Hi. rewrite Z.land_spec, Z.bits_0.
  destruct (decide (i < n)); [by rewrite Z.mul_pow2_bits_low|].
  rewrite <- (Z.mod_small b (2 ^ n)), Z.mod_pow2_bits_high by lia. apply andb_false_r.
Qed.

Lemma compare_packed a b x y n :
  0 ≤ x < 2 ^ n → 0 ≤ y < 2 ^ n → (a * 2 ^ n + x ?= b * 2 ^ n + y) = match a ?= b with Eq => x ?= y | c => c end.
Proof.
  intros Hx Hy. destruct (Z.compare_spec a b) as [->|H|H].
  - destruct (Z.compare_spec x y) as [->|H|H]; [apply Z.compare_eq_iff|apply Z.compare_lt_iff|apply Z.compare_gt_iff]; lia.
  - apply Z.compare_lt_iff. nia.
  - apply Z.compare_gt_iff. nia.
Qed.

Lemma date_pack_compare a b :
  sized_date a → sized_date b → (date_pack a ?= date_pack b) = lex_compare (date_fields a) (date_fields b).
Proof.
  intros (Ha1 & Ha2 & Ha3) (Hb1 & Hb2 & Hb3). unfold date_pack, date_fields. cbn [lex_compare].
  assert (∀ y m d, Z.lor (Z.lor (Z.shiftl y 16) (Z.shiftl m 8)) d = Z.lor (Z.shiftl (Z.lor (Z.shiftl y 8) m) 8) d) as Hs.
  { intros y m d. by rewrite Z.shiftl_lor, Z.shiftl_shiftl by lia. }
  rewrite !Hs, !lor_low, !compare_packed by lia. repeat case_match; done.
Qed.

Lemma time_pack_compare a b :
  sized_time a → sized_time b → (time_pack a ?= time_pack b) = lex_compare (time_fields a) (time_fields b).
Proof.
  intros (Ha1 & Ha2 & Ha3 & Ha4) (Hb1 & Hb2 & Hb3 & Hb4). unfold time_pack, time_fields. cbn [lex_compare].
  assert (∀ h m s n, Z.lor (Z.lor (Z.lor (Z.shiftl h 48) (Z.shiftl m 40)) (Z.shiftl s 32)) n
    = Z.lor (Z.shiftl (Z.lor (Z.shiftl (Z.lor (Z.shiftl h 8) m) 8) s) 32) n) as Hs.
  { intros h m s n. by rewrite !Z.shiftl_lor, !Z.shiftl_shiftl by lia. }
  rewrite !Hs, !lor_low, !compare_packed by lia. repeat case_match; done.
Qed.

Lemma lex_compare_eq l r : lex_compare l r = Eq ↔ l = r.
Proof.
  revert r. induction l as [|x l IH]; intros [|y r]; cbn; try done.
  destruct (Z.compare_spec x y) as [->|H|H]; [rewrite IH; split; congruence| |]; split; try done; intros [= -> ->]; lia.
Qed.

Lemma date_eq_fields a b : date_eq a b = bool_decide (date_fields a = date_fields b).
Proof.
  unfold date_eq, date_fields. apply Bool.eq_iff_eq_true. rewrite bool_decide_eq_true, !andb_true_iff, !Z.eqb_eq.
  split; [intros ((-> & ->) & ->)|intros [= -> -> ->]]; done.
Qed.
Lemma time_eq_fields a b : time_eq a b = bool_decide (time_fields a = time_fields b).
Proof.
  unfold time_eq, time_fields. apply Bool.eq_iff_eq_true. rewrite bool_decide_eq_true, !andb_true_iff, !Z.eqb_eq.
  split; [intros (((-> & ->) & ->) & ->)|intros [= -> -> -> ->]]; done.
Qed.

Lemma lex_compare_app l l' r r' :
  length l = length l' → lex_compare (l ++ r) (l' ++ r') = match lex_compare l l' with Eq => lex_compare r r' | c => c end.
Proof.
  revert l'. induction l as [|x l IH]; intros [|y l'] Hl; try done. cbn. destruct (x ?= y); [apply IH; by injection Hl|done|done].
Qed.

(** What the five operators return for two objects that compare as [c]. *)
Definition operators_agree (c : comparison) (eq lt le gt ge : bool) : Prop :=
  eq = bool_decide (c = Eq) ∧ lt = bool_decide (c = Lt) ∧ le = bool_decide (c ≠ Gt) ∧
  gt = bool_decide (c = Gt) ∧ ge = bool_decide (c ≠ Lt).

Lemma packed_operators x y (eq : bool) c :
  (x ?= y) = c → eq = bool_decide (c = Eq) → operators_agree c eq (x <? y) (x <=? y) (y <? x) (y <=? x).
Proof.
  intros <- ->. unfold operators_agree. destruct (Z.compare_spec x y); repeat split;
    (apply Z.ltb_lt || apply Z.leb_le || apply Z.ltb_ge || apply Z.leb_gt); lia.
Qed.

Lemma fields_decide l r : bool_decide (l = r) = bool_decide (lex_compare l r = Eq).
Proof. apply bool_decide_ext. by rewrite lex_compare_eq. Qed.

Lemma date_operators a b :
  sized_date a → sized_date b →
  operators_agree (lex_compare (date_fields a) (date_fields b)) (date_eq a b) (date_lt a b) (date_le a b) (date_gt a b) (date_ge a b).
Proof. intros Ha Hb. apply packed_operators; [by apply date_pack_compare|]. by rewrite date_eq_fields, fields_decide. Qed.

Lemma time_operators a b :
  sized_time a → sized_time b →
  operators_agree (lex_compare (time_fields a) (time_fields b)) (time_eq a b) (time_lt a b) (time_le a b) (time_gt a b) (time_ge a b).
Proof. intros Ha Hb. apply packed_operators; [by apply time_pack_compare|]. by rewrite time_eq_fields, fields_decide. Qed.

Lemma offset_operators a b :
  let c := lex_compare (option_list a) (option_list b) in
  offset_eq a b = bool_decide (c = Eq) ∧ offset_lt a b = bool_decide (c = Lt) ∧ offset_le a b = bool_decide (c ≠ Gt).
Proof.
  destruct a as [x|], b as [y|]; try done. change (option_list (Some x)) with [x]. change (option_list (Some y)) with [y].
  cbv zeta. cbn [lex_compare offset_eq offset_lt offset_le].
  destruct (Z.compare_spec x y); repeat split;
    (apply Z.ltb_lt || apply Z.leb_le || apply Z.ltb_ge || apply Z.leb_gt || apply Z.eqb_eq || apply Z.eqb_neq); lia.
Qed.

Lemma date_time_operators a b :
  sized_date_time a → sized_date_time b →
  operators_agree (lex_compare (date_time_fields a) (date_time_fields b))
    (date_time_eq a b) (date_time_lt a b) (date_time_le a b) (date_time_gt a b) (date_time_ge a b).
Proof.
  intros [Had Hat] [Hbd Hbt]. unfold date_time_fields. rewrite !lex_compare_app by done.
  unfold date_time_gt, date_time_ge, date_time_eq, date_time_lt, date_time_le.
  destruct (date_operators _ _ Had Hbd) as (Ed & Ld & _), (time_operators _ _ Hat Hbt) as (Et & Lt & _),
    (offset_operators (dt_offset a) (dt_offset b)) as (Eo & Lo & LEo). rewrite Ed, Ld, Et, Lt, Eo, Lo, LEo.
  destruct (lex_compare (date_fields _) _), (lex_compare (time_fields _) _), (lex_compare (option_list _) _); done.
Qed.

(** ** Doubles *)
Definition double (x : spec_float) : bool := valid_binary 53 1024 x.

(** The exponent and the fraction in the bits of a double. *)
Lemma land_field x k n : 0 ≤ k → 0 ≤ n → Z.land x (Z.ones k * 2 ^ n) = (x / 2 ^ n) mod 2 ^ k * 2 ^ n.
Proof.
  intros Hk Hn. rewrite <- Z.land_ones by done. rewrite <- Z.shiftr_div_pow2, <- !Z.shiftl_mul_pow2 by done.
  apply Z.bits_inj'. intros i Hi. rewrite !Z.land_spec, !Z.shiftl_spec, Z.land_spec by done.
  destruct (decide (i < n)).
  - rewrite !(Z.testbit_neg_r _ (i - n)) by lia. by rewrite andb_false_r.
  - rewrite Z.shiftr_spec by lia. by replace (i - n + n) with i by lia.
Qed.

Definition class_of (x : spec_float) : fp_class :=
  match x with
  | S754_nan => fp_nan
  | S754_infinity s => if s then fp_neg_inf else fp_pos_inf
  | _ => fp_ok
  end.

Lemma double_exponent s m e :
  double (S754_finite s m e) = true → -1074 ≤ e ≤ 971 ∧ Z.pos m < 2 ^ 53.
Proof.
  unfold double. cbn [valid_binary]. unfold bounded, canonical_mantissa. intros [Hc He]%andb_true_iff.
  apply Z.leb_le in He. apply Zeq_is_eq_bool in Hc. unfold fexp, emin in Hc.
  assert (Z.pos m < 2 ^ Z.pos (digits2_pos m)) as Hm.
  { clear. induction m as [m IH|m IH|]; cbn [digits2_pos]; [| |done]; rewrite Pos2Z.inj_succ, Z.pow_succ_r by lia; lia. }
  split; [lia|]. assert (Z.pos (digits2_pos m) ≤ 53) as Hd by lia.
  pose proof (Z.pow_le_mono_r 2 _ 53 ltac:(lia) Hd). lia.
Qed.

Lemma fpclassify_exact x : double x = true → fpclassify (double_bits x) = class_of x.
Proof.
  destruct x as [[]|[]| |s m e]; intros Hx; [vm_compute; reflexivity..|].
  destruct (double_exponent _ _ _ Hx) as [He Hm]. unfold fpclassify. cbn [class_of].
  change 0x7FF0000000000000 with (Z.ones 11 * 2 ^ 52). rewrite land_field by lia.
  assert ((double_bits (S754_finite s m e) / 2 ^ 52) mod 2 ^ 11 ≠ 2047) as Hb.
  { cbn [double_bits]. destruct (Z.leb_spec (2 ^ 52) (Z.pos m)) as [H|H].
    - replace ((if s then 2 ^ 63 else 0) + ((e + 1075) * 2 ^ 52 + (Z.pos m - 2 ^ 52)))
        with (Z.pos m - 2 ^ 52 + ((if s then 2 ^ 11 else 0) + (e + 1075)) * 2 ^ 52) by (destruct s; lia).
      rewrite Z.div_add, Z.div_small by lia.
      replace (0 + ((if s then 2 ^ 11 else 0) + (e + 1075))) with (e + 1075 + (if s then 1 else 0) * 2 ^ 11) by (destruct s; lia).
      rewrite Z.mod_add, Z.mod_small by lia. lia.
    - replace ((if s then 2 ^ 63 else 0) + Z.pos m) with (Z.pos m + (if s then 2 ^ 11 else 0) * 2 ^ 52) by (destruct s; lia).
      rewrite Z.div_add, Z.div_small by lia.
      destruct s; vm_compute; done. }
  destruct (Z.eqb_spec ((double_bits (S754_finite s m e) / 2 ^ 52) mod 2 ^ 11 * 2 ^ 52) (Z.ones 11 * 2 ^ 52)) as [H|H]; [|done].
  exfalso. apply Hb. apply Z.mul_reg_r in H; [exact H|lia].
Qed.

(** The two zeros are equal, and a NaN is equal to itself. *)
Definition canon_float (x : spec_float) : spec_float := match x with S754_zero _ => S754_zero false | _ => x end.

Lemma double_eq_spec x y : double x = true → double y = true → double_eq x y = true ↔ canon_float x = canon_float y.
Proof.
  intros Hx Hy. unfold double_eq. rewrite !fpclassify_exact by done.
  assert (∀ z, bool_decide (class_of z = fp_nan) = match z with S754_nan => true | _ => false end) as Hn by (by intros [[]|[]| |]).
  rewrite !Hn. clear Hn Hx Hy. unfold SFeqb.
  destruct x as [s|s| |s m e], y as [s'|s'| |s' m' e']; cbn [andb negb Bool.eqb canon_float SFcompare]; try done;
    try (destruct s, s'; done); try (destruct s; done); try (destruct s'; done).
  destruct s, s'; try done; destruct (Z.compare_spec e e') as [->|H|H]; try (split; [done|intros [= ->]; lia]);
    fold (m ?= m')%positive; destruct (Pos.compare_spec m m') as [->|H|H]; try done; (split; [done|intros [= ->]; lia]).
Qed.

(** ** Nodes *)

(** Data up to the sign of zero. *)
Fixpoint canon (d : data) : data :=
  match d with
  | DFloat x => DFloat (canon_float x)
  | DArray l => DArray (map canon l)
  | DTableAs kd m => DTableAs kd (map (λ kv, (kv.1, canon kv.2)) m)
  | DTables l => DTables (map (map (λ kv, (kv.1, canon kv.2))) l)
  | _ => d
  end.

(** The floats of a node are doubles. *)
Fixpoint doubles (n : node) : bool :=
  match n with
  | Table _ m _ _ => forallb (λ kv, doubles kv.2) m
  | Array _ els _ => forallb doubles els
  | VFloat x _ => double x
  | _ => true
  end.

Definition eq_ok (v : node) : Prop :=
  ∀ v', doubles v = true → doubles v' = true → node_eq v v' = true ↔ canon (strip v) = canon (strip v').

(** The same type is a consequence of equality. *)
Lemma node_eq_type v v' : node_eq v v' = true → node_type_of v = node_type_of v'.
Proof. destruct v, v'; cbn; done. Qed.

Lemma array_node_eq a l r a' l' r' :
  Forall eq_ok l → forallb doubles l = true → forallb doubles l' = true →
  node_eq (Array a l r) (Array a' l' r') = true ↔ map canon (map strip l) = map canon (map strip l').
Proof.
  intros Hl. cbn [node_eq]. revert l'. induction Hl as [|v l Hv _ IH]; intros [|v' l'] Hd Hd'; cbn [map length Nat.eqb negb]; try done.
  cbn [forallb] in Hd, Hd'. apply andb_true_iff in Hd as [Hdv Hdl], Hd' as [Hdv' Hdl'].
  specialize (IH l' Hdl Hdl'). specialize (Hv v' Hdv Hdv').
  destruct (node_eq v v') eqn:He; cbn [negb].
  - rewrite bool_decide_true by (by apply node_eq_type). cbn [negb]. rewrite IH. rewrite (proj1 Hv eq_refl). split; congruence.
  - destruct (length l =? length l')%nat, (bool_decide _); cbn [negb]; split; try done; intros [= H _]; apply Hv in H; done.
Qed.

Lemma table_node_eq a l i r a' l' i' r' :
  Forall (λ kv, eq_ok kv.2) l → forallb (λ kv, doubles kv.2) l = true → forallb (λ kv, doubles kv.2) l' = true →
  node_eq (Table a l i r) (Table a' l' i' r') = true ↔
    map (λ kv, (kv.1, canon kv.2)) (strip_map l) = map (λ kv, (kv.1, canon kv.2)) (strip_map l').
Proof.
  intros Hl. cbn [node_eq]. revert l'. induction Hl as [|[k v] l Hv _ IH]; intros [|[k' v'] l'] Hd Hd'; cbn [strip_map map length Nat.eqb negb]; try done.
  cbn [forallb snd] in Hd, Hd', Hv. apply andb_true_iff in Hd as [Hdv Hdl], Hd' as [Hdv' Hdl'].
  specialize (IH l' Hdl Hdl'). specialize (Hv v' Hdv Hdv'). cbn [fst snd] in *. fold (strip_map l) (strip_map l').
  destruct (decide (k = k')) as [->|Hk].
  2: { rewrite (bool_decide_false (k = k')) by done. cbn [negb]. destruct (length l =? length l')%nat; split; try done; intros [= H _ _]; done. }
  rewrite (bool_decide_true (k' = k')) by done. cbn [negb]. destruct (node_eq v v') eqn:He; cbn [negb].
  - rewrite bool_decide_true by (by apply node_eq_type). cbn [negb]. rewrite IH. rewrite (proj1 Hv eq_refl). split; congruence.
  - destruct (length l =? length l')%nat, (bool_decide _); cbn [negb]; split; try done; intros [= H _]; apply Hv in H; done.
Qed.

Lemma date_eq_spec a b : date_eq a b = true ↔ a = b.
Proof. rewrite date_eq_fields, bool_decide_eq_true. destruct a, b. unfold date_fields. cbn. split; congruence. Qed.
Lemma time_eq_spec a b : time_eq a b = true ↔ a = b.
Proof. rewrite time_eq_fields, bool_decide_eq_true. destruct a, b. unfold time_fields. cbn. split; congruence. Qed.
Lemma offset_eq_spec a b : offset_eq a b = true ↔ a = b.
Proof. destruct a as [x|], b as [y|]; cbn; try done. rewrite Z.eqb_eq. split; congruence. Qed.
Lemma date_time_eq_spec a b : date_time_eq a b = true ↔ a = b.
Proof.
  unfold date_time_eq. rewrite !andb_true_iff, date_eq_spec, time_eq_spec, offset_eq_spec. destruct a, b. cbn.
  split; [intros ((-> & ->) & ->)|intros [= -> -> ->]]; done.
Qed.

Lemma node_eq_ok v : eq_ok v.
Proof.
  revert v. fix IH 1. intros v. unfold eq_ok.
  destruct v as [a m i r|a els r|s r|z f r|x r|b r|d r|t r|dt r], v' as [a' m' i' r'|a' els' r'|s' r'|z' f' r'|x' r'|b' r'|d' r'|t' r'|dt' r'];
    try done; intros Hd Hd'; cbn [strip canon].
  - rewrite table_node_eq; [fold (strip_map m) (strip_map m'); split; congruence| |exact Hd|exact Hd'].
    clear Hd Hd'. induction m as [|[k v] m IHm]; constructor; [apply IH|exact IHm].
  - rewrite array_node_eq; [split; congruence| |exact Hd|exact Hd']. clear Hd Hd'.
    induction els as [|v els IHels]; constructor; [apply IH|exact IHels].
  - cbn. rewrite bool_decide_eq_true. split; congruence.
  - cbn. rewrite Z.eqb_eq. split; congruence.
  - cbn [node_eq]. rewrite double_eq_spec by done. split; congruence.
  - cbn. rewrite Bool.eqb_true_iff. split; congruence.
  - cbn [node_eq]. rewrite date_eq_spec. split; congruence.
  - cbn [node_eq]. rewrite time_eq_spec. split; congruence.
  - cbn [node_eq]. rewrite date_time_eq_spec. split; congruence.
Qed.

(** Copies hold the same data. *)
Lemma strip_copy n : strip (copy_node n) = strip n.
Proof.
  revert n. fix IH 1. intros [a m i r|a els r|s r|z f r|x r|b r|d r|t r|dt r]; try reflexivity; cbn [copy_node strip]; f_equal.
  - induction m as [|[k v] m IHm]; [reflexivity|]. cbn [map fst snd]. rewrite IH, IHm. reflexivity.
  - induction els as [|v els IHels]; [reflexivity|]. cbn [map]. rewrite IH, IHels. reflexivity.
Qed.

(** Equality looks at the data alone. *)
Fixpoint data_doubles (d : data) : bool :=
  match d with
  | DTableAs _ m => forallb (λ kv, data_doubles kv.2) m
  | DArray l => forallb data_doubles l
  | DFloat x => double x
  | _ => true
  end.

Lemma doubles_strip n : doubles n = data_doubles (strip n).
Proof.
  revert n. fix IH 1. intros [a m i r|a els r|s r|z f r|x r|b r|d r|t r|dt r]; try reflexivity; cbn [strip data_doubles doubles].
  - induction m as [|[k v] m IHm]; [reflexivity|]. cbn [map forallb fst snd]. rewrite IH, IHm. reflexivity.
  - induction els as [|v els IHels]; [reflexivity|]. cbn [map forallb]. rewrite IH, IHels. reflexivity.
Qed.

Lemma node_eq_data n n' : strip n = strip n' → doubles n' = true → node_eq n n' = true.
Proof. intros Hs Hd. apply node_eq_ok; [by rewrite doubles_strip, Hs, <- doubles_strip|done|by rewrite Hs]. Qed.

(** ** The order of values *)
Definition float_fields (x : spec_float) : list Z :=
  match x with
  | S754_infinity s => [if s then -2 else 2]
  | S754_zero _ | S754_nan => [0]
  | S754_finite s m e => if s then [-1; - e; - Z.pos m] else [1; e; Z.pos m]
  end.

Definition value_fields (v : node) : list Z :=
  type_index (node_type_of v) ::
  match v with
  | VString s _ => byte_to_Z <$> s
  | VInteger z _ _ => [z]
  | VFloat x _ => float_fields x
  | VBoolean b _ => [Z.b2z b]
  | VDate d _ => date_fields d
  | VTime t _ => time_fields t
  | VDateTime dt _ => date_time_fields dt
  | Table _ _ _ _ | Array _ _ _ => []
  end.

(** A value whose fields have the widths of their types, and that is not a NaN. *)
Definition ordered_value (v : node) : Prop :=
  match v with
  | VFloat x _ => double x = true ∧ x ≠ S754_nan
  | VDate d _ => sized_date d
  | VTime t _ => sized_time t
  | VDateTime dt _ => sized_date_time dt
  | Table _ _ _ _ | Array _ _ _ => False
  | _ => True
  end.

Lemma lex_compare_bytes a b : lex_compare (byte_to_Z <$> a) (byte_to_Z <$> b) = bytes_compare a b.
Proof. revert b. induction a as [|x a IH]; intros [|y b]; try done. cbn. by rewrite IH. Qed.

Lemma lex_compare_floats x y : x ≠ S754_nan → y ≠ S754_nan → SFcompare x y = Some (lex_compare (float_fields x) (float_fields y)).
Proof.
  intros Hx Hy. destruct x as [s|s| |s m e], y as [s'|s'| |s' m' e']; try done; destruct s, s'; try done; cbn; rewrite ?Z.compare_opp.
  - rewrite Z.compare_antisym. destruct (e' ?= e); cbn; try done.
    fold (Pos.compare m m') (Pos.compare m' m). rewrite (Pos.compare_antisym m' m). by destruct (m' ?= m)%positive.
  - destruct (e ?= e'); try done. fold (Pos.compare m m'). by destruct (m ?= m')%positive.
Qed.

Lemma SFcompare_swap x y c : SFcompare x y = Some c → SFcompare y x = Some (CompOpp c).
Proof.
  destruct x as [s|s| |s m e], y as [s'|s'| |s' m' e']; try done; destruct s, s'; cbn; intros [= <-]; try done.
  - rewrite (Z.compare_antisym e e'). destruct (e ?= e'); cbn; try done. f_equal.
    fold (Pos.compare m m') (Pos.compare m' m). rewrite (Pos.compare_antisym m m'). by destruct (m ?= m')%positive.
  - rewrite (Z.compare_antisym e e'). destruct (e ?= e'); cbn; try done. f_equal.
    fold (Pos.compare m m') (Pos.compare m' m). rewrite (Pos.compare_antisym m m'). by destruct (m ?= m')%positive.
Qed.

Lemma float_operators x y :
  double x = true → double y = true → x ≠ S754_nan → y ≠ S754_nan →
  operators_agree (lex_compare (float_fields x) (float_fields y)) (double_eq x y) (SFltb x y) (SFleb x y) (SFltb y x) (SFleb y x).
Proof.
  intros Hdx Hdy Hx Hy. pose proof (lex_compare_floats x y Hx Hy) as Hc. pose proof (SFcompare_swap _ _ _ Hc) as Hs.
  unfold double_eq. rewrite !fpclassify_exact by done.
  assert (∀ z, z ≠ S754_nan → class_of z ≠ fp_nan) as Hn by (by intros [|[]| |]).
  rewrite (bool_decide_false _ (Hn x Hx)), (bool_decide_false _ (Hn y Hy)).
  cbn [andb Bool.eqb negb]. unfold SFeqb, SFltb, SFleb. rewrite Hc, Hs. by destruct (lex_compare _ _).
Qed.

Lemma operators_of_types (v w : node) (eq : bool) :
  node_type_of v ≠ node_type_of w → eq = false →
  operators_agree (lex_compare (value_fields v) (value_fields w)) eq
    (type_index (node_type_of v) <? type_index (node_type_of w)) (type_index (node_type_of v) <=? type_index (node_type_of w))
    (type_index (node_type_of w) <? type_index (node_type_of v)) (type_index (node_type_of w) <=? type_index (node_type_of v)).
Proof.
  intros Ht ->. unfold value_fields. cbn [lex_compare].
  assert (type_index (node_type_of v) ≠ type_index (node_type_of w)) as Hi by (by destruct (node_type_of v), (node_type_of w)).
  apply packed_operators; destruct (Z.compare_spec (type_index (node_type_of v)) (type_index (node_type_of w))); done.
Qed.

(** C23: The comparison operators of [toml::value] are those of one total order on
    all values but NaNs: first the type, in the order of [node_type]; then strings
    byte by byte, numbers by size, the two zeros equal, dates, times and date-times
    by their fields from the year to the nanosecond and then by the offset, an
    absent one first. Packing the fields of a date or a time into a word confuses
    no two of them, for all values the fields can hold. *)
Theorem value_operators_ordered v w :
  ordered_value v → ordered_value w →
  operators_agree (lex_compare (value_fields v) (value_fields w)) (node_eq v w) (value_lt v w) (value_le v w) (value_gt v w) (value_ge v w).
Proof.
  intros Hv Hw. destruct (decide (node_type_of v = node_type_of w)) as [Ht|Ht].
  2: { destruct v, w; try done; by apply operators_of_types. }
  unfold value_fields. rewrite Ht. cbn [lex_compare]. rewrite Z.compare_refl.
  destruct v as [| |s r|z f r|x r|b r|d r|t r|dt r], w as [| |s' r'|z' f' r'|x' r'|b' r'|d' r'|t' r'|dt' r']; try done; cbn [ordered_value] in Hv, Hw.
  - rewrite lex_compare_bytes. unfold operators_agree. cbn. split_and!; try done. apply bool_decide_ext. by rewrite bytes_compare_eq.
  - apply packed_operators; [by cbn; destruct (z ?= z')|]. cbn. destruct (Z.compare_spec z z'), (Z.eqb_spec z z'); try done; lia.
  - destruct Hv as [Hd Hn], Hw as [Hd' Hn']. pose proof (float_operators x x' Hd Hd' Hn Hn') as Ho. exact Ho.
  - by destruct b, b'.
  - by apply date_operators.
  - by apply time_operators.
  - by apply date_time_operators.
Qed.

(** 1979-05-27 00:32:00.999999999 with the offset -07:00, and without one. *)
Definition demo_date_time (offset : option Z) : node :=
  VDateTime (mk_date_time (mk_date 1979 5 27) (mk_time 0 32 0 999999999) offset) no_region.

Lemma value_operators_ordered_witness :
  value_lt (demo_date_time None) (demo_date_time (Some (-420))) = true ∧ value_ge (VBoolean false no_region) (VString (bs "z") no_region) = true.
Proof.
  assert (∀ o, ordered_value (demo_date_time o)) as Hs by (intros o; cbn; unfold sized_date_time, sized_date, sized_time; cbn; lia).
  split.
  - exact (proj1 (proj2 (value_operators_ordered (demo_date_time None) (demo_date_time (Some (-420))) (Hs _) (Hs _)))).
  - exact (proj2 (proj2 (proj2 (proj2 (value_operators_ordered (VBoolean false no_region) (VString (bs "z") no_region) I I))))).
Defined.

(** Positions are ordered by line and then by column. *)
Lemma position_operators a b :
  let c := lex_compare [pos_line a; pos_column a] [pos_line b; pos_column b] in
  position_eq a b = bool_decide (c = Eq) ∧ position_ne a b = bool_decide (c ≠ Eq) ∧
  pos_lt a b = bool_decide (c = Lt) ∧ pos_le a b = bool_decide (c ≠ Gt).
Proof.
  unfold position_eq, position_ne, pos_lt, pos_le. cbn [lex_compare].
  destruct (Z.compare_spec (pos_line a) (pos_line b)) as [Hl|Hl|Hl], (Z.compare_spec (pos_column a) (pos_column b)) as [Hc|Hc|Hc];
    repeat first [rewrite (proj2 (Z.eqb_eq _ _)) by lia|rewrite (proj2 (Z.eqb_neq _ _)) by lia|rewrite (proj2 (Z.ltb_lt _ _)) by lia
    |rewrite (proj2 (Z.ltb_ge _ _)) by lia|rewrite (proj2 (Z.leb_le _ _)) by lia|rewrite (proj2 (Z.leb_gt _ _)) by lia]; done.
Qed.

(** ** Equality *)

(** C22: [operator==] on values, arrays and tables decides whether two nodes hold the
    same data: the same strings, numbers, booleans, dates and times under the same
    keys and in the same order, whatever their flags, positions and inline marks.
    The two zeros are equal and a NaN is equal to a NaN, so that equality is an
    equivalence: the short cut for two references to one object never changes the
    answer, and every node is equal to its copy. *)
Theorem node_equality_exact (same_object : bool) lhs rhs :
  doubles lhs = true → doubles rhs = true → (same_object = true → lhs = rhs) →
  (container_eq same_object lhs rhs = true ↔ canon (strip lhs) = canon (strip rhs)) ∧
  container_eq false lhs (copy_node lhs) = true.
Proof.
  intros Hl Hr Hs. split.
  - destruct same_object; [rewrite (Hs eq_refl); done|by apply node_eq_ok].
  - apply node_eq_data; [by rewrite strip_copy|by rewrite doubles_strip, strip_copy, <- doubles_strip].
Qed.

Definition demo_floats (x : spec_float) : node := Table 1 [(bs "x", Array 2 [VFloat x no_region; VFloat S754_nan no_region] no_region)] false no_region.

Lemma node_equality_exact_witness : container_eq false (demo_floats (S754_zero true)) (demo_floats (S754_zero false)) = true.
Proof. apply (node_equality_exact false); done. Defined.
