(* ===== verification/TomlRounding.v ===== *)
(** * TomlRounding: conversions to binary floating point that lose nothing

    C++ converts an integer or a floating-point number to a floating-point type
    with [prec] bits of precision and exponents below [emax] by rounding
    ([binary_round] of the Standard Library's specification of IEEE 754). Here:
    a number that the type has is kept as it is, and the integers up to
    [2 ^ prec] are such numbers. *)
From Stdlib Require Import SpecFloat.
From S2P Require Import Prelude.

Local Open Scope Z_scope.

(** Two pairs of a mantissa and an exponent that stand for the same number. *)
Definition same_number (mx : positive) (ex : Z) (m : positive) (e : Z) : Prop :=
  ∃ n, 0 ≤ n ∧ (Z.pos mx = Z.pos m * 2 ^ n ∧ ex = e - n ∨ Z.pos m = Z.pos mx * 2 ^ n ∧ ex = e + n).

Definition shifted (m n : positive) : positive := Pos.iter xO m n.

Lemma shifted_value m n : Z.pos (shifted m n) = Z.pos m * 2 ^ Z.pos n.
Proof.
  unfold shifted. induction n as [|n IH] using Pos.peano_ind; [by rewrite Z.mul_comm|].
  rewrite Pos.iter_succ, Pos2Z.inj_xO, IH, Pos2Z.inj_succ, Z.pow_succ_r by lia. lia.
Qed.

Lemma shifted_of mx m n : 0 ≤ n → Z.pos mx = Z.pos m * 2 ^ n → n = 0 ∧ mx = m ∨ ∃ p, n = Z.pos p ∧ mx = shifted m p.
Proof.
  intros Hn Hm. destruct n as [|p|p]; [left|right|lia].
  - split; [done|]. rewrite Z.pow_0_r in Hm. lia.
  - exists p. split; [done|]. apply Pos2Z.inj. by rewrite shifted_value.
Qed.

Lemma digits2_shifted m n : Z.pos (digits2_pos (shifted m n)) = Z.pos (digits2_pos m) + Z.pos n.
Proof.
  unfold shifted. induction n as [|n IH] using Pos.peano_ind; [cbn; lia|].
  rewrite Pos.iter_succ. cbn [digits2_pos]. lia.
Qed.

Lemma iter_pos_iter {A} (f : A → A) n x : SpecFloat.iter_pos f n x = Pos.iter f x n.
Proof.
  revert x. induction n as [n IH|n IH|]; intros x; cbn; [|by rewrite !IH|done].
  by rewrite !IH, <- !Pos.iter_swap.
Qed.

Lemma shr_shifted m n : SpecFloat.iter_pos shr_1 n (Build_shr_record (Z.pos (shifted m n)) false false) = Build_shr_record (Z.pos m) false false.
Proof.
  rewrite iter_pos_iter. unfold shifted. induction n as [|n IH] using Pos.peano_ind; [done|].
  by rewrite (Pos.iter_succ n _ xO), Pos.iter_succ_r.
Qed.

Section exact.
Context (prec emax : Z).

Lemma bounded_fexp m e :
  bounded prec emax m e = true → fexp prec emax (Z.pos (digits2_pos m) + e) = e ∧ (e <=? emax - prec) = true.
Proof. unfold bounded, canonical_mantissa. intros [Hc He]%andb_true_iff. by apply Z.eqb_eq in Hc. Qed.

(** Shifting right by nothing but zeros. *)
Lemma shr_fexp_exact mx m e ex :
  bounded prec emax m e = true → (mx = m ∧ ex = e ∨ ∃ n, mx = shifted m n ∧ ex = e - Z.pos n) →
  shr_fexp prec emax (Z.pos mx) ex loc_Exact = (Build_shr_record (Z.pos m) false false, e).
Proof.
  intros [Hf _]%bounded_fexp H. unfold shr_fexp. cbn [Zdigits2 shr_record_of_loc].
  destruct H as [[-> ->]|(n & -> & ->)].
  - by rewrite Hf, Z.sub_diag.
  - rewrite digits2_shifted. replace (_ + _ + (e - Z.pos n)) with (Z.pos (digits2_pos m) + e) by lia.
    rewrite Hf. replace (e - (e - Z.pos n)) with (Z.pos n) by lia. cbn [shr]. rewrite shr_shifted. f_equal. lia.
Qed.

Lemma binary_round_aux_exact s mx m e ex :
  bounded prec emax m e = true → (mx = m ∧ ex = e ∨ ∃ n, mx = shifted m n ∧ ex = e - Z.pos n) →
  binary_round_aux prec emax s (Z.pos mx) ex loc_Exact = S754_finite s m e.
Proof.
  intros Hb H. unfold binary_round_aux. rewrite (shr_fexp_exact mx m e) by done. cbn [shr_m loc_of_shr_record round_nearest_even].
  rewrite (shr_fexp_exact m m e) by auto. cbn [shr_m]. by rewrite (proj2 (bounded_fexp m e Hb)).
Qed.

(** A number of the type is not rounded, however it is written. *)
Lemma binary_round_exact s mx ex m e :
  bounded prec emax m e = true → same_number mx ex m e → binary_round prec emax s mx ex = S754_finite s m e.
Proof.
  intros Hb (n & Hn & H). pose proof (bounded_fexp m e Hb) as [Hf _]. unfold binary_round, shl_align.
  destruct H as [[Hm ->]|[Hm ->]]; apply shifted_of in Hm as [[-> ->]|(p & -> & ->)]; try done.
  - rewrite Z.sub_0_r, Hf, Z.sub_diag. by apply binary_round_aux_exact; auto.
  - rewrite digits2_shifted. replace (_ + _ + (e - Z.pos p)) with (Z.pos (digits2_pos m) + e) by lia.
    rewrite Hf. replace (e - (e - Z.pos p)) with (Z.pos p) by lia. apply binary_round_aux_exact; eauto.
  - rewrite Z.add_0_r, Hf, Z.sub_diag. by apply binary_round_aux_exact; auto.
  - rewrite digits2_shifted in Hf. replace (_ + (e + Z.pos p)) with (Z.pos (digits2_pos mx) + Z.pos p + e) by lia.
    rewrite Hf. replace (e - (e + Z.pos p)) with (Z.neg p) by lia. apply binary_round_aux_exact; auto.
Qed.

(** What is exact at the precision and within the range of the type is a number
    of the type: with the mantissa shifted to its place. *)
Lemma bounded_shift m e :
  3 ≤ 2 * emax → Z.pos (digits2_pos m) + e ≤ emax → fexp prec emax (Z.pos (digits2_pos m) + e) ≤ e →
  ∃ m' e', bounded prec emax m' e' = true ∧ same_number m e m' e'.
Proof.
  intros Hmax Hd He. remember (fexp prec emax (Z.pos (digits2_pos m) + e)) as e' eqn:He'.
  assert (bounded_at : ∀ m', Z.pos (digits2_pos m') + e' = Z.pos (digits2_pos m) + e → bounded prec emax m' e' = true).
  { intros m' Hm'. unfold bounded, canonical_mantissa. rewrite Hm', <- He'. rewrite Z.eqb_refl. cbn [andb].
    apply Z.leb_le. unfold fexp, emin in He'. lia. }
  destruct (e - e') as [|p|p] eqn:Hp; [| |lia].
  - exists m, e'. split; [apply bounded_at; lia|]. exists 0. rewrite Z.pow_0_r. lia.
  - exists (shifted m p), e'. split; [apply bounded_at; rewrite digits2_shifted; lia|].
    exists (Z.pos p). rewrite shifted_value. lia.
Qed.

Lemma digits2_bounds m : 2 ^ (Z.pos (digits2_pos m) - 1) ≤ Z.pos m < 2 ^ Z.pos (digits2_pos m).
Proof.
  induction m as [m IH|m IH|]; cbn [digits2_pos]; [| |by vm_compute]; rewrite Pos2Z.inj_succ.
  all: replace (Z.succ (Z.pos (digits2_pos m)) - 1) with (Z.succ (Z.pos (digits2_pos m) - 1)) by lia.
  all: rewrite !Z.pow_succ_r by lia; lia.
Qed.

(** The integers up to [2 ^ prec] are numbers of the type. *)
Lemma bounded_integer z :
  1 ≤ prec < emax → Z.pos z ≤ 2 ^ prec → ∃ m e, bounded prec emax m e = true ∧ same_number z 0 m e.
Proof.
  intros Hp Hz. pose proof (digits2_bounds z) as [Hlo Hhi].
  destruct (decide (Z.pos (digits2_pos z) ≤ prec)) as [Hd|Hd].
  - apply bounded_shift; [lia..|]. unfold fexp, emin. lia.
  - assert (Z.pos z = 2 ^ prec) as Hz'.
    { apply Z.le_antisymm; [done|]. etrans; [|exact Hlo]. apply Z.pow_le_mono_r; lia. }
    assert (∃ m, Z.pos m = 2 ^ (prec - 1)) as [m Hm].
    { pose proof (Z.pow_pos_nonneg 2 (prec - 1) ltac:(lia) ltac:(lia)). exists (Z.to_pos (2 ^ (prec - 1))). lia. }
    assert (Z.pos z = Z.pos m * 2 ^ 1) as Hzm.
    { rewrite Hz', Hm, <- Z.pow_add_r by lia. f_equal. lia. }
    pose proof (digits2_bounds m) as [Hml Hmh]. rewrite Hm in Hml, Hmh.
    apply Z.pow_le_mono_r_iff in Hml; [|lia..]. apply Z.pow_lt_mono_r_iff in Hmh; [|lia..].
    exists m, 1. split; [|exists 1; lia]. unfold bounded, canonical_mantissa, fexp, emin.
    apply andb_true_iff. split; [apply Z.eqb_eq|apply Z.leb_le]; lia.
Qed.

Definition integer_cast (z : Z) : spec_float := binary_normalize prec emax z 0 false.

Definition float_cast (x : spec_float) : spec_float :=
  match x with S754_finite s m e => binary_round prec emax s m e | _ => x end.

Lemma integer_cast_sign (s : bool) m : integer_cast (if s then Z.neg m else Z.pos m) = binary_round prec emax s m 0.
Proof. by destruct s. Qed.
End exact.
