(* ===== verification/TomlRetrieve.v ===== *)
(** * TomlRetrieve: values of nodes as C++ types ([toml_value.h] in [src/include/toml.hpp])

    The traits of the C++ types a value can be asked as, and [node::value_exact],
    [node::value] and [node::value_or] for all of them: which conversions there
    are, which are refused, and that none of them changes a number. Strings are
    asked as [std::string], [std::string_view] or [const char*]; the types that
    only some compilers have ([char8_t] strings, [__fp16], [__float128]) are left
    out. *)
From Stdlib Require Import SpecFloat.
From S2P Require Import Prelude Bytes TomlNode TomlCompare TomlRounding.

Local Open Scope Z_scope.

(** ** Types and their traits *)
Inductive integer_type :=
| signed_char | unsigned_char | signed_short | unsigned_short | signed_int | unsigned_int
| signed_long | unsigned_long | signed_long_long | unsigned_long_long | int128 | uint128.

Inductive float_type := float | double | long_double.

Inductive string_type := std_string | string_view | const_char_ptr.

Inductive target :=
| to_string (s : string_type)
| to_integer (i : integer_type)
| to_float (f : float_type)
| to_boolean
| to_date
| to_time
| to_date_time.

Definition sizeof (i : integer_type) : Z :=
  match i with
  | signed_char | unsigned_char => 1
  | signed_short | unsigned_short => 2
  | signed_int | unsigned_int => 4
  | signed_long | unsigned_long | signed_long_long | unsigned_long_long => 8
  | int128 | uint128 => 16
  end.

(** [static_cast<T>(-1) < T{}] *)
Definition is_signed (i : integer_type) : bool :=
  match i with
  | signed_char | signed_short | signed_int | signed_long | signed_long_long | int128 => true
  | unsigned_char | unsigned_short | unsigned_int | unsigned_long | unsigned_long_long | uint128 => false
  end.

(** [integer_value_limits] *)
Definition integer_min (i : integer_type) : Z := if is_signed i then - 2 ^ (8 * sizeof i - 1) else 0.
Definition integer_max (i : integer_type) : Z := 2 ^ (8 * sizeof i - if is_signed i then 1 else 0) - 1.

(** [float_value_limits], and the exponent of the infinities *)
Definition digits (f : float_type) : Z := match f with float => 24 | double => 53 | long_double => 64 end.
Definition digits10 (f : float_type) : Z := match f with float => 6 | double => 15 | long_double => 18 end.
Definition max_exponent (f : float_type) : Z := match f with float => 128 | double => 1024 | long_double => 16384 end.

Definition int64_min : Z := -9223372036854775807 - 1.
Definition int64_max : Z := 9223372036854775807.

(** [value_traits<T>::type] *)
Definition type_of (t : target) : node_type :=
  match t with
  | to_string _ => ty_string
  | to_integer _ => ty_integer
  | to_float _ => ty_floating_point
  | to_boolean => ty_boolean
  | to_date => ty_date
  | to_time => ty_time
  | to_date_time => ty_date_time
  end.

(** [int64_t] is [long]. *)
Definition is_native (t : target) : bool :=
  match t with
  | to_string std_string | to_integer signed_long | to_float double
  | to_boolean | to_date | to_time | to_date_time => true
  | _ => false
  end.

Definition can_represent_native (t : target) : bool :=
  match t with
  | to_integer i => is_signed i && (integer_min i <=? int64_min) && (int64_max <=? integer_max i)
  | to_float f => (53 <=? digits f) && (15 <=? digits10 f)
  | _ => true
  end.

Definition can_partially_represent_native (t : target) : bool :=
  match t with
  | to_integer _ => true
  | to_float f => (24 <=? digits f) && (6 <=? digits10 f)
  | _ => true
  end.

Definition is_losslessly_convertible_to_native (t : target) : bool :=
  match t with
  | to_integer i => (negb (is_signed i) || (int64_min <=? integer_min i)) && (integer_max i <=? int64_max)
  | to_float f => (digits f <=? 53) && (digits10 f <=? 15)
  | _ => true
  end.

(** ** Conversions *)
Inductive retrieved :=
| r_string (s : bytes)
| r_integer (z : Z)
| r_float (x : spec_float)
| r_boolean (b : bool)
| r_date (d : date)
| r_time (t : time)
| r_date_time (dt : date_time).

(** [static_cast] between integer types: modulo the width. *)
Definition static_cast_integer (i : integer_type) (z : Z) : Z :=
  let w := 2 ^ (8 * sizeof i) in
  if is_signed i then (z + w / 2) mod w - w / 2 else z mod w.

Definition static_cast_float (f : float_type) (x : spec_float) : spec_float := float_cast (digits f) (max_exponent f) x.
Definition static_cast_int_to_float (f : float_type) (z : Z) : spec_float := integer_cast (digits f) (max_exponent f) z.

(** The integral part of a finite number. *)
Definition integral_part (x : spec_float) : option Z :=
  match x with
  | S754_zero _ => Some 0
  | S754_finite s m e =>
    let v := if decide (0 ≤ e) then Z.pos m * 2 ^ e else Z.pos m / 2 ^ (- e) in
    Some (if s then - v else v)
  | S754_infinity _ | S754_nan => None
  end.

(** [static_cast<int64_t>] of a [double], undefined where the integral part does
    not fit. *)
Definition static_cast_int64 (x : spec_float) : option Z :=
  z ← integral_part x; if decide (int64_min ≤ z ≤ int64_max) then Some z else None.

(** [node_integer_cast<T>]; the comparison is in [int64_t] for an unsigned type
    narrower than 63 bits. *)
Definition node_integer_cast_to (i : integer_type) (val : Z) : option Z :=
  let refused :=
    if negb (is_signed i) then
      if 8 * sizeof i <? 63 then (val <? 0) || (integer_max i <? val) else val <? 0
    else (val <? integer_min i) || (integer_max i <? val) in
  if refused then None else Some (static_cast_integer i val).

(** ** Retrieval *)

(** [node::get_value_exact], undefined for a node of another type. *)
Definition get_value_exact (t : target) (n : node) : option retrieved :=
  match t, n with
  | to_string const_char_ptr, VString s _ => Some (r_string (c_str s))
  | to_string _, VString s _ => Some (r_string s)
  | to_integer i, VInteger z _ _ => Some (r_integer (static_cast_integer i z))
  | to_float f, VFloat x _ => Some (r_float (static_cast_float f x))
  | to_boolean, VBoolean b _ => Some (r_boolean b)
  | to_date, VDate d _ => Some (r_date d)
  | to_time, VTime t _ => Some (r_time t)
  | to_date_time, VDateTime dt _ => Some (r_date_time dt)
  | _, _ => None
  end.

(** The results are [None] where the behaviour is undefined and [Some None] for an
    empty [optional]. *)
Definition value_exact (t : target) (n : node) : option (option retrieved) :=
  if decide (node_type_of n = type_of t) then Some <$> get_value_exact t n else Some None.

(** [std::numeric_limits<T>::max] and [lowest], compared as [double]s *)
Definition float_max (f : float_type) : spec_float := binary_round 53 1024 false (Z.to_pos (2 ^ digits f - 1)) (max_exponent f - digits f).
Definition float_lowest (f : float_type) : spec_float := SFopp (float_max f).

Definition integer_as (t : target) (z : Z) : option (option retrieved) :=
  match t with
  | to_integer i =>
    if is_native t || can_represent_native t then Some (Some (r_integer (static_cast_integer i z)))
    else Some (r_integer <$> node_integer_cast_to i z)
  | to_float f =>
    let largest_whole_float := Z.shiftl 1 (digits f) in
    if (digits f <? 64) && ((z <? - largest_whole_float) || (largest_whole_float <? z)) then Some None
    else Some (Some (r_float (static_cast_int_to_float f z)))
  | to_boolean => Some (Some (r_boolean (negb (z =? 0))))
  | _ => Some None
  end.

Definition float_as (t : target) (x : spec_float) : option (option retrieved) :=
  match t with
  | to_float f =>
    if is_native t || can_represent_native t then Some (Some (r_float (static_cast_float f x)))
    else if SFltb x (float_lowest f) || SFltb (float_max f) x then Some None
    else Some (Some (r_float (static_cast_float f x)))
  | to_integer i =>
    v ← static_cast_int64 x;
    if SFeqb (static_cast_int_to_float double v) x then Some (r_integer <$> node_integer_cast_to i v) else Some None
  | _ => Some None
  end.

Definition boolean_as (t : target) (b : bool) : option (option retrieved) :=
  match t with
  | to_boolean => Some (Some (r_boolean b))
  | to_integer i => Some (Some (r_integer (static_cast_integer i (if b then 1 else 0))))
  | _ => Some None
  end.

(** [node::value] *)
Definition value (t : target) (n : node) : option (option retrieved) :=
  match t with
  | to_string _ | to_date | to_time | to_date_time =>
    if decide (node_type_of n = type_of t) then Some <$> get_value_exact t n else Some None
  | _ =>
    match n with
    | VInteger z _ _ => integer_as t z
    | VFloat x _ => float_as t x
    | VBoolean b _ => boolean_as t b
    | _ => Some None
    end
  end.

(** What a node of a native type holds. *)
Definition deref (n : node) : option retrieved :=
  match n with
  | VString s _ => Some (r_string s)
  | VInteger z _ _ => Some (r_integer z)
  | VFloat x _ => Some (r_float x)
  | VBoolean b _ => Some (r_boolean b)
  | VDate d _ => Some (r_date d)
  | VTime t _ => Some (r_time t)
  | VDateTime dt _ => Some (r_date_time dt)
  | Table _ _ _ _ | Array _ _ _ => None
  end.

(** [node::value_or] *)
Definition value_or (t : target) (default_value : retrieved) (n : node) : option retrieved :=
  if is_native t && bool_decide (node_type_of n = type_of t) then deref n
  else v ← value t n; Some (default default_value v).

(** ** Numbers *)

(** The value of a node as an integer, if it has one. *)
Definition integer_of (n : node) : option Z :=
  match n with
  | VInteger z _ _ => Some z
  | VFloat x _ => float_integer x
  | VBoolean b _ => Some (if b then 1 else 0)
  | _ => None
  end.

(** What a node holds is of its native type: an [int64_t], a [double]. *)
Definition native (n : node) : Prop :=
  match n with
  | VInteger z _ _ => int64_min ≤ z ≤ int64_max
  | VFloat x _ => TomlCompare.double x = true
  | _ => True
  end.

(** Two floating-point values that are the same number, or the same infinity or NaN. *)
Definition same_float (x y : spec_float) : Prop :=
  match x, y with
  | S754_finite s m e, S754_finite s' m' e' => s = s' ∧ same_number m e m' e'
  | _, _ => x = y
  end.

(** *** Integers *)
Lemma static_cast_integer_id i z : integer_min i ≤ z ≤ integer_max i → static_cast_integer i z = z.
Proof.
  unfold integer_min, integer_max, static_cast_integer. assert (1 ≤ sizeof i) as Hi by (by destruct i). destruct (is_signed i).
  - assert (2 ^ (8 * sizeof i) = 2 * 2 ^ (8 * sizeof i - 1)) as -> by (rewrite <- Z.pow_succ_r by lia; f_equal; lia).
    rewrite (Z.mul_comm 2), Z.div_mul by done. intros Hz. rewrite Z.mod_small; lia.
  - rewrite Z.sub_0_r. intros Hz. apply Z.mod_small. lia.
Qed.

Lemma integer_max_wide i : is_signed i = false → (8 * sizeof i <? 63) = false → int64_max ≤ integer_max i.
Proof. by destruct i. Qed.

Lemma can_represent_int64 i z :
  is_native (to_integer i) || can_represent_native (to_integer i) = true →
  int64_min ≤ z ≤ int64_max → integer_min i ≤ z ≤ integer_max i.
Proof.
  intros H Hz. assert (integer_min i ≤ int64_min ∧ int64_max ≤ integer_max i); [|lia].
  apply orb_true_iff in H as [H|H]; [by destruct i|]. cbn [can_represent_native] in H.
  apply andb_true_iff in H as [[_ H1]%andb_true_iff H2]. by apply Z.leb_le in H1, H2.
Qed.

(** [node_integer_cast] keeps the integers of the type, unchanged. *)
Lemma node_integer_cast_exact i val :
  int64_min ≤ val ≤ int64_max →
  node_integer_cast_to i val = if decide (integer_min i ≤ val ≤ integer_max i) then Some val else None.
Proof.
  intros Hval. unfold node_integer_cast_to. cbv zeta.
  match goal with |- (if ?b then _ else _) = _ =>
    assert (b = true ↔ ¬ integer_min i ≤ val ≤ integer_max i) as Href; [|destruct b; case_decide as Hr] end.
  - destruct (is_signed i) eqn:Hs; cbn [negb]; [rewrite orb_true_iff, !Z.ltb_lt; lia|].
    assert (integer_min i = 0) as -> by (unfold integer_min; by rewrite Hs).
    destruct (8 * sizeof i <? 63) eqn:Hw; [rewrite orb_true_iff, !Z.ltb_lt; lia|].
    pose proof (integer_max_wide i Hs Hw). rewrite Z.ltb_lt. lia.
  - tauto.
  - done.
  - by rewrite static_cast_integer_id.
  - by apply Href in Hr.
Qed.

(** *** Floating point *)
Lemma integer_of_same (s : bool) z m e :
  same_number z 0 m e → float_integer (S754_finite s m e) = Some (if s then Z.neg z else Z.pos z).
Proof.
  intros (n & Hn & H). cbn [float_integer]. destruct H as [[Hz He]|[Hm He]].
  - assert (e = n) as -> by lia. rewrite decide_True by done. cbn. rewrite <- Hz. by destruct s.
  - assert (e = - n) as -> by lia. rewrite Z.opp_involutive. case_decide.
    + assert (n = 0) as -> by lia. rewrite Z.pow_0_r in Hm. cbn [fmap option_fmap option_map]. rewrite Z.pow_0_r. f_equal. destruct s; lia.
    + pose proof (Z.pow_pos_nonneg 2 n ltac:(lia) Hn). rewrite Hm, Z.mod_mul, Z.div_mul by lia. by destruct s.
Qed.

Lemma same_of_integer s m e z :
  float_integer (S754_finite s m e) = Some z → ∃ p, z = (if s then Z.neg p else Z.pos p) ∧ same_number p 0 m e.
Proof.
  cbn [float_integer]. case_decide as He; [|case_decide as Hm; [|done]]; intros [= <-].
  - pose proof (Z.pow_pos_nonneg 2 e ltac:(lia) He). exists (Z.to_pos (Z.pos m * 2 ^ e)).
    split; [destruct s; lia|]. exists e. lia.
  - assert (0 < 2 ^ (- e)) by (apply Z.pow_pos_nonneg; lia).
    assert (Z.pos m = Z.pos m / 2 ^ (- e) * 2 ^ (- e)) as Hd by (Z.to_euclidean_division_equations; lia).
    assert (0 < Z.pos m / 2 ^ (- e)) by nia. exists (Z.to_pos (Z.pos m / 2 ^ (- e))).
    split; [destruct s; lia|]. exists (- e). rewrite Z2Pos.id by done. lia.
Qed.

Lemma integral_part_integer x z : float_integer x = Some z → integral_part x = Some z.
Proof.
  destruct x as [| | |s m e]; try done. cbn [float_integer integral_part].
  case_decide; [by intros [= <-]|]. case_decide; [|done]. by intros [= <-].
Qed.

Lemma integer_cast_exact prec emax z :
  1 ≤ prec < emax → - 2 ^ prec ≤ z ≤ 2 ^ prec → float_integer (integer_cast prec emax z) = Some z.
Proof.
  intros Hp Hz. destruct z as [|p|p]; [done| |].
  all: destruct (bounded_integer prec emax p) as (m & e & Hb & Hs); [done|lia|].
  - rewrite (integer_cast_sign _ _ false p), (binary_round_exact _ _ _ _ _ m e) by done. by rewrite (integer_of_same _ p).
  - rewrite (integer_cast_sign _ _ true p), (binary_round_exact _ _ _ _ _ m e) by done. by rewrite (integer_of_same _ p).
Qed.

(** A whole [double] is the [double] of its integer. *)
Lemma integer_cast_whole s m e z :
  TomlCompare.double (S754_finite s m e) = true → float_integer (S754_finite s m e) = Some z →
  static_cast_int_to_float double z = S754_finite s m e.
Proof.
  intros Hb (p & -> & Hp)%same_of_integer. unfold static_cast_int_to_float. rewrite integer_cast_sign.
  by apply binary_round_exact.
Qed.

Lemma SFeqb_finite y s m e : SFeqb y (S754_finite s m e) = true ↔ y = S754_finite s m e.
Proof.
  unfold SFeqb. split.
  - destruct y as [s'|[]| |s' m' e']; try done; [by destruct s|]. cbn [SFcompare].
    destruct s', s; try done; destruct (Z.compare_spec e' e) as [->| |]; try done.
    all: change (Pos.compare_cont Eq m' m) with (Pos.compare m' m); by destruct (Pos.compare_spec m' m) as [->| |].
  - intros ->. cbn [SFcompare]. rewrite Z.compare_refl. change (Pos.compare_cont Eq m m) with (Pos.compare m m).
    rewrite Pos.compare_refl. by destruct s.
Qed.

(** The test [static_cast<double>(static_cast<int64_t>(val)) == val] finds the whole numbers. *)
Lemma whole_test x v :
  TomlCompare.double x = true → integral_part x = Some v →
  SFeqb (static_cast_int_to_float double v) x = true ↔ float_integer x = Some v.
Proof.
  intros Hx Hv. destruct x as [s|s| |s m e]; [|done..|].
  { injection Hv as <-. by destruct s. }
  rewrite SFeqb_finite. split; [|by apply integer_cast_whole].
  intros Heq. destruct (float_integer (S754_finite s m e)) as [z|] eqn:Hz; [by rewrite (integral_part_integer _ _ Hz) in Hv|].
  assert (- 2 ^ 53 ≤ v ≤ 2 ^ 53) as Hbound.
  { apply double_exponent in Hx as [_ Hm]. cbn [float_integer integral_part] in Hz, Hv. case_decide as He; [done|].
    assert (0 < 2 ^ (- e)) by (apply Z.pow_pos_nonneg; lia).
    assert (0 ≤ Z.pos m / 2 ^ (- e) ≤ Z.pos m) by (Z.to_euclidean_division_equations; nia). injection Hv as <-. destruct s; lia. }
  rewrite <- Heq in Hz. unfold static_cast_int_to_float in Hz. by rewrite integer_cast_exact in Hz.
Qed.

(** ** Retrieving integers *)

(** A [double] whose conversion to [int64_t] is undefined. *)
Definition beyond_int64 (n : node) : Prop :=
  match n with VFloat x _ => static_cast_int64 x = None | _ => False end.

Lemma static_cast_int64_inv x v :
  static_cast_int64 x = Some v → integral_part x = Some v ∧ int64_min ≤ v ≤ int64_max.
Proof. unfold static_cast_int64. destruct (integral_part x); [|done]. cbn. case_decide; [|done]. by intros [= <-]. Qed.

Lemma float_as_integer i x :
  TomlCompare.double x = true →
  float_as (to_integer i) x = v ← static_cast_int64 x;
    Some (if decide (float_integer x = Some v ∧ integer_min i ≤ v ≤ integer_max i) then Some (r_integer v) else None).
Proof.
  intros Hx. cbn [float_as]. destruct (static_cast_int64 x) as [v|] eqn:Hv; [|done]. cbn [mbind option_bind].
  apply static_cast_int64_inv in Hv as [Hi Hr]. pose proof (whole_test x v Hx Hi) as Hw.
  destruct (SFeqb _ x); rewrite ?node_integer_cast_exact by done; repeat case_decide; naive_solver.
Qed.

Lemma integer_as_integer i z :
  int64_min ≤ z ≤ int64_max →
  integer_as (to_integer i) z = Some (if decide (integer_min i ≤ z ≤ integer_max i) then Some (r_integer z) else None).
Proof.
  intros Hz. cbn [integer_as]. destruct (_ || _) eqn:Hn.
  - pose proof (can_represent_int64 i z Hn Hz). by rewrite decide_True, static_cast_integer_id.
  - rewrite node_integer_cast_exact by done. by case_decide.
Qed.

Lemma boolean_as_integer i b : boolean_as (to_integer i) b = Some (Some (r_integer (if b then 1 else 0))).
Proof. cbn [boolean_as]. rewrite static_cast_integer_id; [done|]. by destruct i, b. Qed.

Lemma integer_retrieves i n :
  native n →
  (value (to_integer i) n = None ↔ beyond_int64 n) ∧
  (∀ r, value (to_integer i) n = Some (Some r) ↔
    ∃ z, r = r_integer z ∧ integer_of n = Some z ∧ int64_min ≤ z ≤ int64_max ∧ integer_min i ≤ z ≤ integer_max i).
Proof.
  destruct n as [| | |z fl reg|x reg|b reg| | |]; intros Hn; try (split; [done|split; [done|by intros (? & _ & ? & _)]]).
  - cbn [value beyond_int64 integer_of native] in *. rewrite integer_as_integer by done. split; [done|].
    intros r. case_decide; split; naive_solver.
  - cbn [value beyond_int64 integer_of native] in *. rewrite float_as_integer by done.
    destruct (static_cast_int64 x) as [v|] eqn:Hv; cbn.
    + apply static_cast_int64_inv in Hv as [Hi Hr]. split; [done|]. intros r.
      pose proof (λ z, integral_part_integer x z). case_decide; naive_solver.
    + split; [done|]. intros r. split; [done|]. intros (z & _ & Hz & Hr & _).
      unfold static_cast_int64 in Hv. rewrite (integral_part_integer _ _ Hz) in Hv. cbn in Hv. by rewrite decide_True in Hv.
  - cbn [value beyond_int64 integer_of]. rewrite boolean_as_integer. split; [done|]. intros r. split.
    + intros [= <-]. exists (if b then 1 else 0). by destruct b, i.
    + intros (z & -> & [= <-] & _). done.
Qed.

(** C21: [node::value<T>] for an integer type [T] gives the number the node holds,
    never another one: it returns [z] exactly when the node is an integer, a whole
    [double] or a boolean with value [z] and [z] is an [int64_t] within the limits of
    [T]. It is empty otherwise, but for a [double] whose integral part is not an
    [int64_t] (infinities and NaN among them): there, and only there, the conversion
    in the test for whole numbers is undefined. *)
Theorem integer_retrieval_exact i n :
  native n →
  (value (to_integer i) n = None ↔ beyond_int64 n) ∧
  (∀ r, value (to_integer i) n = Some (Some r) ↔
    ∃ z, r = r_integer z ∧ integer_of n = Some z ∧ int64_min ≤ z ≤ int64_max ∧ integer_min i ≤ z ≤ integer_max i).
Proof. apply integer_retrieves. Qed.

Lemma integer_retrieval_exact_witness :
  let n := VFloat (S754_finite false 8884053952430080 (-40)) no_region in
  native n ∧ value (to_integer unsigned_short) n = Some (Some (r_integer 8080)).
Proof.
  cbv zeta. assert (native (VFloat (S754_finite false 8884053952430080 (-40)) no_region)) as Hn by (vm_compute; reflexivity).
  split; [exact Hn|]. apply (proj2 (integer_retrieval_exact unsigned_short _ Hn)). exists 8080. repeat split; vm_compute; congruence.
Defined.

(** The port of a socket is the [uint16_t] of its node. *)
Lemma value_u16_retrieved n :
  native n → value (to_integer unsigned_short) n = fmap (M := option) (fmap (M := option) r_integer) (value_u16 n).
Proof.
  destruct n as [| | |z fl reg|x reg|b reg| | |]; intros Hn; try done.
  - cbn [value value_u16 native] in *. rewrite integer_as_integer by done. unfold node_integer_cast. cbn.
    change (integer_min unsigned_short) with 0. change (integer_max unsigned_short) with (2 ^ 16 - 1). repeat case_decide; try done; lia.
  - cbn [value value_u16 native] in *. rewrite float_as_integer by done. unfold static_cast_int64.
    destruct (float_integer x) as [v|] eqn:Hv.
    + rewrite (integral_part_integer _ _ Hv). cbn. unfold int64_min, int64_max, node_integer_cast.
      change (integer_min unsigned_short) with 0. change (integer_max unsigned_short) with (2 ^ 16 - 1).
      case_decide; case_decide; try lia; cbn; [|done]. repeat case_decide; naive_solver lia.
    + destruct x as [| | |s m e]; try done. cbn [integral_part]. cbn [float_integer] in Hv.
      destruct (decide (0 ≤ e)) as [He|He]; [done|]. destruct (decide (Z.pos m mod _ = 0)) as [|Hm0]; [done|].
      assert (0 < 2 ^ (- e)) by (apply Z.pow_pos_nonneg; lia).
      apply double_exponent in Hn as [_ Hm]. rewrite (decide_True (P := Z.pos m < _)) by nia.
      assert (0 ≤ Z.pos m / 2 ^ (- e) ≤ Z.pos m) by (Z.to_euclidean_division_equations; nia). cbn [mbind option_bind].
      rewrite decide_True by (unfold int64_min, int64_max; destruct s; lia). cbn [mbind option_bind].
      rewrite decide_False; [done|]. by intros [Hf _].
  - cbn [value value_u16]. rewrite boolean_as_integer. done.
Qed.

(** ** Retrieving floating-point numbers *)
Lemma limits f : 1 ≤ digits f < max_exponent f.
Proof. by destruct f. Qed.

(** An integer is retrieved as the floating-point number that equals it, or not at all. *)
Lemma integer_as_float f z :
  int64_min ≤ z ≤ int64_max →
  if decide (- 2 ^ digits f ≤ z ≤ 2 ^ digits f)
  then ∃ y, integer_as (to_float f) z = Some (Some (r_float y)) ∧ float_integer y = Some z
  else integer_as (to_float f) z = Some None.
Proof.
  intros Hz. cbn [integer_as]. rewrite Z.shiftl_1_l. case_decide as Hd.
  - exists (static_cast_int_to_float f z). split; [|by apply integer_cast_exact, Hd; apply limits].
    rewrite (proj2 (Z.ltb_ge z _)), (proj2 (Z.ltb_ge _ z)) by lia. by rewrite andb_false_r.
  - destruct (Z.ltb_spec (digits f) 64) as [Hf|Hf]; cbn [andb].
    + destruct (_ || _) eqn:Ho; [done|]. apply orb_false_iff in Ho as [H1%Z.ltb_ge H2%Z.ltb_ge]. lia.
    + assert (2 ^ 63 ≤ 2 ^ digits f) by (apply Z.pow_le_mono_r; lia). unfold int64_min, int64_max in Hz. lia.
Qed.

Definition float_of (f : float_type) (x : spec_float) : Prop := valid_binary (digits f) (max_exponent f) x = true.

(** Every [double] is a [long double]. *)
Lemma double_widens f x :
  f ≠ float → TomlCompare.double x = true → ∃ y, float_of f y ∧ same_float x y.
Proof.
  intros Hf Hx. destruct x as [s|s| |s m e]; [by exists (S754_zero s)|by exists (S754_infinity s)|by exists S754_nan|].
  apply bounded_fexp in Hx as [He Hmax%Z.leb_le]. unfold fexp, emin in He.
  destruct (bounded_shift (digits f) (max_exponent f) m e) as (m' & e' & Hb & Hs).
  - by destruct f.
  - destruct f; [done| |]; cbn [max_exponent]; lia.
  - unfold fexp, emin. destruct f; [done| |]; cbn [max_exponent digits]; lia.
  - by exists (S754_finite s m' e').
Qed.

Lemma static_cast_float_exact f x y : float_of f y → same_float x y → static_cast_float f x = y.
Proof.
  destruct x as [| | |s m e], y as [| | |s' m' e']; intros Hy H; try done.
  destruct H as [<- H]. by apply binary_round_exact.
Qed.

Lemma same_number_digits m e m' e' :
  same_number m e m' e' → Z.pos (digits2_pos m) + e = Z.pos (digits2_pos m') + e'.
Proof.
  intros (n & Hn & [[Hm ->]|[Hm ->]]); apply shifted_of in Hm as [[-> ->]|(p & -> & ->)]; try done;
    rewrite ?digits2_shifted; lia.
Qed.

Lemma SFltb_within s m e m' e' :
  e < e' ∨ e = e' ∧ Z.pos m ≤ Z.pos m' →
  SFltb (S754_finite s m e) (S754_finite true m' e') = false ∧ SFltb (S754_finite false m' e') (S754_finite s m e) = false.
Proof.
  intros He. unfold SFltb. cbn [SFcompare].
  change (Pos.compare_cont Eq m m') with (Pos.compare m m'). change (Pos.compare_cont Eq m' m) with (Pos.compare m' m).
  rewrite (Z.compare_antisym e e'), (Pos.compare_antisym m m').
  destruct s, (Z.compare_spec e e'); try done; try lia; destruct (Pos.compare_spec m m'); try done; lia.
Qed.

(** The limits of [float] do not exclude a number that a [float] can have. *)
Lemma float_within_limits s m e m' e' :
  TomlCompare.double (S754_finite s m e) = true → float_of float (S754_finite s m' e') → same_number m e m' e' →
  SFltb (S754_finite s m e) (float_lowest float) = false ∧ SFltb (float_max float) (S754_finite s m e) = false.
Proof.
  intros Hx Hy Hs. change (float_lowest float) with (S754_finite true 9007198717870080 75).
  change (float_max float) with (S754_finite false 9007198717870080 75).
  assert (e < 75 ∨ e = 75 ∧ Z.pos m ≤ 9007198717870080) as He.
  { apply bounded_fexp in Hx as [Hx _], Hy as [Hy Hy'%Z.leb_le]. pose proof (same_number_digits _ _ _ _ Hs).
    unfold fexp, emin in Hx, Hy. cbn [digits max_exponent] in *. pose proof (digits2_bounds m') as [_ Hm'].
    destruct (decide (e < 75)) as [|He]; [by left|right]. assert (e = 75 ∧ e' = 104) as [-> ->] by lia. split; [done|].
    assert (Z.pos (digits2_pos m') = 24) as Hd by lia. rewrite Hd in Hm'.
    destruct Hs as (n & Hn & [[Hm Hn']|[Hm Hn']]); [assert (n = 29) as -> by lia; lia|lia]. }
  by apply SFltb_within.
Qed.

(** A [double] that the type can have is retrieved as it is; [float] has no
    conversion from an infinity. *)
Lemma float_as_float f x y :
  TomlCompare.double x = true → float_of f y → same_float x y →
  f ≠ float ∨ (∀ s, x ≠ S754_infinity s) → float_as (to_float f) x = Some (Some (r_float y)).
Proof.
  intros Hx Hy Hs Hinf. cbn [float_as]. rewrite (static_cast_float_exact f x y) by done.
  destruct f; [|done..]. destruct Hinf as [|Hinf]; [done|].
  destruct x as [s|s| |s m e]; [by destruct s|by destruct (Hinf s)|done|].
  destruct y as [| | |s' m' e']; try done. destruct Hs as [<- Hs].
  by destruct (float_within_limits _ _ _ _ _ Hx Hy Hs) as [-> ->].
Qed.

(** Numbers keep their value as floating-point types too: an integer is retrieved
    exactly when its magnitude is at most [2 ^ digits], as the number that equals
    it, and a [double] that the type can have as that number. *)
Theorem float_retrieval_exact f n :
  native n →
  match n with
  | VInteger z _ _ =>
    if decide (- 2 ^ digits f ≤ z ≤ 2 ^ digits f)
    then ∃ y, value (to_float f) n = Some (Some (r_float y)) ∧ float_integer y = Some z
    else value (to_float f) n = Some None
  | VFloat x _ =>
    (∀ y, float_of f y → same_float x y → f ≠ float ∨ (∀ s, x ≠ S754_infinity s) →
      value (to_float f) n = Some (Some (r_float y))) ∧
    (f ≠ float → ∃ y, float_of f y ∧ same_float x y)
  | _ => value (to_float f) n = Some None
  end.
Proof.
  destruct n; intros Hn; try done; cbn [value native] in *.
  - by apply integer_as_float.
  - split; [intros; by apply float_as_float|intros; by apply double_widens].
Qed.

(** ** The three ways to ask *)
Lemma static_cast_double x : TomlCompare.double x = true → static_cast_float double x = x.
Proof.
  intros Hx. apply static_cast_float_exact; [done|]. destruct x; try done. split; [done|]. exists 0. rewrite Z.pow_0_r. lia.
Qed.

Lemma get_value_exact_native t n :
  is_native t = true → native n → node_type_of n = type_of t → get_value_exact t n = deref n.
Proof.
  destruct t as [[]|[]|[]| | | |], n; try done; cbn [get_value_exact deref native]; intros _ Hn _.
  - by rewrite static_cast_integer_id.
  - by rewrite static_cast_double.
Qed.

Lemma value_native t n :
  is_native t || can_represent_native t = true → native n → node_type_of n = type_of t → value t n = Some <$> get_value_exact t n.
Proof.
  destruct t, n; try done; cbn [value float_as integer_as boolean_as get_value_exact type_of node_type_of];
    intros Ht Hn _; rewrite ?decide_True by done; try done; by rewrite Ht.
Qed.

(** The three ways to ask for a value agree. [value_exact] is always defined and
    is empty exactly when the node is of another type than the one asked for stands
    for; what it returns, [value] returns too; and [value_or] returns what [value]
    does, or the default, although it takes a short cut for native types. *)
Theorem retrieval_agrees t d n :
  native n →
  (value_exact t n = Some None ↔ node_type_of n ≠ type_of t) ∧
  (∃ r, value_exact t n = Some r) ∧
  (∀ r, is_native t || can_represent_native t = true → value_exact t n = Some (Some r) → value t n = Some (Some r)) ∧
  value_or t d n = (λ v, default d v) <$> value t n.
Proof.
  intros Hn. unfold value_exact, value_or. destruct (decide (node_type_of n = type_of t)) as [Hty|Hty].
  - assert (∃ r, get_value_exact t n = Some r) as [r Hr] by (destruct t as [[]| | | | | |], n; try done; by eexists).
    split_and!; [by rewrite Hr| |intros r' Ht Hv; by rewrite value_native|].
    + exists (Some r). by rewrite Hr.
    + destruct (is_native t) eqn:Ht; [|done]. rewrite bool_decide_true by done. cbn [andb].
      rewrite value_native, get_value_exact_native by (done || by rewrite Ht). rewrite get_value_exact_native in Hr by done. by rewrite Hr.
  - split_and!; [done|by exists None|done|]. rewrite bool_decide_false, andb_false_r by done. done.
Qed.

Lemma retrieval_agrees_witness :
  let n := VInteger 2331 no_flags no_region in
  native n ∧ value_or (to_integer unsigned_short) (r_integer 7) n = Some (r_integer 2331).
Proof.
  cbv zeta. assert (native (VInteger 2331 no_flags no_region)) as Hn by (split; vm_compute; congruence).
  split; [exact Hn|]. destruct (retrieval_agrees (to_integer unsigned_short) (r_integer 7) _ Hn) as (_ & _ & _ & H).
  rewrite H. vm_compute. reflexivity.
Defined.
