(* ===== verification/TomlBlanks.v ===== *)
(** * TomlBlanks: blanks read from a text

    What the parser makes of spaces, line breaks and comments, as the texts of
    [TomlGrammar.v] have them. *)
From S2P Require Import Prelude Bytes Env TomlNode TomlUtf8 TomlReader TomlParser TomlScalar TomlDocument TomlText TomlGrammar.

Local Open Scope Z_scope.

(** Facts about the classes of characters are facts of arithmetic. *)
Ltac character_classes :=
  unfold is_value_terminator, is_bare_key_character, is_whitespace, is_line_break in *;
  unfold is_ascii_letter, is_decimal_digit, is_ascii_whitespace, is_non_ascii_whitespace, is_ascii_line_break,
    is_non_ascii_line_break, is_control_character, is_nontab_control_character, is_unicode_surrogate,
    is_string_delimiter in *;
  repeat match goal with
  | |- context [U ?b] => let v := eval vm_compute in (U b) in lazymatch v with Zpos _ => change (U b) with v end
  | H : context [U ?b] |- _ =>
    let v := eval vm_compute in (U b) in lazymatch v with Zpos _ => change (U b) with v in H end
  end; cbv iota in *; lia.

(** ** Blanks *)

(** What follows is the end of the text or a character in [P]. *)
Definition begins (P : Z → bool) (post : list Z) : Prop :=
  match post with [] => True | c :: _ => P c = true end.

Definition not_blank (c : Z) : bool := negb (is_whitespace c) && negb (is_line_break true c) && negb (c =? U "#").

Lemma begins_impl (P Q : Z → bool) post : (∀ c, P c = true → Q c = true) → begins P post → begins Q post.
Proof. destruct post; cbn; auto. Qed.

Lemma reads_no_whitespace post :
  begins (negb ∘ is_whitespace) post → reads consume_leading_whitespace [] post (λ b, b = false).
Proof.
  intros Hb. apply reads_looping. intros [|n] Hn; [lia|]. cbn [skip_whitespace]. destruct post as [|c post].
  - apply reads_is_eof_end. by rd.
  - rd. eapply reads_cur; [reflexivity|]. intros x Hx _. cbn in Hb. apply negb_true_iff in Hb. rewrite Hx, Hb. by rd.
Qed.

Lemma blank_whitespace c : blank_char c → is_whitespace c = true.
Proof. by intros [->| ->]. Qed.

Lemma reads_skip_spaces b n consumed post :
  spaces b → begins (negb ∘ is_whitespace) post → (length b < n)%nat →
  reads (skip_whitespace n consumed) b post (λ r, r = match b with [] => consumed | _ => true end).
Proof.
  intros Hb Hpost. revert n consumed. induction Hb as [|c b Hc Hb IH]; intros [|n] consumed Hn; cbn in Hn; try lia;
    cbn [skip_whitespace].
  - destruct post as [|c post]; [apply reads_is_eof_end; by rd|]. rd. eapply reads_cur; [reflexivity|]. intros x Hx _.
    cbn in Hpost. apply negb_true_iff in Hpost. rewrite Hx, Hpost. by rd.
  - rd. rd. rewrite blank_whitespace by done. rd. eapply reads_mono; [apply IH; lia|].
    intros r ->. by destruct b.
Qed.

Lemma reads_spaces b post :
  spaces b → begins (negb ∘ is_whitespace) post →
  reads consume_leading_whitespace b post (λ r, r = match b with [] => false | _ => true end).
Proof. intros Hb Hpost. apply reads_looping. intros n Hn. apply reads_skip_spaces; [done|done|]. rewrite length_app in Hn. lia. Qed.

Lemma reads_no_line_break post :
  begins (negb ∘ is_line_break true) post → reads consume_line_break [] post (λ b, b = false).
Proof.
  intros Hb. unfold consume_line_break. destruct post as [|c post].
  - apply reads_is_eof_end. by rd.
  - rd. eapply reads_cur; [reflexivity|]. intros x Hx _. cbn in Hb. rewrite Hx, Hb. by rd.
Qed.

Lemma reads_line_break nl post : newline nl → reads consume_line_break nl post (λ b, b = true).
Proof.
  unfold consume_line_break. intros [->| ->]; do 2 rd.
  - change (is_line_break true 10) with true. cbn [negb]. change (10 =? 13) with false. cbv iota. rd. by rd.
  - change (is_line_break true 13) with true. cbn [negb]. change (13 =? 13) with true. cbv iota. do 3 rd. change (10 =? 10) with true. cbn [negb]. rd. by rd.
Qed.

Lemma newline_cons nl : newline nl → ∃ c t, nl = c :: t ∧ is_line_break true c = true ∧ is_whitespace c = false ∧ (c =? U "#") = false.
Proof. by intros [->| ->]; eexists _, _. Qed.

Lemma reads_no_comment post :
  begins (λ c, negb (c =? U "#")) post → reads consume_comment [] post (λ b, b = false).
Proof.
  intros Hb. unfold consume_comment. destruct post as [|c post].
  - apply reads_is_eof_end. by rd.
  - rd. eapply reads_cur; [reflexivity|]. intros x Hx _. unfold begins in Hb. rewrite Hx, Hb. by rd.
Qed.

Lemma not_blank_spec c :
  not_blank c = true → is_whitespace c = false ∧ is_line_break true c = false ∧ (c =? U "#") = false.
Proof. unfold not_blank. rewrite !andb_true_iff, !negb_true_iff. tauto. Qed.

(** *** Comments *)
Lemma reads_comment_rest cs nl n post :
  Forall comment_char cs → newline nl ∨ nl = [] ∧ post = [] → (length cs < n)%nat → reads (skip_comment n) (cs ++ nl) post (λ b, b = true).
Proof.
  intros Hcs Hnl. revert n. induction Hcs as [|c cs (Hc & Hctrl & Hbreak) Hcs IH]; intros [|n] Hn; cbn in Hn; try lia;
    cbn [skip_comment].
  - cbn [app]. destruct Hnl as [Hnl|[-> ->]]; [|apply reads_is_eof_end; by rd].
    apply reads_is_eof; [by destruct (newline_cons _ Hnl) as (? & ? & -> & _)|]. rewrite <- (app_nil_r nl).
    eapply reads_bind; [by apply reads_line_break|]. intros b ->. by rd.
  - cbn [app]. rd. apply (reads_bind _ _ [] _ _ (λ b, b = false)); [apply reads_no_line_break; cbn; by rewrite Hbreak|].
    intros b ->. rd. rewrite Hctrl.
    assert (is_unicode_surrogate c = false) as -> by (unfold scalar in Hc; by character_classes).
    rd. apply IH. lia.
Qed.

Lemma reads_comment cs nl post :
  comment cs → newline nl ∨ nl = [] ∧ post = [] → reads consume_comment (cs ++ nl) post (λ b, b = true).
Proof.
  intros (t & -> & Ht) Hnl. unfold consume_comment. cbn [app]. do 2 rd. compare_chars. cbn [negb]. apply reads_scoped. rd.
  apply reads_looping. intros n Hn. apply reads_comment_rest; [done|done|]. rewrite !length_app in Hn. lia.
Qed.

(** *** Blanks in arrays *)

(** The spaces at the head of a run of blanks. *)
Lemma array_blanks_app b b' : array_blanks b → array_blanks b' → array_blanks (b ++ b').
Proof. intros Hb Hb'. induction Hb; cbn [app]; rewrite <- ?app_assoc; [done|by constructor..]. Qed.

Lemma array_blanks_spaces b : spaces b → array_blanks b.
Proof. induction 1; by constructor. Qed.

Lemma array_blanks_split b :
  array_blanks b → ∃ sp b', b = sp ++ b' ∧ spaces sp ∧
    (b' = [] ∨ ∃ cs nl b'', b' = cs ++ nl ++ b'' ∧ (cs = [] ∨ comment cs) ∧ newline nl ∧ array_blanks b'').
Proof.
  induction 1 as [|c b Hc Hb IH|nl b Hnl Hb _|cs nl b Hcs Hnl Hb _].
  - exists [], []. split; [done|]. split; [constructor|by left].
  - destruct IH as (sp & b' & -> & Hsp & Hb'). exists (c :: sp), b'. split; [done|]. split; [by constructor|done].
  - exists [], (nl ++ b). split; [done|]. split; [constructor|]. right. exists [], nl, b. by split_and!; [|left|..].
  - exists [], (cs ++ nl ++ b). split; [done|]. split; [constructor|]. right. exists cs, nl, b. by split_and!; [|right|..].
Qed.

Lemma reads_blanks_loop b n post :
  array_blanks b → begins not_blank post → (length b < n)%nat → reads (blanks_loop n) b post (λ _, True).
Proof.
  intros Hb Hpost. revert b Hb. induction n as [|n IH]; intros b Hb Hn; [lia|].
  destruct (array_blanks_split b Hb) as (sp & b' & -> & Hsp & Hb'). rewrite length_app in Hn. cbn [blanks_loop].
  assert (array_blanks b') as Hab.
  { destruct Hb' as [->|(cs & nl & b'' & -> & [->|Hcs] & Hnl & Hb'')]; [apply blank_none|by apply (blank_break nl)|by apply blank_comment]. }
  eapply reads_bind.
  { apply reads_spaces; [done|]. destruct Hb' as [->|(cs & nl & b'' & -> & [->|(t & -> & _)] & Hnl & _)].
    - eapply begins_impl; [|exact Hpost]. intros c (Hc & _)%not_blank_spec. cbn. by rewrite Hc.
    - destruct (newline_cons _ Hnl) as (c & t & -> & _ & Hc & _). cbn. by rewrite Hc.
    - done. }
  intros r ->. destruct sp as [|c sp]; [|apply IH; [done|cbn in Hn; lia]].
  destruct Hb' as [->|(cs & nl & b'' & -> & Hcs & Hnl & Hb'')].
  { apply (reads_bind _ _ [] [] _ (λ b, b = false)).
    { apply reads_no_line_break. eapply begins_impl; [|exact Hpost]. intros c (_ & Hc & _)%not_blank_spec. cbn. by rewrite Hc. }
    intros b ->. apply (reads_bind _ _ [] [] _ (λ b, b = false)).
    { apply reads_no_comment. eapply begins_impl; [|exact Hpost]. by intros c (_ & _ & ->)%not_blank_spec. }
    intros b ->. by rd. }
  assert (length b'' < n)%nat as Hn'.
  { rewrite !length_app in Hn. destruct (newline_cons _ Hnl) as (? & ? & -> & _). cbn in Hn. lia. }
  destruct Hcs as [->|Hcs].
  - cbn [app]. eapply reads_bind; [by apply reads_line_break|]. intros r ->. by apply IH.
  - apply (reads_bind _ _ [] (cs ++ nl ++ b'') _ (λ b, b = false)); [destruct Hcs as (t & -> & _); by apply reads_no_line_break|]. intros r ->.
    rewrite (app_assoc cs). eapply reads_bind; [by apply reads_comment; [|left]|]. intros r ->. by apply IH.
Qed.

(** Before and after an element of an array. *)
Lemma reads_array_blanks b post : array_blanks b → begins not_blank post → reads (looping blanks_loop) b post (λ _, True).
Proof. intros. apply reads_looping. intros n Hn. apply reads_blanks_loop; [done|done|]. rewrite length_app in Hn. lia. Qed.

Lemma reads_whitespace_end n post : begins not_blank post → reads (whitespace_loop (S n)) [] post (λ _, True).
Proof.
  intros Hb. cbn [whitespace_loop]. apply (reads_bind _ _ [] [] _ (λ b, b = false)).
  { apply reads_no_whitespace. eapply begins_impl; [|exact Hb]. intros c (Hc & _)%not_blank_spec. cbn. by rewrite Hc. }
  intros b ->. by rd.
Qed.

(** Before and after an entry of an inline table. *)
Lemma reads_table_blanks b post : spaces b → begins not_blank post → reads (looping whitespace_loop) b post (λ _, True).
Proof.
  intros Hb Hpost. assert (begins (negb ∘ is_whitespace) post) as Hws.
  { eapply begins_impl; [|exact Hpost]. intros c (Hc & _)%not_blank_spec. cbn. by rewrite Hc. }
  apply reads_looping. intros [|[|n]] Hn; [lia|destruct b, post; cbn in Hn; try lia|]; cbn [whitespace_loop].
  - by apply (reads_whitespace_end 0).
  - rewrite <- (app_nil_r b). eapply reads_bind; [by apply reads_spaces|]. intros r ->.
    destruct b; [by rd|]. by apply (reads_whitespace_end n).
Qed.
