(* ===== verification/TomlStrings.v ===== *)
(** * TomlStrings: strings are read back

    What [parse_string] makes of the strings of [TomlGrammar.v]: their escapes, their
    closing marks, and the look at the first three characters. *)
From S2P Require Import Prelude Bytes Env TomlNode TomlUtf8 TomlReader TomlParser TomlExact TomlText TomlGrammar TomlBlanks.

Local Open Scope Z_scope.

(** ** Escapes *)
Lemma scalar_not_surrogate c : scalar c → is_unicode_surrogate c = false.
Proof. unfold scalar, is_unicode_surrogate. lia. Qed.

Lemma number_cons base d ds : number base (d :: ds) = d * base ^ Z.of_nat (length ds) + number base ds.
Proof.
  unfold number. cbn [foldl].
  assert (∀ l a, foldl (λ a d, a * base + d) a l = a * base ^ Z.of_nat (length l) + foldl (λ a d, a * base + d) 0 l) as H.
  { intros l. induction l as [|x l IH]; intros a; cbn [foldl length]; [rewrite Z.pow_0_r; lia|].
    rewrite IH, (IH (0 * base + x)), Nat2Z.inj_succ, Z.pow_succ_r by lia. lia. }
  rewrite H. lia.
Qed.

Lemma hex_digit_spec b d :
  digit_of b = Some d → is_hexadecimal_digit (U b) = true ∧ hex_to_dec (U b) = d ∧ 0 ≤ d < 16.
Proof.
  intros Hd. assert (forallb (λ b, match digit_of b with
    | Some d => is_hexadecimal_digit (U b) && (hex_to_dec (U b) =? d) && (0 <=? d) && (d <? 16) | None => true end) all_bytes = true) as Hall
    by (vm_compute; reflexivity).
  rewrite forallb_forall in Hall. specialize (Hall b (proj1 (list_elem_of_In _ _) (all_bytes_spec b))). rewrite Hd in Hall.
  rewrite !andb_true_iff, Z.eqb_eq, Z.leb_le, Z.ltb_lt in Hall. tauto.
Qed.

(** The digits of an escape, from the highest place. *)
Lemma reads_escape_digits chars ds n acc post :
  mapM digit_of chars = Some ds → (length chars < n)%nat → 0 ≤ acc → acc + 16 ^ Z.of_nat (length chars) ≤ 2 ^ 32 →
  reads (escape_digits n (16 ^ Z.of_nat (length chars) / 16) acc) (zs chars) post (λ v, v = acc + number 16 ds).
Proof.
  intros Hm. apply mapM_Some in Hm. revert n acc. induction Hm as [|b d chars ds Hd Hm IH]; intros [|n] acc Hn Ha Hb; cbn [length] in *; try lia;
    cbn [escape_digits].
  - change (16 ^ Z.of_nat 0 / 16 =? 0) with true. cbv iota. apply reads_ret. unfold number. cbn. lia.
  - rewrite Nat2Z.inj_succ, Z.pow_succ_r in * by lia. set (place := 16 ^ Z.of_nat (length chars)) in *.
    assert (0 < place) as Hp by (apply Z.pow_pos_nonneg; lia).
    rewrite (Z.mul_comm 16 place), Z.div_mul by lia. rewrite (proj2 (Z.eqb_neq _ _)) by lia. change (zs (b :: chars)) with (U b :: zs chars).
    destruct (hex_digit_spec b d Hd) as (Hh & Hv & Hr). do 2 rd. rewrite Hh, Hv. cbn [negb]. rd.
    assert (u32 (acc + u32 (place * d)) = acc + place * d) as ->.
    { unfold u32. rewrite !Z.mod_small; [done|nia|]. rewrite Z.mod_small by nia. nia. }
    eapply reads_mono; [apply IH; [lia|nia|nia]|]. intros v ->. rewrite number_cons.
    rewrite <- (Forall2_length _ _ _ Hm). fold place. lia.
Qed.

Lemma reads_unicode_escape (long : bool) chars ds post :
  mapM digit_of chars = Some ds → length chars = (if long then 8 else 4)%nat → scalar (number 16 ds) →
  number 16 ds < 0x800 ∨ 0x10000 ≤ number 16 ds ∨ Z.testbit (number 16 ds) 11 = false →
  reads (unicode_escape (U (if long then "U" else "u")%byte)) (U (if long then "U" else "u")%byte :: zs chars) post
    (λ b, b = utf8_encode (number 16 ds)).
Proof.
  intros Hm Hlen Hs He. unfold unicode_escape. apply reads_scoped, reads_advance_not_eof; [destruct chars; [by destruct long|done]|].
  rewrite <- (app_nil_r (zs chars)). apply (reads_bind _ _ (zs chars) [] _ (λ v, v = 0 + number 16 ds)).
  - replace (if U (if long then "U" else "u")%byte =? U "U" then 0x10000000 else if U (if long then "U" else "u")%byte =? U "u" then 0x1000 else 0x10)
      with (16 ^ Z.of_nat (length chars) / 16) by (rewrite Hlen; by destruct long).
    apply reads_escape_digits; [done|rewrite Hlen; destruct long; lia|lia|rewrite Hlen; by destruct long].
  - intros v ->. rewrite Z.add_0_l. rewrite scalar_not_surrogate by done.
    assert ((0x10FFFF <? number 16 ds) = false) as -> by (apply Z.ltb_ge; unfold scalar in Hs; lia).
    apply reads_ret. by apply escape_bytes_exact.
Qed.

(** An escape behind its backslash. *)
Lemma reads_parse_escape e v post : escape_sequence e v → post ≠ [] → reads parse_escape e post (λ b, b = v).
Proof.
  intros [c b Hc|long chars ds Hm Hlen Hs He] Hpost; unfold parse_escape.
  - unfold simple_escapes in Hc. rewrite !elem_of_cons, elem_of_nil in Hc.
    destruct Hc as [[= -> ->]|[[= -> ->]|[[= -> ->]|[[= -> ->]|[[= -> ->]|[[= -> ->]|[[= -> ->]|[]]]]]]]];
      rd; compare_chars; cbv zeta; (apply reads_advance_not_eof; [done|]); by apply reads_ret.
  - rd. destruct long; compare_chars; cbn [orb].
    + by apply (reads_unicode_escape true).
    + by apply (reads_unicode_escape false).
Qed.

Lemma escape_sequence_cons e v : escape_sequence e v → ∃ c e', e = c :: e' ∧ is_whitespace c = false ∧ is_line_break true c = false.
Proof.
  intros [c b Hc|[] chars ds _ _ _ _]; [|by eexists _, _..]. eexists _, _. split; [reflexivity|].
  unfold simple_escapes in Hc. rewrite !elem_of_cons, elem_of_nil in Hc.
  by destruct Hc as [[= -> ->]|[[= -> ->]|[[= -> ->]|[[= -> ->]|[[= -> ->]|[[= -> ->]|[[= -> ->]|[]]]]]]]].
Qed.

(** *** The escapes the formatter writes *)
Lemma hex_char_byte d : 0 ≤ d < 16 → ∃ b, hex_char d = U b ∧ digit_of b = Some d.
Proof.
  intros Hd. assert (forallb (λ n, let b := byte_of_Z (hex_char (Z.of_nat n)) in
    bool_decide (U b = hex_char (Z.of_nat n)) && bool_decide (digit_of b = Some (Z.of_nat n))) (seq 0 16) = true) as Hall by (vm_compute; reflexivity).
  rewrite forallb_forall in Hall. specialize (Hall (Z.to_nat d)). rewrite Z2Nat.id in Hall by lia.
  rewrite andb_true_iff, !bool_decide_eq_true in Hall. exists (byte_of_Z (hex_char d)). destruct Hall as [? ?]; [apply in_seq; lia|done].
Qed.

Lemma escape_char_cases c :
  scalar c → (escape_char c = [c] ∧ plain_char c) ∨ ∃ e, escape_char c = U x5c :: e ∧ escape_sequence e (utf8_encode c).
Proof.
  intros Hc. assert (0 ≤ c) as H0 by (unfold scalar in Hc; lia). unfold escape_char.
  repeat match goal with
    |- context [if c =? ?z then _ else _] => destruct (Z.eqb_spec c z) as [->|?];
      [right; eexists; split; [reflexivity|]; match goal with |- escape_sequence [U ?e] ?r =>
         let v := eval vm_compute in r in change (escape_sequence [U e] v); apply simple_escape; unfold simple_escapes; set_solver end|]
  end.
  destruct (is_control_character c) eqn:Ec; [right|left].
  - assert (0 ≤ c < 128) as Hr by (unfold is_control_character in Ec; lia).
    destruct (hex_char_byte (c / 16)) as (b1 & -> & Hb1); [Z.to_euclidean_division_equations; lia|].
    destruct (hex_char_byte (c mod 16)) as (b2 & -> & Hb2); [Z.to_euclidean_division_equations; lia|].
    assert (number 16 [0; 0; c / 16; c mod 16] = c) as Hn by (unfold number; cbn [foldl]; Z.to_euclidean_division_equations; lia).
    eexists. split; [reflexivity|]. rewrite <- Hn.
    change [U "u"; U "0"; U "0"; U b1; U b2] with (U "u" :: zs ["0"%byte; "0"%byte; b1; b2]).
    apply (unicode_sequence false); [cbn; by rewrite Hb1, Hb2|done|by rewrite Hn|left; lia].
  - split; [done|]. unfold plain_char, is_control_character, is_nontab_control_character in *. split_and!; try done. lia.
Qed.

Lemma escape_basic cs : Forall scalar cs → basic_text false false (encode_text cs) (escape_text cs).
Proof.
  induction 1 as [|c cs Hc _ IH]; [constructor|]. rewrite encode_text_cons. unfold escape_text. cbn [fmap list_fmap concat]. fold (escape_text cs).
  destruct (escape_char_cases c Hc) as [[-> Hp]|(e & -> & He)]; [by apply basic_char|by apply basic_escape].
Qed.

Lemma quote_string cs : Forall scalar cs → string_text (encode_text cs) (quote cs).
Proof. intros Hcs. by apply basic_string, escape_basic. Qed.

(** ** Quotation marks in multi-line strings *)
Lemma reads_count_all n delim c j post :
  (1 ≤ j ≤ n)%nat → head post ≠ Some (U delim) →
  reads (count_delimiters n delim c) (replicate j (U delim)) post (λ r, r = (c + j - 1)%nat).
Proof.
  revert c j. induction n as [|n IH]; intros c j Hj Hpost; [lia|]. destruct j as [|j]; [lia|]. cbn [count_delimiters replicate]. rd.
  apply (reads_gets _ _ _ _ _ (λ b, b = bool_decide (j ≠ 0)%nat)).
  { intros s k past Hat. destruct j as [|j].
    - destruct post as [|p post]; [by rewrite (at_end _ _ _ Hat)|]. destruct (at_cur _ _ _ _ _ Hat) as (x & -> & -> & _).
      rewrite bool_decide_false by lia. apply Z.eqb_neq. intros ->. done.
    - destruct (at_cur _ _ _ _ _ Hat) as (x & -> & -> & _). by rewrite Z.eqb_refl. }
  intros b ->. destruct j as [|j]; case_bool_decide; try lia; [apply reads_ret; lia|].
  eapply reads_mono; [apply IH; [lia|done]|]. intros r ->. lia.
Qed.

Lemma reads_count_most n delim c post :
  reads (count_delimiters n delim c) (replicate n (U delim)) (U delim :: post) (λ r, r = (c + n)%nat).
Proof.
  revert c. induction n as [|n IH]; intros c; cbn [count_delimiters replicate]; [apply reads_ret; lia|]. rd.
  apply (reads_gets _ _ _ _ _ (λ b, b = true)).
  { intros s k past Hat. assert (replicate n (U delim) ++ U delim :: post = U delim :: replicate n (U delim) ++ post) as Hr.
    { clear. induction n; cbn; congruence. }
    rewrite Hr in Hat. destruct (at_cur _ _ _ _ _ Hat) as (x & -> & -> & _). by rewrite Z.eqb_refl. }
  intros b ->. eapply reads_mono; [apply IH|]. intros r ->. lia.
Qed.

Lemma reads_inner_quotes delim n str post :
  n = 1%nat ∨ n = 2%nat → head post ≠ Some (U delim) →
  reads (close_multi_line delim str) (replicate n (U delim)) post (λ r, r = StringMore (str ++ replicate n delim) false false).
Proof.
  intros Hn Hpost. unfold close_multi_line. rewrite <- (app_nil_r (replicate _ _)).
  eapply reads_bind; [apply reads_count_all; [lia|done]|]. intros r ->. by destruct Hn as [->| ->]; apply reads_ret.
Qed.

Lemma reads_closing_quotes delim n str post :
  (n ≤ 2)%nat → head post ≠ Some (U delim) →
  reads (close_multi_line delim str) (replicate (3 + n) (U delim)) post (λ r, r = StringDone (str ++ replicate n delim)).
Proof.
  intros Hn Hpost. unfold close_multi_line. destruct (decide (n = 2%nat)) as [->|Hn2].
  - change (replicate (3 + 2) (U delim)) with (replicate 4 (U delim) ++ [U delim]).
    eapply reads_bind; [apply reads_count_most|]. intros r ->. cbn [Nat.add]. rd. by apply reads_ret.
  - rewrite <- (app_nil_r (replicate _ _)). eapply reads_bind; [apply reads_count_all; [lia|done]|]. intros r ->.
    destruct n as [|[|n]]; [..|lia]; apply reads_ret; [by rewrite app_nil_r|done].
Qed.

(** ** The loop over a basic string *)
Lemma newline_starts nl :
  newline nl → ∃ c t, nl = c :: t ∧ is_line_break true c = true ∧ (c =? U x22) = false ∧ (c =? U x5c) = false ∧ (c =? U "'") = false ∧ is_whitespace c = false.
Proof. by intros [->| ->]; eexists _, _. Qed.

(** What closes a string: after [n] marks that belong to it, on several lines. *)
Definition closing (ml : bool) (delim : byte) (n : nat) : list Z := replicate (if ml then 3 + n else 1) (U delim).
Definition closed_with (ml : bool) (delim : byte) (n : nat) : bytes := if ml then replicate n delim else [].

Lemma closing_cons ml delim n : ∃ t, closing ml delim n = U delim :: t.
Proof. destruct ml; by eexists. Qed.

(** One more round. *)
Lemma reads_string_more step n str esc sw str' esc' sw' pre1 pre2 post Q :
  reads (step str esc sw) pre1 (pre2 ++ post) (λ r, r = StringMore str' esc' sw') → pre2 ++ post ≠ [] →
  reads (string_loop step n str' esc' sw') pre2 post Q →
  reads (string_loop step (S n) str esc sw) (pre1 ++ pre2) post Q.
Proof.
  intros Hs Hne Hl. cbn [string_loop]. eapply reads_bind; [exact Hs|]. intros r ->. by apply reads_is_eof.
Qed.

Lemma reads_plain_step ml c str skip post :
  plain_char c → (ml = true → is_line_break true c = false) → (skip = true → ml = true ∧ is_whitespace c = false) →
  reads (basic_string_step ml str false skip) [c] post (λ r, r = StringMore (str ++ utf8_encode c) false (if ml then false else skip)).
Proof.
  intros (Hs & H1 & H2 & H3) Hbr Hsk. unfold basic_string_step. rd. rewrite (proj2 (Z.eqb_neq _ _) H1), (proj2 (Z.eqb_neq _ _) H2).
  unfold plain_step. rd. rewrite H3, scalar_not_surrogate by done.
  assert (ml && is_line_break true c = false) as -> by (destruct ml; [by apply Hbr|done]).
  assert (as_view x0 = utf8_encode c) as Hv.
  { rewrite as_view_proper by (done || (rewrite Hx0; by intros ->)). by rewrite Hx0. }
  destruct ml.
  - assert (negb skip || negb (is_whitespace c) = true) as -> by (destruct skip; [by destruct Hsk as [_ ->]|done]). rd. apply reads_ret. by rewrite Hv.
  - rd. apply reads_ret. by rewrite Hv.
Qed.

Lemma reads_break_step nl str skip post :
  newline nl →
  reads (basic_string_step true str false skip) nl post (λ r, r = StringMore (if skip then str else str ++ [x0a]) false skip).
Proof.
  intros Hnl. destruct (newline_starts _ Hnl) as (c & u & Hc & Hbr & Hq & Hbs & _). unfold basic_string_step.
  eapply reads_cur; [by rewrite Hc|]. intros x Hx _. rewrite Hx, Hq, Hbs. unfold plain_step.
  eapply reads_cur; [by rewrite Hc|]. intros y Hy _. rewrite Hy, Hbr. cbn [andb]. rewrite <- (app_nil_r nl).
  eapply reads_bind; [by apply reads_line_break|]. intros r ->. by apply reads_ret.
Qed.

Lemma reads_quotes_step j str skip post :
  j = 1%nat ∨ j = 2%nat → head post ≠ Some (U x22) →
  reads (basic_string_step true str false skip) (replicate j (U x22)) post (λ r, r = StringMore (str ++ replicate j x22) false false).
Proof.
  intros Hj Hpost. unfold basic_string_step. assert (∃ u, replicate j (U x22) = U x22 :: u) as [u Hu] by (destruct Hj as [->| ->]; by eexists).
  eapply reads_cur; [by rewrite Hu|]. intros x Hx _. rewrite Hx, Z.eqb_refl. by apply reads_inner_quotes.
Qed.

Lemma reads_skipped_step c str post :
  blank_char c → reads (basic_string_step true str false true) [c] post (λ r, r = StringMore str false true).
Proof.
  intros Hc. unfold basic_string_step. rd. unfold plain_step.
  assert ((c =? U x22) = false ∧ (c =? U x5c) = false ∧ is_line_break true c = false ∧ is_nontab_control_character c = false ∧
    is_unicode_surrogate c = false ∧ is_whitespace c = true) as (-> & -> & Hb & Hct & Hsu & Hw) by (by destruct Hc as [->| ->]).
  rd. rewrite Hb, Hct, Hsu, Hw. cbn [andb negb orb]. rd. by apply reads_ret.
Qed.

(** A backslash and what follows it take two rounds. *)
Lemma reads_backslash ml n str skip pre post Q :
  pre ++ post ≠ [] → reads (string_loop (basic_string_step ml) n str true false) pre post Q →
  reads (string_loop (basic_string_step ml) (S n) str false skip) (U x5c :: pre) post Q.
Proof.
  intros Hne Hl. apply (reads_string_more _ _ _ _ _ str true false [U x5c] pre); [|done|done].
  unfold basic_string_step. rd. compare_chars. apply reads_advance_not_eof; [done|]. by apply reads_ret.
Qed.

Lemma reads_escape_step ml e v str post :
  escape_sequence e v → post ≠ [] → reads (basic_string_step ml str true false) e post (λ r, r = StringMore (str ++ v) false false).
Proof.
  intros He Hpost. destruct (escape_sequence_cons _ _ He) as (c & e' & He' & Hws & Hbr). unfold basic_string_step, escaped_step.
  eapply reads_cur; [by rewrite He'|]. intros x Hx _. rewrite Hx, Hws, Hbr, andb_false_r. rewrite <- (app_nil_r e).
  eapply reads_bind; [by apply reads_parse_escape|]. intros r ->. by apply reads_ret.
Qed.

Lemma reads_continue_step sp nl str post :
  spaces sp → newline nl → reads (basic_string_step true str true false) (sp ++ nl) post (λ r, r = StringMore str false true).
Proof.
  intros Hsp Hnl. destruct (newline_starts _ Hnl) as (c & u & Hc & Hbr & _ & _ & _ & Hnw).
  assert (∃ c' u', (sp ++ nl) ++ post = c' :: u' ∧ is_line_break true c' || is_whitespace c' = true) as (c' & u' & Hcu & Hcw).
  { rewrite Hc. destruct Hsp as [|c' sp Hc' _]; eexists _, _; (split; [reflexivity|]); [by rewrite Hbr|]. by destruct Hc' as [->| ->]. }
  unfold basic_string_step, escaped_step. eapply reads_cur; [exact Hcu|]. intros x Hx _. rewrite Hx, Hcw. cbn [andb].
  eapply reads_bind; [apply reads_spaces; [done|]|]; [rewrite Hc; cbn; by rewrite Hnw|]. intros _ _. rewrite <- (app_nil_r nl).
  eapply reads_bind; [by apply reads_line_break|]. intros r ->. by apply reads_ret.
Qed.

Lemma reads_basic_close ml k str skip post :
  (k ≤ 2)%nat → (ml = true → head post ≠ Some (U x22)) →
  reads (basic_string_step ml str false skip) (closing ml x22 k) post (λ r, r = StringDone (str ++ closed_with ml x22 k)).
Proof.
  intros Hk Hpost. destruct (closing_cons ml x22 k) as [u Hu]. unfold basic_string_step. eapply reads_cur; [by rewrite Hu|]. intros x Hx _.
  rewrite Hx, Z.eqb_refl. destruct ml; [by apply reads_closing_quotes; [|apply Hpost]|].
  unfold closing, closed_with. cbn [replicate]. rd. apply reads_ret. by rewrite app_nil_r.
Qed.

Lemma reads_string_done step n str esc sw b pre post :
  reads (step str esc sw) pre post (λ r, r = StringDone b) → reads (string_loop step (S n) str esc sw) pre post (λ r, r = b).
Proof. intros Hs. cbn [string_loop]. rewrite <- (app_nil_r pre). eapply reads_bind; [by rewrite app_nil_l|]. intros r ->. by apply reads_ret. Qed.

Lemma closing_not_nil ml delim n t post : (t ++ closing ml delim n) ++ post ≠ [].
Proof. destruct (closing_cons ml delim n) as [u ->]. by destruct t. Qed.

Lemma reads_basic_loop ml skip b t k n str post :
  basic_text ml skip b t → (skip = true → ml = true) → (k ≤ 2)%nat → (ml = true → head post ≠ Some (U x22)) →
  (length (t ++ closing ml x22 k) < n)%nat →
  reads (string_loop (basic_string_step ml) n str false skip) (t ++ closing ml x22 k) post (λ r, r = str ++ b ++ closed_with ml x22 k).
Proof.
  intros Ht Hsk Hk Hpost. revert n str Hsk.
  induction Ht as [skip|skip c b t Hc Hbr Hws Ht IH|skip e v b t He Ht IH|skip nl b t -> Hnl Ht IH|skip j b t -> Hj Hne Hhead Ht IH
    |skip sp nl b t -> Hsp Hnl Ht IH|c b t -> Hc Ht IH]; intros [|n] str Hsk Hn; try lia; cbn [app] in *; rewrite <- ?app_assoc in *.
  - by apply reads_string_done, reads_basic_close.
  - apply (reads_string_more _ _ _ _ _ (str ++ utf8_encode c) false (if ml then false else skip) [c] (t ++ closing ml x22 k));
      [by apply reads_plain_step; auto|apply closing_not_nil|].
    assert ((if ml then false else skip) = false) as -> by (destruct ml, skip; try done; by specialize (Hsk eq_refl)).
    eapply reads_mono; [apply IH; [done|cbn [length] in Hn; lia]|]. intros r ->. by rewrite <- !app_assoc.
  - destruct n as [|n]; [cbn in Hn; lia|]. destruct (escape_sequence_cons _ _ He) as (c & e' & He' & _). apply reads_backslash; [by rewrite He'|].
    apply (reads_string_more _ _ _ _ _ (str ++ v) false false e (t ++ closing ml x22 k));
      [apply reads_escape_step; [done|apply closing_not_nil]|apply closing_not_nil|].
    eapply reads_mono; [apply IH; [done|]|]; [cbn [length] in Hn; rewrite length_app, He' in Hn; cbn [length] in Hn; lia|].
    intros r ->. by rewrite <- !app_assoc.
  - destruct (newline_starts _ Hnl) as (c & u & Hc & _).
    apply (reads_string_more _ _ _ _ _ (if skip then str else str ++ [x0a]) false skip nl (t ++ closing true x22 k));
      [by apply reads_break_step|apply closing_not_nil|].
    eapply reads_mono; [apply IH; [done|]|]; [rewrite length_app, Hc in Hn; cbn [length] in Hn; lia|].
    intros r ->. destruct skip; [done|]. by rewrite <- !app_assoc.
  - assert (1 ≤ length (replicate j (U x22)))%nat as Hlj by (rewrite length_replicate; lia).
    apply (reads_string_more _ _ _ _ _ (str ++ replicate j x22) false false (replicate j (U x22)) (t ++ closing true x22 k));
      [by apply reads_quotes_step; [|destruct t]|apply closing_not_nil|].
    eapply reads_mono; [apply IH; [done|]|]; [rewrite length_app in Hn; lia|]. intros r ->. by rewrite <- !app_assoc.
  - destruct n as [|n]; [cbn in Hn; lia|]. destruct (newline_starts _ Hnl) as (c & u & Hc & _). rewrite (app_assoc sp) in *.
    apply reads_backslash; [rewrite Hc; by destruct sp|].
    apply (reads_string_more _ _ _ _ _ str false true (sp ++ nl) (t ++ closing true x22 k)); [by apply reads_continue_step|apply closing_not_nil|].
    apply IH; [done|]. cbn [length] in Hn. rewrite !length_app, Hc in Hn. rewrite length_app. cbn [length] in Hn. lia.
  - apply (reads_string_more _ _ _ _ _ str false true [c] (t ++ closing true x22 k)); [by apply reads_skipped_step|apply closing_not_nil|].
    apply IH; [done|]. cbn [length] in Hn. lia.
Qed.

(** ** The loop over a literal string *)
Lemma reads_literal_char ml c str post :
  literal_char c → (ml = true → is_line_break true c = false) →
  reads (literal_string_step ml str false false) [c] post (λ r, r = StringMore (str ++ utf8_encode c) false false).
Proof.
  intros (Hs & Hctrl & Hq) Hbr. unfold literal_string_step. rd. rewrite (proj2 (Z.eqb_neq _ _) Hq).
  assert (ml && is_line_break true c = false) as -> by (destruct ml; [by apply Hbr|done]).
  rewrite Hctrl, scalar_not_surrogate by done. rd. apply reads_ret. rewrite as_view_proper; [by rewrite Hx|done|]. rewrite Hx. by intros ->.
Qed.

Lemma reads_literal_close ml k str post :
  (k ≤ 2)%nat → (ml = true → head post ≠ Some (U "'")) →
  reads (literal_string_step ml str false false) (closing ml "'" k) post (λ r, r = StringDone (str ++ closed_with ml "'" k)).
Proof.
  intros Hk Hpost. destruct (closing_cons ml "'" k) as [u Hu]. unfold literal_string_step. eapply reads_cur; [by rewrite Hu|]. intros x Hx _.
  rewrite Hx, Z.eqb_refl. destruct ml; [by apply reads_closing_quotes; [|apply Hpost]|].
  unfold closing, closed_with. cbn [replicate]. rd. apply reads_ret. by rewrite app_nil_r.
Qed.

(** On one line. *)
Lemma reads_literal_line cs n str post :
  Forall literal_char cs → (length cs < n)%nat →
  reads (string_loop (literal_string_step false) n str false false) (cs ++ [U "'"]) post (λ r, r = str ++ encode_text cs).
Proof.
  intros Hcs. revert n str. induction Hcs as [|c cs Hc Hcs IH]; intros [|n] str Hn; cbn in Hn; try lia; cbn [app].
  - apply reads_string_done. eapply reads_mono; [by apply (reads_literal_close false 0); [lia|]|done].
  - apply (reads_string_more _ _ _ _ _ (str ++ utf8_encode c) false false [c] (cs ++ [U "'"])); [by apply reads_literal_char|by destruct cs|].
    eapply reads_mono; [apply IH; lia|]. intros r ->. by rewrite encode_text_cons, app_assoc.
Qed.

(** On several lines. *)
Lemma reads_literal_loop b t k n str post :
  literal_text b t → (k ≤ 2)%nat → head post ≠ Some (U "'") → (length (t ++ closing true "'" k) < n)%nat →
  reads (string_loop (literal_string_step true) n str false false) (t ++ closing true "'" k) post (λ r, r = str ++ b ++ replicate k "'"%byte).
Proof.
  intros Ht Hk Hpost. revert n str. induction Ht as [|c b t Hc Hbr Ht IH|nl b t Hnl Ht IH|j b t Hj Hnt Hhead Ht IH]; intros [|n] str Hn; try lia.
  - apply reads_string_done. by apply reads_literal_close.
  - cbn [app]. apply (reads_string_more _ _ _ _ _ (str ++ utf8_encode c) false false [c] (t ++ closing true "'" k)); [by apply reads_literal_char|apply closing_not_nil|].
    eapply reads_mono; [apply IH; cbn [app length] in Hn; lia|]. intros r ->. by rewrite <- !app_assoc.
  - destruct (newline_starts _ Hnl) as (c & u & Hc & Hbr & _ & _ & Hq & _). rewrite <- app_assoc in *.
    apply (reads_string_more _ _ _ _ _ (str ++ [x0a]) false false nl (t ++ closing true "'" k)); [|apply closing_not_nil|].
    { unfold literal_string_step. eapply reads_cur; [by rewrite Hc|]. intros x Hx _. rewrite Hx, Hq, Hbr. cbn [andb]. rewrite <- (app_nil_r nl).
      eapply reads_bind; [by apply reads_line_break|]. intros r ->. by apply reads_ret. }
    eapply reads_mono; [apply IH; rewrite length_app, Hc in Hn; cbn [length] in Hn; lia|]. intros r ->. by rewrite <- !app_assoc.
  - rewrite <- app_assoc in *. assert (1 ≤ length (replicate j (U "'")))%nat as Hlj by (rewrite length_replicate; lia).
    apply (reads_string_more _ _ _ _ _ (str ++ replicate j "'"%byte) false false (replicate j (U "'")) (t ++ closing true "'" k)); [|apply closing_not_nil|].
    { unfold literal_string_step. assert (∃ u, replicate j (U "'") = U "'" :: u) as [u Hu] by (destruct Hj as [->| ->]; by eexists).
      eapply reads_cur; [by rewrite Hu|]. intros x Hx _. rewrite Hx, Z.eqb_refl. apply reads_inner_quotes; [done|]. by destruct t. }
    eapply reads_mono; [apply IH; rewrite length_app in Hn; lia|]. intros r ->. by rewrite <- !app_assoc.
Qed.

(** ** Whole strings *)
Lemma reads_string_start delim post : post ≠ [] → reads (string_start false) [U delim] post (λ _, True).
Proof. intros Hpost. unfold string_start. apply reads_advance_not_eof; [done|]. by apply reads_ret. Qed.

Lemma reads_multi_line_start delim start post :
  newline start ∨ start = [] ∧ begins_line post = false → post ≠ [] → reads (string_start true) (U delim :: start) post (λ _, True).
Proof.
  intros Hstart Hpost. unfold string_start. apply reads_advance_not_eof; [by destruct start|]. rewrite <- (app_nil_r start).
  apply (reads_bind _ _ start [] _ (λ _, True)); [|intros _ _; unfold set_error_if_eof; apply reads_is_eof; [done|by rd]].
  destruct Hstart as [Hnl|[-> Hb]]; [eapply reads_mono; [by apply reads_line_break|done]|].
  eapply reads_mono; [apply reads_no_line_break|done]. destruct post; [done|]. cbn in *. by rewrite Hb.
Qed.

Lemma begins_line_app t post : begins_line t = false → begins_line post = false → begins_line (t ++ post) = false.
Proof. by destruct t. Qed.

Lemma reads_parse_basic_string b t post :
  basic_text false false b t → reads (parse_basic_string false) ([U x22] ++ t ++ [U x22]) post (λ r, r = b).
Proof.
  intros Ht. unfold parse_basic_string. apply reads_scoped. eapply reads_bind; [apply reads_string_start; by destruct t|].
  intros _ _. apply reads_looping. intros n Hn. eapply reads_mono; [apply (reads_basic_loop false false b t 0); try done; [lia|]|].
  - rewrite length_app in Hn. unfold closing. cbn [replicate]. lia.
  - intros r ->. by rewrite app_nil_r.
Qed.

Lemma reads_parse_multi_line_basic b start t n post :
  basic_text true false b t → newline start ∨ start = [] ∧ begins_line t = false → (n ≤ 2)%nat → head post ≠ Some (U x22) →
  reads (parse_basic_string true) ((U x22 :: start) ++ t ++ closing true x22 n) post (λ r, r = b ++ replicate n x22).
Proof.
  intros Ht Hstart Hn Hpost. unfold parse_basic_string. apply reads_scoped. eapply reads_bind.
  { apply reads_multi_line_start; [|apply closing_not_nil].
    destruct Hstart as [?|[-> ?]]; [by left|right]. split; [done|]. rewrite <- app_assoc. by apply begins_line_app. }
  intros _ _. apply reads_looping. intros m Hm. eapply reads_mono; [apply (reads_basic_loop true false b t n); try done|done].
  rewrite length_app in Hm. lia.
Qed.

Lemma reads_parse_literal_string cs post :
  Forall literal_char cs → reads (parse_literal_string false) (single_quote cs) post (λ r, r = encode_text cs).
Proof.
  intros Hcs. unfold parse_literal_string, single_quote. apply reads_scoped. eapply reads_bind; [apply reads_string_start; by destruct cs|].
  intros _ _. apply reads_looping. intros n Hn. apply reads_literal_line; [done|]. rewrite !length_app in Hn. lia.
Qed.

Lemma reads_parse_multi_line_literal b start t n post :
  literal_text b t → newline start ∨ start = [] ∧ begins_line t = false → (n ≤ 2)%nat → head post ≠ Some (U "'") →
  reads (parse_literal_string true) ((U "'" :: start) ++ t ++ closing true "'" n) post (λ r, r = b ++ replicate n "'"%byte).
Proof.
  intros Ht Hstart Hn Hpost. unfold parse_literal_string. apply reads_scoped. eapply reads_bind.
  { apply reads_multi_line_start; [|by destruct t]. destruct Hstart as [?|[-> ?]]; [by left|right]. split; [done|].
    rewrite <- app_assoc. by apply begins_line_app. }
  intros _ _. apply reads_looping. intros m Hm. eapply reads_mono; [by apply reads_literal_loop; [..|rewrite length_app in Hm; lia]|done].
Qed.

(** The second and third character decide what kind of string it is. *)
Lemma quoted_start (q : byte) t post :
  head t ≠ Some (U q) → (t = [] → head post ≠ Some (U q)) →
  ∃ second rest, ([U q] ++ t ++ [U q]) ++ post = U q :: second :: rest ∧
    (rest = [] → t = [] ∧ post = [] ∧ second = U q) ∧ (second = U q → head rest ≠ Some (U q)).
Proof.
  intros Ht Hpost. destruct t as [|c t].
  - exists (U q), post. split; [done|]. split; [by intros ->|]. auto.
  - exists c, (t ++ [U q] ++ post). split; [cbn; by rewrite <- app_assoc|]. split; [by destruct t|]. intros ->. done.
Qed.

Lemma basic_text_head skip b t : basic_text false skip b t → head t ≠ Some (U x22).
Proof. intros [?|? c ? ? (_ & Hc & _) _ _ _|? e v ? ? _ _|? ? ? ? ? _ _|? ? ? ? ? _ _ _ _|? ? ? ? ? ? _ _ _|? ? ? ? _ _]; try done. by intros [= ->]. Qed.

(** [parse_string] decides by the first three characters and goes back. *)
Lemma reads_string_kind q t b post second rest :
  q = U x22 ∨ q = U "'" → (2 ≤ length t)%nat → t ++ post = q :: second :: rest →
  (rest = [] → b = [] ∧ post = [] ∧ second = q) → (second = q → head rest ≠ Some q) →
  reads (if q =? U "'" then parse_literal_string false else parse_basic_string false) t post (λ r, r = b) →
  reads parse_string t post (λ r, r = (b, false)).
Proof.
  intros Hq Hlen Ht Hrest Hthird Hkind. apply reads_scoped. intros s k past Hat.
  pose proof (at_text_k _ _ _ _ Hat) as Hk. pose proof Hat as Hat0. rewrite Ht in Hat.
  destruct (at_advance _ _ _ _ _ Hat) as (x1 & s1 & Hx1 & Hv1 & _ & Ha1 & Hat1 & Hk1).
  destruct (at_advance _ _ _ _ _ Hat1) as (x2 & s2 & Hx2 & Hv2 & _ & Ha2 & Hat2 & Hk2).
  unfold mbind, P_bind, cur, advance_not_eof, set_error_if_eof, is_eof, gets. rewrite Hx1. unfold mbind, P_bind.
  rewrite Ha1, Hx2, bool_decide_true by done. cbn [negb]. unfold mret, P_ret. rewrite Hx2, Ha2, Hv1, Hv2.
  destruct rest as [|third rest].
  - destruct (Hrest eq_refl) as (-> & -> & ->). rewrite (at_end _ _ _ Hat2), Z.eqb_refl.
    rewrite app_nil_r in Ht. subst t.
    exists ([], false), s2, [x1; x2]. split_and!; try done; [|by cbn; rewrite Hv1, Hv2|by etransitivity].
    rewrite <- app_assoc in Hat2. by replace (k - length [q; q])%nat with (k - 1 - 1)%nat by (cbn; lia).
  - destruct (at_cur _ _ _ _ _ Hat2) as (x3 & Hx3 & Hv3 & _). rewrite Hx3, Hv3.
    replace ((q =? second) && (q =? third)) with false.
    2: { symmetry. apply andb_false_iff. destruct (Z.eqb_spec q second) as [<-|]; [right|by left].
         apply Z.eqb_neq. intros <-. by destruct (Hthird eq_refl). }
    rewrite <- app_assoc in Hat2.
    destruct (at_go_back _ _ past [x1; x2] _ Hat2) as (s3 & Hb3 & Hat3 & Hk3); [cbn; lia|cbn; lia|].
    change (Z.of_nat (length [x1; x2])) with 2 in Hb3. rewrite Hb3.
    cbn [fmap list_fmap app length] in Hat3. rewrite Hv1, Hv2, <- Ht in Hat3.
    destruct (Hkind _ _ _ Hat3) as (r & s4 & past' & Hr & -> & Hat4 & Hl4 & Hk4).
    rewrite Hr. exists (b, false), s4, past'. split_and!; try done.
    + by replace (k - length t)%nat with (k - 1 - 1 + 2 - length t)%nat by lia.
    + do 3 (etransitivity; [eassumption|]). done.
Qed.

Lemma reads_parse_string b t post :
  string_text b t → head post ≠ Some (U x22) → head post ≠ Some (U "'") →
  reads parse_string t post (λ r, r = (b, false)).
Proof.
  intros [b' t' Ht|cs Hcs] H1 H2.
  - destruct (quoted_start x22 t' post) as (second & rest & He & Hrest & Hthird); [by eapply basic_text_head|done|].
    eapply reads_string_kind; [by left|rewrite !length_app; cbn; lia|exact He| |done|by apply reads_parse_basic_string].
    intros Hr. destruct (Hrest Hr) as (-> & ? & ?). split_and!; try done. by inversion Ht.
  - destruct (quoted_start "'" cs post) as (second & rest & He & Hrest & Hthird); [|done|].
    { destruct Hcs as [|c cs (_ & _ & Hc) _]; [done|]. by intros [= ->]. }
    eapply reads_string_kind; [by right|unfold single_quote; rewrite !length_app; cbn; lia|exact He| |done|by apply reads_parse_literal_string].
    intros Hr. destruct (Hrest Hr) as (-> & ? & ?). done.
Qed.

(** Three equal marks begin a string over several lines. *)
Lemma reads_multi_line_kind (q : byte) t b post :
  q = x22 ∨ q = "'"%byte → head t = Some (U q) →
  reads (if U q =? U "'" then parse_literal_string true else parse_basic_string true) t post (λ r, r = b) →
  reads parse_string ([U q; U q] ++ t) post (λ r, r = (b, true)).
Proof.
  intros Hq Hhead Hkind. apply reads_scoped. destruct t as [|c t]; [done|]. injection Hhead as ->. cbn [app]. rd.
  apply reads_advance_not_eof; [done|]. rd. rd. eapply reads_gets_cp; [reflexivity|]. intros z Hz _. cbv beta iota zeta.
  rewrite Hz, Z.eqb_refl. cbn [andb]. rewrite <- (app_nil_r (U q :: t)).
  eapply reads_bind; [rewrite app_nil_l; exact Hkind|]. intros r ->. by apply reads_ret.
Qed.

Lemma reads_parse_multi_line b t post :
  multi_line_text b t → head post ≠ Some (U x22) → head post ≠ Some (U "'") →
  reads parse_string t post (λ r, r = (b, true)).
Proof.
  intros [b' start t' n Ht Hs Hn|b' start t' n Ht Hs Hn] H1 H2.
  - apply (reads_multi_line_kind x22 ((U x22 :: start) ++ t' ++ closing true x22 n)); [by left|done|]. by apply reads_parse_multi_line_basic.
  - apply (reads_multi_line_kind "'" ((U "'" :: start) ++ t' ++ closing true "'" n)); [by right|done|]. by apply reads_parse_multi_line_literal.
Qed.
