(* ===== verification/TomlNumbers.v ===== *)
(** * TomlNumbers: integers are read back

    The look-ahead that recognises a value by its characters, and the integer
    literals of the four bases, from their text to their value or error. *)
From Stdlib Require Import SpecFloat.
From S2P Require Import Prelude Bytes Env TomlNode TomlUtf8 TomlReader TomlParser TomlScalar TomlDocument TomlExact TomlText TomlGrammar.

Local Open Scope Z_scope.

(** ** Looking ahead *)

(** A value ends where the text does, or at a character that ends values. *)
Definition terminated (post : list Z) : Prop :=
  match post with [] => True | c :: _ => is_value_terminator c = true end.

(** The look-ahead for a date and a time takes a space and a digit behind a date
    for the beginning of a time. *)
Definition ends_value (post : list Z) : Prop :=
  terminated post ∧ ∀ c t, post = U " " :: c :: t → is_decimal_digit c = false.

(** What a scan of [t] finds. *)
Definition scan_step (sc : scanned) (c : Z) : scanned := scan_advanced (scan_char sc c) false.
Definition set_eof (e : bool) (sc : scanned) : scanned :=
  mk_scanned (sc_chars sc) (sc_traits sc) (sc_advance_count sc) e.

Lemma scan_step_count sc c : sc_advance_count (scan_step sc c) = sc_advance_count sc + 1.
Proof. unfold scan_step, scan_char. by case_match. Qed.

Lemma scan_step_eof sc c e : scan_advanced (scan_char sc c) e = set_eof e (scan_step sc c).
Proof. done. Qed.

Lemma scan_step_set_eof sc c e : scan_step (set_eof e sc) c = scan_step sc c.
Proof. unfold scan_step, scan_char. by case_match. Qed.

Lemma reads_scan_loop t n sc post :
  t ≠ [] → Forall (λ c, is_value_terminator c = false) t → terminated post →
  sc_advance_count sc + Z.of_nat (length t) ≤ 71 → (length t ≤ n)%nat →
  reads (scan_loop n sc) t post (λ r, ∃ e, r = set_eof e (foldl scan_step sc t)).
Proof.
  revert n sc. induction t as [|c t IH]; intros [|n] sc Hne Hall Hpost Hcount Hn; cbn in Hn; try (done || lia).
  cbn [scan_loop foldl]. inversion Hall as [|? ? Hc Hall']; subst. rd. rd. cbn [length] in Hcount.
  destruct t as [|c' t].
  - destruct post as [|p post].
    + apply reads_gets_cp_end. rd. eexists. apply scan_step_eof.
    + eapply reads_gets_cp; [reflexivity|]. intros y Hy _. cbn in Hpost. rewrite Hy, Hpost, andb_false_r. rd.
      eexists. apply scan_step_eof.
  - eapply reads_gets_cp; [reflexivity|]. intros y Hy _. inversion Hall' as [|? ? Hc' _]; subst. rewrite Hc'.
    rewrite scan_step_eof. cbn [set_eof sc_advance_count]. rewrite scan_step_count.
    rewrite (proj2 (Z.ltb_lt _ _)) by (unfold max_history_length; cbn in *; lia). cbn [negb andb].
    eapply reads_mono; [apply IH; [done|done|done| |lia]|].
    + cbn [set_eof sc_advance_count]. rewrite scan_step_count. cbn [length] in *. lia.
    + intros r [e ->]. exists e. cbn [foldl]. by rewrite scan_step_set_eof.
Qed.

(** What follows a date is not the beginning of a time: the look-ahead goes back
    behind the date. *)
Lemma scan_date_time_back sc e s k past post :
  ends_value post → at_text s k past post →
  ∃ s', scan_date_time (set_eof e sc) s = Done (set_eof e sc) s' ∧ at_text s' k past post ∧ keeps s s'.
Proof.
  intros [Hterm Hpost] Hat. unfold scan_date_time, gets, mbind, P_bind.
  destruct (_ && from_option _ false _) eqn:Hcond.
  2: { exists s. split; [reflexivity|]. by split. }
  rewrite !andb_true_iff in Hcond. destruct Hcond as ((((Hlen%Z.eqb_eq & _) & _) & _) & Hsp).
  destruct post as [|c0 post]; [rewrite (at_end _ _ _ Hat) in Hsp; done|].
  destruct (at_cur _ _ _ _ _ Hat) as (x & Hcp & Hv & _). rewrite Hcp in Hsp. cbn in Hsp. apply Z.eqb_eq in Hsp.
  destruct (at_look_behind _ _ _ _ _ Hat) as (x' & s1 & s2 & _ & Ha & Hat1 & Hb & Hat2 & Hk2). rewrite Ha.
  assert (backpedal (set_eof e sc) (scan_advanced (scan_traits (scan_push (set_eof e sc) (U " ")) traits.has_t) e) s1
    = Done (set_eof e sc) s2) as Hback.
  { unfold backpedal, mbind, P_bind, mret, P_ret. cbn [set_eof scan_advanced scan_traits scan_push sc_advance_count sc_chars sc_traits sc_eof].
    replace (sc_advance_count sc + 1 - sc_advance_count sc) with 1 by lia. rewrite Hb.
    unfold char_count in Hlen. cbn [set_eof sc_chars] in Hlen. rewrite take_app_le, firstn_all2 by lia. done. }
  exists s2. split; [|done]. cbn [set_eof sc_eof]. destruct post as [|c post].
  - rewrite (at_end _ _ _ Hat1). exact Hback.
  - destruct (at_cur _ _ _ _ _ Hat1) as (y & -> & Hy & _). rewrite Hy, (Hpost c post) by (by rewrite <- Hv, Hsp). exact Hback.
Qed.

(** A look-ahead leaves the parser where it was. *)
Lemma reads_scan_value {A} ft (f : scanned → P A) t post Q :
  t ≠ [] → Forall (λ c, is_value_terminator c = false) t → ends_value post → (length t ≤ 70)%nat →
  let sc := foldl scan_step (mk_scanned [] ft 0 false) t in
  sc_advance_count sc = Z.of_nat (length t) →
  (∀ e, reads (f (set_eof e sc)) t post Q) →
  reads (scan_value ft ≫= f) t post Q.
Proof.
  intros Hne Hall Hpost Hlen sc Hcount Hf s k past Hat. pose proof (at_text_k _ _ _ _ Hat) as Hk.
  assert (reads (scan (mk_scanned [] ft 0 false)) t post (λ r, ∃ e, r = set_eof e sc)) as Hscan.
  { unfold scan. apply reads_is_eof; [by destruct t|]. apply reads_looping. intros n Hn.
    rewrite length_app in Hn. apply reads_scan_loop; try done; [apply Hpost|cbn; lia|lia]. }
  destruct (Hscan s k past Hat) as (r & s1 & past1 & Hs1 & [e ->] & Hat1 & Hv1 & Hk1).
  assert (length past1 = length t) as Hl1 by (by rewrite <- Hv1, length_fmap).
  destruct (scan_date_time_back sc e _ _ _ _ Hpost Hat1) as (s2 & Hd2 & Hat2 & Hk2).
  destruct (at_go_back _ _ past past1 _ Hat2) as (s3 & Hb3 & Hat3 & Hk3); [destruct t; [done|cbn in *; lia]|lia|].
  rewrite Hv1 in Hat3. destruct (Hf e _ _ _ Hat3) as (a & s4 & past4 & Hs4 & HQ & Hat4 & Hv4 & Hk4).
  exists a, s4, past4. split; [|split; [done|]].
  - unfold scan_value, mbind, P_bind. rewrite Hs1, Hd2. cbn [set_eof sc_advance_count]. rewrite Hcount, <- Hl1, Hb3. exact Hs4.
  - split; [|split; [done|by do 3 (etransitivity; [eassumption|])]].
    by replace (k - length t)%nat with (k - length t + length past1 - length t)%nat by lia.
Qed.

(** ** Integer literals *)

Definition prefix_text (t : integer_traits) : list Z := match tr_prefix t with Some p => [U "0"; U p] | None => [] end.

(** The text of an integer: a sign, the prefix of its base, the digits with
    underscores between them. *)
Inductive integer_literal (t : integer_traits) : bool → bytes → list Z → Prop :=
| literal_intro neg st chars body :
    sign_text neg st → (st ≠ [] → tr_is_signed t = true) → separated chars body →
    integer_literal t neg chars (st ++ prefix_text t ++ body).

Definition sign_of (neg : bool) : Z := if neg then -1 else 1.

(** The digits, and the end of the literal. *)
Definition integer_digits (t : integer_traits) (sign : Z) : P (Z * bytes) :=
  '(chars, prev) ← looping (λ n, integer_loop t n [] None);
  (if from_option (λ p, p =? U "_") false prev then
     set_error_if_eof;; set_error [bs "underscores must be followed by digits"]
   else mret ());;
  mret (sign, chars).

(** The sign and the prefix. *)
Definition integer_head (t : integer_traits) : P Z :=
  sign ← (if tr_is_signed t then
            c ← cur;
            (if is_match (value c) ["+"; "-"]%byte then advance_not_eof else mret ());;
            mret (if value c =? U "-" then -1 else 1)
          else mret 1);
  match tr_prefix t with
  | None =>
    c ← cur;
    if negb (tr_is_digit t (value c)) then saw (bs "expected expected digit or sign, saw '") else mret ()
  | Some prefix =>
    c ← cur;
    (if negb (value c =? U "0") then saw (bs "expected '0', saw '") else mret ());;
    advance_not_eof;;
    c ← cur;
    (if negb (value c =? U prefix) then saw (bs "expected '" ++ [prefix] ++ bs "', saw '") else mret ());;
    advance_not_eof
  end;;
  mret sign.

(** [parse_integer] up to the evaluation of the digits. *)
Definition integer_text (t : integer_traits) : P (Z * bytes) := sign ← integer_head t; integer_digits t sign.

Lemma bind_assoc {A B C} (m : P A) (f : A → P B) (g : B → P C) s :
  ((m ≫= f) ≫= g) s = (m ≫= λ a, f a ≫= g) s.
Proof. unfold mbind, P_bind. by destruct (m s). Qed.

Lemma ret_bind {A B} (a : A) (f : A → P B) s : (mret a ≫= f) s = f a s.
Proof. done. Qed.

Lemma bind_ext {A B} (m : P A) (f g : A → P B) s : (∀ a s', f a s' = g a s') → (m ≫= f) s = (m ≫= g) s.
Proof. intros H. unfold mbind, P_bind. by destruct (m s). Qed.

Lemma parse_integer_text t s :
  parse_integer t s = scoped (tr_scope_qualifier t) (r ← integer_text t; integer_value t r.1 r.2) s.
Proof.
  unfold parse_integer, scoped. apply bind_ext. intros parent s1. apply bind_ext. intros [] s2.
  rewrite !bind_assoc. unfold integer_text, integer_head. rewrite !bind_assoc. apply bind_ext. intros sign s3.
  rewrite !bind_assoc. apply bind_ext. intros [] s4. rewrite bind_assoc, ret_bind. unfold integer_digits. rewrite !bind_assoc. apply bind_ext. intros [chars prev] s5.
  rewrite !bind_assoc. apply bind_ext. intros [] s6. done.
Qed.

(** A digit of the four bases is an ASCII character, not one that ends a value,
    a sign or an underscore. *)
Lemma digit_char t b :
  t ∈ all_traits → tr_is_digit t (U b) = true →
  U b < 128 ∧ is_value_terminator (U b) = false ∧ (U b =? U "_") = false ∧
  is_match (U b) ["+"; "-"]%byte = false ∧ (U b =? U "-") = false ∧
  is_match (U b) ["i"; "n"; "I"; "N"]%byte = false ∧ (U b =? U ".") = false.
Proof.
  intros Ht Hd.
  assert (forallb (λ t, forallb (λ b, implb (tr_is_digit t (U b))
    ((U b <? 128) && negb (is_value_terminator (U b)) && negb (U b =? U "_") &&
     negb (is_match (U b) ["+"; "-"]%byte) && negb (U b =? U "-") &&
     negb (is_match (U b) ["i"; "n"; "I"; "N"]%byte) && negb (U b =? U "."))) all_bytes) all_traits = true) as Hall
    by (vm_compute; reflexivity).
  rewrite forallb_forall in Hall. apply list_elem_of_In in Ht. specialize (Hall t Ht).
  rewrite forallb_forall in Hall. specialize (Hall b (proj1 (list_elem_of_In _ _) (all_bytes_spec b))).
  rewrite Hd in Hall. cbn [implb] in Hall. rewrite !andb_true_iff, !negb_true_iff, Z.ltb_lt in Hall. tauto.
Qed.

Lemma encode_ascii b : U b < 128 → utf8_encode (U b) = [b].
Proof.
  intros Hb. unfold utf8_encode. rewrite (proj2 (Z.ltb_lt _ _)) by lia. cbn. unfold U. by rewrite byte_of_to_Z.
Qed.

Lemma separated_not_nil chars t : separated chars t → chars ≠ [] ∧ t ≠ [].
Proof. by intros []. Qed.

Lemma separated_plain chars : chars ≠ [] → separated chars (zs chars).
Proof. induction chars as [|b [|b' chars] IH]; intros H; [done|constructor|]. by apply separated_more, IH. Qed.

Lemma separated_length chars t : separated chars t → (length chars ≤ length t ≤ 2 * length chars)%nat.
Proof. induction 1; cbn; lia. Qed.

Lemma reads_integer_end t n done prev post :
  terminated post → reads (integer_loop t (S n) done prev) [] post (λ r, r = (done, prev)).
Proof.
  intros Hpost. cbn [integer_loop]. destruct post as [|p post]; [by apply reads_gets_cp_end, reads_ret|].
  eapply reads_gets_cp; [reflexivity|]. intros x Hx _. cbn in Hpost. rewrite Hx, Hpost. by apply reads_ret.
Qed.

Lemma reads_integer_digit t b rest n done prev post Q :
  t ∈ all_traits → tr_is_digit t (U b) = true → (length done < tr_buffer_length t)%nat →
  reads (integer_loop t n (done ++ [b]) (Some (U b))) rest post Q → reads (integer_loop t (S n) done prev) (U b :: rest) post Q.
Proof.
  intros Ht Hb Hl Hrest. destruct (digit_char t b Ht Hb) as (Ha & Hv & Hu & _). cbn [integer_loop].
  eapply reads_gets_cp; [reflexivity|]. intros x Hx [_ Hbx]. rewrite Hx, Hv, Hu, Hb. cbn [negb]. rewrite andb_false_r.
  destruct (Nat.eqb_spec (length done) (tr_buffer_length t)); [lia|]. rd.
  assert (byte0 x = b) as -> by (unfold byte0; by rewrite Hbx, Hx, encode_ascii). done.
Qed.

Lemma reads_integer_loop t chars body n done prev post :
  t ∈ all_traits → separated chars body → Forall (λ b, tr_is_digit t (U b) = true) chars → terminated post →
  (length done + length chars ≤ tr_buffer_length t)%nat → (length body < n)%nat →
  reads (integer_loop t n done prev) body post
    (λ r, r.1 = done ++ chars ∧ from_option (λ p, p =? U "_") false r.2 = false).
Proof.
  intros Ht Hs. revert n done prev. induction Hs as [b|b chars rest Hs IH|b chars rest Hs IH]; intros [|n] done prev Hd Hpost Hl Hn;
    cbn [length] in *; try lia; inversion Hd as [|? ? Hb Hd']; subst; destruct (digit_char t b Ht Hb) as (_ & _ & Hu & _).
  - apply reads_integer_digit; [done|done|lia|]. destruct n as [|n]; [lia|].
    eapply reads_mono; [by apply reads_integer_end|]. by intros r ->.
  - apply reads_integer_digit; [done|done|lia|].
    eapply reads_mono; [apply IH; try done; rewrite ?length_app; cbn; lia|]. intros r [-> Hr]. by rewrite <- app_assoc.
  - apply reads_integer_digit; [done|done|lia|]. destruct n as [|n]; [lia|]. cbn [integer_loop].
    eapply reads_gets_cp; [reflexivity|]. intros x Hx _. rewrite Hx. change (is_value_terminator (U "_")) with false.
    rewrite Z.eqb_refl. cbn [from_option]. rewrite Hb. cbn [negb].
    destruct (separated_not_nil _ _ Hs) as [_ Hne]. apply reads_advance_not_eof; [by destruct rest|].
    eapply reads_mono; [apply IH; try done; rewrite ?length_app; cbn; lia|]. intros r [-> Hr]. by rewrite <- app_assoc.
Qed.

Lemma separated_head chars t : separated chars t → ∃ b rest, t = U b :: rest ∧ head chars = Some b.
Proof. intros []; eauto. Qed.

Lemma reads_integer_head t neg st chars body post :
  t ∈ all_traits → sign_text neg st → (st ≠ [] → tr_is_signed t = true) → separated chars body →
  Forall (λ b, tr_is_digit t (U b) = true) chars →
  reads (integer_head t) (st ++ prefix_text t) (body ++ post) (λ r, r = sign_of neg).
Proof.
  intros Ht Hst Hsigned Hs Hd. destruct (separated_head _ _ Hs) as (b & rest & Hbody & Hhead).
  destruct chars as [|b' chars]; [done|]. injection Hhead as ->.
  pose proof (List.Forall_inv Hd) as Hb. cbv beta in Hb. destruct (digit_char t b Ht Hb) as (_ & _ & _ & Hm & Hminus & _).
  unfold integer_head, prefix_text. destruct (tr_prefix t) as [p|] eqn:Hp.
  - assert (tr_is_signed t = false) as Hs'.
    { unfold all_traits in Ht. rewrite list_elem_of_In in Ht. cbn [In] in Ht.
      repeat destruct Ht as [<-|Ht]; first [reflexivity|cbn in Hp; congruence|done]. }
    assert (neg = false ∧ st = []) as [-> ->] by (destruct Hst; [done|by rewrite Hsigned in Hs'..]).
    rewrite Hs'. apply (reads_bind _ _ [] _ _ (λ r, r = 1)); [by apply reads_ret|]. intros ? ->.
    apply (reads_bind _ _ [U "0"; U p] [] _ (λ _, True)); [|intros ? _; by apply reads_ret]. rewrite Hbody.
    rd. rewrite Z.eqb_refl. cbn [negb]. apply (reads_bind _ _ [] _ _ (λ _, True)); [by apply reads_ret|]. intros _ _.
    apply reads_advance_not_eof; [done|]. rd. rewrite Z.eqb_refl. cbn [negb].
    apply (reads_bind _ _ [] _ _ (λ _, True)); [by apply reads_ret|]. intros _ _.
    by apply reads_advance_not_eof_last.
  - assert (tr_is_signed t = true) as Hs'.
    { unfold all_traits in Ht. rewrite list_elem_of_In in Ht. cbn [In] in Ht.
      repeat destruct Ht as [<-|Ht]; first [reflexivity|cbn in Hp; congruence|done]. }
    rewrite Hs'. apply (reads_bind _ _ st [] _ (λ r, r = sign_of neg)).
    + rewrite Hbody. destruct Hst.
      * eapply reads_cur; [reflexivity|]. intros x Hx _. rewrite Hx, Hm, Hminus.
        apply (reads_bind _ _ [] _ _ (λ _, True)); [by apply reads_ret|]. intros _ _. by apply reads_ret.
      * rd. compare_chars. change (is_match (U "+") ["+"; "-"]%byte) with true. cbv iota.
        apply reads_advance_not_eof; [done|]. by rd.
      * rd. compare_chars. change (is_match (U "-") ["+"; "-"]%byte) with true. cbv iota.
        apply reads_advance_not_eof; [done|]. by rd.
    + intros sign ->. apply (reads_bind _ _ [] [] _ (λ _, True)); [|intros _ _; by apply reads_ret].
      eapply reads_cur; [by rewrite Hbody|]. intros x Hx _. rewrite Hx, Hb. by apply reads_ret.
Qed.

Lemma reads_integer_digits t sign chars body post :
  t ∈ all_traits → separated chars body → Forall (λ b, tr_is_digit t (U b) = true) chars →
  (length chars ≤ tr_buffer_length t)%nat → terminated post →
  reads (integer_digits t sign) body post (λ r, r = (sign, chars)).
Proof.
  intros Ht Hs Hd Hl Hpost. unfold integer_digits. rewrite <- (app_nil_r body). eapply reads_bind.
  - apply reads_looping. intros n Hn. eapply (reads_integer_loop _ chars); try done. rewrite length_app in Hn. lia.
  - intros [cs prev] [Hcs Hp]. cbn [fst snd] in Hcs, Hp. subst cs. rewrite Hp.
    by apply (reads_bind _ _ [] [] _ (λ _, True)); [apply reads_ret|intros; apply reads_ret].
Qed.

Lemma reads_integer_text t neg chars lit post :
  t ∈ all_traits → integer_literal t neg chars lit → Forall (λ b, tr_is_digit t (U b) = true) chars →
  (length chars ≤ tr_buffer_length t)%nat → terminated post →
  reads (integer_text t) lit post (λ r, r = (sign_of neg, chars)).
Proof.
  intros Ht [neg' st chars' body Hst Hsigned Hs] Hd Hl Hpost. unfold integer_text. rewrite app_assoc.
  eapply reads_bind; [by eapply reads_integer_head|]. intros ? ->. by apply reads_integer_digits.
Qed.

(** *** More digits than there are places for *)
Lemma raises_integer_loop t chars body n acc prev post :
  t ∈ all_traits → separated chars body → Forall (λ b, tr_is_digit t (U b) = true) chars →
  (length acc ≤ tr_buffer_length t < length acc + length chars)%nat → (length body < n)%nat →
  raises (integer_loop t n acc prev) (body ++ post).
Proof.
  intros Ht Hs. revert n acc prev.
  assert (∀ b rest n acc prev, tr_is_digit t (U b) = true → (length acc ≤ tr_buffer_length t)%nat →
    ((length acc < tr_buffer_length t)%nat → raises (integer_loop t n (acc ++ [b]) (Some (U b))) rest) →
    raises (integer_loop t (S n) acc prev) (U b :: rest)) as Hdigit.
  { intros b rest n acc prev Hb Hl Hrest. destruct (digit_char t b Ht Hb) as (Ha & Hv & Hu & _). cbn [integer_loop].
    apply raises_gets_cp. intros x Hx [_ Hbx]. rewrite Hx, Hv, Hu, Hb. cbn [negb]. rewrite andb_false_r.
    destruct (Nat.eqb_spec (length acc) (tr_buffer_length t)); [apply raises_set_error|].
    apply raises_advance. assert (byte0 x = b) as -> by (unfold byte0; by rewrite Hbx, Hx, encode_ascii).
    apply Hrest. lia. }
  induction Hs as [b|b chars rest Hs IH|b chars rest Hs IH]; intros [|n] acc prev Hd Hl Hn;
    cbn [length app] in *; try lia; inversion Hd as [|? ? Hb Hd']; subst; apply Hdigit; try done; try lia; intros Hlt.
  - apply IH; [done|rewrite length_app; cbn; lia|lia].
  - destruct n as [|n]; [lia|]. cbn [integer_loop app]. apply raises_gets_cp. intros x Hx _. rewrite Hx.
    change (is_value_terminator (U "_")) with false. rewrite Z.eqb_refl. cbn [from_option]. rewrite Hb. cbn [negb].
    destruct (separated_not_nil _ _ Hs) as [_ Hne]. apply (raises_after _ _ [U "_"] _ (λ _, True)).
    + apply reads_advance_not_eof_last. by destruct rest.
    + intros _ _. apply IH; [done|rewrite length_app; cbn; lia|lia].
Qed.

Lemma raises_integer_text t neg chars lit post :
  t ∈ all_traits → integer_literal t neg chars lit → Forall (λ b, tr_is_digit t (U b) = true) chars →
  (tr_buffer_length t < length chars)%nat → raises (integer_text t) (lit ++ post).
Proof.
  intros Ht [neg' st chars' body Hst Hsigned Hs] Hd Hl. unfold integer_text.
  replace ((st ++ prefix_text t ++ body) ++ post) with ((st ++ prefix_text t) ++ body ++ post) by (by rewrite <- !app_assoc).
  eapply raises_after; [by eapply reads_integer_head|]. intros ? ->. unfold integer_digits. apply raises_first, raises_looping.
  intros n Hn. eapply raises_integer_loop; try done; [cbn; lia|]. rewrite length_app in Hn. lia.
Qed.

Section literals.
Context (t : integer_traits) (neg : bool) (chars : bytes) (lit post : list Z).
Context (Ht : t ∈ all_traits) (Hlit : integer_literal t neg chars lit) (Hd : Forall (λ b, tr_is_digit t (U b) = true) chars).
Context (Hl : (length chars ≤ tr_buffer_length t)%nat) (Hpost : terminated post).
(** [parse_value] calls [parse_integer] with a sign only for two digits or more. *)
Context (Hneg : neg = true → (1 < length chars)%nat).
Context (Hzero : tr_base t = 10 → head chars ≠ Some "0"%byte).

Let v : Z := digits_value (tr_base t) (digit_value t <$> chars).

(** Up to the digits' value, a literal is read without error. *)
Lemma parse_integer_run s k past :
  at_text s k past (lit ++ post) →
  ∃ s1 past', at_text s1 (k - length lit) (past ++ past') post ∧
    value <$> past' = lit ∧ keeps (set_scope (tr_scope_qualifier t) s) s1 ∧
    parse_integer t s = match integer_value t (sign_of neg) chars s1 with
                        | Done z s2 => Done z (set_scope (current_scope s) s2)
                        | Throws e => Throws e
                        | Undefined u => Undefined u
                        | OutOfFuel => OutOfFuel
                        end.
Proof using Ht Hlit Hd Hl Hpost Hneg.
  intros Hat. destruct (reads_integer_text t neg chars lit post Ht Hlit Hd Hl Hpost
    (set_scope (tr_scope_qualifier t) s) k past) as (r & s1 & past' & Hr & -> & Hat1 & Hv1 & Hk1);
    [by apply (at_text_same s)|].
  exists s1, past'. split_and!; try done. rewrite parse_integer_text. unfold scoped, gets, modify, mbind, P_bind.
  rewrite Hr. cbn [fst snd]. by destruct (integer_value _ _ _ _).
Qed.

Lemma literal_sign :
  sign_of neg = 1 ∨ (sign_of neg = -1 ∧ tr_is_signed t = true ∧ (1 < length chars)%nat).
Proof using Hneg Hlit.
  unfold sign_of. destruct neg; [right|by left]. split_and!; [done| |by apply Hneg].
  inversion Hlit as [? st ? ? Hst Hsigned]. apply Hsigned. by inversion Hst.
Qed.

Lemma reads_parse_integer :
  v < 2 ^ 63 → reads (parse_integer t) lit post (λ z, z = sign_of neg * v).
Proof using Ht Hlit Hd Hl Hpost Hneg Hzero.
  intros Hv s k past Hat. destruct (parse_integer_run s k past Hat) as (s1 & past' & Hat1 & Hv1 & [] & ->).
  destruct (integer_value_exact t (sign_of neg) chars s1 Ht Hd Hl literal_sign Hzero) as [Hfits _].
  rewrite (Hfits Hv). do 3 eexists. split; [done|]. split; [done|]. split; [by apply (at_text_same s1)|].
  split; [done|]. by split.
Qed.

End literals.

(** The digits a base has room for: 63 binary, 21 octal, 19 decimal, 16
    hexadecimal ones, and no zero at the front of decimal ones ([parse_value] does
    not come here for a single zero). *)
Definition readable_digits (t : integer_traits) (chars : bytes) : Prop :=
  (length chars ≤ tr_buffer_length t)%nat ∧ (tr_base t = 10 → head chars ≠ Some "0"%byte).

(** C20: what becomes of every integer literal: at its text, in any of the four
    bases, signed or not and with underscores between its digits or without,
    followed by what ends a value, [parse_integer] returns the value of the digits
    with their sign and stands behind the literal exactly when the base has room
    for the digits (leading zeros of the other bases count), a decimal one does
    not begin with zero, and the value is below [2^63]; [-2^63] passes the range
    check and is then negated out of range; everything else throws. A minus sign
    stands before at least two digits: [parse_value] reads the decimal integers
    of one digit, signed or not, itself. *)
Theorem parse_integer_exact t neg chars lit post s k past :
  t ∈ all_traits → integer_literal t neg chars lit → Forall (λ b, tr_is_digit t (U b) = true) chars →
  terminated post → (neg = true → (1 < length chars)%nat) →
  at_text s k past (lit ++ post) →
  let v := digits_value (tr_base t) (digit_value t <$> chars) in
  (readable_digits t chars ∧ v < 2 ^ 63 → ∃ s' past', parse_integer t s = Done (sign_of neg * v) s' ∧
     at_text s' (k - length lit) (past ++ past') post) ∧
  (readable_digits t chars ∧ v = 2 ^ 63 ∧ neg = true → parse_integer t s = Undefined SignedOverflow) ∧
  (¬ readable_digits t chars ∨ 2 ^ 63 < v ∨ (v = 2 ^ 63 ∧ neg = false) → ∃ e, parse_integer t s = Throws e).
Proof.
  intros Ht Hlit Hd Hpost Hneg Hat v. split_and!.
  - intros [[Hl Hz] Hv]. destruct (reads_parse_integer t neg chars lit post Ht Hlit Hd Hl Hpost Hneg Hz Hv s k past Hat)
      as (z & s' & past' & Hr & -> & Hat' & _). eauto.
  - intros ([Hl Hz] & Hv & Hn). destruct (parse_integer_run t neg chars lit post Ht Hlit Hd Hl Hpost Hneg s k past Hat)
      as (s1 & past' & _ & _ & _ & ->).
    destruct (integer_value_exact t (sign_of neg) chars s1 Ht Hd Hl (literal_sign t neg chars lit Hlit Hneg) Hz) as (_ & Hmin & _).
    rewrite Hmin; [done|done|by rewrite Hn].
  - intros Hbad. destruct (decide (length chars ≤ tr_buffer_length t)%nat) as [Hl|Hl].
    2: { rewrite parse_integer_text. eapply raises_scoped, Hat. apply raises_first.
         apply (raises_integer_text t neg chars); [done..|lia]. }
    destruct (parse_integer_run t neg chars lit post Ht Hlit Hd Hl Hpost Hneg s k past Hat) as (s1 & past' & _ & _ & _ & ->).
    destruct (decide (tr_base t = 10 ∧ head chars = Some "0"%byte)) as [[Hb Hz]|Hz].
    { unfold integer_value. rewrite Hb, bool_decide_true by done. eexists. reflexivity. }
    destruct (integer_value_exact t (sign_of neg) chars s1 Ht Hd Hl (literal_sign t neg chars lit Hlit Hneg)) as (_ & _ & Hbig);
      [by intros Hb Hh; apply Hz|].
    destruct Hbig as [e He]; [|rewrite He; eauto].
    destruct Hbad as [Hr|[Hv|[Hv ->]]]; [exfalso; apply Hr; split; [done|by intros Hb Hh; apply Hz]|left; fold v; lia|by right].
Qed.

Definition min_int64_digits : bytes := bs "9223372036854775808".
Definition min_int64_text : list Z := zs (bs "-9_223_372_036_854_775_808").

Lemma min_int64_literal : integer_literal decimal_traits true min_int64_digits min_int64_text.
Proof.
  apply (literal_intro decimal_traits true [U "-"] min_int64_digits (zs (bs "9_223_372_036_854_775_808"))); [constructor|done|].
  repeat first [apply separated_last|apply separated_underscore|apply separated_more].
Qed.

Lemma parse_integer_exact_witness :
  ∃ s, at_text s 0 [] (min_int64_text ++ [10]) ∧ parse_integer decimal_traits s = Undefined SignedOverflow.
Proof.
  assert (Forall scalar (min_int64_text ++ [10])) as Hsc.
  { apply List.Forall_forall. intros c Hc. left. cbn in Hc. repeat destruct Hc as [<-|Hc]; [vm_compute; split; congruence..|done]. }
  destruct (at_start (min_int64_text ++ [10]) []) as (s & _ & Hat & _); [done|exact Hsc|reflexivity|].
  exists s. split; [exact Hat|].
  refine (proj1 (proj2 (parse_integer_exact decimal_traits true min_int64_digits min_int64_text [10] s 0 [] _ min_int64_literal _ _ _ Hat)) _).
  - unfold all_traits. set_solver.
  - apply List.Forall_forall. intros b Hb. cbn in Hb. by repeat destruct Hb as [<-|Hb].
  - reflexivity.
  - intros _. vm_compute. lia.
  - split; [|split; [vm_compute; reflexivity|reflexivity]].
    split; [vm_compute; lia|discriminate].
Defined.

(** Tests of known traits are computed. *)
Ltac compute_traits :=
  repeat match goal with
  | |- context [traits.has_any ?t ?l] => let v := eval vm_compute in (traits.has_any t l) in change (traits.has_any t l) with v
  end.

(** ** Decimal integers as values *)
Section decimal.
Import traits.

Definition first_traits (st : list Z) (chars : bytes) : Z :=
  match st with
  | [] => if decide (head chars = Some "0"%byte) then begins_zero else begins_digit
  | _ => begins_sign
  end.

(** The traits of a literal. *)
Definition sign_traits (st : list Z) : Z :=
  match st with [] => 0 | c :: _ => if c =? U "+" then has_plus else has_minus end.
Definition literal_traits (st : list Z) (chars : bytes) : Z :=
  Z.lor (Z.lor (first_traits st chars) (sign_traits st)) has_digits.

Lemma scan_underscore sc : sc_eof sc = false →
  scan_step sc (U "_") = mk_scanned (sc_chars sc) (sc_traits sc) (sc_advance_count sc + 1) false.
Proof. done. Qed.

Lemma scan_digits chars body sc :
  separated chars body → Forall (λ b, is_decimal_digit (U b) = true) chars → sc_eof sc = false →
  foldl scan_step sc body =
    mk_scanned (sc_chars sc ++ zs chars) (Z.lor (sc_traits sc) has_digits)
      (sc_advance_count sc + Z.of_nat (length body)) false.
Proof.
  assert (∀ b sc, is_decimal_digit (U b) = true → scan_step sc (U b) =
    mk_scanned (sc_chars sc ++ [U b]) (Z.lor (sc_traits sc) has_digits) (sc_advance_count sc + 1) false) as Hstep.
  { clear sc. intros b sc Hb. unfold scan_step, scan_char, char_traits. rewrite Hb.
    destruct (digit_char decimal_traits b) as (_ & _ & -> & _); [unfold all_traits; set_solver|done|]. done. }
  intros Hs. revert sc. induction Hs as [b|b chars rest Hs IH|b chars rest Hs IH]; intros sc Hd Heof; inversion Hd as [|? ? Hb Hd']; subst;
    cbn [foldl length zs fmap list_fmap]; rewrite (Hstep b) by done; [done| |rewrite scan_underscore by done]; fold (zs chars);
    rewrite IH by done; cbn [sc_chars sc_traits sc_advance_count]; (f_equal; [by rewrite <- app_assoc|by rewrite <- Z.lor_assoc, Z.lor_diag|lia]).
Qed.

Lemma scan_literal neg st chars body :
  sign_text neg st → separated chars body → Forall (λ b, is_decimal_digit (U b) = true) chars →
  foldl scan_step (mk_scanned [] (first_traits st chars) 0 false) (st ++ body) =
    mk_scanned (st ++ zs chars) (literal_traits st chars) (Z.of_nat (length (st ++ body))) false.
Proof.
  intros Hst Hs Hd. unfold literal_traits. destruct Hst; cbn [app foldl].
  - rewrite (scan_digits chars) by done. cbn [sign_traits]. by rewrite Z.lor_0_r.
  - change (scan_step (mk_scanned [] (first_traits [U "+"] chars) 0 false) (U "+"))
      with (mk_scanned [U "+"] (Z.lor begins_sign has_plus) 1 false).
    rewrite (scan_digits chars) by done. f_equal. cbn [length sc_advance_count]. lia.
  - change (scan_step (mk_scanned [] (first_traits [U "-"] chars) 0 false) (U "-"))
      with (mk_scanned [U "-"] (Z.lor begins_sign has_minus) 1 false).
    rewrite (scan_digits chars) by done. f_equal. cbn [length sc_advance_count]. lia.
Qed.

Lemma decimal_digit_exact b : is_decimal_digit (U b) = true → digit_value decimal_traits b = U b - U "0".
Proof.
  unfold is_decimal_digit, digit_value. intros Hb. change (tr_base decimal_traits =? 16) with false. cbv iota.
  unfold u64. rewrite Z.mod_small; [done|]. change (U "0") with 48 in *. change (U "9") with 57 in *. lia.
Qed.

(** The value of a decimal literal. *)
Definition decimal_value (chars : bytes) : Z := digits_value 10 (digit_value decimal_traits <$> chars).

Lemma decimal_value_digit b : is_decimal_digit (U b) = true → decimal_value [b] = U b - U "0".
Proof.
  intros Hb. unfold decimal_value. cbn [fmap list_fmap]. rewrite decimal_digit_exact by done. unfold digits_value. cbn. lia.
Qed.

(** No character of a literal ends a value. *)
Lemma separated_in_value t chars body :
  t ∈ all_traits → separated chars body → Forall (λ b, tr_is_digit t (U b) = true) chars →
  Forall (λ c, is_value_terminator c = false) body.
Proof.
  intros Ht Hs. induction Hs as [b|b chars rest Hs IH|b chars rest Hs IH]; intros Hd; inversion Hd as [|? ? Hb Hd']; subst;
    (constructor; [by apply (digit_char t b)|]).
  - constructor.
  - auto.
  - constructor; [done|auto].
Qed.

(** One digit with a sign. *)
Lemma reads_signed_digit neg st b n e post :
  sign_text neg st → st ≠ [] →
  reads (fuzzy_match (mk_scanned (st ++ [U b]) (literal_traits st [b]) n e)) (st ++ [U b]) post
    (λ r, r = Some (VInteger (sign_of neg * (U b - U "0")) no_flags no_region)).
Proof.
  intros Hst Hne. unfold fuzzy_match, literal_traits. destruct Hst; [done|..]; cbn [first_traits sign_traits app sc_traits];
    compare_chars; compute_traits; cbv iota;
    (match goal with |- context [char_count ?sc =? 2] => change (char_count sc =? 2) with true end); cbn [orb andb];
    do 3 rd; do 2 f_equal; change (char_at _ 1) with (U b).
  - change (char_at _ 0) with (U "+"). compare_chars. unfold sign_of. lia.
  - change (char_at _ 0) with (U "-"). compare_chars. unfold sign_of. lia.
Qed.

(** Two digits or more are left to the switch over the traits, which knows them. *)
Lemma reads_fuzzy_long neg st b b' chars n e post :
  sign_text neg st → is_decimal_digit (U b) = true → is_decimal_digit (U b') = true → b ≠ "0"%byte →
  let cs := b :: b' :: chars in
  reads (fuzzy_match (mk_scanned (st ++ zs cs) (literal_traits st cs) n e)) [] post (λ r, r = None).
Proof.
  intros Hst Hb Hb' Hnz cs. assert (decimal_traits ∈ all_traits) as Ht by (unfold all_traits; set_solver).
  destruct (digit_char decimal_traits b Ht Hb) as (_ & _ & _ & _ & _ & Hm1 & _).
  destruct (digit_char decimal_traits b' Ht Hb') as (_ & _ & _ & _ & _ & _ & Hm3).
  assert (∀ s0, (Z.of_nat (length (s0 :: zs cs)) =? 2) = false) as Hlen by (intros s0; apply Z.eqb_neq; cbn; lia).
  unfold fuzzy_match, literal_traits. cbn [sc_traits]. unfold char_count. cbn [sc_chars].
  destruct Hst; cbn [app first_traits sign_traits]; compare_chars.
  - rewrite decide_False by (cbn; congruence). compute_traits. cbv iota. change (char_at _ 1) with (U b').
    rewrite Hm3. by apply reads_ret.
  - compute_traits. cbv iota. change (char_at _ 1) with (U b). change (char_at _ 2) with (U b').
    rewrite Hm1, Hm3, andb_false_r, Hlen. by apply reads_ret.
  - compute_traits. cbv iota. change (char_at _ 1) with (U b). change (char_at _ 2) with (U b').
    rewrite Hm1, Hm3, andb_false_r, Hlen. by apply reads_ret.
Qed.

Lemma exact_match_decimal neg st chars :
  sign_text neg st → head chars ≠ Some "0"%byte → exact_match (literal_traits st chars) = new_integer decimal_traits no_flags.
Proof.
  intros Hst Hnz. unfold literal_traits. destruct Hst; cbn [first_traits]; [rewrite decide_False by done|..]; reflexivity.
Qed.

Lemma reads_number neg st chars body post :
  sign_text neg st → separated chars body → Forall (λ b, is_decimal_digit (U b) = true) chars → (length chars ≤ 19)%nat →
  ((1 < length chars)%nat → head chars ≠ Some "0"%byte) → ends_value post → decimal_value chars < 2 ^ 63 →
  reads (parse_number_like (first_traits st chars)) (st ++ body) post
    (λ r, r = Some (VInteger (sign_of neg * decimal_value chars) no_flags no_region)).
Proof.
  intros Hst Hs Hd Hl Hzero Hpost Hv. assert (decimal_traits ∈ all_traits) as Ht by (unfold all_traits; set_solver).
  pose proof (separated_length _ _ Hs) as Hlen. assert (length st ≤ 1)%nat as Hst1 by (by destruct Hst; cbn; lia).
  unfold parse_number_like. pose proof (scan_literal neg st chars body Hst Hs Hd) as Hscan.
  apply reads_scan_value; rewrite ?Hscan; try done.
  { destruct (separated_not_nil _ _ Hs) as [_ Hne]. by destruct st. }
  { apply Forall_app. split; [destruct Hst; by repeat constructor|by apply (separated_in_value decimal_traits chars)]. }
  { rewrite length_app. lia. }
  intros e. unfold set_eof. cbn [sc_chars sc_traits sc_advance_count]. unfold char_count. cbn [sc_chars].
  destruct chars as [|b [|b' chars]]; [by apply separated_not_nil in Hs as []|..].
  - inversion Hd as [|? ? Hb _]; subst. rewrite decimal_value_digit by done.
    assert (body = [U b]) as -> by (inversion Hs as [|? ? ? H|? ? ? H]; subst; [done|by apply separated_not_nil in H as []..]).
    change (zs [b]) with [U b]. destruct (decide (st = [])) as [->|Hne].
    + assert (neg = false) as -> by (by inversion Hst). cbn [app]. change (Z.of_nat (length [U b]) =? 1) with true. cbv iota.
      assert (has_any (literal_traits [] [b]) [begins_zero; begins_digit] = true) as ->.
      { unfold literal_traits, first_traits. by case_decide. }
      rd. apply reads_ret. unfold sign_of. do 2 f_equal. change (char_at _ 0) with (U b). lia.
    + rewrite (proj2 (Z.eqb_neq _ _)) by (rewrite length_app; destruct st; [done|cbn; lia]).
      rewrite <- (app_nil_r (st ++ [U b])) at 3. eapply reads_bind; [by eapply reads_signed_digit|].
      intros r ->. by apply reads_ret.
  - rewrite (proj2 (Z.eqb_neq _ 1)) by (rewrite length_app; unfold zs; rewrite length_fmap; cbn; lia).
    inversion Hd as [|? ? Hb Hd']; subst. inversion Hd' as [|? ? Hb' _]; subst.
    assert (head (b :: b' :: chars) ≠ Some "0"%byte) as Hnz by (apply Hzero; cbn; lia).
    apply (reads_bind _ _ [] (st ++ body) _ (λ r, r = None)); [by eapply reads_fuzzy_long; [..|cbn in Hnz; congruence]|].
    intros r ->. erewrite exact_match_decimal by done. unfold new_integer. rewrite <- (app_nil_r (st ++ body)).
    eapply reads_bind; [apply (reads_parse_integer _ neg (b :: b' :: chars)); try done|].
    + apply (literal_intro decimal_traits neg st _ body); done.
    + apply Hpost.
    + intros _. cbn. lia.
    + intros z ->. by apply reads_ret.
Qed.

(** ** The printer's integers *)
Lemma dec_digits_spec n z :
  0 ≤ z < 10 ^ Z.of_nat n → (0 < n)%nat →
  digits_value 10 (dec_digits n z) = z ∧ Forall (λ d, 0 ≤ d < 10) (dec_digits n z) ∧
  (length (dec_digits n z) ≤ n)%nat ∧ dec_digits n z ≠ [] ∧
  ((1 < length (dec_digits n z))%nat → 0 < default 0 (head (dec_digits n z))).
Proof.
  revert z. induction n as [|n IH]; intros z Hz Hn; [lia|]. cbn [dec_digits].
  destruct (Z.ltb_spec z 10) as [Hlt|Hge].
  { split; [unfold digits_value; cbn; lia|]. split; [by repeat constructor; lia|]. cbn. split_and!; [lia|done|lia]. }
  rewrite Nat2Z.inj_succ, Z.pow_succ_r in Hz by lia.
  destruct n as [|n]; [cbn in Hz; lia|].
  destruct (IH (z / 10)) as (H1 & H2 & H3 & H4 & H5); [Z.to_euclidean_division_equations; lia|lia|].
  set (ds := dec_digits (S n) (z / 10)) in *. clearbody ds. split_and!.
  - unfold digits_value in *. rewrite foldl_app, H1. cbn. Z.to_euclidean_division_equations. lia.
  - apply Forall_app. split; [done|]. constructor; [|constructor]. Z.to_euclidean_division_equations. lia.
  - rewrite length_app. cbn [length]. lia.
  - by destruct ds.
  - intros _. destruct ds as [|d [|d' ds']]; [done| |apply H5; cbn; lia]. cbn.
    unfold digits_value in H1. cbn in H1. Z.to_euclidean_division_equations. lia.
Qed.

Lemma digit_byte d : 0 ≤ d < 10 → U (byte_of_Z (U "0" + d)) = U "0" + d.
Proof. intros Hd. unfold U at 1. rewrite byte_to_of_Z. change (U "0") with 48. apply Z.mod_small. lia. Qed.

Lemma dec_bytes_spec z :
  0 ≤ z < 2 ^ 63 →
  Forall (λ b, is_decimal_digit (U b) = true) (dec_bytes z) ∧ dec_bytes z ≠ [] ∧ (length (dec_bytes z) ≤ 19)%nat ∧
  ((1 < length (dec_bytes z))%nat → head (dec_bytes z) ≠ Some "0"%byte) ∧ decimal_value (dec_bytes z) = z.
Proof.
  intros Hz. destruct (dec_digits_spec 19 z) as (H1 & H2 & H3 & H4 & H5); [cbn; lia|lia|].
  unfold dec_bytes. set (ds := dec_digits 19 z) in *. clearbody ds. rewrite length_fmap.
  assert (∀ d, 0 ≤ d < 10 → is_decimal_digit (U "0" + d) = true) as Hdig.
  { intros d Hd. unfold is_decimal_digit. change (U "0") with 48. change (U "9") with 57. lia. }
  split_and!; [| |done| |].
  - apply Forall_fmap. eapply Forall_impl; [exact H2|]. intros d Hd. cbn. rewrite digit_byte by done. auto.
  - by destruct ds.
  - intros Hl. specialize (H5 Hl). destruct ds as [|d ds]; [done|]. inversion H2; subst. cbn in *.
    intros [= He]. apply (f_equal U) in He. rewrite digit_byte in He by done. lia.
  - unfold decimal_value. rewrite <- H1. f_equal. rewrite <- list_fmap_compose. rewrite <- (list_fmap_id ds) at 2.
    apply list_fmap_ext. intros i d Hi. eapply Forall_lookup_1 in H2; [|done].
    change (digit_value decimal_traits (byte_of_Z (U "0" + d)) = d).
    rewrite decimal_digit_exact by (rewrite digit_byte by done; auto). rewrite digit_byte by done. lia.
Qed.

Lemma digit_of_decimal b d : digit_of b = Some d → d < 10 → is_decimal_digit (U b) = true ∧ d = U b - U "0".
Proof.
  unfold digit_of, is_decimal_digit. intros Hd Hlt. destruct ((U "0" <=? U b) && (U b <=? U "9")) eqn:H; [by injection Hd as <-|].
  exfalso. repeat case_match; try done; injection Hd as <-; change (U "a") with 97 in *; change (U "A") with 65 in *; lia.
Qed.

Lemma decimal_chars chars ds :
  mapM digit_of chars = Some ds → Forall (λ d, d < 10) ds →
  Forall (λ b, is_decimal_digit (U b) = true) chars ∧ decimal_value chars = number 10 ds ∧ (head chars = Some "0"%byte → head ds = Some 0).
Proof.
  intros Hm Hd. apply mapM_Some in Hm. split_and!.
  - induction Hm as [|b d chars ds Hb _ IH]; constructor; inversion Hd; subst; [by eapply digit_of_decimal|auto].
  - unfold decimal_value, digits_value, number. f_equal.
    induction Hm as [|b d chars ds Hb _ IH]; [done|]. inversion Hd; subst. rewrite fmap_cons, IH by done. f_equal.
    destruct (digit_of_decimal _ _ Hb) as [Hdig ->]; [done|]. by rewrite decimal_digit_exact.
  - destruct Hm as [|b d chars ds Hb _]; [done|]. intros [= ->]. by injection Hb as <-.
Qed.

(** A decimal integer as it is written. *)
Lemma reads_decimal z t post :
  decimal_text z t → ends_value post →
  ∃ c t', t = c :: t' ∧
    (is_decimal_digit c || is_match c ["+"; "-"]%byte) = true ∧
    reads (parse_number_like (if is_decimal_digit c then (if c =? U "0" then begins_zero else begins_digit) else begins_sign)) t post
      (λ r, r = Some (VInteger z no_flags no_region)).
Proof.
  intros [neg st chars ds body Hst Hm Hd Hs Hl Hz Hv] Hpost. destruct (decimal_chars _ _ Hm Hd) as (Hdig & Hval & Hhead).
  destruct (separated_head _ _ Hs) as (b & rest & Hbody & Hb). rewrite <- Hval in Hv |- *.
  assert (is_decimal_digit (U b) = true) as Hbd by (destruct chars; [done|]; injection Hb as ->; by inversion Hdig).
  assert (length chars = length ds) as Hlen by (apply mapM_Some in Hm; by eapply Forall2_length).
  pose proof (reads_number neg st chars body post Hst Hs Hdig Hl ltac:(rewrite Hlen; intros H0 Hh; by apply (Hz H0), Hhead) Hpost Hv) as Hr.
  replace (if neg then - decimal_value chars else decimal_value chars) with (sign_of neg * decimal_value chars) by (destruct neg; unfold sign_of; lia).
  destruct Hst; cbn [app first_traits] in *.
  - exists (U b), rest. split; [done|]. rewrite Hbd. split; [done|]. rewrite Hb in Hr.
    destruct (Z.eqb_spec (U b) (U "0")) as [Heq|Hneq].
    + rewrite decide_True in Hr; [done|]. f_equal. by apply byte_to_Z_inj.
    + rewrite decide_False in Hr; [done|]. by intros [= ->].
  - exists (U "+"), body. by split.
  - exists (U "-"), body. by split.
Qed.

(** What the formatter writes is such an integer. *)
Lemma decimal_text_of z : Z.abs z < 2 ^ 63 → decimal_text z (decimal z).
Proof.
  intros Hz. destruct (dec_digits_spec 19 (Z.abs z)) as (H1 & H2 & H3 & H4 & H5); [cbn; lia|lia|]. unfold decimal, dec_bytes.
  set (ds := dec_digits 19 (Z.abs z)) in *. clearbody ds.
  assert (mapM digit_of ((λ d, byte_of_Z (U "0" + d)) <$> ds) = Some ds) as Hm.
  { apply mapM_Some, Forall2_fmap_l. clear -H2. induction H2 as [|d ds Hd _ IH]; constructor; [|done].
    unfold digit_of, compose. cbv beta zeta. rewrite digit_byte by done. change (U "0") with 48. change (U "9") with 57.
    rewrite (proj2 (Z.leb_le _ _)), (proj2 (Z.leb_le _ _)) by lia. cbn [andb]. f_equal. lia. }
  assert (number 10 ds = Z.abs z) as Hn by exact H1.
  replace z with (if z <? 0 then - number 10 ds else number 10 ds) at 1 by (rewrite Hn; destruct (Z.ltb_spec z 0); lia).
  apply (signed_decimal (z <? 0) _ ((λ d, byte_of_Z (U "0" + d)) <$> ds) ds (zs ((λ d, byte_of_Z (U "0" + d)) <$> ds))).
  - destruct (z <? 0); constructor.
  - done.
  - eapply Forall_impl; [exact H2|]. cbn. lia.
  - apply separated_plain. by destruct ds.
  - by rewrite length_fmap.
  - intros Hl Hh. specialize (H5 Hl). rewrite Hh in H5. cbn in H5. lia.
  - by rewrite Hn.
Qed.
End decimal.
