(* ===== verification/TomlKeys.v ===== *)
(** * TomlKeys: keys read from a text

    What the parser makes of keys, bare, quoted and dotted, as the texts of
    [TomlGrammar.v] have them. *)
From Stdlib Require Import SpecFloat.
From S2P Require Import Prelude Bytes Env TomlNode TomlUtf8 TomlReader TomlParser TomlScalar TomlDocument TomlExact TomlText TomlGrammar TomlBlanks TomlStrings TomlNumbers.

Local Open Scope Z_scope.

(** ** Keys *)
Definition follows_key (c : Z) : bool := negb (is_bare_key_character c) && negb (is_string_delimiter c).

Lemma follows_key_spec c :
  follows_key c = true → is_bare_key_character c = false ∧ c ≠ U x22 ∧ c ≠ U "'".
Proof. unfold follows_key. rewrite andb_true_iff, !negb_true_iff. intros [? ?]. split_and!; [done|by intros ->..]. Qed.

Lemma bare_char_nonzero c : is_bare_key_character c = true → c ≠ 0.
Proof. intros H ->. discriminate. Qed.

Lemma reads_bare_key_loop k n seg post :
  Forall (λ c, is_bare_key_character c = true) k → begins (negb ∘ is_bare_key_character) post → (length k < n)%nat →
  reads (bare_key_loop n seg) k post (λ r, r = seg ++ encode_text k).
Proof.
  intros Hk Hpost. revert n seg. induction Hk as [|c k Hc Hk IH]; intros [|n] seg Hn; cbn in Hn; try lia;
    cbn [bare_key_loop].
  - destruct post as [|p post].
    + apply reads_gets_cp_end, reads_ret. by rewrite app_nil_r.
    + eapply reads_gets_cp; [reflexivity|]. intros x Hx _. cbn in Hpost. rewrite Hx, Hpost. rd. by rewrite app_nil_r.
  - eapply reads_gets_cp; [reflexivity|]. intros x Hx Hp. rewrite Hx, Hc. cbn [negb]. rd.
    rewrite as_view_proper by (done || (rewrite Hx; by apply bare_char_nonzero)). rewrite Hx.
    eapply reads_mono; [apply IH; lia|]. intros r ->. by rewrite encode_text_cons, app_assoc.
Qed.

Lemma is_bare_spec k : is_bare k = true → k ≠ [] ∧ Forall (λ c, is_bare_key_character c = true) k.
Proof.
  unfold is_bare. rewrite andb_true_iff, negb_true_iff, bool_decide_eq_false, forallb_forall. intros [Hk Hf].
  split; [done|]. apply List.Forall_forall. auto.
Qed.

Lemma string_text_cons k t : string_text k t → ∃ c t', t = c :: t' ∧ is_string_delimiter c = true.
Proof. by intros [b t' _|cs _]; eexists _, _. Qed.

(** The first character of a key. *)
Definition starts_key (c : Z) : bool := is_bare_key_character c || is_string_delimiter c.

Lemma key_text_cons k t : key_text k t → ∃ c t', t = c :: t' ∧ starts_key c = true.
Proof.
  unfold starts_key. intros [cs Hb|? ? (c & t' & -> & Hc)%string_text_cons]; [|exists c, t'; by rewrite Hc, orb_true_r].
  apply is_bare_spec in Hb as [Hne Hf]. destruct cs as [|c cs]; [done|]. inversion Hf as [|? ? Hc _]; subst.
  exists c, cs. by rewrite Hc.
Qed.

Lemma starts_key_spec c :
  starts_key c = true → not_blank c = true ∧ (c =? U ",") = false ∧ (c =? U "[") = false ∧ (c =? U "]") = false ∧
    (c =? U "}") = false ∧ 0 ≤ c < 0x80.
Proof. unfold starts_key, not_blank. intros Hc. split_and!; by character_classes. Qed.

Lemma path_text_cons ks t : path_text ks t → ∃ c t', t = c :: t' ∧ starts_key c = true.
Proof.
  intros [k kt Hk|k kt b1 b2 ks' ts Hk _ _ _]; destruct (key_text_cons _ _ Hk) as (c & t' & -> & Hc); by eexists c, _.
Qed.

Lemma reads_key_segment k t segs post :
  key_text k t → begins follows_key post → reads (parse_key_segment segs) t post (λ r, r = k).
Proof.
  intros Hk Hpost. unfold parse_key_segment. destruct Hk as [cs Hb|k t Hs].
  - apply is_bare_spec in Hb as [Hne Hf]. destruct cs as [|c cs]; [done|]. inversion Hf as [|? ? Hc Hf']; subst.
    eapply reads_cur; [reflexivity|]. intros x Hx _. rewrite Hx, Hc. unfold parse_bare_key_segment. apply reads_looping.
    intros n Hn. apply (reads_mono _ _ _ (λ r, r = [] ++ encode_text (c :: cs))); [|done].
    apply reads_bare_key_loop; [done| |rewrite length_app in Hn; lia].
    eapply begins_impl; [|exact Hpost]. intros p (Hp & _)%follows_key_spec. cbn. by rewrite Hp.
  - destruct (string_text_cons _ _ Hs) as (c & t' & Ht & Hc).
    eapply reads_cur; [by rewrite Ht|]. intros x Hx _. rewrite Hx.
    assert (is_bare_key_character c = false) as -> by (clear -Hc; by character_classes). rewrite Hc. cbv iota zeta.
    apply reads_modify; [done|]. rewrite <- (app_nil_r t). eapply reads_bind.
    { by apply reads_parse_string; [done|..]; destruct post as [|p post]; try done; cbn in Hpost;
        apply follows_key_spec in Hpost as (_ & H1 & H2); cbn; intros [= ->]. }
    intros r ->. cbv beta iota. apply reads_modify; [done|]. by apply reads_ret.
Qed.

(** What may follow a key and the spaces behind it. *)
Definition ends_key (c : Z) : bool := negb (is_whitespace c) && negb (c =? U ".") && follows_key c.

Lemma ends_key_spec c :
  ends_key c = true → is_whitespace c = false ∧ (c =? U ".") = false ∧ follows_key c = true.
Proof. unfold ends_key. rewrite !andb_true_iff, !negb_true_iff. tauto. Qed.

Lemma begins_spaces b post : spaces b → begins ends_key post → begins follows_key (b ++ post).
Proof.
  intros [|c b' [->| ->] Hb] Hpost; [|done|done]. eapply begins_impl; [|exact Hpost]. by intros c (_ & _ & ?)%ends_key_spec.
Qed.

(** The keys of a dotted key, and the spaces that follow it. *)
Lemma reads_key_loop ks t n segs b post :
  path_text ks t → spaces b → begins ends_key post → (length (t ++ b) < n)%nat →
  reads (key_loop n segs) (t ++ b) post (λ r, r = segs ++ ks).
Proof.
  intros Hks Hb Hpost. revert n segs. induction Hks as [k t Hk|k t b1 b2 ks ts Hk Hb1 Hb2 Hks IH]; intros [|n] segs Hn; try lia;
    cbn [key_loop].
  - eapply reads_bind; [apply reads_key_segment; [done|by apply begins_spaces]|]. intros r ->.
    rewrite <- (app_nil_r b). eapply reads_bind.
    { apply reads_spaces; [done|]. eapply begins_impl; [|exact Hpost]. intros c (Hc & _)%ends_key_spec. cbn. by rewrite Hc. }
    intros _ _. apply (reads_gets _ _ _ _ _ (λ b, b = false)).
    + intros s kk past Hat. destruct post as [|p post]; [by rewrite (at_end _ _ _ Hat)|].
      destruct (at_cur _ _ _ _ _ Hat) as (x & -> & -> & _). unfold begins in Hpost.
      by apply ends_key_spec in Hpost as (_ & Hp & _).
    + intros r ->. by apply reads_ret.
  - rewrite <- !app_assoc. eapply reads_bind; [apply reads_key_segment; [done|]|].
    { destruct Hb1 as [|c b1 [->| ->] _]; done. }
    intros r ->. destruct (path_text_cons _ _ Hks) as (c & t' & Hts & Hc). apply starts_key_spec in Hc as ((Hc & _)%not_blank_spec & _).
    eapply reads_bind; [by apply reads_spaces|].
    intros _ _. apply (reads_gets _ _ _ _ _ (λ b, b = true)).
    { intros s kk past Hat. destruct (at_cur _ _ _ _ _ Hat) as (x & -> & -> & _). done. }
    intros r ->. cbn [negb app]. apply reads_advance_not_eof; [rewrite Hts; by destruct b2|].
    eapply reads_bind; [apply reads_spaces; [done|rewrite Hts; cbn; by rewrite Hc]|].
    intros _ _. apply reads_not_eof; [by rewrite Hts|]. rewrite !length_app in Hn. cbn [length] in Hn.
    eapply reads_mono; [apply IH; rewrite length_app; lia|]. intros r ->. by rewrite <- app_assoc.
Qed.

Lemma reads_parse_key ks t b post :
  path_text ks t → spaces b → begins ends_key post → reads parse_key (t ++ b) post (λ r, r = ks).
Proof.
  intros. apply reads_scoped, reads_modify; [done|]. apply reads_looping. intros n Hn.
  apply (reads_mono _ _ _ (λ r, r = [] ++ ks)); [|done]. apply reads_key_loop; try done.
  rewrite length_app in Hn. lia.
Qed.
