(* ===== verification/TomlTimes.v ===== *)
(** * TomlTimes: dates, times, prefixed integers and words are read back

    The values that the look-ahead recognises by their characters, other than
    decimal integers: what the scan finds in their texts, and what the functions
    of [TomlScalar] make of them. *)
From Stdlib Require Import SpecFloat.
From S2P Require Import Prelude Bytes Env TomlNode TomlUtf8 TomlReader TomlParser TomlScalar TomlDocument TomlExact TomlText TomlGrammar TomlStrings TomlNumbers TomlBlanks TomlKeys.

Local Open Scope Z_scope.

(** ** Words *)
Lemma reads_sequence w post : reads (consume_expected_sequence w) (zs w) post (λ b, b = true).
Proof.
  induction w as [|b w IH]; cbn [consume_expected_sequence zs fmap list_fmap]; [by rd|].
  do 2 rd. rewrite Z.eqb_refl. cbn [negb]. by rd.
Qed.

Lemma reads_terminator post : terminated post → reads expect_value_terminator [] post (λ _, True).
Proof.
  intros Ht. unfold expect_value_terminator. destruct post as [|c post].
  - apply reads_gets_cp_end. by rd.
  - eapply reads_gets_cp; [reflexivity|]. intros x Hx _. cbn in Ht. rewrite Hx, Ht. cbn [negb]. by rd.
Qed.

Lemma reads_word w post : terminated post → reads (expect_word w) (zs w) post (λ _, True).
Proof.
  intros Ht. rewrite <- (app_nil_r (zs w)). eapply reads_bind; [apply reads_sequence|]. intros b ->. cbn [negb].
  apply (reads_bind _ _ [] [] _ (λ _, True)); [by rd|]. intros _ _. apply reads_modify; [done|]. by apply reads_terminator.
Qed.

Lemma reads_boolean (b : bool) post :
  terminated post → reads parse_boolean (zs (if b then bs "true" else bs "false")) post (λ r, r = b).
Proof.
  intros Ht. apply reads_scoped, reads_modify; [done|].
  assert (∃ t, zs (if b then bs "true" else bs "false") ++ post = (if b then U "t" else U "f") :: t) as [t Et]
    by (destruct b; by eexists).
  eapply reads_cur; [exact Et|]. intros x Hx _. rewrite Hx.
  assert (is_match (if b then U "t" else U "f") ["t"; "T"]%byte = b) as -> by by destruct b.
  rewrite <- (app_nil_r (zs _)). eapply reads_bind; [by apply reads_word|]. intros _ _. by rd.
Qed.

(** ** What the scan finds *)
Section scan.
Import traits.

(** The trait of a character of dates and times. *)
Definition trait_of (c : Z) : Z :=
  if is_decimal_digit c then has_digits
  else if c =? U "-" then has_minus
  else if c =? U "+" then has_plus
  else if c =? U ":" then has_colon
  else if c =? U "." then has_dot
  else if c =? U "T" then has_t
  else if c =? U "Z" then has_z
  else 0.

Definition temporal_char (c : Z) : bool :=
  is_decimal_digit c || (c =? U "-") || (c =? U "+") || (c =? U ":") || (c =? U ".") || (c =? U "T") || (c =? U "Z").

Lemma temporal_char_cases (P : Z → Prop) :
  (∀ c, is_decimal_digit c = true → P c) → P (U "-") → P (U "+") → P (U ":") → P (U ".") → P (U "T") → P (U "Z") →
  ∀ c, temporal_char c = true → P c.
Proof.
  intros Hd ? ? ? ? ? ? c Hc. unfold temporal_char in Hc.
  rewrite !orb_true_iff, !Z.eqb_eq in Hc. destruct Hc as [[[[[[Hc| ->]| ->]| ->]| ->]| ->]| ->]; auto.
Qed.

Lemma scan_temporal_step sc c :
  temporal_char c = true →
  scan_step sc c = mk_scanned (sc_chars sc ++ [c]) (Z.lor (sc_traits sc) (trait_of c)) (sc_advance_count sc + 1) false.
Proof.
  revert c. apply temporal_char_cases; try reflexivity. intros c Hc. unfold scan_step, scan_char, char_traits, trait_of. rewrite Hc.
  assert ((c =? U "_") = false) as -> by by character_classes. done.
Qed.

Lemma scan_temporal_from t sc :
  Forall (λ c, temporal_char c = true) t → sc_eof sc = false →
  foldl scan_step sc t =
    mk_scanned (sc_chars sc ++ t) (foldl Z.lor (sc_traits sc) (trait_of <$> t)) (sc_advance_count sc + Z.of_nat (length t)) false.
Proof.
  intros Ht. revert sc. induction Ht as [|c t Hc _ IH]; intros sc He; cbn [foldl fmap list_fmap length].
  - rewrite app_nil_r, Z.add_0_r. destruct sc; cbn in *; by subst.
  - rewrite scan_temporal_step, IH by done. cbn [sc_chars sc_traits sc_advance_count]. rewrite <- app_assoc. f_equal. lia.
Qed.

Lemma scan_temporal t ft :
  Forall (λ c, temporal_char c = true) t →
  foldl scan_step (mk_scanned [] ft 0 false) t = mk_scanned t (foldl Z.lor ft (trait_of <$> t)) (Z.of_nat (length t)) false.
Proof. intros Ht. by rewrite scan_temporal_from. Qed.

Lemma temporal_in_value t : Forall (λ c, temporal_char c = true) t → Forall (λ c, is_value_terminator c = false) t.
Proof.
  intros Ht. eapply Forall_impl; [exact Ht|]. apply temporal_char_cases; try reflexivity. intros c Hc. by character_classes.
Qed.

Lemma digit_plus d : 0 ≤ d < 10 → is_decimal_digit (U "0" + d) = true.
Proof. intros Hd. unfold is_decimal_digit. change (U "0") with 48. change (U "9") with 57. lia. Qed.

Lemma digit_chars_temporal ds : Forall (λ d, 0 ≤ d < 10) ds → Forall (λ c, temporal_char c = true) (digit_chars ds).
Proof.
  intros Hd. apply Forall_fmap. eapply Forall_impl; [exact Hd|]. intros d Hd'. cbv beta. unfold compose, temporal_char.
  by rewrite digit_plus.
Qed.

Lemma digit_chars_traits ds : Forall (λ d, 0 ≤ d < 10) ds → trait_of <$> digit_chars ds = replicate (length ds) has_digits.
Proof.
  induction 1 as [|d ds Hd _ IH]; [done|]. cbn [digit_chars fmap list_fmap length replicate]. rewrite <- IH. f_equal. unfold trait_of.
  by rewrite digit_plus.
Qed.

(** Where no trait gives the value away, the switch decides. *)
Lemma has_any_elem T l t : has_any T l = false → t ∈ l → has_any T [t] = false.
Proof.
  unfold has_any. rewrite !negb_false_iff, !Z.eqb_eq. intros Hn Hl. apply Z.bits_inj'. intros i Hi. rewrite Z.land_spec, Z.bits_0.
  assert (∀ l a, Z.testbit (foldl Z.lor a l) i = Z.testbit a i || existsb (λ t, Z.testbit t i) l) as Hb.
  { clear. induction l as [|t l IH]; intros a; cbn; [by rewrite orb_false_r|]. rewrite IH, Z.lor_spec. by rewrite orb_assoc. }
  apply (f_equal (λ z, Z.testbit z i)) in Hn. rewrite Z.land_spec, Z.bits_0 in Hn. unfold bor in *. rewrite Hb, Z.bits_0 in *.
  cbn [orb existsb] in *. destruct (Z.testbit T i); [|done]. cbn in *. rewrite orb_false_r. rewrite <- not_true_iff_false in Hn |- *.
  intros Ht. apply Hn. apply existsb_exists. exists t. split; [|done]. by apply list_elem_of_In.
Qed.

Lemma reads_temporal first t T post Q :
  Forall (λ c, temporal_char c = true) t → (2 ≤ length t ≤ 70)%nat → t !! 1%nat ≠ Some (U ".") → ends_value post →
  foldl Z.lor first (trait_of <$> t) = T → has_any T [has_p; has_x; has_o; has_b; has_e; begins_sign] = false →
  reads (exact_match T) t post Q → reads (parse_number_like first) t post Q.
Proof.
  intros Ht Hlen Hdot Hpost HT Hany Hm. unfold parse_number_like. pose proof (scan_temporal t first Ht) as Hscan. rewrite HT in Hscan.
  apply reads_scan_value; rewrite ?Hscan; try done; [by destruct t; cbn in Hlen; [lia|]|by apply temporal_in_value|lia|].
  intros e. unfold set_eof, char_count. cbn [sc_chars sc_traits sc_advance_count].
  rewrite (proj2 (Z.eqb_neq _ 1)) by lia. apply (reads_bind _ _ [] t _ (λ r, r = None)); [|by intros r ->].
  unfold fuzzy_match. cbn [sc_traits sc_chars]. pose proof (λ t, has_any_elem T _ t Hany) as Hn.
  rewrite !Hn by set_solver.
  assert ((char_at (mk_scanned t T (Z.of_nat (length t)) e) 1 =? U ".") = false) as ->.
  { unfold char_at. cbn [sc_chars]. destruct (t !! 1%nat) as [c|] eqn:Hc; cbn; [|done]. apply Z.eqb_neq. intros ->. by apply Hdot. }
  rewrite andb_false_r. by apply reads_ret.
Qed.
End scan.

(** ** Numbers of a fixed width *)
Lemma reads_digit_sequence ds post :
  Forall (λ d, 0 ≤ d < 10) ds → reads (consume_digit_sequence (length ds)) (digit_chars ds) post (λ r, r = Some ds).
Proof.
  induction 1 as [|d ds Hd _ IH]; cbn [length consume_digit_sequence]; [by apply reads_ret|].
  change (digit_chars (d :: ds)) with ((U "0" + d) :: digit_chars ds).
  do 2 rd. rewrite digit_plus by done. cbn [negb]. rd. rewrite <- (app_nil_r (digit_chars ds)). eapply reads_bind; [exact IH|].
  intros r ->. apply reads_ret. cbn. do 2 f_equal. lia.
Qed.

Lemma reads_parse_digits what ds n post :
  n = length ds → Forall (λ d, 0 ≤ d < 10) ds → reads (parse_digits n what) (digit_chars ds) post (λ v, v = number 10 ds).
Proof.
  intros -> Hd. unfold parse_digits. rewrite <- (app_nil_r (digit_chars ds)). eapply reads_bind; [by apply reads_digit_sequence|].
  intros r ->. by apply reads_ret.
Qed.

Lemma two_digits n : 0 ≤ n < 100 → Forall (λ d, 0 ≤ d < 10) [n / 10; n mod 10] ∧ number 10 [n / 10; n mod 10] = n.
Proof.
  intros Hn. split; [repeat constructor|unfold number; cbn]; Z.to_euclidean_division_equations; lia.
Qed.

Lemma four_digits n :
  0 ≤ n ≤ 9999 →
  Forall (λ d, 0 ≤ d < 10) [n / 1000; n / 100 mod 10; n / 10 mod 10; n mod 10] ∧
  number 10 [n / 1000; n / 100 mod 10; n / 10 mod 10; n mod 10] = n.
Proof.
  intros Hn. split; [repeat constructor|unfold number; cbn [foldl]]; Z.to_euclidean_division_equations; lia.
Qed.

Lemma reads_two what n post : 0 ≤ n < 100 → reads (parse_digits 2 what) (two n) post (λ v, v = n).
Proof.
  intros Hn. destruct (two_digits n Hn) as [Hd He]. eapply reads_mono; [by apply reads_parse_digits|]. intros v ->. exact He.
Qed.

Lemma reads_four what n post : 0 ≤ n ≤ 9999 → reads (parse_digits 4 what) (four n) post (λ v, v = n).
Proof.
  intros Hn. destruct (four_digits n Hn) as [Hd He]. eapply reads_mono; [by apply reads_parse_digits|]. intros v ->. exact He.
Qed.

Lemma reads_expect_char b c pre post {A} (f : () → P A) Q :
  c = U b → pre ++ post ≠ [] → reads (f tt) pre post Q → reads (expect_char b ≫= f) (c :: pre) post Q.
Proof.
  intros -> Hne Hf. apply (reads_bind _ _ [U b] pre _ (λ _, True)); [|by intros [] _]. unfold expect_char. rd. rewrite Z.eqb_refl. cbn [negb].
  apply (reads_bind _ _ [] _ _ (λ _, True)); [by rd|]. intros _ _. by apply reads_advance_not_eof_last.
Qed.

(** A check that a number is in its range. *)
Lemma reads_check {A} (b : bool) err (f : () → P A) pre post Q :
  b = false → reads (f tt) pre post Q → reads ((if b then set_error err else mret ()) ≫= f) pre post Q.
Proof. intros -> Hf. apply (reads_bind _ _ [] pre _ (λ _, True)); [by rd|]. by intros [] _. Qed.

(** ** Dates *)
Lemma max_days_exact year month : 1 ≤ month ≤ 12 → max_days_in_month year month = days_in_month year month.
Proof.
  intros Hm. assert (month ∈ [1; 2; 3; 4; 5; 6; 7; 8; 9; 10; 11; 12]) as Hin.
  { assert (month = 1 ∨ month = 2 ∨ month = 3 ∨ month = 4 ∨ month = 5 ∨ month = 6 ∨ month = 7 ∨ month = 8 ∨ month = 9 ∨ month = 10 ∨ month = 11 ∨ month = 12) by lia.
    set_solver. }
  clear Hm. unfold max_days_in_month, days_in_month. change (is_leap_year year) with (leap_year year).
  repeat (apply elem_of_cons in Hin as [->|Hin]; [by destruct (leap_year year)|]). by apply elem_of_nil in Hin.
Qed.

Lemma reads_parse_date part d post :
  calendar_date d → (part = true ∨ terminated post) → reads (parse_date part) (date_text d) post (λ r, r = d).
Proof.
  intros (Hy & Hm & Hd) Hpost. pose proof (max_days_exact (d_year d) (d_month d) Hm) as Hmax.
  assert (days_in_month (d_year d) (d_month d) ≤ 31) as H31 by (rewrite <- Hmax; unfold max_days_in_month; repeat case_match; lia).
  apply reads_scoped. unfold date_text. eapply reads_bind; [by apply reads_four|]. intros y ->. rd. cbn [app].
  apply reads_expect_char; [done|done|]. eapply reads_bind; [apply reads_two; lia|]. intros m ->.
  apply reads_check; [lia|]. rd. cbn [app]. apply reads_expect_char; [done|done|]. rewrite <- (app_nil_r (two (d_day d))).
  eapply reads_bind; [apply reads_two; lia|]. intros dd ->. apply reads_check; [rewrite Hmax; lia|].
  apply (reads_bind _ _ [] [] _ (λ _, True)).
  - destruct part; [by rd|]. destruct Hpost as [|Hpost]; [done|]. by apply reads_terminator.
  - intros _ _. apply reads_ret. destruct d as [yy mm dd]. cbn in *. unfold u16, u8. rewrite !Z.mod_small by lia. done.
Qed.

(** ** Times *)
Lemma reads_variable_digits ds n post :
  Forall (λ d, 0 ≤ d < 10) ds → (length ds ≤ n)%nat →
  (∀ c t, post = c :: t → is_decimal_digit c = false) →
  reads (consume_variable_length_digit_sequence n) (digit_chars ds) post (λ r, r = ds).
Proof.
  intros Hd. revert n. induction Hd as [|d ds Hd _ IH]; intros n Hn Hpost.
  - change (digit_chars []) with (@nil Z). destruct n as [|n]; cbn [consume_variable_length_digit_sequence]; [by rd|].
    destruct post as [|c post]; [apply reads_is_eof_end; by apply reads_ret|]. rd. eapply reads_cur; [reflexivity|]. intros x Hx _.
    rewrite Hx, (Hpost c post eq_refl). by apply reads_ret.
  - destruct n as [|n]; [cbn in Hn; lia|]. cbn [consume_variable_length_digit_sequence].
    change (digit_chars (d :: ds)) with ((U "0" + d) :: digit_chars ds). do 2 rd. rewrite digit_plus by done. cbn [negb]. rd.
    rewrite <- (app_nil_r (digit_chars ds)). eapply reads_bind; [apply IH; [cbn in Hn; lia|done]|]. intros r ->. apply reads_ret. f_equal. lia.
Qed.

Lemma scale_exact n v : 0 ≤ v → v * 10 ^ Z.of_nat n < 2 ^ 32 → scale n v = v * 10 ^ Z.of_nat n.
Proof.
  revert v. induction n as [|n IH]; intros v Hv Hl; cbn [scale]; [by rewrite Z.pow_0_r, Z.mul_1_r|].
  rewrite Nat2Z.inj_succ, Z.pow_succ_r in * by lia. unfold u32. assert (0 < 10 ^ Z.of_nat n) by (apply Z.pow_pos_nonneg; lia).
  rewrite Z.mod_small by nia. rewrite IH by nia. lia.
Qed.

Lemma number_bound ds : Forall (λ d, 0 ≤ d < 10) ds → 0 ≤ number 10 ds < 10 ^ Z.of_nat (length ds).
Proof.
  intros Hd. unfold number. assert (∀ a, 0 ≤ a → 0 ≤ foldl (λ a d, a * 10 + d) a ds < (a + 1) * 10 ^ Z.of_nat (length ds)) as H.
  { induction Hd as [|d ds Hd _ IH]; intros a Ha; cbn [foldl length]; [rewrite Z.pow_0_r; lia|].
    specialize (IH (a * 10 + d) ltac:(lia)). rewrite Nat2Z.inj_succ, Z.pow_succ_r by lia. nia. }
  specialize (H 0 ltac:(lia)). lia.
Qed.

(** What may follow a time: the end of the value, or an offset. *)
Definition follows_time (part : bool) (post : list Z) : Prop :=
  terminated post ∨ (part = true ∧ ∃ c t, post = c :: t ∧ is_match c ["+"; "-"; "Z"]%byte = true).

Lemma follows_time_cons part c post :
  follows_time part (c :: post) →
  is_value_terminator c || (part && is_match c ["+"; "-"; "Z"]%byte) = true ∧ is_decimal_digit c = false ∧
  negb part && negb (is_value_terminator c) = false.
Proof.
  intros [Ht|(-> & c' & t & [= <- <-] & Hm)].
  - cbn in Ht. rewrite Ht. split; [done|]. split; [clear -Ht; by character_classes|by rewrite andb_false_r].
  - rewrite Hm, orb_true_r. split; [done|]. split; [|done]. unfold is_match in Hm. cbn [existsb] in Hm. clear -Hm. by character_classes.
Qed.

Lemma reads_parse_time part t text post :
  time_text t text → follows_time part post → reads (parse_time part) text post (λ r, r = t).
Proof.
  intros Ht Hpost. destruct Ht as [t f (Hh & Hm & Hs) Hf]. apply reads_scoped.
  assert (∀ ns, mk_time (u8 (t_hour t)) (u8 (t_minute t)) (u8 (t_second t)) ns = mk_time (t_hour t) (t_minute t) (t_second t) ns) as Hu8.
  { intros ns. unfold u8. by rewrite !Z.mod_small by lia. }
  eapply reads_bind; [apply reads_two; lia|]. intros h ->. apply reads_check; [lia|]. rd. cbn [app].
  apply reads_expect_char; [done|done|]. eapply reads_bind; [apply reads_two; lia|]. intros m ->. apply reads_check; [lia|]. rd. cbn [app].
  apply reads_expect_char; [done|done|]. eapply reads_bind; [apply reads_two; lia|]. intros s ->. apply reads_check; [lia|].
  destruct t as [h m s ns]. cbn [t_hour t_minute t_second t_nanosecond] in *. destruct Hf as [|ds Hd Hl].
  - destruct post as [|c post].
    + apply reads_gets_cp_end. apply reads_ret. apply Hu8.
    + eapply reads_gets_cp; [reflexivity|]. intros x Hx _. destruct (follows_time_cons _ _ _ Hpost) as [He _]. rewrite Hx, He.
      apply reads_ret. apply Hu8.
  - cbn [app]. eapply reads_gets_cp; [reflexivity|]. intros x Hx _. rewrite Hx.
    assert (is_value_terminator (U ".") || (part && is_match (U ".") ["+"; "-"; "Z"]%byte) = false) as -> by by destruct part.
    cbv iota. apply reads_expect_char; [done|destruct ds; [cbn in Hl; lia|done]|]. rewrite <- (app_nil_r (digit_chars ds)).
    eapply reads_bind; [apply reads_variable_digits; [done|lia|]|].
    { intros c t Hc. cbn [app] in Hc. rewrite Hc in Hpost. by destruct (follows_time_cons _ _ _ Hpost) as (_ & Hdig & _). }
    intros r ->. pose proof (number_bound ds Hd) as Hb.
    assert (scale (9 - length ds) (digits_value 10 ds) = number 10 ds * 10 ^ Z.of_nat (9 - length ds)) as Hsc.
    { apply scale_exact; [apply Hb|]. change (digits_value 10 ds) with (number 10 ds).
      assert (10 ^ Z.of_nat (length ds) * 10 ^ Z.of_nat (9 - length ds) = 10 ^ 9) as Hp.
      { rewrite <- Z.pow_add_r by lia. f_equal. lia. }
      assert (0 < 10 ^ Z.of_nat (9 - length ds)) by (apply Z.pow_pos_nonneg; lia). nia. }
    destruct ds as [|d ds]; [cbn in Hl; lia|]. destruct post as [|c post].
    + apply reads_gets_cp_end. apply (reads_bind _ _ [] [] _ (λ _, True)); [by rd|]. intros _ _. apply reads_ret. rewrite Hsc. apply Hu8.
    + eapply reads_gets_cp; [reflexivity|]. intros y Hy _. destruct (follows_time_cons _ _ _ Hpost) as (_ & Hdig & Hterm).
      rewrite Hy, Hdig, andb_false_r, Hterm. apply (reads_bind _ _ [] [] _ (λ _, True)); [by rd|]. intros _ _. apply reads_ret. rewrite Hsc. apply Hu8.
Qed.

(** ** Dates with times *)
Lemma reads_parse_offset (neg : bool) h m post :
  0 ≤ h < 24 → 0 ≤ m < 60 →
  reads parse_time_offset ([U (if neg then "-" else "+")%byte] ++ two h ++ [U ":"] ++ two m) post
    (λ r, r = if neg then - (h * 60 + m) else h * 60 + m).
Proof.
  intros Hh Hm. apply reads_scoped. cbn [app]. eapply reads_cur; [reflexivity|]. intros x Hx _. rewrite Hx. apply reads_advance_not_eof; [done|].
  eapply reads_bind; [apply reads_two; lia|]. intros hh ->. apply reads_check; [lia|]. rd.
  apply reads_expect_char; [done|done|]. rewrite <- (app_nil_r (two m)). eapply reads_bind; [apply reads_two; lia|]. intros mm ->.
  apply reads_check; [lia|]. apply reads_ret. destruct neg; compare_chars; lia.
Qed.

Lemma offset_follows_time o ot post : offset_text o ot → terminated post → follows_time true (ot ++ post).
Proof.
  intros [| |neg h m _ _] Hpost; [by left|right|right]; (split; [done|]); eexists _, _; (split; [reflexivity|]); [done|by destruct neg].
Qed.

Lemma reads_parse_date_time dt tt ot post :
  calendar_date (dt_date dt) → time_text (dt_time dt) tt → offset_text (dt_offset dt) ot → terminated post →
  reads parse_date_time (date_text (dt_date dt) ++ [U "T"] ++ tt ++ ot) post (λ r, r = dt).
Proof.
  intros Hd Ht Ho Hpost. apply reads_scoped. eapply reads_bind; [apply reads_parse_date; auto|]. intros d ->. cbn [app]. do 2 rd.
  change (negb (is_match (U "T") [" "; "T"]%byte)) with false. cbv iota.
  apply (reads_bind _ _ [] _ _ (λ _, True)); [by rd|]. intros _ _. apply reads_advance_not_eof; [by destruct Ht|].
  eapply reads_bind; [apply reads_parse_time; [exact Ht|by eapply offset_follows_time]|]. intros t ->.
  destruct dt as [d t o]. cbn [dt_date dt_time dt_offset] in *. destruct Ho as [| |neg h m Hh Hm].
  - destruct post as [|c post]; [apply reads_gets_cp_end; by apply reads_ret|].
    eapply reads_gets_cp; [reflexivity|]. intros y Hy _. cbn in Hpost. rewrite Hy, Hpost. by apply reads_ret.
  - eapply reads_gets_cp; [reflexivity|]. intros y Hy _. rewrite Hy. change (is_value_terminator (U "Z")) with false. cbv iota. compare_chars.
    apply (reads_bind _ _ [U "Z"] [] _ (λ r, r = 0)); [rd; by apply reads_ret|]. intros o ->.
    apply (reads_bind _ _ [] [] _ (λ _, True)); [by apply reads_terminator|]. intros _ _. by apply reads_ret.
  - eapply reads_gets_cp; [reflexivity|]. intros y Hy _. rewrite Hy.
    assert (is_value_terminator (U (if neg then "-" else "+")%byte) = false ∧ (U (if neg then "-" else "+")%byte =? U "Z") = false ∧
      is_match (U (if neg then "-" else "+")%byte) ["+"; "-"]%byte = true) as (-> & -> & ->) by by destruct neg.
    rewrite <- (app_nil_r (_ ++ _)). eapply reads_bind; [by apply reads_parse_offset|]. intros o ->.
    apply (reads_bind _ _ [] [] _ (λ _, True)); [by apply reads_terminator|]. intros _ _. by apply reads_ret.
Qed.

(** ** Recognised by their characters *)
Section recognised.
Import traits.

(** What [parse_value] has seen of a value that begins with a digit. *)
Definition digit_traits (c : Z) : Z := if c =? U "0" then begins_zero else begins_digit.

Lemma digit_traits_cases c : digit_traits c = begins_zero ∨ digit_traits c = begins_digit.
Proof. unfold digit_traits. case_match; auto. Qed.

Lemma two_temporal n : 0 ≤ n < 100 → Forall (λ c, temporal_char c = true) (two n) ∧ trait_of <$> two n = [has_digits; has_digits].
Proof.
  intros Hn. destruct (two_digits n Hn) as [Hd _]. split; [by apply digit_chars_temporal|]. unfold two. by rewrite digit_chars_traits.
Qed.

Lemma date_temporal d :
  calendar_date d → Forall (λ c, temporal_char c = true) (date_text d) ∧ length (date_text d) = 10%nat ∧
  trait_of <$> date_text d = replicate 4 has_digits ++ [has_minus] ++ replicate 2 has_digits ++ [has_minus] ++ replicate 2 has_digits.
Proof.
  intros (Hy & Hm & Hd). rewrite <- max_days_exact in Hd by done.
  assert (max_days_in_month (d_year d) (d_month d) ≤ 31) by (unfold max_days_in_month; repeat case_match; lia).
  destruct (four_digits _ Hy) as [Hyd _], (two_temporal (d_month d)) as [Hm1 Hm2], (two_temporal (d_day d)) as [Hd1 Hd2]; try lia.
  unfold date_text. split; [|split; [done|]].
  - rewrite !Forall_app. split_and!; try done; [by apply digit_chars_temporal|by repeat constructor|by repeat constructor].
  - rewrite !fmap_app, Hm2, Hd2. unfold four. by rewrite digit_chars_traits.
Qed.

(** The traits of the fraction: none, or a dot and digits. *)
Lemma fraction_temporal ns f :
  fraction_text ns f → Forall (λ c, temporal_char c = true) f ∧ (length f ≤ 10)%nat ∧
  (trait_of <$> f = [] ∨ ∃ n, trait_of <$> f = has_dot :: replicate (S n) has_digits).
Proof.
  intros [|ds Hd Hl]; [by split; [constructor|split; [cbn; lia|left]]|]. split; [|split].
  - constructor; [done|by apply digit_chars_temporal].
  - cbn. unfold digit_chars. rewrite length_fmap. lia.
  - right. exists (length ds - 1)%nat. rewrite fmap_app, digit_chars_traits by done.
    replace (length ds) with (S (length ds - 1)) at 1 by lia. done.
Qed.

Lemma lor_digits n a : foldl Z.lor a (replicate (S n) has_digits) = Z.lor a has_digits.
Proof.
  revert a. induction n as [|n IH]; intros a; [done|]. cbn [replicate foldl] in *. rewrite IH. by rewrite <- Z.lor_assoc, Z.lor_diag.
Qed.

(** The traits of a time after what was seen before it. *)
Definition time_traits (before : Z) (dot : bool) : Z := Z.lor (bor [before; has_digits; has_colon]) (if dot then has_dot else 0).

Lemma time_temporal t tt before :
  time_text t tt → Forall (λ c, temporal_char c = true) tt ∧ (8 ≤ length tt ≤ 18)%nat ∧
  ∃ dot, foldl Z.lor before (trait_of <$> tt) = time_traits before dot.
Proof.
  intros [t' f (Hh & Hm & Hs) Hf]. destruct (fraction_temporal _ _ Hf) as (Hf1 & Hf2 & Hf3).
  destruct (two_temporal (t_hour t')) as [Hh1 Hh2], (two_temporal (t_minute t')) as [Hm1 Hm2], (two_temporal (t_second t')) as [Hs1 Hs2]; try lia.
  split; [|split].
  - rewrite !Forall_app. split_and!; try done; by repeat constructor.
  - rewrite !length_app. cbn [two digit_chars fmap list_fmap length]. lia.
  - rewrite !fmap_app, Hh2, Hm2, Hs2, !foldl_app. change (trait_of <$> [U ":"]) with [has_colon].
    assert (∀ a, foldl Z.lor (foldl Z.lor (foldl Z.lor (foldl Z.lor (foldl Z.lor a [has_digits; has_digits]) [has_colon]) [has_digits; has_digits]) [has_colon])
      [has_digits; has_digits] = bor [a; has_digits; has_colon]) as Hb.
    { intros a. cbn [foldl]. unfold bor. cbn [foldl]. rewrite Z.lor_0_l, <- !Z.lor_assoc. f_equal. }
    rewrite Hb. destruct Hf3 as [->|(n & ->)].
    + exists false. unfold time_traits. cbn [foldl]. by rewrite Z.lor_0_r.
    + exists true. unfold time_traits. cbn [foldl]. fold (replicate n has_digits). change (has_digits :: replicate n has_digits) with (replicate (S n) has_digits).
      rewrite lor_digits. unfold bor. cbn [foldl]. rewrite Z.lor_0_l, <- !Z.lor_assoc. f_equal.
Qed.

Lemma reads_number_date d c t post :
  calendar_date d → date_text d = c :: t → ends_value post →
  reads (parse_number_like (digit_traits c)) (date_text d) post (λ r, r = Some (VDate d no_region)).
Proof.
  intros Hd Hc Hpost. destruct (date_temporal d Hd) as (Ht & Hl & Htr).
  eapply (reads_temporal _ _ (bor [digit_traits c; has_digits; has_minus])); try done.
  - lia.
  - cbn. intros [= He]. destruct Hd as (Hy & _). revert He. change (U "0") with 48. change (U ".") with 46. Z.to_euclidean_division_equations. lia.
  - rewrite Htr. destruct (digit_traits_cases c) as [->| ->]; reflexivity.
  - destruct (digit_traits_cases c) as [->| ->]; reflexivity.
  - assert (exact_match (bor [digit_traits c; has_digits; has_minus]) = d ← parse_date false; mret (Some (VDate d no_region))) as ->
      by (destruct (digit_traits_cases c) as [->| ->]; reflexivity).
    rewrite <- (app_nil_r (date_text d)). eapply reads_bind; [apply reads_parse_date; [done|right; apply Hpost]|]. intros r ->. by apply reads_ret.
Qed.

Lemma reads_number_time tm t c t' post :
  time_text tm t → t = c :: t' → ends_value post →
  reads (parse_number_like (digit_traits c)) t post (λ r, r = Some (VTime tm no_region)).
Proof.
  intros Htm Hc Hpost. destruct (time_temporal _ _ (digit_traits c) Htm) as (Ht & Hl & dot & Htr).
  eapply (reads_temporal _ _ (time_traits (digit_traits c) dot)); try done.
  - lia.
  - destruct Htm as [tm f (Hh & _) _]. cbn. intros [= He]. revert He. change (U "0") with 48. change (U ".") with 46. Z.to_euclidean_division_equations. lia.
  - destruct (digit_traits_cases c) as [->| ->], dot; reflexivity.
  - assert (exact_match (time_traits (digit_traits c) dot) = t ← parse_time false; mret (Some (VTime t no_region))) as ->
      by (destruct (digit_traits_cases c) as [->| ->], dot; reflexivity).
    rewrite <- (app_nil_r t). eapply reads_bind; [apply reads_parse_time; [exact Htm|left; apply Hpost]|]. intros r ->. by apply reads_ret.
Qed.

Lemma offset_temporal o ot :
  offset_text o ot → Forall (λ c, temporal_char c = true) ot ∧ (length ot ≤ 6)%nat ∧
  trait_of <$> ot ∈ [[]; [has_z]; [has_minus; has_digits; has_digits; has_colon; has_digits; has_digits];
    [has_plus; has_digits; has_digits; has_colon; has_digits; has_digits]].
Proof.
  intros [| |neg h m Hh Hm]; [split; [constructor|split; [cbn; lia|set_solver]]|split; [by repeat constructor|split; [cbn; lia|set_solver]]|].
  destruct (two_temporal h) as [Hh1 Hh2], (two_temporal m) as [Hm1 Hm2]; try lia. split; [|split].
  - rewrite !Forall_app. split_and!; try done; [destruct neg; by repeat constructor|by repeat constructor].
  - cbn. lia.
  - rewrite !fmap_app, Hh2, Hm2. destruct neg; set_solver.
Qed.

Lemma reads_number_date_time dt tt ot c t post :
  calendar_date (dt_date dt) → time_text (dt_time dt) tt → offset_text (dt_offset dt) ot →
  date_text (dt_date dt) ++ [U "T"] ++ tt ++ ot = c :: t → ends_value post →
  reads (parse_number_like (digit_traits c)) (date_text (dt_date dt) ++ [U "T"] ++ tt ++ ot) post (λ r, r = Some (VDateTime dt no_region)).
Proof.
  intros Hd Htt Hot Hc Hpost. destruct (date_temporal _ Hd) as (Hd1 & Hd2 & Hd3), (offset_temporal _ _ Hot) as (Ho1 & Ho2 & Ho3).
  destruct (time_temporal _ _ (bor [digit_traits c; has_digits; has_minus; has_t]) Htt) as (Ht1 & Ht2 & dot & Ht3).
  assert (foldl Z.lor (digit_traits c) (trait_of <$> date_text (dt_date dt) ++ [U "T"] ++ tt ++ ot) =
    foldl Z.lor (time_traits (bor [digit_traits c; has_digits; has_minus; has_t]) dot) (trait_of <$> ot)) as Htr.
  { rewrite !fmap_app, Hd3, !foldl_app, <- Ht3. f_equal. f_equal. destruct (digit_traits_cases c) as [->| ->]; reflexivity. }
  eapply (reads_temporal _ _ (foldl Z.lor (time_traits (bor [digit_traits c; has_digits; has_minus; has_t]) dot) (trait_of <$> ot))); try done.
  - rewrite !Forall_app. split_and!; try done. by repeat constructor.
  - rewrite !length_app. cbn [length]. lia.
  - cbn. intros [= He]. destruct Hd as (Hy & _). revert He. change (U "0") with 48. change (U ".") with 46. Z.to_euclidean_division_equations. lia.
  - rewrite !elem_of_cons, elem_of_nil in Ho3.
    destruct Ho3 as [->|[->|[->|[->|[]]]]], (digit_traits_cases c) as [->| ->], dot; reflexivity.
  - assert (exact_match (foldl Z.lor (time_traits (bor [digit_traits c; has_digits; has_minus; has_t]) dot) (trait_of <$> ot)) =
      dt ← parse_date_time; mret (Some (VDateTime dt no_region))) as ->.
    { rewrite !elem_of_cons, elem_of_nil in Ho3.
      destruct Ho3 as [->|[->|[->|[->|[]]]]], (digit_traits_cases c) as [->| ->], dot; reflexivity. }
    rewrite <- (app_nil_r (date_text _ ++ _)). eapply reads_bind; [apply reads_parse_date_time; try done; apply Hpost|]. intros r ->. by apply reads_ret.
Qed.
End recognised.

(** ** Integers with a prefix *)
Section prefixed.
Import traits.

(** The traits of the parser for a prefix, and the flags of the value. *)
Definition prefix_of (p : byte) : integer_traits * Z * value_flags :=
  if decide (p = "b"%byte) then (binary_traits, has_b, format_as_binary)
  else if decide (p = "o"%byte) then (octal_traits, has_o, format_as_octal)
  else (hexadecimal_traits, has_x, format_as_hexadecimal).

Lemma prefix_of_spec p base limit :
  (p, base, limit) ∈ prefixes →
  let t := (prefix_of p).1.1 in
  t ∈ all_traits ∧ tr_base t = base ∧ tr_buffer_length t = limit ∧ tr_prefix t = Some p ∧ tr_is_signed t = false ∧
  (limit ≤ 63)%nat ∧ base ≠ 10 ∧ p ∈ ["b"; "o"; "x"]%byte.
Proof.
  unfold prefixes. rewrite !elem_of_cons, elem_of_nil. intros [[= -> -> ->]|[[= -> -> ->]|[[= -> -> ->]|[]]]]; cbn;
    (split_and!; try done; first [lia|unfold all_traits; set_solver]).
Qed.

(** The digits of a base are those the parser accepts, with the same value. *)
Lemma prefixed_digit p base limit b d :
  (p, base, limit) ∈ prefixes → digit_of b = Some d → d < base →
  tr_is_digit (prefix_of p).1.1 (U b) = true ∧ digit_value (prefix_of p).1.1 b = d.
Proof.
  intros Hp Hd Hb.
  assert (forallb (λ x : byte * Z * nat, forallb (λ b, match digit_of b with
    | Some d => implb (d <? x.1.2) (tr_is_digit (prefix_of x.1.1).1.1 (U b) && (digit_value (prefix_of x.1.1).1.1 b =? d))
    | None => true end) all_bytes) prefixes = true) as Hall by (vm_compute; reflexivity).
  rewrite forallb_forall in Hall. specialize (Hall _ (proj1 (list_elem_of_In _ _) Hp)).
  rewrite forallb_forall in Hall. specialize (Hall b (proj1 (list_elem_of_In _ _) (all_bytes_spec b))). cbv beta in Hall.
  rewrite Hd in Hall. cbn [fst snd] in Hall. rewrite (proj2 (Z.ltb_lt _ _) Hb) in Hall. cbn [implb] in Hall.
  rewrite andb_true_iff, Z.eqb_eq in Hall. done.
Qed.

Lemma prefixed_digits p base limit chars ds :
  (p, base, limit) ∈ prefixes → mapM digit_of chars = Some ds → Forall (λ d, d < base) ds →
  Forall (λ b, tr_is_digit (prefix_of p).1.1 (U b) = true) chars ∧ digit_value (prefix_of p).1.1 <$> chars = ds.
Proof.
  intros Hp Hm Hb. apply mapM_Some in Hm. induction Hm as [|b d chars ds Hd _ IH]; [by split|].
  inversion Hb as [|? ? Hdb Hb']; subst. destruct (prefixed_digit _ _ _ _ _ Hp Hd Hdb) as [H1 H2], (IH Hb') as [H3 H4].
  split; [by constructor|]. cbn. by rewrite H2, H4.
Qed.

(** After the prefix the digits add no trait. *)
Lemma scan_prefixed_digit p base limit b sc :
  (p, base, limit) ∈ prefixes → tr_is_digit (prefix_of p).1.1 (U b) = true → 2 ≤ char_count sc →
  sc_traits sc = bor [begins_zero; has_digits; (prefix_of p).1.2] →
  scan_step sc (U b) = mk_scanned (sc_chars sc ++ [U b]) (sc_traits sc) (sc_advance_count sc + 1) false.
Proof.
  intros Hp Hb Hc Ht. destruct (prefix_of_spec _ _ _ Hp) as (Hin & _ & _ & _ & _ & _ & _ & Hp').
  destruct (digit_char _ b Hin Hb) as (_ & _ & Hus & _). unfold scan_step, scan_char. rewrite Hus.
  unfold scan_advanced, scan_traits. cbn [sc_chars sc_traits sc_advance_count scan_push]. f_equal.
  assert (Z.lor (sc_traits sc) (char_traits (scan_push sc (U b)) (U b)) = sc_traits sc) as ->; [|done]. rewrite Ht.
  assert (char_count (scan_push sc (U b)) = char_count sc + 1) as Hcc.
  { unfold char_count. cbn [scan_push sc_chars]. rewrite length_app. cbn. lia. }
  assert ((char_count (scan_push sc (U b)) =? 2) = false ∧ (char_count (scan_push sc (U b)) =? 3) = (char_count sc =? 2)) as [Hc2 Hc3] by lia.
  clear Hus Hin. unfold char_traits. rewrite Hc2. cbn [scan_push sc_traits]. rewrite Ht. cbn [andb].
  assert (∀ l, Forall (λ p, forallb (λ b, implb (tr_is_digit (prefix_of p).1.1 (U b)) (is_decimal_digit (U b) ||
    (is_ascii_letter (U b) && negb (Z.lor (U b) 32 =? U "p") && negb (Z.lor (U b) 32 =? U "o") && negb (Z.lor (U b) 32 =? U "x") && negb (Z.lor (U b) 32 =? U "t") && negb (Z.lor (U b) 32 =? U "z") &&
     bool_decide (p = "x"%byte)))) l = true) ["b"; "o"; "x"]%byte → b ∈ l → 
    is_decimal_digit (U b) = true ∨ (is_decimal_digit (U b) = false ∧ is_ascii_letter (U b) = true ∧ (Z.lor (U b) 32 =? U "p") = false ∧
      (Z.lor (U b) 32 =? U "o") = false ∧ (Z.lor (U b) 32 =? U "x") = false ∧ (Z.lor (U b) 32 =? U "t") = false ∧ (Z.lor (U b) 32 =? U "z") = false ∧ p = "x"%byte)) as Hall.
  { intros l Hl Hbl. rewrite Forall_forall in Hl. specialize (Hl p Hp'). rewrite forallb_forall in Hl.
    apply list_elem_of_In in Hbl. specialize (Hl b Hbl). cbv beta in Hl. rewrite Hb in Hl. cbn [implb] in Hl.
    destruct (is_decimal_digit (U b)); [by left|right]. cbn [orb] in Hl.
    rewrite !andb_true_iff, !negb_true_iff, bool_decide_eq_true in Hl. tauto. }
  destruct (Hall all_bytes) as [->|(-> & -> & -> & -> & -> & -> & -> & ->)]; [repeat constructor; vm_compute; reflexivity|apply all_bytes_spec| |].
  - unfold bor. cbn [foldl]. rewrite <- !Z.lor_assoc, (Z.lor_comm (prefix_of p).1.2), (Z.lor_assoc has_digits), Z.lor_diag. done.
  - change (has_none (bor [begins_zero; has_digits; (prefix_of "x").1.2]) [has_b; has_o; has_p; has_t; has_x; has_z; has_colon]) with false.
    rewrite andb_false_r. cbn [andb]. repeat case_match; apply Z.lor_0_r.
Qed.

Lemma scan_prefixed_digits p base limit chars body sc :
  (p, base, limit) ∈ prefixes → separated chars body → Forall (λ b, tr_is_digit (prefix_of p).1.1 (U b) = true) chars → 2 ≤ char_count sc →
  sc_eof sc = false → sc_traits sc = bor [begins_zero; has_digits; (prefix_of p).1.2] →
  foldl scan_step sc body = mk_scanned (sc_chars sc ++ zs chars) (sc_traits sc) (sc_advance_count sc + Z.of_nat (length body)) false.
Proof.
  intros Hp Hs. revert sc. induction Hs as [b|b chars rest Hs IH|b chars rest Hs IH]; intros sc Hd Hc He Ht; inversion Hd as [|? ? Hb Hd']; subst;
    cbn [zs fmap list_fmap foldl length]; rewrite (scan_prefixed_digit p base limit b) by done;
    [done| |rewrite scan_underscore by done]; fold (zs chars); rewrite IH; cbn [sc_chars sc_traits sc_advance_count sc_eof]; try done.
  1,3: rewrite <- app_assoc; f_equal; lia.
  all: unfold char_count in *; cbn [sc_chars]; rewrite length_app; cbn; lia.
Qed.

Lemma scan_prefixed p base limit chars body :
  (p, base, limit) ∈ prefixes → separated chars body → Forall (λ b, tr_is_digit (prefix_of p).1.1 (U b) = true) chars →
  foldl scan_step (mk_scanned [] begins_zero 0 false) ([U "0"; U p] ++ body) =
    mk_scanned ([U "0"; U p] ++ zs chars) (bor [begins_zero; has_digits; (prefix_of p).1.2]) (2 + Z.of_nat (length body)) false.
Proof.
  intros Hp Hs Hd. rewrite foldl_app.
  assert (foldl scan_step (mk_scanned [] begins_zero 0 false) [U "0"; U p] =
    mk_scanned [U "0"; U p] (bor [begins_zero; has_digits; (prefix_of p).1.2]) 2 false) as ->.
  { destruct (prefix_of_spec _ _ _ Hp) as (_ & _ & _ & _ & _ & _ & _ & Hp').
    rewrite !elem_of_cons, elem_of_nil in Hp'. destruct Hp' as [->|[->|[->|[]]]]; reflexivity. }
  by rewrite (scan_prefixed_digits p base limit chars).
Qed.

Lemma reads_number_prefixed z t post :
  prefixed_text z t → ends_value post →
  reads (parse_number_like begins_zero) t post (λ r, ∃ fl, r = Some (VInteger z fl no_region)).
Proof.
  intros [p base limit chars ds body Hp Hm Hb Hs Hl Hl' Hv] Hpost.
  destruct (prefix_of_spec _ _ _ Hp) as (Hin & Hbase & Hbuf & Hpre & Hsig & _ & H10 & Hp').
  destruct (prefixed_digits _ _ _ _ _ Hp Hm Hb) as [Hdig Hval]. pose proof (scan_prefixed _ _ _ _ _ Hp Hs Hdig) as Hscan.
  set (tr := (prefix_of p).1.1) in *. destruct (separated_not_nil _ _ Hs) as [Hne Hne'].
  assert (integer_literal tr false chars ([U "0"; U p] ++ body)) as Hlit.
  { assert ([U "0"; U p] = prefix_text tr) as -> by (unfold prefix_text; by rewrite Hpre). by apply (literal_intro tr false []); [constructor| |]. }
  unfold parse_number_like. apply reads_scan_value; rewrite ?Hscan; try done.
  - apply Forall_app. split; [|by apply (separated_in_value tr chars)].
    rewrite !elem_of_cons, elem_of_nil in Hp'. destruct Hp' as [->|[->|[->|[]]]]; by repeat constructor.
  - rewrite length_app. cbn [length]. lia.
  - cbn [sc_advance_count]. rewrite length_app. cbn [length]. lia.
  - intros e. unfold set_eof, char_count. cbn [sc_chars sc_traits].
    rewrite (proj2 (Z.eqb_neq _ 1)) by (cbn [app length]; lia).
    match goal with |- context [fuzzy_match ?sc] => assert (fuzzy_match sc = new_integer tr (prefix_of p).2) as -> end.
    { unfold tr. rewrite !elem_of_cons, elem_of_nil in Hp'. destruct Hp' as [->|[->|[->|[]]]]; reflexivity. }
    rewrite <- (app_nil_r (_ ++ body)). eapply (reads_bind _ _ _ _ _ (λ r, r = Some (VInteger (number base ds) (prefix_of p).2 no_region))).
    2: { intros r ->. apply reads_ret. eauto. }
    unfold new_integer. rewrite <- (app_nil_r (_ ++ body)).
    eapply reads_bind; [apply (reads_parse_integer tr false chars); try done; [lia|apply Hpost|congruence|]|].
    + rewrite Hbase, Hval. exact Hv.
    + intros r ->. apply reads_ret. rewrite Hbase, Hval. unfold sign_of. change (digits_value base ds) with (number base ds). do 2 f_equal. lia.
Qed.
End prefixed.

(** ** Infinities and NaNs *)
Definition word_value (inf neg : bool) : spec_float := if inf then S754_infinity neg else S754_nan.
Definition word_text (inf : bool) : list Z := zs (if inf then bs "inf" else bs "nan").

Lemma reads_inf_or_nan inf neg st post :
  sign_text neg st → terminated post → reads parse_inf_or_nan (st ++ word_text inf) post (λ r, r = word_value inf neg).
Proof.
  intros Hst Hpost. apply reads_scoped, reads_modify; [done|].
  assert (reads (c ← cur;
      let inf := is_match (value c) ["i"; "I"]%byte in
      expect_word (if inf then bs "inf" else bs "nan");; mret (if inf then S754_infinity neg else S754_nan))
    (word_text inf) post (λ r, r = word_value inf neg)) as Hword.
  { assert (∃ t, word_text inf ++ post = (if inf then U "i" else U "n") :: t) as [t Et] by (destruct inf; by eexists).
    eapply reads_cur; [exact Et|]. intros x Hx _. rewrite Hx.
    assert (is_match (if inf then U "i" else U "n") ["i"; "I"]%byte = inf) as -> by by destruct inf. cbv zeta.
    rewrite <- (app_nil_r (word_text inf)). eapply reads_bind; [by apply reads_word|]. intros _ _. apply reads_ret. by destruct inf. }
  destruct Hst.
  - assert (∃ t, word_text inf ++ post = (if inf then U "i" else U "n") :: t) as [t Et] by (destruct inf; by eexists).
    cbn [app]. eapply reads_cur; [exact Et|]. intros x Hx _. rewrite Hx.
    assert (((if inf then U "i" else U "n") =? U "-") = false ∧ ((if inf then U "i" else U "n") =? U "+") = false) as [-> ->] by by destruct inf.
    cbn [orb]. cbv zeta. apply (reads_bind _ _ [] _ _ (λ _, True)); [by rd|]. intros _ _. exact Hword.
  - cbn [app]. rd. compare_chars. cbn [orb]. cbv zeta. apply reads_advance_not_eof; [by destruct inf|]. exact Hword.
  - cbn [app]. rd. compare_chars. cbn [orb]. cbv zeta. apply reads_advance_not_eof; [by destruct inf|]. exact Hword.
Qed.

Lemma reads_number_word inf neg st post :
  sign_text neg st → st ≠ [] → ends_value post →
  reads (parse_number_like traits.begins_sign) (st ++ word_text inf) post (λ r, r = Some (VFloat (word_value inf neg) no_region)).
Proof.
  intros Hst Hne Hpost. unfold parse_number_like.
  apply reads_scan_value; [by destruct st|destruct Hst, inf; by repeat constructor|done|destruct Hst, inf; cbn; lia|by destruct Hst, inf|].
  intros e.
  assert (∃ sc, set_eof e (foldl scan_step (mk_scanned [] traits.begins_sign 0 false) (st ++ word_text inf)) = sc ∧
    (char_count sc =? 1) = false ∧ fuzzy_match sc = new_float parse_inf_or_nan) as (sc & -> & -> & Hf)
    by (eexists; split; [reflexivity|]; destruct Hst, inf; done).
  rewrite <- (app_nil_r (st ++ _)). eapply (reads_bind _ _ _ _ _ (λ r, r = Some (VFloat (word_value inf neg) no_region))); [|intros r ->; by apply reads_ret].
  rewrite Hf. unfold new_float. rewrite <- (app_nil_r (st ++ _)).
  eapply reads_bind; [apply reads_inf_or_nan; [exact Hst|apply Hpost]|]. intros r ->. by apply reads_ret.
Qed.
