(* ===== verification/TomlFloats.v ===== *)
(** * TomlFloats: floats are read back

    The look-ahead at the text of a float, the characters [parse_float] collects,
    and the value that is extracted from them. *)
From Stdlib Require Import SpecFloat.
From S2P Require Import Prelude Bytes Env TomlNode TomlWrite TomlUtf8 TomlReader TomlParser TomlScalar TomlDocument TomlExact TomlText TomlGrammar TomlStrings TomlNumbers TomlBlanks TomlKeys TomlTimes.

Local Open Scope Z_scope.

(** ** The characters *)

(** The bytes of digits. *)
Definition digit_bytes (ds : list Z) : bytes := char_of_digit <$> ds.

Lemma digit_codepoint d x : 0 ≤ d < 10 → value x = U "0" + d → proper x → byte0 x = char_of_digit d.
Proof.
  intros Hd Hx [_ Hb]. unfold byte0. rewrite Hb, Hx. unfold utf8_encode, char_of_digit. change (U "0") with 48.
  by rewrite (proj2 (Z.ltb_lt (48 + d) _)), (proj2 (Z.ltb_lt d 10)) by lia.
Qed.

Lemma ascii_codepoint b x : U b < 128 → value x = U b → proper x → byte0 x = b.
Proof. intros Hb Hx [_ Hbx]. unfold byte0. by rewrite Hbx, Hx, encode_ascii. Qed.

Lemma reads_float_store f x c dec exp fip post :
  (length (fc_chars f) < 64)%nat →
  reads (float_store f x dec exp fip) [c] post (λ r, r = mk_float_chars (fc_chars f ++ [byte0 x]) (Some (value x)) dec exp fip).
Proof. intros Hl. unfold float_store, float_chars_size. rewrite (proj2 (Nat.ltb_lt _ _) Hl). rd. by apply reads_ret. Qed.

(** One round of the loop. *)
Lemma reads_float_round n f c rest post Q f' :
  is_value_terminator c = false →
  (∀ x, value x = c → proper x → reads (float_step f x) [c] (rest ++ post) (λ r, r = f')) →
  reads (float_loop n f') rest post Q → reads (float_loop (S n) f) (c :: rest) post Q.
Proof.
  intros Hc Hs Hl. cbn [float_loop]. eapply reads_gets_cp; [reflexivity|]. intros x Hx Hp. rewrite Hx, Hc.
  change (c :: rest) with ([c] ++ rest). eapply reads_bind; [by apply Hs|]. by intros r ->.
Qed.

(** Digits after the point or in the exponent. *)
Definition no_underscore (prev : option Z) : Prop := from_option (λ p, p =? U "_") false prev = false.

Lemma digit_class d :
  0 ≤ d < 10 → (U "0" + d =? U "_") = false ∧ (U "0" + d =? U ".") = false ∧ is_match (U "0" + d) ["e"; "E"]%byte = false ∧
  is_match (U "0" + d) ["+"; "-"]%byte = false ∧ is_value_terminator (U "0" + d) = false ∧
  is_match (U "0" + d) ["e"; "E"; "+"; "-"; "."]%byte = false.
Proof.
  intros Hd. pose proof (digit_plus d Hd) as Hc. unfold is_match. cbn [existsb]. revert Hc. generalize (U "0" + d). intros c Hc.
  split_and!; by character_classes.
Qed.

(** A digit may follow: after the point, or before it when the first one is not a
    zero. *)
Definition digit_follows (f : float_chars) : Prop :=
  fc_seen_decimal f = true ∨ ∃ b, fc_first_integer_part f = Some b ∧ b ≠ "0"%byte.

Lemma reads_float_digits ds n f rest post Q :
  Forall (λ d, 0 ≤ d < 10) ds → no_underscore (fc_prev f) → (ds ≠ [] → digit_follows f) →
  (length (fc_chars f) + length ds ≤ 64)%nat →
  reads (float_loop n (mk_float_chars (fc_chars f ++ digit_bytes ds) (match last ds with Some d => Some (U "0" + d) | None => fc_prev f end)
    (fc_seen_decimal f) (fc_seen_exponent f) (fc_first_integer_part f))) rest post Q →
  reads (float_loop (length ds + n) f) (digit_chars ds ++ rest) post Q.
Proof.
  intros Hd. revert f. induction Hd as [|d ds Hd _ IH]; intros f Hprev Hfol Hlen Hrest.
  { cbn [digit_bytes digit_chars fmap list_fmap app last length Nat.add] in *. rewrite app_nil_r in Hrest. by destruct f. }
  change (digit_chars (d :: ds) ++ rest) with ((U "0" + d) :: (digit_chars ds ++ rest)). cbn [length Nat.add] in *. specialize (Hfol ltac:(done)).
  destruct (digit_class d Hd) as (H1 & H2 & H3 & H4 & H5 & _). destruct f as [chars prev sd se fip]. cbn in Hprev, Hlen.
  apply (reads_float_round _ _ _ _ _ _ (mk_float_chars (chars ++ [char_of_digit d]) (Some (U "0" + d)) sd se fip)); [done| |].
  - intros x Hx Hp. unfold float_step. rewrite Hx, H1, Hprev, H2, H3, H4, digit_plus by done. cbn [andb negb].
    rewrite (proj2 (Nat.eqb_neq _ _)) by (unfold float_chars_size; lia). cbv iota.
    assert (reads (float_store (mk_float_chars chars prev sd se fip) x sd se fip) [U "0" + d] ((digit_chars ds ++ rest) ++ post)
      (λ r, r = mk_float_chars (chars ++ [char_of_digit d]) (Some (U "0" + d)) sd se fip)) as Hst.
    { eapply reads_mono; [apply reads_float_store; cbn; lia|]. intros r ->. cbn. by rewrite (digit_codepoint d x), Hx. }
    destruct Hfol as [Hsd|(b & Hb & Hnz)]; cbn in *; subst; [exact Hst|]. destruct sd; [exact Hst|]. rewrite decide_False by done. exact Hst.
  - apply IH; cbn; [unfold no_underscore; cbn; done|done|rewrite length_app; cbn; lia|].
    lazymatch type of Hrest with reads (float_loop n ?g) _ _ _ => lazymatch goal with |- reads (float_loop n ?h) _ _ _ =>
      assert (h = g) as ->; [|exact Hrest] end end.
    cbn. f_equal; [by rewrite <- app_assoc|]. rewrite last_cons. by destruct (last ds).
Qed.

Definition no_float_chars : float_chars := mk_float_chars [] None false false None.

Lemma digit_byte_zero d : 0 ≤ d < 10 → char_of_digit d = "0"%byte → d = 0.
Proof.
  intros Hd He. apply (f_equal byte_to_Z) in He. unfold char_of_digit in He. rewrite (proj2 (Z.ltb_lt d 10)), byte_to_of_Z, Z.mod_small in He by lia.
  change (byte_to_Z "0") with 48 in He. lia.
Qed.

Lemma reads_float_whole ds n rest post Q :
  decimal_digits ds → ((1 < length ds)%nat → head ds ≠ Some 0) → (length ds ≤ 64)%nat →
  (∀ d0 dl, last ds = Some dl → 0 ≤ dl < 10 →
   reads (float_loop n (mk_float_chars (digit_bytes ds) (Some (U "0" + dl)) false false (Some (char_of_digit d0)))) rest post Q) →
  reads (float_loop (length ds + n) no_float_chars) (digit_chars ds ++ rest) post Q.
Proof.
  intros [Hd Hne] Hzero Hlen Hrest. destruct ds as [|d ds]; [done|]. inversion Hd as [|? ? Hd0 Hd']; subst.
  change (digit_chars (d :: ds) ++ rest) with ((U "0" + d) :: (digit_chars ds ++ rest)). cbn [length Nat.add] in *.
  destruct (digit_class d Hd0) as (H1 & H2 & H3 & H4 & H5 & _).
  apply (reads_float_round _ _ _ _ _ _ (mk_float_chars [char_of_digit d] (Some (U "0" + d)) false false (Some (char_of_digit d)))); [done| |].
  - intros x Hx Hp. unfold float_step, no_float_chars. rewrite Hx, H1, H2, H3, H4, digit_plus by done. cbn [from_option andb negb length].
    change ((0 =? float_chars_size)%nat) with false. cbv iota. eapply reads_mono; [apply reads_float_store; cbn; lia|].
    intros r ->. cbn. by rewrite (digit_codepoint d x), Hx.
  - apply reads_float_digits; [done|unfold no_underscore; cbn; done| |cbn; lia|].
    + intros Hds. right. eexists. split; [reflexivity|]. intros He%digit_byte_zero; [|done]. subst d. apply Hzero; [|done].
      destruct ds; [done|cbn; lia].
    + cbn [fc_chars fc_prev fc_seen_decimal fc_seen_exponent fc_first_integer_part].
      assert (∃ dl, last (d :: ds) = Some dl ∧ 0 ≤ dl < 10) as (dl & Hl & Hr).
      { destruct (last (d :: ds)) as [dl|] eqn:Hl; [|by apply last_None in Hl]. exists dl. split; [done|].
        apply last_Some_elem_of in Hl. rewrite Forall_forall in Hd. auto. }
      replace (match last ds with Some d1 => Some (U "0" + d1) | None => Some (U "0" + d) end) with (Some (U "0" + dl)).
      * apply Hrest; done.
      * rewrite last_cons in Hl. destruct (last ds); by injection Hl as ->.
Qed.

Definition sign_bytes (st : list Z) : bytes := byte_of_Z <$> st.
Definition exponent_bytes (e : option (bool * list Z * list Z)) : bytes :=
  match e with Some (_, st, ds) => ["e"%byte] ++ sign_bytes st ++ digit_bytes ds | None => [] end.
Definition fraction_bytes (fp : list Z) : bytes := match fp with [] => [] | _ => ["."%byte] ++ digit_bytes fp end.
Definition float_bytes (p : float_parts) : bytes := digit_bytes (whole p) ++ fraction_bytes (fraction p) ++ exponent_bytes (exponent p).

Lemma reads_float_end n f post : terminated post → reads (float_loop (S n) f) [] post (λ r, r = f).
Proof.
  intros Ht. cbn [float_loop]. destruct post as [|c post]; [apply reads_gets_cp_end; by apply reads_ret|].
  eapply reads_gets_cp; [reflexivity|]. intros x Hx _. cbn in Ht. rewrite Hx, Ht. by apply reads_ret.
Qed.

(** The point. *)
Lemma reads_float_point n f dl b rest post Q :
  fc_prev f = Some (U "0" + dl) → 0 ≤ dl < 10 → fc_seen_decimal f = false → fc_seen_exponent f = false →
  fc_first_integer_part f = Some b → (length (fc_chars f) < 64)%nat →
  reads (float_loop n (mk_float_chars (fc_chars f ++ ["."%byte]) (Some (U ".")) true false (Some b))) rest post Q →
  reads (float_loop (S n) f) (U "." :: rest) post Q.
Proof.
  intros Hprev Hdl Hsd Hse Hfip Hlen Hrest. destruct f as [chars prev sd se fip]. cbn [fc_chars fc_prev fc_seen_decimal fc_seen_exponent fc_first_integer_part] in *. subst.
  assert (from_option (λ p, p =? U "_") false (Some (U "0" + dl)) = false) as H1 by apply (digit_class dl Hdl). eapply reads_float_round; [done| |exact Hrest].
  intros x Hx Hp. unfold float_step. rewrite Hx. compare_chars. rewrite H1. cbn [andb].
  rewrite bool_decide_true by eauto. cbn [negb]. eapply reads_mono; [apply reads_float_store; cbn; lia|].
  intros r ->. cbn. by rewrite (ascii_codepoint "."%byte x), Hx.
Qed.

(** The exponent. *)
Lemma reads_float_exponent n f dl (neg : bool) st ds post :
  fc_prev f = Some (U "0" + dl) → 0 ≤ dl < 10 → fc_seen_exponent f = false →
  sign_text neg st → decimal_digits ds → (length (fc_chars f) + length ([U "e"] ++ st ++ digit_chars ds) ≤ 64)%nat →
  (length ([U "e"] ++ st ++ digit_chars ds) < n)%nat → terminated post →
  reads (float_loop n f) ([U "e"] ++ st ++ digit_chars ds) post
    (λ r, fc_chars r = fc_chars f ++ exponent_bytes (Some (neg, st, ds)) ∧ ∃ d, fc_prev r = Some (U "0" + d) ∧ 0 ≤ d < 10).
Proof.
  intros Hprev Hdl Hse Hst [Hd Hne] Hlen Hn Hpost. destruct f as [chars prev sd se fip]. cbn [fc_chars fc_prev fc_seen_decimal fc_seen_exponent fc_first_integer_part] in *. subst.
  assert (from_option (λ p, p =? U "_") false (Some (U "0" + dl)) = false) as H1 by apply (digit_class dl Hdl). unfold digit_chars in Hlen, Hn. rewrite !length_app, ?length_fmap in *. cbn [length] in Hlen, Hn.
  assert (∃ dn, last ds = Some dn ∧ 0 ≤ dn < 10) as (dn & Hl & Hr).
  { destruct (last ds) as [dn|] eqn:Hl; [|by apply last_None in Hl]. exists dn. split; [done|].
    apply last_Some_elem_of in Hl. rewrite Forall_forall in Hd. auto. }
  destruct n as [|n]; [lia|].
  apply (reads_float_round _ _ _ _ _ _ (mk_float_chars (chars ++ ["e"%byte]) (Some (U "e")) true true fip)); [done| |].
  { intros x Hx Hp. unfold float_step. rewrite Hx. compare_chars. rewrite H1. cbn [andb].
    change (is_match (U "e") ["e"; "E"]%byte) with true. cbv iota.
    change (from_option (λ p, negb (is_decimal_digit p)) false (Some (U "0" + dl))) with (negb (is_decimal_digit (U "0" + dl))).
    rewrite digit_plus by done. cbn [negb].
    eapply reads_mono; [apply reads_float_store; cbn; lia|]. intros r ->. cbn. by rewrite (ascii_codepoint "e"%byte x), Hx. }
  assert (∀ cs pr k, no_underscore pr → (length cs + length ds ≤ 64)%nat → (length ds < k)%nat →
    reads (float_loop k (mk_float_chars cs pr true true fip)) (digit_chars ds) post
      (λ r, fc_chars r = cs ++ digit_bytes ds ∧ ∃ d, fc_prev r = Some (U "0" + d) ∧ 0 ≤ d < 10)) as Hdigits.
  { intros cs pr k Hpr Hcs Hk. replace k with (length ds + S (k - length ds - 1))%nat by lia. rewrite <- (app_nil_r (digit_chars ds)).
    apply reads_float_digits; [done|done|intros _; by left|done|]. eapply reads_mono; [by apply reads_float_end|]. intros r ->. cbn.
    rewrite Hl. eauto. }
  destruct Hst; cbn [app length] in *.
  - eapply reads_mono; [apply Hdigits; [done|rewrite length_app; cbn; lia|lia]|]. intros r [-> Hr']. split; [|done]. by rewrite <- app_assoc.
  - destruct n as [|n]; [lia|].
    apply (reads_float_round _ _ _ _ _ _ (mk_float_chars ((chars ++ ["e"%byte]) ++ ["+"%byte]) (Some (U "+")) true true fip)); [done| |].
    { intros x Hx Hp. unfold float_step. rewrite Hx. compare_chars. change (from_option (λ p, p =? U "_") false (Some (U "e"))) with false. cbn [andb].
      change (is_match (U "+") ["e"; "E"]%byte) with false. change (is_match (U "+") ["+"; "-"]%byte) with true. cbn [negb].
      change (is_match (U "e") ["e"; "E"]%byte) with true. cbn [negb]. eapply reads_mono; [apply reads_float_store; cbn; rewrite length_app; cbn; lia|].
      intros r ->. cbn. by rewrite (ascii_codepoint "+"%byte x), Hx. }
    eapply reads_mono; [apply Hdigits; [done|rewrite !length_app; cbn; lia|lia]|]. intros r [-> Hr']. split; [|done]. by rewrite <- !app_assoc.
  - destruct n as [|n]; [lia|].
    apply (reads_float_round _ _ _ _ _ _ (mk_float_chars ((chars ++ ["e"%byte]) ++ ["-"%byte]) (Some (U "-")) true true fip)); [done| |].
    { intros x Hx Hp. unfold float_step. rewrite Hx. compare_chars. change (from_option (λ p, p =? U "_") false (Some (U "e"))) with false. cbn [andb].
      change (is_match (U "-") ["e"; "E"]%byte) with false. change (is_match (U "-") ["+"; "-"]%byte) with true. cbn [negb].
      change (is_match (U "e") ["e"; "E"]%byte) with true. cbn [negb]. eapply reads_mono; [apply reads_float_store; cbn; rewrite length_app; cbn; lia|].
      intros r ->. cbn. by rewrite (ascii_codepoint "-"%byte x), Hx. }
    eapply reads_mono; [apply Hdigits; [done|rewrite !length_app; cbn; lia|lia]|]. intros r [-> Hr']. split; [|done]. by rewrite <- !app_assoc.
Qed.

(** All of it. *)
Lemma reads_float_loop p n post :
  float_text p → (length (float_chars_text p) < n)%nat → terminated post →
  reads (float_loop n no_float_chars) (float_chars_text p) post
    (λ r, fc_chars r = float_bytes p ∧ ∃ d, fc_prev r = Some (U "0" + d) ∧ 0 ≤ d < 10).
Proof.
  intros [Hw Hz Hf He Hlen] Hn Hpost. destruct p as [w f e]. unfold float_chars_text, float_bytes in *. cbn [whole fraction exponent] in *.
  rewrite !length_app in Hlen, Hn. assert (length (digit_chars w) = length w) as Hlw by apply length_fmap. rewrite Hlw in Hlen, Hn.
  assert (∀ f0 dl k, fc_prev f0 = Some (U "0" + dl) → 0 ≤ dl < 10 → fc_seen_exponent f0 = false →
    (length (fc_chars f0) + length (exponent_chars e) ≤ 64)%nat → (length (exponent_chars e) < k)%nat →
    reads (float_loop k f0) (exponent_chars e) post
      (λ r, fc_chars r = fc_chars f0 ++ exponent_bytes e ∧ ∃ d, fc_prev r = Some (U "0" + d) ∧ 0 ≤ d < 10)) as Hexp.
  { intros f0 dl k Hp Hdl Hse Hl Hk. destruct e as [[[neg st] ds]|].
    - destruct He as [Hst Hds]. by eapply reads_float_exponent.
    - destruct k as [|k]; [cbn in Hk; lia|]. eapply reads_mono; [by apply reads_float_end|]. intros r ->. rewrite app_nil_r. eauto. }
  replace n with (length w + (n - length w))%nat by lia. apply reads_float_whole; [done|done|lia|]. intros d0 dl Hl Hdl.
  assert (length (digit_bytes w) = length w) as Hlb by apply length_fmap.
  destruct f as [|d f]; cbn [fraction_bytes app] in *.
  - eapply reads_mono; [eapply Hexp; [reflexivity|done|done|cbn; rewrite Hlb; cbn in *; lia|cbn in *; lia]|]. intros r [-> Hr]. done.
  - destruct (n - length w)%nat as [|m] eqn:Hm; [cbn in Hn; lia|]. assert (length (digit_chars (d :: f)) = S (length f)) as Hlf by apply (length_fmap _ (d :: f)).
    cbn [app length] in Hlen, Hn. rewrite Hlf in Hlen, Hn.
    eapply reads_float_point; [reflexivity|done|done|done|reflexivity|cbn; lia|]. cbn [fc_chars].
    replace m with (length (d :: f) + (m - length (d :: f)))%nat by (cbn in *; lia).
    apply reads_float_digits; [done|done|intros _; by left|cbn; rewrite length_app, Hlb; cbn in *; lia|]. cbn [fc_chars fc_prev fc_seen_decimal fc_seen_exponent fc_first_integer_part].
    assert (∃ dn, last (d :: f) = Some dn ∧ 0 ≤ dn < 10) as (dn & Hl' & Hr).
    { destruct (last (d :: f)) as [dn|] eqn:Hl'; [|by apply last_None in Hl']. exists dn. split; [done|].
      apply last_Some_elem_of in Hl'. rewrite Forall_forall in Hf. auto. }
    rewrite Hl'. assert (length (digit_bytes (d :: f)) = S (length f)) as Hlbf by apply (length_fmap _ (d :: f)).
    eapply reads_mono; [eapply Hexp; [reflexivity|done|done|cbn [fc_chars]; rewrite !length_app, Hlb, Hlbf; cbn; lia|cbn in *; lia]|].
    intros r [-> Hr']. split; [|done]. cbn [fc_chars]. by rewrite <- !app_assoc.
Qed.

(** ** The value *)
Lemma leading_digits_text ds r :
  Forall (λ d, 0 ≤ d < 10) ds → from_option (λ b, is_decimal_digit (U b)) false (head r) = false → leading_digits (digit_bytes ds ++ r) = (ds, r).
Proof.
  intros Hd Hr. induction Hd as [|d ds Hd _ IH].
  - destruct r as [|b r]; [done|]. cbn [head] in Hr. change (is_decimal_digit (U b) = false) in Hr. cbn [digit_bytes fmap list_fmap app leading_digits]. by rewrite Hr.
  - change (digit_bytes (d :: ds) ++ r) with (char_of_digit d :: (digit_bytes ds ++ r)). cbn [leading_digits]. rewrite IH.
    assert (U (char_of_digit d) = U "0" + d) as ->.
    { unfold char_of_digit. rewrite (proj2 (Z.ltb_lt d 10)) by lia. apply digit_byte. lia. }
    rewrite digit_plus by done. f_equal. f_equal. lia.
Qed.

Lemma extract_float p :
  float_text p → extract_double (float_bytes p) = match float_value p with S754_infinity _ => None | x => Some x end.
Proof.
  intros [[Hw Hne] _ Hf He _]. destruct p as [w f e]. unfold float_bytes, float_value, extract_double in *. cbn [whole fraction exponent] in *.
  assert (∀ r, (match e with
     | Some _ => ∃ neg st ds, e = Some (neg, st, ds) ∧ r = exponent_bytes e
     | None => r = [] end) →
    match r with
    | x :: r' => if is_match (U x) ["e"; "E"]%byte then
        let '(neg, r'') := match r' with "-"%byte :: t => (true, t) | "+"%byte :: t => (false, t) | _ => (false, r') end in
        let v := digits_value 10 (leading_digits r'').1 in if (neg : bool) then - v else v else 0
    | [] => 0 end = exponent_value e) as Hexp.
  { intros r Hr. destruct e as [[[neg st] ds]|]; [|by subst]. destruct Hr as (neg' & st' & ds' & [= <- <- <-] & ->).
    destruct He as [Hst [Hds Hdne]]. cbn [exponent_bytes app]. change (is_match (U "e") ["e"; "E"]%byte) with true. cbv iota.
    assert (leading_digits (digit_bytes ds) = (ds, [])) as Hld by (rewrite <- (app_nil_r (digit_bytes ds)); by apply leading_digits_text).
    destruct Hst; cbn [sign_bytes fmap list_fmap app exponent_value].
    - destruct ds as [|d ds]; [done|]. inversion Hds as [|? ? Hd _]; subst.
      assert (match digit_bytes (d :: ds) with "-"%byte :: t => (true, t) | "+"%byte :: t => (false, t) | _ => (false, digit_bytes (d :: ds)) end
        = (false, digit_bytes (d :: ds))) as ->.
      { cbn [digit_bytes fmap list_fmap]. assert (0 ≤ d < 10) as Hd' by done. clear -Hd'.
        assert (d = 0 ∨ d = 1 ∨ d = 2 ∨ d = 3 ∨ d = 4 ∨ d = 5 ∨ d = 6 ∨ d = 7 ∨ d = 8 ∨ d = 9) as Hc by lia.
        repeat (destruct Hc as [->|Hc]; [reflexivity|]). by subst d. }
      rewrite Hld. done.
    - change (byte_of_Z (U "+")) with "+"%byte. cbv iota. by rewrite Hld.
    - change (byte_of_Z (U "-")) with "-"%byte. cbv iota. by rewrite Hld. }
  assert (from_option (λ b, is_decimal_digit (U b)) false (head (exponent_bytes e)) = false) as Hhe by (by destruct e as [[[neg st] ds]|]).
  rewrite leading_digits_text; [|done|destruct f; [exact Hhe|done]].
  assert (match fraction_bytes f ++ exponent_bytes e with "."%byte :: r' => leading_digits r' | _ => ([], fraction_bytes f ++ exponent_bytes e) end
    = (f, exponent_bytes e)) as ->.
  { destruct f as [|d f]; cbn [fraction_bytes app].
    - destruct e as [[[neg st] ds]|]; done.
    - apply leading_digits_text; [done|exact Hhe]. }
  cbv beta iota. destruct (w ++ f) as [|d0 dsf] eqn:Hwf; [by apply app_eq_nil in Hwf as [-> _]|]. cbv zeta.
  cbv zeta in Hexp. rewrite (Hexp (exponent_bytes e)) by (destruct e as [[[neg st] ds]|]; [by exists neg, st, ds|done]).
  done.
Qed.

Lemma float_text_cons p : float_text p → ∃ c t, float_chars_text p = c :: t ∧ is_decimal_digit c = true.
Proof.
  intros [[Hw Hne] _ _ _ _]. unfold float_chars_text. destruct (whole p) as [|d w]; [done|]. inversion Hw; subst.
  eexists _, _. split; [reflexivity|]. by apply digit_plus.
Qed.

Lemma reads_parse_float neg st p post :
  sign_text neg st → float_text p → finite (float_value p) → terminated post →
  reads parse_float (st ++ float_chars_text p) post (λ r, r = if neg then SFopp (float_value p) else float_value p).
Proof.
  intros Hst Hp Hfin Hpost. apply reads_scoped. destruct (float_text_cons p Hp) as (c & t & Hc & Hdig).
  assert (reads (f ← looping (λ n, float_loop n no_float_chars);
    match fc_prev f with
    | Some p =>
      if p =? U "_" then set_error_if_eof;; set_error [bs "underscores must be followed by digits"]
      else if is_match p ["e"; "E"; "+"; "-"; "."]%byte then
        set_error_if_eof;; saw (bs "expected decimal digit, saw '")
      else mret ()
    | None => mret ()
    end;;
    match extract_double (fc_chars f) with
    | Some x => mret (if neg then SFopp x else x)
    | None => set_error [bs "'"; fc_chars f; bs "' could not be interpreted as a value"]
    end) (float_chars_text p) post (λ r, r = if neg then SFopp (float_value p) else float_value p)) as Hrest.
  { rewrite <- (app_nil_r (float_chars_text p)). eapply reads_bind.
    - apply reads_looping. intros n Hn. apply reads_float_loop; [done| |done]. rewrite length_app in Hn. lia.
    - intros f (Hf & d & Hd & Hr). assert (extract_double (fc_chars f) = Some (float_value p)) as -> by (rewrite Hf, extract_float by done; by destruct (float_value p)). rewrite Hd. destruct (digit_class d Hr) as (-> & _ & _ & _ & _ & ->).
      apply (reads_bind _ _ [] [] _ (λ _, True)); [by rd|]. intros _ _. by apply reads_ret. }
  destruct Hst; cbn [app].
  - eapply reads_cur; [by rewrite Hc|]. intros x Hx _. rewrite Hx.
    assert ((c =? U "-") = false ∧ is_match c ["+"; "-"]%byte = false) as [-> ->].
    { unfold is_match. cbn [existsb]. clear -Hdig. split; by character_classes. }
    cbv zeta. apply (reads_bind _ _ [] _ _ (λ _, True)); [by rd|]. intros _ _. exact Hrest.
  - rd. compare_chars. change (is_match (U "+") ["+"; "-"]%byte) with true. cbv iota zeta. apply reads_advance_not_eof; [by rewrite Hc|]. exact Hrest.
  - rd. compare_chars. change (is_match (U "-") ["+"; "-"]%byte) with true. cbv iota zeta. apply reads_advance_not_eof; [by rewrite Hc|]. exact Hrest.
Qed.

(** ** Recognised as a float *)
Section recognised_float.
Import traits.

Definition start_traits (st : list Z) (c : Z) : Z := match st with [] => digit_traits c | _ => begins_sign end.
Definition sign_traits (st : list Z) : Z := foldl Z.lor 0 (trait_of <$> st).

(** Before the exponent. *)
Definition mantissa_chars (st : list Z) (p : float_parts) : list Z :=
  st ++ digit_chars (whole p) ++ match fraction p with [] => [] | fp => [U "."] ++ digit_chars fp end.
Definition mantissa_traits (first : Z) (st : list Z) (dot : bool) : Z :=
  Z.lor (Z.lor (Z.lor first (sign_traits st)) has_digits) (if dot then has_dot else 0).

Lemma decimal_digits_traits ds a : decimal_digits ds → foldl Z.lor a (trait_of <$> digit_chars ds) = Z.lor a has_digits.
Proof. intros [Hd Hne]. rewrite digit_chars_traits by done. destruct ds as [|d ds]; [done|]. apply lor_digits. Qed.

Lemma mantissa_temporal neg st p first :
  sign_text neg st → float_text p →
  Forall (λ c, temporal_char c = true) (mantissa_chars st p) ∧
  foldl Z.lor first (trait_of <$> mantissa_chars st p) = mantissa_traits first st (bool_decide (fraction p ≠ [])).
Proof.
  intros Hst [Hw _ Hf _ _]. unfold mantissa_chars. split.
  - rewrite !Forall_app. split_and!; [destruct Hst; by repeat constructor|apply digit_chars_temporal, Hw|].
    destruct (fraction p); [constructor|]. apply Forall_app. split; [by repeat constructor|by apply digit_chars_temporal].
  - rewrite !fmap_app, !foldl_app, decimal_digits_traits by done. unfold mantissa_traits.
    assert (foldl Z.lor first (trait_of <$> st) = Z.lor first (sign_traits st)) as -> by (destruct Hst; [symmetry; apply Z.lor_0_r|done|done]).
    destruct (fraction p) as [|d f].
    + rewrite bool_decide_false by (intros H; by apply H). cbn [fmap list_fmap foldl]. by rewrite Z.lor_0_r.
    + rewrite bool_decide_true by done. rewrite fmap_app, foldl_app, decimal_digits_traits by done.
      change (trait_of <$> [U "."]) with [has_dot]. cbn [foldl]. rewrite <- !Z.lor_assoc, (Z.lor_comm has_dot). by rewrite (Z.lor_assoc has_digits has_digits), Z.lor_diag.
Qed.

(** The four ways a float begins. *)
Lemma float_begins neg st c (P : Z → list Z → Prop) :
  sign_text neg st → P begins_zero [] → P begins_digit [] → P begins_sign [U "+"] → P begins_sign [U "-"] → P (start_traits st c) st.
Proof. intros [] H1 H2 H3 H4; cbn [start_traits]; [destruct (digit_traits_cases c) as [->| ->]|..]; done. Qed.

Lemma mantissa_count st p : float_text p → 1 ≤ Z.of_nat (length (mantissa_chars st p)).
Proof.
  intros [[_ Hne] _ _ _ _]. unfold mantissa_chars, digit_chars. rewrite !length_app, length_fmap. destruct (whole p); [done|]. cbn [length]. lia.
Qed.

(** The [e] of the exponent is recognised. *)
Lemma scan_exponent_char neg st p c :
  sign_text neg st → float_text p →
  scan_step (mk_scanned (mantissa_chars st p) (mantissa_traits (start_traits st c) st (bool_decide (fraction p ≠ [])))
    (Z.of_nat (length (mantissa_chars st p))) false) (U "e") =
  mk_scanned (mantissa_chars st p ++ [U "e"]) (Z.lor (mantissa_traits (start_traits st c) st (bool_decide (fraction p ≠ []))) has_e)
    (Z.of_nat (length (mantissa_chars st p)) + 1) false.
Proof.
  intros Hst Hp. pose proof (mantissa_count st p Hp) as Hc. generalize dependent (mantissa_chars st p). intros cs Hc.
  generalize (bool_decide (fraction p ≠ [])). intros dot. unfold scan_step, scan_char. change (U "e" =? U "_") with false. cbv iota.
  unfold scan_advanced, scan_traits. cbn [scan_push sc_chars sc_traits sc_advance_count]. f_equal. f_equal.
  unfold char_traits, char_count. cbn [scan_push sc_traits sc_chars]. rewrite length_app. cbn [length].
  change (is_decimal_digit (U "e")) with false. change (is_ascii_letter (U "e")) with true. change (Z.lor (U "e") 32) with (U "e"). compare_chars.
  rewrite (proj2 (Z.ltb_lt 1 _)) by lia. cbn [andb].
  assert (has_none (mantissa_traits (start_traits st c) st dot) [has_b; has_o; has_p; has_t; has_x; has_z; has_colon]
      && (has_none (mantissa_traits (start_traits st c) st dot) [has_plus; has_minus] || has_any (mantissa_traits (start_traits st c) st dot) [begins_sign]) = true) as ->;
    [|done].
  apply (float_begins neg st c (λ ft st, has_none (mantissa_traits ft st dot) [has_b; has_o; has_p; has_t; has_x; has_z; has_colon]
    && (has_none (mantissa_traits ft st dot) [has_plus; has_minus] || has_any (mantissa_traits ft st dot) [begins_sign]) = true) Hst); by destruct dot.
Qed.

(** What the scan finds. *)
Definition exponent_sign_traits (e : option (bool * list Z * list Z)) : Z :=
  match e with Some (_, st, _) => bor [has_e; sign_traits st; has_digits] | None => 0 end.

Lemma scan_float neg st p c :
  sign_text neg st → float_text p →
  foldl scan_step (mk_scanned [] (start_traits st c) 0 false) (st ++ float_chars_text p) =
    mk_scanned (st ++ float_chars_text p)
      (Z.lor (mantissa_traits (start_traits st c) st (bool_decide (fraction p ≠ []))) (exponent_sign_traits (exponent p)))
      (Z.of_nat (length (st ++ float_chars_text p))) false.
Proof.
  intros Hst Hp. destruct (mantissa_temporal neg st p (start_traits st c) Hst Hp) as [Hm1 Hm2].
  assert (st ++ float_chars_text p = mantissa_chars st p ++ exponent_chars (exponent p)) as ->.
  { unfold float_chars_text, mantissa_chars. by rewrite <- !app_assoc. }
  rewrite foldl_app, scan_temporal, Hm2 by done. destruct Hp as [Hw Hz Hf He Hl]. pose proof (mk_float_text p Hw Hz Hf He Hl) as Hp.
  destruct (exponent p) as [[[eneg est] ds]|] eqn:Hexp; cbn [exponent_chars exponent_sign_traits].
  2: { cbn [foldl]. by rewrite app_nil_r, Z.lor_0_r. }
  destruct He as [Hest Hds]. cbn [app foldl]. rewrite (scan_exponent_char neg) by done.
  assert (Forall (λ c, temporal_char c = true) (est ++ digit_chars ds)) as Ht.
  { apply Forall_app. split; [destruct Hest; by repeat constructor|apply digit_chars_temporal, Hds]. }
  rewrite scan_temporal_from by done. cbn [sc_chars sc_traits sc_advance_count]. rewrite fmap_app, foldl_app, decimal_digits_traits by done.
  rewrite <- app_assoc. cbn [app]. f_equal.
  - assert (∀ a, foldl Z.lor a (trait_of <$> est) = Z.lor a (sign_traits est)) as -> by (intros a; destruct Hest; [symmetry; apply Z.lor_0_r|done|done]).
    unfold bor. cbn [foldl]. rewrite Z.lor_0_l. by rewrite <- !Z.lor_assoc.
  - rewrite !length_app. cbn [length]. rewrite !length_app. lia.
Qed.

Lemma float_in_value neg st p : sign_text neg st → float_text p → Forall (λ c, is_value_terminator c = false) (st ++ float_chars_text p).
Proof.
  intros Hst [[Hw _] _ Hf He _]. rewrite Forall_app. split; [destruct Hst; by repeat constructor|]. unfold float_chars_text. rewrite !Forall_app. split_and!.
  - by apply temporal_in_value, digit_chars_temporal.
  - destruct (fraction p); [constructor|]. constructor; [done|]. by apply temporal_in_value, digit_chars_temporal.
  - destruct (exponent p) as [[[eneg est] ds]|]; [|constructor]. destruct He as [Hest [Hds _]]. constructor; [done|]. apply Forall_app.
    split; [destruct Hest; by repeat constructor|by apply temporal_in_value, digit_chars_temporal].
Qed.

Lemma float_length p : float_text p → (2 ≤ length (float_chars_text p))%nat ∧ (exponent p = None → 3 ≤ length (float_chars_text p))%nat.
Proof.
  intros [[_ Hw] _ _ He _]. unfold float_chars_text, digit_chars. rewrite !length_app, length_fmap.
  assert (1 ≤ length (whole p))%nat by (destruct (whole p); [done|cbn; lia]). destruct (exponent p) as [[[eneg est] ds]|]; cbn [exponent_chars].
  - cbn [app length]. split; [lia|done].
  - destruct (fraction p) as [|d f]; [done|]. cbn. lia.
Qed.

(** A float with an exponent is recognised by it. *)
Lemma fuzzy_match_exponent neg st p c eneg est ds chars n e :
  sign_text neg st → float_text p → exponent p = Some (eneg, est, ds) →
  fuzzy_match (mk_scanned chars
    (Z.lor (mantissa_traits (start_traits st c) st (bool_decide (fraction p ≠ []))) (exponent_sign_traits (exponent p))) n e) =
  new_float parse_float.
Proof.
  intros Hst Hp Hexp. rewrite Hexp.
  destruct Hp as [_ _ _ He _]. rewrite Hexp in He. destruct He as [Hest _]. unfold fuzzy_match. cbn [sc_traits exponent_sign_traits].
  set (T := Z.lor _ _).
  assert (has_any T [has_p] = false ∧ has_any T [has_x] = false ∧ has_any T [has_o] = false ∧ has_any T [has_b] = false ∧ has_any T [has_e] = true)
    as (-> & -> & -> & -> & ->); [|done]. unfold T.
  apply (float_begins neg st c (λ ft st', let T := Z.lor (mantissa_traits ft st' _) _ in has_any T [has_p] = false ∧ has_any T [has_x] = false ∧
    has_any T [has_o] = false ∧ has_any T [has_b] = false ∧ has_any T [has_e] = true) Hst);
    destruct (bool_decide (fraction p ≠ [])); destruct Hest; done.
Qed.

(** All the ways lead to [parse_float]. *)
Lemma float_recognised neg st p c t e n post Q :
  sign_text neg st → float_text p → float_chars_text p = c :: t →
  reads (new_float parse_float) (st ++ float_chars_text p) post (λ r, ∃ nd, r = Some nd ∧ Q nd) →
  let sc := mk_scanned (st ++ float_chars_text p)
    (Z.lor (mantissa_traits (start_traits st c) st (bool_decide (fraction p ≠ []))) (exponent_sign_traits (exponent p))) n e in
  reads (v ← fuzzy_match sc; match v with Some _ => mret v | None => exact_match (sc_traits sc) end) (st ++ float_chars_text p) post
    (λ r, ∃ nd, r = Some nd ∧ Q nd).
Proof.
  intros Hst Hp Hc Hf sc.
  assert (reads (new_float parse_float ≫= λ v, match v with Some _ => mret v | None => exact_match (sc_traits sc) end)
    (st ++ float_chars_text p) post (λ r, ∃ nd, r = Some nd ∧ Q nd)) as Hfound.
  { rewrite <- (app_nil_r (_ ++ _)). eapply reads_bind; [exact Hf|]. intros r (nd & -> & Hnd). apply reads_ret. eauto. }
  assert (is_decimal_digit c = true) as Hdig.
  { destruct (float_text_cons p Hp) as (c' & t' & Hc' & Hd). rewrite Hc in Hc'. by injection Hc' as -> _. }
  destruct (exponent p) as [[[eneg est] ds]|] eqn:Hexp.
  - assert (fuzzy_match sc = new_float parse_float) as ->; [|exact Hfound]. unfold sc. rewrite <- Hexp. by eapply fuzzy_match_exponent.
  - assert (bool_decide (fraction p ≠ []) = true) as Hdot.
    { apply bool_decide_eq_true. destruct Hp as [_ _ _ He _]. by rewrite Hexp in He. }
    unfold sc in *. rewrite Hdot in *. cbn [exponent_sign_traits] in *. rewrite Z.lor_0_r in *. cbn [sc_traits] in *.
    assert (exact_match (mantissa_traits (start_traits st c) st true) = new_float parse_float) as Hexact.
    { apply (float_begins neg st c (λ ft st', exact_match (mantissa_traits ft st' true) = new_float parse_float) Hst); reflexivity. }
    assert (reads (mret None ≫= λ v, match v with Some _ => mret v | None => exact_match (mantissa_traits (start_traits st c) st true) end)
      (st ++ float_chars_text p) post (λ r, ∃ nd, r = Some nd ∧ Q nd)) as Hnone.
    { apply (reads_bind _ _ [] _ _ (λ r, r = None)); [by apply reads_ret|]. intros r ->. rewrite Hexact. exact Hf. }
    assert (∀ s0, char_count (mk_scanned (s0 :: float_chars_text p) (mantissa_traits begins_sign st true) n e) =? 2 = false) as Hcount.
    { intros s0. unfold char_count. cbn [sc_chars length]. apply Z.eqb_neq. destruct (float_length p Hp) as [_ H3]. specialize (H3 Hexp). lia. }
    assert (is_match c ["i"; "n"; "I"; "N"]%byte = false) as Hni.
    { unfold is_match. cbn [existsb]. clear -Hdig. by character_classes. }
    assert (∀ s0, st = [s0] → has_any (mantissa_traits begins_sign st true) [has_p] = false ∧ has_any (mantissa_traits begins_sign st true) [has_x] = false ∧
      has_any (mantissa_traits begins_sign st true) [has_o] = false ∧ has_any (mantissa_traits begins_sign st true) [has_b] = false ∧
      has_any (mantissa_traits begins_sign st true) [has_e] = false ∧ has_any (mantissa_traits begins_sign st true) [begins_zero; begins_digit] = false ∧
      has_any (mantissa_traits begins_sign st true) [begins_sign] = true →
      reads (fuzzy_match (mk_scanned (st ++ float_chars_text p) (mantissa_traits begins_sign st true) n e) ≫= λ v,
        match v with Some _ => mret v | None => exact_match (mantissa_traits begins_sign st true) end) (st ++ float_chars_text p) post
        (λ r, ∃ nd, r = Some nd ∧ Q nd)) as Hsign.
    { intros s0 -> (H1 & H2 & H3 & H4 & H5 & H6 & H7). unfold fuzzy_match. cbn [sc_traits app start_traits] in *. rewrite H1, H2, H3, H4, H5, H6, H7, Hcount. cbn [orb andb].
      change (char_at (mk_scanned (s0 :: float_chars_text p) (mantissa_traits begins_sign [s0] true) n e) 1) with (default 0 (float_chars_text p !! 0%nat)).
      rewrite Hc in *. change (default 0 ((c :: t) !! 0%nat)) with c. rewrite Hdig, Hni. cbn [andb]. case_match; [exact Hfound|exact Hnone]. }
    clear Hexact. cbn [sc_traits]. destruct Hst; cbn [start_traits app] in *.
    + unfold fuzzy_match. cbn [sc_traits]. destruct (digit_traits_cases c) as [Hd|Hd]; rewrite Hd in *; compute_traits; cbv iota; cbn [orb andb]; (case_match; [exact Hfound|exact Hnone]).
    + eapply Hsign; [reflexivity|]. by compute_traits.
    + eapply Hsign; [reflexivity|]. by compute_traits.
Qed.

Lemma reads_number_float neg st p c t post :
  sign_text neg st → float_text p → finite (float_value p) → float_chars_text p = c :: t → ends_value post →
  reads (parse_number_like (start_traits st c)) (st ++ float_chars_text p) post
    (λ r, ∃ nd, r = Some nd ∧ nd = VFloat (if neg then SFopp (float_value p) else float_value p) no_region).
Proof.
  intros Hst Hp Hfin Hc Hpost. unfold parse_number_like. pose proof (scan_float neg st p c Hst Hp) as Hscan.
  assert (2 ≤ length (st ++ float_chars_text p) ≤ 65)%nat as Hlen.
  { pose proof (ft_length p Hp) as Hl. rewrite length_app. assert (length st ≤ 1)%nat by (destruct Hst; cbn; lia). split; [|lia].
    destruct (float_length p Hp). lia. }
  apply reads_scan_value; rewrite ?Hscan; try done; [rewrite Hc; by destruct st|by eapply float_in_value|lia|].
  intros e. unfold set_eof. cbn [sc_chars sc_traits sc_advance_count]. unfold char_count at 1. cbn [sc_chars].
  rewrite (proj2 (Z.eqb_neq _ 1)) by lia. eapply float_recognised; [exact Hst|exact Hp|exact Hc|].
  unfold new_float. rewrite <- (app_nil_r (st ++ _)). eapply reads_bind; [apply reads_parse_float; [exact Hst|exact Hp|exact Hfin|apply Hpost]|].
  intros r ->. apply reads_ret. eauto.
Qed.
End recognised_float.
