(* ===== verification/TomlValues.v ===== *)
(** * TomlValues: values read from a text

    The value texts of [TomlGrammar.v] are parsed to nodes with the
    data they stand for: strings, integers, booleans, arrays and inline tables,
    nested in each other. *)
From Stdlib Require Import SpecFloat.
From S2P Require Import Prelude Bytes Env TomlNode TomlUtf8 TomlReader TomlParser TomlScalar TomlDocument TomlExact TomlText TomlGrammar TomlStrings TomlNumbers TomlBlanks TomlKeys TomlTimes TomlFloats.

Local Open Scope Z_scope.

(** ** The first character of a value *)
Definition starts_value (c : Z) : bool :=
  negb (is_value_terminator c) && negb (is_control_character c) && negb (c =? U "_").

Lemma starts_value_spec c :
  starts_value c = true →
  is_value_terminator c = false ∧ is_control_character c = false ∧ (c =? U "_") = false ∧ not_blank c = true ∧
  (c =? U ",") = false ∧ (c =? U "]") = false.
Proof.
  unfold starts_value, not_blank. rewrite !andb_true_iff, !negb_true_iff. intros [[Hc1 Hc2] Hc3]. split_and!; try done; by character_classes.
Qed.

Lemma digit_starts_value b : is_decimal_digit (U b) = true → starts_value (U b) = true.
Proof. unfold starts_value. generalize (U b). intros c Hc. by character_classes. Qed.

(** Numbers, dates and times begin with a digit or a sign. *)
Definition number_start (c : Z) : bool := is_decimal_digit c || is_match c ["+"; "-"]%byte.

Lemma number_starts_value c : number_start c = true → starts_value c = true.
Proof. unfold number_start, starts_value, is_match. cbn [existsb]. intros Hc. by character_classes. Qed.

Lemma integer_cons z t : decimal_text z t → ∃ c t', t = c :: t' ∧ number_start c = true.
Proof.
  intros Ht. destruct (reads_decimal z t [] Ht) as (c & t' & Hc & Hs & _); [by split|]. by exists c, t'.
Qed.

Lemma date_cons d : calendar_date d → ∃ c t, date_text d = c :: t ∧ is_decimal_digit c = true.
Proof.
  intros (Hy & _). destruct (four_digits _ Hy) as [Hd _]. inversion Hd as [|? ? H _]; subst. eexists _, _. split; [reflexivity|]. by apply digit_plus.
Qed.

Lemma time_cons tm t : time_text tm t → ∃ c t', t = c :: t' ∧ is_decimal_digit c = true.
Proof.
  intros [tm' f (Hh & _) _]. destruct (two_digits (t_hour tm')) as [Hd _]; [lia|]. inversion Hd as [|? ? H _]; subst.
  eexists _, _. split; [reflexivity|]. by apply digit_plus.
Qed.

Lemma value_text_cons d t : value_text d t → ∃ c t', t = c :: t' ∧ starts_value c = true.
Proof.
  intros Ht. assert ((∃ c t', t = c :: t' ∧ number_start c = true) ∨ ∃ c t', t = c :: t' ∧ starts_value c = true) as [(c & t' & -> & Hc)|H];
    [|exists c, t'; split; [done|by apply number_starts_value]|done].
  destruct Ht as [s t' Hs|s t' Hs|z t' Hz|z t' Hz|neg st fp Hst Hfp Hfin|neg st Hst|neg st Hst|d Hd|tm t' Htm|dt tt ot Hd Htt Hot|b|l t' _|b _|l m t' _ _ _];
    try by (right; eexists _, _; split; reflexivity).
  - right. destruct Hs; by eexists _, _.
  - right. destruct Hs; by eexists _, _.
  - left. by eapply integer_cons.
  - left. destruct Hz. by eexists _, _.
  - left. destruct (float_text_cons fp Hfp) as (c & t' & Hc & Hd). rewrite Hc. destruct Hst; eexists _, _; (split; [reflexivity|]); try done.
    unfold number_start. by rewrite Hd.
  - right. destruct Hst; by eexists _, _.
  - right. destruct Hst; by eexists _, _.
  - left. destruct (date_cons d Hd) as (c & t' & -> & Hc). exists c, t'. split; [done|]. unfold number_start. by rewrite Hc.
  - left. destruct (time_cons _ _ Htm) as (c & t'' & -> & Hc). exists c, t''. split; [done|]. unfold number_start. by rewrite Hc.
  - left. destruct (date_cons _ Hd) as (c & t' & -> & Hc). eexists c, _. split; [reflexivity|]. unfold number_start. by rewrite Hc.
  - right. destruct b; by eexists _, _.
Qed.

(** ** The end of a value *)
Lemma ends_value_blanks_rest b rest :
  array_blanks b → match rest with [] => True | c :: _ => is_value_terminator c = true ∧ c ≠ U " " end → ends_value (b ++ rest).
Proof.
  intros Hb Hrest.
  assert (∀ b, array_blanks b → terminated (b ++ rest)) as Hhead.
  { intros b' [|c' b'' [->| ->] _|nl b'' [->| ->] _|cs nl b'' (t & -> & _) _ _]; try done. destruct rest; [done|apply Hrest]. }
  split; [by apply Hhead|]. intros c1 t.
  destruct Hb as [|c' b' _ Hb'|nl b' [->| ->] _|cs nl b' (t' & -> & _) _ _]; cbn [app].
  - intros ->. by destruct Hrest.
  - intros [= -> Ht]. specialize (Hhead b' Hb'). rewrite Ht in Hhead. cbn in Hhead. clear -Hhead. by character_classes.
  - done.
  - done.
  - done.
Qed.

Lemma ends_value_blanks b c post :
  array_blanks b → is_value_terminator c = true → c ≠ U " " → ends_value (b ++ c :: post).
Proof. intros. by apply ends_value_blanks_rest. Qed.

(** ** The data of a table *)
Lemma do_get_strip m k : do_get (strip_map m) k = strip <$> do_get m k.
Proof. induction m as [|[k' x] m IH]; cbn; [done|]. by case_decide. Qed.

Lemma strip_emplace m k v : strip_map (emplace k v m) = emplace k (strip v) (strip_map m).
Proof. induction m as [|[k' x] m IH]; cbn; [done|]. destruct (bytes_compare k k'); cbn; [done|done|]. by f_equal. Qed.

Lemma strip_alter m k v : strip_map (map_alter (λ _, v) k m) = map_alter (λ _, strip v) k (strip_map m).
Proof. induction m as [|[k' x] m IH]; cbn; [done|]. case_decide; cbn; [done|]. by f_equal. Qed.

(** ** Arrays *)
Lemma reads_alloc {A} (f : positive → P A) pre post Q :
  (∀ a, reads (f a) pre post Q) → reads (alloc ≫= f) pre post Q.
Proof.
  intros Hf. apply (reads_step _ _ _ _ _ (λ _, True)); [|auto]. intros s k past _. eexists _, _. split; [reflexivity|].
  split_and!; [done..|]. split; try done. cbn. lia.
Qed.

Section inner.
Context (inner : P node) (size : nat).

(** The values nested in another are read by [inner]. *)
Hypothesis reads_inner : ∀ d t post,
  value_text d t → (length t < size)%nat → ends_value post → reads inner t post (λ nd, strip nd = d).

Lemma reads_array_element d t b n vals prev rest post Q :
  array_blanks b → value_text d t → (length t < size)%nat → prev ≠ elem_val → ends_value (rest ++ post) →
  (∀ nd, strip nd = d → reads (array_loop inner n (vals ++ [nd]) elem_val) rest post Q) →
  reads (array_loop inner (S n) vals prev) (b ++ t ++ rest) post Q.
Proof using reads_inner.
  intros Hb Ht Hsize Hprev Hrest Hnext. destruct (value_text_cons _ _ Ht) as (c & t' & Hc & Hstart).
  apply starts_value_spec in Hstart as (_ & _ & _ & Hblank & Hcomma & Hclose). cbn [array_loop].
  eapply reads_bind; [apply reads_array_blanks; [done|by rewrite Hc]|]. intros _ _.
  apply reads_not_eof; [by rewrite Hc|]. eapply reads_cur; [by rewrite Hc|]. intros x Hx _. rewrite Hx, Hcomma, Hclose.
  assert (reads (inner ≫= λ v, array_loop inner n (vals ++ [v]) elem_val) (t ++ rest) post Q); [|by destruct prev].
  eapply reads_bind; [by apply reads_inner|done].
Qed.

Lemma reads_array_loop l t n vals prev post :
  elements_text l t → (length t < size)%nat → prev ≠ elem_val → (length (t ++ [U "]"]) < n)%nat →
  reads (array_loop inner n vals prev) (t ++ [U "]"]) post (λ r, map strip r = map strip vals ++ l).
Proof using reads_inner.
  intros Ht. revert n vals prev. induction Ht as [b Hb|d t b b' Hb Ht Hb'|d t b b' l ts Hb Ht Hb' Hts IH];
    intros [|n] vals prev Hsize Hprev Hn; try lia; rewrite !length_app in *; cbn [length] in *.
  - cbn [array_loop]. eapply reads_bind; [by apply reads_array_blanks|]. intros _ _. do 2 rd. compare_chars.
    rd. apply reads_ret. by rewrite app_nil_r.
  - rewrite <- !app_assoc. apply reads_array_element with d; try done; [lia|by rewrite <- app_assoc; apply ends_value_blanks|].
    intros nd Hnd. destruct n as [|n]; [lia|]. cbn [array_loop]. eapply reads_bind; [by apply reads_array_blanks|].
    intros _ _. do 2 rd. compare_chars. rd. apply reads_ret. rewrite map_app. cbn [map]. by rewrite Hnd.
  - rewrite <- !app_assoc. pose proof (value_text_cons _ _ Ht) as (c & t' & Hc & _). assert (0 < length t)%nat by (rewrite Hc; cbn; lia).
    apply reads_array_element with d; try done; [lia|by rewrite <- !app_assoc; apply ends_value_blanks|].
    intros nd Hnd. destruct n as [|n]; [lia|]. cbn [array_loop]. eapply reads_bind; [by apply reads_array_blanks|].
    intros _ _. cbn [app]. do 2 rd. compare_chars. apply reads_advance_not_eof; [by destruct ts|].
    eapply reads_mono; [apply IH; [lia|done|lia]|]. intros r ->. rewrite map_app, <- app_assoc. cbn [map]. by rewrite Hnd.
Qed.

Lemma reads_array l t post :
  elements_text l t → (length t < size)%nat →
  reads (parse_array inner) ([U "["] ++ t ++ [U "]"]) post (λ nd, strip nd = DArray l).
Proof using reads_inner.
  intros Hl Hsize. apply reads_scoped. cbn [app]. apply reads_advance_not_eof; [by destruct t|].
  apply reads_alloc. intros a. rewrite <- (app_nil_r (t ++ _)).
  eapply reads_bind; [apply reads_looping; intros n Hn; apply reads_array_loop; try done|].
  - rewrite length_app in Hn. lia.
  - intros vals Hvals. apply reads_ret. cbn. by rewrite Hvals.
Qed.

(** ** Key-value pairs *)
Lemma reads_pair ks kt e d t post :
  path_text ks kt → equals_text e → value_text d t → (length t < size)%nat → ends_value post →
  reads (parse_key_value_pair inner) (kt ++ e ++ t) post (λ r, r.1 = ks ∧ strip r.2 = d).
Proof using reads_inner.
  intros Hk [b b' Hb Hb'] Ht Hsize Hpost. destruct (value_text_cons _ _ Ht) as (c & t' & Hc & Hstart).
  apply starts_value_spec in Hstart as (Hterm & _ & _ & (Hws & _)%not_blank_spec & _).
  apply reads_scoped, reads_modify; [done|].
  replace (kt ++ (b ++ [U "="] ++ b') ++ t) with ((kt ++ b) ++ U "=" :: b' ++ t) by by rewrite <- !app_assoc.
  eapply reads_bind; [by apply (reads_parse_key ks)|]. intros r ->. apply reads_modify; [done|].
  apply (reads_bind _ _ [] _ _ (λ _, True)); [eapply reads_mono; [by apply reads_no_whitespace|done]|]. intros _ _.
  do 2 rd. compare_chars. cbn [negb]. apply (reads_bind _ _ [] _ _ (λ _, True)); [by rd|]. intros _ _.
  apply reads_advance_not_eof; [rewrite Hc; by destruct b'|]. apply (reads_bind _ _ b' t _ (λ _, True)).
  { eapply reads_mono; [apply reads_spaces; [done|]|done]. rewrite Hc. cbn. by rewrite Hws. }
  intros _ _. apply reads_not_eof; [by rewrite Hc|]. eapply reads_cur; [by rewrite Hc|]. intros y Hy _.
  rewrite Hy, Hterm, <- (app_nil_r t). eapply reads_bind; [by apply reads_inner|]. intros nd Hnd. by apply reads_ret.
Qed.

Lemma reads_insert k kt e d t m post :
  key_text k kt → equals_text e → value_text d t → (length t < size)%nat → ends_value post → k ∉ m.*1 →
  reads (parse_key_value_pair_and_insert inner m) (kt ++ e ++ t) post
    (λ r, ∃ nd, strip nd = d ∧ r = emplace k nd m).
Proof using reads_inner.
  intros Hk He Ht Hsize Hpost Hm. apply reads_scoped. rewrite <- (app_nil_r (kt ++ _)).
  eapply reads_bind; [apply (reads_pair [k]); [by constructor|done..]|]. intros [segs nd] [Hs Hnd]. cbn in Hs, Hnd. subst segs.
  cbv beta iota. cbn [insert_value]. rewrite do_get_absent by done. apply reads_ret. eauto.
Qed.

(** ** Inline tables *)
Definition add_pair (m : string_map data) (kv : bytes * data) : string_map data := emplace kv.1 kv.2 m.

Lemma reads_table_entry k kt e d t b n m prev rest post Q :
  spaces b → key_text k kt → equals_text e → value_text d t → (length t < size)%nat → prev ≠ elem_val → ends_value (rest ++ post) → k ∉ m.*1 →
  (∀ nd, strip nd = d → reads (inline_table_loop inner n (emplace k nd m) elem_val) rest post Q) →
  reads (inline_table_loop inner (S n) m prev) (b ++ (kt ++ e ++ t) ++ rest) post Q.
Proof using reads_inner.
  intros Hb Hk He Ht Hsize Hprev Hrest Hm Hnext. destruct (key_text_cons _ _ Hk) as (c & t' & Hc & Hstart).
  destruct (starts_key_spec _ Hstart) as (Hblank & Hcomma & _ & _ & Hclose & _). cbn [inline_table_loop].
  eapply reads_bind; [apply reads_table_blanks; [done|by rewrite Hc]|]. intros _ _.
  apply reads_not_eof; [by rewrite Hc|]. eapply reads_cur; [by rewrite Hc|]. intros x Hx _. rewrite Hx, Hcomma, Hclose.
  unfold starts_key in Hstart. rewrite orb_comm, Hstart.
  assert (reads (parse_key_value_pair_and_insert inner m ≫= λ m, inline_table_loop inner n m elem_val)
    ((kt ++ e ++ t) ++ rest) post Q); [|by destruct prev].
  eapply reads_bind; [by apply reads_insert|]. intros m' (nd & Hnd & ->). by apply Hnext.
Qed.

Lemma reads_table_loop l t n m prev post :
  pairs_text l t → NoDup l.*1 → (∀ k, k ∈ l.*1 → k ∉ m.*1) → (length t < size)%nat → prev ≠ elem_val →
  (length (t ++ [U "}"]) < n)%nat →
  reads (inline_table_loop inner n m prev) (t ++ [U "}"]) post (λ r, strip_map r = foldl add_pair (strip_map m) l).
Proof using reads_inner.
  intros Ht. revert n m prev.
  induction Ht as [k kt e d t b b' Hb Hk He Ht Hb'|k kt e d t b b' l ts Hb Hk He Ht Hb' Hts IH];
    intros [|n] m prev Hnd Hm Hsize Hprev Hn; try lia; rewrite !length_app in *; cbn [length] in *;
    rewrite <- !app_assoc; rewrite (app_assoc kt), (app_assoc (kt ++ _)), <- (app_assoc kt).
  - apply reads_table_entry with k d; try done;
      [lia|rewrite <- app_assoc; by apply ends_value_blanks; [apply array_blanks_spaces|..]|apply Hm; by left|].
    intros nd Hd. destruct n as [|n]; [lia|]. cbn [inline_table_loop]. eapply reads_bind; [by apply reads_table_blanks|].
    intros _ _. do 2 rd. compare_chars. rd. apply reads_ret. rewrite strip_emplace. cbn. by rewrite Hd.
  - pose proof (key_text_cons _ _ Hk) as (c & t' & Hc & _). assert (0 < length kt)%nat by (rewrite Hc; cbn; lia).
    cbn [fmap list_fmap] in Hnd. inversion Hnd as [|? ? Hni Hnd']; subst.
    apply reads_table_entry with k d; try done;
      [lia|rewrite <- !app_assoc; by apply ends_value_blanks; [apply array_blanks_spaces|..]|apply Hm; by left|].
    intros nd Hd. destruct n as [|n]; [lia|]. cbn [inline_table_loop]. eapply reads_bind; [by apply reads_table_blanks|].
    intros _ _. cbn [app]. do 2 rd. compare_chars. apply reads_advance_not_eof; [by destruct ts|].
    eapply reads_mono; [apply IH; try done; try lia|].
    + intros k' Hk' [->|?]%emplace_keys; [done|]. by eapply Hm; [right|].
    + intros r ->. rewrite strip_emplace. cbn [foldl]. by rewrite Hd.
Qed.

Lemma reads_inline_table l m t post :
  pairs_text l t → NoDup l.*1 → m = foldl add_pair [] l → (length t < size)%nat →
  reads (parse_inline_table inner) ([U "{"] ++ t ++ [U "}"]) post (λ nd, strip nd = DTable m).
Proof using reads_inner.
  intros Hl Hnd -> Hsize. apply reads_scoped. cbn [app]. apply reads_advance_not_eof; [by destruct t|].
  apply reads_alloc. intros a. rewrite <- (app_nil_r (t ++ _)).
  eapply reads_bind; [apply reads_looping; intros n Hn; apply (reads_table_loop l); try done|].
  - set_solver.
  - rewrite length_app in Hn. lia.
  - intros m Hm. apply reads_ret. cbn. cbn in Hm. f_equal. exact Hm.
Qed.

Lemma reads_empty_table b post :
  spaces b → reads (parse_inline_table inner) ([U "{"] ++ b ++ [U "}"]) post (λ nd, strip nd = DTable []).
Proof.
  intros Hb. apply reads_scoped. cbn [app]. apply reads_advance_not_eof; [by destruct b|].
  apply reads_alloc. intros a. rewrite <- (app_nil_r (b ++ _)).
  apply (reads_bind _ _ (b ++ [U "}"]) [] _ (λ m, m = [])); [|intros m ->; by apply reads_ret].
  apply reads_looping. intros [|n] Hn; [lia|]. cbn [inline_table_loop].
  eapply reads_bind; [by apply reads_table_blanks|]. intros _ _. do 2 rd. compare_chars. rd. by apply reads_ret.
Qed.
End inner.

(** ** Values *)

(** Known characters are looked up by computation. *)
Ltac compute_matches :=
  repeat match goal with
  | |- context [is_match ?c ?l] => let v := eval vm_compute in (is_match c l) in change (is_match c l) with v; cbv iota
  end.

Lemma strip_set_source r n : strip (set_source r n) = strip n.
Proof. by destruct n. Qed.

(** The region of a value, once it is read. *)
Lemma reads_positioned begin_pos nd post :
  reads (end_pos ← current_position 1; path ← gets source_path; mret (set_source (mk_region begin_pos end_pos path) nd))
    [] post (λ r, strip r = strip nd).
Proof.
  apply (reads_gets _ _ _ _ _ (λ _, True)); [done|]. intros e _. apply (reads_gets _ _ _ _ _ (λ _, True)); [done|].
  intros p _. apply reads_ret. apply strip_set_source.
Qed.

Lemma multi_line_cons k t : multi_line_text k t → ∃ c t', t = c :: t' ∧ is_string_delimiter c = true.
Proof. by intros []; eexists _, _. Qed.

(** The values that the look-ahead recognises. *)
Lemma reads_numeric d c t post :
  value_text d (c :: t) → number_start c = true → ends_value post →
  reads (parse_number_like (if is_decimal_digit c then digit_traits c else traits.begins_sign)) (c :: t) post
    (λ r, ∃ nd, r = Some nd ∧ strip nd = d).
Proof.
  intros Ht Hc Hpost. remember (c :: t) as text eqn:Htext.
  destruct Ht as [s t' Hs|s t' Hs|z t' Hz|z t' Hz|neg st fp Hst Hfp Hfin|neg st Hst|neg st Hst|d Hd|tm t' Htm|dt tt ot Hd Htt Hot|b|l t' _|b _|l m t' _ _ _];
    try by (injection Htext as <- _).
  - destruct (string_text_cons _ _ Hs) as (q & t'' & Hq & Hqq). rewrite Hq in Htext. injection Htext as -> _. exfalso. clear -Hc Hqq.
    unfold number_start, is_match in Hc. cbn [existsb] in Hc. by character_classes.
  - destruct Hs; injection Htext as <- _; done.
  - destruct (reads_decimal z t' post Hz Hpost) as (c' & t'' & Hc' & _ & Hr). rewrite Hc' in Htext. injection Htext as -> _.
    eapply reads_mono; [exact Hr|]. intros r ->. by eexists.
  - assert (c = U "0") as -> by (by destruct Hz; injection Htext as <- _). eapply reads_mono; [by apply reads_number_prefixed|].
    intros r [fl ->]. by eexists.
  - destruct (float_text_cons fp Hfp) as (c' & t' & Hc' & Hd).
    replace (if is_decimal_digit c then digit_traits c else traits.begins_sign) with (start_traits st c').
    + eapply reads_mono; [by eapply reads_number_float|]. intros r (nd & -> & ->). by eexists.
    + rewrite Hc' in Htext. destruct Hst; cbn in Htext; injection Htext as <- _; [cbn [start_traits]; by rewrite Hd|done|done].
  - assert (st ≠ [] ∧ is_decimal_digit c = false) as [Hne ->] by (destruct Hst; injection Htext as <- _; done).
    eapply reads_mono; [by apply (reads_number_word true neg)|]. intros r ->. by eexists.
  - assert (st ≠ [] ∧ is_decimal_digit c = false) as [Hne ->] by (destruct Hst; injection Htext as <- _; done).
    eapply reads_mono; [by apply (reads_number_word false neg)|]. intros r ->. by eexists.
  - destruct (date_cons d Hd) as (c' & t' & Hcons & Hdig). rewrite Hcons in Htext. injection Htext as -> ->. rewrite Hdig.
    eapply reads_mono; [by eapply reads_number_date|]. intros r ->. by eexists.
  - destruct (time_cons _ _ Htm) as (c' & t'' & Hcons & Hdig). rewrite Hcons in Htext. injection Htext as -> ->. rewrite Hdig.
    eapply reads_mono; [by eapply reads_number_time|]. intros r ->. by eexists.
  - destruct (date_cons _ Hd) as (c' & t' & Hcons & Hdig). pose proof Htext as Htext'. rewrite Hcons in Htext'. injection Htext' as -> _. rewrite Hdig.
    eapply reads_mono; [by eapply reads_number_date_time|]. intros r ->. by eexists.
  - exfalso. destruct b; injection Htext as <- _; done.
Qed.

Section values.
Context (inner : P node) (size : nat).
Hypothesis reads_inner : ∀ d t post,
  value_text d t → (length t < size)%nat → ends_value post → reads inner t post (λ nd, strip nd = d).

(** A string begins with a quotation mark. *)
Lemma known_quote b ml t post :
  (∃ c t', t = c :: t' ∧ is_string_delimiter c = true) → reads parse_string t post (λ r, r = (b, ml)) →
  reads (parse_value_known_prefixes inner) t post (λ o, ∃ nd, o = Some nd ∧ strip nd = DString b).
Proof.
  intros (c & t' & Hc & Hq) Hs. eapply reads_cur; [by rewrite Hc|]. intros x Hx _. rewrite Hx.
  assert ((c =? U "[") = false ∧ (c =? U "{") = false ∧ (c =? U ".") = false ∧ (c =? U x22) || (c =? U "'") = true)
    as (-> & -> & -> & ->) by (clear -Hq; split_and!; by character_classes).
  rewrite <- (app_nil_r t). eapply reads_bind; [exact Hs|]. intros r ->. apply reads_ret. eauto.
Qed.

(** An unsigned infinity or NaN. *)
Lemma known_word (inf : bool) x post :
  reads parse_inf_or_nan (zs (if inf then bs "inf" else bs "nan")) post (λ r, r = x) →
  reads (parse_value_known_prefixes inner) (zs (if inf then bs "inf" else bs "nan")) post (λ o, ∃ nd, o = Some nd ∧ strip nd = DFloat x).
Proof.
  intros Hr. destruct inf; (eapply reads_cur; [reflexivity|]); intros y Hy _; rewrite Hy; compare_chars; cbn [orb]; compute_matches; unfold new_float.
  - rewrite <- (app_nil_r (zs _)). eapply (reads_bind _ _ _ _ _ (λ r, r = _)); [exact Hr|]. intros r ->. apply reads_ret. eauto.
  - rewrite <- (app_nil_r (zs _)). eapply (reads_bind _ _ _ _ _ (λ r, r = _)); [exact Hr|]. intros r ->. apply reads_ret. eauto.
Qed.

Lemma reads_known_prefix d c0 t0 post :
  value_text d (c0 :: t0) → number_start c0 = false → (length (c0 :: t0) ≤ size)%nat → ends_value post →
  reads (parse_value_known_prefixes inner) (c0 :: t0) post (λ o, ∃ nd, o = Some nd ∧ strip nd = d).
Proof using reads_inner.
  intros Ht Hp Hsize [Hpost _]. unfold parse_value_known_prefixes. remember (c0 :: t0) as text eqn:Htext.
  destruct Ht as [s t Hs|s t Hs|z t Hz|z t Hz|neg st fp Hst Hfp Hfin|neg st Hst|neg st Hst|d Hd|tm t Htm|dt tt ot Hd Htt Hot|b|l t Hl|b Hb|l m t Hl Hnd Hm].
  - eapply known_quote; [by eapply string_text_cons|].
    by apply reads_parse_string; [done|..]; destruct post as [|p post]; try done; cbn; intros [= ->].
  - eapply known_quote; [by eapply multi_line_cons|].
    by apply reads_parse_multi_line; [done|..]; destruct post as [|p post]; try done; cbn; intros [= ->].
  - exfalso. destruct (integer_cons z t Hz) as (c & t' & Hc & Hn). rewrite Hc in Htext. injection Htext as -> _. by rewrite Hn in Hp.
  - exfalso. destruct Hz. by injection Htext as <- <-.
  - exfalso. destruct (float_text_cons fp Hfp) as (c & t & Hc & Hd). rewrite Hc in Htext. unfold number_start in Hp.
    destruct Hst; injection Htext as <- _; [by rewrite Hd in Hp|done|done].
  - assert (st = []) as -> by (destruct Hst; [done|by injection Htext as <- <-..]).
    apply (known_word true), (reads_inf_or_nan true neg []); done.
  - assert (st = []) as -> by (destruct Hst; [done|by injection Htext as <- <-..]).
    apply (known_word false), (reads_inf_or_nan false neg []); done.
  - exfalso. destruct (date_cons d Hd) as (c & t & Hc & Hn). rewrite Hc in Htext. injection Htext as -> ->. unfold number_start in Hp. by rewrite Hn in Hp.
  - exfalso. destruct (time_cons _ _ Htm) as (c & t' & Hc & Hn). rewrite Hc in Htext. injection Htext as -> ->. unfold number_start in Hp. by rewrite Hn in Hp.
  - exfalso. destruct (date_cons _ Hd) as (c & t & Hc & Hn). rewrite Hc in Htext. injection Htext as -> _. unfold number_start in Hp. by rewrite Hn in Hp.
  - assert (∃ t, zs (if b then bs "true" else bs "false") ++ post = (if b then U "t" else U "f") :: t) as [t Et]
      by (destruct b; by eexists).
    eapply reads_cur; [exact Et|]. intros x Hx _. rewrite Hx.
    rewrite <- (app_nil_r (zs _)).
    destruct b; compare_chars; cbn [orb];
      (lazymatch goal with |- context [if is_match ?c ?l then _ else _] => change (is_match c l) with true end; cbv iota).
    + eapply reads_bind; [by apply (reads_boolean true)|]. intros r ->. apply reads_ret. eauto.
    + eapply reads_bind; [by apply (reads_boolean false)|]. intros r ->. apply reads_ret. eauto.
  - eapply reads_cur; [reflexivity|]. intros x Hx _. rewrite Hx. compare_chars. rewrite !length_app in Hsize. cbn in Hsize.
    rewrite <- (app_nil_r (_ ++ _)). eapply reads_bind; [apply (reads_array _ size); [done|done|lia]|].
    intros r Hr. apply reads_ret. eauto.
  - eapply reads_cur; [reflexivity|]. intros x Hx _. rewrite Hx. compare_chars. rewrite <- (app_nil_r (_ ++ _)).
    eapply reads_bind; [by apply reads_empty_table|]. intros r Hr. apply reads_ret. eauto.
  - eapply reads_cur; [reflexivity|]. intros x Hx _. rewrite Hx. compare_chars. rewrite !length_app in Hsize. cbn in Hsize.
    rewrite <- (app_nil_r (_ ++ _)). eapply reads_bind; [apply (reads_inline_table inner size reads_inner l m); [done|done|done|lia]|].
    intros r Hr. apply reads_ret. eauto.
Qed.

Lemma reads_body d t post :
  value_text d t → (length t ≤ size)%nat → ends_value post → reads (parse_value_body inner) t post (λ nd, strip nd = d).
Proof using reads_inner.
  intros Ht Hsize Hpost. apply reads_scoped. destruct (value_text_cons _ _ Ht) as (c & t' & -> & Hstart).
  pose proof Hstart as (_ & Hctrl & Hus & _)%starts_value_spec.
  rd. rewrite Hctrl, Hus. cbv iota zeta. destruct (number_start c) eqn:Hn.
  - apply (reads_bind _ _ [] (c :: t') _ (λ o, o = None)).
    { unfold parse_value_known_prefixes. rd.
      assert ((c =? U "[") = false ∧ (c =? U "{") = false ∧ (c =? U ".") = false ∧ (c =? U x22) = false ∧ (c =? U "'") = false ∧
        is_match c ["t"; "f"; "T"; "F"]%byte = false ∧ is_match c ["i"; "I"; "n"; "N"]%byte = false)
        as (-> & -> & -> & -> & -> & -> & ->).
      { unfold number_start, is_match in *. cbn [existsb] in *. clear -Hn. split_and!; by character_classes. }
      by apply reads_ret. }
    intros o ->. rewrite <- (app_nil_r (c :: t')). eapply (reads_bind _ _ _ _ _ (λ r, ∃ nd, r = Some nd ∧ strip nd = d)).
    + pose proof (reads_numeric d c t' post Ht Hn Hpost) as Hnum. unfold number_start in Hn. destruct (is_decimal_digit c); [exact Hnum|].
      cbn [orb] in Hn. rewrite Hn. exact Hnum.
    + intros r (nd & -> & Hnd). eapply reads_mono; [apply reads_positioned|]. by intros r ->.
  - rewrite <- (app_nil_r (c :: t')). eapply reads_bind; [by apply reads_known_prefix|]. intros o (nd & -> & Hnd).
    apply (reads_bind _ _ [] [] _ (λ o, o = Some nd)); [by rd|]. intros o ->.
    eapply reads_mono; [apply reads_positioned|]. by intros r ->.
Qed.
End values.

(** A value as it is written is parsed to its data. *)
Lemma reads_value n d t post :
  value_text d t → ends_value post → (length t ≤ n)%nat → reads (parse_value n) t post (λ nd, strip nd = d).
Proof.
  revert d t post. induction n as [|n IH]; intros d t post Ht Hpost Hn.
  { destruct (value_text_cons _ _ Ht) as (c & t' & -> & _). cbn in Hn. lia. }
  cbn [parse_value]. apply (reads_body _ (S n)); [|done|lia|done]. intros d' t' post' Ht' Hn' Hpost'. apply IH; [done|done|lia].
Qed.
