(* ===== verification/TomlTables.v ===== *)
(** * TomlTables: the tables of the parser and their data

    The parser keeps one tree of nodes, and knows by their addresses the arrays that
    headers made, the tables that headers made on the way to others, and those that
    the dots of keys made. [rep] relates such a tree to the data of [TomlGrammar.v],
    [performs] an operation of the parser to one on the data: the walks along a
    path to what [enter], [declare] and [add_path] do there. *)
From Stdlib Require Import SpecFloat.
From S2P Require Import Prelude Bytes Env TomlNode TomlUtf8 TomlReader TomlParser TomlScalar TomlDocument TomlGrammar TomlValues.

Local Open Scope Z_scope.

(** ** Nodes and data

    [ta] are the arrays of tables, [dk] the tables that the dots of keys made: any
    other array or table stands for itself and is not added to. The list holds the
    addresses of the tables that headers made on the way to others: a header of
    its own turns such a table into a defined one, once. *)
Definition owned (kd : table_kind) (a : positive) : list positive := match kd with KImplicit => [a] | _ => [] end.

Inductive rep (ta dk : list positive) : node → data → list positive → Prop :=
| rep_value n : rep ta dk n (strip n) []
| rep_table kd a m M i r im :
    (kd = KDotted → a ∈ dk) → rep_map ta dk m M im → rep ta dk (Table a m i r) (DTableAs kd M) (owned kd a ++ im)
| rep_tables a els L r im : a ∈ ta → rep_list ta dk els L im → rep ta dk (Array a els r) (DTables L) im
with rep_map (ta dk : list positive) : string_map node → string_map data → list positive → Prop :=
| rep_map_nil : rep_map ta dk [] [] []
| rep_map_cons k n d m M im im' :
    rep ta dk n d im → rep_map ta dk m M im' → rep_map ta dk ((k, n) :: m) ((k, d) :: M) (im ++ im')
with rep_list (ta dk : list positive) : list node → list (string_map data) → list positive → Prop :=
| rep_list_nil : rep_list ta dk [] [] []
| rep_list_cons n M els L im im' :
    rep ta dk n (DTable M) im → rep_list ta dk els L im' → rep_list ta dk (n :: els) (M :: L) (im ++ im').

Scheme rep_min := Minimality for rep Sort Prop
  with rep_map_min := Minimality for rep_map Sort Prop
  with rep_list_min := Minimality for rep_list Sort Prop.
Combined Scheme rep_mutual from rep_min, rep_map_min, rep_list_min.

#[local] Hint Constructors rep rep_map rep_list : core.

Lemma rep_mono ta dk ta' dk' :
  ta ⊆ ta' → dk ⊆ dk' →
  (∀ n d im, rep ta dk n d im → rep ta' dk' n d im) ∧ (∀ m M im, rep_map ta dk m M im → rep_map ta' dk' m M im) ∧
  (∀ l L im, rep_list ta dk l L im → rep_list ta' dk' l L im).
Proof. intros Hta Hdk. apply rep_mutual; eauto. Qed.

Lemma plain_strip n : plain (strip n) = strip n.
Proof.
  revert n. fix IH 1. intros [a m i r|a els r|s r|z f r|x r|b r|d r|t r|dt r]; try reflexivity; cbn [strip plain]; f_equal;
    rewrite map_map; cbn [fst snd].
  - induction m as [|[k n] m IHm]; cbn [map]; [reflexivity|]. cbn [fst snd]. by rewrite IH, IHm.
  - induction els as [|n els IHels]; cbn [map]; [reflexivity|]. by rewrite IH, IHels.
Qed.

(** The data is that of the nodes. *)
Lemma rep_plain ta dk :
  (∀ n d im, rep ta dk n d im → strip n = plain d) ∧ (∀ m M im, rep_map ta dk m M im → strip_map m = plain_map M) ∧
  (∀ l L im, rep_list ta dk l L im → map strip l = map (λ M, DTable (plain_map M)) L).
Proof.
  apply rep_mutual.
  - intros n. by rewrite plain_strip.
  - intros kd a m M i r im _ _ Hm. cbn. f_equal. exact Hm.
  - intros a els L r im _ _ Hl. cbn. by rewrite Hl.
  - done.
  - intros k n d m M im im' _ Hn _ Hm. cbn. rewrite Hn. f_equal. exact Hm.
  - done.
  - intros n M els L im im' _ Hn _ Hl. cbn [map]. rewrite Hn, Hl. done.
Qed.

Lemma rep_map_plain ta dk m M im : rep_map ta dk m M im → strip_map m = plain_map M.
Proof. apply rep_plain. Qed.

Lemma rep_map_strip ta dk m : rep_map ta dk m (strip_map m) [].
Proof. induction m as [|[k n] m IH]; cbn; [done|]. change (@nil positive) with (@nil positive ++ []). eauto. Qed.

Lemma rep_table_inv ta dk n kd M im :
  rep ta dk n (DTableAs kd M) im →
  ∃ a m i r im', n = Table a m i r ∧ (kd = KDotted → a ∈ dk) ∧ rep_map ta dk m M im' ∧ im = owned kd a ++ im'.
Proof.
  remember (DTableAs kd M) as d eqn:Hd. intros Hn. destruct Hn as [n'|kd' a m M' i r im Ha Hm|]; [|injection Hd as -> ->; eauto 10|done].
  destruct n'; try done. injection Hd as <- <-. eexists _, _, _, _, []. split; [reflexivity|]. split; [done|]. split; [apply rep_map_strip|done].
Qed.

Lemma rep_tables_inv ta dk n L im :
  rep ta dk n (DTables L) im → ∃ a els r, n = Array a els r ∧ a ∈ ta ∧ rep_list ta dk els L im.
Proof. remember (DTables L) as d eqn:Hd. intros Hn. destruct Hn as [n'| |a els L' r im Ha Hl]; [by destruct n'|done|]. injection Hd as ->. eauto 6. Qed.

Section operations.
Implicit Types (ta dk im rest : list positive) (m : string_map node) (M : string_map data).

Lemma rep_map_get_None ta dk m M im k : rep_map ta dk m M im → do_get M k = None → do_get m k = None.
Proof. induction 1 as [|k' n d m M im im' Hn Hm IH]; cbn; [done|]. case_decide; [done|eauto]. Qed.

(** An entry and the others: it may be changed while they stay. *)
Lemma rep_map_entry ta dk m M im k d :
  rep_map ta dk m M im → do_get M k = Some d →
  ∃ n im1 rest, do_get m k = Some n ∧ rep ta dk n d im1 ∧ im ≡ₚ im1 ++ rest ∧
    ∀ ta' dk' n' d' im1', ta ⊆ ta' → dk ⊆ dk' → rep ta' dk' n' d' im1' →
      ∃ im', rep_map ta' dk' (map_alter (λ _, n') k m) (map_alter (λ _, d') k M) im' ∧ im' ≡ₚ im1' ++ rest.
Proof.
  induction 1 as [|k' n0 d0 m M im1 im2 Hn Hm IH]; cbn; [done|]. case_decide as Hk.
  - intros [= <-]. exists n0, im1, im2. split; [done|]. split; [done|]. split; [done|]. intros ta' dk' n' d' im1' Hta Hdk Hn'.
    eexists. split; [constructor; [exact Hn'|]|reflexivity]. by apply (rep_mono ta dk).
  - intros Hd. destruct (IH Hd) as (n & im1' & rest & Hn1 & Hr1 & Hp & Halter). exists n, im1', (im1 ++ rest).
    split; [done|]. split; [done|]. split; [rewrite Hp; solve_Permutation|]. intros ta' dk' n' d' im3 Hta Hdk Hn'.
    destruct (Halter ta' dk' n' d' im3 Hta Hdk Hn') as (im' & Hm' & Hp'). eexists. split.
    + constructor; [by apply (rep_mono ta dk)|exact Hm'].
    + rewrite Hp'. solve_Permutation.
Qed.

Lemma rep_map_emplace ta dk m M im k n d im1 :
  rep_map ta dk m M im → rep ta dk n d im1 → do_get M k = None →
  ∃ im', rep_map ta dk (emplace k n m) (emplace k d M) im' ∧ im' ≡ₚ im1 ++ im.
Proof.
  intros Hm Hn. induction Hm as [|k' n' d' m M im2 im3 Hn' Hm IH]; cbn [emplace do_get].
  { exists (im1 ++ []). split; [eauto|done]. }
  case_decide as Hk; [done|]. intros Hg. destruct (bytes_compare k k') eqn:Hc; [by apply bytes_compare_eq in Hc| |].
  - exists (im1 ++ im2 ++ im3). split; [eauto|done].
  - destruct (IH Hg) as (im' & Hm' & Hp). exists (im2 ++ im'). split; [eauto|]. rewrite Hp. solve_Permutation.
Qed.

Lemma rep_list_snoc ta dk els L n M im im1 :
  rep_list ta dk els L im → rep ta dk n (DTable M) im1 → ∃ im', rep_list ta dk (els ++ [n]) (L ++ [M]) im' ∧ im' ≡ₚ im1 ++ im.
Proof.
  intros Hl Hn. induction Hl as [|n' M' els L im2 im3 Hn' Hl (im' & Hl' & Hp)]; cbn [app].
  - exists (im1 ++ []). split; [eauto|done].
  - exists (im2 ++ im'). split; [eauto|]. rewrite Hp. solve_Permutation.
Qed.

(** The last element and the others. *)
Lemma rep_list_last ta dk els L M im :
  rep_list ta dk els L im → last L = Some M →
  ∃ n im1 rest, last els = Some n ∧ rep ta dk n (DTable M) im1 ∧ im ≡ₚ im1 ++ rest ∧
    rep_list ta dk (removelast els) (removelast L) rest.
Proof.
  induction 1 as [|n M' els L im1 im2 Hn Hl IH]; [done|]. destruct Hl as [|n' M'' els L im3 im4 Hn' Hl].
  - cbn. intros [= <-]. exists n, im1, []. split; [done|]. split; [done|]. by split.
  - intros HL. destruct (IH HL) as (x & imx & rest & Hx & Hrx & Hp & Hrest). exists x, imx, (im1 ++ rest).
    split; [exact Hx|]. split; [done|]. split; [rewrite Hp; solve_Permutation|].
    change (rep_list ta dk (n :: removelast (n' :: els)) (M' :: removelast (M'' :: L)) (im1 ++ rest)). eauto.
Qed.
End operations.

(** ** Paths *)

(** The table at a path is there. *)
Fixpoint resolves (path : list bytes) (m : string_map data) : Prop :=
  match path with
  | [] => True
  | k :: path =>
    match do_get m k with
    | Some (DTableAs _ m1) => resolves path m1
    | Some (DTables l) => match last l with Some m1 => resolves path m1 | None => False end
    | _ => False
    end
  end.

Lemma do_get_emplace_new {A} k (v : A) m : do_get m k = None → do_get (emplace k v m) k = Some v.
Proof.
  induction m as [|[k' x] m IH]; cbn; [by rewrite decide_True|]. case_decide as Hk; [done|]. intros Hm.
  destruct (bytes_compare k k') eqn:Hc; cbn; [by apply bytes_compare_eq in Hc|by rewrite decide_True|].
  rewrite decide_False by done. auto.
Qed.

Lemma do_get_alter_same {A} k (v w : A) m : do_get m k = Some w → do_get (map_alter (λ _, v) k m) k = Some v.
Proof. intros Hk. by rewrite do_get_alter, decide_True, Hk. Qed.

Lemma map_alter_same {A} k (v : A) m : do_get m k = Some v → map_alter (λ _, v) k m = m.
Proof. induction m as [|[k' x] m IH]; cbn; [done|]. case_decide as Hk; [by intros [= ->]|]. intros Hm. by rewrite IH. Qed.

Lemma last_removelast {A} (l : list A) x : last l = Some x → removelast l ++ [x] = l.
Proof.
  induction l as [|y l IH]; [done|]. destruct l as [|z l]; [by intros [= ->]|]. intros Hl.
  change (y :: (removelast (z :: l) ++ [x]) = y :: z :: l). by rewrite IH.
Qed.

Lemma last_snoc_Some {A} (l : list A) x : last (l ++ [x]) = Some x.
Proof. induction l as [|y l IH]; [done|]. by destruct l. Qed.

(** After an operation at a path it is there, and so is what the operation makes. *)
Lemma enter_resolves p q g m m' :
  (∀ m m', g m = Some m' → resolves q m') → enter p g m = Some m' → resolves (p ++ q) m'.
Proof.
  intros Hg. revert m m'. induction p as [|k p IH]; intros m m'; cbn [enter app resolves]; [apply Hg|].
  destruct (do_get m k) as [[| | | | | | | |kd m1|l]|] eqn:Hk; try done.
  - intros (m1' & Hm1 & [= <-])%bind_Some. rewrite (do_get_alter_same _ _ _ _ Hk). eauto.
  - intros (m1 & Hl & (m1' & Hm1 & [= <-])%bind_Some)%bind_Some. rewrite (do_get_alter_same _ _ _ _ Hk), last_snoc_Some. eauto.
  - intros (m1' & Hm1 & [= <-])%bind_Some. rewrite do_get_emplace_new by done. eauto.
Qed.

Lemma enter_Some p m : resolves p m → enter p Some m = Some m.
Proof.
  revert m. induction p as [|k p IH]; intros m; cbn [enter resolves]; [done|].
  destruct (do_get m k) as [[| | | | | | | |kd m1|l]|] eqn:Hk; try done.
  - intros Hm1. rewrite IH by done. cbn. by rewrite map_alter_same.
  - destruct (last l) as [m1|] eqn:Hl; [|done]. intros Hm1. cbn. rewrite IH by done. cbn.
    by rewrite last_removelast, map_alter_same.
Qed.

(** *** Headers *)
Lemma declare_cons arr k p m :
  p ≠ [] →
  declare arr (k :: p) m =
    match do_get m k with
    | None => m1 ← declare arr p []; Some (emplace k (DTableAs KImplicit m1) m)
    | Some (DTableAs kd m1) => m1' ← declare arr p m1; Some (map_alter (λ _, DTableAs kd m1') k m)
    | Some (DTables l) =>
      m1 ← last l; m1' ← declare arr p m1; Some (map_alter (λ _, DTables (removelast l ++ [m1'])) k m)
    | Some _ => None
    end.
Proof.
  intros Hp. unfold declare. destruct p as [|k' p]; [done|].
  change (last (k :: k' :: p)) with (last (k' :: p)).
  change (removelast (k :: k' :: p)) with (k :: removelast (k' :: p)).
  destruct (last (k' :: p)) as [k1|] eqn:Hl; [|by apply last_None in Hl]. done.
Qed.

Lemma declare_resolves arr p m m' : declare arr p m = Some m' → resolves p m'.
Proof.
  unfold declare. intros (k & Hk & Hent)%bind_Some. rewrite <- (last_removelast p k Hk).
  eapply enter_resolves; [|exact Hent]. clear. intros m m'. unfold open. cbn [resolves].
  destruct (do_get m k) as [[| | | | | | | |kd m1|l]|] eqn:Hk; try done.
  - destruct kd, arr; try done. intros [= <-]. by rewrite (do_get_alter_same _ _ _ _ Hk).
  - destruct arr; [|done]. intros [= <-]. by rewrite (do_get_alter_same _ _ _ _ Hk), last_snoc_Some.
  - intros [= <-]. rewrite do_get_emplace_new by done. by destruct arr.
Qed.

(** ** What the parser does to the tables *)

(** What it leaves alone. *)
Record grows (s s' : parser) : Prop := mk_grows {
  grows_reader : reader s' = reader s;
  grows_cp : cp s' = cp s;
  grows_path : source_path s' = source_path s;
  grows_root : root s' = root s;
  grows_arrays : table_arrays s ⊆ table_arrays s';
  grows_dotted : dotted_key_tables s ⊆ dotted_key_tables s';
}.

#[global] Instance grows_refl : Reflexive grows.
Proof. by intros s. Qed.
#[global] Instance grows_trans : Transitive grows.
Proof. intros s1 s2 s3 [] []. split; congruence || by etransitivity. Qed.

(** The map of a table and its data, in a state. *)
Definition rep_in (s : parser) : string_map node → string_map data → list positive → Prop :=
  rep_map (table_arrays s) (dotted_key_tables s).

Lemma rep_in_grows s s' m M im : grows s s' → rep_in s m M im → rep_in s' m M im.
Proof. intros [_ _ _ _ Ha Hd]. by apply rep_mono. Qed.

(** The tables made on the way: the parser knows them all, and their addresses are
    different ones. *)
Definition implicit_ok (s : parser) (im : list positive) : Prop :=
  NoDup im ∧ im ⊆ implicit_tables s ∧ Forall (λ a, (a < next_addr s)%positive) im.

#[global] Instance implicit_ok_perm s : Proper ((≡ₚ) ==> iff) (implicit_ok s).
Proof. intros im im' Hp. unfold implicit_ok. by rewrite Hp. Qed.

Lemma implicit_ok_same s s' im :
  implicit_tables s' = implicit_tables s → (next_addr s ≤ next_addr s')%positive → implicit_ok s im → implicit_ok s' im.
Proof.
  intros Hi Hn (H1 & H2 & H3). split; [done|]. split; [by rewrite Hi|]. eapply Forall_impl; [exact H3|]. cbn. lia.
Qed.

(** An operation of the parser on the map of a table does to the data what [g]
    does; the tables elsewhere, those of [rest] among them, stay. *)
Definition performs {A} (f : string_map node → P A) (s : parser) (map_of : A → string_map node)
    (g : string_map data → option (string_map data)) : Prop :=
  ∀ m M M' im rest,
    rep_in s m M im → implicit_ok s (im ++ rest) → g M = Some M' →
    ∃ r s' im', f m s = Done r s' ∧ rep_in s' (map_of r) M' im' ∧ implicit_ok s' (im' ++ rest) ∧ grows s s'.

Lemma implicit_ok_frame s im im1 others rest : im ≡ₚ im1 ++ others → implicit_ok s (im ++ rest) → implicit_ok s (im1 ++ others ++ rest).
Proof. intros ->. by rewrite <- app_assoc. Qed.

(** *** Going down to a table, and back up with what became of it *)
Lemma descend_table s m M im rest k kd M1 :
  rep_in s m M im → implicit_ok s (im ++ rest) → do_get M k = Some (DTableAs kd M1) →
  ∃ a m1 i r im1 rest1, do_get m k = Some (Table a m1 i r) ∧ (kd = KDotted → a ∈ dotted_key_tables s) ∧
    rep_in s m1 M1 im1 ∧ implicit_ok s (im1 ++ rest1) ∧
    ∀ s' m1' M1' im1' r', grows s s' → rep_in s' m1' M1' im1' → implicit_ok s' (im1' ++ rest1) →
      ∃ im', rep_in s' (map_alter (λ _, Table a m1' i r') k m) (map_alter (λ _, DTableAs kd M1') k M) im' ∧
        implicit_ok s' (im' ++ rest).
Proof.
  intros Hm Him Hk. destruct (rep_map_entry _ _ _ _ _ _ _ Hm Hk) as (n & im1 & others & Hn & Hrep & Hp & Halter).
  destruct (rep_table_inv _ _ _ _ _ _ Hrep) as (a & m1 & i & r & im2 & -> & Ha & Hm1 & ->).
  exists a, m1, i, r, im2, (owned kd a ++ others ++ rest). split; [done|]. split; [done|]. split; [done|]. split.
  { eapply implicit_ok_perm; [|exact Him]. rewrite Hp. solve_Permutation. }
  intros s' m1' M1' im2' r' Hs Hm1' Him'.
  destruct (Halter (table_arrays s') (dotted_key_tables s') (Table a m1' i r') (DTableAs kd M1') (owned kd a ++ im2'))
    as (im' & Hm' & Hp'); [apply Hs|apply Hs|constructor; [intros Hkd; by apply Hs, Ha|done]|].
  exists im'. split; [exact Hm'|]. eapply implicit_ok_perm; [|exact Him']. rewrite Hp'. solve_Permutation.
Qed.

Lemma descend_tables s m M im rest k L M1 :
  rep_in s m M im → implicit_ok s (im ++ rest) → do_get M k = Some (DTables L) → last L = Some M1 →
  ∃ a els ra t m1 i r im1 rest1, do_get m k = Some (Array a els ra) ∧ a ∈ table_arrays s ∧
    last els = Some (Table t m1 i r) ∧ rep_in s m1 M1 im1 ∧ implicit_ok s (im1 ++ rest1) ∧
    ∀ s' m1' M1' im1' r', grows s s' → rep_in s' m1' M1' im1' → implicit_ok s' (im1' ++ rest1) →
      ∃ im', rep_in s' (map_alter (λ _, Array a (removelast els ++ [Table t m1' i r']) ra) k m)
          (map_alter (λ _, DTables (removelast L ++ [M1'])) k M) im' ∧
        implicit_ok s' (im' ++ rest).
Proof.
  intros Hm Him Hk HL. destruct (rep_map_entry _ _ _ _ _ _ _ Hm Hk) as (n & im1 & others & Hn & Hrep & Hp & Halter).
  destruct (rep_tables_inv _ _ _ _ _ Hrep) as (a & els & ra & -> & Ha & Hl).
  destruct (rep_list_last _ _ _ _ _ _ Hl HL) as (n1 & im2 & els_im & Hn1 & Hn1r & Hp2 & Hrest).
  destruct (rep_table_inv _ _ _ _ _ _ Hn1r) as (t & m1 & i & r & im3 & -> & _ & Hm1 & ->).
  exists a, els, ra, t, m1, i, r, im3, (els_im ++ others ++ rest). split; [done|]. split; [done|]. split; [done|]. split; [done|]. split.
  { eapply implicit_ok_perm; [|exact Him]. rewrite Hp, Hp2. cbn [owned app]. solve_Permutation. }
  intros s' m1' M1' im3' r' Hs Hm1' Him'.
  destruct (rep_list_snoc (table_arrays s') (dotted_key_tables s') (removelast els) (removelast L) (Table t m1' i r') M1' els_im im3')
    as (im4 & Hl' & Hp4); [by apply (rep_mono (table_arrays s) (dotted_key_tables s)); [apply Hs..|]|by apply (rep_table _ _ KDefined)|].
  destruct (Halter (table_arrays s') (dotted_key_tables s') (Array a (removelast els ++ [Table t m1' i r']) ra) (DTables (removelast L ++ [M1'])) im4)
    as (im' & Hm' & Hp'); [apply Hs|apply Hs|constructor; [by apply Hs|done]|].
  exists im'. split; [exact Hm'|]. eapply implicit_ok_perm; [|exact Him']. rewrite Hp', Hp4. solve_Permutation.
Qed.

(** A new table on the way. *)
Lemma ascend_new s s' m M im rest k kd a m1 M1 im1 i r :
  rep_in s m M im → do_get M k = None → grows s s' → (kd = KDotted → a ∈ dotted_key_tables s') →
  rep_in s' m1 M1 im1 → implicit_ok s' (im1 ++ owned kd a ++ im ++ rest) →
  ∃ im', rep_in s' (emplace k (Table a m1 i r) m) (emplace k (DTableAs kd M1) M) im' ∧ implicit_ok s' (im' ++ rest).
Proof.
  intros Hm Hk Hs Ha Hm1 Him.
  destruct (rep_map_emplace _ _ _ _ _ k (Table a m1 i r) (DTableAs kd M1) (owned kd a ++ im1) (rep_in_grows s s' _ _ _ Hs Hm))
    as (im' & Hm' & Hp'); [by constructor|done|].
  exists im'. split; [exact Hm'|]. eapply implicit_ok_perm; [|exact Him]. rewrite Hp'. solve_Permutation.
Qed.

(** The walk of [with_table] is that of [enter] where no table is missing. *)
Lemma with_table_enter path (f : string_map node → source_region → P (string_map node * source_region)) g s r M0 :
  (∀ r, performs (λ m, f m r) s fst g) → resolves path M0 →
  ∀ m M' im rest, rep_in s m M0 im → implicit_ok s (im ++ rest) → enter path g M0 = Some M' →
  ∃ x s' im', with_table path f m r s = Done x s' ∧ rep_in s' x.1 M' im' ∧ implicit_ok s' (im' ++ rest) ∧ grows s s'.
Proof.
  intros Hf. revert r M0. induction path as [|k path IH]; intros r M0 Hres m M' im rest Hm Him; cbn [resolves enter with_table] in *;
    [by intros; eapply (Hf r)|].
  destruct (do_get M0 k) as [[| | | | | | | |kd M1|L]|] eqn:Hk; try done.
  - destruct (descend_table _ _ _ _ _ _ _ _ Hm Him Hk) as (a & m1 & i & r1 & im1 & rest1 & -> & _ & Hm1 & Him1 & Hup).
    intros (M1' & Hent & [= <-])%bind_Some.
    destruct (IH r1 M1 Hres m1 M1' im1 rest1 Hm1 Him1 Hent) as ([m1' r1'] & s' & im1' & Hw & Hm1' & Him1' & Hs).
    destruct (Hup s' m1' M1' im1' r1' Hs Hm1' Him1') as (im' & Hm' & Him'). unfold mbind, P_bind in *. rewrite Hw. by eexists _, s', im'.
  - intros (M1 & HL & (M1' & Hent & [= <-])%bind_Some)%bind_Some. rewrite HL in Hres.
    destruct (descend_tables _ _ _ _ _ _ _ _ Hm Him Hk HL) as (a & els & ra & t & m1 & i & r1 & im1 & rest1 & -> & _ & -> & Hm1 & Him1 & Hup).
    destruct (IH r1 M1 Hres m1 M1' im1 rest1 Hm1 Him1 Hent) as ([m1' r1'] & s' & im1' & Hw & Hm1' & Him1' & Hs).
    destruct (Hup s' m1' M1' im1' r1' Hs Hm1' Him1') as (im' & Hm' & Him'). unfold mbind, P_bind in *. rewrite Hw. by eexists _, s', im'.
Qed.

(** *** Keys *)
Lemma performs_insert_value ks v d s :
  strip v = d → performs (insert_value ks v) s id (add_path ks d).
Proof.
  intros Hv. revert s. induction ks as [|k ks IH]; intros s m M M' im rest Hm Him; [done|]. destruct ks as [|k' ks].
  { cbn [insert_value add_path]. unfold add. destruct (do_get M k) eqn:Hk; [done|]. intros [= <-].
    rewrite (rep_map_get_None _ _ _ _ _ _ Hm Hk).
    destruct (rep_map_emplace _ _ _ _ _ k v d [] Hm) as (im' & Hm' & Hp); [rewrite <- Hv; constructor|done|].
    eexists _, s, im'. split; [reflexivity|]. split; [exact Hm'|]. split; [by rewrite Hp|done]. }
  remember (k' :: ks) as ks' eqn:Hks. cbn [insert_value add_path]. rewrite Hks, <- Hks.
  destruct (do_get M k) as [[| | | | | | | |[] M1|L]|] eqn:Hk; try done.
  - destruct (descend_table _ _ _ _ _ _ _ _ Hm Him Hk) as (a & m1 & i & r & im1 & rest1 & -> & Ha & Hm1 & Him1 & Hup).
    intros (M1' & Hadd & [= <-])%bind_Some. destruct (IH s m1 M1 M1' im1 rest1 Hm1 Him1 Hadd) as (m1' & s' & im1' & Hw & Hm1' & Him1' & Hs).
    unfold gets, mbind, P_bind in *. unfold find_addr. rewrite bool_decide_true, Hw by (by apply Ha).
    destruct (Hup s' m1' M1' im1' (set_end r (reg_end (source v))) Hs Hm1' Him1') as (im' & Hm' & Him'). by eexists _, s', im'.
  - rewrite (rep_map_get_None _ _ _ _ _ _ Hm Hk). intros (M1' & Hadd & [= <-])%bind_Some.
    unfold alloc, push_dotted, gets, modify, mret, P_ret, mbind, P_bind in *. cbv beta iota zeta.
    lazymatch goal with |- context [insert_value ks' v [] ?s0] => set (s1 := s0) end.
    assert (grows s s1) as Hs1 by (split; try done; cbn; set_solver).
    destruct (IH s1 [] [] M1' [] (im ++ rest)) as (m1' & s' & im1' & -> & Hm1' & Him1' & Hs); [constructor| |done|].
    { apply (implicit_ok_same s); [done|cbn; lia|exact Him]. }
    destruct (ascend_new s s' m M im rest k KDotted (next_addr s) m1' M1' im1' true (TomlNode.source v)) as (im' & Hm' & Him');
      [done|done|by etransitivity|intros _; apply Hs; cbn; set_solver|done|done|].
    eexists _, s', im'. split; [reflexivity|]. split; [exact Hm'|]. split; [done|by etransitivity].
Qed.

(** *** Headers *)
Lemma erase_addr_others a b l : b ∈ l → b ≠ a → b ∈ erase_addr a l.
Proof. induction l as [|x l IH]; cbn; [done|]. intros Hb Hne. case_decide; set_solver. Qed.

(** A table that is promoted by its own header. *)
Lemma implicit_ok_pop s a im :
  implicit_ok s (a :: im) →
  find_addr (implicit_tables s) a = true ∧
  implicit_ok (set_tables (erase_addr a (implicit_tables s)) (dotted_key_tables s) (table_arrays s) s) im.
Proof.
  intros ([Ha Hn]%NoDup_cons & Hi & [_ Hf]%Forall_cons). split; [apply bool_decide_eq_true; set_solver|].
  split; [done|]. split; [|exact Hf]. intros b Hb. apply erase_addr_others; [set_solver|by intros ->].
Qed.

(** A table that a header makes on the way. *)
Lemma implicit_ok_push s im :
  implicit_ok s im →
  let s1 := set_tables (implicit_tables s ++ [next_addr s]) (dotted_key_tables s) (table_arrays s) (set_next_addr (Pos.succ (next_addr s)) s) in
  implicit_ok s1 (next_addr s :: im).
Proof.
  intros (Hn & Hi & Hf) s1. split; [|split].
  - apply NoDup_cons. split; [|done]. intros Ha. rewrite Forall_forall in Hf. specialize (Hf _ Ha). cbn in Hf. lia.
  - cbn. set_solver.
  - constructor; [cbn; lia|]. eapply Forall_impl; [exact Hf|]. cbn. lia.
Qed.

Lemma performs_declare_last arr region k s : performs (declare_last arr region k) s id (open arr k).
Proof.
  intros m M M' im rest Hm Him. unfold open, declare_last. destruct (do_get M k) as [d|] eqn:Hk.
  - destruct (rep_map_entry _ _ _ _ _ _ _ Hm Hk) as (n & im1 & others & -> & Hrep & Hp & Halter).
    destruct d as [| | | | | | | |[] M1|L]; try done; destruct arr; try done; intros [= <-].
    + apply rep_table_inv in Hrep as (a & m1 & i & r & im2 & -> & _ & Hm1 & ->).
      destruct (implicit_ok_pop s a (im2 ++ others ++ rest)) as [Hfind Him'];
        [by apply (implicit_ok_frame _ _ _ _ _ Hp)|].
      unfold pop_implicit, gets, modify, mret, P_ret, mbind, P_bind. rewrite Hfind. cbn [negb andb].
      destruct (Halter (table_arrays s) (dotted_key_tables s) (Table a m1 i (mk_region (reg_begin region) (reg_end region) (reg_path r))) (DTable M1) im2)
        as (im' & Hm' & Hp'); [done|done|by apply (rep_table _ _ KDefined)|].
      eexists _, _, im'. split; [reflexivity|]. split; [exact Hm'|]. split; [|by split]. rewrite Hp', <- app_assoc. exact Him'.
    + apply rep_tables_inv in Hrep as (a & els & r & -> & Ha & Hl).
      unfold alloc, gets, modify, mret, P_ret, mbind, P_bind. unfold find_addr. rewrite bool_decide_true by done. cbn [andb].
      destruct (rep_list_snoc _ _ _ _ (Table (next_addr s) [] false region) [] _ [] Hl) as (im2 & Hl' & Hp2);
        [apply (rep_table _ _ KDefined _ _ _ _ _ []); [done|constructor]|].
      destruct (Halter (table_arrays s) (dotted_key_tables s) (Array a (els ++ [Table (next_addr s) [] false region]) r) (DTables (L ++ [[]])) im2)
        as (im' & Hm' & Hp'); [done|done|by constructor|].
      eexists _, _, im'. split; [reflexivity|]. split; [exact Hm'|]. split; [|by split].
      apply (implicit_ok_same s); [done|cbn; lia|]. rewrite Hp', Hp2. by rewrite Hp in Him.
  - intros [= <-]. rewrite (rep_map_get_None _ _ _ _ _ _ Hm Hk).
    destruct arr; unfold push_table_array, alloc, gets, modify, mret, P_ret, mbind, P_bind; cbv beta iota zeta;
      lazymatch goal with |- context [Done _ ?s0] => set (s1 := s0) end;
      (assert (grows s s1) as Hs1 by (split; try done; cbn; set_solver)).
    + destruct (rep_map_emplace (table_arrays s1) (dotted_key_tables s1) m M im k
        (Array (next_addr s) [Table (Pos.succ (next_addr s)) [] false region] region) (DTables [[]]) []) as (im' & Hm' & Hp');
        [by apply (rep_in_grows s s1)| |done|].
      { constructor; [cbn; set_solver|]. apply (rep_list_cons _ _ _ _ _ _ [] []); [|constructor].
        apply (rep_table _ _ KDefined _ _ _ _ _ []); [done|constructor]. }
      eexists _, s1, im'. split; [reflexivity|]. split; [exact Hm'|]. split; [|done].
      apply (implicit_ok_same s); [done|cbn; lia|]. by rewrite Hp'.
    + destruct (rep_map_emplace (table_arrays s1) (dotted_key_tables s1) m M im k
        (Table (next_addr s) [] false region) (DTable []) []) as (im' & Hm' & Hp');
        [by apply (rep_in_grows s s1)|apply (rep_table _ _ KDefined _ _ _ _ _ []); [done|constructor]|done|].
      eexists _, s1, im'. split; [reflexivity|]. split; [exact Hm'|]. split; [|done].
      apply (implicit_ok_same s); [done|cbn; lia|]. by rewrite Hp'.
Qed.

Lemma performs_declare arr region path s : performs (declare_table arr region path) s id (declare arr path).
Proof.
  revert s. induction path as [|k path IH]; intros s m M M' im rest Hm Him; [done|]. destruct path as [|k' path].
  { intros HM. by eapply performs_declare_last. }
  rewrite declare_cons by done. remember (k' :: path) as path' eqn:Hpath. cbn [declare_table]. rewrite Hpath, <- Hpath.
  destruct (do_get M k) as [[| | | | | | | |kd M1|L]|] eqn:Hk; try done.
  - destruct (descend_table _ _ _ _ _ _ _ _ Hm Him Hk) as (a & m1 & i & r & im1 & rest1 & -> & _ & Hm1 & Him1 & Hup).
    intros (M1' & Hd & [= <-])%bind_Some. destruct (IH s m1 M1 M1' im1 rest1 Hm1 Him1 Hd) as (m1' & s' & im1' & Hw & Hm1' & Him1' & Hs).
    unfold mbind, P_bind in *. rewrite Hw. destruct (Hup s' m1' M1' im1' r Hs Hm1' Him1') as (im' & Hm' & Him'). by eexists _, s', im'.
  - intros (M1 & HL & (M1' & Hd & [= <-])%bind_Some)%bind_Some.
    destruct (descend_tables _ _ _ _ _ _ _ _ Hm Him Hk HL) as (a & els & ra & t & m1 & i & r & im1 & rest1 & -> & Ha & Hels & Hm1 & Him1 & Hup).
    destruct (IH s m1 M1 M1' im1 rest1 Hm1 Him1 Hd) as (m1' & s' & im1' & Hw & Hm1' & Him1' & Hs).
    unfold gets, mbind, P_bind in *. unfold find_addr. rewrite bool_decide_true, Hels, Hw by done.
    destruct (Hup s' m1' M1' im1' r Hs Hm1' Him1') as (im' & Hm' & Him'). by eexists _, s', im'.
  - rewrite (rep_map_get_None _ _ _ _ _ _ Hm Hk). intros (M1' & Hd & [= <-])%bind_Some.
    unfold alloc, push_implicit, gets, modify, mret, P_ret, mbind, P_bind in *. cbv beta iota zeta.
    lazymatch goal with |- context [declare_table arr region path' [] ?s0] => set (s1 := s0) end.
    assert (grows s s1) as Hs1 by (split; try done; cbn; set_solver).
    destruct (IH s1 [] [] M1' [] (next_addr s :: im ++ rest)) as (m1' & s' & im1' & -> & Hm1' & Him1' & Hs); [constructor| |done|].
    { by apply implicit_ok_push. }
    destruct (ascend_new s s' m M im rest k KImplicit (next_addr s) m1' M1' im1' false region) as (im' & Hm' & Him');
      [done|done|by etransitivity|done|done|done|].
    eexists _, s', im'. split; [reflexivity|]. split; [exact Hm'|]. split; [done|by etransitivity].
Qed.
