(* ===== verification/TomlRoundtrip.v ===== *)
(** * TomlRoundtrip: the TOML parser reads what the grammar writes

    Whole documents of [TomlGrammar.v], line by line, are parsed to the data they
    stand for. [transforms] extends [reads] with what a function does to the
    root table. *)
From Stdlib Require Import SpecFloat.
From S2P Require Import Prelude Bytes Env TomlNode TomlUtf8 TomlReader TomlParser TomlScalar TomlDocument TomlExact TomlText TomlGrammar TomlStrings TomlNumbers TomlBlanks TomlKeys TomlTimes TomlFloats TomlValues TomlTables.

Local Open Scope Z_scope.

(** ** The end of a line *)
Lemma ends_line_cases last nl (post : list Z) :
  ends_line last nl → (last = true → post = []) → newline nl ∨ nl = [] ∧ post = [].
Proof. intros [?|[Hl ->]] Hlast; [by left|right; auto]. Qed.

Lemma reads_line_end last le post :
  line_end last le → (last = true → post = []) → reads expect_line_end le post (λ _, True).
Proof.
  intros Hle Hlast. unfold expect_line_end. destruct Hle as [b nl Hb Hnl|b cs nl Hb Hcs Hnl]; pose proof (ends_line_cases _ _ _ Hnl Hlast) as Hend.
  - destruct Hend as [Hnl'|[-> ->]].
    + destruct (newline_cons _ Hnl') as (c & t & Hc & _ & Hws & Hcom). eapply reads_bind.
      { apply reads_spaces; [done|]. rewrite Hc. cbn. by rewrite Hws. }
      intros _ _. apply reads_is_eof; [by rewrite Hc|].
      apply (reads_bind _ _ [] nl _ (λ b, b = false)); [apply reads_no_comment; rewrite Hc; unfold begins; cbn [app]; by rewrite Hcom|].
      intros r ->. rewrite <- (app_nil_r nl). eapply reads_bind; [by apply reads_line_break|]. intros r ->. by rd.
    + eapply reads_bind; [by apply reads_spaces|]. intros _ _. apply reads_is_eof_end. by rd.
  - eapply reads_bind; [apply reads_spaces; [done|]|]; [by destruct Hcs as (t & -> & _)|].
    intros _ _. apply reads_is_eof; [by destruct Hcs as (t & -> & _)|]. rewrite <- (app_nil_r (cs ++ nl)).
    eapply reads_bind; [by apply reads_comment|]. intros r ->. by rd.
Qed.

Lemma ends_value_line last le post : line_end last le → (last = true → post = []) → ends_value (le ++ post).
Proof.
  intros Hle Hlast. destruct Hle as [b nl Hb Hnl|b cs nl Hb (t & -> & _) Hnl]; rewrite <- !app_assoc;
    apply ends_value_blanks_rest; try by apply array_blanks_spaces.
  - destruct (ends_line_cases _ _ _ Hnl Hlast) as [[->| ->]|[-> ->]]; done.
  - done.
Qed.

(** ** Headers *)
Lemma reads_header arr path b t b' post :
  spaces b → path_text path t → spaces b' →
  reads parse_header_text (header_text arr (b ++ t ++ b')) post (λ r, r.1 = (path, arr)).
Proof.
  intros Hb Hp Hb'. unfold header_text, parse_header_text. destruct (path_text_cons _ _ Hp) as (c & t' & Hc & Hstart).
  apply starts_key_spec in Hstart as ((Hws & _)%not_blank_spec & _ & Hopen & Hclose & _).
  replace ((brackets arr).1 ++ (b ++ t ++ b') ++ (brackets arr).2) with
    (U "[" :: (if arr then [] else b) ++ (if arr then U "[" :: b else []) ++ (t ++ b') ++ (if arr then [U "]"] else []) ++ [U "]"])
    by (destruct arr; cbn; rewrite <- ?app_assoc; done).
  rd. apply reads_advance_not_eof; [rewrite Hc; destruct arr, b; done|].
  apply (reads_bind _ _ (if arr then [] else b) _ _ (λ r, arr = true → r = false)).
  { destruct arr; [eapply reads_mono; [by apply reads_no_whitespace|done]|]. eapply reads_mono; [apply reads_spaces; [done|]|done].
    rewrite Hc. cbn. by rewrite Hws. }
  intros r Hr. apply reads_not_eof; [rewrite Hc; by destruct arr|].
  apply (reads_cur _ (if arr then U "[" else c) ((if arr then b ++ t else t') ++ b' ++ ((if arr then [U "]"] else []) ++ [U "]"]) ++ post)).
  { rewrite <- !app_assoc, Hc. destruct arr; cbn; by rewrite <- ?app_assoc. }
  intros y Hy _.
  apply (reads_bind _ _ (if arr then U "[" :: b else []) _ _ (λ r, r = arr)).
  { rewrite Hy. destruct arr; [|rewrite Hopen; by rd]. compare_chars. rewrite Hr by done.
    apply reads_advance_not_eof; [rewrite Hc; by destruct b|]. rewrite <- (app_nil_r b).
    eapply reads_bind; [apply reads_spaces; [done|rewrite Hc; cbn; by rewrite Hws]|].
    intros _ _. apply reads_not_eof; [by rewrite Hc|]. by rd. }
  intros r' ->. eapply reads_cur; [by rewrite Hc|]. intros z Hz _. rewrite Hz, Hclose.
  apply (reads_bind _ _ [] _ _ (λ _, True)); [by rd|]. intros _ _. apply reads_modify; [done|].
  eapply reads_bind; [apply reads_parse_key; [done|done|by destruct arr]|].
  intros k ->. apply reads_modify; [done|].
  apply (reads_bind _ _ [] _ _ (λ _, True)); [eapply reads_mono; [apply reads_no_whitespace; by destruct arr|done]|]. intros _ _.
  apply reads_not_eof; [by destruct arr|]. apply (reads_cur _ (U "]") ((if arr then [U "]"] else []) ++ post)); [by destruct arr|]. intros w Hw _. rewrite Hw. compare_chars.
  cbn [negb]. apply (reads_bind _ _ [] _ _ (λ _, True)); [by rd|]. intros _ _.
  apply (reads_bind _ _ (if arr then [U "]"] else []) _ _ (λ _, True)).
  { destruct arr; [|by rd]. apply reads_advance_not_eof; [done|]. eapply reads_cur; [reflexivity|]. intros v Hv _.
    rewrite Hv. compare_chars. cbn [negb]. by rd. }
  intros _ _. rd.
  apply (reads_gets _ _ _ _ _ (λ _, True)); [done|]. intros e _. apply (reads_gets _ _ _ _ _ (λ _, True)); [done|].
  intros p _. by apply reads_ret.
Qed.

(** ** What a function does to the document

    The data of the root table. *)
Definition has_root (s : parser) (M : string_map data) : Prop :=
  ∃ a m i r im, root s = Table a m i r ∧ rep_in s m M im ∧ implicit_ok s im.

(** At a text that begins with [pre] and a document with the data [M], [m]
    consumes [pre], returns a result in [Q] and leaves the data [M']. *)
Definition transforms {A} (m : P A) (pre post : list Z) (M M' : string_map data) (Q : A → Prop) : Prop :=
  ∀ s k past, at_text s k past (pre ++ post) → has_root s M →
  ∃ a s' past', m s = Done a s' ∧ Q a ∧ at_text s' (k - length pre) (past ++ past') post ∧ has_root s' M' ∧
    source_path s' = source_path s.

Section transforms.
Context {A B : Type}.
Implicit Types (Q : A → Prop) (pre post : list Z) (M : string_map data).

Lemma transforms_reads (m : P A) pre post M Q : reads m pre post Q → transforms m pre post M M Q.
Proof.
  intros Hm s k past Hat (a & mm & i & r & im & Hr & HM & Him).
  destruct (Hm s k past Hat) as (v & s' & past' & ? & ? & ? & _ & [? Hr' _ Ha' Hd' Hi' Hn']).
  exists v, s', past'. split_and!; try done. exists a, mm, i, r, im. unfold rep_in. rewrite Hr', Ha', Hd'.
  split; [done|]. split; [done|]. by apply (implicit_ok_same s).
Qed.

Lemma transforms_mono (m : P A) pre post M M' Q Q' :
  transforms m pre post M M' Q → (∀ a, Q a → Q' a) → transforms m pre post M M' Q'.
Proof. intros Hm HQ s k past Hat HM. destruct (Hm s k past Hat HM) as (a & s' & past' & ? & ? & ?). eauto 8. Qed.

Lemma transforms_bind (m : P B) (f : B → P A) pre1 pre2 post M M1 M' (Q1 : B → Prop) Q :
  transforms m pre1 (pre2 ++ post) M M1 Q1 → (∀ b, Q1 b → transforms (f b) pre2 post M1 M' Q) →
  transforms (m ≫= f) (pre1 ++ pre2) post M M' Q.
Proof.
  intros Hm Hf s k past Hat HM. rewrite <- app_assoc in Hat.
  destruct (Hm s k past Hat HM) as (b & s1 & past1 & Hm1 & HQ1 & Hat1 & HM1 & Hp1).
  destruct (Hf b HQ1 _ _ _ Hat1 HM1) as (a & s2 & past2 & Hm2 & HQ2 & Hat2 & HM2 & Hp2).
  exists a, s2, (past1 ++ past2). unfold mbind, P_bind. rewrite Hm1, length_app, app_assoc, Nat.sub_add_distr.
  split_and!; try done. congruence.
Qed.

Lemma transforms_scoped scope (m : P A) pre post M M' Q :
  transforms m pre post M M' Q → transforms (scoped scope m) pre post M M' Q.
Proof.
  intros Hm s k past Hat HM. unfold scoped, gets, modify, mbind, P_bind.
  destruct (Hm (set_scope scope s) k past) as (a & s' & past' & Hm' & HQ & Hat' & HM' & Hp);
    [by apply (at_text_same s)|done|].
  rewrite Hm'. exists a, (set_scope (current_scope s) s'), past'. by split_and!; [..|apply (at_text_same s')| |].
Qed.

Lemma transforms_looping (loop : nat → P A) pre post M M' Q :
  (∀ n, (length (pre ++ post) < n)%nat → transforms (loop n) pre post M M' Q) → transforms (looping loop) pre post M M' Q.
Proof.
  intros Hl s k past Hat. pose proof (at_fuel _ _ _ _ Hat). unfold looping. by apply (Hl (S (reads_left s))); [lia|].
Qed.
End transforms.

(** The text first, then the document. *)
Lemma transforms_read_bind {A B} (m : P B) (f : B → P A) pre1 pre2 post M M' (Q1 : B → Prop) (Q : A → Prop) :
  reads m pre1 (pre2 ++ post) Q1 → (∀ b, Q1 b → transforms (f b) pre2 post M M' Q) →
  transforms (m ≫= f) (pre1 ++ pre2) post M M' Q.
Proof. intros Hm. by eapply transforms_bind, transforms_reads. Qed.

(** ** The lines of a document *)

(** The walk to the current table. *)
Lemma at_table_enter path f g s M M' :
  (∀ r, performs (λ m, f m r) s fst g) → has_root s M → resolves path M → enter path g M = Some M' →
  ∃ s', at_table path f s = Done tt s' ∧ has_root s' M' ∧ reader s' = reader s ∧ cp s' = cp s ∧ source_path s' = source_path s.
Proof.
  intros Hf (a & m & i & r & im & Hr & Hm & Him) Hres Hent. unfold at_table, gets, modify, mbind at 1, P_bind at 1. rewrite Hr.
  destruct (with_table_enter path f g s r M Hf Hres m M' im [] Hm) as ([m' r'] & s' & im' & Hw & Hm' & Him' & Hs);
    [by rewrite app_nil_r|done|]. unfold mbind, P_bind. rewrite Hw. rewrite app_nil_r in Him'.
  eexists. split; [reflexivity|]. split; [by exists a, m', i, r', im'|]. by destruct Hs.
Qed.

Lemma transforms_pair path ks kt e d t last le M M' post :
  path_text ks kt → equals_text e → value_text d t → line_end last le → (last = true → post = []) →
  resolves path M → enter path (add_path ks d) M = Some M' →
  transforms (parse_document_pair path) ((kt ++ e ++ t) ++ le) post M M' (λ _, True).
Proof.
  intros Hk He Ht Hle Hlast Hres Hent. apply transforms_scoped.
  eapply (transforms_bind _ _ _ _ _ _ M' _ (λ _, True)); [|intros _ _; by eapply transforms_reads, reads_line_end].
  apply transforms_scoped. rewrite <- (app_nil_r (kt ++ _)). unfold insert_into. eapply transforms_read_bind.
  { apply (reads_pair _ (S (length t))) with (d := d); [|done|done|done|lia|by apply (ends_value_line last le post)]. intros d' t' post' Ht' _ Hpost'.
    apply reads_looping. intros n Hn. apply reads_value; [done|done|]. rewrite length_app in Hn. lia. }
  intros [segs nd] [Hs Hnd]. cbn in Hs, Hnd. subst segs. cbv beta iota. intros s j past Hat Hroot.
  destruct (at_table_enter path (λ m r, m ← insert_value ks nd m; mret (m, r)) (add_path ks d) s M M')
    as (s' & -> & Hroot' & Hr & Hc & Hp); [|done..|].
  - intros r m M1 M1' im rest Hm Him Hadd.
    destruct (performs_insert_value ks nd d s Hnd m M1 M1' im rest Hm Him Hadd) as (m' & s' & im' & Hw & Hm' & Him' & Hs).
    unfold mbind, P_bind. rewrite Hw. by eexists _, s', im'.
  - eexists tt, _, []. split; [reflexivity|]. split; [done|]. rewrite app_nil_r, Nat.sub_0_r.
    split_and!; [by apply (at_text_same s)|done|done].
Qed.

Lemma transforms_header arr path b t b' last le M M' post :
  spaces b → path_text path t → spaces b' → line_end last le → (last = true → post = []) → declare arr path M = Some M' →
  transforms parse_table_header (header_text arr (b ++ t ++ b') ++ le) post M M' (λ r, r = path).
Proof.
  intros Hb Hp Hb' Hle Hlast Hd. apply transforms_scoped.
  eapply transforms_read_bind; [by apply reads_header|]. intros [[key arr'] region] Hr. cbn in Hr. injection Hr as -> ->.
  cbv beta iota. rewrite <- (app_nil_r le). eapply transforms_read_bind; [by eapply reads_line_end|]. intros _ _.
  intros s k past Hat (a & m & i & r & im & Hr & Hm & Him). unfold root_map, gets, modify, mbind, P_bind. rewrite Hr.
  destruct (performs_declare arr region path s m M M' im []) as (m' & s' & im' & -> & HM' & Him' & [Hrd Hcp Hk1 Hk2 _ _]);
    [done|by rewrite app_nil_r|done|]. rewrite app_nil_r in Him'.
  unfold set_root_map. rewrite Hk2, Hr. eexists _, _, []. split; [reflexivity|]. split; [done|].
  rewrite app_nil_r, Nat.sub_0_r. split_and!; [by apply (at_text_same s)|by exists a, m', i, r, im'|done].
Qed.

(** A line that begins with a character of its own. *)
Lemma transforms_not_blank path pre post c t M M' Q :
  pre ++ post = c :: t → not_blank c = true →
  transforms (if c =? U "[" then parse_table_header
    else if is_bare_key_character c || is_string_delimiter c then parse_document_pair path;; mret path
    else saw (bs "expected keys, tables, whitespace or comments, saw '")) pre post M M' Q →
  transforms (document_step path) pre post M M' Q.
Proof.
  intros Ht (Hws & Hbr & Hcom)%not_blank_spec Hm. unfold document_step.
  apply (transforms_read_bind _ _ [] pre _ _ _ (λ b, b = false)); [apply reads_no_whitespace; rewrite Ht; cbn; by rewrite Hws|].
  intros b ->. apply (transforms_read_bind _ _ [] pre _ _ _ (λ b, b = false)).
  { apply reads_no_line_break. rewrite Ht. cbn. by rewrite Hbr. }
  intros b ->. apply (transforms_read_bind _ _ [] pre _ _ _ (λ b, b = false)).
  { apply reads_no_comment. rewrite Ht. unfold begins. by rewrite Hcom. }
  intros b ->. apply (transforms_read_bind _ _ [] pre _ _ _ (λ x, value x = c)); [|by intros x ->].
  intros s k past Hat. cbn [app] in Hat. pose proof Hat as Hat'. rewrite Ht in Hat'.
  destruct (at_cur _ _ _ _ _ Hat') as (x & Hx & Hv & _). exists x, s, [].
  unfold cur. by rewrite Hx, app_nil_r, Nat.sub_0_r.
Qed.

(** One round of the loop reads one line that is not indented. *)
Lemma transforms_line last l t path path' M M' post :
  line_text last l t → (last = true → post = []) → resolves path M → line_meaning l (path, M) = Some (path', M') →
  transforms (document_step path) t post M M' (λ r, r = path').
Proof.
  intros Ht Hlast Hres. destruct Ht as [nl Hnl|cs nl Hcs Hnl|k kt e d t le Hk He Ht Hle|arr p b t b' le Hb Hp Hb' Hle]; cbn [line_meaning].
  - intros [= <- <-]. destruct (newline_cons _ Hnl) as (c & t & Hc & _ & Hws & _). apply transforms_reads. unfold document_step.
    apply (reads_bind _ _ [] nl _ (λ b, b = false)); [apply reads_no_whitespace; rewrite Hc; cbn; by rewrite Hws|]. intros r ->.
    rewrite <- (app_nil_r nl). eapply reads_bind; [by apply reads_line_break|]. intros r ->. by rd.
  - intros [= <- <-]. apply transforms_reads. unfold document_step.
    apply (reads_bind _ _ [] _ _ (λ b, b = false)); [by apply reads_no_whitespace|]. intros r ->.
    apply (reads_bind _ _ [] _ _ (λ b, b = false)); [by apply reads_no_line_break|]. intros r ->.
    rewrite <- (app_nil_r (U "#" :: cs ++ nl)). apply (reads_bind _ _ ((U "#" :: cs) ++ nl) [] _ (λ b, b = true)); [|intros r ->; by rd].
    apply reads_comment; [by exists cs|by eapply ends_line_cases].
  - intros (M1 & Hput & [= <- <-])%bind_Some.
    destruct (path_text_cons _ _ Hk) as (c & t' & Hc & Hstart).
    destruct (starts_key_spec _ Hstart) as (Hblank & _ & Hopen & _).
    eapply transforms_not_blank; [by rewrite Hc|done|]. unfold starts_key in Hstart. rewrite Hopen, Hstart.
    rewrite <- (app_nil_r (_ ++ le)).
    apply (transforms_bind _ _ _ _ _ _ M1 _ (λ _, True)); [by eapply transforms_pair|]. intros _ _.
    by apply transforms_reads, reads_ret.
  - intros (M1 & Hd & [= <- <-])%bind_Some. destruct arr; (eapply transforms_not_blank; [reflexivity|done|]); compare_chars.
    + by apply (transforms_header true p b t b' last).
    + by apply (transforms_header false p b t b' last).
Qed.

(** Another round reads the spaces before it. *)
Lemma line_text_begins last l t : line_text last l t → ∃ c t', t = c :: t' ∧ is_whitespace c = false ∧ 0 ≤ c < 0x80.
Proof.
  intros [nl [->| ->]|cs nl _ _|k kt e d t' le Hk _ _ _|[] p b t' b' le _ _ _ _]; try by eexists _, _.
  destruct (path_text_cons _ _ Hk) as (c & t1 & -> & (Hb & _ & _ & _ & _ & Hr)%starts_key_spec). apply not_blank_spec in Hb as (Hb & _).
  by eexists c, _.
Qed.

Lemma transforms_indent b path rest M :
  spaces b → b ≠ [] → begins (negb ∘ is_whitespace) rest → transforms (document_step path) b rest M M (λ r, r = path).
Proof.
  intros Hb Hne Hrest. apply transforms_reads. unfold document_step. rewrite <- (app_nil_r b).
  eapply reads_bind; [by apply reads_spaces|]. intros r ->. destruct b; [done|]. by rd.
Qed.

Lemma line_resolves l path path' M M' :
  line_meaning l (path, M) = Some (path', M') → resolves path M → resolves path' M'.
Proof.
  destruct l as [|cs|k d|arr p]; cbn [line_meaning]; try by intros [= <- <-].
  - intros (M1 & Hput & [= <- <-])%bind_Some _. rewrite <- (app_nil_r path). by eapply enter_resolves.
  - intros (M1 & Hd & [= <- <-])%bind_Some _. by eapply declare_resolves.
Qed.

(** The loop goes on where there is text. *)
Lemma transforms_not_eof {A} (f : bool → P A) c t pre M M' Q :
  pre = c :: t → transforms (f false) pre [] M M' Q → transforms (is_eof ≫= f) pre [] M M' Q.
Proof.
  intros -> Hf. apply (transforms_read_bind _ _ [] _ _ _ _ (λ b, b = false)); [|by intros b ->].
  intros s k past Hat. destruct (at_cur _ _ _ _ _ Hat) as (x & Hx & _).
  exists false, s, []. unfold is_eof, gets. rewrite Hx, app_nil_r, Nat.sub_0_r. done.
Qed.

Lemma document_text_cons d text : document_text d text → d ≠ [] → ∃ c t, text = c :: t ∧ 0 ≤ c < 0x80.
Proof.
  intros [|last l b t d' ts Hb Hl _ _] Hd; [done|]. destruct Hb as [|c b [->| ->] _]; [|by eexists _, _..]. cbn [app].
  destruct (line_text_begins _ _ _ Hl) as (c & t' & -> & _ & Hc). by eexists c, _.
Qed.

(** The loop over a document that is not empty. *)
Lemma transforms_lines d text n path path' M M' :
  document_text d text → d ≠ [] → lines_meaning d (path, M) = Some (path', M') → resolves path M →
  (length text < n)%nat →
  transforms (document_loop n path) text [] M M' (λ r, r = path') ∧ resolves path' M'.
Proof.
  intros Ht. revert n path M. induction Ht as [|last l b t d ts Hb Hl Hlast Ht IH]; intros n path M Hne Hd Hres Hn; [done|].
  cbn [lines_meaning] in Hd. apply bind_Some in Hd as ([path1 M1] & Hl1 & Hd).
  pose proof (line_resolves _ _ _ _ _ Hl1 Hres) as Hres1. destruct (line_text_begins _ _ _ Hl) as (c & t' & Hc & Hws & _).
  assert (last = true → ts ++ [] = []) as Hlast' by (intros Hl'; specialize (Hlast Hl'); subst d; by inversion Ht).
  assert (∀ n, (length (t ++ ts) < n)%nat →
    transforms (document_loop n path) (t ++ ts) [] M M' (λ r, r = path') ∧ resolves path' M') as Hline.
  { clear n Hn. intros [|n] Hn; [lia|]. rewrite length_app, Hc in Hn. cbn [length] in Hn. cbn [document_loop].
    destruct (decide (d = [])) as [->|Hd'].
    - inversion Ht; subst ts. cbn in Hd. injection Hd as <- <-. split; [|done].
      eapply transforms_bind; [by eapply transforms_line|]. intros r ->.
      apply transforms_reads, reads_is_eof_end. by apply reads_ret.
    - destruct (IH n path1 M1) as [Hloop Hres']; [done|done|done|lia|]. split; [|done].
      destruct (document_text_cons _ _ Ht) as (c' & t'' & Hc' & _); [done|].
      eapply transforms_bind; [by eapply transforms_line|]. intros r ->. by eapply transforms_not_eof. }
  destruct (decide (b = [])) as [->|Hne']; [by apply Hline|]. destruct n as [|n]; [lia|].
  destruct (Hline n) as [Hloop Hres']; [rewrite length_app in Hn; destruct b; [done|cbn in Hn; lia]|]. split; [|done]. cbn [document_loop].
  eapply (transforms_bind _ _ b); [apply transforms_indent; [done|done|]|]; [rewrite Hc; cbn; by rewrite Hws|].
  intros r ->. eapply transforms_not_eof; [by rewrite Hc|done].
Qed.

(** ** The document *)
Lemma strip_update n : strip (update_region_ends n) = strip n.
Proof.
  revert n. fix IH 1. intros [a m i r|a els r|s r|z f r|x r|b r|d r|t r|dt r]; try reflexivity; cbn [update_region_ends].
  - destruct i; [reflexivity|]. cbn [strip]. f_equal. rewrite map_map. cbn [fst snd].
    induction m as [|[k n] m IHm]; cbn [map]; [reflexivity|]. by rewrite IH, IHm.
  - cbn [strip]. f_equal. rewrite map_map. induction els as [|n els IHels]; cbn [map]; [reflexivity|]. by rewrite IH, IHels.
Qed.

(** The regions of the root and of the last table are closed; the data stays. *)
Lemma at_table_region path g s M :
  has_root s M → resolves path M →
  ∃ s', at_table path (λ m r, mret (m, g r)) s = Done tt s' ∧ has_root s' M.
Proof.
  intros Hroot Hres. destruct (at_table_enter path (λ m r, (mret (m, g r) : P _)) Some s M M) as (s' & ? & ? & _); [|done|done|by apply enter_Some|eauto].
  intros r m M1 M1' im rest Hm Him [= <-]. by eexists _, s, im.
Qed.

Lemma has_root_empty s a i r : root s = Table a [] i r → has_root s [].
Proof. intros Hr. exists a, [], i, r, []. split; [done|]. split; [constructor|]. split; [constructor|]. split; [set_solver|constructor]. Qed.

Lemma bind_done {A B} (m : P A) (f : A → P B) s a s' : m s = Done a s' → (m ≫= f) s = f a s'.
Proof. intros Hm. unfold mbind, P_bind. by rewrite Hm. Qed.

Lemma scoped_done {A} scope (m : P A) s a s' :
  m (set_scope scope s) = Done a s' → scoped scope m s = Done a (set_scope (current_scope s) s').
Proof. intros Hm. unfold scoped, gets, modify, mbind, P_bind. by rewrite Hm. Qed.

Lemma parse_document_reads d text M s :
  document_text d text → d ≠ [] → document_meaning d = Some M → at_text s 0 [] text → has_root s [] →
  ∃ s', parse_document s = Done tt s' ∧ has_root s' M.
Proof.
  intros Ht Hne HM Hat Hroot. unfold document_meaning in HM. apply fmap_Some in HM as ([path M1] & Hd & ->). cbn [snd].
  assert (transforms (looping (λ n, document_loop n [])) text [] [] M1 (λ r, r = path) ∧ resolves path M1)
    as [Hloop Hres].
  { split; [apply transforms_looping; intros n Hn; rewrite app_nil_r in Hn|]; eapply transforms_lines; try done.
    apply Nat.lt_succ_diag_r. }
  destruct (Hloop (set_scope (bs "root table") s) 0%nat []) as (r & s1 & past1 & Hs1 & -> & _ & Hroot1 & _);
    [rewrite app_nil_r; by apply (at_text_same s)|done|].
  destruct (at_table_region [] (λ r, set_end r (position_of s1 1)) s1 M1 Hroot1 I) as (s2 & Hs2 & Hroot2).
  assert (∃ s3, match path with
    | [] => mret ()
    | _ => at_table path (λ m r, mret (m, if pos_le (reg_end r) (reg_begin r) then set_end r (position_of s1 1) else r))
    end s2 = Done tt s3 ∧ has_root s3 M1) as (s3 & Hs3 & Hroot3).
  { destruct path as [|p path]; [by exists s2|].
    by apply (at_table_region _ (λ r, if pos_le (reg_end r) (reg_begin r) then set_end r (position_of s1 1) else r)). }
  eexists. split; [apply scoped_done|exact Hroot3]. rewrite (bind_done _ _ _ _ _ Hs1).
  rewrite (bind_done (current_position 1) _ s1 (position_of s1 1) s1) by done. rewrite (bind_done _ _ _ _ _ Hs2). exact Hs3.
Qed.

(** *** The bytes of the text *)
Definition text_char (c : Z) : Prop := scalar c ∧ c ≠ 0.

Lemma text_ascii c : 0 < c < 0x80 → text_char c.
Proof. unfold text_char, scalar. lia. Qed.

Ltac ascii_text := repeat (apply List.Forall_cons; [by apply text_ascii|]); apply List.Forall_nil.

Lemma text_spaces b : spaces b → Forall text_char b.
Proof. intros Hb. eapply Forall_impl; [exact Hb|]. intros c [->| ->]; by apply text_ascii. Qed.

Lemma text_newline nl : newline nl → Forall text_char nl.
Proof. intros [->| ->]; ascii_text. Qed.

Lemma text_bytes b : Forall (λ b, 0 < U b < 0x80) b → Forall text_char (zs b).
Proof. intros Hb. apply Forall_fmap. eapply Forall_impl; [exact Hb|]. intros x Hx. by apply text_ascii. Qed.

Lemma text_escape e v : escape_sequence e v → Forall text_char e.
Proof.
  intros [c b Hc|long chars ds Hm _ _ _].
  - unfold simple_escapes in Hc. rewrite !elem_of_cons, elem_of_nil in Hc.
    destruct Hc as [[= -> ->]|[[= -> ->]|[[= -> ->]|[[= -> ->]|[[= -> ->]|[[= -> ->]|[[= -> ->]|[]]]]]]]]; ascii_text.
  - constructor; [destruct long; by apply text_ascii|]. apply text_bytes. apply mapM_Some in Hm.
    induction Hm as [|b d chars ds Hd _ IH]; constructor; [|done]. apply hex_digit_spec in Hd as (Hd & _ & _). clear -Hd.
    unfold is_hexadecimal_digit in Hd. revert Hd. generalize (U b). intros c Hc. by character_classes.
Qed.

Lemma text_basic ml skip b t : basic_text ml skip b t → Forall text_char t.
Proof.
  induction 1 as [|? c ? ? (Hs & _ & _ & Hc) _ _ _ IH|? e v ? ? He _ IH|? nl ? ? _ Hnl _ IH|? n ? ? _ _ _ _ _ IH|? sp nl ? ? _ Hsp Hnl _ IH|c ? ? _ Hc _ IH];
    rewrite ?Forall_cons, ?Forall_app; split_and?; eauto using text_spaces, text_newline, text_escape.
  - split; [done|]. by intros ->.
  - by apply text_ascii.
  - apply Forall_replicate. by apply text_ascii.
  - by apply text_ascii.
  - destruct Hc as [->| ->]; by apply text_ascii.
Qed.

Lemma text_literal c : literal_char c → text_char c.
Proof. intros (Hc & Hctrl & _). split; [done|]. by intros ->. Qed.

Lemma text_string_chars b t : string_text b t → Forall text_char t.
Proof.
  intros [b' t' Ht|cs Hcs]; unfold single_quote; rewrite !Forall_app; split_and!; try ascii_text; [by eapply text_basic|].
  eapply Forall_impl; [exact Hcs|apply text_literal].
Qed.

Lemma text_multi_line_chars b t : multi_line_text b t → Forall text_char t.
Proof.
  assert (∀ start : list Z, ∀ P, newline start ∨ start = [] ∧ P → Forall text_char start) as Hstart
    by (intros start P [?|[-> _]]; [by apply text_newline|constructor]).
  intros [b' start t' n Ht Hs _|b' start t' n Ht Hs _]; rewrite !Forall_app; split_and!; eauto; try (apply Forall_replicate; by apply text_ascii).
  - by eapply text_basic.
  - clear Hs. induction Ht as [|c ? ? Hc _ _ IH|nl ? ? Hnl _ IH|j ? ? _ _ _ _ IH]; rewrite ?Forall_cons, ?Forall_app; split_and?; eauto using text_literal, text_newline.
    apply Forall_replicate. by apply text_ascii.
Qed.

Lemma text_key k t : key_text k t → Forall text_char t.
Proof.
  intros [cs [_ Hb]%is_bare_spec|? ? Hs]; [|by eapply text_string_chars]. eapply Forall_impl; [exact Hb|]. intros c Hc.
  apply text_ascii. cbv beta in Hc. by character_classes.
Qed.

Lemma text_path ks t : path_text ks t → Forall text_char t.
Proof.
  induction 1 as [k t Hk|k t b b' ks ts Hk Hb Hb' _ IH]; [by eapply text_key|]. rewrite !Forall_app.
  split_and!; [by eapply text_key|by apply text_spaces|ascii_text|by apply text_spaces|done].
Qed.

Lemma text_comment_chars cs : Forall comment_char cs → Forall text_char cs.
Proof. intros Hcs. eapply Forall_impl; [exact Hcs|]. intros c (Hc & Hctrl & _). split; [done|]. by intros ->. Qed.

Lemma text_comment_text cs : comment cs → Forall text_char cs.
Proof. intros (t & -> & Ht). constructor; [by apply text_ascii|]. by apply text_comment_chars. Qed.

Lemma text_blanks b : array_blanks b → Forall text_char b.
Proof.
  induction 1 as [|c b [->| ->] _ IH|nl b Hnl _ IH|cs nl b Hcs Hnl _ IH]; [constructor|constructor; [by apply text_ascii|done]..| |];
    rewrite ?Forall_app; split_and?; eauto using text_newline, text_comment_text.
Qed.

Lemma text_equals e : equals_text e → Forall text_char e.
Proof. intros [b b' Hb Hb']. rewrite !Forall_app. split_and!; [by apply text_spaces|ascii_text|by apply text_spaces]. Qed.

Lemma text_line_end last le : line_end last le → Forall text_char le.
Proof.
  assert (∀ nl, ends_line last nl → Forall text_char nl) as Hend by (intros nl [?|[_ ->]]; [by apply text_newline|constructor]).
  intros [b nl Hb Hnl|b cs nl Hb Hcs Hnl]; rewrite !Forall_app; split_and?; eauto using text_spaces, text_comment_text.
Qed.


Lemma text_temporal t : Forall (λ c, temporal_char c = true) t → Forall text_char t.
Proof.
  intros Ht. eapply Forall_impl; [exact Ht|]. apply temporal_char_cases; try by apply text_ascii.
  intros c Hc. apply text_ascii. by character_classes.
Qed.

Lemma text_date_chars d : calendar_date d → Forall text_char (date_text d).
Proof. intros Hd. by apply text_temporal, date_temporal. Qed.
Lemma text_time_chars t tt : time_text t tt → Forall text_char tt.
Proof. intros Ht. apply text_temporal. by destruct (time_temporal _ _ 0 Ht). Qed.
Lemma text_offset o ot : offset_text o ot → Forall text_char ot.
Proof. intros Ho. apply text_temporal. by destruct (offset_temporal _ _ Ho). Qed.

Lemma text_separated t chars body :
  t ∈ all_traits → separated chars body → Forall (λ b, tr_is_digit t (U b) = true) chars → Forall text_char body.
Proof.
  intros Ht Hs Hd.
  assert (∀ b, tr_is_digit t (U b) = true → text_char (U b)) as Hdigit.
  { intros b Hb. apply text_ascii. destruct (digit_char t b Ht Hb) as [Hlt _].
    split; [|done]. destruct (decide (U b = 0)) as [H0|H0]; [|pose proof (byte_to_Z_range b); unfold U in *; lia].
    exfalso. rewrite H0 in Hb. unfold all_traits in Ht. rewrite !elem_of_cons, elem_of_nil in Ht. by destruct Ht as [->|[->|[->|[->|[]]]]]. }
  induction Hs; inversion Hd; subst; constructor; auto. constructor; [by apply text_ascii|auto].
Qed.

Lemma text_sign neg st : sign_text neg st → Forall text_char st.
Proof. intros []; ascii_text. Qed.

Lemma text_prefixed_chars z t : prefixed_text z t → Forall text_char t.
Proof.
  intros [p base limit chars ds body Hp Hm Hb Hs _ _ _]. destruct (prefix_of_spec _ _ _ Hp) as (Hin & _ & _ & _ & _ & _ & _ & Hp').
  destruct (prefixed_digits _ _ _ _ _ Hp Hm Hb) as [Hd _]. apply Forall_app. split; [|by eapply text_separated].
  rewrite !elem_of_cons, elem_of_nil in Hp'. destruct Hp' as [->|[->|[->|[]]]]; ascii_text.
Qed.

Lemma text_integer_chars z t : decimal_text z t → Forall text_char t.
Proof.
  intros [neg st chars ds body Hst Hm Hd Hs _ _ _]. apply Forall_app. split; [by eapply text_sign|].
  apply (text_separated decimal_traits chars); [unfold all_traits; set_solver|done|by eapply decimal_chars].
Qed.

Lemma text_float_chars p : float_text p → Forall text_char (float_chars_text p).
Proof.
  intros [[Hw _] _ Hf He _]. unfold float_chars_text. rewrite !Forall_app. split_and!.
  - by apply text_temporal, digit_chars_temporal.
  - destruct (fraction p); [constructor|]. constructor; [by apply text_ascii|]. by apply text_temporal, digit_chars_temporal.
  - destruct (exponent p) as [[[eneg est] ds]|]; [|constructor]. destruct He as [Hest [Hds _]]. constructor; [by apply text_ascii|].
    apply Forall_app. split; [by eapply text_sign|by apply text_temporal, digit_chars_temporal].
Qed.

Lemma text_values :
  (∀ d t, value_text d t → Forall text_char t) ∧ (∀ l t, elements_text l t → Forall text_char t) ∧
  (∀ l t, pairs_text l t → Forall text_char t).
Proof.
  assert (Forall text_char [U "["] ∧ Forall text_char [U "]"] ∧ Forall text_char [U "{"] ∧ Forall text_char [U "}"] ∧
    Forall text_char [U ","] ∧ Forall text_char [U "T"] ∧ Forall text_char (zs (bs "inf")) ∧ Forall text_char (zs (bs "nan")))
    as (? & ? & ? & ? & ? & ? & ? & ?) by (split_and!; ascii_text).
  apply value_text_mutual; intros; rewrite ?Forall_app; split_and?; eauto using text_string_chars, text_multi_line_chars, text_integer_chars, text_prefixed_chars,
    text_float_chars, text_sign, text_date_chars, text_time_chars, text_offset, text_blanks, text_spaces, text_key, text_equals.
  destruct b; ascii_text.
Qed.

Lemma text_line last l t : line_text last l t → Forall text_char t.
Proof.
  intros [nl Hnl|cs nl Hcs Hnl|k kt e d' t' le Hk He Ht Hle|arr p b t' b' le Hb Hp Hb' Hle].
  - by apply text_newline.
  - constructor; [by apply text_ascii|]. apply Forall_app. split; [by apply text_comment_chars|].
    destruct Hnl as [?|[_ ->]]; [by apply text_newline|constructor].
  - rewrite !Forall_app. split_and!; eauto using text_path, text_equals, text_line_end. by eapply (proj1 text_values).
  - unfold header_text, brackets. rewrite !Forall_app. split_and!; eauto using text_path, text_spaces, text_line_end; destruct arr; ascii_text.
Qed.

Lemma text_document d text : document_text d text → Forall text_char text.
Proof.
  induction 1 as [|last l b t d ts Hb Hl _ _ IH]; [constructor|]. rewrite !Forall_app.
  split_and!; [by apply text_spaces|by eapply text_line|done].
Qed.

(** The streams hand the text on as it is: it begins with an ASCII character and
    holds no NUL. *)
Lemma encode_no_null text : Forall text_char text → x00 ∉ encode_text text.
Proof.
  induction 1 as [|c text [Hc H0] _ IH]; [apply not_elem_of_nil|]. rewrite encode_text_cons, not_elem_of_app.
  split; [by apply x00_not_in_encode|done].
Qed.

Lemma streams_keep_document d text :
  document_text d text → let b := encode_text text in string_stream b = b ∧ file_stream b = b.
Proof.
  intros Ht b. destruct (decide (d = [])) as [->|Hne]; [by inversion Ht; subst|].
  assert (skip_bom b = b) as Hbom.
  { destruct (document_text_cons _ _ Ht Hne) as (c & t & -> & Hr). unfold b.
    rewrite encode_text_cons. unfold skip_bom. rewrite decide_False; [done|].
    unfold utf8_encode. rewrite (proj2 (Z.ltb_lt _ _)) by lia. cbn [fmap list_fmap app take]. intros [= Hb _].
    apply (f_equal byte_to_Z) in Hb. rewrite byte_to_of_Z, Z.mod_small in Hb by lia.
    change (byte_to_Z xef) with 239 in Hb. lia. }
  split; [|done]. unfold string_stream.
  pose proof (encode_no_null _ (text_document _ _ Ht)) as Hn. fold b in Hn. clearbody b.
  assert (trim_nulls b = b) as ->; [|exact Hbom]. unfold trim_nulls.
  assert (drop_nulls (rev b) = rev b) as ->; [|rewrite rev_involutive; by destruct b].
  destruct (rev b) as [|x l] eqn:Hrev; [done|]. cbn [drop_nulls]. rewrite decide_False; [done|]. intros ->.
  apply Hn. rewrite <- (rev_involutive b), Hrev. cbn. apply elem_of_app. right. by apply list_elem_of_singleton.
Qed.

Lemma parse_stream_document d text M path :
  document_text d text → document_meaning d = Some M → Z.of_nat (length text) < 2 ^ 64 →
  ∃ m r s, parse_stream (parser_new (encode_text text) path) = Done (m, r) s ∧ strip_map m = plain_map M.
Proof.
  intros Ht HM Hlen. set (s0 := parser_new (encode_text text) path). unfold parse_stream.
  rewrite (bind_done (gets _) _ s0 (reader_peek_eof (br_reader (reader s0))) s0) by done.
  assert (∃ s1, (if reader_peek_eof (br_reader (reader s0)) then mret ()
    else read_first;; eof ← is_eof; if (eof : bool) then mret () else parse_document) s0 = Done tt s1 ∧ has_root s1 M)
    as (s1 & Hs1 & a & m & i & r & im & Hr & HM1 & _).
  { destruct (decide (d = [])) as [->|Hne].
    { inversion Ht; subst. exists s0. cbn in HM. injection HM as <-. split; [done|]. by eapply has_root_empty. }
    destruct (document_text_cons _ _ Ht Hne) as (c & t & Htext & _).
    destruct (at_start text path) as (s1 & Hs1 & Hat & [_ Hk _ _ _ _ _]); [by rewrite Htext| |done|].
    { eapply Forall_impl; [by eapply text_document|]. by intros x []. }
    assert (reader_peek_eof (br_reader (reader s0)) = false) as ->.
    { apply bool_decide_eq_false. change (encode_text text ≠ []). rewrite Htext, encode_text_cons.
      destruct (utf8_encode_cons c) as (b & x & ->). done. }
    destruct (parse_document_reads d text M s1) as (s2 & Hs2 & Hroot); try done.
    { eapply has_root_empty. by rewrite Hk. }
    exists s2. split; [|done]. rewrite (bind_done _ _ _ _ _ Hs1). rewrite (bind_done is_eof _ s1 false s1); [done|].
    rewrite Htext in Hat. destruct (at_cur _ _ _ _ _ Hat) as (x & Hx & _).
    unfold is_eof, gets. by rewrite Hx. }
  rewrite (bind_done _ _ _ _ _ Hs1). rewrite (bind_done (gets root) _ s1 (root s1) s1) by done. rewrite Hr.
  pose proof (strip_update (Table a m i r)) as Hu. destruct (update_region_ends (Table a m i r)); try done.
  eexists _, _, _. split; [reflexivity|]. rewrite <- (rep_map_plain _ _ _ _ _ HM1). cbn in Hu. by injection Hu.
Qed.

Lemma parse_file_document d text M path :
  document_text d text → document_meaning d = Some M → Z.of_nat (length text) < 2 ^ 64 →
  ∃ m r s, parse_file (File (encode_text text)) path = Done (m, r) s ∧ strip_map m = plain_map M.
Proof.
  intros Ht HM Hlen. destruct (streams_keep_document d text Ht) as [Hs Hf]. unfold parse_file, parse, parse_istream.
  rewrite Hs, Hf. case_match; by eapply parse_stream_document.
Qed.


(** A header of an array of tables with a comment behind it, an indented pair
    whose value goes over two lines, with a comment in it and a comma at its end,
    a string between triple marks under a key with a dot, and a comment that ends
    the text. *)
Definition demo_document : document :=
  [Header true [bs "board"]; Pair [bs "on"] (DArray [DBoolean true; DInteger (-7)]);
   Pair [bs "run"; bs "cmd"] (DString (bs "echo 'x'; exit")); Comment (zs (bs " done"))].

Definition demo_text : list Z :=
  zs (bs "[[ board]] # first") ++ [13; 10] ++ [9] ++ zs (bs "on= [true, # yes") ++ [10] ++ zs (bs "-7 , ]") ++ [10] ++
  zs (bs "run.cmd = '''echo 'x'; exit'''") ++ [10] ++ zs (bs "# done").

Lemma literal_byte x b t :
  0x20 ≤ U x < 0x7F → U x ≠ U "'" → literal_text b t → literal_text (x :: b) (U x :: t).
Proof.
  intros Hr Hq Ht. replace (x :: b) with (utf8_encode (U x) ++ b).
  - apply literal_cons; [|by character_classes|done]. split_and!; [unfold scalar; lia|by character_classes|done].
  - unfold utf8_encode. rewrite (proj2 (Z.ltb_lt _ _)) by lia. cbn. unfold U. by rewrite byte_of_to_Z.
Qed.

Lemma demo_document_text : document_text demo_document demo_text.
Proof.
  assert (spaces [] ∧ spaces [U " "] ∧ array_blanks [U " "] ∧ array_blanks []) as (Hs0 & Hs1 & Hb1 & Hb0).
  { assert (spaces [] ∧ spaces [U " "]) as [? ?] by (split; [constructor|by apply Forall_singleton; left]).
    split_and!; [done|done|by apply array_blanks_spaces..]. }
  assert (∀ s, forallb (λ b, (0x20 <=? U b) && (U b <? 0x7F)) s = true → Forall comment_char (zs s)) as Hcomment.
  { intros s Hs. apply Forall_fmap, List.Forall_forall. intros b Hb. rewrite forallb_forall in Hs. specialize (Hs b Hb).
    cbn. revert Hs. generalize (U b). intros c Hc. unfold comment_char, scalar. split_and!; by character_classes || lia. }
  apply (document_cons false _ [] (header_text true ([U " "] ++ zs (bs "board") ++ []) ++ [U " "] ++ (U "#" :: zs (bs " first")) ++ [13; 10]));
    [done| |done|].
  { apply header_line; [done| |done|apply comment_end; [done|eexists; split; [done|by apply Hcomment]|left; by right]].
    constructor. by apply (bare_key (zs (bs "board"))). }
  apply (document_cons false _ [9] ((zs (bs "on") ++ ([] ++ [U "="] ++ [U " "]) ++ [U "["] ++ (zs (bs "true, # yes") ++ [10] ++ zs (bs "-7 , ")) ++ [U "]"]) ++ [] ++ [10]));
    [by apply Forall_singleton; right| |done|].
  { apply pair_line; [constructor; by apply (bare_key (zs (bs "on")))|by constructor| |by constructor; [|left; left]].
    apply text_array. apply (more_elements _ (zs (bs "true")) [] [] _ (zs (bs " # yes") ++ [10] ++ zs (bs "-7 , ")) Hb0); [apply (text_boolean true)|exact Hb0|].
    apply (more_elements _ (decimal (-7)) (zs (bs " # yes") ++ [10]) [U " "] _ [U " "]); [|by constructor; apply decimal_text_of|exact Hb1|by constructor].
    apply blank_space; [by left|]. apply (blank_comment (zs (bs "# yes")) [10] []); [|by left|done].
    eexists. split; [reflexivity|]. by apply (Hcomment (bs " yes")). }
  apply (document_cons false _ [] (((zs (bs "run") ++ [] ++ [U "."] ++ [] ++ zs (bs "cmd")) ++ ([U " "] ++ [U "="] ++ [U " "]) ++ zs (bs "'''echo 'x'; exit'''")) ++ [] ++ [10])); [done| |done|].
  { apply pair_line; [apply path_cons; [by apply (bare_key (zs (bs "run")))|done|done|constructor; by apply (bare_key (zs (bs "cmd")))]|by constructor| |by constructor; [|left; left]]. apply text_multi_line.
    apply (multi_line_literal (bs "echo 'x'; exit") [] (zs (bs "echo 'x'; exit")) 0); [|by right|lia].
    repeat first [apply literal_nil|apply (literal_quotes 1); [by left|done|done|]|apply literal_byte; [by vm_compute|by vm_compute|]]. }
  apply (document_cons true _ [] (U "#" :: zs (bs " done") ++ [])); [done| |done|constructor].
  apply comment_line; [by apply Hcomment|by right].
Qed.

