(* ===== verification/TomlView.v ===== *)
(** * TomlView: nodes and views of nodes ([toml_node.h], [toml_node_view.h] in [src/include/toml.hpp])

    What a program does with a parsed document: it asks what a node is
    ([node::is], [node::as], [node::visit], [node::ref]), goes down the document with
    [operator[]] of [node_view], which may refer to nothing, and asks the view for a
    value. Also assignment between nodes and comparison with C++ containers. *)
From Stdlib Require Import SpecFloat.
From S2P Require Import Prelude Bytes Env TomlNode TomlContainers TomlUtf8 TomlReader TomlParser TomlScalar TomlDocument TomlText TomlGrammar TomlCompare TomlValues TomlRoundtrip TomlRetrieve.

Local Open Scope Z_scope.

(** ** What a node is *)

(** The virtual functions: [false] or [nullptr] in [node], overridden where they hold. *)
Definition is_table (n : node) : bool := match n with Table _ _ _ _ => true | _ => false end.
Definition is_array (n : node) : bool := match n with Array _ _ _ => true | _ => false end.
Definition is_value (n : node) : bool := match n with Table _ _ _ _ | Array _ _ _ => false | _ => true end.
Definition is_integer (n : node) : bool := match n with VInteger _ _ _ => true | _ => false end.
Definition is_floating_point (n : node) : bool := match n with VFloat _ _ => true | _ => false end.
Definition is_number (n : node) : bool := match n with VInteger _ _ _ | VFloat _ _ => true | _ => false end.
Definition is_boolean (n : node) : bool := match n with VBoolean _ _ => true | _ => false end.
Definition is_date (n : node) : bool := match n with VDate _ _ => true | _ => false end.
Definition is_time (n : node) : bool := match n with VTime _ _ => true | _ => false end.
Definition is_date_time (n : node) : bool := match n with VDateTime _ _ => true | _ => false end.

(** [node::is<T>], for the [T] that [type] stands for: none stands for [ty_none] *)
Definition node_is (type : node_type) (n : node) : bool :=
  match type with
  | ty_table => is_table n
  | ty_array => is_array n
  | ty_string => is_string n
  | ty_integer => is_integer n
  | ty_floating_point => is_floating_point n
  | ty_boolean => is_boolean n
  | ty_date => is_date n
  | ty_time => is_time n
  | ty_date_time => is_date_time n
  | ty_none => false
  end.

(** [node::as<T>]: the node itself, or a null pointer. *)
Definition node_as (type : node_type) (n : node) : option node := if node_is type n then Some n else None.

(** [node::do_ref]: without the check, undefined for a node of another type. *)
Definition do_ref (type : node_type) (n : node) : option node := if node_is type n then Some n else None.

(** [node::do_visit] with a visitor that accepts the types [can_visit] holds of: the
    others give [return_type{}]. *)
Definition do_visit {R} (can_visit : node_type → bool) (visitor : node → R) (empty : R) (n : node) : R :=
  match node_type_of n with
  | ty_none => empty
  | type => if can_visit type then visitor n else empty
  end.

(** ** Assignment

    Objects are assigned to objects of their own type; [self] tells the assignment
    of an object to itself. A copy has no source, what is moved takes its source along. *)
Definition value_copy_assign (lhs rhs : node) : option node :=
  match lhs, rhs with
  | VString _ _, VString s _ => Some (VString s no_region)
  | VInteger _ _ _, VInteger z fl _ => Some (VInteger z fl no_region)
  | VFloat _ _, VFloat x _ => Some (VFloat x no_region)
  | VBoolean _ _, VBoolean b _ => Some (VBoolean b no_region)
  | VDate _ _, VDate d _ => Some (VDate d no_region)
  | VTime _ _, VTime t _ => Some (VTime t no_region)
  | VDateTime _ _, VDateTime dt _ => Some (VDateTime dt no_region)
  | _, _ => None
  end.

Definition array_copy_assign (self : bool) (lhs rhs : node) : option node :=
  match lhs, rhs with
  | Array a _ _, Array _ els _ => Some (if self then lhs else Array a (map copy_node els) no_region)
  | _, _ => None
  end.

Definition table_copy_assign (self : bool) (lhs rhs : node) : option node :=
  match lhs, rhs with
  | Table a _ _ _, Table _ m i _ => Some (if self then lhs else Table a (copy_map m) i no_region)
  | _, _ => None
  end.

Definition copy_assign (self : bool) (lhs rhs : node) : option node :=
  match lhs with
  | Table _ _ _ _ => table_copy_assign self lhs rhs
  | Array _ _ _ => array_copy_assign self lhs rhs
  | _ => value_copy_assign lhs rhs
  end.

Definition value_move_assign (self : bool) (lhs rhs : node) : option node :=
  if is_value lhs && bool_decide (node_type_of lhs = node_type_of rhs) then Some (if self then lhs else rhs) else None.

Definition array_move_assign (self : bool) (lhs rhs : node) : option node :=
  match lhs, rhs with
  | Array a _ _, Array _ els r => Some (if self then lhs else Array a els r)
  | _, _ => None
  end.

Definition table_move_assign (self : bool) (lhs rhs : node) : option node :=
  match lhs, rhs with
  | Table a _ _ _, Table _ m i r => Some (if self then lhs else Table a m i r)
  | _, _ => None
  end.

Definition move_assign (self : bool) (lhs rhs : node) : option node :=
  match lhs with
  | Table _ _ _ _ => table_move_assign self lhs rhs
  | Array _ _ _ => array_move_assign self lhs rhs
  | _ => value_move_assign self lhs rhs
  end.

(** [value::operator=] of a native value: the flags and the source stay. *)
Definition set_value (n : node) (rhs : retrieved) : option node :=
  match n, rhs with
  | VString _ r, r_string s => Some (VString s r)
  | VInteger _ fl r, r_integer z => Some (VInteger z fl r)
  | VFloat _ r, r_float x => Some (VFloat x r)
  | VBoolean _ r, r_boolean b => Some (VBoolean b r)
  | VDate _ r, r_date d => Some (VDate d r)
  | VTime _ r, r_time t => Some (VTime t r)
  | VDateTime _ r, r_date_time dt => Some (VDateTime dt r)
  | _, _ => None
  end.

(** ** Views: [node_view], a pointer that may be null *)
Definition node_view : Type := option node.

Definition view_is (type : node_type) (v : node_view) : bool := if v is Some n then node_is type n else false.
Definition view_as (type : node_type) (v : node_view) : option node := n ← v; node_as type n.
Definition view_ref (type : node_type) (v : node_view) : option node := n ← v; do_ref type n.
Definition view_is_homogeneous (v : node_view) (ntype : node_type) : bool := if v is Some n then is_homogeneous n ntype else false.
Definition view_value_exact (t : target) (v : node_view) : option (option retrieved) := if v is Some n then value_exact t n else Some None.
Definition view_value (t : target) (v : node_view) : option (option retrieved) := if v is Some n then value t n else Some None.
Definition view_value_or (t : target) (default_value : retrieved) (v : node_view) : option retrieved :=
  if v is Some n then value_or t default_value n else Some default_value.
Definition view_visit {R} (can_visit : node_type → bool) (visitor : node → R) (empty : R) (v : node_view) : R :=
  if v is Some n then do_visit can_visit visitor empty n else empty.

(** [operator[]] with a key and with an index *)
Definition view_key (v : node_view) (key : bytes) : node_view :=
  match view_as ty_table v with Some (Table _ m _ _) => do_get m key | _ => None end.
Definition view_index (v : node_view) (index : nat) : node_view :=
  match view_as ty_array v with Some (Array _ els _) => array.get index els | _ => None end.

(** [operator==] with a table, an array or a value: [same] tells that the view refers to it. *)
Definition view_eq (same : bool) (v : node_view) (rhs : node) : bool :=
  if same then true else if view_as (node_type_of rhs) v is Some n then container_eq false n rhs else false.

(** [array::get_as] and [table::get_as] *)
Definition array_get_as (type : node_type) (els : list node) (index : nat) : option node := n ← array.get index els; node_as type n.
Definition do_get_as (type : node_type) (vals : string_map node) (key : bytes) : option node := n ← do_get vals key; node_as type n.

(** [value == native]: a value of the type the native value has. *)
Definition equals_native (n : node) (rhs : retrieved) : bool :=
  match n, rhs with
  | VString l _, r_string r => bool_decide (l = r)
  | VInteger l _ _, r_integer r => l =? r
  | VFloat l _, r_float r => double_eq l r
  | VBoolean l _, r_boolean r => Bool.eqb l r
  | VDate l _, r_date r => date_eq l r
  | VTime l _, r_time r => time_eq l r
  | VDateTime l _, r_date_time r => date_time_eq l r
  | _, _ => false
  end.

(** [array::container_equality] with a container of elements of the native type [type] *)
Fixpoint elements_equal (type : node_type) (els : list node) (i : nat) (rhs : list retrieved) : bool :=
  match rhs with
  | [] => true
  | list_elem :: rhs =>
    match array_get_as type els i with
    | Some elem => if negb (equals_native elem list_elem) then false else elements_equal type els (S i) rhs
    | None => false
    end
  end.

Definition container_equality (type : node_type) (els : list node) (rhs : list retrieved) : bool :=
  if negb (length els =? length rhs)%nat then false
  else if (length rhs =? 0)%nat then true
  else elements_equal type els 0 rhs.

(** ** Properties of nodes *)
Lemma node_is_type type n : node_is type n = bool_decide (node_type_of n = type).
Proof. by destruct type, n. Qed.

Lemma node_as_type type n : node_as type n = if decide (node_type_of n = type) then Some n else None.
Proof. unfold node_as. rewrite node_is_type. case_decide; [by rewrite bool_decide_true|by rewrite bool_decide_false]. Qed.

(** A visitor for every type is called with the node, whatever it is. *)
Lemma do_visit_all {R} can_visit (visitor : node → R) empty n :
  (∀ type, can_visit type = true) → do_visit can_visit visitor empty n = visitor n.
Proof. intros H. unfold do_visit. destruct n; cbn; by rewrite H. Qed.

(** Comparing an array with a C++ container compares the elements in order. *)
Lemma elements_equal_spec type els i rhs :
  length (drop i els) = length rhs →
  elements_equal type els i rhs = true ↔ Forall2 (λ n r, node_type_of n = type ∧ equals_native n r = true) (drop i els) rhs.
Proof.
  revert i. induction rhs as [|r rhs IH]; intros i Hlen; cbn [elements_equal].
  - apply nil_length_inv in Hlen as ->. split; [constructor|done].
  - assert (i < length els)%nat as Hi by (rewrite length_drop in Hlen; cbn in Hlen; lia).
    destruct (lookup_lt_is_Some_2 els i Hi) as [n Hn]. rewrite (drop_S els n i Hn) in Hlen |- *.
    unfold array_get_as, array.get. rewrite decide_True, Hn by done. cbn [mbind option_bind]. rewrite node_as_type, Forall2_cons.
    rewrite <- IH by (cbn in Hlen; lia). case_decide; [|naive_solver]. destruct (equals_native n r); naive_solver.
Qed.

Lemma container_equality_spec type els rhs :
  container_equality type els rhs = true ↔ Forall2 (λ n r, node_type_of n = type ∧ equals_native n r = true) els rhs.
Proof.
  unfold container_equality. destruct (Nat.eqb_spec (length els) (length rhs)) as [Hl|Hl]; cbn [negb].
  - destruct (Nat.eqb_spec (length rhs) 0) as [H0|H0].
    + rewrite H0 in Hl. apply nil_length_inv in H0 as ->, Hl as ->. split; [constructor|done].
    + rewrite <- (drop_0 els) at 2. by apply elements_equal_spec.
  - split; [done|]. by intros H%Forall2_length.
Qed.

(** Assigning a copy makes the object equal to the other one and keeps its
    identity; assigning a container to itself changes nothing. *)
Definition identity (n : node) : option positive := match n with Table a _ _ _ | Array a _ _ => Some a | _ => None end.

Lemma copy_assign_equal self lhs rhs n :
  copy_assign self lhs rhs = Some n → (self = true → lhs = rhs) → doubles rhs = true →
  container_eq false n rhs = true ∧ identity n = identity lhs ∧ (self = true → is_value lhs = false → n = lhs).
Proof.
  intros Hn Hself Hd. assert (strip n = strip rhs) as Hs.
  { destruct self.
    - rewrite (Hself eq_refl) in Hn. by destruct rhs; injection Hn as <-.
    - rewrite <- (strip_copy rhs). by destruct lhs, rhs; try done; injection Hn as <-. }
  split; [by apply node_eq_data|]. destruct lhs, rhs; try done; destruct self; by injection Hn as <-.
Qed.

(** Moving takes everything along but the identity. *)
Lemma move_assign_all self lhs rhs n :
  move_assign self lhs rhs = Some n → (self = true → lhs = rhs) →
  strip n = strip rhs ∧ source n = source rhs ∧ identity n = identity lhs.
Proof.
  intros Hn Hself. destruct self; [rewrite (Hself eq_refl) in *|]; destruct lhs, rhs; try done; by injection Hn as <-.
Qed.

(** A value that is set is the value retrieved, in the native type of the node. *)
Lemma set_value_deref n rhs n' : set_value n rhs = Some n' → deref n' = Some rhs ∧ node_type_of n' = node_type_of n ∧ source n' = source n.
Proof. destruct n, rhs; try done; by intros [= <-]. Qed.

(** ** Going down a document *)
Inductive step := at_key (key : bytes) | at_index (index : nat).

Definition view_step (v : node_view) (s : step) : node_view :=
  match s with at_key key => view_key v key | at_index index => view_index v index end.

Definition follow (v : node_view) (path : list step) : node_view := foldl view_step v path.

(** The same in the data. *)
Definition data_step (d : option data) (s : step) : option data :=
  match d, s with
  | Some (DTableAs _ m), at_key key => do_get m key
  | Some (DArray l), at_index index => l !! index
  | _, _ => None
  end.

Definition data_at (d : option data) (path : list step) : option data := foldl data_step d path.

Lemma view_step_strip v s : strip <$> view_step v s = data_step (strip <$> v) s.
Proof.
  destruct v as [n|]; [|by destruct s]. destruct s as [key|index]; cbn [view_step]; unfold view_key, view_index, view_as; cbn [mbind option_bind];
    rewrite node_as_type; destruct n; try done; cbn [node_type_of decide fmap option_fmap option_map strip data_step].
  - rewrite decide_True by done. by rewrite <- do_get_strip.
  - rewrite decide_True by done. unfold array.get. case_decide as Hi.
    + by rewrite list_lookup_fmap.
    + rewrite lookup_ge_None_2; [done|]. rewrite length_map. lia.
Qed.

Lemma follow_strip v path : strip <$> follow v path = data_at (strip <$> v) path.
Proof.
  revert v. induction path as [|s path IH]; intros v; [done|]. unfold follow, data_at. cbn [foldl].
  rewrite <- view_step_strip. apply IH.
Qed.

(** The number a datum is, and its type. *)
Definition data_integer (d : data) : option Z :=
  match d with
  | DInteger z => Some z
  | DFloat x => float_integer x
  | DBoolean b => Some (if b then 1 else 0)
  | _ => None
  end.

Definition native_data (d : data) : Prop :=
  match d with
  | DInteger z => int64_min ≤ z ≤ int64_max
  | DFloat x => TomlCompare.double x = true
  | _ => True
  end.

Definition data_type (d : data) : node_type :=
  match d with
  | DString _ => ty_string
  | DInteger _ => ty_integer
  | DFloat _ => ty_floating_point
  | DBoolean _ => ty_boolean
  | DDate _ => ty_date
  | DTime _ => ty_time
  | DDateTime _ => ty_date_time
  | DArray _ | DTables _ => ty_array
  | DTableAs _ _ => ty_table
  end.

Lemma strip_type n : data_type (strip n) = node_type_of n.
Proof. by destruct n. Qed.

Lemma strip_native n : native_data (strip n) ↔ native n.
Proof. by destruct n. Qed.

Lemma strip_integer n : data_integer (strip n) = integer_of n.
Proof. by destruct n. Qed.

(** What can be asked of the node at a place of a document is what the datum there
    determines. *)
Definition retrieves (v : node_view) (d : option data) : Prop :=
  view_type v = from_option data_type ty_none d ∧
  (∀ s, view_value (to_string std_string) v = Some (Some (r_string s)) ↔ d = Some (DString s)) ∧
  (∀ i r, (∀ e, d = Some e → native_data e) →
    view_value (to_integer i) v = Some (Some r) ↔
    ∃ e z, r = r_integer z ∧ d = Some e ∧ data_integer e = Some z ∧ int64_min ≤ z ≤ int64_max ∧ integer_min i ≤ z ≤ integer_max i) ∧
  (∀ t default_value, d = None → view_value_or t default_value v = Some default_value).

Lemma retrieves_strip v : retrieves v (strip <$> v).
Proof.
  split; [|split; [|split]].
  - destruct v as [n|]; [|done]. cbn. by rewrite strip_type.
  - intros s. destruct v as [n|]; [|done]. cbn [view_value fmap option_fmap option_map value type_of].
    destruct n; try done. cbn [node_type_of strip get_value_exact]. rewrite decide_True by done. cbn. naive_solver.
  - intros i r Hn. destruct v as [n|]; [|by split; [done|intros (? & ? & ? & ? & _)]].
    cbn [view_value fmap option_fmap option_map] in *.
    assert (native n) as Hnat by (apply strip_native; by apply Hn).
    destruct (integer_retrieves i n Hnat) as [_ H]. rewrite H. split.
    + intros (z & -> & Hz & Hr). exists (strip n), z. by rewrite strip_integer.
    + intros (e & z & -> & [= <-] & Hz & Hr). exists z. by rewrite <- strip_integer.
  - intros t d. by destruct v.
Qed.

(** C16: A program that goes down a parsed document with [operator[]] finds what the
    document says. For every text of the grammar and every path of keys and indices,
    the [node_view] at the end of the path, reached without undefined behaviour
    whatever the path, has the type of the datum that the document has there, and
    refers to nothing when there is none; asked for a string it gives exactly the
    string of the document, asked for an integer type exactly the number of the
    document, if the type has it, and asked with a default it gives the default
    when there is nothing. *)
Theorem document_retrieval d text M path :
  document_text d text → document_meaning d = Some M → Z.of_nat (length text) < 2 ^ 64 →
  ∃ m r s, parse_file (File (encode_text text)) path = Done (m, r) s ∧
    ∀ key steps, retrieves (follow (view (m, r) key) steps) (data_at (do_get (plain_map M) key) steps).
Proof.
  intros Ht HM Hlen. destruct (parse_file_document d text M path Ht HM Hlen) as (m & r & s & Hp & Hm).
  exists m, r, s. split; [done|]. intros key steps. rewrite <- Hm, do_get_strip, <- follow_strip. apply retrieves_strip.
Qed.

(** [config["board"][0]["on"][1].value<int>()] in the demonstration document *)
Lemma document_retrieval_witness : ∃ m r s,
  parse_file (File (encode_text demo_text)) (bs "c.toml") = Done (m, r) s ∧
  view_value (to_integer signed_int) (follow (view (m, r) (bs "board")) [at_index 0; at_key (bs "on"); at_index 1]) =
    Some (Some (r_integer (-7))).
Proof.
  destruct (document_retrieval demo_document demo_text
    [(bs "board", DTables [[(bs "on", DArray [DBoolean true; DInteger (-7)]); (bs "run", DTableAs KDotted [(bs "cmd", DString (bs "echo 'x'; exit"))])]])] (bs "c.toml") demo_document_text)
    as (m & r & s & Hp & H); [vm_compute; reflexivity..|].
  exists m, r, s. split; [exact Hp|]. apply (H (bs "board") [at_index 0; at_key (bs "on"); at_index 1]).
  - intros e He. vm_compute in He. injection He as <-. split; vm_compute; congruence.
  - exists (DInteger (-7)), (-7). repeat split; vm_compute; congruence.
Defined.
