(* ===== verification/TomlQuote.v ===== *)
(** * TomlQuote: strings and keys as the formatter writes them

    The formatter decodes a string to choose how to quote it and escapes it byte
    by byte. On valid UTF-8 the outcome is a string or a key of [TomlGrammar.v]. *)
From Stdlib Require Import SpecFloat.
From S2P Require Import Prelude Bytes Env TomlNode TomlWrite TomlUtf8 TomlReader TomlText TomlGrammar TomlFormat.

Local Open Scope Z_scope.

(** ** Text as bytes *)
Lemma encode_text_app a b : encode_text (a ++ b) = encode_text a ++ encode_text b.
Proof. unfold encode_text. by rewrite fmap_app, concat_app. Qed.

Lemma utf8_encode_ascii b : U b < 0x80 → utf8_encode (U b) = [b].
Proof.
  intros Hb. unfold utf8_encode. rewrite (proj2 (Z.ltb_lt _ _)) by done. cbn. f_equal.
  apply byte_to_Z_inj. unfold U. rewrite byte_to_of_Z, Z.mod_small; [done|]. apply byte_to_Z_range.
Qed.

Lemma encode_zs b : Forall (λ b, U b < 0x80) b → encode_text (zs b) = b.
Proof. induction 1 as [|x b Hx Hb IH]; [done|]. change (encode_text (U x :: zs b) = x :: b). by rewrite encode_text_cons, utf8_encode_ascii, IH. Qed.

(** The bytes of a character that is not ASCII. *)
Lemma utf8_encode_high c : 0x80 ≤ c → scalar c → Forall (λ b, 0x80 ≤ byte_to_Z b) (utf8_encode c).
Proof.
  intros Hc Hs. unfold scalar in Hs. unfold utf8_encode. rewrite (proj2 (Z.ltb_ge _ _)) by done.
  repeat case_match; apply Forall_fmap; repeat (apply List.Forall_cons || apply List.Forall_nil); cbn;
    rewrite byte_to_of_Z, Z.mod_small; Z.to_euclidean_division_equations; lia.
Qed.

(** ** Decoding

    What feeding the bytes of one character does to the decoder. *)
Inductive decodes : utf8_decoder.t → bytes → Z → utf8_decoder.t → Prop :=
| decodes_last d b :
    utf8_decoder.error (utf8_decoder.feed d b) = false → utf8_decoder.has_code_point (utf8_decoder.feed d b) = true →
    decodes d [b] (utf8_decoder.codepoint (utf8_decoder.feed d b)) (utf8_decoder.feed d b)
| decodes_more d b l c d' :
    utf8_decoder.error (utf8_decoder.feed d b) = false → utf8_decoder.has_code_point (utf8_decoder.feed d b) = false →
    decodes (utf8_decoder.feed d b) l c d' → decodes d (b :: l) c d'.

Lemma decode_loop_prefix r seq d l cp r' :
  decode_loop r seq d l = ReadChar cp r' → ∃ x, cp_bytes cp = seq ++ x ∧ x ≠ [].
Proof.
  revert seq d. induction l as [|b l IH]; intros seq d; cbn [decode_loop]; [by case_match|]. cbv zeta.
  case_match; [done|]. case_match; [intros [= <- _]; by exists [b]|]. intros (x & -> & _)%IH. exists (b :: x).
  by rewrite <- app_assoc.
Qed.

Lemma decode_loop_decodes r seq d l rest cp r' :
  decode_loop r seq d (l ++ rest) = ReadChar cp r' → cp_bytes cp = seq ++ l → l ≠ [] →
  decodes d l (value cp) (rd_decoder r').
Proof.
  revert seq d. induction l as [|b l IH]; intros seq d; [done|]. cbn [app decode_loop]. cbv zeta.
  destruct (utf8_decoder.error (utf8_decoder.feed d b)) eqn:He; [done|].
  destruct (utf8_decoder.has_code_point (utf8_decoder.feed d b)) eqn:Hc.
  - intros [= <- <-] Hb _. cbn in Hb. apply app_inv_head in Hb. injection Hb as <-. cbn. by constructor.
  - intros Hl Hb _. apply decodes_more; [done|done|]. destruct l as [|b' l].
    + destruct (decode_loop_prefix r (seq ++ [b]) (utf8_decoder.feed d b) rest cp r' Hl) as (x & Hx & Hne).
      rewrite Hb in Hx. rewrite <- (app_nil_r (seq ++ [b])) in Hx at 1. by apply app_inv_head in Hx as <-.
    + eapply IH; [exact Hl|by rewrite <- app_assoc|done].
Qed.

Lemma decodes_encode d c :
  scalar c → utf8_decoder.state d = 0 → ∃ d', decodes d (utf8_encode c) c d' ∧ utf8_decoder.state d' = 0.
Proof.
  intros Hc Hd. destruct (decode_complete (utf8_reader_new []) d c [] Hd Hc) as (d' & Hd' & Hl). exists d'. split; [|done].
  apply decode_loop_decodes in Hl; [exact Hl|done|]. destruct (utf8_encode_cons c) as (b & x & ->). done.
Qed.

Lemma look_at_found str d k : all_found k = true → look_at str d k = k.
Proof. intros Hk. destruct str; cbn [look_at]; by rewrite ?Hk. Qed.

Lemma see_char_found k c : all_found k = true → see_char k c = k.
Proof.
  destruct k as [[] [] []]; unfold all_found, see_char; cbn; try done. intros _. by repeat case_match.
Qed.

Lemma look_at_char d l c d' str k : decodes d l c d' → look_at (l ++ str) d k = look_at str d' (see_char k c).
Proof.
  intros Hl. destruct (all_found k) eqn:Hk; [by rewrite see_char_found, !look_at_found|].
  induction Hl as [d b He Hc|d b l c d' He Hc _ IH]; cbn [app look_at]; rewrite Hk; cbv zeta; by rewrite He, Hc.
Qed.

Lemma look_at_text cs d k :
  Forall scalar cs → utf8_decoder.state d = 0 → look_at (encode_text cs) d k = foldl see_char k cs.
Proof.
  intros Hcs. revert d k. induction Hcs as [|c cs Hc Hcs IH]; intros d k Hd; [done|].
  destruct (decodes_encode d c Hc Hd) as (d' & Hl & Hd'). rewrite encode_text_cons, (look_at_char _ _ _ _ _ _ Hl). by apply IH.
Qed.

Lemma requires_quotes_char d l c d' str :
  decodes d l c d' → requires_quotes (l ++ str) d = negb (is_bare_key_character c) || requires_quotes str d'.
Proof.
  induction 1 as [d b He Hc|d b l c d' He Hc _ IH]; cbn [app requires_quotes]; cbv zeta; rewrite He, Hc; cbn [andb];
    [|done]. by destruct (is_bare_key_character _).
Qed.

Lemma requires_quotes_text cs d :
  Forall scalar cs → utf8_decoder.state d = 0 →
  requires_quotes (encode_text cs) d = negb (forallb is_bare_key_character cs).
Proof.
  intros Hcs. revert d. induction Hcs as [|c cs Hc Hcs IH]; intros d Hd; [done|].
  destruct (decodes_encode d c Hc Hd) as (d' & Hl & Hd'). rewrite encode_text_cons, (requires_quotes_char _ _ _ _ _ Hl).
  rewrite (IH d' Hd'). cbn [forallb]. by destruct (is_bare_key_character c).
Qed.

(** ** Escapes *)
Lemma escape_high b : 0x80 ≤ byte_to_Z b → escape b = [b].
Proof.
  intros Hb. unfold escape. rewrite (proj2 (Z.leb_gt _ _)) by lia.
  rewrite !decide_False; [done|..]; intros ->; vm_compute in Hb; by destruct Hb.
Qed.

Lemma with_escapes_ascii c : 0 ≤ c < 0x80 → with_escapes (utf8_encode c) = encode_text (escape_char c).
Proof.
  intros Hc. assert (forallb (λ n, bool_decide (with_escapes (utf8_encode (Z.of_nat n)) = encode_text (escape_char (Z.of_nat n))))
    (seq 0 128) = true) as Hall by (vm_compute; reflexivity).
  rewrite forallb_forall in Hall. specialize (Hall (Z.to_nat c)). rewrite Z2Nat.id in Hall by lia.
  apply (bool_decide_eq_true_1 _), Hall, in_seq. lia.
Qed.

Lemma with_escapes_char c : scalar c → with_escapes (utf8_encode c) = encode_text (escape_char c).
Proof.
  intros Hs. destruct (Z.lt_ge_cases c 0x80) as [Hc|Hc].
  { apply with_escapes_ascii. unfold scalar in Hs. lia. }
  assert (escape_char c = [c]) as ->.
  { unfold escape_char, is_control_character. change (U x22) with 34. change (U x5c) with 92.
    repeat match goal with |- context [c =? ?z] => rewrite (proj2 (Z.eqb_neq c z)) by lia end.
    by rewrite (proj2 (Z.leb_gt _ _)) by lia. }
  unfold encode_text. cbn [fmap list_fmap concat]. rewrite app_nil_r. unfold with_escapes.
  pose proof (utf8_encode_high c Hc Hs) as Hb. induction Hb as [|b l Hb Hl IH]; [done|].
  cbn [fmap list_fmap concat]. by rewrite escape_high, IH.
Qed.

Lemma with_escapes_text cs : Forall scalar cs → with_escapes (encode_text cs) = encode_text (escape_text cs).
Proof.
  induction 1 as [|c cs Hc Hcs IH]; [done|]. unfold escape_text. cbn [fmap list_fmap concat].
  rewrite encode_text_cons, encode_text_app. fold (escape_text cs). rewrite <- IH, <- with_escapes_char by done.
  unfold with_escapes. by rewrite fmap_app, concat_app.
Qed.

Lemma escape_segments str : backslash ∉ str → concat (escape_segment <$> str) = with_escapes str.
Proof.
  unfold with_escapes. induction str as [|b str IH]; [done|]. rewrite not_elem_of_cons. intros [Hb Hstr].
  cbn [fmap list_fmap concat]. rewrite IH by done. f_equal. unfold escape_segment, escape.
  do 3 (case_match; [done|]). by rewrite decide_False.
Qed.
