(* ===== verification/TomlFigures.v ===== *)
(** * TomlFigures: the texts of numbers, dates and times

    What the functions of [TomlWrite] write for integers with a base, for dates and
    times and for infinities and NaNs is a text of the grammar. *)
From Stdlib Require Import SpecFloat.
From S2P Require Import Prelude Bytes Env TomlNode TomlWrite TomlUtf8 TomlFormat TomlReader TomlParser TomlScalar TomlExact TomlText TomlGrammar TomlNumbers TomlTimes TomlFloats TomlCompare TomlQuote.

Local Open Scope Z_scope.

(** ** Digits of a fixed number *)
Fixpoint pad_digits (n : nat) (v : Z) : list Z :=
  match n with O => [] | S n => pad_digits n (v / 10) ++ [v mod 10] end.

Lemma pad_digits_zero n : pad_digits n 0 = replicate n 0.
Proof. induction n as [|n IH]; [done|]. cbn [pad_digits]. change (0 / 10) with 0. rewrite IH. change (0 mod 10) with 0. by rewrite <- replicate_cons_app. Qed.

Lemma pad_digits_length n v : length (pad_digits n v) = n.
Proof. revert v. induction n as [|n IH]; intros v; [done|]. cbn [pad_digits]. rewrite length_app, IH. cbn. lia. Qed.

Lemma pad_digits_range n v : 0 ≤ v → Forall (λ d, 0 ≤ d < 10) (pad_digits n v).
Proof.
  revert v. induction n as [|n IH]; intros v Hv; [constructor|]. cbn [pad_digits]. apply Forall_app. split; [apply IH|repeat constructor];
    Z.to_euclidean_division_equations; lia.
Qed.

Lemma pad_digits_number n v : 0 ≤ v < 10 ^ Z.of_nat n → number 10 (pad_digits n v) = v.
Proof.
  revert v. induction n as [|n IH]; intros v Hv; [cbn in *; lia|]. cbn [pad_digits]. unfold number in *. rewrite foldl_app. cbn [foldl].
  rewrite Nat2Z.inj_succ, Z.pow_succ_r in Hv by lia. rewrite IH; Z.to_euclidean_division_equations; lia.
Qed.

Lemma to_digits_pad fuel n v :
  (0 < n ≤ fuel)%nat → 0 ≤ v < 10 ^ Z.of_nat n →
  (length (to_digits fuel 10 v) ≤ n)%nat ∧ replicate (n - length (to_digits fuel 10 v)) 0 ++ to_digits fuel 10 v = pad_digits n v.
Proof.
  revert n v. induction fuel as [|fuel IH]; intros [|n] v Hn Hv; try lia. cbn [to_digits pad_digits].
  rewrite Nat2Z.inj_succ, Z.pow_succ_r in Hv by lia. destruct (Z.ltb_spec v 10) as [Hlt|Hge].
  - split; [cbn; lia|]. rewrite (Z.div_small v 10), pad_digits_zero, Z.mod_small by lia. cbn. by rewrite Nat.sub_0_r.
  - destruct n as [|n]; [cbn in Hv; lia|]. destruct (IH (S n) (v / 10)) as [H1 H2]; [lia|Z.to_euclidean_division_equations; lia|].
    rewrite length_app. cbn [length]. split; [lia|]. rewrite app_assoc. f_equal. rewrite <- H2. f_equal. f_equal. lia.
Qed.

Lemma digit_byte_text ds : Forall (λ d, 0 ≤ d < 10) ds → char_of_digit <$> ds = encode_text (digit_chars ds).
Proof.
  induction 1 as [|d ds Hd _ IH]; [done|]. change (digit_chars (d :: ds)) with ((U "0" + d) :: digit_chars ds). rewrite encode_text_cons, <- IH.
  cbn [fmap list_fmap]. unfold char_of_digit at 1. rewrite (proj2 (Z.ltb_lt d 10)) by lia. unfold utf8_encode. change (U "0") with 48.
  by rewrite (proj2 (Z.ltb_lt (48 + d) _)) by lia.
Qed.

Lemma print_padded_text v n :
  (0 < n ≤ 64)%nat → 0 ≤ v < 10 ^ Z.of_nat n → print_padded v n = encode_text (digit_chars (pad_digits n v)).
Proof.
  intros Hn Hv. unfold print_padded, to_chars. rewrite (proj2 (Z.ltb_ge v 0)) by lia. rewrite Z.abs_eq by lia. cbn [app].
  rewrite length_fmap. destruct (to_digits_pad 64 n v Hn Hv) as [_ <-]. rewrite <- digit_byte_text; [by rewrite fmap_app, fmap_replicate|].
  destruct (to_digits_pad 64 n v Hn Hv) as [_ ->]. apply pad_digits_range. lia.
Qed.

Lemma print_two v : 0 ≤ v < 100 → print_padded v 2 = encode_text (two v).
Proof.
  intros Hv. rewrite print_padded_text by (cbn; lia). unfold two. do 2 f_equal. cbn [pad_digits app].
  rewrite (Z.mod_small (v / 10)) by (Z.to_euclidean_division_equations; lia). done.
Qed.

Lemma print_four v : 0 ≤ v ≤ 9999 → print_padded v 4 = encode_text (four v).
Proof.
  intros Hv. rewrite print_padded_text by (cbn; lia). unfold four. do 2 f_equal. cbn [pad_digits app]. rewrite !Z.div_div by lia.
  change (10 * 10 * 10) with 1000. change (10 * 10) with 100. rewrite (Z.mod_small (v / 1000)) by (Z.to_euclidean_division_equations; lia). done.
Qed.

(** ** Dates and times *)
Lemma print_date_text d : calendar_date d → print_date d = encode_text (date_text d).
Proof.
  intros (Hy & Hm & Hd). rewrite <- max_days_exact in Hd by done.
  assert (max_days_in_month (d_year d) (d_month d) ≤ 31) by (unfold max_days_in_month; repeat case_match; lia).
  unfold print_date, date_text. rewrite print_four, !print_two by lia. by rewrite !encode_text_app.
Qed.

Lemma strip_fraction_spec n ns :
  0 < ns < 10 ^ Z.of_nat n → let '(v, k) := strip_fraction n ns in
  (1 ≤ k ≤ n)%nat ∧ 0 ≤ v < 10 ^ Z.of_nat k ∧ v * 10 ^ Z.of_nat (n - k) = ns.
Proof.
  revert ns. induction n as [|n IH]; intros ns Hns; [cbn in Hns; lia|]. cbn [strip_fraction].
  destruct (Z.eqb_spec (ns mod 10) 0) as [Hz|Hz].
  - rewrite Nat2Z.inj_succ, Z.pow_succ_r in Hns by lia. specialize (IH (ns / 10)).
    destruct (strip_fraction n (ns / 10)) as [v k]. destruct IH as (Hk & Hv & He); [Z.to_euclidean_division_equations; lia|].
    split; [lia|]. split; [done|]. replace (S n - k)%nat with (S (n - k)) by lia. rewrite Nat2Z.inj_succ, Z.pow_succ_r by lia.
    Z.to_euclidean_division_equations. nia.
  - split; [lia|]. split; [lia|]. rewrite Nat.sub_diag, Z.pow_0_r. lia.
Qed.

Lemma print_time_text t : clock_time t → 0 ≤ t_nanosecond t < 10 ^ 9 → ∃ tt, print_time t = encode_text tt ∧ time_text t tt.
Proof.
  intros (Hh & Hm & Hs) Hns.
  assert (∃ f, (if negb (t_nanosecond t =? 0) && (t_nanosecond t <=? 999999999) then
     let '(ns, digits) := strip_fraction 9 (t_nanosecond t) in bs "." ++ print_padded ns digits else []) = encode_text f ∧
     fraction_text (t_nanosecond t) f) as (f & Hf & Hft).
  { rewrite (proj2 (Z.leb_le _ _)) by lia. destruct (Z.eqb_spec (t_nanosecond t) 0) as [->|Hz]; [exists []; split; [done|constructor]|].
    cbn [negb andb]. pose proof (strip_fraction_spec 9 (t_nanosecond t)) as Hsp. destruct (strip_fraction 9 (t_nanosecond t)) as [v k].
    destruct Hsp as (Hk & Hv & He); [change (10 ^ Z.of_nat 9) with (10 ^ 9); lia|]. exists ([U "."] ++ digit_chars (pad_digits k v)).
    rewrite print_padded_text by lia. split; [by rewrite encode_text_app|].
    pose proof (some_fraction (pad_digits k v)) as Hsf. rewrite pad_digits_length, pad_digits_number, He in Hsf by done. apply Hsf; [|lia].
    apply pad_digits_range. lia. }
  exists (two (t_hour t) ++ [U ":"] ++ two (t_minute t) ++ [U ":"] ++ two (t_second t) ++ f). split; [|by constructor].
  unfold print_time. rewrite Hf, !print_two by lia. by rewrite !encode_text_app.
Qed.

Lemma print_offset_text o : from_option (λ o, Z.abs o < 24 * 60) True o → ∃ ot, from_option print_time_offset [] o = encode_text ot ∧ offset_text o ot.
Proof.
  destruct o as [o|]; cbn [from_option]; [|exists []; split; [done|constructor]]. intros Ho. unfold print_time_offset.
  destruct (Z.eqb_spec o 0) as [->|Hz]; [exists [U "Z"]; split; [done|constructor]|]. cbv zeta.
  set (h := Z.abs o / 60). assert (0 ≤ h < 24 ∧ 0 ≤ Z.abs o - h * 60 < 60) as [Hh Hm] by (unfold h; Z.to_euclidean_division_equations; lia).
  pose proof (with_offset (o <? 0) h (Z.abs o - h * 60) Hh Hm) as Ht. eexists. split; [|replace o with (if o <? 0 then - (h * 60 + (Z.abs o - h * 60)) else h * 60 + (Z.abs o - h * 60)) at 1; [exact Ht|]].
  - replace (if h =? 0 then bs "00" else print_padded h 2) with (print_padded h 2).
    2: { destruct (Z.eqb_spec h 0) as [->|]; [reflexivity|done]. }
    rewrite !print_two by lia. rewrite !encode_text_app. by destruct (o <? 0).
  - destruct (Z.ltb_spec o 0); lia.
Qed.

Lemma print_date_time_text dt :
  calendar_date (dt_date dt) → clock_time (dt_time dt) → 0 ≤ t_nanosecond (dt_time dt) < 10 ^ 9 →
  from_option (λ o, Z.abs o < 24 * 60) True (dt_offset dt) →
  ∃ t, print_date_time dt = encode_text t ∧ value_text (DDateTime dt) t.
Proof.
  intros Hd Ht Hns Ho. destruct (print_time_text _ Ht Hns) as (tt & Htt & Htt'), (print_offset_text _ Ho) as (ot & Hot & Hot').
  eexists. split; [|by apply text_date_time]. unfold print_date_time. rewrite Hot, Htt, print_date_text by done. by rewrite !encode_text_app.
Qed.

(** ** Integers with a base *)
Lemma to_digits_base fuel base n z :
  2 ≤ base → (0 < n ≤ fuel)%nat → 0 ≤ z < base ^ Z.of_nat n →
  number base (to_digits fuel base z) = z ∧ Forall (λ d, 0 ≤ d < base) (to_digits fuel base z) ∧
  (1 ≤ length (to_digits fuel base z) ≤ n)%nat.
Proof.
  intros Hb. revert n z. induction fuel as [|fuel IH]; intros [|n] z Hn Hz; try lia. cbn [to_digits].
  destruct (Z.ltb_spec z base) as [Hlt|Hge].
  { split; [unfold number; cbn; lia|]. split; [by repeat constructor; lia|]. cbn. lia. }
  rewrite Nat2Z.inj_succ, Z.pow_succ_r in Hz by lia. destruct n as [|n]; [cbn in Hz; lia|].
  pose proof (Z.div_mod z base ltac:(lia)) as Hdm. pose proof (Z.mod_pos_bound z base ltac:(lia)) as Hmb.
  destruct (IH (S n) (z / base)) as (H1 & H2 & H3); [lia|split; [apply Z.div_pos; lia|apply Z.div_lt_upper_bound; lia]|].
  split; [|split].
  - unfold number in *. rewrite foldl_app, H1. cbn. lia.
  - apply Forall_app. split; [done|]. by repeat constructor; lia.
  - rewrite length_app. cbn [length]. lia.
Qed.

(** The prefix, the base and the most digits of a format. *)
Definition format_entry (fmt : value_flags) : byte * Z * nat :=
  match fmt with
  | no_flags | format_as_binary => ("b"%byte, 2, 63%nat)
  | format_as_octal => ("o"%byte, 8, 21%nat)
  | format_as_hexadecimal => ("x"%byte, 16, 16%nat)
  end.

Definition digit_char_of (base d : Z) : byte := if base =? 16 then to_upper (char_of_digit d) else char_of_digit d.

Lemma digit_char_of_spec base d : base ∈ [2; 8; 16] → 0 ≤ d < base → digit_of (digit_char_of base d) = Some d.
Proof.
  intros Hb Hd.
  assert (forallb (λ base, forallb (λ d, bool_decide (digit_of (digit_char_of base (Z.of_nat d)) = Some (Z.of_nat d))) (seq 0 (Z.to_nat base))) [2; 8; 16] = true)
    as Hall by (vm_compute; reflexivity).
  rewrite forallb_forall in Hall. specialize (Hall base (proj1 (list_elem_of_In _ _) Hb)). rewrite forallb_forall in Hall.
  specialize (Hall (Z.to_nat d)). rewrite Z2Nat.id, bool_decide_eq_true in Hall by lia. apply Hall. apply in_seq. lia.
Qed.

Lemma print_prefixed_text z fmt :
  0 ≤ z < 2 ^ 63 → fmt ≠ no_flags →
  ∃ t, flags_prefix fmt ++ print_integer_to_stream z fmt = encode_text t ∧ prefixed_text z t.
Proof.
  intros Hz Hf. set (base := (format_entry fmt).1.2).
  assert (base ∈ [2; 8; 16] ∧ 2 ≤ base ∧ flags_base fmt = base ∧ (format_entry fmt) ∈ prefixes ∧ z < base ^ Z.of_nat (format_entry fmt).2 ∧
    (0 < (format_entry fmt).2 ≤ 64)%nat) as (Hin & Hb & Hfb & Hp & Hlim & Hn).
  { unfold prefixes. destruct fmt; [done|..]; cbn; (split_and!; [set_solver|lia|done|set_solver|lia|lia|lia]). }
  destruct (to_digits_base 64 base _ z Hb Hn) as (H1 & H2 & H3); [lia|].
  set (chars := digit_char_of base <$> to_digits 64 base z).
  assert (print_integer_to_stream z fmt = chars) as Hprint.
  { unfold print_integer_to_stream. rewrite (proj2 (Z.leb_le 0 z)) by lia. cbv iota zeta. rewrite Hfb. destruct (Z.eqb_spec z 0) as [->|Hz0].
    - unfold chars. clear -Hin. rewrite !elem_of_cons, elem_of_nil in Hin. destruct Hin as [->|[->|[->|[]]]]; reflexivity.
    - unfold to_chars. rewrite (proj2 (Z.ltb_ge z 0)), Z.abs_eq by lia. cbn [app]. unfold chars, digit_char_of.
      destruct (base =? 16); [by rewrite <- list_fmap_compose|done]. }
  assert (Forall (λ b, U b < 0x80) chars) as Hascii.
  { unfold chars. apply Forall_fmap. eapply Forall_impl; [exact H2|]. intros d Hd. cbn. pose proof (digit_char_of_spec _ _ Hin Hd) as Hdo.
    unfold digit_of in Hdo. revert Hdo. generalize (U (digit_char_of base d)). intros c. change (U "9") with 57. change (U "f") with 102. change (U "F") with 70.
    repeat case_match; intros; try done; lia. }
  exists ([U "0"; U (format_entry fmt).1.1] ++ zs chars). split.
  - rewrite Hprint, encode_text_app, encode_zs by done. f_equal. by destruct fmt.
  - rewrite <- H1. apply (prefixed _ base (format_entry fmt).2 chars).
    + unfold base. by destruct (format_entry fmt) as [[? ?] ?].
    + apply mapM_Some. unfold chars. clear -H2 Hin. induction H2 as [|d ds Hd _ IH]; constructor; [by apply digit_char_of_spec|done].
    + eapply Forall_impl; [exact H2|]. intros d Hd. cbn in *. lia.
    + apply separated_plain. unfold chars. destruct (to_digits 64 base z); [cbn in H3; lia|done].
    + unfold chars. rewrite length_fmap. lia.
    + unfold zs. rewrite length_fmap. unfold chars. rewrite length_fmap.
      assert ((format_entry fmt).2 ≤ 63)%nat by (destruct fmt; cbn; lia). lia.
    + rewrite H1. lia.
Qed.

(** ** Infinities and NaNs *)
Lemma print_word_text x :
  (match x with S754_infinity _ | S754_nan => True | _ => False end) →
  ∃ t, print_floating_point_to_stream x = encode_text t ∧ value_text (DFloat x) t.
Proof.
  destruct x as [|s| |]; try done; intros _.
  - destruct s; [exists ([U "-"] ++ zs (bs "inf"))|exists ([] ++ zs (bs "inf"))]; (split; [reflexivity|]); apply text_infinity; constructor.
  - exists ([] ++ zs (bs "nan")). split; [reflexivity|]. by apply (text_nan false); constructor.
Qed.

(** ** Floats *)

(** Powers of two and of ten, on the scale of doubles. *)
Definition two_le_ten (a b : Z) : bool := 2 ^ Z.max a 0 * 10 ^ Z.max (- b) 0 <=? 10 ^ Z.max b 0 * 2 ^ Z.max (- a) 0.
Definition ten_le_two (b a : Z) : bool := 10 ^ Z.max b 0 * 2 ^ Z.max (- a) 0 <=? 2 ^ Z.max a 0 * 10 ^ Z.max (- b) 0.

(** The estimate of the decimal exponent is at most one too small or too big. *)
Lemma exponent_estimate k :
  -1074 ≤ k ≤ 1023 → two_le_ten (k + 1) (k * 30103 / 100000 + 2) = true ∧ ten_le_two (k * 30103 / 100000 - 1) k = true.
Proof.
  intros Hk.
  assert (forallb (λ n, let k := Z.of_nat n - 1074 in two_le_ten (k + 1) (k * 30103 / 100000 + 2) && ten_le_two (k * 30103 / 100000 - 1) k) (seq 0 2098) = true)
    as Hall by (vm_compute; reflexivity).
  rewrite forallb_forall in Hall. specialize (Hall (Z.to_nat (k + 1074))).
  rewrite in_seq in Hall. specialize (Hall ltac:(lia)). cbv zeta beta in Hall.
  replace (Z.of_nat (Z.to_nat (k + 1074)) - 1074) with k in Hall by lia. by apply andb_true_iff in Hall.
Qed.

Lemma round_div_bounds a b lo hi : 0 < b → lo * b ≤ a → a < hi * b → lo ≤ round_div a b ≤ hi.
Proof.
  intros Hb Hlo Hhi. assert (lo ≤ a / b) by (apply Z.div_le_lower_bound; lia). assert (a / b < hi) by (apply Z.div_lt_upper_bound; lia).
  unfold round_div. repeat case_match; lia.
Qed.

Section percent_g.
Context (m : positive) (e : Z).
Let N : Z := if 0 <=? e then Z.pos m * 2 ^ e else Z.pos m.
Let D : Z := if 0 <=? e then 1 else 2 ^ (- e).

Lemma ND_pos : 0 < N ∧ 0 < D.
Proof using. unfold N, D. destruct (Z.leb_spec 0 e); split; try lia; try (apply Z.mul_pos_pos; [lia|]); apply Z.pow_pos_nonneg; lia. Qed.

Lemma pow10_le_uniform b : pow10_le m e b = (10 ^ Z.max b 0 * D <=? N * 10 ^ Z.max (- b) 0).
Proof using.
  unfold pow10_le. fold N D. destruct (Z.leb_spec 0 b).
  - by rewrite (Z.max_l b), (Z.max_r (- b)), Z.pow_0_r, Z.mul_1_r by lia.
  - by rewrite (Z.max_r b), (Z.max_l (- b)), Z.pow_0_r, Z.mul_1_l by lia.
Qed.

Let k : Z := Z.log2 (Z.pos m) + e.

Lemma log2_bounds : 2 ^ Z.max k 0 * D ≤ N * 2 ^ Z.max (- k) 0 ∧ N * 2 ^ Z.max (- (k + 1)) 0 < 2 ^ Z.max (k + 1) 0 * D.
Proof using.
  pose proof (Z.log2_spec (Z.pos m) ltac:(lia)) as [Hlo Hhi]. pose proof (Z.log2_nonneg (Z.pos m)) as Hl. unfold k, N, D.
  set (l := Z.log2 (Z.pos m)) in *. clearbody l. rewrite <- Z.add_1_r in Hhi. destruct (Z.leb_spec 0 e) as [He|He].
  - rewrite (Z.max_l (l + e)), (Z.max_r (- (l + e))), (Z.max_r (- (l + e + 1))), (Z.max_l (l + e + 1)), !Z.pow_0_r, !Z.mul_1_r by lia.
    replace (l + e + 1) with (l + 1 + e) by lia. rewrite !Z.pow_add_r by lia. assert (0 < 2 ^ e) by (apply Z.pow_pos_nonneg; lia). rewrite Z.pow_add_r in Hhi by lia. nia.
  - split.
    + destruct (Z.le_gt_cases 0 (l + e)) as [Hk|Hk].
      * rewrite Z.max_l, Z.max_r, Z.pow_0_r, Z.mul_1_r, <- Z.pow_add_r by lia. by replace (l + e + - e) with l by lia.
      * rewrite Z.max_r, Z.max_l, Z.pow_0_r, Z.mul_1_l by lia. replace (- e) with (l + (- (l + e))) by lia. rewrite Z.pow_add_r by lia.
        assert (0 < 2 ^ (- (l + e))) by (apply Z.pow_pos_nonneg; lia). nia.
    + destruct (Z.le_gt_cases 0 (l + e + 1)) as [Hk|Hk].
      * rewrite (Z.max_r (- _)), (Z.max_l (l + e + 1)), Z.pow_0_r, Z.mul_1_r, <- Z.pow_add_r by lia. by replace (l + e + 1 + - e) with (l + 1) by lia.
      * rewrite (Z.max_l (- _)), (Z.max_r (l + e + 1)), Z.pow_0_r, Z.mul_1_l by lia. replace (- e) with (l + 1 + (- (l + e + 1))) by lia. rewrite Z.pow_add_r by lia.
        assert (0 < 2 ^ (- (l + e + 1))) by (apply Z.pow_pos_nonneg; lia). nia.
Qed.

Hypothesis Hk : -1074 ≤ k ≤ 1023.

Lemma exponent10_exact : pow10_le m e (exponent10 m e) = true ∧ pow10_le m e (exponent10 m e + 1) = false ∧ -330 ≤ exponent10 m e ≤ 330.
Proof using Hk.
  destruct (exponent_estimate k Hk) as [Hup Hlo]. destruct log2_bounds as [Hb1 Hb2], ND_pos as [HN HD].
  unfold exponent10. fold k. set (x := k * 30103 / 100000) in *. assert (-330 < x < 329) as Hx by (unfold x; Z.to_euclidean_division_equations; lia). clearbody x.
  assert (pow10_le m e (x - 1) = true) as H1.
  { rewrite pow10_le_uniform. apply Z.leb_le. unfold ten_le_two in Hlo. apply Z.leb_le in Hlo.
    assert (0 < 2 ^ Z.max (- k) 0) by (apply Z.pow_pos_nonneg; lia). assert (0 < 10 ^ Z.max (- (x - 1)) 0) by (apply Z.pow_pos_nonneg; lia).
    clear Hb2 Hup. revert Hb1 Hlo. generalize dependent (2 ^ Z.max (- k) 0). generalize dependent (10 ^ Z.max (- (x - 1)) 0).
    generalize (2 ^ Z.max k 0) (10 ^ Z.max (x - 1) 0). intros P T T' HT' P' HP' Hb1 Hlo. apply (Z.mul_le_mono_pos_r _ _ P'); [done|]. nia. }
  assert (pow10_le m e (x + 2) = false) as H2.
  { rewrite pow10_le_uniform. apply Z.leb_gt. unfold two_le_ten in Hup. apply Z.leb_le in Hup.
    assert (0 < 2 ^ Z.max (- (k + 1)) 0) by (apply Z.pow_pos_nonneg; lia). assert (0 < 10 ^ Z.max (- (x + 2)) 0) by (apply Z.pow_pos_nonneg; lia).
    clear Hb1 Hlo. revert Hb2 Hup. generalize dependent (2 ^ Z.max (- (k + 1)) 0). generalize dependent (10 ^ Z.max (- (x + 2)) 0).
    generalize (2 ^ Z.max (k + 1) 0) (10 ^ Z.max (x + 2) 0). intros P T T' HT' P' HP' Hb2 Hup. apply (Z.mul_lt_mono_pos_r P'); [done|]. nia. }
  destruct (pow10_le m e (x + 1)) eqn:H3.
  - replace (x + 1 + 1) with (x + 2) by lia. split; [done|]. split; [done|lia].
  - destruct (pow10_le m e x) eqn:H4; [split; [done|split; [done|lia]]|]. replace (x - 1 + 1) with x by lia. split; [done|]. split; [done|lia].
Qed.

Lemma significand_exact : let '(q, x) := significand m e in 10 ^ 15 ≤ q < 10 ^ 16 ∧ -331 ≤ x ≤ 331.
Proof using Hk.
  destruct exponent10_exact as (Hlo & Hhi & Hx). destruct ND_pos as [HN HD]. unfold significand. fold N D.
  set (x := exponent10 m e) in *. clearbody x. rewrite pow10_le_uniform in Hlo, Hhi. apply Z.leb_le in Hlo. apply Z.leb_gt in Hhi.
  assert (∀ q, 10 ^ 15 ≤ q ≤ 10 ^ 16 → let '(q, y) := if q =? 10 ^ 16 then (10 ^ 15, x + 1) else (q, x) in 10 ^ 15 ≤ q < 10 ^ 16 ∧ -331 ≤ y ≤ 331) as Hq.
  { intros q Hq. destruct (Z.eqb_spec q (10 ^ 16)); split; lia. }
  apply Hq. clear Hq. destruct (Z.leb_spec 0 (15 - x)) as [Hs|Hs].
  - apply round_div_bounds; [done| |].
    + replace (10 ^ 15) with (10 ^ Z.max x 0 * 10 ^ (15 - Z.max x 0)) by (rewrite <- Z.pow_add_r by lia; f_equal; lia).
      replace (15 - x) with (Z.max (- x) 0 + (15 - Z.max x 0)) by lia. rewrite Z.pow_add_r by lia.
      assert (0 < 10 ^ (15 - Z.max x 0)) by (apply Z.pow_pos_nonneg; lia). nia.
    + assert (10 ^ Z.max (x + 1) 0 * 10 ^ (16 - Z.max (x + 1) 0) = 10 ^ 16) as <- by (rewrite <- Z.pow_add_r by lia; f_equal; lia).
      assert (10 ^ (15 - x) = 10 ^ Z.max (- (x + 1)) 0 * 10 ^ (16 - Z.max (x + 1) 0)) as -> by (rewrite <- Z.pow_add_r by lia; f_equal; lia).
      assert (0 < 10 ^ (16 - Z.max (x + 1) 0)) by (apply Z.pow_pos_nonneg; lia). nia.
  - rewrite (Z.max_l x), (Z.max_r (- x)), Z.pow_0_r, Z.mul_1_r in Hlo by lia.
    rewrite (Z.max_l (x + 1)), (Z.max_r (- (x + 1))), Z.pow_0_r, Z.mul_1_r in Hhi by lia.
    assert (0 < 10 ^ (- (15 - x))) by (apply Z.pow_pos_nonneg; lia). apply round_div_bounds; [by apply Z.mul_pos_pos| |].
    + replace x with (15 + - (15 - x)) in Hlo by lia. rewrite Z.pow_add_r in Hlo by lia. lia.
    + replace (x + 1) with (16 + - (15 - x)) in Hhi by lia. rewrite Z.pow_add_r in Hhi by lia. lia.
Qed.
End percent_g.

(** *** The text of a float *)
Fixpoint drop_zero_digits (l : list Z) : list Z :=
  match l with
  | [] => []
  | d :: l => match drop_zero_digits l with [] => if decide (d = 0) then [] else [d] | l' => d :: l' end
  end.

Lemma drop_trailing_zeros_digits ds :
  Forall (λ d, 0 ≤ d < 10) ds → drop_trailing_zeros (digit_bytes ds) = digit_bytes (drop_zero_digits ds).
Proof.
  induction 1 as [|d ds Hd _ IH]; [done|]. change (digit_bytes (d :: ds)) with (char_of_digit d :: digit_bytes ds). cbn [drop_trailing_zeros drop_zero_digits].
  rewrite IH. destruct (drop_zero_digits ds) as [|d' l]; [|done]. cbn [digit_bytes fmap list_fmap]. destruct (decide (d = 0)) as [->|Hn].
  - by rewrite decide_True.
  - rewrite decide_False; [done|]. intros He. by apply digit_byte_zero in He.
Qed.

Lemma drop_zero_digits_spec ds :
  Forall (λ d, 0 ≤ d < 10) ds → Forall (λ d, 0 ≤ d < 10) (drop_zero_digits ds) ∧ (length (drop_zero_digits ds) ≤ length ds)%nat.
Proof.
  induction 1 as [|d ds Hd _ [IH1 IH2]]; [by split|]. cbn [drop_zero_digits]. destruct (drop_zero_digits ds) as [|d' l].
  - case_decide; [split; [constructor|cbn; lia]|]. split; [constructor; [done|constructor]|cbn; lia].
  - split; [by constructor|cbn in *; lia].
Qed.

Lemma drop_zero_digits_nonzero ds d : d ∈ ds → d ≠ 0 → drop_zero_digits ds ≠ [].
Proof.
  induction ds as [|d' ds IH]; [by intros ?%elem_of_nil|]. intros [->|Hin]%elem_of_cons Hd; cbn [drop_zero_digits].
  - destruct (drop_zero_digits ds); [by rewrite decide_False|done].
  - specialize (IH Hin Hd). by destruct (drop_zero_digits ds).
Qed.

Lemma pointed_digits ws fs :
  Forall (λ d, 0 ≤ d < 10) fs → pointed (digit_bytes ws) (digit_bytes fs) = digit_bytes ws ++ fraction_bytes (drop_zero_digits fs).
Proof. intros Hf. unfold pointed. rewrite drop_trailing_zeros_digits by done. by destruct (drop_zero_digits fs). Qed.

(** The significand is sixteen digits, the first of them not a zero. *)
Lemma to_chars_digits q :
  10 ^ 15 ≤ q < 10 ^ 16 → ∃ d ds, to_chars 10 q = digit_bytes (d :: ds) ∧ length ds = 15%nat ∧ Forall (λ d, 0 ≤ d < 10) (d :: ds) ∧ d ≠ 0.
Proof.
  intros Hq. destruct (to_digits_pad 64 16 q) as [Hl Hp]; [lia|lia|]. destruct (to_digits_base 64 10 16 q) as (Hn & Hr & _); [lia|lia|lia|].
  assert (length (to_digits 64 10 q) = 16)%nat as H16.
  { pose proof (number_bound _ Hr) as Hb. rewrite Hn in Hb. destruct (Nat.le_gt_cases 16 (length (to_digits 64 10 q))); [lia|].
    assert (10 ^ Z.of_nat (length (to_digits 64 10 q)) ≤ 10 ^ 15) by (apply Z.pow_le_mono_r; lia). lia. }
  unfold to_chars. rewrite (proj2 (Z.ltb_ge q 0)), Z.abs_eq by lia. cbn [app]. destruct (to_digits 64 10 q) as [|d ds]; [done|]. exists d, ds.
  split; [done|]. split; [cbn in H16; lia|]. split; [done|]. intros ->. unfold number in Hn. cbn [foldl] in Hn.
  apply Forall_cons in Hr as [_ Hds]. pose proof (number_bound _ Hds) as Hb. unfold number in Hb. cbn in H16. replace (length ds) with 15%nat in Hb by lia. change (0 * 10 + 0) with 0 in Hn. rewrite Hn in Hb. lia.
Qed.

Lemma print_padded_digits v n :
  0 ≤ v < 1000 → (n ≤ 2)%nat → ∃ es, print_padded v n = digit_bytes es ∧ decimal_digits es ∧ (length es ≤ 5)%nat.
Proof.
  intros Hv Hn. destruct (to_digits_base 64 10 3 v) as (_ & Hr & Hl); [lia|lia|cbn; lia|].
  unfold print_padded, to_chars. rewrite (proj2 (Z.ltb_ge v 0)), Z.abs_eq by lia. cbn [app]. rewrite length_fmap.
  exists (replicate (n - length (to_digits 64 10 v)) 0 ++ to_digits 64 10 v). split; [|split; [split|]].
  - unfold digit_bytes. by rewrite fmap_app, fmap_replicate.
  - apply Forall_app. split; [apply Forall_replicate; lia|done].
  - destruct (to_digits 64 10 v); [cbn in Hl; lia|]. by destruct (replicate _ 0).
  - rewrite length_app, length_replicate. lia.
Qed.

(** Without a point or an exponent, [.0] is added. *)
Lemma needs_point_digits ds r : Forall (λ d, 0 ≤ d < 10) ds → needs_decimal_point (digit_bytes ds ++ r) = needs_decimal_point r.
Proof.
  induction 1 as [|d ds Hd _ IH]; [done|]. change (digit_bytes (d :: ds) ++ r) with (char_of_digit d :: (digit_bytes ds ++ r)).
  rewrite <- IH. unfold needs_decimal_point. cbn [forallb]. clear IH.
  assert (d = 0 ∨ d = 1 ∨ d = 2 ∨ d = 3 ∨ d = 4 ∨ d = 5 ∨ d = 6 ∨ d = 7 ∨ d = 8 ∨ d = 9) as Hc by lia.
  repeat (destruct Hc as [->|Hc]; [reflexivity|]). by subst d.
Qed.

Definition with_point (str : bytes) : bytes := str ++ (if needs_decimal_point str then bs ".0" else []).

Lemma length_float_chars p :
  (length (float_chars_text p) ≤ length (whole p) + S (length (fraction p)) +
    match exponent p with Some (_, st, ds) => S (length st + length ds) | None => 0 end)%nat.
Proof.
  assert (∀ ds, length (digit_chars ds) = length ds) as Hl by (intros ds; apply length_fmap).
  unfold float_chars_text. rewrite !length_app, Hl. assert (length (exponent_chars (exponent p)) = match exponent p with Some (_, st, ds) => S (length st + length ds) | None => 0 end)%nat as ->.
  { destruct (exponent p) as [[[neg st] ds]|]; [|done]. unfold exponent_chars. by rewrite !length_app, Hl. }
  destruct (fraction p) as [|d f]; [cbn [length]; lia|]. rewrite length_app, Hl. cbn [length]. lia.
Qed.

Lemma with_point_digits ds fs :
  decimal_digits ds → ((1 < length ds)%nat → head ds ≠ Some 0) → Forall (λ d, 0 ≤ d < 10) fs → (length ds + length fs ≤ 60)%nat →
  ∃ p, float_text p ∧ with_point (digit_bytes ds ++ fraction_bytes fs) = float_bytes p.
Proof.
  intros Hds Hz Hfs Hl. unfold with_point. rewrite needs_point_digits by apply Hds. unfold digit_bytes. destruct fs as [|f fs].
  - exists (mk_float_parts ds [0] None). split; [|cbn; by rewrite app_nil_r]. constructor; cbn [whole fraction exponent]; try done; [by apply Forall_singleton|].
    etrans; [apply length_float_chars|]. cbn in *. lia.
  - exists (mk_float_parts ds (f :: fs) None). split; [|cbn; by rewrite !app_nil_r]. constructor; cbn [whole fraction exponent]; try done.
    etrans; [apply length_float_chars|]. cbn in *. lia.
Qed.

Lemma print_g_text m e :
  -1074 ≤ Z.log2 (Z.pos m) + e ≤ 1023 → ∃ p, float_text p ∧ with_point (print_g m e) = float_bytes p.
Proof.
  intros Hk. pose proof (significand_exact m e Hk) as Hs. unfold print_g. destruct (significand m e) as [q x]. destruct Hs as [Hq Hx].
  destruct (to_chars_digits q Hq) as (d & ds & -> & Hlen & Hr & Hd). inversion Hr as [|? ? Hd0 Hds]; subst.
  destruct (_ || _) eqn:Hsci.
  - destruct (print_padded_digits (Z.abs x) 2) as (es & -> & Hes & Hle); [lia|lia|].
    change (take 1 (digit_bytes (d :: ds))) with (digit_bytes [d]). change (drop 1 (digit_bytes (d :: ds))) with (digit_bytes ds).
    rewrite pointed_digits by done. destruct (drop_zero_digits_spec ds Hds) as [Hf Hfl]. set (fs := drop_zero_digits ds) in *. clearbody fs.
    exists (mk_float_parts [d] fs (Some (x <? 0, [U (if x <? 0 then "-" else "+")%byte], es))). split.
    + constructor; cbn [whole fraction exponent]; try done.
      * split; [by apply Forall_singleton|done].
      * cbn. lia.
      * split; [destruct (x <? 0); constructor|done].
      * etrans; [apply length_float_chars|]. cbn. lia.
    + unfold with_point. rewrite <- !app_assoc, needs_point_digits by (by apply Forall_singleton).
      assert (∀ r, needs_decimal_point (fraction_bytes fs ++ bs "e" ++ r) = false) as ->.
      { intros r. unfold needs_decimal_point. rewrite forallb_app. apply andb_false_intro2. done. }
      rewrite app_nil_r. unfold float_bytes. cbn [whole fraction exponent exponent_bytes]. do 3 f_equal. by destruct (x <? 0).
  - apply orb_false_iff in Hsci as [Hx1 Hx2]. apply Z.ltb_ge in Hx1. apply Z.leb_gt in Hx2. destruct (Z.ltb_spec x 0) as [Hneg|Hpos].
    + change (bs "0") with (digit_bytes [0]). change "0"%byte with (char_of_digit 0). rewrite <- fmap_replicate.
      change (char_of_digit <$> replicate (Z.to_nat (- x - 1)) 0) with (digit_bytes (replicate (Z.to_nat (- x - 1)) 0)).
      unfold digit_bytes at 2 3. rewrite <- fmap_app. fold (digit_bytes (replicate (Z.to_nat (- x - 1)) 0 ++ d :: ds)).
      assert (Forall (λ d, 0 ≤ d < 10) (replicate (Z.to_nat (- x - 1)) 0 ++ d :: ds)) as Hfr.
      { apply Forall_app. split; [apply Forall_replicate; lia|done]. }
      rewrite pointed_digits by done. destruct (drop_zero_digits_spec _ Hfr) as [Hf Hfl]. apply with_point_digits; [split; [by apply Forall_singleton|done]|cbn; lia|done|].
      rewrite length_app, length_replicate in Hfl. cbn [length] in *. lia.
    + rewrite <- (take_drop (Z.to_nat (x + 1)) (d :: ds)) in Hr. apply Forall_app in Hr as [Hr1 Hr2].
      assert (take (Z.to_nat (x + 1)) (digit_bytes (d :: ds)) = digit_bytes (take (Z.to_nat (x + 1)) (d :: ds)) ∧
        drop (Z.to_nat (x + 1)) (digit_bytes (d :: ds)) = digit_bytes (drop (Z.to_nat (x + 1)) (d :: ds))) as [-> ->].
      { unfold digit_bytes. by rewrite fmap_take, fmap_drop. }
      rewrite pointed_digits by done. destruct (drop_zero_digits_spec _ Hr2) as [Hf Hfl]. rewrite length_drop in Hfl.
      replace (Z.to_nat (x + 1)) with (S (Z.to_nat x)) in * by lia. apply with_point_digits; [split; [done|done]|intros _; cbn; congruence|done|].
      rewrite length_take. cbn [length] in *. lia.
Qed.

Lemma encode_float p : float_text p → encode_text (float_chars_text p) = float_bytes p.
Proof.
  intros [[Hw _] _ Hf He _]. unfold float_chars_text, float_bytes, digit_bytes. rewrite !encode_text_app, <- digit_byte_text by done. do 2 f_equal.
  - destruct (fraction p) as [|d f]; [done|]. by rewrite encode_text_app, <- digit_byte_text.
  - destruct (exponent p) as [[[neg st] ds]|]; [|done]. destruct He as [Hst [Hds _]]. cbn [exponent_chars exponent_bytes].
    rewrite !encode_text_app, <- digit_byte_text by done. f_equal. f_equal. by destruct Hst.
Qed.

(** A float that its sixteen digits identify is read back. *)
Definition reads_back (x : spec_float) : Prop :=
  match x with
  | S754_infinity _ | S754_nan => True
  | _ => extract_double (print_floating_point_to_stream (SFabs x)) = Some (SFabs x)
  end.

Lemma print_float_text x :
  double x = true → reads_back x → ∃ t, print_floating_point_to_stream x = encode_text t ∧ value_text (DFloat x) t.
Proof.
  intros Hd Hb.
  assert (∀ s : bool, ∀ p str, float_text p → with_point str = float_bytes p → extract_double (with_point str) = Some (SFabs x) →
    needs_decimal_point ((if s then bs "-" else []) ++ str) = needs_decimal_point str →
    x = (if s then SFopp (SFabs x) else SFabs x) →
    ∃ t, with_point ((if s then bs "-" else []) ++ str) = encode_text t ∧ value_text (DFloat x) t) as Hmain.
  { intros s p str Hp Hstr Hex Hnp Hx. rewrite Hstr, extract_float in Hex by done.
    assert (float_value p = SFabs x ∧ finite (float_value p)) as [Hv Hfin] 
      by (destruct (float_value p); inversion Hex; done).
    exists ((if s then [U "-"] else []) ++ float_chars_text p). split.
    - unfold with_point in *. rewrite Hnp, <- app_assoc, Hstr, encode_text_app, encode_float by done. by destruct s.
    - rewrite Hx, <- Hv. apply (text_float s); [destruct s; constructor|done|done]. }
  destruct x as [s|s| |s m e]; [| | |].
  - apply (Hmain s (mk_float_parts [0] [0] None) (bs "0")); [|reflexivity|reflexivity|by destruct s|by destruct s].
    constructor; cbn; try done; [split; [by apply Forall_singleton|done]|lia|by apply Forall_singleton|lia].
  - apply print_word_text. done.
  - apply print_word_text. done.
  - destruct (double_exponent _ _ _ Hd) as [He Hm].
    assert (-1074 ≤ Z.log2 (Z.pos m) + e ≤ 1023) as Hk.
    { pose proof (Z.log2_nonneg (Z.pos m)). assert (Z.log2 (Z.pos m) < 53) by (apply Z.log2_lt_pow2; lia). lia. }
    destruct (print_g_text m e Hk) as (p & Hp & Hstr). apply (Hmain s p (print_g m e)); [done|done|exact Hb| |by destruct s].
    unfold needs_decimal_point. rewrite forallb_app. by destruct s.
Qed.
