(* ===== verification/TomlLayout.v ===== *)
(** * TomlLayout: the formatter writes texts of the grammar

    What [default_formatter] writes for a value is a text of [TomlGrammar.v] that
    stands for the value's data, however it breaks the lines. *)
From Stdlib Require Import SpecFloat.
From S2P Require Import Prelude Bytes Env TomlNode TomlWrite TomlUtf8 TomlReader TomlParser TomlText TomlFormat TomlGrammar TomlStrings TomlNumbers TomlBlanks TomlKeys TomlValues TomlQuote TomlCompare TomlFigures.

Local Open Scope Z_scope.

(** ** What an operation of the formatter writes *)
Definition writes (m : F) (Q : list Z → Prop) : Prop :=
  ∀ s, ∃ t s', Q t ∧ m s = Wrote s' ∧ stream s' = stream s ++ encode_text t ∧ key_path s' = key_path s.

Section writes.
Implicit Types (m n : F) (Q : list Z → Prop).

Lemma writes_mono m Q Q' : writes m Q → (∀ t, Q t → Q' t) → writes m Q'.
Proof. intros Hm HQ s. destruct (Hm s) as (t & s' & ? & ? & ?). exists t, s'. auto. Qed.

Lemma writes_then m n Q1 Q : writes m Q1 → (∀ t1, Q1 t1 → writes n (λ t2, Q (t1 ++ t2))) → writes (m >> n) Q.
Proof.
  intros Hm Hn s. destruct (Hm s) as (t1 & s1 & HQ1 & Hs1 & Ht1 & Hk1).
  destruct (Hn t1 HQ1 s1) as (t2 & s2 & HQ2 & Hs2 & Ht2 & Hk2). exists (t1 ++ t2), s2. unfold andthen. rewrite Hs1.
  split_and!; [done|done| |congruence]. by rewrite Ht2, Ht1, encode_text_app, app_assoc.
Qed.

(** The operations associate to the left; they are followed from the left. *)
Lemma writes_assoc m n k Q : writes (m >> (n >> k)) Q → writes (m >> n >> k) Q.
Proof. intros H s. destruct (H s) as (t & s' & ? & Hs & ?). exists t, s'. split; [done|]. split; [|done]. unfold andthen in *. by destruct (m s). Qed.

Lemma writes_put b t Q : b = encode_text t → Q t → writes (put b) Q.
Proof. intros -> HQ s. by eexists t, _. Qed.

Lemma writes_ascii b Q : Forall (λ b, U b < 0x80) b → Q (zs b) → writes (put b) Q.
Proof. intros Hb HQ. eapply writes_put; [|exact HQ]. by rewrite encode_zs. Qed.

(** Operations on the other members. *)
Definition silent (m : F) : Prop := ∀ s, ∃ s', m s = Wrote s' ∧ stream s' = stream s ∧ key_path s' = key_path s.

Lemma silent_nothing : silent nothing.
Proof. intros s. by eexists. Qed.
Lemma silent_indent i : silent (set_indent i).
Proof. intros s. by eexists. Qed.
Lemma silent_naked b : silent (set_naked b).
Proof. intros s. by eexists. Qed.
Lemma silent_increase : silent increase_indent.
Proof. intros s. by eexists. Qed.
Lemma silent_decrease : silent decrease_indent.
Proof. intros s. by eexists. Qed.

Lemma writes_silent m Q : silent m → Q [] → writes m Q.
Proof. intros Hm HQ s. destruct (Hm s) as (s' & Hs & Hst & Hk). exists [], s'. by rewrite app_nil_r. Qed.

Lemma writes_silent_then m n Q : silent m → writes n Q → writes (m >> n) Q.
Proof. intros Hm Hn. apply (writes_then _ _ (λ t, t = [])); [by apply writes_silent|]. by intros t ->. Qed.

Lemma writes_then_silent m n Q : writes m Q → silent n → writes (m >> n) Q.
Proof. intros Hm Hn. eapply writes_then; [exact Hm|]. intros t Ht. apply writes_silent; [done|]. by rewrite app_nil_r. Qed.

Lemma writes_with_state (f : formatter → F) Q : (∀ s0, writes (f s0) Q) → writes (with_state f) Q.
Proof. intros Hf s. apply Hf. Qed.
End writes.

Lemma silent_clear : silent clear_naked_newline.
Proof. apply silent_naked. Qed.

#[export] Hint Resolve silent_nothing silent_indent silent_naked silent_increase silent_decrease silent_clear : silent.

(** ASCII text that the program knows. *)
Ltac ascii := repeat (apply List.Forall_cons; [by vm_compute|]); apply List.Forall_nil.

(** ** Indentation *)
Definition equals : list Z := zs (bs " = ").

Lemma one_space : spaces [U " "].
Proof. apply Forall_singleton. by left. Qed.

Lemma equals_spaced : equals_text equals.
Proof. apply (spaced_equals [U " "] [U " "]); apply one_space. Qed.

Lemma blank_one : array_blanks [U " "].
Proof. apply array_blanks_spaces, one_space. Qed.

Lemma writes_repeat_indent n : writes (repeat_indent n) spaces.
Proof.
  induction n as [|n IH]; cbn [repeat_indent]; [apply writes_silent; [apply silent_nothing|constructor]|].
  eapply (writes_then _ _ spaces).
  - apply writes_then_silent; [|auto with silent]. apply writes_ascii; [ascii|]. repeat (constructor; [by left|]). constructor.
  - intros t Ht. eapply writes_mono; [exact IH|]. intros t' Ht'. by apply Forall_app.
Qed.

Lemma writes_print_indent : writes print_indent spaces.
Proof. apply writes_with_state. intros s. apply writes_repeat_indent. Qed.

Lemma writes_newline : writes (print_newline true) (λ t, t = [10]).
Proof.
  apply writes_with_state. intros s. rewrite orb_true_r. apply writes_then_silent; [|auto with silent].
  by apply (writes_ascii [x0a]); [ascii|].
Qed.

(** A line break inside an array. *)
Lemma writes_break : writes (print_newline true >> print_indent) array_blanks.
Proof.
  eapply writes_then; [apply writes_newline|]. intros t ->. eapply writes_mono; [apply writes_print_indent|].
  intros t Ht. apply (blank_break [10]); [by left|]. by apply array_blanks_spaces.
Qed.

(** ** Nodes nested in each other *)
Lemma node_nested_ind (P : node → Prop) :
  (∀ a m i r, Forall (λ kv, P kv.2) m → P (Table a m i r)) →
  (∀ a els r, Forall P els → P (Array a els r)) →
  (∀ n, (∀ a m i r, n ≠ Table a m i r) ∧ (∀ a els r, n ≠ Array a els r) → P n) →
  ∀ n, P n.
Proof.
  intros Htable Harray Hleaf. fix IH 1. intros [a m i r|a els r|s r|z f r|x r|b r|d r|t r|dt r];
    [|apply Harray|apply Hleaf; by split..].
  - apply Htable. induction m as [|[k v] m IHm]; constructor; [apply IH|exact IHm].
  - induction els as [|v els IHels]; constructor; [apply IH|exact IHels].
Qed.

(** ** Strings *)
Definition valid_text (s : bytes) : Prop := ∃ cs, Forall scalar cs ∧ s = encode_text cs.

Lemma encode_text_nil cs : encode_text cs = [] → cs = [].
Proof. destruct cs as [|c cs]; [done|]. rewrite encode_text_cons. destruct (utf8_encode_cons c) as (b & x & ->). done. Qed.

Lemma see_chars cs k :
  foldl see_char k cs = mk_kind (has_line_breaks k || existsb (is_line_break true) cs)
    (has_control_chars k || existsb (λ c, negb (is_line_break true c) && is_nontab_control_character c) cs)
    (has_single_quotes k || existsb (λ c, negb (is_line_break true c) && negb (is_nontab_control_character c) && (c =? U "'")) cs).
Proof.
  revert k. induction cs as [|c cs IH]; intros [a b e]; cbn [foldl existsb]; [by rewrite !orb_false_r|]. rewrite IH. unfold see_char.
  destruct (is_line_break true c), (is_nontab_control_character c), (c =? U "'"); cbn; by rewrite ?orb_true_r, ?orb_false_r.
Qed.

Lemma existsb_false {A} (f : A → bool) l : existsb f l = false → Forall (λ x, f x = false) l.
Proof. induction l as [|x l IH]; cbn; [constructor|]. intros [Hx Hl]%orb_false_iff. constructor; auto. Qed.

Lemma existsb_all_false {A} (f : A → bool) l : Forall (λ x, f x = false) l → existsb f l = false.
Proof. induction 1 as [|x l Hx _ IH]; cbn; [done|]. by rewrite Hx. Qed.

Section flags.
Context (flags : format_flags).

(** A string that is written on one line: no other is read back. *)
Definition writable_string (s : bytes) : Prop :=
  ∃ cs, Forall scalar cs ∧ s = encode_text cs ∧
    (allow_multi_line_strings flags || allow_literal_strings flags = true → Forall (λ c, is_line_break true c = false) cs).

Lemma writes_basic_string cs :
  Forall scalar cs →
  writes (put [x22] >> put (with_escapes (encode_text cs)) >> put [x22]) (string_text (encode_text cs)).
Proof.
  intros Hcs. apply writes_assoc. apply (writes_then _ _ (λ t, t = [U x22])); [by apply (writes_ascii [x22]); [ascii|]|].
  intros t ->. eapply (writes_then _ _ (λ t, t = escape_text cs)); [by eapply writes_put; [apply with_escapes_text|]|].
  intros t ->. apply (writes_ascii [x22]); [ascii|]. by apply quote_string.
Qed.

Lemma writes_literal_string cs :
  Forall literal_char cs → writes (put (bs "'") >> put (encode_text cs) >> put (bs "'")) (string_text (encode_text cs)).
Proof.
  intros Hcs. apply writes_assoc. apply (writes_then _ _ (λ t, t = [U "'"])); [by apply (writes_ascii (bs "'")); [ascii|]|].
  intros t ->. apply (writes_then _ _ (λ t, t = cs)); [by apply (writes_put _ cs)|].
  intros t ->. apply (writes_ascii (bs "'")); [ascii|]. by apply literal_string.
Qed.

Lemma writes_empty_string (literals : bool) :
  writes (put (if literals then bs "''" else [x22; x22])) (string_text []).
Proof.
  destruct literals; (apply writes_ascii; [ascii|]); [by apply (literal_string [])|by apply (quote_string [])].
Qed.

Lemma writes_quoted_string s : writable_string s → writes (print_quoted_string flags s true) (string_text s).
Proof.
  intros (cs & Hcs & -> & Hbreaks). unfold print_quoted_string. destruct (encode_text cs) as [|b0 l0] eqn:Htext.
  { apply writes_then_silent; [apply writes_empty_string|auto with silent]. }
  rewrite <- Htext. rewrite look_at_text by done. rewrite see_chars. cbn [has_line_breaks has_control_chars has_single_quotes orb andb].
  destruct (allow_multi_line_strings flags || allow_literal_strings flags) eqn:Hml.
  - pose proof (Hbreaks eq_refl) as Hb. rewrite (existsb_all_false _ _ Hb), andb_false_r. cbv zeta. cbn [negb andb].
    apply writes_then_silent; [|auto with silent].
    destruct (_ && negb (existsb _ _) && negb (existsb _ _)) eqn:Hlit; [|by apply writes_basic_string].
    apply writes_literal_string. apply andb_true_iff in Hlit as [[_ H1]%andb_true_iff H2]. apply negb_true_iff in H1, H2.
    apply existsb_false in H1, H2. clear -Hcs Hb H1 H2. induction Hcs as [|c cs Hc Hcs IH]; [constructor|].
    inversion Hb as [|? ? Hb1 Hb2]; inversion H1 as [|? ? H11 H12]; inversion H2 as [|? ? H21 H22]; subst. constructor; [|auto].
    rewrite Hb1 in H11, H21. cbn [negb andb] in H11, H21. rewrite H11 in H21. cbn [negb andb] in H21. apply Z.eqb_neq in H21. by split.
  - apply orb_false_iff in Hml as [-> ->]. cbv zeta. apply writes_then_silent; [by apply writes_basic_string|auto with silent].
Qed.

(** ** Keys *)
Lemma key_text_bare cs : Forall scalar cs → encode_text cs ≠ [] → forallb is_bare_key_character cs = true → key_text (encode_text cs) cs.
Proof.
  intros Hcs Hne Hb. apply bare_key. unfold is_bare. rewrite Hb, andb_true_r. apply negb_true_iff, bool_decide_eq_false. by intros ->.
Qed.

Lemma writes_key_segment k : valid_text k → writes (print_key_segment k) (key_text k).
Proof.
  intros (cs & Hcs & ->). unfold print_key_segment. apply writes_then_silent; [|auto with silent].
  destruct (encode_text cs) as [|b l] eqn:Htext.
  { eapply writes_mono; [apply (writes_empty_string true)|]. by constructor. }
  rewrite <- Htext. rewrite requires_quotes_text by done. destruct (forallb is_bare_key_character cs) eqn:Hb; cbn [negb].
  - apply (writes_put _ cs); [done|]. apply key_text_bare; [done|by rewrite Htext|done].
  - eapply writes_mono; [by apply writes_basic_string|]. by constructor.
Qed.

(** The segments of a header: the formatter does not escape backslashes there. *)
Definition header_key (k : bytes) : Prop := valid_text k ∧ backslash ∉ k.

Lemma header_key_segment k :
  header_key k → ∃ t, default_formatter_make_key_segment k = encode_text t ∧ key_text k t.
Proof.
  intros [(cs & Hcs & ->) Hbs]. unfold default_formatter_make_key_segment. destruct (encode_text cs) as [|b l] eqn:Htext.
  { exists (single_quote []). split; [done|]. by apply quoted_key, (literal_string []). }
  rewrite <- Htext in *. rewrite requires_quotes_text by done. destruct (forallb is_bare_key_character cs) eqn:Hb; cbn [negb].
  - exists cs. split; [done|]. apply key_text_bare; [done|by rewrite Htext|done].
  - exists (quote cs). split; [|by apply quoted_key, quote_string]. rewrite escape_segments, with_escapes_text by done.
    unfold quote. by rewrite !encode_text_app.
Qed.

(** ** Integers *)
Lemma to_digits_dec n m z :
  (0 < n)%nat → (0 < m)%nat → 0 ≤ z < 10 ^ Z.of_nat n → z < 10 ^ Z.of_nat m → to_digits n 10 z = dec_digits m z.
Proof.
  revert m z. induction n as [|n IH]; intros [|m] z Hn Hm Hzn Hzm; try lia. cbn [to_digits dec_digits].
  destruct (Z.ltb_spec z 10); [done|]. rewrite Nat2Z.inj_succ, Z.pow_succ_r in Hzn, Hzm by lia.
  destruct n as [|n]; [cbn in Hzn; lia|]. destruct m as [|m]; [cbn in Hzm; lia|].
  rewrite IH with (m := S m); [done|lia|lia|..]; Z.to_euclidean_division_equations; lia.
Qed.

Lemma print_decimal z : Z.abs z < 2 ^ 63 → print_integer_to_stream z no_flags = encode_text (decimal z).
Proof.
  intros Hz. destruct (dec_bytes_spec (Z.abs z)) as (Hd & _); [lia|]. unfold decimal. rewrite encode_text_app, encode_zs.
  2: { eapply Forall_impl; [exact Hd|]. intros b. cbv beta. generalize (U b). intros c Hc. by character_classes. }
  unfold print_integer_to_stream. destruct (Z.eqb_spec z 0) as [->|Hnz]; [done|].
  replace (if 0 <=? z then flags_base no_flags else 10) with 10 by (by destruct (0 <=? z)). cbv zeta.
  change (10 =? 16) with false. cbv iota. unfold to_chars, dec_bytes.
  assert (encode_text (if z <? 0 then [U "-"] else []) = if z <? 0 then bs "-" else []) as -> by (by destruct (z <? 0)).
  apply (f_equal (app _)).
  assert (0 ≤ Z.abs z < 10 ^ Z.of_nat 19) as Hr by (cbn; lia).
  assert (10 ^ Z.of_nat 19 < 10 ^ Z.of_nat 64) by (vm_compute; reflexivity).
  rewrite (to_digits_dec 64 19) by lia.
  destruct (dec_digits_spec 19 (Z.abs z)) as (_ & H10 & _); [lia|lia|]. clear Hd.
  induction H10 as [|d l Hdl _ IH]; [done|]. cbn [fmap list_fmap]. rewrite <- IH. f_equal. unfold char_of_digit.
  by rewrite (proj2 (Z.ltb_lt _ _)) by lia.
Qed.

(** ** Values that are written and read back *)
Context `{Libm}.

(** The tables and arrays that [print(const table&)] writes with headers. *)
Definition has_header (n : node) : bool := is_non_inline_table n || is_non_inline_array_of_tables n.

(** A time of day with its fraction of a second. *)
Definition writable_time (t : time) : Prop := clock_time t ∧ 0 ≤ t_nanosecond t < 10 ^ 9.

Definition writable_scalar (n : node) : Prop :=
  match n with
  | VString s _ => writable_string s
  | VInteger z _ _ => Z.abs z < 2 ^ 63
  | VFloat x _ => double x = true ∧ reads_back x
  | VBoolean _ _ => True
  | VDate d _ => quote_dates_and_times flags = false ∧ calendar_date d
  | VTime t _ => quote_dates_and_times flags = false ∧ writable_time t
  | VDateTime dt _ =>
    quote_dates_and_times flags = false ∧ calendar_date (dt_date dt) ∧ writable_time (dt_time dt) ∧
    from_option (λ o, Z.abs o < 24 * 60) True (dt_offset dt)
  | Table _ _ _ _ | Array _ _ _ => False
  end.

(** The width of a float is the width of its logarithm, if that is a [size_t]. *)
Inductive measurable : node → Prop :=
| measurable_Array a els r : Forall measurable els → measurable (Array a els r)
| measurable_Table a m i r : Forall (λ kv, measurable kv.2) m → measurable (Table a m i r)
| measurable_scalar n :
    match n with VFloat x _ => ∃ w, float_columns x = inr w | Table _ _ _ _ | Array _ _ _ => False | _ => True end → measurable n.

Inductive writable : node → Prop :=
| scalar_writable n : writable_scalar n → writable n
| writable_Array a els r : Forall measurable els → Forall writable els → writable (Array a els r)
| writable_Table a m i r :
    ascending m → Forall (λ kv, valid_text kv.1) m → Forall (λ kv, has_header kv.2 = true → backslash ∉ kv.1) m →
    Forall (λ kv, writable kv.2) m → writable (Table a m i r).

Lemma writable_table a m i r :
  writable (Table a m i r) →
  ascending m ∧ Forall (λ kv, valid_text kv.1) m ∧ Forall (λ kv, has_header kv.2 = true → backslash ∉ kv.1) m ∧ Forall (λ kv, writable kv.2) m.
Proof. by inversion 1. Qed.

Lemma writable_array a els r : writable (Array a els r) → Forall measurable els ∧ Forall writable els.
Proof. by inversion 1. Qed.

Lemma measurable_children n :
  measurable n → match n with Table _ m _ _ => Forall (λ kv, measurable kv.2) m | Array _ els _ => Forall measurable els | _ => True end.
Proof. by destruct 1 as [| |[] ?]. Qed.

(** Their width is known. *)
Lemma sum_columns_defined {A} (width : A → ub + Z) l weight :
  Forall (λ x, ∃ w, width x = inr w) l → ∃ w, sum_columns width weight l = inr w.
Proof.
  intros Hl. revert weight. induction Hl as [|x l [w Hx] _ IH]; intros weight; cbn [sum_columns]; [eauto|].
  rewrite Hx. cbv zeta. case_match; eauto.
Qed.

Lemma integer_columns_defined z : Z.abs z < 2 ^ 63 → ∃ w, integer_columns z = inr w.
Proof.
  intros Hz. unfold integer_columns. destruct (Z.eqb_spec z 0); [eauto|]. rewrite (proj2 (Z.eqb_neq z (- 2 ^ 63))) by lia.
  unfold to_size. destruct (trunc_log10_int64 (Z.abs z)) as [H0 H1]; [lia|].
  rewrite (proj2 (Z.leb_le _ _) H0), (proj2 (Z.ltb_lt _ _) H1). cbn [andb]. eauto.
Qed.

Lemma columns_defined n : writable n → measurable n → ∃ w, default_formatter_inline_columns n = inr w.
Proof.
  induction n as [a m i r IH|a els r IH|n Hn] using node_nested_ind; intros Hw Hc.
  - destruct m as [|kv m]; [by eexists|]. apply writable_table in Hw as (_ & _ & _ & Hm). apply measurable_children in Hc as Hcm.
    cbn [default_formatter_inline_columns]. apply sum_columns_defined. rewrite Forall_forall in *. intros x Hx.
    destruct (IH x Hx (Hm x Hx) (Hcm x Hx)) as [w ->]. eauto.
  - destruct els as [|v els]; [by eexists|]. apply writable_array in Hw as [_ Hels]. apply measurable_children in Hc as Hce.
    cbn [default_formatter_inline_columns]. apply sum_columns_defined. rewrite Forall_forall in *. intros x Hx.
    destruct (IH x Hx (Hels x Hx) (Hce x Hx)) as [w ->]. eauto.
  - destruct Hc as [a els r|a m i r|n Hc]; [by destruct (proj2 Hn a els r)|by destruct (proj1 Hn a m i r)|].
    destruct Hw as [n Hw|a els r|a m i r]; [|by destruct Hc..].
    destruct n; cbn in *; try done; try (by eexists). by apply integer_columns_defined.
Qed.

(** ** Arrays *)
Lemma writes_more_elements (body : bool → node → F) els :
  Forall (λ v, writes (body false v) (λ t, ∃ b tv, t = [U ","] ++ b ++ tv ∧ array_blanks b ∧ value_text (strip v) tv)) els →
  writes (for_each body false els) (λ t, ∀ d tv b b', array_blanks b → value_text d tv → array_blanks b' →
    elements_text (d :: map strip els) (b ++ tv ++ t ++ b')).
Proof.
  induction 1 as [|v els Hv _ IH]; cbn [for_each].
  - apply writes_silent; [auto with silent|]. intros d tv b b' Hb Hd Hb'. by apply last_element.
  - eapply writes_then; [exact Hv|]. intros t1 (b1 & tv1 & -> & Hb1 & Hv1). eapply writes_mono; [exact IH|].
    intros t2 Ht2 d tv b b' Hb Hd Hb'. rewrite <- !app_assoc.
    change (elements_text (d :: map strip (v :: els)) (b ++ tv ++ [] ++ [U ","] ++ b1 ++ tv1 ++ t2 ++ b')).
    apply more_elements; [done|done|constructor|]. by apply Ht2.
Qed.

Lemma writes_elements (body : bool → node → F) els b0 :
  els ≠ [] → array_blanks b0 →
  (∀ first, Forall (λ v, writes (body first v)
     (λ t, ∃ b tv, t = (if first then [] else [U ","]) ++ b ++ tv ∧ array_blanks b ∧ value_text (strip v) tv)) els) →
  writes (for_each body true els) (λ t, ∀ b', array_blanks b' → elements_text (map strip els) (b0 ++ t ++ b')).
Proof.
  intros Hne Hb0 Hbody. destruct els as [|v els]; [done|]. cbn [for_each].
  pose proof (Hbody true) as Hfirst. pose proof (Hbody false) as Hmore. inversion Hfirst; inversion Hmore; subst.
  eapply writes_then; [eassumption|]. intros t1 (b & tv & -> & Hb & Hv).
  eapply writes_mono; [by apply writes_more_elements|]. intros t2 Ht2 b' Hb'. cbn [app map]. rewrite app_assoc, <- !app_assoc, app_assoc.
  apply Ht2; [by apply array_blanks_app|done|done].
Qed.

Lemma writes_array n els print :
  writable n → measurable n →
  Forall (λ v, writes (print v) (value_text (strip v))) els →
  writes (print_array n els print) (value_text (DArray (map strip els))).
Proof.
  intros Hn Hc Hels. unfold print_array. apply writes_then_silent; [|auto with silent]. destruct els as [|v els].
  { apply writes_ascii; [ascii|]. apply (text_array [] []). apply no_elements. constructor. }
  apply writes_with_state. intros s0. destruct (columns_defined n Hn Hc) as [w Hw].
  unfold default_formatter_forces_multiline. rewrite Hw. cbv beta iota zeta.
  set (multiline := (_ <? _) : bool). clearbody multiline.
  do 3 apply writes_assoc. apply (writes_then _ _ (λ t, t = [U "["])); [by apply (writes_ascii (bs "[")); [ascii|]|].
  intros t ->.
  apply (writes_then _ _ (λ t, array_blanks t)).
  { destruct multiline; [|apply (writes_ascii (bs " ")); [ascii|apply blank_one]].
    apply writes_silent; [|constructor]. intros s. destruct (_ <? _); by eexists. }
  intros b0 Hb0.
  eapply writes_then; [apply writes_elements; [done|exact Hb0|]|].
  { intros first. apply Forall_forall. intros x Hx. rewrite Forall_forall in Hels. pose proof (Hels x Hx) as Hprint.
    apply writes_assoc. apply (writes_then _ _ (λ t, ∃ b, t = (if first then [] else [U ","]) ++ b ∧ array_blanks b)).
    - destruct first; [apply writes_silent; [auto with silent|]; exists []; split; [done|constructor]|].
      eapply writes_then; [by apply (writes_ascii (bs ",") (λ t, t = [U ","])); [ascii|]|]. intros t ->.
      destruct multiline; [apply writes_silent; [auto with silent|]; exists []; split; [done|constructor]|].
      apply (writes_ascii (bs " ")); [ascii|]. exists [U " "]. split; [done|apply blank_one].
    - intros t1 (b1 & -> & Hb1). apply (writes_then _ _ array_blanks).
      { destruct multiline; [apply writes_break|]. apply writes_silent; [auto with silent|constructor]. }
      intros b2 Hb2. eapply writes_mono; [exact Hprint|]. intros tv Htv. exists (b1 ++ b2), tv.
      split; [by rewrite !app_assoc|]. split; [by apply array_blanks_app|done]. }
  intros t1 Ht1. eapply (writes_then _ _ array_blanks).
  { destruct multiline; [|apply (writes_ascii (bs " ")); [ascii|apply blank_one]].
    apply writes_assoc, writes_silent_then; [auto with silent|]. apply writes_break. }
  intros b' Hb'. apply (writes_ascii (bs "]")); [ascii|]. specialize (Ht1 b' Hb'). apply text_array in Ht1.
  by rewrite <- !app_assoc in *.
Qed.

(** ** Inline tables *)
Lemma foldl_emplace_app {A} (l r : string_map A) :
  ascending (l ++ r) → foldl (λ m kv, emplace kv.1 kv.2 m) l r = l ++ r.
Proof.
  revert l. induction r as [|[k v] r IH]; intros l Hl; [by rewrite app_nil_r|]. cbn [foldl fst snd].
  assert (emplace k v l = l ++ [(k, v)]) as ->.
  { clear IH. induction l as [|[k' v'] l IHl]; [done|]. inversion Hl as [|? ? Hl' Hall]; subst. cbn [emplace app].
    assert (blt k' k) as Hk by (rewrite Forall_forall in Hall; apply (Hall (k, v)); set_solver).
    rewrite bytes_compare_antisym, Hk. cbn [CompOpp]. by rewrite IHl. }
  rewrite IH; by rewrite <- app_assoc.
Qed.

Lemma ascending_strip m : ascending m → ascending (strip_map m).
Proof.
  unfold ascending, strip_map. induction 1 as [|[k v] m Hm IH Hall]; cbn [map]; constructor; [done|].
  apply (Forall_fmap (λ kv : bytes * node, (kv.1, strip kv.2))). eapply Forall_impl; [exact Hall|done].
Qed.

Lemma writes_entry kv print :
  valid_text kv.1 → writes (print kv.2) (value_text (strip kv.2)) →
  writes (print_key_segment kv.1 >> put (bs " = ") >> print kv.2)
    (λ t, ∃ kt tv, t = kt ++ equals ++ tv ∧ key_text kv.1 kt ∧ value_text (strip kv.2) tv).
Proof.
  intros Hk Hv. apply writes_assoc. eapply writes_then; [by apply writes_key_segment|]. intros kt Hkt.
  apply (writes_then _ _ (λ t, t = equals)); [by apply writes_ascii; [ascii|]|]. intros t ->.
  eapply writes_mono; [exact Hv|]. intros tv Htv. eauto 6.
Qed.

Lemma writes_more_pairs (body : bool → bytes * node → F) m :
  Forall (λ kv, writes (body false kv)
    (λ t, ∃ kt tv, t = [U ","; U " "] ++ kt ++ equals ++ tv ∧ key_text kv.1 kt ∧ value_text (strip kv.2) tv)) m →
  writes (for_each body false m) (λ t, ∀ k kt d tv b b', spaces b → key_text k kt → value_text d tv → spaces b' →
    pairs_text ((k, d) :: strip_map m) (b ++ (kt ++ equals ++ tv) ++ t ++ b')).
Proof.
  induction 1 as [|kv m Hkv _ IH]; cbn [for_each].
  - apply writes_silent; [auto with silent|]. intros k kt d tv b b' Hb Hk Hd Hb'. apply last_pair; try done. apply equals_spaced.
  - eapply writes_then; [exact Hkv|]. intros t1 (kt1 & tv1 & -> & Hk1 & Hv1). eapply writes_mono; [exact IH|].
    intros t2 Ht2 k kt d tv b b' Hb Hk Hd Hb'.
    assert (pairs_text (strip_map (kv :: m)) ([U " "] ++ (kt1 ++ equals ++ tv1) ++ t2 ++ b')) as Hp
      by (apply Ht2; [apply one_space|done|done|done]).
    pose proof (more_pairs k kt equals d tv b [] _ _ Hb Hk equals_spaced Hd (List.Forall_nil _) Hp) as Hmore. cbn [app] in *.
    by rewrite <- !app_assoc in *.
Qed.

Lemma writes_inline m print :
  ascending m → Forall (λ kv, valid_text kv.1) m → Forall (λ kv, writes (print kv.2) (value_text (strip kv.2))) m →
  writes (print_inline m print) (value_text (DTable (strip_map m))).
Proof.
  intros Hasc Hk Hv. unfold print_inline. apply writes_then_silent; [|auto with silent]. destruct m as [|kv m].
  { apply writes_ascii; [ascii|]. apply (text_empty_table []). constructor. }
  apply writes_assoc. apply (writes_then _ _ (λ t, t = [U "{"; U " "])); [by apply (writes_ascii (bs "{ ")); [ascii|]|].
  intros t ->. cbn [for_each]. apply writes_assoc.
  inversion Hk as [|? ? Hk1 Hk']; inversion Hv as [|? ? Hv1 Hv']; subst.
  apply (writes_then _ _ (λ t, ∃ kt tv, t = kt ++ equals ++ tv ∧ key_text kv.1 kt ∧ value_text (strip kv.2) tv)).
  { do 2 apply writes_assoc. apply writes_silent_then; [auto with silent|].
    pose proof (writes_entry kv print Hk1 Hv1) as He. intros s. destruct (He s) as (t & s' & ? & Hs & ?). exists t, s'.
    split; [done|]. split; [|done]. unfold andthen in *. by destruct (print_key_segment kv.1 s). }
  intros t (kt & tv & -> & Hkt & Htv). eapply writes_then; [apply writes_more_pairs|].
  { rewrite Forall_forall in *. intros x Hx. do 2 apply writes_assoc.
    apply (writes_then _ _ (λ t, t = [U ","; U " "])); [by apply (writes_ascii (bs ", ")); [ascii|]|]. intros t ->.
    pose proof (writes_entry x print (Hk' x Hx) (Hv' x Hx)) as He. intros s.
    destruct (He s) as (t & s' & (kt' & tv' & -> & ? & ?) & Hs & ?). eexists _, s'. split; [by eexists _, _|].
    split; [|done]. unfold andthen in *. by destruct (print_key_segment x.1 s). }
  intros t2 Ht2. apply (writes_ascii (bs " }")); [ascii|].
  assert (pairs_text (strip_map (kv :: m)) ([U " "] ++ (kt ++ equals ++ tv) ++ t2 ++ [U " "])) as Hp
    by (apply Ht2; [apply one_space|done|done|apply one_space]).
  apply ascending_strip in Hasc.
  pose proof (text_table _ (strip_map (kv :: m)) _ Hp (ascending_NoDup _ Hasc)) as Ht.
  rewrite (foldl_emplace_app []) in Ht by done. specialize (Ht eq_refl). cbn [app] in *. by rewrite <- !app_assoc in *.
Qed.

Lemma writable_doubles n : writable n → doubles n = true.
Proof.
  induction n as [a m i r IH|a els r IH|n Hn] using node_nested_ind; intros Hw.
  - apply writable_table in Hw as (_ & _ & _ & Hm). cbn [doubles]. apply forallb_forall. intros kv Hkv%list_elem_of_In. rewrite Forall_forall in *. auto.
  - apply writable_array in Hw as [_ Hels]. cbn [doubles]. apply forallb_forall. intros v Hv%list_elem_of_In. rewrite Forall_forall in *. auto.
  - destruct Hw as [n Hw|a els r|a m i r]; [|by destruct (proj2 Hn a els r)|by destruct (proj1 Hn a m i r)]. destruct n; try done. apply Hw.
Qed.

(** ** All values *)
Lemma writes_text b Q : (∃ t, b = encode_text t ∧ Q t) → writes (put b >> set_naked false) Q.
Proof. intros (t & -> & HQ). apply writes_then_silent; [by eapply writes_put|auto with silent]. Qed.

Lemma writes_integer z fmt : Z.abs z < 2 ^ 63 → writes (print_integer flags z fmt) (value_text (DInteger z)).
Proof.
  intros Hz. unfold print_integer. destruct (allow_value_format_flags flags && (0 <=? z) && negb (bool_decide (fmt = no_flags))) eqn:Hf.
  - apply andb_true_iff in Hf as [[_ Hp]%andb_true_iff Hf]. apply Z.leb_le in Hp. apply negb_true_iff, bool_decide_eq_false in Hf.
    destruct (print_prefixed_text z fmt) as (t & Ht & Hpt); [lia|done|]. intros s.
    destruct (writes_text (flags_prefix fmt ++ print_integer_to_stream z fmt) (value_text (DInteger z))) with (s := s) as (t' & s' & HQ & Hs & Hst).
    { exists t. split; [done|by constructor]. }
    exists t', s'. split; [done|]. split; [|done]. rewrite <- Hs. unfold andthen, put. cbn. by rewrite app_assoc.
  - apply writes_text. exists (decimal z). split; [by apply print_decimal|by constructor; apply decimal_text_of].
Qed.

Lemma writes_scalar n : writable_scalar n → writes (print_value flags n) (value_text (strip n)).
Proof.
  destruct n as [a m i r|a els r|s r|z f r|x r|b r|d r|t r|dt r]; cbn [writable_scalar print_value strip]; try done.
  - intros Hs. eapply writes_mono; [by apply writes_quoted_string|]. by constructor.
  - apply writes_integer.
  - intros [Hd Hb]. apply writes_text. by apply print_float_text.
  - intros _. apply writes_text. exists (zs (print_bool b)). split; [by destruct b|constructor].
  - unfold print_quotable. intros [-> Hd]. apply writes_text. eexists. split; [by apply print_date_text|by constructor].
  - unfold print_quotable. intros [-> [Ht Hns]]. apply writes_text. destruct (print_time_text t Ht Hns) as (tt & -> & Htt).
    eexists. split; [done|by constructor].
  - unfold print_quotable. intros (-> & Hd & [Ht Hns] & Ho). apply writes_text. by apply print_date_time_text.
Qed.

Lemma writes_node n : writable n → writes (print_node flags n) (value_text (strip n)).
Proof.
  induction n as [a m i r IH|a els r IH|n Hn] using node_nested_ind; intros Hw.
  - pose proof (writable_table _ _ _ _ Hw) as (Hasc & Hk & _ & Hm). cbn [print_node strip]. apply writes_inline; [done|done|].
    rewrite Forall_forall in *. auto.
  - pose proof (writable_array _ _ _ Hw) as [Hc Hels]. cbn [print_node strip]. apply writes_array; [done|by constructor|].
    rewrite Forall_forall in *. auto.
  - destruct Hw as [n Hw|a els r|a m i r]; [|by destruct (proj2 Hn a els r)|by destruct (proj1 Hn a m i r)].
    pose proof (writes_scalar n Hw) as Hs. by destruct n.
Qed.
End flags.
