(* ===== verification/TomlSections.v ===== *)
(** * TomlSections: the tables a document is written as

    [print(const table&)] writes the values of a table first, then its tables and
    then its arrays of tables, each under a header with its whole path. These
    lines, read in order, build the table again. *)
From Stdlib Require Import SpecFloat Sorted.
From stdpp Require Import sorting.
From S2P Require Import Prelude Bytes Env TomlNode TomlContainers TomlWrite TomlUtf8 TomlReader TomlParser TomlText TomlFormat TomlGrammar TomlValues TomlTables TomlQuote TomlLayout.

Local Open Scope Z_scope.

(** ** Operations at a path *)
Lemma enter_app p q f m : enter (p ++ q) f m = enter p (enter q f) m.
Proof.
  revert m. induction p as [|k p IH]; intros m; cbn [enter app]; [done|].
  destruct (do_get m k) as [[| | | | | | | |kd m1|l]|]; try done; [by rewrite IH|destruct (last l); [cbn; by rewrite IH|done]|by rewrite IH].
Qed.

Lemma enter_mono p (f g : string_map data → option (string_map data)) m m' :
  (∀ m m', f m = Some m' → g m = Some m') → enter p f m = Some m' → enter p g m = Some m'.
Proof.
  intros Hfg. revert m m'. induction p as [|k p IH]; intros m m'; cbn [enter]; [apply Hfg|].
  destruct (do_get m k) as [[| | | | | | | |kd m1|l]|]; try done.
  - intros (m1' & H1 & <-)%bind_Some. by rewrite (IH _ _ H1).
  - intros (m1 & -> & (m1' & H1 & <-)%bind_Some)%bind_Some. cbn. by rewrite (IH _ _ H1).
  - intros (m1' & H1 & <-)%bind_Some. by rewrite (IH _ _ H1).
Qed.

Lemma alter_alter {A} (v w : A) k m : map_alter (λ _, w) k (map_alter (λ _, v) k m) = map_alter (λ _, w) k m.
Proof. induction m as [|[k' x] m IH]; cbn; [done|]. case_decide; cbn; [by rewrite decide_True|]. rewrite decide_False by done. by rewrite IH. Qed.

Lemma alter_emplace {A} (v w : A) k m : do_get m k = None → map_alter (λ _, w) k (emplace k v m) = emplace k w m.
Proof.
  induction m as [|[k' x] m IH]; cbn; [by rewrite decide_True|]. case_decide as Hk; [done|]. intros Hm.
  destruct (bytes_compare k k') eqn:Hc; cbn; [by apply bytes_compare_eq in Hc|by rewrite decide_True|].
  rewrite decide_False by done. by rewrite IH.
Qed.

Lemma removelast_snoc {A} (l : list A) x : removelast (l ++ [x]) = l.
Proof. induction l as [|y l IH]; [done|]. destruct l as [|z l]; [done|]. change (y :: removelast ((z :: l) ++ [x]) = y :: z :: l). by rewrite IH. Qed.

(** Two operations at a path, one after the other. *)
Lemma enter_bind p f g m : enter p (λ m, f m ≫= g) m = enter p f m ≫= enter p g.
Proof.
  revert m. induction p as [|k p IH]; intros m; cbn [enter]; [done|].
  destruct (do_get m k) as [[| | | | | | | |kd m1|l]|] eqn:Hk; try done.
  - rewrite IH. destruct (enter p f m1) as [m2|]; [|done]. cbn. rewrite (do_get_alter_same _ _ _ _ Hk).
    destruct (enter p g m2); [|done]. cbn. by rewrite alter_alter.
  - destruct (last l) as [m1|]; [|done]. cbn. rewrite IH. destruct (enter p f m1) as [m2|]; [|done]. cbn.
    rewrite (do_get_alter_same _ _ _ _ Hk), last_snoc_Some. cbn. destruct (enter p g m2); [|done]. cbn.
    by rewrite alter_alter, removelast_snoc.
  - rewrite IH. destruct (enter p f []) as [m2|]; [|done]. cbn. rewrite do_get_emplace_new by done.
    destruct (enter p g m2); [|done]. cbn. by rewrite alter_emplace.
Qed.

(** ** The data of a table, with the arrays that headers add to and the tables
    that have no header of their own *)
Definition section_kind (m : string_map node) : table_kind := if skip_self m then KImplicit else KDefined.

Fixpoint section_data (n : node) : data :=
  match n with
  | Table _ m i _ => if i then strip n else DTableAs (section_kind m) (map (λ kv, (kv.1, section_data kv.2)) m)
  | Array _ els _ =>
    if is_non_inline_array_of_tables n then
      DTables (map (λ v, match v with Table _ m _ _ => map (λ kv, (kv.1, section_data kv.2)) m | _ => [] end) els)
    else strip n
  | _ => strip n
  end.

Definition section_map (m : string_map node) : string_map data := map (λ kv, (kv.1, section_data kv.2)) m.
Definition section_of (n : node) : string_map data := match n with Table _ m _ _ => section_map m | _ => [] end.

Lemma is_array_of_tables_spec els : is_array_of_tables els = true → Forall (λ v, ∃ a m i r, v = Table a m i r) els.
Proof.
  unfold is_array_of_tables, array_is_homogeneous. destruct els as [|v els]; [done|]. rewrite decide_False by done. rewrite forallb_forall.
  intros Hall. apply List.Forall_forall. intros x Hx. specialize (Hall x Hx). apply bool_decide_eq_true in Hall. destruct x; try done. eauto.
Qed.

Lemma plain_section n : plain (section_data n) = strip n ∧ (∀ a m i r, n = Table a m i r → plain_map (section_map m) = strip_map m).
Proof.
  assert (∀ m, Forall (λ kv : bytes * node, plain (section_data kv.2) = strip kv.2) m → plain_map (section_map m) = strip_map m) as Hmap.
  { unfold plain_map, section_map, strip_map. induction 1 as [|kv m Hkv _ IH]; [done|]. cbn [map fst snd]. by rewrite Hkv, IH. }
  induction n as [a m i r IH|a els r IH|n Hn] using node_nested_ind.
  - assert (plain_map (section_map m) = strip_map m) as Hm.
    { apply Hmap. eapply Forall_impl; [exact IH|]. by intros kv []. }
    split; [|by intros ? ? ? ? [= -> -> -> ->]]. cbn [section_data]. destruct i; [apply plain_strip|]. cbn [plain strip]. f_equal. exact Hm.
  - split; [|done]. cbn [section_data]. destruct (is_non_inline_array_of_tables _) eqn:Ha; [|apply plain_strip].
    cbn in Ha. apply andb_true_iff in Ha as [Ha%is_array_of_tables_spec _]. cbn [plain strip]. f_equal. rewrite map_map.
    induction els as [|v els IHels]; [done|]. inversion IH as [|? ? Hv Hels]; inversion Ha as [|? ? (a1 & m1 & i1 & r1 & ->) Ha']; subst.
    cbn [map]. rewrite IHels by done. f_equal. cbn [strip]. f_equal. destruct Hv as [_ Hv]. by apply (Hv a1 m1 i1 r1).
  - split; [|intros a m i r ->; by destruct (proj1 Hn a m i r)].
    destruct n; try apply plain_strip; [by destruct (proj1 Hn addr map inline_ src)|by destruct (proj2 Hn addr elements src)].
Qed.

Lemma plain_section_map m : plain_map (section_map m) = strip_map m.
Proof. apply (plain_section (Table 1 m false no_region)) with 1%positive false no_region. done. Qed.

(** ** The lines of a table *)
Fixpoint section_lines (path : list bytes) (n : node) : document :=
  match n with
  | Table _ m _ _ =>
    omap (λ kv, if has_header kv.2 then None else Some (Pair [kv.1] (strip kv.2))) m ++
    concat (map (λ kv,
      match kv.2 with
      | Table _ child i _ =>
        if i then [] else (if skip_self child then [] else [Header false (path ++ [kv.1])]) ++ section_lines (path ++ [kv.1]) kv.2
      | _ => []
      end) m) ++
    concat (map (λ kv,
      match kv.2 with
      | Array _ els _ =>
        if is_non_inline_array_of_tables kv.2 then
          concat (map (λ v, Header true (path ++ [kv.1]) :: section_lines (path ++ [kv.1]) v) els)
        else []
      | _ => []
      end) m)
  | _ => []
  end.

(** *** What they mean *)
Lemma lines_meaning_app d1 d2 s : lines_meaning (d1 ++ d2) s = lines_meaning d1 s ≫= lines_meaning d2.
Proof.
  revert s. induction d1 as [|l d1 IH]; intros s; cbn [lines_meaning app]; [done|].
  destruct (line_meaning l s); cbn; [apply IH|done].
Qed.

(** In a state in [C], the lines do to the table at [path] what [f] does. *)
Definition builds (path : list bytes) (C : doc_state → Prop) (d : document) (f : string_map data → option (string_map data)) : Prop :=
  ∀ s M', C s → enter path f s.2 = Some M' → ∃ p', lines_meaning d s = Some (p', M').

(** Anywhere; where the table is there; where it is the current table. *)
Definition anywhere (s : doc_state) : Prop := True.
Definition there (path : list bytes) (s : doc_state) : Prop := resolves path s.2.
Definition current (path : list bytes) (s : doc_state) : Prop := s.1 = path ∧ resolves path s.2.

(** The entries of a table, one after the other. *)
Fixpoint adds (l : list (bytes * data)) (m : string_map data) : option (string_map data) :=
  match l with [] => Some m | kv :: l => add kv.1 kv.2 m ≫= adds l end.

Lemma adds_app l1 l2 m : adds (l1 ++ l2) m = adds l1 m ≫= adds l2.
Proof. revert m. induction l1 as [|kv l1 IH]; intros m; cbn [adds app]; [done|]. destruct (add _ _ m); cbn; [apply IH|done]. Qed.

Lemma enter_there path f m m' : enter path f m = Some m' → resolves path m'.
Proof. intros Hf. rewrite <- (app_nil_r path). by eapply enter_resolves. Qed.

Section builds.
Context (path : list bytes).

Lemma builds_mono C d f g : builds path C d g → (∀ m m', f m = Some m' → g m = Some m') → builds path C d f.
Proof. intros Hg Hfg s M' Hs HM. eapply Hg; [done|]. by eapply enter_mono. Qed.

Lemma builds_nil : builds path (there path) [] Some.
Proof. intros [p M] M' Hs HM. cbn in *. rewrite enter_Some in HM by done. injection HM as ->. by eexists. Qed.

Lemma builds_app C d1 d2 f g :
  builds path C d1 f → builds path (there path) d2 g → builds path C (d1 ++ d2) (λ m, f m ≫= g).
Proof.
  intros H1 H2 s M' Hs. rewrite enter_bind. intros (M1 & HM1 & HM')%bind_Some. rewrite lines_meaning_app.
  destruct (H1 s M1 Hs HM1) as (p1 & ->). cbn. eapply H2; [|exact HM']. by eapply enter_there.
Qed.

(** Entries that say where they are. *)
Lemma builds_entries (es : list (document * (bytes * data))) :
  Forall (λ e, builds path anywhere e.1 (add e.2.1 e.2.2)) es →
  builds path (there path) (concat (map fst es)) (adds (map snd es)) ∧
  (es ≠ [] → builds path anywhere (concat (map fst es)) (adds (map snd es))).
Proof.
  induction 1 as [|e es He _ [IH _]]; [split; [apply builds_nil|done]|]. cbn [map concat].
  assert (builds path anywhere (e.1 ++ concat (map fst es)) (adds (e.2 :: map snd es))) as Hall by (by apply builds_app).
  split; [|done]. intros s M' _. by apply Hall.
Qed.

(** The values of the current table. *)
Lemma builds_pairs (l : list (bytes * data)) d g :
  builds path (there path) d g →
  builds path (current path) (map (λ kv, Pair [kv.1] kv.2) l ++ d) (λ m, adds l m ≫= g).
Proof.
  intros Hd. induction l as [|[k v] l IH]; cbn [map app].
  - intros s M' [_ Hs]. by apply Hd.
  - intros [p M] M' [Hp Hs] HM. cbn in Hp, Hs, HM. subst p.
    assert (enter path (λ m, add k v m ≫= (λ m, adds l m ≫= g)) M = Some M') as HM'.
    { eapply enter_mono; [|exact HM]. intros m m'. cbn [adds fst snd]. by destruct (add k v m). }
    rewrite enter_bind in HM'. apply bind_Some in HM' as (M1 & HM1 & HM'). cbn [lines_meaning line_meaning fst snd].
    change (add_path [k] v) with (add k v). rewrite HM1. cbn. eapply IH; [|exact HM']. split; [done|]. by eapply enter_there.
Qed.
End builds.

(** *** The entries of a table *)

(** What a new table becomes. *)
Definition fresh (child : string_map data) (m : string_map data) : option (string_map data) :=
  if bool_decide (m = []) then Some child else None.

Lemma builds_table path k d child :
  builds (path ++ [k]) anywhere d (fresh child) → builds path anywhere d (add k (DTableAs KImplicit child)).
Proof.
  intros Hd s M' Hs HM. eapply Hd; [done|]. rewrite enter_app. eapply enter_mono; [|exact HM]. intros m m'. unfold add.
  cbn [enter]. destruct (do_get m k); [done|]. by intros [= <-].
Qed.

(** A header and what follows it. *)
Lemma builds_declared arr path k d child (g : string_map data → option (string_map data)) :
  builds (path ++ [k]) (current (path ++ [k])) d (fresh child) →
  (∀ m m', g m = Some m' → open arr k m ≫= enter [k] (fresh child) = Some m') →
  builds path anywhere (Header arr (path ++ [k]) :: d) g.
Proof.
  intros Hd Hg [p M] M' _ HM. cbn [lines_meaning line_meaning snd] in *. unfold declare. rewrite last_snoc_Some. cbn.
  rewrite removelast_snoc. pose proof (enter_mono path g _ M M' Hg HM) as Hb.
  rewrite enter_bind in Hb. apply bind_Some in Hb as (M1 & HM1 & HM'). rewrite HM1. cbn. eapply Hd; [|by rewrite enter_app].
  split; [done|]. apply (declare_resolves arr _ M). unfold declare. rewrite last_snoc_Some. cbn. by rewrite removelast_snoc.
Qed.

Lemma builds_header path k d child :
  builds (path ++ [k]) (current (path ++ [k])) d (fresh child) →
  builds path anywhere (Header false (path ++ [k]) :: d) (add k (DTable child)).
Proof.
  intros Hd. eapply builds_declared; [exact Hd|]. intros m m'. unfold add, open. destruct (do_get m k) eqn:Hk; [done|].
  intros [= <-]. cbn. rewrite do_get_emplace_new by done. cbn. by rewrite alter_emplace.
Qed.

(** More elements of an array of tables. *)
Definition add_tables (k : bytes) (l : list (string_map data)) (m : string_map data) : option (string_map data) :=
  match do_get m k with
  | None => Some (emplace k (DTables l) m)
  | Some (DTables l0) => Some (map_alter (λ _, DTables (l0 ++ l)) k m)
  | Some _ => None
  end.

Lemma builds_element path k d child :
  builds (path ++ [k]) (current (path ++ [k])) d (fresh child) →
  builds path anywhere (Header true (path ++ [k]) :: d) (add_tables k [child]).
Proof.
  intros Hd. eapply builds_declared; [exact Hd|]. intros m m'. unfold add_tables, open.
  destruct (do_get m k) as [[| | | | | | | |kd m1|l]|] eqn:Hk; try done; intros [= <-]; cbn.
  - rewrite (do_get_alter_same _ _ _ _ Hk), last_snoc_Some. cbn. by rewrite alter_alter, removelast_snoc.
  - rewrite do_get_emplace_new by done. cbn. by rewrite alter_emplace.
Qed.

Lemma builds_elements path k (ds : list (document * string_map data)) :
  ds ≠ [] → Forall (λ dc, builds path anywhere dc.1 (add_tables k [dc.2])) ds →
  builds path anywhere (concat (map fst ds)) (add k (DTables (map snd ds))).
Proof.
  intros Hne Hds. apply (builds_mono _ _ _ _ (add_tables k (map snd ds))).
  2: { intros m m'. unfold add, add_tables. by destruct (do_get m k). }
  destruct Hds as [|[d c] ds Hd Hds]; [done|]. clear Hne. cbn [fst snd] in Hd. revert d c Hd.
  induction Hds as [|[d' c'] ds Hd' _ IH]; intros d c Hd; cbn [map concat fst snd] in *; [by rewrite app_nil_r|].
  eapply builds_mono; [eapply builds_app; [exact Hd|]|].
  - intros s M' _. apply (IH _ _ Hd' s M'). done.
  - intros m m'. unfold add_tables.
    destruct (do_get m k) as [[| | | | | | | |kd m1|l]|] eqn:Hk; try done; intros [= <-]; cbn.
    + rewrite (do_get_alter_same _ _ _ _ Hk), alter_alter. by rewrite <- app_assoc.
    + rewrite do_get_emplace_new by done. by rewrite alter_emplace.
Qed.

(** *** The order of the entries does not matter *)
Lemma elem_of_emplace {A} (kv : bytes * A) k v m :
  do_get m k = None → kv ∈ emplace k v m ↔ kv = (k, v) ∨ kv ∈ m.
Proof.
  induction m as [|[k' x] m IH]; cbn [emplace do_get]; [set_solver|]. case_decide as Hk; [done|]. intros Hm.
  destruct (bytes_compare k k') eqn:Hc; [by apply bytes_compare_eq in Hc|set_solver|].
  rewrite !elem_of_cons, IH by done. tauto.
Qed.

Lemma adds_spec es m :
  ascending m → NoDup (m.*1 ++ es.*1) →
  ∃ m', adds es m = Some m' ∧ ascending m' ∧ ∀ kv, kv ∈ m' ↔ kv ∈ m ∨ kv ∈ es.
Proof.
  revert m. induction es as [|[k v] es IH]; intros m Hm Hnd; [exists m; split; [done|]; set_solver|].
  cbn [fmap list_fmap fst] in Hnd. apply NoDup_app in Hnd as (Hnd1 & Hdis & Hnd2). inversion Hnd2 as [|? ? Hk Hnd3]; subst.
  assert (do_get m k = None) as Hget by (apply do_get_absent; intros Hin; by apply (Hdis k Hin), elem_of_cons; left).
  destruct (IH (emplace k v m)) as (m' & Hm' & Hasc & Hel).
  - by apply emplace_ascending.
  - apply NoDup_app. split; [by apply ascending_NoDup, emplace_ascending|]. split; [|done].
    intros x [->|Hx]%emplace_keys; [done|]. intros Hx'. apply (Hdis x Hx), elem_of_cons. by right.
  - exists m'. cbn [adds fst snd]. unfold add. rewrite Hget. split; [done|]. split; [done|]. intros kv.
    rewrite Hel, elem_of_emplace, elem_of_cons by done. tauto.
Qed.

Lemma ascending_unique {A} (m1 m2 : string_map A) : ascending m1 → ascending m2 → (∀ kv, kv ∈ m1 ↔ kv ∈ m2) → m1 = m2.
Proof.
  intros H1 H2 Hel. eapply (StronglySorted_unique_strong (λ a b, blt a.1 b.1)); [|done|done|].
  - intros a b _ _ Hab Hba. destruct (blt_irrefl a.1). by etransitivity.
  - apply NoDup_Permutation; [..|done]; by apply (NoDup_fmap_1 fst), ascending_NoDup.
Qed.

Lemma section_map_keys m : (section_map m).*1 = m.*1.
Proof. unfold section_map. induction m as [|kv m IH]; cbn; [done|]. f_equal. exact IH. Qed.

Lemma ascending_section m : ascending m → ascending (section_map m).
Proof.
  unfold ascending, section_map. induction 1 as [|[k v] m Hm IH Hall]; cbn [map]; constructor; [done|].
  apply (Forall_fmap (λ kv : bytes * node, (kv.1, section_data kv.2))). eapply Forall_impl; [exact Hall|done].
Qed.

(** The three kinds of entries. *)
Definition values_of (m : string_map node) : string_map node := List.filter (λ kv, negb (has_header kv.2)) m.
Definition tables_of (m : string_map node) : string_map node := List.filter (λ kv, is_non_inline_table kv.2) m.
Definition arrays_of (m : string_map node) : string_map node := List.filter (λ kv, is_non_inline_array_of_tables kv.2) m.

Lemma kinds_permutation m : values_of m ++ tables_of m ++ arrays_of m ≡ₚ m.
Proof.
  unfold values_of, tables_of, arrays_of. induction m as [|kv m IH]; [done|]. cbn [List.filter]. unfold has_header.
  assert (is_non_inline_table kv.2 = true → is_non_inline_array_of_tables kv.2 = false) as Hex by (by destruct kv.2).
  destruct (is_non_inline_table kv.2) eqn:H1; [rewrite (Hex eq_refl)|destruct (is_non_inline_array_of_tables kv.2) eqn:H2];
    cbn [orb negb].
  - cbn [app]. rewrite <- Permutation_middle. by constructor.
  - rewrite app_assoc, <- Permutation_middle, <- app_assoc. by constructor.
  - cbn [app]. by constructor.
Qed.

Lemma adds_kinds m :
  ascending m →
  adds (section_map (values_of m) ++ section_map (tables_of m) ++ section_map (arrays_of m)) [] = Some (section_map m).
Proof.
  intros Hm. assert (section_map (values_of m) ++ section_map (tables_of m) ++ section_map (arrays_of m) ≡ₚ section_map m) as Hp.
  { unfold section_map. rewrite <- !map_app. apply Permutation_map, kinds_permutation. }
  destruct (adds_spec (section_map (values_of m) ++ section_map (tables_of m) ++ section_map (arrays_of m)) [])
    as (m' & -> & Hasc & Hel).
  - constructor.
  - cbn [fmap list_fmap app]. rewrite Hp, section_map_keys. by apply ascending_NoDup.
  - f_equal. apply ascending_unique; [done|by apply ascending_section|]. intros kv. rewrite Hel, Hp. set_solver.
Qed.

(** *** All of a table *)
Definition table_lines (path : list bytes) (kv : bytes * node) : document :=
  match kv.2 with
  | Table _ child i _ =>
    if i then [] else (if skip_self child then [] else [Header false (path ++ [kv.1])]) ++ section_lines (path ++ [kv.1]) kv.2
  | _ => []
  end.

Definition array_lines (path : list bytes) (kv : bytes * node) : document :=
  match kv.2 with
  | Array _ els _ =>
    if is_non_inline_array_of_tables kv.2 then
      concat (map (λ v, Header true (path ++ [kv.1]) :: section_lines (path ++ [kv.1]) v) els)
    else []
  | _ => []
  end.

Lemma concat_map_filter {A B} (f : A → list B) (P : A → bool) l :
  (∀ x, P x = false → f x = []) → concat (map f l) = concat (map f (List.filter P l)).
Proof. intros Hf. induction l as [|x l IH]; cbn; [done|]. destruct (P x) eqn:Hx; cbn; [by f_equal|]. by rewrite (Hf x Hx). Qed.

Lemma section_data_value v : has_header v = false → section_data v = strip v.
Proof.
  unfold has_header. intros [H1 H2]%orb_false_iff. destruct v as [a m i r|a els r|s r|z f r|x r|b r|d r|t r|dt r]; try done;
    cbn [section_data]; [by destruct i|by rewrite H2].
Qed.

Lemma section_lines_kinds path a m i r :
  section_lines path (Table a m i r) =
    map (λ kv, Pair [kv.1] kv.2) (section_map (values_of m)) ++
    concat (map (table_lines path) (tables_of m)) ++ concat (map (array_lines path) (arrays_of m)).
Proof.
  cbn [section_lines]. f_equal; [|f_equal].
  - unfold values_of. induction m as [|kv m IH]; cbn; [done|]. destruct (has_header kv.2) eqn:Hk; cbn; [done|].
    by rewrite section_data_value, IH.
  - apply (concat_map_filter (table_lines path)). intros kv. unfold table_lines. destruct kv.2; try done. by destruct inline_.
  - apply (concat_map_filter (array_lines path)). intros kv. unfold array_lines. destruct kv.2; try done. by intros ->.
Qed.

(** A table's lines build it, if it is the current table or has none but tables
    of its own. *)
Definition built (m : string_map node) : Prop := ∀ path a i r,
  builds path (current path) (section_lines path (Table a m i r)) (fresh (section_map m)) ∧
  (skip_self m = true → builds path anywhere (section_lines path (Table a m i r)) (fresh (section_map m))).

Lemma builds_table_lines path kv :
  is_non_inline_table kv.2 = true → (∀ a m i r, kv.2 = Table a m i r → built m) →
  builds path anywhere (table_lines path kv) (add kv.1 (section_data kv.2)).
Proof.
  unfold table_lines. destruct kv as [k v]. cbn [fst snd]. destruct v as [a m i r| | | | | | | |]; try done.
  destruct i; [done|]. intros _ Hb. destruct (Hb _ _ _ _ eq_refl (path ++ [k]) a false r) as [Hcur Hskip].
  cbn [section_data]. unfold section_kind. destruct (skip_self m); cbn [app]; [apply builds_table; by apply Hskip|by apply builds_header].
Qed.

Lemma builds_array_lines path kv :
  is_non_inline_array_of_tables kv.2 = true →
  (∀ a els r, kv.2 = Array a els r → Forall (λ v, ∀ a m i r, v = Table a m i r → built m) els) →
  builds path anywhere (array_lines path kv) (add kv.1 (section_data kv.2)).
Proof.
  unfold array_lines. destruct kv as [k v]. cbn [fst snd]. destruct v as [|a els r| | | | | | |]; try done.
  intros Ha Hb. specialize (Hb _ _ _ eq_refl). cbn [section_data]. rewrite Ha.
  cbn in Ha. apply andb_true_iff in Ha as [Ha _]. assert (els ≠ []) as Hne by (by intros ->).
  apply is_array_of_tables_spec in Ha.
  set (ds := map (λ v, (Header true (path ++ [k]) :: section_lines (path ++ [k]) v, section_of v)) els).
  replace (concat (map _ els)) with (concat (map fst ds)) by (unfold ds; by rewrite map_map).
  replace (map _ els) with (map snd ds) by (unfold ds; by rewrite map_map).
  apply builds_elements; [unfold ds; by destruct els|]. unfold ds. apply (Forall_fmap _ _ els).
  rewrite Forall_forall in *. intros v Hv. cbn [fst snd]. destruct (Ha v Hv) as (a1 & m1 & i1 & r1 & ->).
  apply builds_element. apply (Hb _ Hv a1 m1 i1 r1 eq_refl).
Qed.

Lemma filter_sub {A} (P : A → bool) (Q : A → Prop) l : Forall Q l → Forall (λ x, P x = true ∧ Q x) (List.filter P l).
Proof. induction 1 as [|x l Hx _ IH]; cbn; [constructor|]. destruct (P x) eqn:Hp; [by constructor|done]. Qed.

Lemma built_map m :
  ascending m →
  Forall (λ kv, (∀ a m i r, kv.2 = Table a m i r → built m) ∧
    (∀ a els r, kv.2 = Array a els r → Forall (λ v, ∀ a m i r, v = Table a m i r → built m) els)) m →
  built m.
Proof.
  intros Hasc Hsub path a i r. rewrite section_lines_kinds.
  set (es := map (λ kv, (table_lines path kv, (kv.1, section_data kv.2))) (tables_of m) ++
             map (λ kv, (array_lines path kv, (kv.1, section_data kv.2))) (arrays_of m)).
  assert (concat (map (table_lines path) (tables_of m)) ++ concat (map (array_lines path) (arrays_of m)) = concat (map fst es)) as ->.
  { unfold es. by rewrite map_app, concat_app, !map_map. }
  assert (section_map (tables_of m) ++ section_map (arrays_of m) = map snd es) as Hsnd.
  { unfold es. by rewrite map_app, !map_map. }
  pose proof (adds_kinds m Hasc) as Hadds. rewrite Hsnd in Hadds.
  assert (Forall (λ e, builds path anywhere e.1 (add e.2.1 e.2.2)) es) as Hes.
  { unfold es. apply Forall_app. split.
    - apply (Forall_fmap _ _ (tables_of m)). unfold tables_of. eapply Forall_impl; [by apply filter_sub, Hsub|].
      intros kv [Hk [Ht _]]. by apply builds_table_lines.
    - apply (Forall_fmap _ _ (arrays_of m)). unfold arrays_of. eapply Forall_impl; [by apply filter_sub, Hsub|].
      intros kv [Hk [_ Ha]]. by apply builds_array_lines. }
  destruct (builds_entries path es Hes) as [Hthere Hany]. split.
  - eapply builds_mono; [by apply builds_pairs|]. intros m0 m'. unfold fresh. case_bool_decide as H0; [|done]. subst m0.
    intros [= <-]. by rewrite <- adds_app.
  - unfold skip_self. rewrite andb_true_iff, negb_true_iff, bool_decide_eq_false. intros [Hall Hne].
    assert (values_of m = []) as Hv.
    { unfold values_of. clear -Hall. induction m as [|kv m IH]; [done|]. cbn in *. apply andb_true_iff in Hall as [Hk Hall].
      unfold has_header. rewrite Hk. cbn. auto. }
    rewrite Hv in *. cbn [section_map map app] in *. eapply builds_mono; [apply Hany|].
    + intros He. rewrite He in Hadds. cbn in Hadds. injection Hadds as Hm. by destruct m.
    + intros m0 m'. unfold fresh. case_bool_decide as H0; [|done]. subst m0. by intros [= <-].
Qed.

Section documents.
Context `{Libm} (flags : format_flags).

Lemma writable_built n :
  writable flags n → (∀ a m i r, n = Table a m i r → built m) ∧
    (∀ a els r, n = Array a els r → Forall (λ v, ∀ a m i r, v = Table a m i r → built m) els).
Proof.
  induction n as [a m i r IH|a els r IH|n Hn] using node_nested_ind; intros Hw.
  - apply writable_table in Hw as (Hasc & _ & _ & Hm). split; [|done]. intros ? ? ? ? [= -> -> -> ->].
    apply built_map; [done|]. rewrite Forall_forall in *. auto.
  - apply writable_array in Hw as [_ Hels]. split; [done|]. intros ? ? ? [= -> -> ->].
    rewrite Forall_forall in *. intros v Hv. by apply IH; [|apply Hels].
  - split; [intros a m i r ->; by destruct (proj1 Hn a m i r)|intros a els r ->; by destruct (proj2 Hn a els r)].
Qed.

(** The lines of a document mean the document. *)
Lemma section_document a m i r :
  writable flags (Table a m i r) → document_meaning (section_lines [] (Table a m i r)) = Some (section_map m).
Proof.
  intros Hw. destruct (writable_built _ Hw) as [Hb _]. destruct (Hb _ _ _ _ eq_refl [] a i r) as [Hcur _].
  unfold document_meaning. destruct (Hcur ([], []) (section_map m)) as (p' & ->); [by split|done|done].
Qed.
End documents.
