(* ===== verification/TomlFormatRoundtrip.v ===== *)
(** * TomlFormatRoundtrip: what the formatter writes is read back

    [print(const table&)] writes the lines of [TomlSections.v], with blank lines
    between them, as a document of [TomlGrammar.v]; so [parse_file] reads back the
    data that [default_formatter] wrote. *)
From Stdlib Require Import SpecFloat Sorted.
From S2P Require Import Prelude Bytes Env TomlNode TomlWrite TomlUtf8 TomlReader TomlParser TomlDocument TomlText TomlFormat TomlGrammar TomlBlanks TomlKeys TomlValues TomlTables TomlRoundtrip TomlQuote TomlCompare TomlFigures TomlLayout TomlSections.

Local Open Scope Z_scope.

(** ** Lines *)
Definition no_blanks (d : document) : document := List.filter (λ l, match l with Blank => false | _ => true end) d.

Lemma no_blanks_app d1 d2 : no_blanks (d1 ++ d2) = no_blanks d1 ++ no_blanks d2.
Proof. unfold no_blanks. induction d1 as [|l d1 IH]; cbn; [done|]. destruct l; cbn; by rewrite ?IH. Qed.

Lemma lines_meaning_no_blanks d s : lines_meaning (no_blanks d) s = lines_meaning d s.
Proof.
  revert s. induction d as [|l d IH]; intros [p M]; [done|].
  destruct l as [|cs|k v|arr q]; cbn [no_blanks List.filter lines_meaning line_meaning]; fold (no_blanks d); [apply IH|apply IH|..].
  - destruct (enter p (add_path k v) M); cbn; [apply IH|done].
  - destruct (declare arr q M); cbn; [apply IH|done].
Qed.

(** The formatter ends every line. *)
Inductive lines_text : document → list Z → Prop :=
| lines_nil : lines_text [] []
| lines_cons l b t d ts : spaces b → line_text false l t → lines_text d ts → lines_text (l :: d) (b ++ t ++ ts).

Lemma lines_document d T : lines_text d T → document_text d T.
Proof. induction 1 as [|l b t d ts Hb Hl _ IH]; [constructor|]. by apply (document_cons false). Qed.

Lemma lines_text_snoc d T l b t : lines_text d T → spaces b → line_text false l t → lines_text (d ++ [l]) (T ++ b ++ t).
Proof.
  intros Hd Hb Hl. induction Hd as [|l' b' t' d ts Hb' Hl' Hd IH]; cbn [app].
  - rewrite <- (app_nil_r t). by constructor; [..|constructor].
  - rewrite <- !app_assoc in *. by constructor.
Qed.

(** The content of a line, without its end. *)
Definition content_text (l : line) (t : list Z) : Prop := line_text false l (t ++ [10]).

Lemma line_feed : line_end false [10].
Proof. apply (plain_end _ [] [10]); [constructor|by left; left]. Qed.

(** ** What has been written: the lines [d], up to the end of the last of them *)
Definition wrote (s : formatter) (d : document) : Prop :=
  ∃ T, stream s = encode_text T ∧ lines_text d (if naked_newline s then T else T ++ [10]).

Definition segments (path : list bytes) : list bytes := default_formatter_make_key_segment <$> path.

(** Whether the stream is at the beginning of a line. *)
Definition any (b : bool) : Prop := True.
Definition bare (b : bool) : Prop := b = true.

(** [m] writes the lines [ls], in the table at [path]. *)
Definition lays (path : list bytes) (C C' : bool → Prop) (m : F) (ls : document) : Prop :=
  ∀ s d, wrote s d → key_path s = segments path → C (naked_newline s) →
  ∃ s' d', m s = Wrote s' ∧ wrote s' (d ++ d') ∧ no_blanks d' = ls ∧ key_path s' = key_path s ∧ C' (naked_newline s').

Section lays.
Context (path : list bytes).
Implicit Types (C : bool → Prop) (m n : F).

Lemma lays_then C C1 C' m n l1 l2 : lays path C C1 m l1 → lays path C1 C' n l2 → lays path C C' (m >> n) (l1 ++ l2).
Proof.
  intros Hm Hn s d Hs Hk HC. destruct (Hm s d Hs Hk HC) as (s1 & d1 & Hs1 & Hw1 & <- & Hk1 & HC1).
  destruct (Hn s1 (d ++ d1) Hw1) as (s2 & d2 & Hs2 & Hw2 & <- & Hk2 & HC2); [congruence|done|].
  exists s2, (d1 ++ d2). unfold andthen. rewrite Hs1, app_assoc, no_blanks_app. split_and!; try done. congruence.
Qed.

Lemma lays_assoc C C' m n k l : lays path C C' (m >> (n >> k)) l → lays path C C' (m >> n >> k) l.
Proof. intros H s d Hs Hk HC. destruct (H s d Hs Hk HC) as (s' & d' & Hs' & ?). exists s', d'. split; [|done]. unfold andthen in *. by destruct (m s). Qed.

(** A key pushed around two operations. *)
Lemma lays_assoc_push C C' m n k p l : lays path C C' (m >> (n >> k >> p)) l → lays path C C' (m >> n >> k >> p) l.
Proof.
  intros H s d Hs Hk HC. destruct (H s d Hs Hk HC) as (s' & d' & Hs' & ?). exists s', d'. split; [|done]. unfold andthen in *.
  by destruct (m s).
Qed.

Lemma lays_weaken C C' C1 C1' m l :
  lays path C C' m l → (∀ b, C1 b → C b) → (∀ b, C' b → C1' b) → lays path C1 C1' m l.
Proof. intros Hm H1 H2 s d Hs Hk HC. destruct (Hm s d Hs Hk (H1 _ HC)) as (s' & d' & ? & ? & ? & ? & ?). exists s', d'. auto 8. Qed.

Lemma lays_nothing C : lays path C C nothing [].
Proof. intros s d Hs Hk HC. exists s, []. by rewrite app_nil_r. Qed.

Lemma lays_increase C : lays path C C increase_indent [].
Proof. intros s d Hs Hk HC. eexists _, []. rewrite app_nil_r. by split. Qed.

Lemma lays_decrease C : lays path C C decrease_indent [].
Proof. intros s d Hs Hk HC. eexists _, []. rewrite app_nil_r. by split. Qed.

Lemma lays_newline force : lays path any bare (print_newline force) [].
Proof.
  intros s d (T & Hs & HT) Hk _. unfold print_newline, with_state.
  destruct (naked_newline s) eqn:Hn; cbn [negb orb].
  - destruct force; [|exists s, []; rewrite app_nil_r; split_and!; [done|by exists T; rewrite Hn|done|done|exact Hn]].
    eexists _, [Blank]. split; [reflexivity|]. split_and!; try done. exists (T ++ [10]). cbn.
    rewrite Hs, encode_text_app. split; [done|]. apply (lines_text_snoc d T Blank []); [done|constructor|by constructor; left].
  - eexists _, []. split; [reflexivity|]. rewrite app_nil_r. split_and!; try done. exists (T ++ [10]). cbn.
    by rewrite Hs, encode_text_app.
Qed.

Lemma lays_blank_line : lays path any bare (print_newline false >> print_newline true) [].
Proof. apply (lays_then any any bare _ _ [] []); [|apply lays_newline]. eapply lays_weaken; [apply lays_newline|done|done]. Qed.

(** Something written on a line of its own. *)
Lemma lays_content m l :
  (∀ s, key_path s = segments path → ∃ t s', (∃ b t', t = b ++ t' ∧ spaces b ∧ content_text l t') ∧ m s = Wrote s' ∧
     stream s' = stream s ++ encode_text t ∧ key_path s' = key_path s ∧ naked_newline s' = false) →
  l ≠ Blank → lays path bare any m [l].
Proof.
  intros Hm Hl s d (T & Hs & HT) Hk Hn. unfold bare in Hn. rewrite Hn in HT.
  destruct (Hm s Hk) as (t & s' & (b & t' & -> & Hb & Hc) & Hs' & Hst & Hk' & Hn').
  exists s', [l]. split_and!; try done; [|by destruct l]. exists (T ++ b ++ t').
  rewrite Hst, Hs, <- encode_text_app, Hn'. split; [done|]. rewrite <- !app_assoc. by apply lines_text_snoc.
Qed.

Lemma lays_for_each {A} (body : bool → A → F) (f : A → document) first l :
  Forall (λ x, ∀ first, lays path any any (body first x) (f x)) l → lays path any any (for_each body first l) (concat (map f l)).
Proof.
  intros Hl. revert first. induction Hl as [|x l Hx _ IH]; intros first; cbn [for_each map concat]; [apply lays_nothing|].
  by eapply lays_then.
Qed.

Lemma lays_push C C' k m l :
  lays (path ++ [k]) C C' m l → lays path C C' (push_key k >> (m >> pop_key)) l.
Proof.
  intros Hm s d Hs Hk HC. unfold andthen at 1, push_key, with_state, set_path.
  set (s0 := mk_formatter _ _ _ _). destruct (Hm s0 d) as (s1 & d1 & Hs1 & Hw1 & Hl1 & Hk1 & HC1); [done| |done|].
  { unfold s0. cbn. rewrite Hk. unfold segments. by rewrite fmap_app. }
  unfold andthen. rewrite Hs1. eexists _, d1. split; [reflexivity|]. split_and!; try done. cbn. rewrite Hk1. unfold s0. cbn.
  by rewrite removelast_snoc.
Qed.
End lays.

Section document.
Context `{Libm} (flags : format_flags).

(** A value ends its line. *)
Lemma print_node_clears n s s' : writable flags n → print_node flags n s = Wrote s' → naked_newline s' = false.
Proof.
  intros Hw. assert (∀ m b, (m >> set_naked b) s = Wrote s' → naked_newline s' = b) as Hlast.
  { intros m b. unfold andthen. destruct (m s); [|done]. by intros [= <-]. }
  destruct Hw as [n Hw|a els r _ _|a m i r _ _ _ _]; [|by apply Hlast..].
  destruct n as [a m i r|a els r|str r|z fmt r|x r|b r|d r|t r|dt r]; cbn [writable_scalar] in Hw; try done; cbn [print_node print_value]; try by apply Hlast.
  - unfold print_quoted_string. destruct str as [|c str]; [by apply Hlast|]. cbv zeta.
    destruct (if _ || _ then _ else _) as [ml lit]. by apply Hlast.
  - destruct Hw as [Hq _]. unfold print_quotable. rewrite Hq. by apply Hlast.
  - destruct Hw as [Hq _]. unfold print_quotable. rewrite Hq. by apply Hlast.
  - destruct Hw as [Hq _]. unfold print_quotable. rewrite Hq. by apply Hlast.
Qed.

Lemma lays_pair path kv :
  valid_text kv.1 → writable flags kv.2 →
  lays path any any (print_pair flags kv) (if has_header kv.2 then [] else [Pair [kv.1] (strip kv.2)]).
Proof.
  intros Hk Hv. unfold print_pair. fold (has_header kv.2). destruct (has_header kv.2); [apply lays_nothing|].
  do 3 apply lays_assoc. apply (lays_then _ any bare any _ _ [] [_]); [apply lays_newline|]. apply lays_content; [|done].
  intros s _. assert (writes (print_indent >> (print_key_segment kv.1 >> put (bs " = ") >> print_node flags kv.2))
    (λ t, ∃ b t', t = b ++ t' ∧ spaces b ∧ content_text (Pair [kv.1] (strip kv.2)) t')) as Hwr.
  { eapply writes_then; [apply writes_print_indent|]. intros b Hb.
    eapply writes_mono; [apply writes_entry; [done|by apply writes_node]|].
    intros t (kt & tv & -> & Hkt & Htv). eexists b, _. split; [reflexivity|]. split; [done|].
    apply (pair_line false _ kt equals _ tv [10]); [by constructor|apply equals_spaced|done|apply line_feed]. }
  destruct (Hwr s) as (t & s' & Ht & Hs' & Hst & Hkp). exists t, s'. split; [done|].
  assert ((print_indent >> (print_key_segment kv.1 >> (put (bs " = ") >> print_node flags kv.2))) s = Wrote s') as Hs2.
  { revert Hs'. unfold andthen. destruct (print_indent s); [|done]. by destruct (print_key_segment kv.1 _). }
  split; [exact Hs2|]. split_and!; [done|done|]. revert Hs2. unfold andthen.
  destruct (print_indent s) as [s1|]; [|done]. destruct (print_key_segment kv.1 s1) as [s2|]; [|done].
  destruct (put (bs " = ") s2) as [s3|]; [|done]. by apply print_node_clears.
Qed.

(** ** Headers *)
Lemma andthen_wrote m n s s1 : m s = Wrote s1 → (m >> n) s = n s1.
Proof. unfold andthen. by intros ->. Qed.

Lemma andthen_left m m' n s : m s = m' s → (m >> n) s = (m' >> n) s.
Proof. unfold andthen. by intros ->. Qed.

Lemma writes_path_rest path :
  Forall header_key path →
  writes (for_each (λ (first : bool) segment, (if first then nothing else put (bs ".")) >> put segment) false (segments path))
    (λ t, ∀ k kt, key_text k kt → path_text (k :: path) (kt ++ t)).
Proof.
  induction 1 as [|k1 path Hk1 _ IH]; cbn [segments fmap list_fmap for_each].
  - apply writes_silent; [auto with silent|]. intros k kt Hk. rewrite app_nil_r. by constructor.
  - destruct (header_key_segment k1 Hk1) as (t1 & -> & Ht1). apply writes_assoc.
    apply (writes_then _ _ (λ t, t = [U "."])); [by apply (writes_ascii (bs ".")); [ascii|]|]. intros t ->.
    apply (writes_then _ _ (λ t, t = t1)); [by apply (writes_put _ t1)|]. intros t ->.
    eapply writes_mono; [exact IH|]. intros t Ht k kt Hk. apply (path_cons k kt [] []); [done|constructor|constructor|]. by apply Ht.
Qed.

Lemma writes_path path :
  path ≠ [] → Forall header_key path →
  writes (for_each (λ (first : bool) segment, (if first then nothing else put (bs ".")) >> put segment) true (segments path)) (path_text path).
Proof.
  intros Hne Hall. destruct Hall as [|k path' Hk Hpath]; [done|]. cbn [segments fmap list_fmap for_each]. destruct (header_key_segment k Hk) as (t & -> & Ht).
  apply writes_assoc, writes_silent_then; [auto with silent|].
  apply (writes_then _ _ (λ t', t' = t)); [by apply (writes_put _ t)|]. intros t' ->.
  eapply writes_mono; [by apply writes_path_rest|]. intros t' Ht'. by apply Ht'.
Qed.

Lemma lays_header (arr : bool) path :
  path ≠ [] → Forall header_key path →
  lays path bare any (print_header (if arr then bs "[[" else bs "[") (if arr then bs "]]" else bs "]")) [Header arr path].
Proof.
  intros Hne Hpath. apply lays_content; [|done]. intros s Hk.
  set (opening := if arr then bs "[[" else bs "["). set (closing := if arr then bs "]]" else bs "]").
  set (keys := for_each (λ (first : bool) segment, (if first then nothing else put (bs ".")) >> put segment) true (segments path)).
  assert (writes (print_indent >> put opening >> (keys >> clear_naked_newline) >> put closing)
    (λ t, ∃ b t', t = b ++ t' ∧ spaces b ∧ content_text (Header arr path) t')) as Hwr.
  { do 2 apply writes_assoc. eapply writes_then; [apply writes_print_indent|]. intros b Hb.
    apply (writes_then _ _ (λ t, t = zs opening)); [by apply writes_ascii; [unfold opening; destruct arr; ascii|]|]. intros t ->.
    eapply writes_then; [apply writes_then_silent; [by apply writes_path|auto with silent]|]. intros t Ht.
    apply writes_ascii; [unfold closing; destruct arr; ascii|]. eexists b, _. split; [reflexivity|]. split; [done|].
    pose proof (header_line false arr path [] t [] _ (List.Forall_nil _) Ht (List.Forall_nil _) line_feed) as Hl.
    unfold content_text. rewrite app_nil_r in Hl. unfold header_text, opening, closing in *. destruct arr; cbn [brackets fst snd app] in *; by rewrite <- ?app_assoc in *. }
  destruct (Hwr s) as (t & s' & Ht & Hs' & Hst & Hkp). exists t, s'. split; [done|].
  destruct (writes_print_indent s) as (b & s1 & _ & Hs1 & _ & Hk1).
  set (s2 := mk_formatter (stream s1 ++ opening) (indent s1) (naked_newline s1) (key_path s1)).
  assert ((print_indent >> put opening) s = Wrote s2) as Hs2 by (unfold andthen; by rewrite Hs1).
  assert (print_key_path s2 = (keys >> clear_naked_newline) s2) as Hkeys.
  { unfold print_key_path. apply andthen_left. unfold with_state, keys. cbn [key_path s2]. by rewrite Hk1, Hk. }
  assert (print_header opening closing s = Wrote s') as Hs.
  { rewrite <- Hs'. apply andthen_left. by rewrite !(andthen_wrote _ _ _ _ Hs2). }
  split_and!; [done|done|done|]. revert Hs. unfold print_header.
  destruct ((print_indent >> put opening >> print_key_path) s) as [s3|] eqn:Hs3; [|unfold andthen at 1; by rewrite Hs3].
  rewrite (andthen_wrote _ _ _ _ Hs3). intros [= <-]. cbn. revert Hs3. rewrite (andthen_wrote _ _ _ _ Hs2), Hkeys.
  unfold andthen. destruct (keys s2); [|done]. by intros [= <-].
Qed.

(** ** Tables *)
Lemma concat_omap {A B} (P : A → bool) (f : A → B) l :
  omap (λ x, if P x then None else Some (f x)) l = concat (map (λ x, if P x then [] else [f x]) l).
Proof. induction l as [|x l IH]; cbn; [done|]. destruct (P x); cbn; by rewrite IH. Qed.

(** The keys of a table that go into headers. *)
Lemma table_header_key kv m :
  kv ∈ m → Forall (λ kv, valid_text kv.1) m → Forall (λ kv, has_header kv.2 = true → backslash ∉ kv.1) m →
  has_header kv.2 = true → header_key kv.1.
Proof. rewrite !Forall_forall. intros Hkv Hk Hb Hh. split; [by apply Hk|by apply Hb]. Qed.

Definition lays_tables (n : node) : Prop := ∀ path, Forall header_key path → lays path any any (print_table flags n) (section_lines path n).

Lemma lays_child path a m i r k :
  Forall header_key (path ++ [k]) → lays_tables (Table a m i r) →
  lays path any any
    (if i then nothing
     else
       push_key k >>
       (if skip_self m then nothing
        else
          with_state (λ s, if negb (naked_newline s) then print_newline false >> print_newline true else nothing) >>
          increase_indent >> print_header (bs "[") (bs "]") >> print_newline false) >>
       print_table flags (Table a m i r) >>
       pop_key >>
       (if skip_self m then nothing else decrease_indent))
    (table_lines path (k, Table a m i r)).
Proof.
  intros Hpath Ht. unfold table_lines. cbn [fst snd]. destruct i; [apply lays_nothing|].
  rewrite <- (app_nil_r (_ ++ section_lines _ _)). apply (lays_then _ any any any).
  - apply lays_assoc_push, lays_push. apply (lays_then _ any any any); [|by apply Ht].
    destruct (skip_self m); [apply lays_nothing|]. do 2 apply lays_assoc.
    apply (lays_then _ any bare any _ _ [] [_]).
    { intros s d Hs Hk _. unfold with_state. destruct (naked_newline s) eqn:Hn; cbn [negb].
      - exists s, []. by rewrite app_nil_r.
      - by apply (lays_blank_line (path ++ [k])). }
    apply (lays_then _ bare bare any _ _ [] [_]); [apply lays_increase|].
    apply (lays_then _ bare any any _ _ [_] []); [apply (lays_header false); [by destruct path|done]|].
    eapply lays_weaken; [apply lays_newline|done|done].
  - destruct (skip_self m); [apply lays_nothing|apply lays_decrease].
Qed.

Lemma lays_element path v :
  path ≠ [] → Forall header_key path → lays_tables v →
  lays path any any
    (print_newline false >> print_newline true >> print_header (bs "[[") (bs "]]") >> print_newline true >> print_table flags v)
    (Header true path :: section_lines path v).
Proof.
  intros Hne Hpath Hv. do 3 apply lays_assoc. apply (lays_then _ any bare any _ _ []); [apply lays_newline|].
  apply (lays_then _ bare bare any _ _ []); [eapply lays_weaken; [apply lays_newline|done|done]|].
  apply (lays_then _ bare any any _ _ [_]); [by apply (lays_header true)|].
  apply (lays_then _ any any any _ _ []); [eapply lays_weaken; [apply lays_newline|done|done]|]. by apply Hv.
Qed.

Lemma lays_array path a els r k :
  Forall header_key (path ++ [k]) → Forall lays_tables els →
  lays path any any
    (if is_non_inline_array_of_tables (Array a els r) then
       increase_indent >> push_key k >>
       for_each (λ _ v,
         print_newline false >> print_newline true >> print_header (bs "[[") (bs "]]") >> print_newline true >>
         print_table flags v) true els >>
       pop_key >> decrease_indent
     else nothing)
    (array_lines path (k, Array a els r)).
Proof.
  intros Hpath Hels. unfold array_lines. cbn [fst snd]. destruct (is_non_inline_array_of_tables _); [|apply lays_nothing].
  rewrite <- (app_nil_r (concat _)). apply (lays_then _ any any any); [|apply lays_decrease].
  do 2 apply lays_assoc. apply (lays_then _ any any any _ _ []); [apply lays_increase|]. apply lays_push.
  apply lays_for_each. eapply Forall_impl; [exact Hels|]. intros v Hv _. apply lays_element; [by destruct path|done|done].
Qed.

Lemma lays_print_table n : writable flags n → lays_tables n ∧ (∀ a els r, n = Array a els r → Forall lays_tables els).
Proof.
  induction n as [a m i r IH|a els r IH|n Hn] using node_nested_ind; intros Hw.
  - apply writable_table in Hw as (Hasc & Hk & Hb & Hm). split; [|done]. intros path Hpath. cbn [print_table section_lines].
    rewrite concat_omap. apply lays_assoc. apply (lays_then _ any any any); [|apply (lays_then _ any any any)].
    + apply lays_for_each. rewrite Forall_forall in *. intros kv Hkv _. apply lays_pair; auto.
    + apply (lays_for_each _ _ (table_lines path)). apply Forall_forall. intros kv Hkv _. destruct kv as [k v]. cbn [snd].
      destruct v as [a1 m1 i1 r1| | | | | | | |]; try apply lays_nothing. destruct i1; [apply lays_nothing|].
      apply (lays_child path a1 m1 false r1 k).
      * apply Forall_app. split; [done|]. constructor; [|constructor]. by apply (table_header_key _ m Hkv Hk Hb).
      * rewrite Forall_forall in IH, Hm. by apply (IH _ Hkv), (Hm _ Hkv).
    + apply (lays_for_each _ _ (array_lines path)). apply Forall_forall. intros kv Hkv _. destruct kv as [k v]. cbn [snd].
      destruct v as [|a1 els1 r1| | | | | | |]; try apply lays_nothing.
      destruct (is_non_inline_array_of_tables (Array a1 els1 r1)) eqn:Ha.
      2: { unfold array_lines. cbn [fst snd]. rewrite Ha. apply lays_nothing. }
      pose proof (lays_array path a1 els1 r1 k) as Hl. rewrite Ha in Hl. apply Hl.
      * apply Forall_app. split; [done|]. constructor; [|constructor]. apply (table_header_key _ m Hkv Hk Hb).
        unfold has_header. cbn [snd]. by rewrite Ha, orb_true_r.
      * rewrite Forall_forall in IH, Hm. destruct (IH _ Hkv (Hm _ Hkv)) as [_ Hels]. by eapply Hels.
  - apply writable_array in Hw as [_ Hels]. split; [intros path _; apply lays_nothing|]. intros ? ? ? [= -> -> ->].
    rewrite Forall_forall in *. intros v Hv. by apply IH; [|apply Hels].
  - split; [|intros a els r ->; by destruct (proj2 Hn a els r)]. intros path _.
    destruct n; try apply lays_nothing. by destruct (proj1 Hn addr map inline_ src).
Qed.

(** The text of a document. *)
Lemma format_document a m r :
  writable flags (Table a m false r) →
  ∃ d T, format flags (Table a m false r) = inr (encode_text T) ∧ document_text d T ∧ document_meaning d = Some (section_map m).
Proof.
  intros Hw. destruct (lays_print_table _ Hw) as [Hl _]. specialize (Hl [] (List.Forall_nil _)).
  assert (lays [] any bare (decrease_indent >> print_table flags (Table a m false r) >> print_newline false)
    (section_lines [] (Table a m false r))) as Hprint.
  { rewrite <- (app_nil_r (section_lines _ _)). apply (lays_then _ any any bare); [|apply lays_newline].
    apply (lays_then _ any any any _ _ []); [apply lays_decrease|done]. }
  destruct (Hprint attached []) as (s' & d & Hs & (T & HT & Hd) & Hls & _ & Hn); [by exists []; split; [|constructor]|done|done|].
  unfold bare in Hn. rewrite Hn in Hd. exists d, T. unfold format, default_print. rewrite Hs, HT. split_and!; [done|by apply lines_document|].
  rewrite <- (section_document flags a m false r Hw), <- Hls. unfold document_meaning. by rewrite lines_meaning_no_blanks.
Qed.
End document.

(** C15: what [default_formatter] writes is read back. A document whose maps are
    ordered, whose keys and strings are valid UTF-8 and whose values are strings
    on one line, integers in any base, floats that sixteen digits identify,
    infinities and NaNs, booleans, dates, times, date-times, arrays and tables
    nested to any depth (the values that are [writable]), is written without an
    error, whatever the width of the lines and the rounding of the C library's
    [log10]; and [toml::parse_file] of the text returns a document with the same
    tables, keys and values, which [operator==] finds equal to the one written. Not [writable] are: strings with
    line breaks, unless both kinds of strings over several lines and of literal
    strings are switched off; the smallest [int64_t]; floats that need a
    seventeenth digit; dates and times when the flags quote them; arrays with a
    float whose width is undefined; keys of headers that hold a backslash, which the
    formatter does not escape there. *)
Theorem toml_format_roundtrip `{Libm} flags a m r path :
  writable flags (Table a m false r) →
  ∃ text, format flags (Table a m false r) = inr text ∧
    (Z.of_nat (length text) < 2 ^ 64 →
     ∃ m' r' s, parse_file (File text) path = Done (m', r') s ∧ strip_map m' = strip_map m ∧
       ∀ a', node_eq (Table a' m' false r') (Table a m false r) = true).
Proof.
  intros Hw. destruct (format_document flags a m r Hw) as (d & T & Hf & Hd & HM). exists (encode_text T). split; [done|].
  intros Hlen. destruct (parse_file_document d T (section_map m) path Hd HM) as (m' & r' & s & Hp & Hm).
  { pose proof (encode_text_length T). lia. }
  rewrite plain_section_map in Hm. exists m', r', s. split; [done|]. split; [done|]. intros a'. apply node_eq_data.
  - change (DTable (strip_map m') = DTable (strip_map m)). by rewrite Hm.
  - by eapply writable_doubles.
Qed.

(** *** A document *)
Lemma scalar_bytes b : Forall (λ b, U b < 0x80) b → Forall scalar (zs b).
Proof.
  intros Hb. apply Forall_fmap. eapply Forall_impl; [exact Hb|]. intros x Hx. cbn. unfold scalar, U in *.
  pose proof (byte_to_Z_range x). lia.
Qed.

Lemma valid_ascii s : forallb (λ b, U b <? 0x80) s = true → valid_text s.
Proof.
  intros Hs. assert (Forall (λ b, U b < 0x80) s) as Hb.
  { apply List.Forall_forall. rewrite forallb_forall in Hs. intros b Hb. by apply Z.ltb_lt, Hs. }
  exists (zs s). split; [by apply scalar_bytes|]. by rewrite encode_zs.
Qed.

Lemma writable_ascii flags s :
  forallb (λ b, U b <? 0x80) s = true → forallb (λ b, negb (is_line_break true (U b))) s = true → writable_string flags s.
Proof.
  intros Hs Hl. destruct (valid_ascii s Hs) as (cs & Hcs & _). clear cs Hcs. exists (zs s).
  assert (Forall (λ b, U b < 0x80) s) as Hb.
  { apply List.Forall_forall. rewrite forallb_forall in Hs. intros b Hb. by apply Z.ltb_lt, Hs. }
  split; [by apply scalar_bytes|]. split; [by rewrite encode_zs|]. intros _. apply Forall_fmap, List.Forall_forall.
  rewrite forallb_forall in Hl. intros b Hin. cbn. by apply negb_true_iff, Hl.
Qed.

(** A [log10] of values that are not too large. *)
Definition demo_log10 (x : spec_float) : Z :=
  match x with S754_finite _ m e => Z.max 0 (Z.min 400 (exponent10 m e)) | _ => 0 end.

Lemma demo_log10_range x : 0 ≤ demo_log10 x < 2 ^ 64.
Proof. unfold demo_log10. destruct x; lia. Qed.

#[local] Instance demo_libm : Libm := {| trunc_log10 := demo_log10; trunc_log10_int64 z _ := demo_log10_range _ |}.

(** A table with a table, an array of tables, a long array, a key with blanks,
    strings with quotes and escapes, a hexadecimal integer, floats and a time. *)
Definition demo_string (s : string) : node := VString (bs s) no_region.
Definition demo_table (i : bool) (m : string_map node) : node := Table 1 m i no_region.
Definition demo_array (l : list node) : node := Array 1 l no_region.

Definition demo_boards : string_map node := [
  (bs "board", demo_array [
     demo_table false [(bs "name", demo_string "it's"); (bs "port", VInteger (-4711) no_flags no_region)];
     demo_table false [(bs "flags", demo_table true [(bs "x", VBoolean true no_region)]); (bs "sub", demo_table false [])]]);
  (bs "bought", VDateTime (mk_date_time (mk_date 2021 2 28) (mk_time 23 59 59 250000000) (Some (-90))) no_region);
  (bs "limits", demo_array [VFloat (S754_finite true 7036874417766400 (-51)) no_region; VFloat (S754_zero false) no_region]);
  (bs "long one", demo_array (replicate 20 (demo_string "a \ and more")));
  (bs "mask", VInteger 51966 format_as_hexadecimal no_region);
  (bs "reset", VTime (mk_time 3 0 0 0) no_region);
  (bs "sock_dir", demo_string "/run/boards");
  (bs "timeout", VFloat (S754_infinity false) no_region)].

Lemma demo_boards_writable : writable default_flags (Table 1 demo_boards false no_region).
Proof.
  unfold demo_boards, demo_table, demo_array, demo_string.
  repeat first
    [apply writable_Table|apply writable_Array
    |lazymatch goal with
     | |- writable _ (snd _) => cbn [snd]
     | |- measurable (snd _) => cbn [snd]
     | |- writable _ (VString _ _) => apply scalar_writable, writable_ascii; [vm_compute; reflexivity|vm_compute; reflexivity]
     | |- writable _ (VFloat _ _) => apply scalar_writable; split; [vm_compute; reflexivity|first [exact I|vm_compute; reflexivity]]
     | |- writable _ _ => apply scalar_writable; repeat split; vm_compute; congruence
     | |- measurable (Table _ _ _ _) => apply measurable_Table
     | |- measurable (VFloat _ _) => apply measurable_scalar; eexists; vm_compute; reflexivity
     | |- measurable _ => by apply measurable_scalar
     | |- blt _ _ => vm_compute; reflexivity
     | |- has_header _ = true → _ => intros _; apply (bool_decide_unpack _); vm_compute; exact I
     end
    |apply valid_ascii; vm_compute; reflexivity
    |apply List.Forall_nil|apply List.Forall_cons|apply SSorted_nil|apply SSorted_cons
    |apply Forall_replicate].
Qed.

Lemma toml_format_roundtrip_witness : ∃ text m r s,
  format default_flags (Table 1 demo_boards false no_region) = inr text ∧
  parse_file (File text) (bs "out.toml") = Done (m, r) s ∧ strip_map m = strip_map demo_boards ∧
  ∀ a', node_eq (Table a' m false r) (Table 1 demo_boards false no_region) = true.
Proof.
  destruct (toml_format_roundtrip default_flags 1 demo_boards no_region (bs "out.toml") demo_boards_writable) as (text & Hf & Hp).
  assert (match format default_flags (Table 1 demo_boards false no_region) with
          | inr t => Z.of_nat (length t) <? 2 ^ 64 | inl _ => false end = true) as Hlen by (vm_compute; reflexivity).
  rewrite Hf in Hlen. destruct (Hp (proj1 (Z.ltb_lt _ _) Hlen)) as (m & r & s & Hm & Hs).
  exists text, m, r, s. split; [exact Hf|]. split; [exact Hm|exact Hs].
Defined.
