(* ===== verification/Config.v ===== *)
(** * Config: the configuration file ([src/src/config.cpp])

    From the configuration file, through the TOML parser ([TomlDocument.v]), to
    the boards and proxy factories. Besides the exceptions the code throws on
    purpose, it has two error paths that are undefined: those are results of
    their own. *)
From S2P Require Import Prelude Bytes Env Board World TomlNode TomlWrite TomlUtf8 TomlParser TomlDocument TomlTotal.

Local Open Scope Z_scope.

(** ** Results *)
Inductive cres (A : Type) :=
| CRet (a : A)
| CThrow (e : exn)
| CUndef (u : ub).
Arguments CRet {A} _.
Arguments CThrow {A} _.
Arguments CUndef {A} _.

#[global] Instance cres_ret : MRet cres := λ A a, CRet a.
#[global] Instance cres_bind : MBind cres := λ A B k m,
  match m with CRet a => k a | CThrow e => CThrow e | CUndef u => CUndef u end.

(** A [std::runtime_error]. *)
Definition fails {A} (what : bytes) : cres A := CThrow (RuntimeError what).

Section config.
Context `{Env}.

(** The arguments of the template: all entries of the board's table, which must
    be strings. *)
Fixpoint template_args (l : list (bytes * node)) : cres (list (bytes * bytes)) :=
  match l with
  | [] => mret []
  | (k, v) :: l =>
    if is_string v then
      args ← template_args l; mret ((c_str k, value_or_cstr v) :: args)
    else fails (bs "value for " ++ k ++ bs " is not string (at " ++ print_pos (reg_begin (source v)) ++ bs ")")
  end.

(** [get_board_field] *)
Definition get_board_field (key templ : bytes) (board : table) : cres bytes :=
  match view board key with
  | None =>
    args ← template_args board.1;
    match fmt_named templ args with
    | Some r => mret r
    | None => CThrow (FormatError templ)
    end
  | Some n =>
    if is_string n then mret (value_or_cstr n)
    else fails (key ++ bs " is not a string at " ++ print_region board.2)
  end.

(** [create_board]. The two calls of [get_board_field] are arguments of one
    constructor call, their order is unspecified: [ltr] is the compiler's. *)
Definition create_board (ltr : bool) (id command_template close_command_template : bytes) (board : table) :
    cres Board :=
  match view board (bs "ip_address") ≫= value_string with
  | None => fails (bs "no or invalid ip_address for board at " ++ print_pos (reg_begin board.2))
  | Some ip_address =>
    let reserved_for := from_option value_or_cstr [] (view board (bs "reserved_for")) in
    let command := get_board_field (bs "command") command_template board in
    let close_command := get_board_field (bs "close_command") close_command_template board in
    '(cmd, close) ← (if ltr then cmd ← command; close ← close_command; mret (cmd, close)
                     else close ← close_command; cmd ← command; mret (cmd, close));
    mret (Board_new id cmd ip_address close reserved_for)
  end.

(** The loop of [parse_boards]. The error path for an entry that is not a table
    dereferences the null pointer it has just tested. *)
Fixpoint create_boards (ltr : bool) (command_template close_command_template : bytes)
    (l : list (bytes * node)) : cres (list Board) :=
  match l with
  | [] => mret []
  | (key, val) :: l =>
    match as_table val with
    | None => CUndef NullNode
    | Some board =>
      b ← create_board ltr key command_template close_command_template board;
      bds ← create_boards ltr command_template close_command_template l;
      mret (b :: bds)
    end
  end.

(** [cfg[key].value_or(""s)] *)
Definition string_or_empty (cfg : table) (key : bytes) : bytes :=
  default [] (view cfg key ≫= value_string).

(** [parse_boards]. The document is passed by value: what is read is a copy. *)
Definition parse_boards (ltr : bool) (filename : bytes) (cfg : table) : cres (list Board) :=
  let cfg := copy_table cfg in
  match view cfg (bs "boards") ≫= as_table with
  | None => fails (filename ++ bs ": boards is not TOML table")
  | Some boards =>
    create_boards ltr (string_or_empty cfg (bs "command_template"))
      (string_or_empty cfg (bs "close_command_template")) boards.1
  end.

(** The loop of [parse_sockets]. A missing or unfit port dereferences an empty
    [optional]. *)
Fixpoint create_factories (filename : bytes) (l : list (bytes * node)) : cres (list ProxyFactory) :=
  match l with
  | [] => mret []
  | (key, val) :: l =>
    match as_table val with
    | None => CUndef NullNode
    | Some socket =>
      f ← match view socket (bs "type") ≫= value_string with
          | None =>
            fails (filename ++ bs ": sockets." ++ key ++ bs ".type missing (at "
                   ++ print_pos (reg_begin socket.2) ++ bs ")")
          | Some type =>
            if decide (type = bs "tcp") then
              match value_u16 <$> view socket (bs "port") with
              | Some (Some (Some port)) => mret (TcpProxyFactory key port)
              | None | Some (Some None) => CUndef EmptyOptional
              | Some None => CUndef FloatToInt
              end
            else if decide (type = bs "wrproxy") then mret (WrProxyFactory key)
            else
              fails (filename ++ bs ": Unexpected sockets." ++ key ++ bs ".type (at "
                     ++ print_pos (reg_begin socket.2) ++ bs ")")
          end;
      fs ← create_factories filename l;
      mret (f :: fs)
    end
  end.

(** [parse_sockets], of a copy too *)
Definition parse_sockets (filename : bytes) (cfg : table) : cres (list ProxyFactory) :=
  let cfg := copy_table cfg in
  if contains cfg (bs "sockets") then
    match view cfg (bs "sockets") ≫= as_table with
    | None => fails (filename ++ bs ": sockets is not TOML table")
    | Some sockets => create_factories filename sockets.1
    end
  else mret [].

Record Config := mk_config {
  cfg_sock_dir : bytes;
  cfg_boards : list Board;
  cfg_proxy_factories : list ProxyFactory;
}.

(** The members, from the parsed file. *)
Definition config_of_document (ltr : bool) (filename : bytes) (cfg : table) : cres Config :=
  let sock_dir := default [] (view cfg (bs "sock_dir") ≫= value_string) in
  boards ← parse_boards ltr filename cfg;
  proxy_factories ← parse_sockets filename cfg;
  mret (mk_config sock_dir boards proxy_factories).

(** [Config::Config]; [f] is what [filename] names. *)
Definition Config_new (ltr : bool) (filename : bytes) (f : file) : cres Config :=
  if decide (filename = []) then mret (mk_config [] [] [])
  else
    match parse_file f filename with
    | Done cfg _ => config_of_document ltr filename cfg
    | Throws err =>
      match reg_path (pe_source err) with
      | Some path =>
        fails (bs "Error parsing file '" ++ path ++ bs "': " ++ pe_description err
               ++ bs " (" ++ print_pos (reg_begin (pe_source err)) ++ bs ")")
      | None => CUndef NullNode
      end
    | Undefined u => CUndef u
    | OutOfFuel => CUndef FuelExhausted
    end.
End config.

(** ** Specification *)
Section spec.
Context `{Env}.

(** The value of a field: the board's own, or the global template filled with
    the board's entries. *)
Definition field_value (key templ : bytes) (board : table) (r : bytes) : Prop :=
  (∃ s src, view board key = Some (VString s src) ∧ r = c_str s) ∨
  (view board key = None ∧ Forall (λ e, is_string e.2) board.1 ∧
   fmt_named templ ((λ e, (c_str e.1, value_or_cstr e.2)) <$> board.1) = Some r).

(** The board an entry of the [boards] table describes. *)
Definition describes (cfg : table) (entry : bytes * node) (b : Board) : Prop :=
  ∃ t, as_table entry.2 = Some t ∧ b_id b = entry.1 ∧ b_owner b = None ∧
    (∃ src, view t (bs "ip_address") = Some (VString (b_ip_address b) src)) ∧
    field_value (bs "command") (string_or_empty cfg (bs "command_template")) t (b_command b) ∧
    field_value (bs "close_command") (string_or_empty cfg (bs "close_command_template")) t (b_close_command b) ∧
    b_reserved_for b = from_option value_or_cstr [] (view t (bs "reserved_for")).

(** The proxy socket an entry of the [sockets] table describes. *)
Definition describes_socket (entry : bytes * node) (f : ProxyFactory) : Prop :=
  ∃ t type src, as_table entry.2 = Some t ∧ view t (bs "type") = Some (VString type src) ∧
    ((type = bs "tcp" ∧ ∃ n port, view t (bs "port") = Some n ∧ value_u16 n = Some (Some port) ∧
        0 ≤ port < 2 ^ 16 ∧ f = TcpProxyFactory entry.1 port) ∨
     (type = bs "wrproxy" ∧ f = WrProxyFactory entry.1)).

Lemma bind_ret_inv {A B} (m : cres A) (k : A → cres B) b :
  (m ≫= k) = CRet b → ∃ a, m = CRet a ∧ k a = CRet b.
Proof using Type. destruct m; try done. eauto. Qed.

Lemma template_args_ret l args :
  template_args l = CRet args →
  Forall (λ e, is_string e.2) l ∧ args = (λ e, (c_str e.1, value_or_cstr e.2)) <$> l.
Proof using Type.
  revert args. induction l as [|[k v] l IH]; cbn; intros args.
  { intros [= <-]. done. }
  destruct (is_string v) eqn:Hv; [|done]. intros (args' & Ha & [= <-])%bind_ret_inv.
  destruct (IH args' Ha) as [Hl ->]. split; [|done]. constructor; [cbn; by rewrite Hv|done].
Qed.

Lemma is_string_inv n : is_string n = true → ∃ s src, n = VString s src.
Proof using Type. unfold is_string. destruct n; cbn; try done. eauto. Qed.

Lemma get_board_field_ret key templ t r :
  get_board_field key templ t = CRet r → field_value key templ t r.
Proof using Type.
  unfold get_board_field, field_value. destruct (view t key) as [n|].
  - destruct (is_string n) eqn:Hn; [|done]. apply is_string_inv in Hn as (s & src & ->).
    intros [= <-]. left. eauto.
  - intros (args & Ha & Hf)%bind_ret_inv. apply template_args_ret in Ha as [Hl ->].
    destruct (fmt_named _ _) as [r'|] eqn:Hr; [|done]. injection Hf as ->. by right.
Qed.

Lemma value_string_inv (v : option node) s :
  v ≫= value_string = Some s → ∃ src, v = Some (VString s src).
Proof using Type. destruct v as [[]|]; cbn; try done. intros [= ->]. eauto. Qed.

Lemma create_board_ret ltr cfg id t b :
  create_board ltr id (string_or_empty cfg (bs "command_template"))
    (string_or_empty cfg (bs "close_command_template")) t = CRet b →
  ∀ n, as_table n = Some t → describes cfg (id, n) b.
Proof using Type.
  unfold create_board. destruct (_ ≫= value_string) as [ip|] eqn:Hip; [|done].
  apply value_string_inv in Hip as [src Hip].
  intros ([cmd close] & Hf & [= <-])%bind_ret_inv n Hn.
  assert (get_board_field (bs "command") (string_or_empty cfg (bs "command_template")) t = CRet cmd ∧
          get_board_field (bs "close_command") (string_or_empty cfg (bs "close_command_template")) t = CRet close)
    as [H1 H2].
  { destruct ltr; apply bind_ret_inv in Hf as (x & Hx & (y & Hy & [= -> ->])%bind_ret_inv); done. }
  exists t. split_and!; cbn; try done; [eauto| |]; by apply get_board_field_ret.
Qed.

Lemma create_boards_ret ltr cfg l bds :
  create_boards ltr (string_or_empty cfg (bs "command_template"))
    (string_or_empty cfg (bs "close_command_template")) l = CRet bds →
  Forall2 (describes cfg) l bds.
Proof using Type.
  revert bds. induction l as [|[key val] l IH]; cbn [create_boards]; intros bds.
  { intros [= <-]. constructor. }
  destruct (as_table val) as [t|] eqn:Ht; [|done].
  intros (b & Hb & (bds' & Hbds & [= <-])%bind_ret_inv)%bind_ret_inv. constructor; [|auto].
  by eapply create_board_ret.
Qed.

Lemma value_u16_range n port : value_u16 n = Some (Some port) → 0 ≤ port < 2 ^ 16.
Proof using Type.
  assert (∀ z p, node_integer_cast 16 z = Some p → 0 ≤ p < 2 ^ 16) as Hcast.
  { unfold node_integer_cast. intros z p. case_decide as Hz; [done|]. intros [= <-]. lia. }
  destruct n; cbn; try done.
  - intros [= Hp]. by eapply Hcast.
  - destruct (float_integer x) as [z|].
    + case_decide; [|done]. intros [= Hp]. by eapply Hcast.
    + destruct x; try done. by case_decide.
  - intros [= <-]. destruct b; lia.
Qed.

Lemma create_factories_ret filename l fs :
  create_factories filename l = CRet fs → Forall2 describes_socket l fs.
Proof using Type.
  revert fs. induction l as [|[key val] l IH]; cbn [create_factories]; intros fs.
  { intros [= <-]. constructor. }
  destruct (as_table val) as [t|] eqn:Ht; [|done].
  intros (f & Hf & (fs' & Hfs & [= <-])%bind_ret_inv)%bind_ret_inv. constructor; [|auto].
  destruct (view t (bs "type") ≫= value_string) as [type|] eqn:Hty; [|done].
  apply value_string_inv in Hty as [src Hty]. exists t, type, src. split_and!; [done..|].
  case_decide; [left|].
  - split; [done|]. destruct (view t (bs "port")) as [n|]; [|done]. cbn in Hf.
    destruct (value_u16 n) as [[port|]|] eqn:Hp; [|done..]. injection Hf as <-.
    exists n, port. split_and!; try done; by eapply value_u16_range.
  - case_decide; [|done]. injection Hf as <-. by right.
Qed.

Lemma describes_ids cfg l bds : Forall2 (describes cfg) l bds → b_id <$> bds = l.*1.
Proof using Type. induction 1 as [|e b l bds (t & _ & He & _) _ IH]; cbn; [done|]. by rewrite He, IH. Qed.

Lemma describes_names l fs : Forall2 describes_socket l fs → sock_name <$> fs = l.*1.
Proof using Type.
  induction 1 as [|e f l fs (t & ty & src & _ & _ & Hf) _ IH]; cbn; [done|]. rewrite IH. f_equal.
  by destruct Hf as [(_ & n & port & _ & _ & _ & ->)|(_ & ->)].
Qed.

Lemma ascending_get (cfg : table) key a m i r :
  Forall (λ kv, ordered kv.2) cfg.1 → view cfg key = Some (Table a m i r) → ascending m.
Proof using Type.
  unfold view. induction 1 as [|[k v] l Hv _ IH]; cbn [do_get]; [done|].
  case_decide; [|done]. intros [= ->]. apply Hv.
Qed.

(** What a copy describes, the original does. *)
Lemma view_copy_string t key s src :
  view (copy_table t) key = Some (VString s src) → ∃ src', view t key = Some (VString s src').
Proof using Type. rewrite view_copy. destruct (view t key) as [[]|]; try done. intros [= -> _]. eauto. Qed.

Lemma string_or_empty_copy cfg key : string_or_empty (copy_table cfg) key = string_or_empty cfg key.
Proof using Type. unfold string_or_empty. rewrite view_copy. by destruct (view cfg key) as [[]|]. Qed.

Lemma field_value_copy key templ t r : field_value key templ (copy_table t) r → field_value key templ t r.
Proof using Type.
  intros [(s & src & Hv & ->)|(Hv & Hs & Hf)].
  - left. apply view_copy_string in Hv as [src' Hv]. eauto.
  - right. rewrite view_copy in Hv. split; [by destruct (view t key)|]. unfold copy_table, copy_map in Hs, Hf.
    cbn [fst] in Hs, Hf. split.
    + apply (Forall_fmap (λ kv : bytes * node, (kv.1, copy_node kv.2))) in Hs. eapply Forall_impl; [exact Hs|].
      intros e. cbn. by rewrite is_string_copy.
    + rewrite <- Hf. f_equal. clear. induction t.1 as [|[k n] l IH]; cbn; [done|]. by rewrite value_or_cstr_copy, IH.
Qed.

Lemma describes_copy cfg k n b : describes (copy_table cfg) (k, copy_node n) b → describes cfg (k, n) b.
Proof using Type.
  intros (t' & Ht & Hid & Ho & [src Hip] & Hcmd & Hclose & Hres). cbn [fst snd] in *. rewrite as_table_copy in Ht.
  destruct (as_table n) as [t|] eqn:Hn; [|done]. injection Ht as <-. exists t. rewrite !string_or_empty_copy in *.
  split_and!; try done.
  - by apply view_copy_string in Hip.
  - by apply field_value_copy.
  - by apply field_value_copy.
  - rewrite Hres, view_copy. destruct (view t (bs "reserved_for")); [|done]. apply value_or_cstr_copy.
Qed.

Lemma describes_socket_copy k n f : describes_socket (k, copy_node n) f → describes_socket (k, n) f.
Proof using Type.
  intros (t' & type & src & Ht & Hty & Hf). cbn [fst snd] in *. rewrite as_table_copy in Ht.
  destruct (as_table n) as [t|] eqn:Hn; [|done]. injection Ht as <-. apply view_copy_string in Hty as [src' Hty].
  exists t, type, src'. split_and!; [done..|]. destruct Hf as [(Hty' & n' & port & Hv & Hp & Hr & ->)|]; [left|by right].
  rewrite view_copy in Hv. destruct (view t (bs "port")) as [n0|] eqn:Hn0; [|done]. injection Hv as <-.
  rewrite value_u16_copy in Hp. split; [done|]. by exists n0, port.
Qed.

Lemma parse_boards_ret ltr filename cfg bds :
  parse_boards ltr filename cfg = CRet bds →
  ∃ a m i r, view cfg (bs "boards") = Some (Table a m i r) ∧ Forall2 (describes cfg) m bds.
Proof using Type.
  unfold parse_boards. rewrite view_copy. destruct (view cfg (bs "boards")) as [[a m i r| | | | | | | |]|]; try done.
  cbn -[copy_table]. intros Hb%create_boards_ret. exists a, m, i, r. split; [done|]. apply (Forall2_fmap_l (λ kv : bytes * node, (kv.1, copy_node kv.2))) in Hb.
  eapply Forall2_impl; [exact Hb|]. intros [k n] b. apply describes_copy.
Qed.

Lemma parse_sockets_ret filename cfg fs :
  parse_sockets filename cfg = CRet fs →
  (view cfg (bs "sockets") = None ∧ fs = []) ∨
  ∃ a m i r, view cfg (bs "sockets") = Some (Table a m i r) ∧ Forall2 describes_socket m fs.
Proof using Type.
  unfold parse_sockets, contains. fold (view (copy_table cfg) (bs "sockets")). rewrite view_copy.
  destruct (view cfg (bs "sockets")) as [[a m i r| | | | | | | |]|]; cbn; try done.
  - intros Hf%create_factories_ret. right. exists a, m, i, r. split; [done|]. apply (Forall2_fmap_l (λ kv : bytes * node, (kv.1, copy_node kv.2))) in Hf.
    eapply Forall2_impl; [exact Hf|]. intros [k n] f. apply describes_socket_copy.
  - intros [= <-]. by left.
Qed.

(** A configuration that is read from a file comes from a document. *)
Lemma Config_new_ret ltr filename f c :
  filename ≠ [] → Config_new ltr filename f = CRet c →
  ∃ cfg s, parse_file f filename = Done cfg s ∧ Forall (λ kv, ordered kv.2) cfg.1 ∧
    parse_boards ltr filename cfg = CRet (cfg_boards c) ∧ parse_sockets filename cfg = CRet (cfg_proxy_factories c).
Proof using Type.
  intros Hf Hc. unfold Config_new in Hc. rewrite decide_False in Hc by done.
  pose proof (parse_file_ends f filename) as Hends.
  destruct (parse_file f filename) as [cfg s|err|u|]; [|by destruct (reg_path (pe_source err))|done..].
  exists cfg, s. split; [done|]. split; [apply Hends|]. unfold config_of_document in Hc.
  by apply bind_ret_inv in Hc as (bds & Hb & (fs & Hs & [= <-])%bind_ret_inv).
Qed.

(** Its boards are free, and the names of boards and of sockets are different. *)
Lemma Config_new_names ltr filename f c :
  Config_new ltr filename f = CRet c →
  Forall (λ b, b_owner b = None) (cfg_boards c) ∧ NoDup (b_id <$> cfg_boards c) ∧
  NoDup (sock_name <$> cfg_proxy_factories c).
Proof using Type.
  intros Hc. destruct (decide (filename = [])) as [->|Hf].
  { injection Hc as <-. by split_and!; constructor. }
  apply Config_new_ret in Hc as (cfg & s & _ & Hord & Hb & Hs); [|done].
  apply parse_boards_ret in Hb as (a & bm & i & r & Hv & Hb). split_and!.
  - clear -Hb. induction Hb as [|e b l bds (t & _ & _ & Ho & _) _ IH]; by constructor.
  - rewrite (describes_ids _ _ _ Hb). eapply ascending_NoDup, ascending_get; eauto.
  - apply parse_sockets_ret in Hs as [[_ ->]|(sa & sm & si & sr & Hsv & Hs)]; [constructor|].
    rewrite (describes_names _ _ Hs). eapply ascending_NoDup, ascending_get; eauto.
Qed.

(** C11: the configuration file says what the daemon runs: from any file, a
    successful [Config] comes from a document in which [boards] is a table, and
    it has exactly one board per entry of that table, in the order of their
    names and with different names, each free and with the address, reservation
    and commands the entry (or the global template) gives; and one proxy socket
    per entry of [sockets], with different names and 16-bit ports, or none
    without that table. *)
Theorem config_describes_daemon ltr filename f c :
  filename ≠ [] → Config_new ltr filename f = CRet c →
  ∃ cfg s a bm i r, parse_file f filename = Done cfg s ∧ view cfg (bs "boards") = Some (Table a bm i r) ∧
    Forall2 (describes cfg) bm (cfg_boards c) ∧ NoDup (b_id <$> cfg_boards c) ∧
    Forall (λ b, b_owner b = None) (cfg_boards c) ∧
    ((view cfg (bs "sockets") = None ∧ cfg_proxy_factories c = []) ∨
     ∃ a sm i r, view cfg (bs "sockets") = Some (Table a sm i r) ∧
       Forall2 describes_socket sm (cfg_proxy_factories c)) ∧
    NoDup (sock_name <$> cfg_proxy_factories c).
Proof using Type.
  intros Hf Hc. destruct (Config_new_names _ _ _ _ Hc) as (Hfree & Hids & Hnames).
  apply Config_new_ret in Hc as (cfg & s & Hp & _ & Hb & Hs); [|done].
  apply parse_boards_ret in Hb as (a & bm & i & r & Hv & Hb). exists cfg, s, a, bm, i, r.
  split_and!; try done. by eapply parse_sockets_ret.
Qed.
End spec.

(** ** Where the constructor is defined *)
Section defined.
Context `{Env}.

Definition is_table_entry (e : bytes * node) : Prop := is_Some (as_table e.2).

Definition is_socket_entry (e : bytes * node) : Prop :=
  ∃ t, as_table e.2 = Some t ∧
    (view t (bs "type") ≫= value_string = Some (bs "tcp") →
     ∃ n port, view t (bs "port") = Some n ∧ value_u16 n = Some (Some port)).

Definition defined {A} (m : cres A) : Prop := ∀ u, m ≠ CUndef u.

Lemma defined_bind {A B} (m : cres A) (k : A → cres B) :
  defined m → (∀ a, defined (k a)) → defined (m ≫= k).
Proof using Type. intros Hm Hk. destruct m as [a|e|u]; [apply Hk|done|by destruct (Hm u)]. Qed.

Lemma defined_ret {A} (a : A) : defined (mret a).
Proof using Type. done. Qed.

Lemma get_board_field_defined key templ t : defined (get_board_field key templ t).
Proof using Type.
  unfold get_board_field. destruct (view t key) as [n|]; [by destruct (is_string n)|].
  apply defined_bind; [|intros args; by destruct (fmt_named _ _)].
  induction t.1 as [|[k v] l IH]; cbn; [done|]. destruct (is_string v); [|done]. by apply defined_bind.
Qed.

Lemma create_boards_defined ltr ct cct l :
  Forall is_table_entry l → defined (create_boards ltr ct cct l).
Proof using Type.
  induction 1 as [|[key val] l [t Ht] _ IH]; cbn [create_boards]; [done|]. cbn in Ht. rewrite Ht.
  apply defined_bind; [|intros b; by apply defined_bind].
  unfold create_board. destruct (_ ≫= value_string); [|done].
  apply defined_bind; [|by intros []].
  destruct ltr; repeat (apply defined_bind; [apply get_board_field_defined|intros]); done.
Qed.

Lemma create_factories_defined filename l :
  Forall is_socket_entry l → defined (create_factories filename l).
Proof using Type.
  induction 1 as [|[key val] l (t & Ht & Hport) _ IH]; cbn [create_factories]; [done|].
  cbn [snd] in Ht. rewrite Ht. apply defined_bind; [|intros f; by apply defined_bind].
  destruct (view t (bs "type") ≫= value_string) as [type|]; [|done]. case_decide; [|by case_decide].
  destruct Hport as (n & port & -> & Hp); [by subst|]. cbn [fmap option_fmap option_map]. by rewrite Hp.
Qed.

Lemma is_table_entry_copy m : Forall is_table_entry m → Forall is_table_entry (copy_map m).
Proof using Type.
  intros Hm. apply Forall_fmap. eapply Forall_impl; [exact Hm|]. intros [k n] [t Ht]. exists (copy_table t). cbn in *.
  by rewrite as_table_copy, Ht.
Qed.

Lemma is_socket_entry_copy m : Forall is_socket_entry m → Forall is_socket_entry (copy_map m).
Proof using Type.
  intros Hm. apply Forall_fmap. eapply Forall_impl; [exact Hm|]. intros [k n] (t & Ht & Hport). exists (copy_table t).
  cbn [fst snd] in *. rewrite as_table_copy, Ht. split; [done|]. rewrite !view_copy. intros Hty. destruct Hport as (p & port & Hp & Hv).
  { destruct (view t (bs "type")) as [ty|]; [|done]. cbn in *. by rewrite value_string_copy in Hty. }
  exists (copy_node p), port. rewrite Hp. by rewrite value_u16_copy.
Qed.

(** C38: with a file in which every entry of [boards] and [sockets] is a table
    and every TCP socket has a 16-bit port, the constructor of [Config] ends as
    intended, with a configuration or an exception, unless the TOML parser
    overflows a number; in particular a file that is no TOML document at all is
    always reported as an exception. *)
Theorem config_defined ltr filename f u :
  (∀ cfg s a m i r, parse_file f filename = Done cfg s → view cfg (bs "boards") = Some (Table a m i r) →
     Forall is_table_entry m) →
  (∀ cfg s a m i r, parse_file f filename = Done cfg s → view cfg (bs "sockets") = Some (Table a m i r) →
     Forall is_socket_entry m) →
  Config_new ltr filename f = CUndef u → u = BufferOverflow ∨ u = SignedOverflow.
Proof using Type.
  intros Hb Hs. unfold Config_new. case_decide as Hf; [done|]. pose proof (parse_file_ends f filename) as Hends.
  destruct (parse_file f filename) as [cfg s|err|u'|]; [|by rewrite (Hends Hf)|by intros [= <-]|done].
  intros Hu. exfalso. revert u Hu. change (defined (config_of_document ltr filename cfg)).
  unfold config_of_document. apply defined_bind.
  - unfold parse_boards. rewrite view_copy. destruct (view cfg (bs "boards")) as [[]|] eqn:Hv; try done.
    by eapply create_boards_defined, is_table_entry_copy, Hb.
  - intros bds. apply defined_bind; [|done]. unfold parse_sockets, contains.
    fold (view (copy_table cfg) (bs "sockets")). rewrite view_copy.
    destruct (view cfg (bs "sockets")) as [[]|] eqn:Hv; try done.
    by eapply create_factories_defined, is_socket_entry_copy, Hs.
Qed.

(** the error messages for wrong entries are never seen: an entry of
    [boards] that is not a table makes the code build its message through the
    null pointer it has just found, and a TCP socket without a port (or with one
    out of range) dereferences an empty optional. *)
Theorem config_error_paths_undefined ltr filename f cfg s a m i r k n l :
  filename ≠ [] → parse_file f filename = Done cfg s →
  (view cfg (bs "boards") = Some (Table a m i r) → m = (k, n) :: l → as_table n = None →
   Config_new ltr filename f = CUndef NullNode) ∧
  (∀ t, parse_boards ltr filename cfg = CRet [] →
   view cfg (bs "sockets") = Some (Table a m i r) → m = (k, n) :: l → as_table n = Some t →
   view t (bs "type") ≫= value_string = Some (bs "tcp") →
   view t (bs "port") = None ∨ (∃ z fl src, view t (bs "port") = Some (VInteger z fl src) ∧ 2 ^ 16 ≤ z) →
   Config_new ltr filename f = CUndef EmptyOptional).
Proof using Type.
  intros Hf Hp. unfold Config_new. rewrite decide_False, Hp by done. unfold config_of_document. split.
  - intros Hb -> Hn. unfold parse_boards. rewrite view_copy, Hb. cbn. by rewrite as_table_copy, Hn.
  - intros t Hpb Hs -> Hn Hty Hport. rewrite Hpb. unfold parse_sockets, contains.
    fold (view (copy_table cfg) (bs "sockets")). rewrite view_copy, Hs. cbn -[view bs copy_table].
    rewrite as_table_copy, Hn. cbn [fmap option_fmap option_map]. rewrite !view_copy.
    destruct (view t (bs "type")) as [ty|]; [|done]. cbn -[view bs]. rewrite value_string_copy. cbn in Hty. rewrite Hty.
    rewrite decide_True by done. destruct Hport as [->|(z & fl & src & -> & Hz)]; [done|].
    cbn -[Z.pow]. unfold node_integer_cast. by rewrite decide_True by lia.
Qed.

(** where the file is wrong, the message does not say: the functions that
    read it get copies of the document, and a copy has no position. Whatever the
    place of a board without an address, it is reported at line 0, column 0. *)
Theorem config_error_position_lost ltr filename f cfg s a k ab mb ib rb l i r :
  filename ≠ [] → parse_file f filename = Done cfg s →
  view cfg (bs "boards") = Some (Table a ((k, Table ab mb ib rb) :: l) i r) →
  do_get mb (bs "ip_address") ≫= value_string = None →
  Config_new ltr filename f =
    CThrow (RuntimeError (bs "no or invalid ip_address for board at line 0, column 0")).
Proof using Type.
  intros Hf Hp Hb Hip. unfold Config_new. rewrite decide_False, Hp by done. unfold config_of_document, parse_boards.
  rewrite view_copy, Hb. cbn -[bs create_board]. unfold create_board.
  change (map _ mb, no_region) with (copy_table (mb, rb)). rewrite view_copy. unfold view. cbn [fst].
  destruct (do_get mb (bs "ip_address")) as [n|]; [|done]. cbn -[bs]. rewrite value_string_copy. cbn in Hip. by rewrite Hip.
Qed.
End defined.

(** ** Instances: the configuration file of the tests, with a proxy socket *)

(** The text of a file; its quotation marks are written as [`]. *)
Definition file_text (lines : list bytes) : file :=
  File ((λ b, if decide (b = "`"%byte) then byte_of_Z 34 else b) <$> concat ((λ l, l ++ [byte_of_Z 10]) <$> lines)).

(** [configs/test.toml], the second board reserved and a TCP proxy added. *)
Definition test_toml (boards sockets : list bytes) : file :=
  file_text (
    [bs "sock_dir = `/tmp/bp_test`"; []; bs "close_command_template = `echo XXX Closing {ip_address}`"; []]
    ++ boards ++ sockets).

Definition test_boards : list bytes :=
  [bs "[boards.brd1]"; bs "command = `bash -c 'echo This is board 1; exec sleep inf'`"; bs "ip_address = `127.0.0.1`"; [];
   bs "[boards.brd2]"; bs "command = `bash -c 'echo This is board 2; exec sleep inf'`"; bs "ip_address = `127.0.0.2`";
   bs "close_command = `sh -c 'echo Bye bye; sleep 10; exit 1'`"; bs "reserved_for = 'alice' # until \u20AC"].
Definition test_sockets : list bytes := [bs "[sockets]"; bs "www = { type = `tcp`, port = 8_0 }"].
Definition test_file : file := test_toml test_boards test_sockets.

(** The first board gets its close command from the template. *)
Definition demo_config : Config :=
  mk_config (bs "/tmp/bp_test")
    [Board_new (bs "brd1") (bs "bash -c 'echo This is board 1; exec sleep inf'") (bs "127.0.0.1")
       (bs "echo XXX Closing 127.0.0.1") [];
     Board_new (bs "brd2") (bs "bash -c 'echo This is board 2; exec sleep inf'") (bs "127.0.0.2")
       (bs "sh -c 'echo Bye bye; sleep 10; exit 1'") (bs "alice")]
    [TcpProxyFactory (bs "www") 80].

Lemma config_describes_daemon_witness :
  @Config_new demo_env true (bs "test.toml") test_file = CRet demo_config ∧
  NoDup (b_id <$> cfg_boards demo_config) ∧ NoDup (sock_name <$> cfg_proxy_factories demo_config).
Proof.
  assert (@Config_new demo_env true (bs "test.toml") test_file = CRet demo_config)
    as Hc by (vm_compute; reflexivity).
  split; [exact Hc|].
  destruct (@config_describes_daemon demo_env true (bs "test.toml") test_file demo_config)
    as (cfg & s & a & bm & i & r & _ & _ & _ & H1 & _ & _ & H2); [discriminate|exact Hc|].
  split; [exact H1|exact H2].
Defined.

(** The document of a file. *)
Definition document (f : file) : option table :=
  match parse_file f (bs "test.toml") with Done t _ => Some t | _ => None end.

Lemma document_Done f t s : parse_file f (bs "test.toml") = Done t s → document f = Some t.
Proof. unfold document. by intros ->. Qed.

Definition table_at (f : file) (key : bytes) : option (string_map node) :=
  match document f ≫= λ t, view t key with Some (Table _ m _ _) => Some m | _ => None end.

Lemma table_at_Some f cfg s key a m i r :
  parse_file f (bs "test.toml") = Done cfg s → view cfg key = Some (Table a m i r) → table_at f key = Some m.
Proof. intros Hp Hv. unfold table_at. rewrite (document_Done _ _ _ Hp). cbn [mbind option_bind]. by rewrite Hv. Qed.

Lemma config_defined_witness :
  @Config_new demo_env true (bs "test.toml") test_file ≠ CUndef NullNode ∧ is_Some (document test_file).
Proof.
  split; [|eexists; vm_compute; reflexivity].
  intros H. eapply (@config_defined demo_env true (bs "test.toml") test_file) in H as [H|H]; [discriminate..| |].
  - intros cfg s a m i r Hp Hv. pose proof (table_at_Some _ _ _ _ _ _ _ _ Hp Hv) as Hm. clear Hp Hv.
    vm_compute in Hm. injection Hm as <-. repeat constructor; by eexists.
  - intros cfg s a m i r Hp Hv. pose proof (table_at_Some _ _ _ _ _ _ _ _ Hp Hv) as Hm. clear Hp Hv.
    vm_compute in Hm. injection Hm as <-. constructor; [|constructor].
    eexists. split; [reflexivity|]. intros _. eexists (VInteger 80 _ _), 80. split; [reflexivity|vm_compute; reflexivity].
Defined.

Definition board_without_address : file := test_toml [bs "[boards.brd1]"; bs "ip = '10.0.0.1'"] [].

Lemma config_error_position_lost_witness :
  @Config_new demo_env true (bs "test.toml") board_without_address =
    CThrow (RuntimeError (bs "no or invalid ip_address for board at line 0, column 0")).
Proof.
  eapply (@config_error_position_lost demo_env true (bs "test.toml")); [discriminate|vm_compute; reflexivity..].
Defined.

Definition board_is_string : file := test_toml [bs "[boards]"; bs "brd1 = 'x'"] [].
Definition port_missing : file := test_toml [bs "[boards]"] [bs "[sockets.www]"; bs "type = 'tcp'"].

Lemma config_error_paths_undefined_witness :
  @Config_new demo_env true (bs "test.toml") board_is_string = CUndef NullNode ∧
  @Config_new demo_env true (bs "test.toml") port_missing = CUndef EmptyOptional.
Proof.
  split.
  - eapply (@config_error_paths_undefined demo_env true (bs "test.toml"));
      [discriminate|vm_compute; reflexivity..].
  - eapply (@config_error_paths_undefined demo_env true (bs "test.toml"));
      [discriminate|vm_compute; reflexivity..|left; vm_compute; reflexivity].
Defined.
