(* ===== verification/Main.v ===== *)
(** * Main: the command line and [main] ([src/src/boardproxy.cpp]) *)
From S2P Require Import Prelude Bytes Protocol Env Board World Session Daemon Static Allocation Invariant Demo Os UnixSocket Startup Client.
From S2P Require Import TomlNode TomlDocument Config.

Local Open Scope Z_scope.

(** ** Options *)
Record opts := mk_opts {
  opt_config : bytes;
  opt_daemon : bool;
  opt_name : bytes;
  opt_sock_dir : bytes;
  opt_list_sessions : bool;
  opt_allow_set_authorized_keys : bool;
  opt_no_wait : bool;
}.

Definition no_opts : opts := mk_opts [] false [] [] false false false.

(** The keys argp calls the parser with. *)
Inductive opt_key :=
| KeyConfig | KeyDaemon | KeyListSessions | KeyName | KeySockDir
| OPT_ALLOW_SET_AUTHORIZED_KEYS | OPT_NO_WAIT
| ARGP_KEY_ARG (arg_num : nat)
| ARGP_KEY_END
| KeyOther.

(** [parse_opt] returns 0 or [ARGP_ERR_UNKNOWN], or [argp_error] ends the
    process. *)
Inductive opt_res :=
| OptOk (o : opts)
| OptUnknown (o : opts)
| OptError (msg : bytes).

Definition parse_opt (key : opt_key) (arg : bytes) (o : opts) : opt_res :=
  match key with
  | KeyConfig =>
    OptOk (mk_opts arg (opt_daemon o) (opt_name o) (opt_sock_dir o) (opt_list_sessions o)
             (opt_allow_set_authorized_keys o) (opt_no_wait o))
  | KeyDaemon =>
    OptOk (mk_opts (opt_config o) true (opt_name o) (opt_sock_dir o) (opt_list_sessions o)
             (opt_allow_set_authorized_keys o) (opt_no_wait o))
  | KeyListSessions =>
    OptOk (mk_opts (opt_config o) (opt_daemon o) (opt_name o) (opt_sock_dir o) true
             (opt_allow_set_authorized_keys o) (opt_no_wait o))
  | KeyName =>
    OptOk (mk_opts (opt_config o) (opt_daemon o) arg (opt_sock_dir o) (opt_list_sessions o)
             (opt_allow_set_authorized_keys o) (opt_no_wait o))
  | KeySockDir =>
    OptOk (mk_opts (opt_config o) (opt_daemon o) (opt_name o) arg (opt_list_sessions o)
             (opt_allow_set_authorized_keys o) (opt_no_wait o))
  | OPT_ALLOW_SET_AUTHORIZED_KEYS =>
    OptOk (mk_opts (opt_config o) (opt_daemon o) (opt_name o) (opt_sock_dir o) (opt_list_sessions o)
             true (opt_no_wait o))
  | OPT_NO_WAIT =>
    OptOk (mk_opts (opt_config o) (opt_daemon o) (opt_name o) (opt_sock_dir o) (opt_list_sessions o)
             (opt_allow_set_authorized_keys o) true)
  | ARGP_KEY_ARG arg_num =>
    if decide (arg_num = 0%nat) then
      OptOk (mk_opts (opt_config o) (opt_daemon o) (opt_name o) arg (opt_list_sessions o)
               (opt_allow_set_authorized_keys o) (opt_no_wait o))
    else OptUnknown o
  | ARGP_KEY_END =>
    if decide (opt_daemon o ∧ opt_name o ≠ []) then OptError (bs "--name is not allowed with --daemon")
    else if decide (opt_daemon o ∧ opt_list_sessions o) then
      OptError (bs "--list-sessions is not allowed with --daemon")
    else if decide (opt_allow_set_authorized_keys o ∧ opt_daemon o) then
      OptError (bs "--allow_set_authorized_keys is not allowed with --daemon")
    else if decide (opt_daemon o ∧ opt_no_wait o) then OptError (bs "--no-wait is not allowed with --daemon")
    else OptUnknown o
  | KeyOther => OptUnknown o
  end.

(** [argp_parse]: the options and arguments in order, then the end. A second
    argument nobody handles ends the process with a usage message. *)
Fixpoint argp_parse (args : list (opt_key * bytes)) (o : opts) : option opts :=
  match args with
  | [] =>
    match parse_opt ARGP_KEY_END [] o with
    | OptOk o | OptUnknown o => Some o
    | OptError _ => None
    end
  | (key, arg) :: args =>
    match parse_opt key arg o with
    | OptOk o => argp_parse args o
    | OptUnknown _ | OptError _ => None
    end
  end.

(** ** The process *)

(** What becomes of the process: it ends with the value [main] returns, or it
    runs the event loop of the daemon or of the client. *)
Inductive outcome :=
| Exited (code : Z)
| DaemonRuns (w : world) (client_listener : UnixSocket) (listeners : list UnixSocket)
| ClientRuns (c : Client)
| Undefined (u : ub).

(** The exit status the parent process sees of a returned value. *)
Definition exit_status (code : Z) : Z := u8 code.

Section main.
Context `{Env} `{Kernel}.

Definition set_keys_script : bytes :=
  bs "umask 077 && cd && mkdir -m 700 -p .ssh && f=$(mktemp .ssh/authorized_keys.XXXXXX); cat > $f && mv --backup=numbered $f .ssh/authorized_keys".

(** [handle_ssh_command] *)
Definition handle_ssh_command (command : bytes) : OS outcome :=
  if decide (command = bs "set-authorized-keys") then
    '(ret, _) ← sys (System set_keys_script);
    if decide (ret = -1) then mret (Exited 1) else mret (Exited ret)
  else
    _ ← sys (Say STDERR_FILENO (bs "Unsupported command: " ++ c_str command)); mret (Exited 1).

(** Code in the [try] block: an exception is logged and [main] returns 1. *)
Definition catching (m : OS outcome) : OS outcome := λ h,
  match m h with
  | (inl o, h') => (inl o, h')
  | (inr e, h') => (inl (Exited 1), h')
  end.

Definition lift_cres {A} (m : cres A) (k : A → OS outcome) : OS outcome :=
  match m with
  | CRet a => k a
  | CThrow e => os_throw e
  | CUndef u => mret (Undefined u)
  end.

(** [main] after [argp_parse]. [ssh] is the value of [SSH_ORIGINAL_COMMAND],
    [f] what the name of the configuration file leads to. *)
Definition main (o : opts) (ssh : option bytes) (ltr : bool) (f : file) (pad : bytes) :
    OS outcome :=
  match (if opt_allow_set_authorized_keys o then ssh else None) with
  | Some ssh_original_command => handle_ssh_command ssh_original_command
  | None =>
    catching (lift_cres (Config_new ltr (opt_config o) f) (λ cfg,
      let sock_dir := if decide (opt_sock_dir o ≠ []) then opt_sock_dir o else cfg_sock_dir cfg in
      if decide (sock_dir = []) then
        os_throw (RuntimeError (bs "sock_dir not specified. Specify it either on command line or in the config file."))
      else if opt_daemon o then
        '(w, c, ls) ← Daemon_new sock_dir (cfg_boards cfg) (cfg_proxy_factories cfg);
        mret (DaemonRuns w c ls)
      else
        let command := if opt_list_sessions o then list_sessions else connect in
        c ← Client_new sock_dir command (opt_name o) (opt_no_wait o) pad;
        mret (ClientRuns c)))
  end.

(** ** Theorems *)

(** options of the client are refused with [--daemon]: whatever the order of
    the options on the command line, when the parser accepts it for the daemon,
    none of the client's options was given. *)
Theorem daemon_options_exclusive args o :
  argp_parse args no_opts = Some o → opt_daemon o = true →
  opt_name o = [] ∧ opt_list_sessions o = false ∧ opt_allow_set_authorized_keys o = false ∧
  opt_no_wait o = false.
Proof using Type.
  generalize no_opts. induction args as [|[key arg] args IH]; intros o0; cbn [argp_parse].
  - unfold parse_opt. repeat case_decide; intros [= ->] Hd; [done..|].
    rewrite Hd in *. split_and!.
    + destruct (opt_name o); [done|]. exfalso. auto.
    + destruct (opt_list_sessions o); [exfalso; auto|done].
    + destruct (opt_allow_set_authorized_keys o); [exfalso; auto|done].
    + destruct (opt_no_wait o); [exfalso; auto|done].
  - destruct (parse_opt key arg o0); [apply IH|done..].
Qed.

(** A process that runs the daemon's loop. *)
Lemma main_daemon ltr o ssh f pad h w c ls h' :
  main o ssh ltr f pad h = (inl (DaemonRuns w c ls), h') →
  opt_daemon o = true ∧
  ∃ cfg, Config_new ltr (opt_config o) f = CRet cfg ∧
    (opt_sock_dir o ≠ [] ∨ cfg_sock_dir cfg ≠ []) ∧
    w_boards w = cfg_boards cfg ∧ w_listeners w = cfg_proxy_factories cfg ∧
    initial w ∧ NoDup (b_id <$> w_boards w) ∧ NoDup (sock_name <$> w_listeners w).
Proof using Type.
  unfold main. destruct (if opt_allow_set_authorized_keys o then ssh else None) as [cmd|].
  { unfold handle_ssh_command. case_decide; [|done].
    unfold mbind, OS_bind, sys. destruct (kernel h (System set_keys_script)) as [ret err]. by case_decide. }
  unfold catching, lift_cres. destruct (Config_new ltr (opt_config o) f) as [cfg|e|u] eqn:Hcfg; [|done..].
  set (dir := if decide (opt_sock_dir o ≠ []) then opt_sock_dir o else cfg_sock_dir cfg).
  case_decide as Hdir; [done|]. destruct (opt_daemon o).
  - pose proof (Daemon_new_world dir (cfg_boards cfg) (cfg_proxy_factories cfg) h) as Hw.
    unfold os_wp in Hw. unfold mbind, OS_bind.
    destruct (Daemon_new _ _ _ h) as [[[[w1 c1] ls1]|e] h1]; [|done]. destruct Hw as (Hw1 & Hw2 & Hw3).
    destruct (Config_new_names _ _ _ _ Hcfg) as (Hfree & Hids & Hnames). intros [= <- <- <- <-].
    split; [done|]. exists cfg. rewrite Hw1, Hw2. split_and!; auto. unfold dir in Hdir.
    case_decide; [by left|by right].
  - unfold mbind, OS_bind. by destruct (Client_new _ _ _ _ _ h) as [[c1|e] h1].
Qed.

(** C12: the whole system, from the configuration file to the users: when the
    process runs as the daemon, whatever file it was given and whatever the
    clients, the boards and the system then do, two sessions whose boards have
    the same name are one session, and the board it has is a board of the file,
    with the address, commands and reservation given there. *)
Theorem system_shares_boards ltr o ssh f pad h w0 c ls h' w :
  main o ssh ltr f pad h = (inl (DaemonRuns w0 c ls), h') → runs (λ _ _, True) w0 w →
  ∃ cfg, Config_new ltr (opt_config o) f = CRet cfg ∧
  ∀ p1 s1 i1 b1, w_heap w !! p1 = Some s1 → ses_board s1 = Some i1 → w_boards w !! i1 = Some b1 →
    (∃ b, cfg_boards cfg !! i1 = Some b ∧ board_config b1 = board_config b) ∧
    ∀ p2 s2 i2 b2, w_heap w !! p2 = Some s2 → ses_board s2 = Some i2 → w_boards w !! i2 = Some b2 →
      b_id b1 = b_id b2 → p1 = p2.
Proof using Type.
  intros (_ & cfg & Hcfg & _ & Hbds & _ & Hi & Hids & _)%main_daemon Hr. exists cfg. split; [done|].
  intros p1 s1 i1 b1 Hp1 Hs1 Hb1. pose proof (runs_board _ _ _ _ _ Hr Hb1) as (c1 & Hc1 & He1).
  split; [rewrite <- Hbds; eauto|].
  intros p2 s2 i2 b2 Hp2 Hs2 Hb2 Hid. pose proof (runs_board _ _ _ _ _ Hr Hb2) as (c2 & Hc2 & He2).
  assert (i1 = i2) as <-.
  { eapply (NoDup_lookup (b_id <$> w_boards w0)); [done|by rewrite list_lookup_fmap, Hc1|].
    rewrite list_lookup_fmap, Hc2. cbn. injection He1. injection He2. intros. congruence. }
  pose proof (reachable_inv _ _ (runs_reachable _ _ _ Hi Hr)) as Hinv.
  destruct (inv_board _ Hinv _ _ _ Hp1 Hs1) as (d1 & Hd1 & Ho1).
  destruct (inv_board _ Hinv _ _ _ Hp2 Hs2) as (d2 & Hd2 & Ho2). congruence.
Qed.

(** The command of a restricted ssh key, when it is obeyed. *)
Definition ssh_request (o : opts) (ssh : option bytes) : option bytes :=
  if opt_allow_set_authorized_keys o then ssh else None.

(** The socket directory: the one of the command line before the one of the file. *)
Definition sock_dir_is (o : opts) (cfg : Config) (dir : bytes) : Prop :=
  (opt_sock_dir o ≠ [] → dir = opt_sock_dir o) ∧ (opt_sock_dir o = [] → dir = cfg_sock_dir cfg).

(** The client an option list asks for. *)
Definition client_of (o : opts) (dir pad : bytes) : OS Client :=
  Client_new dir (if opt_list_sessions o then list_sessions else connect) (opt_name o) (opt_no_wait o) pad.

(** An exception on the way to the loop: of the configuration, for want of a
    socket directory, or of the constructor of the daemon or the client. *)
Definition start_throws (o : opts) (ltr : bool) (f : file) (pad : bytes) (h : list syscall) : Prop :=
  (∃ e, Config_new ltr (opt_config o) f = CThrow e) ∨
  ∃ cfg dir, Config_new ltr (opt_config o) f = CRet cfg ∧ sock_dir_is o cfg dir ∧
    (dir = [] ∨
     opt_daemon o = true ∧ (∃ e h', Daemon_new dir (cfg_boards cfg) (cfg_proxy_factories cfg) h = (inr e, h')) ∨
     opt_daemon o = false ∧ ∃ e h', client_of o dir pad h = (inr e, h')).

(** The exit code of a command of a restricted ssh key. *)
Definition ssh_exit (h : list syscall) (cmd : bytes) : Z :=
  if decide (cmd = bs "set-authorized-keys") then
    let ret := (kernel h (System set_keys_script)).1 in if decide (ret = -1) then 1 else ret
  else 1.

Lemma handle_ssh_command_exits cmd h : ∃ h', handle_ssh_command cmd h = (inl (Exited (ssh_exit h cmd)), h').
Proof using Type.
  unfold handle_ssh_command, ssh_exit, mbind, OS_bind, sys. case_decide; [|by eexists].
  destruct (kernel h (System set_keys_script)) as [ret err]. cbn. case_decide; by eexists.
Qed.

Lemma chosen_dir_is o cfg : sock_dir_is o cfg (if decide (opt_sock_dir o ≠ []) then opt_sock_dir o else cfg_sock_dir cfg).
Proof using Type. split; intros Ho; case_decide; congruence. Qed.

(** C39: how [main] gets to a loop or to an exit code. It runs the daemon or the
    client that the options ask for only with a non-empty socket directory, the
    one of the command line before the one of the configuration file; the daemon
    starts its loop in an initial state with the configured boards and proxies.
    It exits before any loop with the code of a restricted ssh command, or with
    code 1, and then an exception of the configuration, the missing directory or
    the constructor was caught; no exception escapes, and only reading the
    configuration can be undefined. *)
Theorem main_starts ltr o ssh f pad h :
  match main o ssh ltr f pad h with
  | (inl (DaemonRuns w c ls), h') =>
    ssh_request o ssh = None ∧ opt_daemon o = true ∧
    ∃ cfg dir, Config_new ltr (opt_config o) f = CRet cfg ∧ sock_dir_is o cfg dir ∧ dir ≠ [] ∧
      Daemon_new dir (cfg_boards cfg) (cfg_proxy_factories cfg) h = (inl (w, c, ls), h') ∧
      w_boards w = cfg_boards cfg ∧ w_listeners w = cfg_proxy_factories cfg ∧
      initial w ∧ NoDup (b_id <$> w_boards w) ∧ NoDup (sock_name <$> w_listeners w)
  | (inl (ClientRuns c), h') =>
    ssh_request o ssh = None ∧ opt_daemon o = false ∧
    ∃ cfg dir, Config_new ltr (opt_config o) f = CRet cfg ∧ sock_dir_is o cfg dir ∧ dir ≠ [] ∧
      client_of o dir pad h = (inl c, h') ∧ cl_is_connect c = negb (opt_list_sessions o)
  | (inl (Exited code), _) =>
    match ssh_request o ssh with
    | Some cmd => code = ssh_exit h cmd
    | None => code = 1 ∧ start_throws o ltr f pad h
    end
  | (inl (Undefined u), _) => ssh_request o ssh = None ∧ Config_new ltr (opt_config o) f = CUndef u
  | (inr _, _) => False
  end.
Proof using Type.
  unfold main. fold (ssh_request o ssh). destruct (ssh_request o ssh) as [cmd|] eqn:Hssh.
  { destruct (handle_ssh_command_exits cmd h) as (h' & ->). done. }
  unfold catching, lift_cres. destruct (Config_new ltr (opt_config o) f) as [cfg|e|u] eqn:Hcfg; [|split; [done|left; eauto]|done].
  pose proof (chosen_dir_is o cfg) as Hdir. set (dir := if decide (opt_sock_dir o ≠ []) then _ else _) in *.
  assert (dir = [] ∨
     opt_daemon o = true ∧ (∃ e h', Daemon_new dir (cfg_boards cfg) (cfg_proxy_factories cfg) h = (inr e, h')) ∨
     opt_daemon o = false ∧ (∃ e h', client_of o dir pad h = (inr e, h')) → start_throws o ltr f pad h) as Hthrows
    by (intros Ho; right; by exists cfg, dir).
  case_decide as Hne; [split; auto|]. unfold mbind, OS_bind. destruct (opt_daemon o) eqn:Hd.
  - pose proof (Daemon_new_world dir (cfg_boards cfg) (cfg_proxy_factories cfg) h) as Hw. unfold os_wp in Hw.
    destruct (Daemon_new _ _ _ h) as [[[[w c] ls]|e] h'] eqn:Hnew; [|split; [done|apply Hthrows; eauto 6]].
    destruct Hw as (Hw1 & Hw2 & Hw3). destruct (Config_new_names _ _ _ _ Hcfg) as (Hfree & Hids & Hnames).
    split_and!; [done..|]. exists cfg, dir. rewrite Hw1, Hw2. split_and!; auto.
  - fold (client_of o dir pad). pose proof (Client_new_connect dir (if opt_list_sessions o then list_sessions else connect)
      (opt_name o) (opt_no_wait o) pad h) as Hc. fold (client_of o dir pad) in Hc. unfold os_wp in Hc.
    destruct (client_of o dir pad h) as [[c|e] h'] eqn:Hnew; [|split; [done|apply Hthrows; eauto 6]].
    split_and!; [done..|]. exists cfg, dir. split_and!; [done..|]. rewrite Hc. by destruct (opt_list_sessions o).
Qed.

(** a failed [set-authorized-keys] is reported as success: [main] returns the
    wait status of the shell, whose low byte, all that becomes the exit status,
    is zero for every exit code of the script. *)
Theorem set_keys_failure_hidden o f ltr pad h code :
  opt_allow_set_authorized_keys o = true → 0 ≤ code < 256 →
  (kernel h (System set_keys_script)).1 = code * 256 →
  ∃ ret h', main o (Some (bs "set-authorized-keys")) ltr f pad h = (inl (Exited ret), h') ∧
    exit_status ret = 0.
Proof using Type.
  intros Ha Hc Hk. unfold main. rewrite Ha. unfold handle_ssh_command. rewrite decide_True by done.
  unfold mbind, OS_bind, sys. destruct (kernel h (System set_keys_script)) as [ret err]. cbn in Hk. subst ret.
  rewrite decide_False by lia. eexists _, _. split; [done|]. unfold exit_status, u8.
  change (2 ^ 8) with 256. apply Z_mod_mult.
Qed.
End main.

(** ** Instances *)
Lemma daemon_options_exclusive_witness :
  let o := mk_opts (bs "c.toml") true [] (bs "/tmp/bp") false false false in
  argp_parse [(KeyConfig, bs "c.toml"); (ARGP_KEY_ARG 0, bs "/tmp/bp"); (KeyDaemon, [])] no_opts = Some o ∧
  opt_no_wait o = false.
Proof.
  split; [vm_compute; reflexivity|].
  apply (daemon_options_exclusive [(KeyConfig, bs "c.toml"); (ARGP_KEY_ARG 0, bs "/tmp/bp"); (KeyDaemon, [])]);
    [vm_compute; reflexivity|reflexivity].
Defined.

Lemma set_keys_failure_hidden_witness :
  ∃ ret h', @main demo_env demo_kernel (mk_opts [] false [] [] false true false) (Some (bs "set-authorized-keys"))
      true CannotOpen [] [] = (inl (Exited ret), h') ∧ exit_status ret = 0.
Proof.
  apply (@set_keys_failure_hidden demo_env demo_kernel (mk_opts [] false [] [] false true false) CannotOpen
    true [] [] 1); [reflexivity|lia|reflexivity].
Defined.

(** The daemon started on the configuration of the tests, and two users. *)
Definition daemon_opts : opts := mk_opts (bs "test.toml") true [] [] false false false.
Definition booted : world :=
  match (@main demo_env demo_kernel daemon_opts None true test_file [] []).1 with
  | inl (DaemonRuns w _ _) => w
  | _ => demo_start [] false
  end.
Definition two_users : list event :=
  [demo_accept 1 10 (bs "alice"); demo_setup 1 connect 1001 false 20;
   demo_accept 2 11 (bs "bob"); demo_setup 2 connect 1002 false 30].
Definition system_world : world := default booted (@run demo_env any two_users booted).

Lemma run_runs `{Env} w0 evs w w' : runs (λ _ _, True) w0 w → run any evs w = Some w' → runs (λ _ _, True) w0 w'.
Proof.
  revert w. induction evs as [|ev evs IH]; cbn; intros w Hr Hrun; [by simplify_eq|].
  rewrite andb_true_r in Hrun. destruct (enabledb w ev) eqn:He; [|done]. apply enabledb_sound in He.
  destruct (handle ev w) as [[] w1| |] eqn:Hh; [|done..].
  eapply IH; [|done]. eapply runs_step; [done..|]. by split.
Qed.

Lemma system_shares_boards_witness :
  ∃ s b c, w_heap system_world !! 1%N = Some s ∧ ses_board s = Some 1%nat ∧ w_boards system_world !! 1%nat = Some b ∧
    b_owner b = Some 1%N ∧ cfg_boards demo_config !! 1%nat = Some c ∧ board_config b = board_config c.
Proof.
  destruct (w_heap system_world !! 1%N) as [s|] eqn:Hs; [|vm_compute in Hs; discriminate].
  destruct (w_boards system_world !! 1%nat) as [b|] eqn:Hb; [|vm_compute in Hb; discriminate].
  destruct (@run demo_env any two_users booted) as [w|] eqn:Hrun; [|vm_compute in Hrun; discriminate].
  assert (ses_board s = Some 1%nat) as Hbs by (vm_compute in Hs; injection Hs as <-; reflexivity).
  assert (∃ cl ls h, @main demo_env demo_kernel daemon_opts None true test_file [] [] = (inl (DaemonRuns booted cl ls), h))
    as (cl & ls & h & Hm) by (do 3 eexists; vm_compute; reflexivity).
  destruct (@system_shares_boards demo_env demo_kernel true daemon_opts None test_file [] [] booted cl ls h system_world)
    as (cfg & Hcfg & Hw); [exact Hm| |].
  - apply (@run_runs demo_env booted two_users booted); [constructor|]. unfold system_world. rewrite Hrun. reflexivity.
  - destruct (Hw 1%N s 1%nat b Hs Hbs Hb) as [(c & Hc & Hbc) _]. exists s, b, c.
    assert (Hd : @Config_new demo_env true (opt_config daemon_opts) test_file = CRet demo_config)
      by (vm_compute; reflexivity).
    rewrite Hd in Hcfg. injection Hcfg as <-.
    split_and!; [reflexivity|exact Hbs|reflexivity| |exact Hc|exact Hbc].
    vm_compute in Hb. injection Hb as <-. reflexivity.
Defined.
